(* ===== verification/_CoqProject ===== *)
-Q . S2P
Prelude.v
BTree.v
Text.v
Codec.v
Externals.v
Keys.v
Subkey.v
Msg.v
Envelope.v
Value.v
Storage.v
Mem.v
Addr.v
StateError.v
Ledger.v
LedgerSpec.v
Fixtures.v
LedgerProps.v
Chain.v
ChainSpec.v
ChainStore.v
ChainInsert.v
ChainCompact.v
Change.v
ChangeSpec.v
ChangeWalk.v
ChainFixtures.v
ChainProps.v
ForkChoice.v
ChangeProps.v
Subscribe.v
SubscribeProps.v
Locator.v
Sync.v
Puller.v
Server.v
Frame.v
SyncDriver.v
Contract.v
DriverSpec.v
SessionSpec.v
FrameSpec.v
FrameProps.v
SessionRun.v
Core.v
CoreSync.v
CorePath.v
CoreSpec.v
CoreSession.v
CoreNode.v
CoreFixtures.v
CoreProps.v
SyncProps.v
Compaction.v
CompactionProps.v
Advertise.v
StateDirectory.v
Listing.v
AddrPublish.v
AdvertiseSpec.v
AdvertiseProps.v
PeerLink.v
PeerEgress.v
Invite.v
Mainloop.v
InviteProps.v
MainloopProps.v
Bootstrap.v
BootstrapProps.v
Sql.v
Sqlite.v
SqlLogic.v
SqliteTree.v
SqliteWrite.v
SqliteCopy.v
SqliteView.v
SqliteStore.v
SqliteSpec.v
SqliteFixtures.v
SqliteProps.v
