(* ===== verification/Prelude.v ===== *)
(** * iroh-lotus: a verification library

    iroh-lotus keeps a replicated ledger: signed envelopes form a tree by their
    [prev] digests, every node picks one path of it as canonical, and the state
    at a head is what the messages on that path wrote. This library models the
    program from the value trees up to two nodes syncing, and proves what makes
    each part correct.

    ** The parts, bottom up

    - [crates/wire]: [Codec] (the shapes handed to [cbor2], fixed-width byte
      strings, hex), [Keys], [Envelope] (statuses and both digests), [Subkey]
      (paths, and a path as text), [Msg] (messages, predicates, increments),
      [Addr] (iroh addresses).
    - [crates/storage]: [Value] (the walks and amendments of [value.rs]),
      [Storage] (the trait as the class [Storage], and what a backend promises
      as the class [StorageSpec] over the abstract [Store]), [Mem] (the in-memory
      backend, with the instance of [StorageSpec] that discharges the promise);
      the SQLite backend: [Sql] (its tables as finite maps, what a statement and
      a transaction do), [Sqlite] (every function of [sqlite.rs]), [SqlLogic]
      (triples over a connection), [SqliteTree], [SqliteWrite] and [SqliteCopy]
      (trees of rows: read, built, path-copied), [SqliteView]
      (the [Store] the tables spell, and every read of it), [SqliteStore]
      (the writes), [SqliteSpec] (retention, its instance of [StorageSpec]).
    - [crates/state]: [StateError], [Ledger] (a cursor at a head: opening,
      adopting, verifying, judging and applying envelopes), [Chain] (storing
      runs, fork choice, ancestry, compaction), [Change] (change sets and the
      walk between two heads).
    - [crates/sync]: [Sync] (messages, queries, effects), [Locator], [Puller]
      and [Server] (the two session machines), [Frame] (the codec).
    - [crates/lotusd]: [Subscribe] (filters, the registry, a subscriber beside
      its publisher), [SyncDriver] (the effect loop, over the class [SyncCore]),
      [Core] (inserting and publishing, reading, signing, what signs alone),
      [CoreSync] (answers to a session), [Compaction] (the cut, the pass and the
      state directory, the log readers), [Advertise] (admitting a node, and
      keeping this node's own listing), [AddrPublish] (the actor that decides when
      it does), [PeerLink] (one connection: its sessions and the pull it owes),
      [PeerEgress] (the table of peers and the tasks that keep their
      connections), [Invite] (tokens, expiry, the sponsor's book of invites),
      [Mainloop] (the task that owns the core: one function per message it serves,
      with the types of [crates/lotusd-rpc] its answers are spelt in),
      [StateDirectory] (creating, joining and opening a state directory, over a
      script of file-system outcomes), [Bootstrap] (both sides of a join: the
      sponsor's task as a program of operations its world answers, the joiner
      over its disk and its connection).

    A state is the source's: [Chain] and [Ledger] are digests into a store,
    [Core] the storage, chain, oldest digest, keys and subscriptions, a machine
    its [State]. [Result], [Outcome] and the monad [M] below keep an error, a
    panic and fuel that runs out apart, and keep the state an error leaves
    behind. [BTree] is [BTreeMap] with its order, [Text] bytes and strings.

    ** What the theorems show

    - Values ([Value], [Addr], [Subkey]): a nested set writes one value and nothing
      beside it; a delete takes exactly what matches; an increment is the clamped
      sum or an overflow; addresses round-trip, and so does a
      path through its text.
    - SQLite ([SqliteProps]): a commit refines the operation on the version or
      rolls back whole; retention is an exact collection of what no kept root
      reaches; trees and log entries round-trip; whatever sequence of requests
      and openings, failing where they may ([conn_step]), leaves is typed;
      opening refuses foreign files and can be tried again. Since the instance
      keeps the promise, every theorem on ledger, chain and core holds over it.
    - Ledger ([LedgerSpec], [LedgerProps]): over any backend [apply] does what
      the pure [judge] of one version says, or stops at the backend's failure;
      two backends agree; reachable versions obey the reserved namespaces' rules,
      so configuration reads are total; a verified status is worth what it says;
      a checkpoint restores the version it was taken from.
    - Chain ([ChainSpec], [ChainStore], [ChainInsert], [ChainCompact],
      [ChainProps], [ForkChoice]): [winner] is the fork choice as a relation and
      [tip] its normal form; inserting always ends at the tip and reports what
      happened, a refused run keeps the whole of its prefix and says what the
      rules make of the envelope after it ([refusal]); head and version are a function
      of the log; nodes that exchanged canonical paths agree; compaction takes
      exactly what lies off the way from the cut; reopening restores the chain.
    - Changes and subscriptions ([ChangeSpec], [ChangeWalk], [ChangeProps],
      [SubscribeProps]): a movement is the symmetric difference of two branches,
      change sets are exact, untouched paths read the same; a subscriber is told
      every movement it matches under any interleaving, a push being two steps,
      its merge and its wake ([push_steps]), with the reader free to run between.
    - Sync ([Contract], [DriverSpec], [SessionSpec], [FrameSpec], [SessionRun],
      [FrameProps], [Locator], [CorePath], [CoreSession], [CoreNode],
      [SyncProps]): [contract_step] is the contract between driver and machine,
      the machines' promises are invariants of it, and [drive] refines it on
      every script of a peer and a network; a pull and a serve are safe against
      any peer; two honest nodes end synced however the stream is cut, unless a
      backend fails or the puller's own rules do not take the run ([welcomes],
      by [retrace]); the codec waits for a frame, takes it whole or refuses its
      prefix on sight.
    - Core ([CoreSpec], [CoreProps], [CompactionProps]): inserting publishes
      exactly the movement; what [signs_alone] is worth; a compaction pass that
      fails anywhere leaves a node that reopens at its head.
    - The daemon's own writes ([Listing], [AdvertiseSpec], [AdvertiseProps],
      [InviteProps], [MainloopProps]): the edits of a listing reach the address and lose nothing
      of it on the way; a node advertises only for itself and where its envelope
      counts; the book honours exactly the invites outstanding, each once; and
      while an invite is outstanding the mainloop, whatever it serves, answers
      every turn and stays rooted where the invite says.
    - Joining ([BootstrapProps]): beside the mainloop and other joiners a
      sponsor admits exactly whom it invited, once, at the invite's weight; a
      joiner ends rooted where its invite says and trusted by the chain it
      stands on, or its error says what is left on its disk.
    - The daemon's actors ([AddrPublish], [PeerLink], [PeerEgress]): one turn of
      each is a function, and its environment (the clock, the tasks it spawned,
      its peers) the other steps of a relation; the address publisher forgets no
      wake and comes to rest at the address; a connection pulls what it hears of,
      one pull at a time; a reading of the cluster's list brings the connections
      in line with it; redialling backs off by doubling.

    Where the program does not do what its documentation says, a theorem shows
    that too: a cleared array element goes unreported, an unmatched movement is
    missing from a notification that spans it, [signs_alone] answers for a key
    the ledger does not trust, a compaction that fails late takes the head away
    from a chain still running, a pull lost to a panic is the last of its
    connection, a node listed again too soon is dialled by nobody, a stored
    branch whose versions were dropped is not built on again, a join that
    fails late leaves a directory the next one is refused in.

    ** Fuel

    Every loop whose end is not structural runs on fuel, and the theorem about it
    states how much is enough. The walks up and down the log need more than its
    size, since [rank] falls along [prev] ([higher], [not_higher] of [ChainSpec]
    are the measures); the removal walk of a compaction and the insert of a run
    need twice that and the run's length; a session needs the bytes its peer can
    send and twice the log ([script_bytes], [DriverSpec]). The contracts show that
    each loop ends; materializing a tree of rows needs one round more than there
    are nodes, since each level down spells a lower value ([repr_height]), and
    the recursive walk of a retention as many rounds as there are edges
    ([reachable_closed]); a statement that starts from a run that returned is about one
    whose contract says that it does, unless the backend fails.

    ** What is assumed

    - [Externals] holds the third-party functions: [cbor2]'s canonical encoding,
      [blake3], [ed25519-zebra], [iroh]'s addresses; [wire_decode] is decoding.
      Nothing is assumed of the hash but what a statement says: [pins] is the
      message each digest stands for and [rank] a height each message's [prev]
      is below ([HashOk]), over the envelopes at hand. [Toy] instantiates them
      all with functions that compute, for the witnesses.
    - [Key_id] always encodes ([Hid] in the statements): the source expects it.
    - A backend keeps [StorageSpec], in which any call may fail; [Mem] and
      [Sqlite] do. Of the engine ([Rusqlite]) it is assumed that a statement does
      to the tables what it says or fails, that an uncommitted transaction is
      rolled back, and that a new row's id is unused; of the codec
      ([StoredLaws]) that what was encoded decodes. Each call's outcome is a
      stream, reads having one of their own; a read at one state answers alike
      each time. The instance refuses data no Rust type holds ([typed]).
      [SqliteFixtures] instantiates all of it.
    - A transport is a script of reads and write failures, a state directory one
      of write outcomes, the wall clock a stream of readings; statements hold for
      every script. A call of the file system does what it says or fails, a failed
      write leaving any prefix of its bytes ([StateDirectory]).
    - [BootCodec] is [cbor2]'s bytes of a control frame, [KeyCrates] the public
      halves of two secrets, [IoErrors] the kinds of error the source asks for.

    ** Not modelled

    - The conformance suite that runs against backends. Of SQLite the engine:
      statements are functions on finite maps, its pages, caches and pragmas
      beside the file's header are calls with an outcome.
    - The human-readable form of [dual_repr!] (serde's derive); [StoredAt]'s
      calendar conversions ([chrono]); the text form of an invite (base32 over
      [cbor2]).
    - The accepting of connections, the handler of the control protocol, and how
      the mainloop starts and stops its actors: asynchronous I/O over tokio and
      iroh. Of the actors and the mainloop the scheduler: an event is any that
      could come next. The server handle's instance of [SyncCore] is a mailbox in
      front of the core's. Of the state directory the modes of its files and a
      crash inside one call.
    - What a failed [write_all] has already written of a frame: the session is
      over. A compaction that finds leftovers below its root from an earlier
      interrupted prune: [compaction_durable] starts from a node without them. *)

From Stdlib Require Export Sorted ZifyBool.
From stdpp Require Export base tactics numbers list sorting option gmap strings.

(** ** Results, outcomes and computations

    A Rust function that returns [Result<A, E>] can also panic, and a loop of
    the source is a [Fixpoint] on fuel here, so running out of fuel is kept
    apart from both. *)

Inductive Result (E A : Type) : Type :=
  | Ok (a : A)
  | Err (e : E).
Arguments Ok {E A} a.
Arguments Err {E A} e.

Inductive Outcome (A : Type) : Type :=
  | Ret (a : A)
  | Panic
  | Diverge.
Arguments Ret {A} a.
Arguments Panic {A}.
Arguments Diverge {A}.

(** A computation that reads only what it is handed. *)
Definition Comp (E A : Type) : Type := Outcome (Result E A).

(** A computation over a [&mut] state: the state survives an [Err]. *)
Definition M (S E A : Type) : Type := S → Outcome (Result E A * S).

Definition c_ok {E A} (a : A) : Comp E A := Ret (Ok a).

Definition c_err {E A} (e : E) : Comp E A := Ret (Err e).

Definition c_bind {E A B} (c : Comp E A) (k : A → Comp E B) : Comp E B :=
  match c with
  | Ret (Ok a) => k a
  | Ret (Err e) => Ret (Err e)
  | Panic => Panic
  | Diverge => Diverge
  end.

Definition c_map_err {E E' A} (f : E → E') (c : Comp E A) : Comp E' A :=
  match c with
  | Ret (Ok a) => Ret (Ok a)
  | Ret (Err e) => Ret (Err (f e))
  | Panic => Panic
  | Diverge => Diverge
  end.

(** [Option::ok_or] and a [Result] that cannot panic, as computations. *)
Definition c_ok_or {E A} (e : E) (o : option A) : Comp E A :=
  match o with Some a => c_ok a | None => c_err e end.

(** [Option::expect] / [Result::expect]. *)
Definition c_expect {E A} (o : option A) : Comp E A :=
  match o with Some a => c_ok a | None => Panic end.

Definition m_ret {S E A} (a : A) : M S E A := λ s, Ret (Ok a, s).

Definition m_err {S E A} (e : E) : M S E A := λ s, Ret (Err e, s).

Definition m_panic {S E A} : M S E A := λ _, Panic.

Definition m_bind {S E A B} (m : M S E A) (k : A → M S E B) : M S E B := λ s,
  match m s with
  | Ret (Ok a, s') => k a s'
  | Ret (Err e, s') => Ret (Err e, s')
  | Panic => Panic
  | Diverge => Diverge
  end.

Definition m_map_err {S E E' A} (f : E → E') (m : M S E A) : M S E' A := λ s,
  match m s with
  | Ret (Ok a, s') => Ret (Ok a, s')
  | Ret (Err e, s') => Ret (Err (f e), s')
  | Panic => Panic
  | Diverge => Diverge
  end.

(** A [&self] method called where the state is threaded. *)
Definition m_ask {S E A} (f : S → Comp E A) : M S E A := λ s,
  match f s with
  | Ret r => Ret (r, s)
  | Panic => Panic
  | Diverge => Diverge
  end.

(** The result of [m] as a value, as [let r = f(..);] with no [?] keeps it. *)
Definition m_catch {S E E' A} (m : M S E A) : M S E' (Result E A) := λ s,
  match m s with
  | Ret (r, s') => Ret (Ok r, s')
  | Panic => Panic
  | Diverge => Diverge
  end.

Definition m_lift {S E A} (r : Result E A) : M S E A := λ s, Ret (r, s).

Declare Scope lotus_scope.
Delimit Scope lotus_scope with lotus.
Open Scope lotus_scope.

Notation "'let!' x ':=' c 'in' k" := (m_bind c (λ x, k))
  (at level 10, x pattern, c at level 100, k at level 200)
  : lotus_scope.
Notation "'do!' c 'in' k" := (m_bind c (λ _, k))
  (at level 10, c at level 100, k at level 200) : lotus_scope.
Notation "'let?' x ':=' c 'in' k" := (c_bind c (λ x, k))
  (at level 10, x pattern, c at level 100, k at level 200)
  : lotus_scope.
Notation "'do?' c 'in' k" := (c_bind c (λ _, k))
  (at level 10, c at level 100, k at level 200) : lotus_scope.

(** [Iterator::collect::<Result<Vec<_>, _>>]: the first error wins. *)
Fixpoint collect {E A} (l : list (Result E A)) : Result E (list A) :=
  match l with
  | [] => Ok []
  | Ok a :: l' => match collect l' with Ok r => Ok (a :: r) | Err e => Err e end
  | Err e :: _ => Err e
  end.

(** [Iterator::try_for_each] over a fallible check. *)
Fixpoint try_for_each {E A} (f : A → Result E ()) (l : list A) : Result E () :=
  match l with
  | [] => Ok ()
  | a :: l' => match f a with Ok _ => try_for_each f l' | Err e => Err e end
  end.

(** [Iterator::try_fold] into an [Option]. *)
Fixpoint try_fold {A B} (f : A → B → option A) (a : A) (l : list B) : option A :=
  match l with
  | [] => Some a
  | b :: l' => match f a b with Some a' => try_fold f a' l' | None => None end
  end.

(** ** Weakest preconditions

    [wp m s Q X]: run from [s], [m] neither panics nor exhausts its fuel, ends
    in [Q] with its value and state, or in [X] with its error and state. *)

Definition wp {S E A} (m : M S E A) (s : S) (Q : A → S → Prop) (X : E → S → Prop) : Prop :=
  match m s with
  | Ret (Ok a, s') => Q a s'
  | Ret (Err e, s') => X e s'
  | Panic | Diverge => False
  end.

Definition cwp {E A} (c : Comp E A) (Q : A → Prop) (X : E → Prop) : Prop :=
  match c with
  | Ret (Ok a) => Q a
  | Ret (Err e) => X e
  | Panic | Diverge => False
  end.

(** ** Total orders, as [Ord] *)

Class Ord (A : Type) := cmp : A → A → comparison.
#[global] Hint Mode Ord ! : typeclass_instances.

Class OrdLaws (A : Type) `{Ord A} := {
  cmp_eq_iff : ∀ a b : A, cmp a b = Eq ↔ a = b;
  cmp_flip : ∀ a b : A, cmp b a = CompOpp (cmp a b);
  cmp_lt_trans : ∀ a b c : A, cmp a b = Lt → cmp b c = Lt → cmp a c = Lt;
}.
#[global] Hint Mode OrdLaws ! - : typeclass_instances.

#[export] Instance N_ord : Ord N := N.compare.

#[export] Instance Z_ord : Ord Z := Z.compare.

(** Lexicographic order, as slices, [Vec]s, strings and arrays compare. *)
Fixpoint list_cmp {A} `{Ord A} (l k : list A) : comparison :=
  match l, k with
  | [], [] => Eq
  | [], _ => Lt
  | _, [] => Gt
  | a :: l', b :: k' => match cmp a b with Eq => list_cmp l' k' | c => c end
  end.

#[export] Instance list_ord {A} `{Ord A} : Ord (list A) := list_cmp.

(** Lexicographic order of pairs, as tuples compare. *)
#[export] Instance prod_ord {A B} `{Ord A, Ord B} : Ord (A * B) := λ x y,
  match cmp x.1 y.1 with Eq => cmp x.2 y.2 | c => c end.

(** [Iterator::max_by_key]: the last of the maximal elements. *)
Fixpoint max_by_key {A K} `{Ord K} (key : A → K) (l : list A) : option A :=
  match l with
  | [] => None
  | a :: l' =>
      match max_by_key key l' with
      | None => Some a
      | Some b => match cmp (key a) (key b) with Gt => Some a | _ => Some b end
      end
  end.

(** ** Machine integers *)

Definition i64_min : Z := (- 2 ^ 63)%Z.

Definition i64_max : Z := (2 ^ 63 - 1)%Z.

Definition u32_max : N := (2 ^ 32 - 1)%N.

Definition is_i64 (z : Z) : Prop := (i64_min ≤ z ≤ i64_max)%Z.

(** [i64::checked_add]. *)
Definition checked_add (a b : Z) : option Z :=
  if decide (is_i64 (a + b)) then Some (a + b)%Z else None.

(** [u32::try_from] of an [i64] and of a [u64]. *)
Definition u32_try_from_i64 (z : Z) : option N :=
  if decide (0 ≤ z ≤ Z.of_N u32_max)%Z then Some (Z.to_N z) else None.

Definition u32_try_from_u64 (n : N) : option N :=
  if decide (n ≤ u32_max)%N then Some n else None.

(** ** Lemmas on computations *)

Lemma m_bind_assoc {S E A B C} (m : M S E A) (k : A → M S E B) (k' : B → M S E C) s :
  m_bind (m_bind m k) k' s = m_bind m (λ a, m_bind (k a) k') s.
Proof. unfold m_bind. by destruct (m s) as [[[a|e] s']| |]. Qed.

Lemma m_bind_ext {S E A B} (m : M S E A) (k k' : A → M S E B) s :
  (∀ a s', k a s' = k' a s') → m_bind m k s = m_bind m k' s.
Proof. intros Hk. unfold m_bind. by destruct (m s) as [[[a|e] s']| |]. Qed.

Section wp_rules.
Context {S E A B : Type}.
Implicit Types (s : S) (m : M S E A).

Lemma wp_ret (a : A) s (Q : A → S → Prop) (X : E → S → Prop) :
  Q a s → wp (m_ret a) s Q X.
Proof. done. Qed.

Lemma wp_err (e : E) s (Q : A → S → Prop) (X : E → S → Prop) :
  X e s → wp (m_err e) s Q X.
Proof. done. Qed.

Lemma wp_bind m (k : A → M S E B) s (Q : B → S → Prop) (X : E → S → Prop) :
  wp m s (λ a s', wp (k a) s' Q X) X → wp (m_bind m k) s Q X.
Proof. unfold wp, m_bind. by destruct (m s) as [[[a|e] s']| |]. Qed.

Lemma wp_mono m s (Q Q' : A → S → Prop) (X X' : E → S → Prop) :
  wp m s Q X → (∀ a s', Q a s' → Q' a s') → (∀ e s', X e s' → X' e s') → wp m s Q' X'.
Proof. unfold wp. destruct (m s) as [[[a|e] s']| |]; naive_solver. Qed.

Lemma wp_ask (f : S → Comp E A) s (Q : A → S → Prop) (X : E → S → Prop) :
  cwp (f s) (λ a, Q a s) (λ e, X e s) → wp (m_ask f) s Q X.
Proof. unfold wp, m_ask, cwp. by destruct (f s) as [[a|e]| |]. Qed.

Lemma wp_lift (r : Result E A) s (Q : A → S → Prop) (X : E → S → Prop) :
  match r with Ok a => Q a s | Err e => X e s end → wp (m_lift r) s Q X.
Proof. by destruct r. Qed.

Lemma wp_map_err {E'} (f : E' → E) (m : M S E' A) s (Q : A → S → Prop) (X : E → S → Prop) :
  wp m s Q (λ e s', X (f e) s') → wp (m_map_err f m) s Q X.
Proof. unfold wp, m_map_err. by destruct (m s) as [[[a|e] s']| |]. Qed.

Lemma wp_catch {E'} (m : M S E' A) s (Q : Result E' A → S → Prop) (X : E → S → Prop) :
  wp m s (λ a, Q (Ok a)) (λ e, Q (Err e)) → wp (m_catch m) s Q X.
Proof. unfold wp, m_catch. by destruct (m s) as [[[a|e] s']| |]. Qed.
End wp_rules.

Section cwp_rules.
Context {E A B : Type}.

Lemma cwp_bind (c : Comp E A) (k : A → Comp E B) (Q : B → Prop) (X : E → Prop) :
  cwp c (λ a, cwp (k a) Q X) X → cwp (c_bind c k) Q X.
Proof. unfold cwp, c_bind. by destruct c as [[a|e]| |]. Qed.

Lemma c_bind_Ok (c : Comp E A) (k : A → Comp E B) b :
  c_bind c k = Ret (Ok b) → ∃ a, c = Ret (Ok a) ∧ k a = Ret (Ok b).
Proof. destruct c as [[a|e]| |]; [|done..]. intros Hk. by exists a. Qed.

Lemma cwp_map_err {E'} (f : E' → E) (c : Comp E' A) (Q : A → Prop) (X : E → Prop) :
  cwp c Q (λ e, X (f e)) → cwp (c_map_err f c) Q X.
Proof. unfold cwp, c_map_err. by destruct c as [[a|e]| |]. Qed.

Lemma cwp_mono (c : Comp E A) (Q Q' : A → Prop) (X X' : E → Prop) :
  cwp c Q X → (∀ a, Q a → Q' a) → (∀ e, X e → X' e) → cwp c Q' X'.
Proof. unfold cwp. destruct c as [[a|e]| |]; naive_solver. Qed.
End cwp_rules.

Lemma collect_Ok {E A} (l : list A) : collect (map (@Ok E A) l) = Ok l.
Proof. induction l as [|a l IH]; [done|]. simpl. by rewrite IH. Qed.

Lemma collect_Ok_inv {E A} (l : list (Result E A)) (r : list A) :
  collect l = Ok r → l = map (@Ok E A) r.
Proof.
  revert r. induction l as [|[a|e] l IH]; intros r H; simplify_eq/=; [done|].
  destruct (collect l) as [r'|e'] eqn:Hc; simplify_eq/=. by rewrite (IH r').
Qed.

Lemma try_for_each_Ok {E A} (f : A → Result E ()) (l : list A) :
  try_for_each f l = Ok () ↔ Forall (λ a, f a = Ok ()) l.
Proof.
  induction l as [|a l IH]; simpl; [by split|].
  rewrite Forall_cons, <-IH. destruct (f a) as [[]|e]; naive_solver.
Qed.

Lemma try_fold_app {A B} (f : A → B → option A) (a : A) (l k : list B) :
  try_fold f a (l ++ k) = try_fold f a l ≫= λ a', try_fold f a' k.
Proof.
  revert a. induction l as [|b l IH]; intros a; simpl; [done|].
  destruct (f a b); simpl; [apply IH|done].
Qed.

(** ** Lemmas on orders *)

#[export] Instance N_ord_laws : OrdLaws N.
Proof.
  split; unfold cmp, N_ord.
  - apply N.compare_eq_iff.
  - apply N.compare_antisym.
  - intros a b c. rewrite !N.compare_lt_iff. lia.
Qed.

#[export] Instance Z_ord_laws : OrdLaws Z.
Proof.
  split; unfold cmp, Z_ord.
  - apply Z.compare_eq_iff.
  - apply Z.compare_antisym.
  - intros a b c. rewrite !Z.compare_lt_iff. lia.
Qed.

Section ord_facts.
Context `{OrdLaws A}.
Implicit Types a b c : A.

Lemma cmp_refl a : cmp a a = Eq.
Proof. by apply cmp_eq_iff. Qed.

Lemma cmp_gt_lt a b : cmp a b = Gt ↔ cmp b a = Lt.
Proof. rewrite (cmp_flip a b). destruct (cmp a b); naive_solver. Qed.

Lemma cmp_lt_neq a b : cmp a b = Lt → a ≠ b.
Proof. intros Hlt ->. by rewrite cmp_refl in Hlt. Qed.

(** "at most", and its transitivity. *)
Lemma cmp_le_trans a b c : cmp a b ≠ Gt → cmp b c ≠ Gt → cmp a c ≠ Gt.
Proof.
  intros Hab Hbc.
  destruct (cmp a b) eqn:E1; [apply cmp_eq_iff in E1; by subst| |done].
  destruct (cmp b c) eqn:E2; [apply cmp_eq_iff in E2; subst; by rewrite E1| |done].
  by rewrite (cmp_lt_trans a b c).
Qed.

Lemma cmp_le_antisym a b : cmp a b ≠ Gt → cmp b a ≠ Gt → a = b.
Proof.
  intros Hab Hba. apply cmp_eq_iff. rewrite (cmp_flip a b) in Hba.
  by destruct (cmp a b).
Qed.
End ord_facts.

#[export] Instance list_ord_laws `{OrdLaws A} : OrdLaws (list A).
Proof.
  split; unfold cmp, list_ord.
  - induction a as [|a l IH]; intros [|b k]; simpl; try naive_solver.
    destruct (cmp a b) eqn:E.
    + apply cmp_eq_iff in E as ->. rewrite IH. naive_solver.
    + split; [done|]. intros [= -> ->]. by rewrite cmp_refl in E.
    + split; [done|]. intros [= -> ->]. by rewrite cmp_refl in E.
  - induction a as [|a l IH]; intros [|b k]; simpl; try done.
    rewrite (cmp_flip a b). destruct (cmp a b); simpl; auto.
  - induction a as [|a l IH]; intros [|b k] [|c r]; simpl; try done.
    destruct (cmp a b) eqn:E1; destruct (cmp b c) eqn:E2; try done.
    + apply cmp_eq_iff in E1 as ->. apply cmp_eq_iff in E2 as ->.
      rewrite cmp_refl. apply IH.
    + apply cmp_eq_iff in E1 as ->. by rewrite E2.
    + apply cmp_eq_iff in E2 as ->. by rewrite E1.
    + by rewrite (cmp_lt_trans a b c).
Qed.

#[export] Instance prod_ord_laws `{OrdLaws A, OrdLaws B} : OrdLaws (A * B).
Proof.
  split; unfold cmp, prod_ord.
  - intros [a1 b1] [a2 b2]; simpl. destruct (cmp a1 a2) eqn:E.
    + apply cmp_eq_iff in E as ->. rewrite cmp_eq_iff. naive_solver.
    + split; [done|]. intros [= -> ->]. by rewrite cmp_refl in E.
    + split; [done|]. intros [= -> ->]. by rewrite cmp_refl in E.
  - intros [a1 b1] [a2 b2]; simpl. rewrite (cmp_flip a1 a2), (cmp_flip b1 b2).
    by destruct (cmp a1 a2).
  - intros [a1 b1] [a2 b2] [a3 b3]; simpl.
    destruct (cmp a1 a2) eqn:E1; destruct (cmp a2 a3) eqn:E2; try done.
    + apply cmp_eq_iff in E1 as ->. apply cmp_eq_iff in E2 as ->.
      rewrite cmp_refl. apply cmp_lt_trans.
    + apply cmp_eq_iff in E1 as ->. by rewrite E2.
    + apply cmp_eq_iff in E2 as ->. by rewrite E1.
    + by rewrite (cmp_lt_trans a1 a2 a3).
Qed.

Lemma ascending_NoDup `{OrdLaws A} (l : list A) :
  StronglySorted (λ a b, cmp a b = Lt) l → NoDup l.
Proof.
  induction 1 as [|a l Hs IH Hall]; constructor; [|done].
  intros Hin. apply (proj1 (Forall_forall _ _) Hall) in Hin. by rewrite cmp_refl in Hin.
Qed.

(** Transport of the order along an injection, for the newtypes. *)
Lemma inj_ord_laws {A B} (f : B → A) `{OrdLaws A, !Inj (=) (=) f, Ord B} :
  (∀ x y : B, cmp x y = cmp (f x) (f y)) → OrdLaws B.
Proof.
  intros Hf. split; intros *; rewrite !Hf.
  - rewrite cmp_eq_iff. split; [apply inj, _|by intros ->].
  - apply cmp_flip.
  - apply cmp_lt_trans.
Qed.

Section max_by_key.
Context {A K} `{OrdLaws K} (key : A → K).
Implicit Types l : list A.

Lemma max_by_key_None l : max_by_key key l = None ↔ l = [].
Proof.
  destruct l as [|a l]; simpl; [done|].
  destruct (max_by_key key l) as [b|]; [destruct (cmp _ _)|]; naive_solver.
Qed.

Lemma max_by_key_elem l a : max_by_key key l = Some a → a ∈ l.
Proof.
  revert a. induction l as [|b l IH]; intros a Ha; simpl in Ha; [done|].
  destruct (max_by_key key l) as [c|]; [|set_solver].
  destruct (cmp (key b) (key c)); simplify_eq; set_solver.
Qed.

Lemma max_by_key_max l a : max_by_key key l = Some a → ∀ b, b ∈ l → cmp (key b) (key a) ≠ Gt.
Proof.
  revert a. induction l as [|b l IH]; intros a Ha c Hc; simpl in Ha; [done|].
  destruct (max_by_key key l) as [d|] eqn:Hd.
  - specialize (IH d eq_refl).
    destruct (cmp (key b) (key d)) eqn:E; simplify_eq;
      apply elem_of_cons in Hc as [->|Hc]; try (by rewrite ?E); try (by rewrite cmp_refl); auto.
    apply cmp_le_trans with (key d); [by apply IH|].
    apply cmp_gt_lt in E. by rewrite E.
  - simplify_eq. apply max_by_key_None in Hd as ->.
    apply list_elem_of_singleton in Hc as ->. by rewrite cmp_refl.
Qed.
End max_by_key.

(** ** Automation *)

Create HintDb lotus discriminated.
Create Rewrite HintDb lotus.
#[export] Hint Resolve cmp_refl : lotus.

(** Splits a [wp] goal along the binds of the program. *)
Ltac wp_step :=
  match goal with
  | |- wp (m_bind _ _) _ _ _ => apply wp_bind
  | |- wp (m_map_err _ _) _ _ _ => apply wp_map_err
  | |- wp (m_ask _) _ _ _ => apply wp_ask
  | |- wp (m_ret _) _ _ _ => apply wp_ret
  | |- wp (m_err _) _ _ _ => apply wp_err
  | |- wp (m_catch _) _ _ _ => apply wp_catch
  | |- wp (m_lift _) _ _ _ => apply wp_lift
  | |- cwp (c_bind _ _) _ _ => apply cwp_bind
  | |- cwp (c_map_err _ _) _ _ => apply cwp_map_err
  | |- cwp (c_ok _) _ _ => unfold c_ok, cwp
  | |- cwp (c_err _) _ _ => unfold c_err, cwp
  end.

Ltac wp_steps := repeat (cbv beta; wp_step).

(** A decidable closed fact, by evaluating its decision. *)
Ltac by_computing := refine (bool_decide_unpack _ _); vm_compute; exact I.
