(* ===== verification/BTree.v ===== *)
(** * Ordered maps

    [std::collections::BTreeMap] as an association list in ascending key
    order: iteration order is part of what the program observes (the first
    error of a [collect], the order of [keys]), so it is part of the model.
    The operations below keep the list sorted ([sorted_insert],
    [sorted_remove], [sorted_retain]) and satisfy the usual map equations. *)

From S2P Require Import Prelude.

Abbreviation BTreeMap K V := (list (K * V)) (only parsing).

Section ops.
Context {K V : Type} `{Ord K}.
Implicit Types (m : BTreeMap K V) (k : K) (v : V).

Fixpoint bt_get m k : option V :=
  match m with
  | [] => None
  | (k', v) :: m' => match cmp k k' with Eq => Some v | _ => bt_get m' k end
  end.

Fixpoint bt_insert k v m : BTreeMap K V :=
  match m with
  | [] => [(k, v)]
  | (k', v') :: m' =>
      match cmp k k' with
      | Lt => (k, v) :: (k', v') :: m'
      | Eq => (k, v) :: m'
      | Gt => (k', v') :: bt_insert k v m'
      end
  end.

Fixpoint bt_remove k m : BTreeMap K V :=
  match m with
  | [] => []
  | (k', v') :: m' =>
      match cmp k k' with Eq => bt_remove k m' | _ => (k', v') :: bt_remove k m' end
  end.

Definition bt_retain (keep : K → V → bool) m : BTreeMap K V :=
  base.filter (λ kv, Is_true (keep kv.1 kv.2)) m.

Definition bt_keys m : list K := m.*1.

Definition bt_contains_key m k : bool :=
  match bt_get m k with Some _ => true | None => false end.

(** [FromIterator]: a key given twice keeps its last value. *)
Definition bt_from_iter (l : list (K * V)) : BTreeMap K V :=
  foldl (λ m kv, bt_insert kv.1 kv.2 m) [] l.

(** Strictly ascending keys. *)
Definition bt_sorted m : Prop := StronglySorted (λ x y, cmp x.1 y.1 = Lt) m.
End ops.

Lemma bt_insert_not_nil {K V} `{Ord K} (k : K) (v : V) m : bt_insert k v m ≠ [].
Proof. destruct m as [|[k' v'] m]; simpl; [done|]. by destruct (cmp k k'). Qed.

Section laws.
Context {K V : Type} `{OrdLaws K}.
Implicit Types (m : BTreeMap K V) (k : K) (v : V).

Lemma bt_get_insert_eq m k v : bt_get (bt_insert k v m) k = Some v.
Proof.
  induction m as [|[k' v'] m IH]; simpl; [by rewrite cmp_refl|].
  destruct (cmp k k') eqn:E; simpl; rewrite ?cmp_refl; [done..|].
  by rewrite E.
Qed.

Lemma bt_get_insert_ne m k k' v : k ≠ k' → bt_get (bt_insert k v m) k' = bt_get m k'.
Proof.
  intros Hne. induction m as [|[j w] m IH]; simpl.
  - destruct (cmp k' k) eqn:E; [|done..]. apply cmp_eq_iff in E. by subst.
  - destruct (cmp k j) eqn:E; simpl.
    + apply cmp_eq_iff in E as ->.
      destruct (cmp k' j) eqn:E'; [|done..]. apply cmp_eq_iff in E'. by subst.
    + destruct (cmp k' k) eqn:E'; [|done..]. apply cmp_eq_iff in E'. by subst.
    + destruct (cmp k' j); auto.
Qed.

Lemma bt_get_remove_eq m k : bt_get (bt_remove k m) k = None.
Proof.
  induction m as [|[j w] m IH]; simpl; [done|].
  destruct (cmp k j) eqn:E; simpl; rewrite ?E; auto.
Qed.

Lemma bt_get_remove_ne m k k' : k ≠ k' → bt_get (bt_remove k m) k' = bt_get m k'.
Proof.
  intros Hne. induction m as [|[j w] m IH]; simpl; [done|].
  destruct (cmp k j) eqn:E; simpl; try (destruct (cmp k' j); by auto).
  apply cmp_eq_iff in E as ->.
  destruct (cmp k' j) eqn:E'; [|done..]. apply cmp_eq_iff in E'. by subst.
Qed.

Lemma bt_get_elem m k v : bt_get m k = Some v → (k, v) ∈ m.
Proof.
  induction m as [|[j w] m IH]; simpl; [done|].
  destruct (cmp k j) eqn:E; intros Hg; simplify_eq; [|set_solver..].
  apply cmp_eq_iff in E as ->. set_solver.
Qed.

Lemma bt_sorted_elem_get m k v : bt_sorted m → (k, v) ∈ m → bt_get m k = Some v.
Proof.
  induction 1 as [|[j w] m Hs IH Hall]; simpl; [set_solver|].
  intros [[= -> ->]|Hin]%elem_of_cons; [by rewrite cmp_refl|].
  rewrite Forall_forall in Hall. specialize (Hall _ Hin). simpl in Hall.
  rewrite (cmp_flip j k), Hall. by apply IH.
Qed.

Lemma bt_insert_elem m k v x : x ∈ bt_insert k v m → x = (k, v) ∨ x ∈ m.
Proof.
  induction m as [|[j w] m IH]; simpl; [set_solver|].
  destruct (cmp k j); set_solver.
Qed.

Lemma bt_remove_elem m k x : x ∈ bt_remove k m → x ∈ m.
Proof.
  induction m as [|[j w] m IH]; simpl; [set_solver|].
  destruct (cmp k j); set_solver.
Qed.

Lemma sorted_insert m k v : bt_sorted m → bt_sorted (bt_insert k v m).
Proof.
  induction 1 as [|[j w] m Hs IH Hall]; simpl; [by repeat constructor|].
  destruct (cmp k j) eqn:E.
  - apply cmp_eq_iff in E as ->. by constructor.
  - constructor; [by constructor|]. constructor; [done|].
    eapply Forall_impl; [done|]. intros [i u] Hi; simpl in *.
    by apply cmp_lt_trans with j.
  - constructor; [done|]. apply Forall_forall. intros x [->|Hx]%bt_insert_elem.
    + simpl. by apply cmp_gt_lt.
    + by apply (proj1 (Forall_forall _ _) Hall).
Qed.

Lemma sorted_remove m k : bt_sorted m → bt_sorted (bt_remove k m).
Proof.
  induction 1 as [|[j w] m Hs IH Hall]; simpl; [constructor|].
  destruct (cmp k j); [done|constructor; [done|]..];
    (apply Forall_forall; intros x ?%bt_remove_elem;
     by apply (proj1 (Forall_forall _ _) Hall)).
Qed.

Lemma sorted_retain m keep : bt_sorted m → bt_sorted (bt_retain keep m).
Proof.
  unfold bt_retain, bt_sorted. induction 1 as [|[j w] m Hs IH Hall].
  - constructor.
  - rewrite filter_cons. case_decide; [|done]. constructor; [done|].
    apply Forall_forall. intros x [_ Hx]%list_elem_of_filter.
    by apply (proj1 (Forall_forall _ _) Hall).
Qed.

Lemma sorted_from_iter (l : list (K * V)) : bt_sorted (bt_from_iter l).
Proof.
  unfold bt_from_iter. assert (bt_sorted (@nil (K * V))) as Hs by constructor.
  revert Hs. generalize (@nil (K * V)) as m.
  induction l as [|[k v] l IH]; intros m Hm; simpl; [done|].
  by apply IH, sorted_insert.
Qed.

Lemma bt_get_retain_eq m keep k v :
  bt_sorted m → bt_get m k = Some v →
  bt_get (bt_retain keep m) k = if keep k v then Some v else None.
Proof.
  intros Hs Hg. destruct (keep k v) eqn:Hk.
  - apply bt_sorted_elem_get; [by apply sorted_retain|].
    apply list_elem_of_filter. simpl. rewrite Hk. split; [done|by apply bt_get_elem].
  - destruct (bt_get (bt_retain keep m) k) as [v'|] eqn:Hg'; [|done].
    apply bt_get_elem in Hg' as [Hv' Hin]%list_elem_of_filter.
    apply bt_sorted_elem_get in Hin; [|done]. simplify_eq. simpl in Hv'. by rewrite Hk in Hv'.
Qed.

Lemma bt_get_retain_Some m keep k v :
  bt_sorted m → bt_get (bt_retain keep m) k = Some v → bt_get m k = Some v ∧ keep k v.
Proof.
  intros Hs [Hv Hin]%bt_get_elem%list_elem_of_filter.
  split; [by apply bt_sorted_elem_get|done].
Qed.

(** Sorted maps are extensional: [BTreeMap]'s [PartialEq]. *)
Lemma bt_ext m m' :
  bt_sorted m → bt_sorted m' → (∀ k, bt_get m k = bt_get m' k) → m = m'.
Proof.
  intros Hs. revert m'. induction Hs as [|[j w] m Hs IH Hall]; intros m' Hs' Hext.
  - destruct m' as [|[j' w'] m']; [done|].
    specialize (Hext j'). simpl in Hext. by rewrite cmp_refl in Hext.
  - destruct Hs' as [|[j' w'] m' Hs' Hall'].
    { specialize (Hext j). simpl in Hext. by rewrite cmp_refl in Hext. }
    rewrite Forall_forall in Hall. rewrite Forall_forall in Hall'.
    assert (j = j') as ->.
    { pose proof (Hext j) as Hj. pose proof (Hext j') as Hj'. simpl in Hj, Hj'.
      rewrite cmp_refl in Hj, Hj'.
      destruct (cmp j j') eqn:E; [by apply cmp_eq_iff in E| |].
      - symmetry in Hj. apply bt_get_elem, Hall' in Hj. simpl in Hj.
        rewrite (cmp_flip j j'), E in Hj. done.
      - apply cmp_gt_lt in E as E'. rewrite E' in Hj'.
        apply bt_get_elem, Hall in Hj'. simpl in Hj'. by rewrite E in Hj'. }
    assert (w = w') as ->.
    { specialize (Hext j'). simpl in Hext. rewrite cmp_refl in Hext. by simplify_eq. }
    f_equal. apply IH; [done|]. intros k. specialize (Hext k). simpl in Hext.
    destruct (cmp k j') eqn:E; [|done..]. apply cmp_eq_iff in E as ->.
    assert (∀ n, (∀ x, x ∈ n → cmp j' x.1 = Lt) → bt_get (n : BTreeMap K V) j' = None) as Hn.
    { intros n Hlt. destruct (bt_get n j') as [u|] eqn:Hu; [|done].
      apply bt_get_elem, Hlt in Hu. simpl in Hu. by rewrite cmp_refl in Hu. }
    rewrite !Hn; naive_solver.
Qed.

(** ** Collecting into a map *)

Lemma bt_from_iter_elem (l : list (K * V)) k v :
  bt_get (bt_from_iter l) k = Some v → (k, v) ∈ l.
Proof.
  unfold bt_from_iter. intros Hg%bt_get_elem.
  assert (∀ m, (k, v) ∈ foldl (λ m kv, bt_insert kv.1 kv.2 m) m l → (k, v) ∈ m ∨ (k, v) ∈ l)
    as Hgen.
  { clear Hg. induction l as [|[j w] l IH]; intros m; simpl; [by left|].
    intros [[?|?]%bt_insert_elem|?]%IH; set_solver. }
  destruct (Hgen _ Hg) as [?%not_elem_of_nil|?]; done.
Qed.

Lemma bt_insert_snoc m k v :
  Forall (λ x, cmp x.1 k = Lt) m → bt_insert k v m = m ++ [(k, v)].
Proof.
  induction 1 as [|[j w] m Hj Hall IH]; simpl in *; [done|].
  by rewrite (cmp_flip j k), Hj; simpl; rewrite IH.
Qed.

(** A sorted list is the map it collects into. *)
Lemma bt_from_iter_sorted m : bt_sorted m → bt_from_iter m = m.
Proof.
  unfold bt_from_iter. change m with ([] ++ m) at 1 3. generalize (@nil (K * V)) as acc.
  induction m as [|[k v] m IH]; intros acc Hs; simpl; [by rewrite app_nil_r|].
  rewrite bt_insert_snoc, IH; [by rewrite <-app_assoc|by rewrite <-app_assoc|].
  apply Forall_forall. intros x Hx.
  by apply (StronglySorted_app_1_elem_of _ _ _ x (k, v) Hs); [|left].
Qed.

(** .. and a list with no key twice is, up to its order. *)
Lemma bt_insert_Permutation m k v : k ∉ bt_keys m → bt_insert k v m ≡ₚ (k, v) :: m.
Proof.
  induction m as [|[j w] m IH]; simpl; [done|]. intros [Hne Hnin]%not_elem_of_cons.
  destruct (cmp k j) eqn:E; [by apply cmp_eq_iff in E|done|]. rewrite IH by done. apply perm_swap.
Qed.

Lemma bt_from_iter_Permutation (l : list (K * V)) : NoDup l.*1 → bt_from_iter l ≡ₚ l.
Proof.
  unfold bt_from_iter. intros Hnd. change l with ([] ++ l) at 2. revert Hnd.
  assert (∀ acc, NoDup (acc.*1 ++ l.*1) →
    foldl (λ m kv, bt_insert kv.1 kv.2 m) acc l ≡ₚ acc ++ l) as Hgen; [|apply (Hgen [])].
  induction l as [|[k v] l IH]; intros acc Hnd; simpl; [by rewrite app_nil_r|].
  assert (bt_insert k v acc ≡ₚ (k, v) :: acc) as Hp.
  { apply bt_insert_Permutation. intros Hin. apply NoDup_app in Hnd as (_ & Hnot & _).
    by apply (Hnot k Hin); left. }
  rewrite IH, Hp; [by rewrite <-Permutation_middle|]. rewrite Hp. simpl.
  simpl in Hnd. by rewrite <-Permutation_middle in Hnd.
Qed.

Lemma bt_sorted_NoDup m : bt_sorted m → NoDup m.*1.
Proof.
  induction 1 as [|[k v] m Hs IH Hall]; simpl; constructor; [|done].
  intros (x & -> & Hx)%list_elem_of_fmap. rewrite Forall_forall in Hall. apply Hall in Hx. simpl in Hx.
  by rewrite cmp_refl in Hx.
Qed.

(** Sorted maps with the same entries are the same map. *)
Lemma bt_elem_ext m m' : bt_sorted m → bt_sorted m' → (∀ x, x ∈ m ↔ x ∈ m') → m = m'.
Proof.
  intros Hs Hs' Hin. apply bt_ext; [done|done|]. intros k.
  destruct (bt_get m k) as [v|] eqn:Hv.
  - apply bt_get_elem, Hin in Hv. by rewrite (bt_sorted_elem_get m' k v).
  - destruct (bt_get m' k) as [w|] eqn:Hw; [|done].
    apply bt_get_elem, Hin in Hw. rewrite (bt_sorted_elem_get m k w) in Hv; done.
Qed.
End laws.

Lemma bt_sorted_fmap {K V W} `{Ord K} (f : K * V → K * W) (m : list (K * V)) :
  (∀ x, (f x).1 = x.1) → bt_sorted m → bt_sorted (map f m).
Proof.
  intros Hf. induction 1 as [|x m Hs IH Hall]; simpl; constructor; [done|].
  apply Forall_map. eapply Forall_impl; [exact Hall|]. intros y. simpl. by rewrite !Hf.
Qed.

(** .. and maps with the same keys list them alike. *)
Lemma bt_keys_ext {K V W} `{OrdLaws K} (m : list (K * V)) (m' : list (K * W)) :
  bt_sorted m → bt_sorted m' → (∀ k, k ∈ bt_keys m ↔ k ∈ bt_keys m') → bt_keys m = bt_keys m'.
Proof.
  intros Hs Hs' Hk.
  assert (∀ X (l : list (K * X)), bt_keys l = bt_keys (map (λ x, (x.1, ())) l)) as Hu.
  { intros X l. unfold bt_keys. by rewrite <-list_fmap_compose. }
  assert (∀ X (l : list (K * X)) k u, (k, u) ∈ map (λ x, (x.1, ())) l ↔ k ∈ bt_keys l) as Hin.
  { intros X l k []. unfold bt_keys. rewrite !list_elem_of_fmap. naive_solver. }
  rewrite (Hu _ m), (Hu _ m'). f_equal. apply bt_elem_ext; [by apply bt_sorted_fmap..|].
  intros [k u]. by rewrite !Hin.
Qed.

#[export] Hint Resolve sorted_insert sorted_remove sorted_retain sorted_from_iter : lotus.
