(* ===== verification/Text.v ===== *)
(** * Bytes, byte arrays and strings

    [u8], [[u8; N]] and [String]. A Rust string is the list of its [char]s
    here, because the path syntax and [Display] work on characters; [utf8]
    gives its bytes where the source asks for them ([str::len], [as_bytes]).
    The order of strings is the same by characters and by UTF-8 bytes. *)

From Stdlib Require Export Strings.Byte Strings.Ascii.
From S2P Require Import Prelude.

Abbreviation u8 := Byte.byte (only parsing).

#[export] Instance u8_eq_dec : EqDecision u8.
Proof. exact Byte.byte_eq_dec. Defined.

#[export] Program Instance u8_countable : Countable u8 :=
  inj_countable Byte.to_N Byte.of_N _.
Next Obligation. intros b. apply Byte.of_to_N. Qed.

#[export] Instance u8_ord : Ord u8 := λ a b, N.compare (Byte.to_N a) (Byte.to_N b).

(** The byte of a number below 256. *)
Definition u8_of_N (n : N) : u8 := default x00 (Byte.of_N n).

(** [[u8; n]]. *)
Definition array (n : nat) : Type := dsig (λ l : list u8, length l = n).

Definition as_slice {n} (a : array n) : list u8 := proj1_sig a.

(** [<[u8; n]>::try_from] of a slice. *)
Definition array_try_from (n : nat) (l : list u8) : option (array n) :=
  match decide (length l = n) with
  | left H => Some (dexist l H)
  | right _ => None
  end.

(** [[b; n]]. *)
Definition array_repeat (n : nat) (b : u8) : array n :=
  dexist (replicate n b) (length_replicate n b).

#[export] Instance array_ord n : Ord (array n) := λ a b, cmp (as_slice a) (as_slice b).

(** ** Characters and strings *)

Abbreviation char := N (only parsing).
Abbreviation rstring := (list N) (only parsing).

(** A literal of the source. *)
Definition str (s : string) : rstring := map N_of_ascii (String.list_ascii_of_string s).

(** A Unicode scalar value. *)
Definition char_ok (c : char) : bool :=
  (c <? 0xD800)%N || ((0xDFFF <? c) && (c <? 0x110000))%N.

(** [char::is_control]: the general category Cc. *)
Definition is_control (c : char) : bool :=
  (c <? 0x20)%N || ((0x7F <=? c) && (c <=? 0x9F))%N.

(** [u8::is_ascii_digit], on a character: every digit is one byte. *)
Definition is_ascii_digit (c : char) : bool := ((0x30 <=? c) && (c <=? 0x39))%N.

Definition is_ascii_hexdigit (c : char) : bool :=
  is_ascii_digit c || ((0x41 <=? c) && (c <=? 0x46))%N || ((0x61 <=? c) && (c <=? 0x66))%N.

(** The UTF-8 encoding. *)
Definition utf8_char (c : char) : list u8 :=
  if (c <? 0x80)%N then [u8_of_N c]
  else if (c <? 0x800)%N then
    [u8_of_N (0xC0 + c / 64); u8_of_N (0x80 + c mod 64)]
  else if (c <? 0x10000)%N then
    [u8_of_N (0xE0 + c / 4096); u8_of_N (0x80 + (c / 64) mod 64); u8_of_N (0x80 + c mod 64)]
  else
    [u8_of_N (0xF0 + c / 262144); u8_of_N (0x80 + (c / 4096) mod 64);
     u8_of_N (0x80 + (c / 64) mod 64); u8_of_N (0x80 + c mod 64)].

Definition utf8 (s : rstring) : list u8 := s ≫= utf8_char.

(** [str::strip_prefix] with a string. *)
Fixpoint strip_prefix (p s : rstring) : option rstring :=
  match p, s with
  | [], _ => Some s
  | a :: p', b :: s' => if decide (a = b) then strip_prefix p' s' else None
  | _ :: _, [] => None
  end.

(** ** Laws *)

#[export] Instance to_N_inj : Inj (=) (=) Byte.to_N.
Proof.
  intros a b Hab. apply (f_equal Byte.of_N) in Hab. rewrite !Byte.of_to_N in Hab. congruence.
Qed.

#[export] Instance u8_ord_laws : OrdLaws u8.
Proof. by apply (inj_ord_laws Byte.to_N). Qed.

#[export] Instance as_slice_inj n : Inj (=) (=) (@as_slice n).
Proof. intros a b Hab. by apply dsig_eq. Qed.

#[export] Instance array_ord_laws n : OrdLaws (array n).
Proof. by apply (inj_ord_laws (@as_slice n)). Qed.

Lemma u8_of_N_to_N (n : N) : (n < 256)%N → Byte.to_N (u8_of_N n) = n.
Proof.
  intros Hn. unfold u8_of_N. destruct (Byte.of_N n) as [b|] eqn:Hb; simpl.
  - by apply Byte.to_of_N.
  - apply Byte.of_N_None_iff in Hb. lia.
Qed.

Lemma u8_of_to_N (b : u8) : u8_of_N (Byte.to_N b) = b.
Proof. unfold u8_of_N. by rewrite Byte.of_to_N. Qed.

Lemma array_length {n} (a : array n) : length (as_slice a) = n.
Proof. unfold as_slice. destruct a as [l Hl]. simpl. by apply bool_decide_unpack in Hl. Qed.

Lemma array_try_from_slice {n} (a : array n) : array_try_from n (as_slice a) = Some a.
Proof.
  unfold array_try_from. case_decide as Hd; [|by rewrite array_length in Hd].
  f_equal. by apply dsig_eq.
Qed.

Lemma strip_prefix_app (p s : rstring) : strip_prefix p (p ++ s) = Some s.
Proof. induction p as [|a p IH]; simpl; [done|]. by rewrite decide_True. Qed.

Lemma strip_prefix_Some (p s r : rstring) : strip_prefix p s = Some r ↔ s = p ++ r.
Proof.
  split; [|by intros ->; apply strip_prefix_app].
  revert s. induction p as [|a p IH]; intros [|b s] H; simplify_eq/=; try done.
  case_decide; simplify_eq. by rewrite (IH s).
Qed.

#[export] Hint Rewrite @array_try_from_slice u8_of_to_N strip_prefix_app : lotus.
