(* ===== verification/Codec.v ===== *)
(** * The codec boundary: [crates/wire/src/codec.rs]

    What the source decides about an encoding is the shape of the data item it
    hands to [cbor2]; turning an item into canonical bytes and back is that
    crate's. [Item] is the serde data model as far as the program uses it,
    [dual_repr!] and the fixed-width byte strings are the source's own code. *)

From S2P Require Import Prelude BTree Text.

Inductive Item : Type :=
  | IUint (n : N)
  | IInt (z : Z)
  | IBool (b : bool)
  | INull
  | IBytes (l : list u8)
  | IText (s : rstring)
  | IArray (l : list Item)
  | IMap (l : list (Item * Item)).

(** The serde errors the visitors of the source raise. *)
Inductive SerdeError : Type :=
  | InvalidLength (n : nat)
  | InvalidValue_Str (s : rstring)
  | InvalidValue_Unsigned (n : N)
  | InvalidType.

(** ** [dual_repr!], wire side *)

Section dual_repr.
Context {T : Type}.

(** [serialize]: a one-pair map under the variant's integer tag. *)
Definition dual_serialize (wire_tag : N) (payload : Item) : Item :=
  IMap [(IUint wire_tag, payload)].

(** [variants]: for each wire tag, how its payload is read. *)
Fixpoint dual_variant (variants : list (N * (Item → Result SerdeError T))) (tag : N)
    : option (Item → Result SerdeError T) :=
  match variants with
  | [] => None
  | (wire, read) :: vs => if decide (tag = wire) then Some read else dual_variant vs tag
  end.

(** [WireVisitor::visit_map], over the entries in the order they are read. *)
Definition dual_visit_map (variants : list (N * (Item → Result SerdeError T)))
    (map : list (Item * Item)) : Result SerdeError T :=
  match map with
  | [] => Err (InvalidLength 0)
  | (IUint tag, payload) :: rest =>
      match dual_variant variants tag with
      | Some read =>
          match read payload with
          | Ok value =>
              match rest with
              | [] => Ok value
              | _ :: _ => Err (InvalidLength 2)
              end
          | Err e => Err e
          end
      | None => Err (InvalidValue_Unsigned tag)
      end
  | (_, _) :: _ => Err InvalidType
  end.

Definition dual_deserialize (variants : list (N * (Item → Result SerdeError T)))
    (i : Item) : Result SerdeError T :=
  match i with
  | IMap map => dual_visit_map variants map
  | _ => Err InvalidType
  end.
End dual_repr.

(** ** Fixed-width byte strings *)

(** Two lowercase hex digits, [{byte:02x}]. *)
Definition hex_digit (n : N) : char :=
  if (n <? 10)%N then (0x30 + n)%N else (0x61 + (n - 10))%N.

Definition hex_byte (b : u8) : rstring :=
  [hex_digit (Byte.to_N b / 16); hex_digit (Byte.to_N b mod 16)].

(** [Hex]'s [Display]. *)
Definition hex_display (prefix : rstring) (bytes : list u8) : rstring :=
  prefix ++ (bytes ≫= hex_byte).

(** [serialize_byte_array]: text in JSON, a byte string on the wire. *)
Definition serialize_byte_array (human_readable : bool) (bytes : list u8) (prefix : rstring)
    : Item :=
  if human_readable then IText (hex_display prefix bytes) else IBytes bytes.

(** [nibble] of [ByteArrayVisitor::visit_str], on a byte of the text. *)
Definition nibble (b : u8) : option N :=
  let n := Byte.to_N b in
  if ((0x30 <=? n) && (n <=? 0x39))%N then Some (n - 0x30)%N
  else if ((0x61 <=? n) && (n <=? 0x66))%N then Some (n - 0x61 + 10)%N
  else if ((0x41 <=? n) && (n <=? 0x46))%N then Some (n - 0x41 + 10)%N
  else None.

(** The [try_for_each] over [as_chunks::<2>]. *)
Fixpoint hex_pairs (l : list u8) : option (list u8) :=
  match l with
  | hi :: lo :: l' =>
      match nibble hi, nibble lo, hex_pairs l' with
      | Some h, Some d, Some r => Some (u8_of_N (N.lor (N.shiftl h 4) d) :: r)
      | _, _, _ => None
      end
  | _ => Some []
  end.

(** [ByteArrayVisitor::<N>::visit_str] and [visit_bytes]. *)
Definition visit_str (n : nat) (prefix s : rstring) : Result SerdeError (array n) :=
  match strip_prefix prefix s with
  | None => Err (InvalidValue_Str s)
  | Some hex =>
      let raw := utf8 hex in
      if decide (length raw ≠ 2 * n) then Err (InvalidLength (length raw))
      else match hex_pairs raw ≫= array_try_from n with
           | Some bytes => Ok bytes
           | None => Err (InvalidValue_Str s)
           end
  end.

Definition visit_bytes (n : nat) (bytes : list u8) : Result SerdeError (array n) :=
  match array_try_from n bytes with
  | Some a => Ok a
  | None => Err (InvalidLength (length bytes))
  end.

(** [byte_array]: a byte string on the wire, never a sequence of integers. *)
Definition byte_array (human_readable : bool) (n : nat) (prefix : rstring) (i : Item)
    : Result SerdeError (array n) :=
  match human_readable, i with
  | true, IText s => visit_str n prefix s
  | false, IBytes l => visit_bytes n l
  | _, _ => Err InvalidType
  end.

(** ** Lemmas *)

Lemma hex_digit_ascii (n : N) : (n < 16)%N → (hex_digit n < 0x80)%N.
Proof. intros Hn. unfold hex_digit. case_match; lia. Qed.

Lemma nibble_hex_digit (n : N) : (n < 16)%N → nibble (u8_of_N (hex_digit n)) = Some n.
Proof.
  intros Hn. unfold nibble. rewrite u8_of_N_to_N by (pose proof (hex_digit_ascii n Hn); lia).
  unfold hex_digit. destruct (n <? 10)%N eqn:E.
  - apply N.ltb_lt in E. replace (_ && _) with true by (symmetry; lia). f_equal. lia.
  - apply N.ltb_ge in E.
    replace ((48 <=? 97 + (n - 10)) && (97 + (n - 10) <=? 57))%N with false by (symmetry; lia).
    replace (_ && _) with true by (symmetry; lia). f_equal. lia.
Qed.

Lemma u8_bound (b : u8) : (Byte.to_N b < 256)%N.
Proof. pose proof (Byte.to_N_bounded b). lia. Qed.

Lemma u8_nibbles (b : u8) : (Byte.to_N b / 16 < 16)%N ∧ (Byte.to_N b mod 16 < 16)%N.
Proof. by destruct b. Qed.

Lemma u8_split (b : u8) :
  N.lor (N.shiftl (Byte.to_N b / 16) 4) (Byte.to_N b mod 16) = Byte.to_N b.
Proof. by destruct b. Qed.

Lemma utf8_hex_byte (b : u8) :
  utf8 (hex_byte b) =
  [u8_of_N (hex_digit (Byte.to_N b / 16)); u8_of_N (hex_digit (Byte.to_N b mod 16))].
Proof.
  destruct (u8_nibbles b) as [H1 H2]. unfold utf8, hex_byte. simpl. unfold utf8_char.
  apply hex_digit_ascii in H1, H2. apply N.ltb_lt in H1, H2. by rewrite H1, H2.
Qed.

Lemma hex_pairs_display (l : list u8) : hex_pairs (utf8 (l ≫= hex_byte)) = Some l.
Proof.
  induction l as [|b l IH]; [done|].
  rewrite bind_cons. unfold utf8. rewrite bind_app.
  change (hex_byte b ≫= utf8_char) with (utf8 (hex_byte b)). rewrite utf8_hex_byte.
  change ((l ≫= hex_byte) ≫= utf8_char) with (utf8 (l ≫= hex_byte)). cbn [app hex_pairs].
  destruct (u8_nibbles b) as [H1 H2]. rewrite !nibble_hex_digit by done.
  by rewrite IH, u8_split, u8_of_to_N.
Qed.

Lemma utf8_hex_length (l : list u8) : length (utf8 (l ≫= hex_byte)) = 2 * length l.
Proof.
  induction l as [|b l IH]; [done|].
  rewrite bind_cons. unfold utf8. rewrite bind_app, length_app.
  change (hex_byte b ≫= utf8_char) with (utf8 (hex_byte b)). rewrite utf8_hex_byte.
  change ((l ≫= hex_byte) ≫= utf8_char) with (utf8 (l ≫= hex_byte)). rewrite IH. simpl. lia.
Qed.
