(* ===== verification/Externals.v ===== *)
(** * What the program calls and does not define

    [cbor2], [blake3], [ed25519-zebra] and [iroh] are third-party crates: their
    functions are the fields of [Externals], an argument of every definition
    that reaches one. [wire::Error] is the source's own wrapper
    ([crates/wire/src/error.rs]). *)

From S2P Require Import Prelude BTree Text Codec.

(** [iroh::TransportAddr], a non-exhaustive enum: [TransportAddr_Other] holds
    the display form of a variant this build has no encoding for. *)
Inductive TransportAddr_ (Relay Ip Custom : Type) : Type :=
  | TransportAddr_Relay (url : Relay)
  | TransportAddr_Ip (socket : Ip)
  | TransportAddr_Custom (custom : Custom)
  | TransportAddr_Other (display : rstring).
Arguments TransportAddr_Relay {_ _ _} url.
Arguments TransportAddr_Ip {_ _ _} socket.
Arguments TransportAddr_Custom {_ _ _} custom.
Arguments TransportAddr_Other {_ _ _} display.

Class Externals := {
  (* cbor2 *)
  SerError : Type;
  to_canonical_vec : Item → Result SerError (list u8);
  (* blake3 *)
  blake3 : list u8 → array 32;
  hash_to_hex : array 32 → rstring;
  hash_from_hex : rstring → Result rstring (array 32);
  (* ed25519-zebra *)
  VerificationKey : Type;
  vk_try_from : array 32 → option VerificationKey;
  vk_verify : VerificationKey → array 64 → list u8 → bool;
  (* iroh *)
  EndpointId : Type;
  RelayUrl : Type;
  SocketAddr : Type;
  CustomAddr : Type;
  EndpointAddr : Type;
  endpoint_id_from_z32 : rstring → option EndpointId;
  endpoint_id_to_z32 : EndpointId → rstring;
  relay_parse : rstring → option RelayUrl;
  socket_parse : rstring → option SocketAddr;
  custom_parse : rstring → option CustomAddr;
  relay_display : RelayUrl → rstring;
  socket_display : SocketAddr → rstring;
  custom_display : CustomAddr → rstring;
  endpoint_addr_from_parts :
    EndpointId → list (TransportAddr_ RelayUrl SocketAddr CustomAddr) → EndpointAddr;
  endpoint_addr_id : EndpointAddr → EndpointId;
  endpoint_addr_addrs : EndpointAddr → list (TransportAddr_ RelayUrl SocketAddr CustomAddr);
}.

Abbreviation TransportAddr := (TransportAddr_ RelayUrl SocketAddr CustomAddr).

(** [wire::Error]. A decode failure is [cbor2]'s and never raised on the paths
    modelled here; its payload is left out. *)
Inductive WireError `{Externals} : Type :=
  | WireError_Encode (e : SerError)
  | WireError_Decode.

(** [crate::encode] of an already serialized value. *)
Definition encode `{Externals} (value : Item) : Result WireError (list u8) :=
  match to_canonical_vec value with
  | Ok bytes => Ok bytes
  | Err e => Err (WireError_Encode e)
  end.

(** [encode_into] a fresh hasher, then [finalize]. *)
Definition encode_hash `{Externals} (value : Item) : Result WireError (array 32) :=
  match to_canonical_vec value with
  | Ok bytes => Ok (blake3 bytes)
  | Err e => Err (WireError_Encode e)
  end.

(** ** A concrete [Externals]

    Stand-ins that compute, so that the witnesses can evaluate the program on
    concrete inputs and the hypotheses about the crates can be shown to hold
    somewhere. Nothing is proved about the program through it. *)

(** A number as its bits, low first, each a byte; the top bit ends it. *)
Fixpoint toy_pos (p : positive) : list u8 :=
  match p with
  | xH => [x02]
  | xO p => x00 :: toy_pos p
  | xI p => x01 :: toy_pos p
  end.

Definition toy_N (n : N) : list u8 := match n with N0 => [x03] | Npos p => toy_pos p end.

Definition toy_len (n : nat) : list u8 := toy_N (N.of_nat n).

(** A length-prefixed encoding of an item, none the start of another. *)
Fixpoint toy_encode (i : Item) : list u8 :=
  match i with
  | IUint n => x00 :: toy_N n
  | IInt z => x01 :: (if (z <? 0)%Z then x01 else x00) :: toy_N (Z.abs_N z)
  | IBool b => [x02; if b then x01 else x00]
  | INull => [x03]
  | IBytes l => x04 :: toy_len (length l) ++ l
  | IText s => x05 :: toy_len (length s) ++ (s ≫= toy_N)
  | IArray l => x06 :: toy_len (length l) ++ (l ≫= toy_encode)
  | IMap l =>
      x07 :: toy_len (length l) ++ (l ≫= λ kv, toy_encode kv.1 ++ toy_encode kv.2)
  end.

Definition toy_bytes (n : nat) (h : N) : array n :=
  dexist (map (λ i, u8_of_N (N.land (N.shiftr h (8 * N.of_nat i)) 255)) (seq 0 n))
    (eq_trans (length_map _ _) (length_seq _ _)).

(** A polynomial digest. *)
Definition toy_hash (l : list u8) : array 32 :=
  toy_bytes 32
    (fold_left (λ h b, N.land (h * 31 + Byte.to_N b + 1) 0xFFFFFFFF) l 0x811C9DC5%N).

Definition toy_hex_digits (h : array 32) : rstring := as_slice h ≫= hex_byte.

Definition toy_from_hex (s : rstring) : Result rstring (array 32) :=
  match hex_pairs (utf8 s) ≫= array_try_from 32 with
  | Some a => Ok a
  | None => Err (str "not a digest")
  end.

(** A signature is valid when it is the key followed by the message. *)
Definition toy_verify (vk : array 32) (sig : array 64) (msg : list u8) : bool :=
  bool_decide (as_slice sig = as_slice vk ++ msg).

Record ToyEndpointAddr := MkToyEndpointAddr {
  toy_id : rstring;
  toy_addrs : list (TransportAddr_ rstring rstring rstring);
}.

Definition Toy : Externals := {|
  SerError := Empty_set;
  to_canonical_vec i := Ok (toy_encode i);
  blake3 := toy_hash;
  hash_to_hex := toy_hex_digits;
  hash_from_hex := toy_from_hex;
  VerificationKey := array 32;
  vk_try_from := Some;
  vk_verify := toy_verify;
  EndpointId := rstring;
  RelayUrl := rstring;
  SocketAddr := rstring;
  CustomAddr := rstring;
  EndpointAddr := ToyEndpointAddr;
  endpoint_id_from_z32 := Some;
  endpoint_id_to_z32 := id;
  relay_parse := Some;
  socket_parse := Some;
  custom_parse := Some;
  relay_display := id;
  socket_display := id;
  custom_display := id;
  endpoint_addr_from_parts := MkToyEndpointAddr;
  endpoint_addr_id := toy_id;
  endpoint_addr_addrs := toy_addrs;
|}.
