(* ===== verification/Keys.v ===== *)
(** * Digests, keys and signatures

    The newtypes over byte arrays of [crates/wire/src/envelope.rs] and the
    signing primitives of [crates/wire/src/keys.rs]. *)

From S2P Require Import Prelude BTree Text Codec Externals.

(** A digest over an entire envelope. *)
Record EnvelopeDigest := MkEnvelopeDigest { digest_bytes : array 32 }.

(** The digest signatures are taken over. *)
Record EnvelopeSignatureDigest := MkEnvelopeSignatureDigest { sig_digest_bytes : array 32 }.

Record KeyId := MkKeyId { key_id_bytes : array 32 }.

Record Ed25519PublicKey := MkEd25519PublicKey { ed25519_public_key : array 32 }.

Record Ed25519Signature := MkEd25519Signature { ed25519_signature : array 64 }.

Inductive PublicKey : Type :=
  | PublicKey_Ed25519 (key : Ed25519PublicKey).

Inductive Signature : Type :=
  | Signature_Ed25519 (signature : Ed25519Signature).

(** An entry of the trusted key set; the weight is a [u32]. *)
Record Key := MkKey {
  public_key : PublicKey;
  weight : N;
  metadata : BTreeMap rstring rstring;
}.

#[export] Instance EnvelopeDigest_eq_dec : EqDecision EnvelopeDigest.
Proof. solve_decision. Defined.

#[export] Program Instance EnvelopeDigest_countable : Countable EnvelopeDigest :=
  inj_countable' digest_bytes MkEnvelopeDigest _.
Next Obligation. by intros []. Qed.

#[export] Instance KeyId_eq_dec : EqDecision KeyId.
Proof. solve_decision. Defined.

#[export] Program Instance KeyId_countable : Countable KeyId :=
  inj_countable' key_id_bytes MkKeyId _.
Next Obligation. by intros []. Qed.

#[export] Instance Ed25519PublicKey_eq_dec : EqDecision Ed25519PublicKey.
Proof. solve_decision. Defined.

#[export] Instance Ed25519Signature_eq_dec : EqDecision Ed25519Signature.
Proof. solve_decision. Defined.

#[export] Instance PublicKey_eq_dec : EqDecision PublicKey.
Proof. solve_decision. Defined.

#[export] Instance Key_eq_dec : EqDecision Key.
Proof. solve_decision. Defined.

#[export] Instance Signature_eq_dec : EqDecision Signature.
Proof. solve_decision. Defined.

(** [impl Ord for EnvelopeDigest]: bytewise, as a big-endian number. *)
#[export] Instance EnvelopeDigest_ord : Ord EnvelopeDigest := λ a b,
  cmp (digest_bytes a) (digest_bytes b).

#[export] Instance KeyId_ord : Ord KeyId := λ a b, cmp (key_id_bytes a) (key_id_bytes b).

Definition Key_new (public_key : PublicKey) (weight : N) : Key := MkKey public_key weight [].

Definition Key_with_metadata (self : Key) (metadata : BTreeMap rstring rstring) : Key :=
  MkKey (public_key self) (weight self) metadata.

(** ** Wire representations *)

Definition ser_digest (hr : bool) (d : EnvelopeDigest) : Item :=
  serialize_byte_array hr (as_slice (digest_bytes d)) (str "ed:").

Definition de_digest (hr : bool) (i : Item) : Result SerdeError EnvelopeDigest :=
  match byte_array hr 32 (str "ed:") i with
  | Ok a => Ok (MkEnvelopeDigest a)
  | Err e => Err e
  end.

Definition ser_key_id (hr : bool) (id : KeyId) : Item :=
  serialize_byte_array hr (as_slice (key_id_bytes id)) [].

Definition de_key_id (hr : bool) (i : Item) : Result SerdeError KeyId :=
  match byte_array hr 32 [] i with Ok a => Ok (MkKeyId a) | Err e => Err e end.

Definition ser_ed25519_public_key (k : Ed25519PublicKey) : Item :=
  serialize_byte_array false (as_slice (ed25519_public_key k)) [].

Definition ser_ed25519_signature (s : Ed25519Signature) : Item :=
  serialize_byte_array false (as_slice (ed25519_signature s)) [].

Definition ser_public_key (k : PublicKey) : Item :=
  match k with PublicKey_Ed25519 key => dual_serialize 1 (ser_ed25519_public_key key) end.

Definition ser_signature (s : Signature) : Item :=
  match s with Signature_Ed25519 sig => dual_serialize 1 (ser_ed25519_signature sig) end.

(** A [BTreeMap] serializes as a map, in key order. *)
Definition ser_btree {K V} (sk : K → Item) (sv : V → Item) (m : BTreeMap K V) : Item :=
  IMap (map (λ kv, (sk kv.1, sv kv.2)) m).

(** [derive(Cbor)] with integer keys: every field, in order. *)
Definition ser_key (k : Key) : Item :=
  IMap [(IUint 1, ser_public_key (public_key k));
        (IUint 2, IUint (weight k));
        (IUint 3, ser_btree IText IText (metadata k))].

(** ** Operations that reach a crate *)

Section externals.
Context `{Externals}.

(** [PublicKey::id]: blake3 over the public key's canonical encoding. The
    [expect] on the encoding is a panic. *)
Definition PublicKey_id (self : PublicKey) : option KeyId :=
  match encode_hash (ser_public_key self) with
  | Ok hash => Some (MkKeyId hash)
  | Err _ => None
  end.

Definition Key_id (self : Key) : option KeyId := PublicKey_id (public_key self).

Definition KeyId_to_hex (id : KeyId) : rstring := hash_to_hex (key_id_bytes id).

Definition KeyId_from_hex (hex : rstring) : Result rstring KeyId :=
  match hash_from_hex hex with Ok h => Ok (MkKeyId h) | Err e => Err e end.

(** [Ed25519PublicKey::verify]; both ways it fails are one error. *)
Definition Ed25519PublicKey_verify (self : Ed25519PublicKey) (signature : Ed25519Signature)
    (digest : EnvelopeSignatureDigest) : bool :=
  match vk_try_from (ed25519_public_key self) with
  | None => false
  | Some vk =>
      vk_verify vk (ed25519_signature signature) (as_slice (sig_digest_bytes digest))
  end.

Definition PublicKey_verify (self : PublicKey) (signature : Signature)
    (digest : EnvelopeSignatureDigest) : bool :=
  match self, signature with
  | PublicKey_Ed25519 key, Signature_Ed25519 signature =>
      Ed25519PublicKey_verify key signature digest
  end.

Definition Key_verify (self : Key) (signature : Signature)
    (digest : EnvelopeSignatureDigest) : bool :=
  PublicKey_verify (public_key self) signature digest.
End externals.

(** ** Lemmas *)

#[export] Instance digest_bytes_inj : Inj (=) (=) digest_bytes.
Proof. by intros [] [] [= ->]. Qed.

#[export] Instance key_id_bytes_inj : Inj (=) (=) key_id_bytes.
Proof. by intros [] [] [= ->]. Qed.

#[export] Instance EnvelopeDigest_ord_laws : OrdLaws EnvelopeDigest.
Proof. by apply (inj_ord_laws digest_bytes). Qed.

#[export] Instance KeyId_ord_laws : OrdLaws KeyId.
Proof. by apply (inj_ord_laws key_id_bytes). Qed.

Lemma byte_array_wire_roundtrip (hr : bool) (n : nat) (prefix : rstring) (a : array n) :
  byte_array hr n prefix (serialize_byte_array hr (as_slice a) prefix) = Ok a.
Proof.
  unfold byte_array, serialize_byte_array. destruct hr.
  - unfold visit_str, hex_display. rewrite strip_prefix_app, utf8_hex_length, array_length.
    rewrite decide_False by lia. rewrite hex_pairs_display. simpl.
    by rewrite array_try_from_slice.
  - unfold visit_bytes. by rewrite array_try_from_slice.
Qed.
