(* ===== verification/Subkey.v ===== *)
(** * Subkeys and paths: [crates/wire/src/subkey.rs]

    A path's data and its order, and the text it is written as: [Display], and
    [FromStr] with its errors, on characters. Where the source slices a [&str] by
    bytes it has just matched ASCII there, so the characters are the bytes; a byte
    range that would cut a character holds no hex digits and is [None] either way.
    Both loops run on fuel, the text's length. *)

From S2P Require Import Prelude BTree Text Codec.

(** One step of a path; an index is a [u32]. *)
Inductive Subkey : Type :=
  | Subkey_Key (key : rstring)
  | Subkey_Index (index : N).

#[export] Instance Subkey_eq_dec : EqDecision Subkey.
Proof. solve_decision. Defined.

(** [#[nutype(validate(predicate = |path| !path.is_empty()))]]. *)
Definition SubkeyPath : Type := dsig (λ path : list Subkey, path ≠ []).

Definition SubkeyPath_as_ref (path : SubkeyPath) : list Subkey := proj1_sig path.

Definition SubkeyPath_try_new (path : list Subkey) : option SubkeyPath :=
  match decide (path ≠ []) with
  | left H => Some (dexist path H)
  | right _ => None
  end.

#[export] Instance Subkey_countable : Countable Subkey.
Proof.
  refine (inj_countable'
    (λ s, match s with Subkey_Key k => inl k | Subkey_Index i => inr i end)
    (λ x, match x with inl k => Subkey_Key k | inr i => Subkey_Index i end) _).
  by intros [].
Defined.

(** [derive(Ord)]: by variant, then by payload. *)
#[export] Instance Subkey_ord : Ord Subkey := λ a b,
  match a, b with
  | Subkey_Key x, Subkey_Key y => cmp x y
  | Subkey_Key _, Subkey_Index _ => Lt
  | Subkey_Index _, Subkey_Key _ => Gt
  | Subkey_Index x, Subkey_Index y => cmp x y
  end.

#[export] Instance SubkeyPath_ord : Ord SubkeyPath := λ a b,
  cmp (SubkeyPath_as_ref a) (SubkeyPath_as_ref b).

Definition ser_subkey (s : Subkey) : Item :=
  match s with
  | Subkey_Key key => dual_serialize 1 (IText key)
  | Subkey_Index index => dual_serialize 2 (IUint index)
  end.

Definition ser_subkey_path (p : SubkeyPath) : Item :=
  IArray (map ser_subkey (SubkeyPath_as_ref p)).

(** ** Lemmas *)

#[export] Instance SubkeyPath_as_ref_inj : Inj (=) (=) SubkeyPath_as_ref.
Proof. intros a b Hab. by apply dsig_eq. Qed.

Lemma SubkeyPath_nonempty (p : SubkeyPath) : SubkeyPath_as_ref p ≠ [].
Proof. unfold SubkeyPath_as_ref. destruct p as [l Hl]. simpl. by apply bool_decide_unpack in Hl. Qed.

Lemma SubkeyPath_try_new_as_ref (p : SubkeyPath) :
  SubkeyPath_try_new (SubkeyPath_as_ref p) = Some p.
Proof.
  unfold SubkeyPath_try_new. case_decide as Hd; [|by destruct (SubkeyPath_nonempty p)].
  f_equal. by apply dsig_eq.
Qed.

(** A path is its parents and its last segment, [split_last]. *)
Lemma SubkeyPath_split_last (p : SubkeyPath) :
  ∃ parents last, SubkeyPath_as_ref p = parents ++ [last].
Proof.
  destruct (exists_last (SubkeyPath_nonempty p)) as (parents & x & ->). by exists parents, x.
Qed.

#[export] Instance Subkey_ord_laws : OrdLaws Subkey.
Proof.
  split; unfold cmp, Subkey_ord.
  - intros [x|x] [y|y]; try done; rewrite cmp_eq_iff; naive_solver.
  - intros [x|x] [y|y]; try done; apply cmp_flip.
  - intros [x|x] [y|y] [z|z]; try done; apply cmp_lt_trans.
Qed.

#[export] Instance SubkeyPath_ord_laws : OrdLaws SubkeyPath.
Proof. by apply (inj_ord_laws SubkeyPath_as_ref). Qed.

(** ** Characters *)

Definition BACKSPACE : char := 0x08.
Definition TAB : char := 0x09.
Definition NEWLINE : char := 0x0A.
Definition FORM_FEED : char := 0x0C.
Definition RETURN : char := 0x0D.
Definition SPACE : char := 0x20.
Definition DOUBLE_QUOTE : char := 0x22.
Definition DOLLAR : char := 0x24.
Definition QUOTE : char := 0x27.
Definition DOT : char := 0x2E.
Definition SLASH : char := 0x2F.
Definition OPEN : char := 0x5B.
Definition BACKSLASH : char := 0x5C.
Definition CLOSE : char := 0x5D.
Definition LETTER_b : char := 0x62.
Definition LETTER_f : char := 0x66.
Definition LETTER_n : char := 0x6E.
Definition LETTER_r : char := 0x72.
Definition LETTER_t : char := 0x74.
Definition LETTER_u : char := 0x75.

Definition char_in (l : list char) (c : char) : bool := bool_decide (c ∈ l).

(** [str::trim_start_matches]. *)
Fixpoint drop_while (p : char → bool) (s : rstring) : rstring :=
  match s with
  | [] => []
  | c :: s' => if p c then drop_while p s' else s
  end.

Definition trim_matches (p : char → bool) (s : rstring) : rstring :=
  reverse (drop_while p (reverse (drop_while p s))).

(** The text before the first of some characters, and from it on. *)
Fixpoint span (p : char → bool) (s : rstring) : rstring * rstring :=
  match s with
  | [] => ([], [])
  | c :: s' => if p c then ([], s) else let r := span p s' in (c :: r.1, r.2)
  end.

(** [str::split_once] at a character. *)
Definition split_once (at_ : char) (s : rstring) : option (rstring * rstring) :=
  match span (char_in [at_]) s with
  | (before, _ :: after) => Some (before, after)
  | (_, []) => None
  end.

(** [{index}] of a [u32], which has ten digits at most. *)
Fixpoint decimal (digits : nat) (n : N) : rstring :=
  match digits with
  | 0 => []
  | S digits =>
      if (n <? 10)%N then [0x30 + n]%N else decimal digits (n / 10) ++ [0x30 + n mod 10]%N
  end.

Definition u32_display (n : N) : rstring := decimal 10 n.

(** [str::parse::<u32>] of digits, the most significant first. *)
Definition digits_value (s : rstring) : N := foldl (λ n c, 10 * n + (c - 0x30))%N 0%N s.

Definition u32_parse (s : rstring) : option N :=
  match s with
  | [] => None
  | _ :: _ => let n := digits_value s in if decide (n <= u32_max)%N then Some n else None
  end.

(** [u16::from_str_radix(_, 16)] of a digit, and [{:04x}] below [0x10000]. *)
Definition hex_value (c : char) : N :=
  if is_ascii_digit c then c - 0x30 else if (c <? 0x60)%N then c - 0x37 else c - 0x57.

Definition hex4 (n : N) : rstring := map (λ i, hex_digit (N.land (N.shiftr n (4 * i)) 15)) [3; 2; 1; 0]%N.

(** ** [Display] *)

(** Whether a key reads unambiguously bare. *)
Definition is_bare (key : rstring) : bool :=
  match key with
  | [] => false
  | c :: _ =>
      negb (bool_decide (c = DOLLAR)) &&
      forallb (λ c, negb (char_in [DOT; OPEN; CLOSE; QUOTE; DOUBLE_QUOTE; BACKSLASH] c || is_control c)) key
  end.

Definition is_dotted (s : Subkey) : bool :=
  match s with Subkey_Key key => is_bare key | Subkey_Index _ => false end.

Definition escape_char (c : char) : rstring :=
  if decide (c = QUOTE) then [BACKSLASH; QUOTE]
  else if decide (c = BACKSLASH) then [BACKSLASH; BACKSLASH]
  else if decide (c = BACKSPACE) then [BACKSLASH; LETTER_b]
  else if decide (c = FORM_FEED) then [BACKSLASH; LETTER_f]
  else if decide (c = NEWLINE) then [BACKSLASH; LETTER_n]
  else if decide (c = RETURN) then [BACKSLASH; LETTER_r]
  else if decide (c = TAB) then [BACKSLASH; LETTER_t]
  else if is_control c then [BACKSLASH; LETTER_u] ++ hex4 c
  else [c].

Definition Subkey_display (s : Subkey) : rstring :=
  match s with
  | Subkey_Key key =>
      if is_bare key then key
      else [OPEN; QUOTE] ++ (key ≫= escape_char) ++ [QUOTE; CLOSE]
  | Subkey_Index index => [OPEN] ++ u32_display index ++ [CLOSE]
  end.

Definition display_at (i : nat) (segment : Subkey) : rstring :=
  (if (0 <? i) && is_dotted segment then [DOT] else []) ++ Subkey_display segment.

Definition SubkeyPath_display (path : SubkeyPath) : rstring :=
  concat (imap display_at (SubkeyPath_as_ref path)).

(** ** [FromStr] *)

Inductive PathParseError : Type :=
  | PathParseError_Empty
  | PathParseError_EmptyKey (text : rstring)
  | PathParseError_UnclosedBracket (text : rstring)
  | PathParseError_BadIndex (index : rstring)
  | PathParseError_UnclosedString (text : rstring)
  | PathParseError_BadEscape (seq : rstring).

Definition PathParseError_display (e : PathParseError) : rstring :=
  match e with
  | PathParseError_Empty => str "a path needs at least one segment"
  | PathParseError_EmptyKey text => text ++ str " has an empty key"
  | PathParseError_UnclosedBracket text => text ++ str " has an unclosed ["
  | PathParseError_BadIndex index =>
      str "[" ++ index ++ str "] is not a whole number under 2^32; a key in brackets is quoted, ['" ++
      index ++ str "']"
  | PathParseError_UnclosedString text => text ++ str " has an unclosed quote"
  | PathParseError_BadEscape seq => seq ++ str " is not an escape"
  end.

(** The blanks RFC 9535 allows inside brackets. *)
Definition BLANK : list char := [SPACE; TAB; NEWLINE; RETURN].

(** [unit(at)]: four hex digits. *)
Definition hex_unit (s : rstring) : option N :=
  match s with
  | a :: b :: c :: d :: _ =>
      if forallb is_ascii_hexdigit [a; b; c; d]
      then Some (foldl (λ n c, 16 * n + hex_value c)%N 0%N [a; b; c; d]) else None
  | _ => None
  end.

Definition char_from_u32 (n : N) : option char := if char_ok n then Some n else None.

Definition unescape_unicode (rest : rstring) : option (char * nat) :=
  high ← hex_unit rest;
  if ((0xD800 <=? high) && (high <=? 0xDBFF))%N then
    _ ← strip_prefix [BACKSLASH; LETTER_u] (drop 4 rest);
    low ← hex_unit (drop 6 rest);
    if ((0xDC00 <=? low) && (low <=? 0xDFFF))%N then
      let code := (0x10000 + N.shiftl (high - 0xD800) 10 + (low - 0xDC00))%N in
      c ← char_from_u32 code; Some (c, 10)
    else None
  else if ((0xDC00 <=? high) && (high <=? 0xDFFF))%N then None
  else c ← char_from_u32 high; Some (c, 4).

(** What the letter after a backslash stands for, where it is no [u]. *)
Definition simple_escape (c : char) : option char :=
  if char_in [QUOTE; DOUBLE_QUOTE; BACKSLASH; SLASH] c then Some c
  else if decide (c = LETTER_b) then Some BACKSPACE
  else if decide (c = LETTER_f) then Some FORM_FEED
  else if decide (c = LETTER_n) then Some NEWLINE
  else if decide (c = LETTER_r) then Some RETURN
  else if decide (c = LETTER_t) then Some TAB
  else None.

(** Up to the closing quote, from the [key] read so far. *)
Fixpoint unquote_loop (fuel : nat) (quote : char) (text : rstring) (key chars : rstring)
    : Comp PathParseError (rstring * rstring) :=
  match fuel with
  | 0 => Diverge
  | S fuel =>
      match chars with
      | [] => c_err (PathParseError_UnclosedString text)
      | c :: chars =>
          if decide (c = quote) then c_ok (key, chars)
          else if decide (c = BACKSLASH) then
            match chars with
            | [] => c_err (PathParseError_UnclosedString text)
            | escaped :: rest =>
                if decide (escaped = LETTER_u) then
                  match unescape_unicode rest with
                  | Some (c, consumed) => unquote_loop fuel quote text (key ++ [c]) (drop consumed rest)
                  | None => c_err (PathParseError_BadEscape ([BACKSLASH; LETTER_u] ++ take 4 rest))
                  end
                else
                  match simple_escape escaped with
                  | Some c => unquote_loop fuel quote text (key ++ [c]) rest
                  | None => c_err (PathParseError_BadEscape [BACKSLASH; escaped])
                  end
            end
          else unquote_loop fuel quote text (key ++ [c]) chars
      end
  end.

Definition unquote (body : rstring) (quote : char) (text : rstring) : Comp PathParseError (rstring * rstring) :=
  unquote_loop (S (length body)) quote text [] body.

Definition parse_index (selector : rstring) : option N :=
  if forallb is_ascii_digit selector then u32_parse selector else None.

Definition parse_bracket (inner text : rstring) : Comp PathParseError (Subkey * rstring) :=
  let inner := drop_while (char_in BLANK) inner in
  let unclosed := PathParseError_UnclosedBracket text in
  match inner with
  | quote :: body =>
      if char_in [QUOTE; DOUBLE_QUOTE] quote then
        let? r := unquote body quote text in
        match strip_prefix [CLOSE] (drop_while (char_in BLANK) r.2) with
        | Some after => c_ok (Subkey_Key r.1, after)
        | None => c_err unclosed
        end
      else
        match split_once CLOSE inner with
        | None => c_err unclosed
        | Some (selector, after) =>
            let selector := trim_matches (char_in BLANK) selector in
            match parse_index selector with
            | Some index => c_ok (Subkey_Index index, after)
            | None => c_err (PathParseError_BadIndex selector)
            end
        end
  | [] => c_err unclosed
  end.

(** The segment at the front of a text that is not empty. *)
Definition parse_segment (text : rstring) (rooted first : bool) (rest : rstring)
    : Comp PathParseError (Subkey * rstring) :=
  match strip_prefix [OPEN] rest with
  | Some inner => parse_bracket inner text
  | None =>
      let? body :=
        match strip_prefix [DOT] rest with
        | Some after => if first && negb rooted then c_err (PathParseError_EmptyKey text) else c_ok after
        | None => c_ok rest
        end in
      let (key, after) := span (char_in [DOT; OPEN]) body in
      match key with
      | [] => c_err (PathParseError_EmptyKey text)
      | _ :: _ => c_ok (Subkey_Key key, after)
      end
  end.

Fixpoint parse_segments (fuel : nat) (text : rstring) (rooted first : bool) (segments : list Subkey)
    (rest : rstring) : Comp PathParseError (list Subkey) :=
  match rest with
  | [] => c_ok segments
  | _ :: _ =>
      match fuel with
      | 0 => Diverge
      | S fuel =>
          let? r := parse_segment text rooted first rest in
          parse_segments fuel text rooted false (segments ++ [r.1]) r.2
      end
  end.

(** A [$] is the root alone, or before a [.] or a bracket. *)
Definition strip_root (text : rstring) : rstring * bool :=
  match strip_prefix [DOLLAR] text with
  | Some after =>
      match after with
      | [] => (after, true)
      | c :: _ => if char_in [DOT; OPEN] c then (after, true) else (text, false)
      end
  | None => (text, false)
  end.

Definition SubkeyPath_from_str (text : rstring) : Comp PathParseError SubkeyPath :=
  let (rest, rooted) := strip_root text in
  let? segments := parse_segments (length rest) text rooted true [] rest in
  match SubkeyPath_try_new segments with
  | Some path => c_ok path
  | None => c_err PathParseError_Empty
  end.

(** ** The text form of a path: its properties *)

(** ** Numbers *)

Lemma digits_value_snoc s c : digits_value (s ++ [c]) = (10 * digits_value s + (c - 0x30))%N.
Proof. unfold digits_value. by rewrite foldl_app. Qed.

Lemma decimal_spec (digits : nat) n :
  0 < digits → (n < 10 ^ N.of_nat digits)%N →
  digits_value (decimal digits n) = n ∧ forallb is_ascii_digit (decimal digits n) = true ∧ decimal digits n ≠ [].
Proof.
  revert n. induction digits as [|digits IH]; intros n Hd Hn; [lia|]. cbn [decimal].
  destruct (N.ltb_spec n 10) as [Hlt|Hge].
  - split_and!; [unfold digits_value; cbn [foldl]; lia| |done]. cbn [forallb]. unfold is_ascii_digit.
    rewrite andb_true_r. apply andb_true_iff. split; apply N.leb_le; lia.
  - rewrite Nat2N.inj_succ, N.pow_succ_r' in Hn.
    assert (0 < digits) as Hd' by (destruct digits; [simpl in Hn; lia|lia]).
    destruct (IH (n / 10)%N Hd') as (Hv & Ha & Hne); [by apply N.Div0.div_lt_upper_bound|].
    pose proof (N.mod_upper_bound n 10 ltac:(done)) as Hm. pose proof (N.div_mod n 10 ltac:(done)) as Hdm.
    generalize dependent (n / 10)%N. generalize dependent (n mod 10)%N. intros m Hm q Hv Ha Hne Hdm. split_and!.
    + rewrite digits_value_snoc, Hv. lia.
    + rewrite forallb_app, Ha. cbn [forallb andb]. unfold is_ascii_digit. rewrite andb_true_r. apply andb_true_iff.
      split; apply N.leb_le; lia.
    + intros Hnil. by apply app_eq_nil in Hnil as [_ ?].
Qed.

Lemma parse_index_display n : (n ≤ u32_max)%N → parse_index (u32_display n) = Some n.
Proof.
  intros Hn. destruct (decimal_spec 10 n) as (Hv & Ha & Hne); [lia|unfold u32_max in *; simpl; lia|].
  unfold parse_index, u32_display, u32_parse. rewrite Ha. destruct (decimal 10 n) as [|c s]; [done|].
  cbv zeta. rewrite Hv. by rewrite decide_True.
Qed.

(** ** Splitting *)

Lemma span_app p s t :
  forallb (λ c, negb (p c)) s = true → match t with [] => True | c :: _ => p c = true end → span p (s ++ t) = (s, t).
Proof.
  intros Hs Ht. induction s as [|c s IH]; simpl in *.
  - destruct t as [|c t]; [done|]. simpl. by rewrite Ht.
  - apply andb_true_iff in Hs as [Hc Hs]. apply negb_true_iff in Hc. by rewrite Hc, IH.
Qed.

Lemma span_length p s : length (span p s).1 + length (span p s).2 = length s.
Proof. induction s as [|c s IH]; simpl; [done|]. destruct (p c); simpl; lia. Qed.

Lemma drop_while_length p s : length (drop_while p s) ≤ length s.
Proof. induction s as [|c s IH]; simpl; [done|]. destruct (p c); simpl; lia. Qed.

Lemma drop_while_none p s : forallb (λ c, negb (p c)) s = true → drop_while p s = s.
Proof. destruct s as [|c s]; [done|]. simpl. intros [Hc _]%andb_true_iff. apply negb_true_iff in Hc. by rewrite Hc. Qed.

Lemma trim_none p s : forallb (λ c, negb (p c)) s = true → trim_matches p s = s.
Proof.
  intros Hs. unfold trim_matches. rewrite (drop_while_none p s) by done.
  rewrite drop_while_none; [apply reverse_involutive|]. apply forallb_forall. intros c Hc.
  rewrite forallb_forall in Hs. apply Hs. by apply list_elem_of_In, elem_of_reverse, list_elem_of_In.
Qed.

Lemma forallb_weaken {A} (p q : A → bool) l : (∀ a, p a = true → q a = true) → forallb p l = true → forallb q l = true.
Proof. intros Hpq Hl. rewrite forallb_forall in *. auto. Qed.

(** ** Quoted keys *)

Lemma hex4_unit c rest : (c < 0xA0)%N → hex_unit (hex4 c ++ rest) = Some c.
Proof.
  intros Hc. change (hex_unit (hex4 c ++ rest)) with (hex_unit (hex4 c)).
  assert (forallb (λ i, bool_decide (hex_unit (hex4 (N.of_nat i)) = Some (N.of_nat i))) (seq 0 160) = true) as Hall
    by (vm_compute; reflexivity).
  rewrite forallb_forall in Hall. specialize (Hall (N.to_nat c)). rewrite N2Nat.id in Hall.
  eapply bool_decide_eq_true_1, Hall, in_seq. lia.
Qed.

Lemma unescape_control c rest : is_control c = true → unescape_unicode (hex4 c ++ rest) = Some (c, 4).
Proof.
  intros Hc. assert (c < 0xA0)%N as Hlt.
  { unfold is_control in Hc. apply orb_true_iff in Hc as [Hc|Hc]; [apply N.ltb_lt in Hc; lia|].
    apply andb_true_iff in Hc as [_ Hc]. apply N.leb_le in Hc. lia. }
  unfold unescape_unicode. rewrite hex4_unit by done. cbn [mbind option_bind].
  assert ((0xD800 <=? c)%N = false) as -> by (apply N.leb_gt; lia).
  assert ((0xDC00 <=? c)%N = false) as -> by (apply N.leb_gt; lia). cbn [andb].
  unfold char_from_u32, char_ok. assert ((c <? 0xD800)%N = true) as -> by (apply N.ltb_lt; lia). done.
Qed.

Lemma unquote_escape (fuel : nat) text key c rest :
  unquote_loop (S fuel) QUOTE text key (escape_char c ++ rest) = unquote_loop fuel QUOTE text (key ++ [c]) rest.
Proof.
  unfold escape_char. repeat (case_decide; [subst c; reflexivity|]).
  destruct (is_control c) eqn:Hc.
  - cbn [app]. cbn [unquote_loop]. rewrite decide_False by done. rewrite decide_True by done. rewrite decide_True by done.
    rewrite unescape_control by done. reflexivity.
  - cbn [app unquote_loop]. by rewrite !decide_False.
Qed.

Lemma unquote_display (fuel : nat) text read key rest :
  length key < fuel →
  unquote_loop fuel QUOTE text read ((key ≫= escape_char) ++ QUOTE :: rest) = c_ok (read ++ key, rest).
Proof.
  revert fuel read. induction key as [|c key IH]; intros fuel read Hf; (destruct fuel as [|fuel]; simpl in Hf; [lia|]).
  - cbn [mbind list_bind app unquote_loop]. by rewrite decide_True, app_nil_r.
  - rewrite bind_cons, <-app_assoc, unquote_escape, IH by lia. by rewrite <-app_assoc.
Qed.

Lemma escaped_length key : length key ≤ length (key ≫= escape_char).
Proof.
  induction key as [|c key IH]; [done|]. rewrite bind_cons, length_app. cbn [length].
  assert (1 ≤ length (escape_char c)); [|lia]. unfold escape_char. by repeat case_decide; destruct (is_control c); simpl; lia.
Qed.

(** ** Segments *)

(** An index is a [u32]. *)
Definition rust_subkey (s : Subkey) : Prop := match s with Subkey_Key _ => True | Subkey_Index i => (i ≤ u32_max)%N end.

(** What can follow a segment: nothing, or the start of another. *)
Definition at_boundary (t : rstring) : Prop :=
  match t with [] => True | c :: _ => char_in [DOT; OPEN] c = true end.

Lemma parse_bracket_quoted key text t :
  parse_bracket (QUOTE :: (key ≫= escape_char) ++ [QUOTE; CLOSE] ++ t) text = c_ok (Subkey_Key key, t).
Proof.
  change ([QUOTE; CLOSE] ++ t) with (QUOTE :: CLOSE :: t).
  assert (unquote ((key ≫= escape_char) ++ QUOTE :: CLOSE :: t) QUOTE text = c_ok (key, CLOSE :: t)) as Hu.
  2: { unfold parse_bracket. cbn [drop_while]. cbv zeta.
    change (char_in BLANK QUOTE) with false. change (char_in [QUOTE; DOUBLE_QUOTE] QUOTE) with true. cbv iota. by rewrite Hu. }
  unfold unquote. rewrite unquote_display; [done|]. rewrite length_app. pose proof (escaped_length key). lia.
Qed.

Lemma digit_not c d : is_ascii_digit c = true → is_ascii_digit d = false → c ≠ d.
Proof. intros Hc Hd ->. congruence. Qed.

Lemma digit_not_in c l : is_ascii_digit c = true → forallb (λ d, negb (is_ascii_digit d)) l = true → char_in l c = false.
Proof.
  intros Hc Hl. apply bool_decide_eq_false. intros Hin%list_elem_of_In. rewrite forallb_forall in Hl.
  apply Hl in Hin. by rewrite Hc in Hin.
Qed.

Lemma parse_bracket_index n text t :
  (n ≤ u32_max)%N → parse_bracket (u32_display n ++ CLOSE :: t) text = c_ok (Subkey_Index n, t).
Proof.
  intros Hn. destruct (decimal_spec 10 n) as (_ & Ha & Hne); [lia|unfold u32_max in *; simpl; lia|].
  fold (u32_display n) in Ha, Hne.
  assert (∀ l, forallb (λ d, negb (is_ascii_digit d)) l = true → forallb (λ c, negb (char_in l c)) (u32_display n) = true) as Hnot.
  { intros l Hl. eapply forallb_weaken; [|exact Ha]. intros c Hc. by rewrite (digit_not_in c l). }
  pose proof (parse_index_display n Hn) as Hp.
  unfold parse_bracket, split_once. destruct (u32_display n) as [|c s] eqn:Hd; [done|].
  pose proof (Hnot BLANK eq_refl) as Hb. pose proof (Hnot [QUOTE; DOUBLE_QUOTE] eq_refl) as Hq.
  cbn [forallb] in Hb, Hq. apply andb_true_iff in Hb as [Hb%negb_true_iff _], Hq as [Hq%negb_true_iff _].
  cbn [app drop_while]. rewrite Hb. cbv zeta. rewrite Hq.
  change (c :: s ++ CLOSE :: t) with ((c :: s) ++ CLOSE :: t).
  rewrite (span_app _ (c :: s)) by (done || by apply Hnot). rewrite trim_none by (by apply Hnot). by rewrite Hp.
Qed.

Lemma parse_segment_display (i : nat) s text t :
  rust_subkey s → at_boundary t → parse_segment text false (i =? 0) (display_at i s ++ t) = c_ok (s, t).
Proof.
  intros Hs Ht. unfold display_at. destruct s as [key|n]; cbn [is_dotted Subkey_display].
  - destruct (is_bare key) eqn:Hb.
    + destruct key as [|c key]; [done|]. simpl in Hb. apply andb_true_iff in Hb as [Hd Hb].
      assert (span (char_in [DOT; OPEN]) (c :: key ++ t) = (c :: key, t)) as Hspan.
      { apply (span_app _ (c :: key)); [|exact Ht]. eapply forallb_weaken; [|exact Hb]. intros a Ha. apply negb_true_iff.
        apply negb_true_iff, orb_false_iff in Ha as [Ha _]. apply bool_decide_eq_false. apply bool_decide_eq_false in Ha.
        intros Hin. apply Ha. set_solver. }
      assert (c ≠ OPEN ∧ c ≠ DOT) as [Ho Hdot].
      { cbn [forallb] in Hb. apply andb_true_iff in Hb as [Ha _]. apply negb_true_iff, orb_false_iff in Ha as [Ha _].
        apply bool_decide_eq_false in Ha. split; intros ->; apply Ha; set_solver. }
      unfold parse_segment. destruct i as [|i]; cbn [Nat.ltb Nat.leb Nat.eqb andb app strip_prefix].
      * rewrite !decide_False by done. cbn [c_bind c_ok]. by rewrite Hspan.
      * rewrite decide_False by done. rewrite decide_True by done. cbn [c_bind c_ok]. by rewrite Hspan.
    + rewrite andb_false_r. unfold parse_segment. cbn [app strip_prefix]. rewrite decide_True by done.
      rewrite <-app_assoc. apply parse_bracket_quoted.
  - rewrite andb_false_r. unfold parse_segment. cbn [app strip_prefix]. rewrite decide_True by done.
    rewrite <-app_assoc. by apply parse_bracket_index.
Qed.

Lemma display_boundary (i : nat) s t : 0 < i → at_boundary (display_at i s ++ t).
Proof.
  intros Hi. unfold display_at. destruct i as [|i]; [lia|]. destruct s as [key|n]; [|done].
  cbn [is_dotted Subkey_display]. by destruct (is_bare key).
Qed.

Lemma display_nonempty (i : nat) s : display_at i s ≠ [].
Proof.
  unfold display_at. destruct s as [key|n]; cbn [is_dotted Subkey_display].
  - destruct (is_bare key) eqn:Hb; [|by rewrite andb_false_r]. destruct key as [|c key]; [done|].
    destruct (0 <? i); done.
  - by rewrite andb_false_r.
Qed.

Lemma concat_boundary (i : nat) l : 0 < i → at_boundary (concat (imap (λ j, display_at (i + j)) l)).
Proof. intros Hi. destruct l as [|s l]; [done|]. simpl. apply display_boundary. lia. Qed.

Lemma imap_shift {A B} (f : nat → A → B) (i : nat) l :
  imap (λ j, f (i + S j)) l = imap (λ j, f (S i + j)) l.
Proof. apply imap_ext. intros j x _. f_equal. lia. Qed.

Lemma parse_segments_display (fuel i : nat) l text read :
  Forall rust_subkey l → length l ≤ fuel →
  parse_segments fuel text false (i =? 0) read (concat (imap (λ j, display_at (i + j)) l)) = c_ok (read ++ l).
Proof.
  revert fuel i read. induction l as [|s l IH]; intros fuel i read Hl Hf.
  - destruct fuel; simpl; by rewrite app_nil_r.
  - apply Forall_cons in Hl as [Hs Hl]. simpl in Hf. destruct fuel as [|fuel]; [lia|].
    simpl imap. cbn [concat]. rewrite Nat.add_0_r.
    rewrite (imap_ext _ (λ j, display_at (S i + j))) by (intros j x _; simpl; f_equal; lia).
    pose proof (concat_boundary (S i) l ltac:(lia)) as Hb. set (t := concat _) in *.
    pose proof (parse_segment_display i s text t Hs Hb) as Hp. pose proof (display_nonempty i s) as Hne.
    destruct (display_at i s) as [|c w]; [done|]. cbn [app] in Hp |- *. cbn [parse_segments]. rewrite Hp.
    cbn [c_bind c_ok fst snd]. specialize (IH fuel (S i) (read ++ [s]) Hl ltac:(lia)). cbn [Nat.eqb] in IH. unfold t.
    rewrite IH, <-app_assoc. done.
Qed.

Lemma concat_length (i : nat) l : length l ≤ length (concat (imap (λ j, display_at (i + j)) l)).
Proof.
  revert i. induction l as [|s l IH]; intros i; [done|]. simpl. rewrite length_app.
  rewrite (imap_ext _ (λ j, display_at (S i + j))) by (intros j x _; simpl; f_equal; lia).
  specialize (IH (S i)). pose proof (display_nonempty (i + 0) s). destruct (display_at (i + 0) s); cbn [length]; [done|lia].
Qed.

(** A path's text never opens with the root's mark. *)
Lemma strip_root_display s l : strip_root (concat (imap display_at (s :: l))) = (concat (imap display_at (s :: l)), false).
Proof.
  cbn [imap concat]. change (display_at 0 s) with (Subkey_display s). generalize (concat (imap (display_at ∘ S) l)). intros t.
  destruct s as [key|n]; cbn [Subkey_display]; [|reflexivity]. destruct (is_bare key) eqn:Hb; [|reflexivity].
  destruct key as [|c key]; [done|]. simpl in Hb.
  apply andb_true_iff in Hb as [Hd _]. apply negb_true_iff, bool_decide_eq_false in Hd.
  cbn [app]. unfold strip_root. cbn [strip_prefix]. by rewrite decide_False.
Qed.

(** ** Whatever the text *)

(** Ends with a value or an error. *)
Definition ends {E A} (c : Comp E A) (Q : A → Prop) : Prop := cwp c Q (λ _, True).

Lemma hex_unit_bound s n : hex_unit s = Some n → 4 ≤ length s.
Proof. destruct s as [|a [|b [|c [|d s]]]]; simpl; try done. intros _. lia. Qed.

Lemma unquote_ends (fuel : nat) quote text key chars :
  length chars < fuel → ends (unquote_loop fuel quote text key chars) (λ r, length r.2 ≤ length chars).
Proof.
  revert key chars. induction fuel as [|fuel IH]; intros key chars Hf; [lia|]. cbn [unquote_loop].
  assert (∀ key chars', length chars' < length chars →
    ends (unquote_loop fuel quote text key chars') (λ r, length r.2 ≤ length chars)) as Hrec.
  { intros k chars' Hlt. eapply cwp_mono; [apply IH; lia| |done]. intros r Hr. cbn beta in *. lia. }
  destruct chars as [|c chars]; [done|]. cbn [length] in *. case_decide; [unfold ends, cwp, c_ok; simpl; lia|].
  case_decide; [|apply Hrec; lia]. destruct chars as [|e rest]; [done|]. cbn [length] in *. case_decide.
  - destruct (unescape_unicode rest) as [[ch n]|]; [|done]. apply Hrec. rewrite length_drop. lia.
  - destruct (simple_escape e); [apply Hrec; lia|done].
Qed.

Lemma split_once_length at_ s before after : split_once at_ s = Some (before, after) → length after < length s.
Proof.
  unfold split_once. pose proof (span_length (char_in [at_]) s) as Hl. destruct (span _ s) as [b [|c a]]; [done|].
  intros [= <- <-]. simpl in Hl. lia.
Qed.

Lemma parse_index_bound s n : parse_index s = Some n → (n ≤ u32_max)%N.
Proof.
  unfold parse_index. destruct (forallb _ _); [|done]. unfold u32_parse. destruct s; [done|]. cbv zeta.
  case_decide; [|done]. by intros [= <-].
Qed.

Lemma strip_one (c : char) s r : strip_prefix [c] s = Some r → length s = S (length r).
Proof. intros ->%strip_prefix_Some. done. Qed.

Lemma parse_segment_ends text rooted first rest :
  rest ≠ [] → ends (parse_segment text rooted first rest) (λ r, rust_subkey r.1 ∧ length r.2 < length rest).
Proof.
  intros Hne. unfold parse_segment. destruct (strip_prefix [OPEN] rest) as [inner|] eqn:Ho.
  - apply strip_one in Ho. unfold parse_bracket. pose proof (drop_while_length (char_in BLANK) inner) as Hd.
    destruct (drop_while _ inner) as [|quote body]; [done|]. cbn [length] in Hd. cbv zeta. destruct (char_in _ quote).
    + apply cwp_bind. eapply cwp_mono; [apply unquote_ends; lia| |done]. intros [key after] Ha. cbn [fst snd] in *.
      destruct (strip_prefix _ _) as [t|] eqn:Ht; [|done]. apply strip_one in Ht.
      pose proof (drop_while_length (char_in BLANK) after). split; [done|]. simpl. lia.
    + destruct (split_once CLOSE _) as [[selector after]|] eqn:Hs; [|done]. apply split_once_length in Hs. cbn [length] in Hs.
      destruct (parse_index _) as [n|] eqn:Hi; [|done]. apply parse_index_bound in Hi. split; [done|]. simpl. lia.
  - apply cwp_bind. assert (∀ body, length body ≤ length rest →
      ends (let (key, after) := span (char_in [DOT; OPEN]) body in
        match key with [] => c_err (PathParseError_EmptyKey text) | _ :: _ => c_ok (Subkey_Key key, after) end)
        (λ r, rust_subkey r.1 ∧ length r.2 < length rest)) as Hbody.
    { intros body Hb. pose proof (span_length (char_in [DOT; OPEN]) body) as Hl. destruct (span _ body) as [[|c key] after]; [done|].
      split; [done|]. simpl in *. lia. }
    destruct (strip_prefix [DOT] rest) as [after|] eqn:Hdot.
    + apply strip_one in Hdot. destruct (first && negb rooted); [done|]. apply Hbody. lia.
    + by apply Hbody.
Qed.

Lemma parse_segments_ends (fuel : nat) text rooted first read rest :
  Forall rust_subkey read → length rest ≤ fuel →
  ends (parse_segments fuel text rooted first read rest) (Forall rust_subkey).
Proof.
  revert first read rest. induction fuel as [|fuel IH]; intros first read rest Hr Hf.
  - by destruct rest; simpl in Hf; [|lia].
  - destruct rest as [|c rest]; [done|]. cbn [parse_segments]. apply cwp_bind.
    eapply cwp_mono; [by apply parse_segment_ends| |done]. intros [s t] [Hs Ht]. cbn [fst snd length] in *.
    apply IH; [|lia]. apply Forall_app. split; [done|]. by constructor.
Qed.

(** C30: a path written reads back as the path it was, whatever its keys hold, and
    any text at all is read to an end. For every path of [u32] indices, what
    [Display] writes parses to the same path: bare keys, keys that need quotes and
    the escapes of every quote, backslash and control character in them, indices
    up to the bound. And [FromStr] ends on every text — its loops never outrun
    the text they consume — with a path whose indices are within a [u32] or an
    error. *)
Theorem path_text_roundtrip :
  (∀ p : SubkeyPath, Forall rust_subkey (SubkeyPath_as_ref p) → SubkeyPath_from_str (SubkeyPath_display p) = c_ok p) ∧
  ∀ text : rstring, (∃ p, SubkeyPath_from_str text = c_ok p ∧ Forall rust_subkey (SubkeyPath_as_ref p)) ∨
    ∃ e, SubkeyPath_from_str text = c_err e.
Proof.
  split.
  - intros p Hp. unfold SubkeyPath_from_str, SubkeyPath_display.
    pose proof (SubkeyPath_try_new_as_ref p) as Hnew. destruct (SubkeyPath_as_ref p) as [|s l] eqn:Hpl;
      [by destruct (SubkeyPath_nonempty p)|].
    rewrite strip_root_display. pose proof (parse_segments_display (length (concat (imap display_at (s :: l)))) 0 (s :: l)
      (concat (imap display_at (s :: l))) [] Hp (concat_length 0 (s :: l))) as Hparse.
    change (imap (λ j, display_at (0 + j)) (s :: l)) with (imap display_at (s :: l)) in Hparse.
    cbn [Nat.eqb] in Hparse. rewrite Hparse. cbn [c_bind c_ok app]. by rewrite Hnew.
  - intros text. unfold SubkeyPath_from_str. destruct (strip_root text) as [rest rooted].
    pose proof (parse_segments_ends (length rest) text rooted true [] rest (List.Forall_nil _) (le_n _)) as Hp.
    unfold ends, cwp in Hp. destruct (parse_segments _ _ _ _ _ _) as [[l|e]| |]; [|by right; exists e|done|done].
    cbn [c_bind]. unfold SubkeyPath_try_new. case_decide as Hne; [|by right; eexists].
    left. eexists. by split.
Qed.

Definition c_display (c : Comp PathParseError SubkeyPath) : Comp PathParseError rstring :=
  let? p := c in c_ok (SubkeyPath_display p).

(** A path of every kind of segment and escape, and a text with a surrogate pair. *)
Example path_text_samples :
  (match SubkeyPath_try_new [Subkey_Key (str "servers"); Subkey_Index 4294967295; Subkey_Key (str "my.key");
      Subkey_Key [10; 39; 92; 31; 0x1D11E]; Subkey_Key (str "$x"); Subkey_Key []]%N with
   | Some p => SubkeyPath_display p = str "servers[4294967295]['my.key']['\n\'\\\u001f" ++ [0x1D11E]%N ++ str "']['$x']['']"
   | None => False
   end) ∧
  c_display (SubkeyPath_from_str (str "$[ 'a' ].b['\uD834\udd1e\/']")) = c_ok (str "a.b" ++ [0x2E; 0x1D11E; 0x2F])%N ∧
  SubkeyPath_from_str (str "a..b") = c_err (PathParseError_EmptyKey (str "a..b")) ∧
  SubkeyPath_from_str (str "[4294967296]") = c_err (PathParseError_BadIndex (str "4294967296")).
Proof. split_and!; vm_compute; reflexivity. Qed.
