(* ===== verification/Msg.v ===== *)
(** * Messages and values: [crates/wire/src/msg.rs]

    The data of the ledger's messages, the predicate and increment arithmetic
    an amend carries, and the serialized shape of every type. *)

From S2P Require Import Prelude BTree Text Codec Externals Keys Subkey.

(** [#[nutype(validate(not_empty))]]. *)
Definition NamespaceKey : Type := dsig (λ s : rstring, s ≠ []).

Definition NamespaceKey_as_ref (k : NamespaceKey) : rstring := proj1_sig k.

Definition NamespaceKey_try_new (s : rstring) : option NamespaceKey :=
  match decide (s ≠ []) with
  | left H => Some (dexist s H)
  | right _ => None
  end.

#[export] Instance NamespaceKey_ord : Ord NamespaceKey := λ a b,
  cmp (NamespaceKey_as_ref a) (NamespaceKey_as_ref b).

(** A data value; [Int] is an [i64]. *)
Inductive Value : Type :=
  | Value_String (s : rstring)
  | Value_Int (n : Z)
  | Value_Bool (b : bool)
  | Value_Array (items : list Value)
  | Value_Map (entries : BTreeMap rstring Value)
  | Value_Key (key : Key).

Definition Value_eq_dec_body (rec : ∀ v w : Value, Decision (v = w)) (v w : Value)
    : Decision (v = w).
Proof.
  refine (match v, w with
          | Value_String s, Value_String t => cast_if (decide (s = t))
          | Value_Int n, Value_Int m => cast_if (decide (n = m))
          | Value_Bool b, Value_Bool c => cast_if (decide (b = c))
          | Value_Array l, Value_Array k => cast_if (@list_eq_dec _ rec l k)
          | Value_Map l, Value_Map k =>
              cast_if (@list_eq_dec _ (@prod_eq_dec _ _ _ rec) l k)
          | Value_Key a, Value_Key b => cast_if (decide (a = b))
          | _, _ => right _
          end); abstract congruence.
Defined.

#[export] Instance Value_eq_dec : EqDecision Value.
Proof. exact (fix go v w := Value_eq_dec_body go v w). Defined.

(** A complete representation of a namespace. *)
Record Namespace := MkNamespace { ns_value : Value }.

Record FullCheckpoint := MkFullCheckpoint { fc_namespaces : BTreeMap NamespaceKey Namespace }.

Record InitMsg := MkInitMsg { init_state : FullCheckpoint }.

Record SetNamespace := MkSetNamespace {
  sn_prev : EnvelopeDigest;
  sn_key : NamespaceKey;
  sn_namespace : Namespace;
}.

Record SetNamespaceKey := MkSetNamespaceKey {
  snk_prev : EnvelopeDigest;
  snk_key : NamespaceKey;
  snk_path : SubkeyPath;
  snk_value : option Value;
}.

(** One condition of a predicate; [None] is the entry itself. *)
Record Match := MkMatch { match_path : option SubkeyPath; match_value : Value }.

(** Never empty. *)
Definition Predicate : Type := sig (λ l : list Match, Is_true (negb (bool_decide (length l = 0)))).

Definition Predicate_as_ref (p : Predicate) : list Match := proj1_sig p.

Definition Predicate_try_new (l : list Match) : option Predicate :=
  match decide (Is_true (negb (bool_decide (length l = 0)))) with
  | left H => Some (exist _ l H)
  | right _ => None
  end.

(** Integers are [i64]s. *)
Record IncrementDecrement := MkIncrementDecrement {
  inc_delta : Z;
  inc_min : option Z;
  inc_max : option Z;
}.

Inductive AmendOp : Type :=
  | AmendOp_AppendEntry (entry : Value)
  | AmendOp_IncrementDecrement (inc : IncrementDecrement)
  | AmendOp_DeleteMatching (predicate : Predicate).

Record AmendNamespaceKey := MkAmendNamespaceKey {
  ank_prev : EnvelopeDigest;
  ank_key : NamespaceKey;
  ank_path : option SubkeyPath;
  ank_op : AmendOp;
}.

Record DeleteNamespace := MkDeleteNamespace {
  dn_prev : EnvelopeDigest;
  dn_key : NamespaceKey;
}.

Inductive Msg : Type :=
  | Msg_Init (m : InitMsg)
  | Msg_SetNamespace (m : SetNamespace)
  | Msg_SetNamespaceKey (m : SetNamespaceKey)
  | Msg_AmendNamespaceKey (m : AmendNamespaceKey)
  | Msg_DeleteNamespace (m : DeleteNamespace).

(** The derived [PartialEq]s. *)

#[export] Instance NamespaceKey_eq_dec : EqDecision NamespaceKey := sig_eq_dec _.
#[export] Instance SubkeyPath_eq_dec : EqDecision SubkeyPath := sig_eq_dec _.

#[export] Instance Namespace_eq_dec : EqDecision Namespace.
Proof. solve_decision. Defined.

#[export] Instance FullCheckpoint_eq_dec : EqDecision FullCheckpoint.
Proof. unfold EqDecision. intros [a] [b]. destruct (list_eq_dec a b); [left|right]; congruence. Defined.

#[export] Instance InitMsg_eq_dec : EqDecision InitMsg.
Proof. solve_decision. Defined.

#[export] Instance SetNamespace_eq_dec : EqDecision SetNamespace.
Proof. solve_decision. Defined.

#[export] Instance SetNamespaceKey_eq_dec : EqDecision SetNamespaceKey.
Proof. solve_decision. Defined.

#[export] Instance Match_eq_dec : EqDecision Match.
Proof. solve_decision. Defined.

#[export] Instance Predicate_eq_dec : EqDecision Predicate := sig_eq_dec _.

#[export] Instance IncrementDecrement_eq_dec : EqDecision IncrementDecrement.
Proof. solve_decision. Defined.

#[export] Instance AmendOp_eq_dec : EqDecision AmendOp.
Proof. solve_decision. Defined.

#[export] Instance AmendNamespaceKey_eq_dec : EqDecision AmendNamespaceKey.
Proof. solve_decision. Defined.

#[export] Instance DeleteNamespace_eq_dec : EqDecision DeleteNamespace.
Proof. solve_decision. Defined.

#[export] Instance Msg_eq_dec : EqDecision Msg.
Proof. solve_decision. Defined.

(** The digest of the previous envelope; only [Init] has none. *)
Definition Msg_prev_digest (self : Msg) : option EnvelopeDigest :=
  match self with
  | Msg_Init _ => None
  | Msg_SetNamespace s => Some (sn_prev s)
  | Msg_SetNamespaceKey s => Some (snk_prev s)
  | Msg_AmendNamespaceKey a => Some (ank_prev a)
  | Msg_DeleteNamespace d => Some (dn_prev d)
  end.

(** One segment of a walk; [array.get(index as usize)]. *)
Definition value_step (value : Value) (segment : Subkey) : option Value :=
  match value, segment with
  | Value_Map map, Subkey_Key key => bt_get map key
  | Value_Array array, Subkey_Index index => array !! N.to_nat index
  | _, _ => None
  end.

(** [Option<SubkeyPath>] as a slice, [map_or(&[][..], ..)]. *)
Definition path_segments (path : option SubkeyPath) : list Subkey :=
  match path with Some p => SubkeyPath_as_ref p | None => [] end.

Definition Match_entry (value : Value) : Match := MkMatch None value.

Definition Match_at (path : SubkeyPath) (value : Value) : Match := MkMatch (Some path) value.

Definition Match_matches (self : Match) (entry : Value) : bool :=
  match try_fold value_step entry (path_segments (match_path self)) with
  | Some found => bool_decide (found = match_value self)
  | None => false
  end.

Definition Predicate_matches (self : Predicate) (entry : Value) : bool :=
  forallb (λ m, Match_matches m entry) (Predicate_as_ref self).

Definition IncrementDecrement_new (delta : Z) : IncrementDecrement :=
  MkIncrementDecrement delta None None.

Definition IncrementDecrement_with_min (self : IncrementDecrement) (min : Z) : IncrementDecrement :=
  MkIncrementDecrement (inc_delta self) (Some min) (inc_max self).

Definition IncrementDecrement_with_max (self : IncrementDecrement) (max : Z) : IncrementDecrement :=
  MkIncrementDecrement (inc_delta self) (inc_min self) (Some max).

(** The delta added, then clamped to the bounds that are set. *)
Definition IncrementDecrement_apply (self : IncrementDecrement) (n : Z) : option Z :=
  match checked_add n (inc_delta self) with
  | Some sum =>
      let floored := match inc_min self with Some min => Z.max sum min | None => sum end in
      Some (match inc_max self with Some max => Z.min floored max | None => floored end)
  | None => if (inc_delta self >? 0)%Z then inc_max self else inc_min self
  end.

(** ** Wire representations: [dual_repr!] tags and [derive(Cbor)] keys *)

Fixpoint ser_value (v : Value) : Item :=
  match v with
  | Value_String s => dual_serialize 1 (IText s)
  | Value_Int n => dual_serialize 2 (IInt n)
  | Value_Bool b => dual_serialize 3 (IBool b)
  | Value_Array items => dual_serialize 4 (IArray (map ser_value items))
  | Value_Map entries =>
      dual_serialize 5 (IMap (map (λ kv, (IText kv.1, ser_value kv.2)) entries))
  | Value_Key key => dual_serialize 6 (ser_key key)
  end.

(** An unset [Option] is null, not omitted. *)
Definition ser_option {A} (f : A → Item) (o : option A) : Item :=
  match o with Some a => f a | None => INull end.

Definition ser_namespace (n : Namespace) : Item := IMap [(IUint 1, ser_value (ns_value n))].

Definition ser_namespace_key (k : NamespaceKey) : Item := IText (NamespaceKey_as_ref k).

Definition ser_checkpoint (c : FullCheckpoint) : Item :=
  IMap [(IUint 1, ser_btree ser_namespace_key ser_namespace (fc_namespaces c))].

Definition ser_match (m : Match) : Item :=
  IMap [(IUint 1, ser_option ser_subkey_path (match_path m));
        (IUint 2, ser_value (match_value m))].

Definition ser_increment (i : IncrementDecrement) : Item :=
  IMap [(IUint 1, IInt (inc_delta i)); (IUint 2, ser_option IInt (inc_min i));
        (IUint 3, ser_option IInt (inc_max i))].

Definition ser_amend_op (op : AmendOp) : Item :=
  match op with
  | AmendOp_AppendEntry entry => dual_serialize 1 (ser_value entry)
  | AmendOp_IncrementDecrement inc => dual_serialize 2 (ser_increment inc)
  | AmendOp_DeleteMatching p => dual_serialize 3 (IArray (map ser_match (Predicate_as_ref p)))
  end.

Definition ser_msg (m : Msg) : Item :=
  match m with
  | Msg_Init i => dual_serialize 1 (IMap [(IUint 1, ser_checkpoint (init_state i))])
  | Msg_SetNamespace s =>
      dual_serialize 2 (IMap [(IUint 1, ser_digest false (sn_prev s));
                              (IUint 2, ser_namespace_key (sn_key s));
                              (IUint 3, ser_namespace (sn_namespace s))])
  | Msg_SetNamespaceKey s =>
      dual_serialize 3 (IMap [(IUint 1, ser_digest false (snk_prev s));
                              (IUint 2, ser_namespace_key (snk_key s));
                              (IUint 3, ser_subkey_path (snk_path s));
                              (IUint 4, ser_option ser_value (snk_value s))])
  | Msg_AmendNamespaceKey a =>
      dual_serialize 4 (IMap [(IUint 1, ser_digest false (ank_prev a));
                              (IUint 2, ser_namespace_key (ank_key a));
                              (IUint 3, ser_option ser_subkey_path (ank_path a));
                              (IUint 4, ser_amend_op (ank_op a))])
  | Msg_DeleteNamespace d =>
      dual_serialize 5 (IMap [(IUint 1, ser_digest false (dn_prev d));
                              (IUint 2, ser_namespace_key (dn_key d))])
  end.

(** ** Well-formed values

    What the Rust types guarantee of a [Value] and the model's do not: an
    [Int] fits an [i64], the entries of a [Map] are in key order. *)

Fixpoint value_ok (v : Value) : Prop :=
  match v with
  | Value_Int n => is_i64 n
  | Value_Array items =>
      (fix all l := match l with [] => True | x :: l' => value_ok x ∧ all l' end) items
  | Value_Map entries =>
      bt_sorted entries ∧
      (fix all l := match l with [] => True | x :: l' => value_ok x.2 ∧ all l' end) entries
  | Value_String _ | Value_Bool _ | Value_Key _ => True
  end.

(** ** Lemmas *)

#[export] Instance NamespaceKey_as_ref_inj : Inj (=) (=) NamespaceKey_as_ref.
Proof. intros a b Hab. by apply dsig_eq. Qed.

#[export] Instance NamespaceKey_ord_laws : OrdLaws NamespaceKey.
Proof. by apply (inj_ord_laws NamespaceKey_as_ref). Qed.

Lemma value_ok_Array (items : list Value) : value_ok (Value_Array items) ↔ Forall value_ok items.
Proof. induction items as [|x l IH]; simpl in *; [by split|]. by rewrite Forall_cons, IH. Qed.

Lemma value_ok_Map (entries : BTreeMap rstring Value) :
  value_ok (Value_Map entries) ↔ bt_sorted entries ∧ Forall (λ kv, value_ok kv.2) entries.
Proof.
  simpl. apply and_iff_compat_l.
  induction entries as [|x l IH]; simpl; [by split|]. by rewrite Forall_cons, IH.
Qed.

#[global] Arguments value_ok : simpl never.

Lemma Predicate_nonempty (p : Predicate) : Predicate_as_ref p ≠ [].
Proof.
  unfold Predicate_as_ref. destruct p as [l Hl]. simpl. intros ->. by compute in Hl.
Qed.

Lemma checked_add_Some (a b c : Z) : checked_add a b = Some c ↔ c = (a + b)%Z ∧ is_i64 (a + b).
Proof. unfold checked_add. case_decide; naive_solver. Qed.

Lemma checked_add_None (a b : Z) : checked_add a b = None ↔ ¬ is_i64 (a + b).
Proof. unfold checked_add. case_decide; naive_solver. Qed.
