(* ===== verification/Envelope.v ===== *)
(** * Envelopes: [crates/wire/src/envelope.rs] *)

From S2P Require Import Prelude BTree Text Codec Externals Keys Subkey Msg.

(** The cached state of signature verification; a [Failed] status holds a
    [BTreeSet<KeyId>], the total weight is a [u32]. *)
Inductive VerificationStatus : Type :=
  | Unchecked
  | Failed (failing_key_ids : gset KeyId)
  | AllMatched (total_weight : N).

(** The verified signature weight; zero until verification has succeeded. *)
Definition signature_weight (self : VerificationStatus) : N :=
  match self with
  | Unchecked | Failed _ => 0
  | AllMatched total_weight => total_weight
  end.

(** An empty struct so far. *)
Inductive SignedTimestamp : Type := MkSignedTimestamp.

Record Envelope := MkEnvelope {
  payload : Msg;
  signatures : BTreeMap KeyId Signature;
  timestamps : list SignedTimestamp;
  verification_status : VerificationStatus;
}.

#[export] Instance VerificationStatus_eq_dec : EqDecision VerificationStatus.
Proof. solve_decision. Defined.

#[export] Instance SignedTimestamp_eq_dec : EqDecision SignedTimestamp.
Proof. solve_decision. Defined.

#[export] Instance Envelope_eq_dec : EqDecision Envelope.
Proof.
  intros [p s t v] [p' s' t' v'].
  refine (cast_if_and4 (decide (p = p')) (@list_eq_dec _ (@prod_eq_dec _ _ _ _) s s') (decide (t = t'))
    (decide (v = v'))); abstract congruence.
Defined.

Definition Envelope_new (payload : Msg) : Envelope := MkEnvelope payload [] [] Unchecked.

(** How many distinct keys have verifiably signed: zero until verification
    has succeeded, [len().try_into().unwrap_or(u32::MAX)] then. *)
Definition verified_signers (self : Envelope) : N :=
  match verification_status self with
  | AllMatched _ =>
      default u32_max (u32_try_from_u64 (N.of_nat (length (signatures self))))
  | Unchecked | Failed _ => 0
  end.

Definition set_verification_status (self : Envelope) (status : VerificationStatus) : Envelope :=
  MkEnvelope (payload self) (signatures self) (timestamps self) status.

Definition ser_timestamp (t : SignedTimestamp) : Item := IMap [].

(** [derive(Cbor)]; the verification status is [#[serde(skip)]]. *)
Definition ser_envelope (e : Envelope) : Item :=
  IMap [(IUint 1, ser_msg (payload e));
        (IUint 2, ser_btree (ser_key_id false) ser_signature (signatures e));
        (IUint 3, IArray (map ser_timestamp (timestamps e)))].

(** [SignedPortion]: the envelope's own keys with nothing at the signatures. *)
Definition ser_signed_portion (e : Envelope) : Item :=
  IMap [(IUint 1, ser_msg (payload e));
        (IUint 2, ser_btree (ser_key_id false) ser_signature []);
        (IUint 3, IArray (map ser_timestamp (timestamps e)))].

Definition with_signature (self : Envelope) (key_id : KeyId) (signature : Signature) : Envelope :=
  MkEnvelope (payload self) (bt_insert key_id signature (signatures self)) (timestamps self)
    (verification_status self).

Section externals.
Context `{Externals}.

Definition Envelope_digest (self : Envelope) : Result WireError EnvelopeDigest :=
  match encode_hash (ser_envelope self) with
  | Ok hash => Ok (MkEnvelopeDigest hash)
  | Err e => Err e
  end.

Definition Envelope_signature_digest (self : Envelope)
    : Result WireError EnvelopeSignatureDigest :=
  match encode_hash (ser_signed_portion self) with
  | Ok hash => Ok (MkEnvelopeSignatureDigest hash)
  | Err e => Err e
  end.
End externals.

(** The parent an envelope chains onto. *)
Definition prev_of (e : Envelope) : option EnvelopeDigest := Msg_prev_digest (payload e).

(** ** Lemmas *)

Lemma prev_of_set_status (e : Envelope) (st : VerificationStatus) :
  prev_of (set_verification_status e st) = prev_of e.
Proof. done. Qed.

Lemma digest_set_status `{Externals} (e : Envelope) (st : VerificationStatus) :
  Envelope_digest (set_verification_status e st) = Envelope_digest e.
Proof. done. Qed.

#[export] Hint Rewrite prev_of_set_status @digest_set_status : lotus.
