(* ===== verification/Value.v ===== *)
(** * Walking and amending a value tree: [crates/storage/src/value.rs]

    The node kinds, resolutions and namespace operations of
    [crates/storage/src/lib.rs], and the walk both backends must agree with. A
    [&mut] walk becomes [walk_mut]: the tree rebuilt around what its
    continuation makes of the node it reaches. [None] is a panic: the
    operations run on pre-validated paths. *)

From S2P Require Import Prelude BTree Text Codec Externals Keys Subkey Msg.

Inductive NodeKind : Type :=
  | NodeKind_Map
  | NodeKind_Array
  | NodeKind_Leaf.

#[export] Instance NodeKind_eq_dec : EqDecision NodeKind.
Proof. solve_decision. Defined.

Inductive ValueMeta : Type :=
  | ValueMeta_Leaf
  | ValueMeta_Array (len : N)
  | ValueMeta_Map (keys : list rstring).

Inductive Resolution : Type :=
  | Resolution_Node (kind : NodeKind)
  | Resolution_Missing (depth : nat) (at_ : NodeKind)
  | Resolution_Mismatch (depth : nat).

(** The single namespace write a commit carries. *)
Inductive NamespaceOp : Type :=
  | NamespaceOp_Put (key : NamespaceKey) (namespace : Namespace)
  | NamespaceOp_Delete (key : NamespaceKey)
  | NamespaceOp_SetAt (key : NamespaceKey) (path : SubkeyPath) (value : option Value)
  | NamespaceOp_AmendAt (key : NamespaceKey) (path : option SubkeyPath) (op : AmendOp).

Definition kind (value : Value) : NodeKind :=
  match value with
  | Value_Map _ => NodeKind_Map
  | Value_Array _ => NodeKind_Array
  | Value_String _ | Value_Int _ | Value_Bool _ | Value_Key _ => NodeKind_Leaf
  end.

Definition meta (value : Value) : ValueMeta :=
  match value with
  | Value_Map entries => ValueMeta_Map (bt_keys entries)
  | Value_Array items => ValueMeta_Array (N.of_nat (length items))
  | Value_String _ | Value_Int _ | Value_Bool _ | Value_Key _ => ValueMeta_Leaf
  end.

(** The [try_fold] of [resolve], from [depth] segments down. *)
Fixpoint resolve_from (depth : nat) (node : Value) (path : list Subkey) : Resolution :=
  match path with
  | [] => Resolution_Node (kind node)
  | segment :: rest =>
      match node, segment with
      | Value_Map map, Subkey_Key key =>
          match bt_get map key with
          | Some child => resolve_from (S depth) child rest
          | None => Resolution_Missing depth NodeKind_Map
          end
      | Value_Array array, Subkey_Index index =>
          match array !! N.to_nat index with
          | Some child => resolve_from (S depth) child rest
          | None => Resolution_Missing depth NodeKind_Array
          end
      | _, _ => Resolution_Mismatch depth
      end
  end.

(** Walks [path] from [root], reporting how far it got. *)
Definition value_resolve (root : Value) (path : list Subkey) : Resolution :=
  resolve_from 0 root path.

(** Walks [path] from [root], yielding the value it addresses. *)
Definition walk (root : Value) (path : list Subkey) : option Value :=
  try_fold value_step root path.

Fixpoint walk_mut (root : Value) (path : list Subkey) (f : Value → option Value) : option Value :=
  match path with
  | [] => f root
  | segment :: rest =>
      match root, segment with
      | Value_Map map, Subkey_Key key =>
          child ← bt_get map key;
          child' ← walk_mut child rest f;
          Some (Value_Map (bt_insert key child' map))
      | Value_Array array, Subkey_Index index =>
          child ← array !! N.to_nat index;
          child' ← walk_mut child rest f;
          Some (Value_Array (<[N.to_nat index := child']> array))
      | _, _ => None
      end
  end.

(** [slice::split_last]. *)
Definition split_last (path : list Subkey) : option (Subkey * list Subkey) :=
  match last path with Some x => Some (x, removelast path) | None => None end.

(** [Vec::remove]: panics out of bounds. *)
Definition vec_remove (i : nat) (l : list Value) : option (list Value) :=
  if decide (i < length l) then Some (delete i l) else None.

(** The match of [set_at] on the parent, the last segment and the value. *)
Definition set_last (last : Subkey) (value : option Value) (parent : Value) : option Value :=
  match parent, last, value with
  | Value_Map map, Subkey_Key key, Some value => Some (Value_Map (bt_insert key value map))
  | Value_Map map, Subkey_Key key, None =>
      if bt_contains_key map key then Some (Value_Map (bt_remove key map)) else None
  | Value_Array array, Subkey_Index index, Some value =>
      if decide (N.to_nat index < length array)
      then Some (Value_Array (<[N.to_nat index := value]> array)) else None
  | Value_Array array, Subkey_Index index, None =>
      array' ← vec_remove (N.to_nat index) array; Some (Value_Array array')
  | _, _, _ => None
  end.

(** Applies a pre-validated [SetAt] to a tree. *)
Definition set_at (root : Value) (path : SubkeyPath) (value : option Value) : option Value :=
  '(last, parents) ← split_last (SubkeyPath_as_ref path);
  walk_mut root parents (set_last last value).

Definition append_to (entry target : Value) : option Value :=
  match target with
  | Value_Array array => Some (Value_Array (array ++ [entry]))
  | _ => None
  end.

(** The append's target under its parent: [entry(..).or_insert_with(..)]. *)
Definition append_last (last : Subkey) (entry parent : Value) : option Value :=
  match parent, last with
  | Value_Map map, Subkey_Key key =>
      target ← append_to entry (default (Value_Array []) (bt_get map key));
      Some (Value_Map (bt_insert key target map))
  | Value_Array array, Subkey_Index index =>
      target ← array !! N.to_nat index;
      target' ← append_to entry target;
      Some (Value_Array (<[N.to_nat index := target']> array))
  | _, _ => None
  end.

Definition increment_target (inc : IncrementDecrement) (target : Value) : option Value :=
  match target with
  | Value_Int n => sum ← IncrementDecrement_apply inc n; Some (Value_Int sum)
  | _ => None
  end.

Definition delete_target (predicate : Predicate) (target : Value) : option Value :=
  match target with
  | Value_Map map =>
      Some (Value_Map (bt_retain (λ _ entry, negb (Predicate_matches predicate entry)) map))
  | Value_Array array =>
      Some (Value_Array
        (base.filter (λ entry, Is_true (negb (Predicate_matches predicate entry))) array))
  | _ => None
  end.

(** Applies a pre-validated [AmendAt] to a tree. *)
Definition amend_at (root : Value) (path : option SubkeyPath) (op : AmendOp) : option Value :=
  let segments := path_segments path in
  match op with
  | AmendOp_AppendEntry entry =>
      match split_last segments with
      | None => append_to entry root
      | Some (last, parents) => walk_mut root parents (append_last last entry)
      end
  | AmendOp_IncrementDecrement inc => walk_mut root segments (increment_target inc)
  | AmendOp_DeleteMatching predicate => walk_mut root segments (delete_target predicate)
  end.

(** ** The walk *)

Lemma walk_app (root : Value) (p q : list Subkey) :
  walk root (p ++ q) = walk root p ≫= λ v, walk v q.
Proof. apply try_fold_app. Qed.

Lemma walk_cons (root : Value) (s : Subkey) (p : list Subkey) :
  walk root (s :: p) = value_step root s ≫= λ v, walk v p.
Proof. unfold walk. simpl. by destruct (value_step root s). Qed.

Lemma split_last_snoc (parents : list Subkey) (x : Subkey) :
  split_last (parents ++ [x]) = Some (x, parents).
Proof. unfold split_last. by rewrite last_snoc, removelast_last. Qed.

Lemma set_at_snoc (root : Value) (path : SubkeyPath) (value : option Value) parents last :
  SubkeyPath_as_ref path = parents ++ [last] →
  set_at root path value = walk_mut root parents (set_last last value).
Proof. intros Hp. unfold set_at. by rewrite Hp, split_last_snoc. Qed.

Lemma resolve_from_Node depth root p k :
  resolve_from depth root p = Resolution_Node k ↔ ∃ v, walk root p = Some v ∧ kind v = k.
Proof.
  revert depth root. induction p as [|s p IH]; intros depth root; simpl.
  - unfold walk. simpl. naive_solver.
  - rewrite walk_cons.
    destruct root, s; simpl; try naive_solver.
    + destruct (items !! N.to_nat index); simpl; [apply IH|naive_solver].
    + destruct (bt_get entries key); simpl; [apply IH|naive_solver].
Qed.

(** Where a walk stops short in a container of the right shape. *)
Lemma resolve_from_Missing depth root p d k :
  resolve_from depth root p = Resolution_Missing d k →
  ∃ q s r node, p = q ++ s :: r ∧ d = depth + length q ∧ walk root q = Some node ∧
    kind node = k ∧ value_step node s = None ∧
    match s with Subkey_Key _ => k = NodeKind_Map | Subkey_Index _ => k = NodeKind_Array end.
Proof.
  revert depth root. induction p as [|s p IH]; intros depth root Hr; simpl in Hr; [done|].
  destruct root, s; simplify_eq.
  - destruct (items !! N.to_nat index) as [c|] eqn:Hc; simplify_eq.
    + destruct (IH _ _ Hr) as (q & x & r & node & -> & -> & Hw & Hk & Hs & Hm).
      exists (Subkey_Index index :: q), x, r, node.
      split_and!; [done|simpl; lia| |done..]. rewrite walk_cons. simpl. by rewrite Hc.
    + exists [], (Subkey_Index index), p, (Value_Array items). simpl. split_and!; try done; lia.
  - destruct (bt_get entries key) as [c|] eqn:Hc; simplify_eq.
    + destruct (IH _ _ Hr) as (q & x & r & node & -> & -> & Hw & Hk & Hs & Hm).
      exists (Subkey_Key key :: q), x, r, node.
      split_and!; [done|simpl; lia| |done..]. rewrite walk_cons. simpl. by rewrite Hc.
    + exists [], (Subkey_Key key), p, (Value_Map entries). simpl. split_and!; try done; lia.
Qed.

Lemma walk_mut_Some root p f root' :
  walk_mut root p f = Some root' →
  ∃ v v', walk root p = Some v ∧ f v = Some v' ∧ walk root' p = Some v'.
Proof.
  revert root root'. induction p as [|s p IH]; intros root root' Hm; simpl in Hm.
  - exists root, root'. done.
  - destruct root, s; simplify_option_eq.
    + destruct (IH _ _ ltac:(eassumption)) as (v & v' & Hw & Hf & Hw').
      exists v, v'. rewrite !walk_cons. simpl.
      rewrite list_lookup_insert_eq by (by eapply lookup_lt_Some).
      by simplify_option_eq.
    + destruct (IH _ _ ltac:(eassumption)) as (v & v' & Hw & Hf & Hw').
      exists v, v'. rewrite !walk_cons. simpl. rewrite bt_get_insert_eq. by simplify_option_eq.
Qed.

Lemma walk_mut_total root p f v :
  walk root p = Some v → is_Some (f v) → is_Some (walk_mut root p f).
Proof.
  intros Hw [v' Hf]. revert root Hw. induction p as [|s p IH]; intros root Hw.
  - unfold walk in Hw. simplify_eq/=. by eexists.
  - rewrite walk_cons in Hw.
    destruct root, s; simplify_option_eq;
      (edestruct IH as [x ->]; [done|]); by eexists.
Qed.

(** Two paths part: neither is a prefix of the other. *)
Definition diverge (p q : list Subkey) : Prop :=
  ∃ l a b p' q', p = l ++ a :: p' ∧ q = l ++ b :: q' ∧ a ≠ b.

Lemma walk_mut_diverge root p q f root' :
  walk_mut root p f = Some root' → diverge p q → walk root' q = walk root q.
Proof.
  intros Hm (l & a & b & p' & q' & -> & -> & Hab). revert root root' Hm.
  induction l as [|s l IH]; intros root root' Hm; simpl in *.
  - rewrite !walk_cons. destruct root, a; simplify_option_eq; destruct b; simpl; try done.
    + rewrite list_lookup_insert_ne; [done|]. intros ?%N2Nat.inj. congruence.
    + rewrite bt_get_insert_ne; [done|congruence].
  - rewrite !walk_cons. destruct root, s; simplify_option_eq.
    + rewrite list_lookup_insert_eq by (by eapply lookup_lt_Some). simpl. by apply IH.
    + rewrite bt_get_insert_eq. simpl. by apply IH.
Qed.

(** ** Well-formedness of the results *)

Lemma value_ok_step v s w : value_ok v → value_step v s = Some w → value_ok w.
Proof.
  destruct v, s; simpl value_step; try done.
  - rewrite value_ok_Array, Forall_lookup. eauto.
  - rewrite value_ok_Map. intros [_ Hall] Hg. apply bt_get_elem in Hg.
    by apply (proj1 (Forall_forall _ _) Hall) in Hg.
Qed.

Lemma value_ok_map_insert entries k v :
  value_ok (Value_Map entries) → value_ok v → value_ok (Value_Map (bt_insert k v entries)).
Proof.
  rewrite !value_ok_Map, !Forall_forall. intros [Hs Hall] Hv.
  split; [by apply sorted_insert|]. intros x [->|Hx]%bt_insert_elem; auto.
Qed.

Lemma value_ok_array_insert items i v :
  value_ok (Value_Array items) → value_ok v → value_ok (Value_Array (<[i:=v]> items)).
Proof. rewrite !value_ok_Array. intros. by apply Forall_insert. Qed.

Lemma walk_mut_ok root p f root' :
  value_ok root → (∀ v v', value_ok v → f v = Some v' → value_ok v') →
  walk_mut root p f = Some root' → value_ok root'.
Proof.
  intros Hok Hf. revert root root' Hok. induction p as [|s p IH]; intros root root' Hok Hm.
  - by eapply Hf.
  - simpl in Hm. destruct root, s; simplify_option_eq.
    + apply value_ok_array_insert; [done|]. eapply IH; [|done].
      by eapply (value_ok_step (Value_Array items) (Subkey_Index index)).
    + apply value_ok_map_insert; [done|]. eapply IH; [|done].
      by eapply (value_ok_step (Value_Map entries) (Subkey_Key key)).
Qed.

Lemma set_last_ok last value v v' :
  match value with Some w => value_ok w | None => True end →
  value_ok v → set_last last value v = Some v' → value_ok v'.
Proof.
  intros Hw Hv Hs. destruct v, last, value; simplify_eq/=; unfold vec_remove in *;
    try case_match; simplify_option_eq.
  - by apply value_ok_array_insert.
  - apply value_ok_Array. apply value_ok_Array in Hv. by apply Forall_delete.
  - by apply value_ok_map_insert.
  - apply value_ok_Map. apply value_ok_Map in Hv as [Hs' Hall].
    split; [by apply sorted_remove|]. apply Forall_forall. intros x ?%bt_remove_elem.
    by apply (proj1 (Forall_forall _ _) Hall).
Qed.

(** What a well-formed amend carries. *)
Definition amend_op_ok (op : AmendOp) : Prop :=
  match op with
  | AmendOp_AppendEntry entry => value_ok entry
  | AmendOp_IncrementDecrement inc =>
      is_i64 (inc_delta inc) ∧
      match inc_min inc with Some m => is_i64 m | None => True end ∧
      match inc_max inc with Some m => is_i64 m | None => True end
  | AmendOp_DeleteMatching _ => True
  end.

Lemma increment_range inc n m :
  is_i64 n → amend_op_ok (AmendOp_IncrementDecrement inc) →
  IncrementDecrement_apply inc n = Some m → is_i64 m.
Proof.
  intros Hn (Hd & Hmin & Hmax). unfold IncrementDecrement_apply.
  destruct (checked_add n (inc_delta inc)) as [sum|] eqn:Hc.
  - apply checked_add_Some in Hc as [-> Hs]. unfold is_i64 in *.
    destruct (inc_min inc), (inc_max inc); intros [= <-]; lia.
  - destruct (_ >? _)%Z; [destruct (inc_max inc)|destruct (inc_min inc)]; intros ?; by simplify_eq.
Qed.

Lemma append_to_ok entry v v' :
  value_ok entry → value_ok v → append_to entry v = Some v' → value_ok v'.
Proof.
  intros He Hv Ha. destruct v; simplify_eq/=. apply value_ok_Array. apply value_ok_Array in Hv.
  apply Forall_app. split; [done|by constructor].
Qed.

Lemma append_last_ok last entry v v' :
  value_ok entry → value_ok v → append_last last entry v = Some v' → value_ok v'.
Proof.
  intros He Hv Ha. destruct v, last; simplify_option_eq.
  - apply value_ok_array_insert; [done|]. eapply (append_to_ok entry); [done| |eassumption].
    by eapply (value_ok_step (Value_Array items) (Subkey_Index index)).
  - apply value_ok_map_insert; [done|]. eapply (append_to_ok entry); [done| |eassumption].
    destruct (bt_get entries key) eqn:Hg; [|done].
    by eapply (value_ok_step (Value_Map entries) (Subkey_Key key)).
Qed.

Lemma delete_target_ok predicate v v' :
  value_ok v → delete_target predicate v = Some v' → value_ok v'.
Proof.
  intros Hv Hd. destruct v; simplify_eq/=.
  - apply value_ok_Array. apply value_ok_Array in Hv. apply Forall_forall.
    intros x [_ Hx]%list_elem_of_filter. by apply (proj1 (Forall_forall _ _) Hv).
  - apply value_ok_Map. apply value_ok_Map in Hv as [Hs Hall].
    split; [by apply sorted_retain|]. apply Forall_forall.
    intros x [_ Hx]%list_elem_of_filter. by apply (proj1 (Forall_forall _ _) Hall).
Qed.

Lemma set_at_ok root path value root' :
  value_ok root → match value with Some w => value_ok w | None => True end →
  set_at root path value = Some root' → value_ok root'.
Proof.
  intros Hr Hv Hs. unfold set_at in Hs. destruct (split_last _) as [[x parents]|]; simplify_eq/=.
  eapply (walk_mut_ok root); [done| |eassumption]. intros v v' ??. by apply (set_last_ok x value v).
Qed.

Lemma amend_at_ok root path op root' :
  value_ok root → amend_op_ok op → amend_at root path op = Some root' → value_ok root'.
Proof.
  intros Hr Ho Ha. unfold amend_at in Ha. destruct op; simpl in Ha.
  - destruct (split_last _) as [[x parents]|].
    + eapply (walk_mut_ok root); [done| |eassumption]. intros v v' ??. by apply (append_last_ok x entry v).
    + by apply (append_to_ok entry root).
  - eapply (walk_mut_ok root); [done| |eassumption]. intros [] v' Hv Hi; simplify_option_eq.
    by eapply increment_range.
  - eapply (walk_mut_ok root); [done| |eassumption]. intros v v' ??. by apply (delete_target_ok predicate v).
Qed.

(** ** Where the pre-validated operations are defined *)

Lemma walk_snoc root parents last v :
  walk root (parents ++ [last]) = Some v →
  ∃ parent, walk root parents = Some parent ∧ value_step parent last = Some v.
Proof.
  rewrite walk_app. destruct (walk root parents) as [parent|]; simpl; [|done].
  rewrite walk_cons. destruct (value_step parent last) eqn:Hs; simpl; [|done].
  unfold walk. simpl. intros [= <-]. by exists parent.
Qed.

(** The one absence a write may fill: a fresh key under a map. *)
Lemma resolve_fresh root parents last :
  value_resolve root (parents ++ [last]) = Resolution_Missing (length parents) NodeKind_Map →
  ∃ entries key, walk root parents = Some (Value_Map entries) ∧ last = Subkey_Key key ∧
    bt_get entries key = None.
Proof.
  intros (q & s & r & node & Hp & Hd & Hw & Hk & Hs & Hm)%resolve_from_Missing.
  simpl in Hd. apply app_inj_1 in Hp as [<- [= <- <-]]; [|done].
  destruct node, last; simplify_eq/=. by eexists _, _.
Qed.

Lemma set_at_total root path value k :
  value_resolve root (SubkeyPath_as_ref path) = Resolution_Node k →
  is_Some (set_at root path value).
Proof.
  intros [v [Hw _]]%resolve_from_Node.
  destruct (SubkeyPath_split_last path) as (parents & last & Hp).
  rewrite Hp in Hw. rewrite (set_at_snoc _ _ _ _ _ Hp).
  apply walk_snoc in Hw as (parent & Hw & Hs).
  eapply walk_mut_total; [done|].
  destruct parent, last; simplify_eq/=; destruct value; simpl;
    unfold vec_remove, bt_contains_key; rewrite ?decide_True by (by eapply lookup_lt_Some);
    rewrite ?Hs; by eexists.
Qed.

Lemma set_at_fresh_total root path value :
  value_resolve root (SubkeyPath_as_ref path)
    = Resolution_Missing (length (SubkeyPath_as_ref path) - 1) NodeKind_Map →
  is_Some value → is_Some (set_at root path value).
Proof.
  destruct (SubkeyPath_split_last path) as (parents & last & Hp).
  rewrite (set_at_snoc _ _ _ _ _ Hp), Hp, length_app, Nat.add_sub.
  intros (entries & key & Hw & -> & _)%resolve_fresh [v ->].
  by eapply walk_mut_total.
Qed.

Lemma append_total root path entry :
  value_resolve root (path_segments path) = Resolution_Node NodeKind_Array →
  is_Some (amend_at root path (AmendOp_AppendEntry entry)).
Proof.
  intros [v [Hw Hk]]%resolve_from_Node. destruct v; simplify_eq/=.
  destruct path as [path|]; simpl in *; [|unfold walk in Hw; by simplify_eq/=].
  destruct (SubkeyPath_split_last path) as (parents & last & Hp).
  rewrite Hp, split_last_snoc. rewrite Hp in Hw. apply walk_snoc in Hw as (parent & Hw & Hs).
  eapply walk_mut_total; [done|].
  destruct parent, last; simplify_option_eq; by eexists.
Qed.

Lemma append_fresh_total root path entry :
  value_resolve root (SubkeyPath_as_ref path)
    = Resolution_Missing (length (SubkeyPath_as_ref path) - 1) NodeKind_Map →
  is_Some (amend_at root (Some path) (AmendOp_AppendEntry entry)).
Proof.
  destruct (SubkeyPath_split_last path) as (parents & last & Hp). simpl.
  rewrite Hp, split_last_snoc, length_app, Nat.add_sub.
  intros (entries & key & Hw & -> & Hg)%resolve_fresh.
  eapply walk_mut_total; [done|]. simpl. by rewrite Hg.
Qed.

Lemma increment_total root path inc n m :
  walk root (path_segments path) = Some (Value_Int n) → IncrementDecrement_apply inc n = Some m →
  is_Some (amend_at root path (AmendOp_IncrementDecrement inc)).
Proof. intros Hw Hi. eapply walk_mut_total; [done|]. simpl. by rewrite Hi. Qed.

Lemma delete_total root path predicate k :
  value_resolve root (path_segments path) = Resolution_Node k → k ≠ NodeKind_Leaf →
  is_Some (amend_at root path (AmendOp_DeleteMatching predicate)).
Proof.
  intros [v [Hw Hk]]%resolve_from_Node Hl.
  eapply walk_mut_total; [done|]. destruct v; simplify_eq/=; by eexists.
Qed.

(** ** The value operations' properties *)

(** [lo ..= hi] over the integers, a missing bound being none. *)
Definition clamp (lo hi : option Z) (z : Z) : Z :=
  let z := match lo with Some m => Z.max z m | None => z end in
  match hi with Some m => Z.min z m | None => z end.

(** The children of a container. *)
Definition entries_of (v : Value) : list Value :=
  match v with
  | Value_Array items => items
  | Value_Map entries => entries.*2
  | _ => []
  end.

(** ** Lemmas *)

Lemma set_last_walk last v parent parent' :
  set_last last (Some v) parent = Some parent' → value_step parent' last = Some v.
Proof.
  destruct parent, last; simpl; try done.
  - case_decide; [|done]. intros [= <-]. simpl. by apply list_lookup_insert_eq.
  - intros [= <-]. simpl. apply bt_get_insert_eq.
Qed.

Lemma set_last_other last v parent parent' seg :
  set_last last (Some v) parent = Some parent' → seg ≠ last →
  value_step parent' seg = value_step parent seg.
Proof.
  destruct parent, last; simpl; try done.
  - case_decide; [|done]. intros [= <-] Hne. destruct seg as [|j]; simpl; [done|].
    apply list_lookup_insert_ne. intros ?%N2Nat.inj. congruence.
  - intros [= <-] Hne. destruct seg; simpl; [|done]. apply bt_get_insert_ne. congruence.
Qed.

(** Two paths part at the last segment of the first, or above it. *)
Lemma diverge_snoc parents last q :
  diverge (parents ++ [last]) q →
  diverge parents q ∨ ∃ seg q', q = parents ++ seg :: q' ∧ seg ≠ last.
Proof.
  intros (l & a & b & p' & q' & Hp & -> & Hab).
  destruct p' as [|y p'] using rev_ind.
  - apply app_inj_tail in Hp as [-> ->]. right. by exists b, q'.
  - left. rewrite app_comm_cons, app_assoc in Hp. apply app_inj_tail in Hp as [-> _].
    by exists l, a, b, p', q'.
Qed.

Lemma delete_target_entries predicate v v' :
  delete_target predicate v = Some v' →
  ∀ e, e ∈ entries_of v' ↔ e ∈ entries_of v ∧ ¬ Predicate_matches predicate e.
Proof.
  intros Hd e. destruct v; simplify_eq/=.
  - rewrite list_elem_of_filter. rewrite <-negb_True. naive_solver.
  - unfold bt_retain. rewrite !list_elem_of_fmap. split.
    + intros ([k w] & -> & [Hneg Hin]%list_elem_of_filter). simpl in *. apply negb_True in Hneg.
      split; [by exists (k, w)|done].
    + intros [([k w] & -> & Hin) Hneg]. exists (k, w). split; [done|].
      apply list_elem_of_filter. simpl in *. by rewrite negb_True.
Qed.

Lemma filter_idemp {A} (f : A → bool) (l : list A) :
  base.filter (λ x, Is_true (f x)) (base.filter (λ x, Is_true (f x)) l)
  = base.filter (λ x, Is_true (f x)) l.
Proof.
  induction l as [|a l IH]; [done|]. rewrite !filter_cons. case_decide; [|done].
  by rewrite filter_cons_True, IH.
Qed.

(** ** Properties *)

(** A set writes one value and touches nothing beside it: the path then
    addresses the value set, and every path that parts from it addresses what
    it did. *)
Theorem set_at_writes_only (root root' v : Value) (path : SubkeyPath) :
  set_at root path (Some v) = Some root' →
  walk root' (SubkeyPath_as_ref path) = Some v ∧
  ∀ q, diverge (SubkeyPath_as_ref path) q → walk root' q = walk root q.
Proof.
  destruct (SubkeyPath_split_last path) as (parents & last & Hp).
  rewrite (set_at_snoc _ _ _ _ _ Hp), Hp. intros Hset.
  destruct (walk_mut_Some _ _ _ _ Hset) as (parent & parent' & Hw & Hl & Hw'). split.
  - rewrite walk_app, Hw'. simpl. rewrite walk_cons.
    by rewrite (set_last_walk _ _ _ _ Hl).
  - intros q [Hq|(seg & q' & -> & Hne)]%diverge_snoc; [by eapply walk_mut_diverge|].
    rewrite !walk_app, Hw, Hw'. simpl. rewrite !walk_cons.
    by rewrite (set_last_other _ _ _ _ _ Hl Hne).
Qed.

(** A small tree: [{"a": [1, 2], "b": "x"}]. *)
Definition sample_tree : Value :=
  Value_Map [(str "a", Value_Array [Value_Int 1; Value_Int 2]); (str "b", Value_String (str "x"))].

Definition sample_path : SubkeyPath :=
  default (dexist [Subkey_Index 0] (not_eq_sym (@nil_cons _ _ _)))
    (SubkeyPath_try_new [Subkey_Key (str "a"); Subkey_Index 1]).

Lemma set_at_writes_only_witness :
  ∃ root', set_at sample_tree sample_path (Some (Value_Int 9)) = Some root' ∧
    walk root' (SubkeyPath_as_ref sample_path) = Some (Value_Int 9) ∧
    ∀ q, diverge (SubkeyPath_as_ref sample_path) q → walk root' q = walk sample_tree q.
Proof.
  eexists. split; [vm_compute; reflexivity|]. apply set_at_writes_only. vm_compute. reflexivity.
Defined.

(** A delete-matching keeps exactly the entries its predicate does not
    match, and asking again changes nothing. *)
Theorem delete_matching_exact (root root' : Value) (path : option SubkeyPath) (predicate : Predicate) :
  amend_at root path (AmendOp_DeleteMatching predicate) = Some root' →
  (∃ v v', walk root (path_segments path) = Some v ∧ walk root' (path_segments path) = Some v' ∧
    ∀ e, e ∈ entries_of v' ↔ e ∈ entries_of v ∧ ¬ Predicate_matches predicate e) ∧
  ∃ v', walk root' (path_segments path) = Some v' ∧ delete_target predicate v' = Some v'.
Proof.
  intros (v & v' & Hw & Hd & Hw')%walk_mut_Some. split.
  - exists v, v'. split_and!; [done..|]. by apply delete_target_entries.
  - exists v'. split; [done|]. destruct v; simplify_eq/=; [by rewrite filter_idemp|].
    unfold bt_retain. by rewrite (filter_idemp (λ kv, negb (Predicate_matches predicate kv.2))).
Qed.

Definition sample_predicate : Predicate := exist _ [Match_entry (Value_Int 1)] I.

Lemma delete_matching_exact_witness :
  let root := Value_Array [Value_Int 1; Value_Int 2; Value_Int 1] in
  let root' := Value_Array [Value_Int 2] in
  (∃ v v', walk root [] = Some v ∧ walk root' [] = Some v' ∧
    ∀ e, e ∈ entries_of v' ↔ e ∈ entries_of v ∧ ¬ Predicate_matches sample_predicate e) ∧
  ∃ v', walk root' [] = Some v' ∧ delete_target sample_predicate v' = Some v'.
Proof. apply (delete_matching_exact _ _ None). vm_compute. reflexivity. Defined.

(** An increment is addition over the integers, clamped to the bounds that
    are set; it fails exactly when the clamped sum does not fit an [i64]. The
    wrap-around of the machine never shows. *)
Theorem increment_is_clamped_sum (inc : IncrementDecrement) (n : Z) :
  is_i64 n → amend_op_ok (AmendOp_IncrementDecrement inc) →
  (∀ lo hi, inc_min inc = Some lo → inc_max inc = Some hi → (lo ≤ hi)%Z) →
  IncrementDecrement_apply inc n =
    let sum := clamp (inc_min inc) (inc_max inc) (n + inc_delta inc) in
    if decide (is_i64 sum) then Some sum else None.
Proof.
  intros Hn (Hd & Hmin & Hmax) Hbounds. unfold IncrementDecrement_apply, checked_add, clamp.
  unfold is_i64 in *.
  destruct (inc_min inc) as [lo|], (inc_max inc) as [hi|];
    try specialize (Hbounds _ _ eq_refl eq_refl);
    repeat case_decide; try (destruct (_ >? _)%Z eqn:Hgt); try done;
    try (f_equal; lia); exfalso; lia.
Qed.

Lemma increment_is_clamped_sum_witness :
  let inc := IncrementDecrement_with_max (IncrementDecrement_new 5) 100 in
  IncrementDecrement_apply inc i64_max =
    let sum := clamp None (Some 100%Z) (i64_max + 5) in
    if decide (is_i64 sum) then Some sum else None.
Proof.
  apply (increment_is_clamped_sum (IncrementDecrement_with_max (IncrementDecrement_new 5) 100)).
  - by_computing.
  - split_and!; by_computing.
  - discriminate.
Defined.
