(* ===== verification/Storage.v ===== *)
(** * The storage interface: [crates/storage/src/lib.rs]

    [Storage] is the source's trait: one field per method, over a state [S]
    and the backend's error [E]. [Store] is what a backend promises its
    clients — versions of the state by digest, and the envelope log — and
    [StorageSpec] the promise: every method either fails with the backend's
    error and leaves the view as it was, or does to the view exactly what its
    law says. The ledger and the chain are proved against [StorageSpec];
    [Mem.v] discharges it. *)

From S2P Require Import Prelude BTree Text Codec Externals Keys Subkey Msg Envelope Value.

(** Milliseconds since the epoch, an [i64]: [crates/storage/src/log.rs]. *)
Record StoredAt := MkStoredAt { timestamp_millis : Z }.

(** An envelope as the log holds it. *)
Record LogEntry := MkLogEntry { le_envelope : Envelope; le_stored_at : StoredAt }.

Class Storage (S E : Type) := {
  contains_version : S → EnvelopeDigest → Comp E bool;
  resolve : S → EnvelopeDigest → NamespaceKey → list Subkey → Comp E (option Resolution);
  value_at : S → EnvelopeDigest → NamespaceKey → list Subkey → Comp E (option Value);
  meta_at : S → EnvelopeDigest → NamespaceKey → list Subkey → Comp E (option ValueMeta);
  namespace : S → EnvelopeDigest → NamespaceKey → Comp E (option Namespace);
  namespaces : S → EnvelopeDigest → Outcome (list (Result E (NamespaceKey * Namespace)));
  namespace_keys : S → EnvelopeDigest → Outcome (list (Result E NamespaceKey));
  commit : EnvelopeDigest → EnvelopeDigest → NamespaceOp → M S E ();
  install : EnvelopeDigest → list (NamespaceKey * Namespace) → M S E ();
  retain : list EnvelopeDigest → M S E ();
  put_envelope : EnvelopeDigest → Envelope → M S E ();
  logged_envelope : S → EnvelopeDigest → Comp E (option LogEntry);
  envelope : S → EnvelopeDigest → Comp E (option Envelope);
  remove_envelope : EnvelopeDigest → M S E ();
  children : S → EnvelopeDigest → Outcome (list (Result E EnvelopeDigest));
  parent : S → EnvelopeDigest → Comp E (option EnvelopeDigest);
}.

(** ** The trait's default methods *)

Section defaults.
Context {S E : Type}.
Variable namespace_ : S → EnvelopeDigest → NamespaceKey → Comp E (option Namespace).
Variable namespaces_ : S → EnvelopeDigest → Outcome (list (Result E (NamespaceKey * Namespace))).
Variable logged_envelope_ : S → EnvelopeDigest → Comp E (option LogEntry).

Definition default_resolve (s : S) (head : EnvelopeDigest) (key : NamespaceKey)
    (path : list Subkey) : Comp E (option Resolution) :=
  let? n := namespace_ s head key in
  c_ok ((λ n, value_resolve (ns_value n) path) <$> n).

Definition default_value_at (s : S) (head : EnvelopeDigest) (key : NamespaceKey)
    (path : list Subkey) : Comp E (option Value) :=
  let? n := namespace_ s head key in
  c_ok (n ≫= λ n, walk (ns_value n) path).

Definition default_meta_at (s : S) (head : EnvelopeDigest) (key : NamespaceKey)
    (path : list Subkey) : Comp E (option ValueMeta) :=
  let? n := namespace_ s head key in
  c_ok (n ≫= λ n, meta <$> walk (ns_value n) path).

Definition default_namespace_keys (s : S) (head : EnvelopeDigest)
    : Outcome (list (Result E NamespaceKey)) :=
  match namespaces_ s head with
  | Ret l => Ret (map (λ r, match r with Ok kn => Ok kn.1 | Err e => Err e end) l)
  | Panic => Panic
  | Diverge => Diverge
  end.

Definition default_envelope (s : S) (digest : EnvelopeDigest) : Comp E (option Envelope) :=
  let? entry := logged_envelope_ s digest in
  c_ok (le_envelope <$> entry).

Definition default_parent (s : S) (digest : EnvelopeDigest) : Comp E (option EnvelopeDigest) :=
  let? e := default_envelope s digest in
  c_ok (e ≫= prev_of).
End defaults.

(** ** What a store holds *)

Abbreviation Version := (BTreeMap NamespaceKey Namespace) (only parsing).

Record Store := MkStore {
  versions : gmap EnvelopeDigest (list (NamespaceKey * Namespace));
  log : gmap EnvelopeDigest Envelope;
}.

(** What an operation makes of a version; [None] where it was not
    pre-validated. *)
Definition op_apply (op : NamespaceOp) (version : Version) : option Version :=
  match op with
  | NamespaceOp_Put key namespace => Some (bt_insert key namespace version)
  | NamespaceOp_Delete key =>
      if bt_contains_key version key then Some (bt_remove key version) else None
  | NamespaceOp_SetAt key path value =>
      namespace ← bt_get version key;
      value' ← set_at (ns_value namespace) path value;
      Some (bt_insert key (MkNamespace value') version)
  | NamespaceOp_AmendAt key path op =>
      namespace ← bt_get version key;
      value' ← amend_at (ns_value namespace) path op;
      Some (bt_insert key (MkNamespace value') version)
  end.

Definition store_set_version (head : EnvelopeDigest) (version : Version) (st : Store) : Store :=
  MkStore (<[head := version]> (versions st)) (log st).

Definition store_retain (keep : list EnvelopeDigest) (st : Store) : Store :=
  MkStore (filter (λ hv, hv.1 ∈ keep) (versions st)) (log st).

Definition store_put (digest : EnvelopeDigest) (e : Envelope) (st : Store) : Store :=
  MkStore (versions st) (<[digest := e]> (log st)).

Definition store_remove (digest : EnvelopeDigest) (st : Store) : Store :=
  MkStore (versions st) (delete digest (log st)).

(** The logged children of an envelope. *)
Definition child_of (st : Store) (p d : EnvelopeDigest) : Prop :=
  ∃ e, log st !! d = Some e ∧ prev_of e = Some p.

(** ** The promise *)

Class StorageSpec (S E : Type) `{Storage S E} := {
  view : S → Store;
  storage_ok : S → Prop;

  contains_version_spec s h :
    storage_ok s →
    cwp (contains_version s h) (λ b, b = bool_decide (is_Some (versions (view s) !! h)))
      (λ _, True);
  resolve_spec s h key path ver :
    storage_ok s → versions (view s) !! h = Some ver →
    cwp (resolve s h key path)
      (λ r, r = (λ n, value_resolve (ns_value n) path) <$> bt_get ver key) (λ _, True);
  value_at_spec s h key path ver :
    storage_ok s → versions (view s) !! h = Some ver →
    cwp (value_at s h key path)
      (λ r, r = bt_get ver key ≫= λ n, walk (ns_value n) path) (λ _, True);
  meta_at_spec s h key path ver :
    storage_ok s → versions (view s) !! h = Some ver →
    cwp (meta_at s h key path)
      (λ r, r = bt_get ver key ≫= λ n, meta <$> walk (ns_value n) path) (λ _, True);
  namespace_spec s h key ver :
    storage_ok s → versions (view s) !! h = Some ver →
    cwp (namespace s h key) (λ r, r = bt_get ver key) (λ _, True);
  namespaces_spec s h ver :
    storage_ok s → versions (view s) !! h = Some ver →
    ∃ l, namespaces s h = Ret l ∧ (collect l = Ok ver ∨ ∃ e, collect l = Err e);
  namespace_keys_spec s h ver :
    storage_ok s → versions (view s) !! h = Some ver →
    ∃ l, namespace_keys s h = Ret l ∧ ∀ key, Ok key ∈ l → key ∈ bt_keys ver;
  (* A version is not derived from itself: no envelope is its own parent. *)
  commit_spec s p h op ver ver' :
    storage_ok s → p ≠ h → versions (view s) !! p = Some ver → op_apply op ver = Some ver' →
    wp (commit p h op) s
      (λ _ s', storage_ok s' ∧ view s' = store_set_version h ver' (view s))
      (λ _ s', storage_ok s' ∧ view s' = view s);
  install_spec s h l :
    storage_ok s →
    wp (install h l) s
      (λ _ s', storage_ok s' ∧ view s' = store_set_version h (bt_from_iter l) (view s))
      (λ _ s', storage_ok s' ∧ view s' = view s);
  (* A backend may fail after the versions are gone, in what it tidies up. *)
  retain_spec s keep :
    storage_ok s →
    wp (retain keep) s
      (λ _ s', storage_ok s' ∧ view s' = store_retain keep (view s))
      (λ _ s', storage_ok s' ∧ (view s' = view s ∨ view s' = store_retain keep (view s)));
  (* A digest pins its envelope's parent. *)
  put_envelope_spec s d e :
    storage_ok s → (∀ old, log (view s) !! d = Some old → prev_of old = prev_of e) →
    wp (put_envelope d e) s
      (λ _ s', storage_ok s' ∧ view s' = store_put d e (view s))
      (λ _ s', storage_ok s' ∧ view s' = view s);
  logged_envelope_spec s d :
    storage_ok s →
    cwp (logged_envelope s d) (λ r, le_envelope <$> r = log (view s) !! d) (λ _, True);
  envelope_spec s d :
    storage_ok s → cwp (envelope s d) (λ r, r = log (view s) !! d) (λ _, True);
  remove_envelope_spec s d :
    storage_ok s →
    wp (remove_envelope d) s
      (λ _ s', storage_ok s' ∧ view s' = store_remove d (view s))
      (λ _ s', storage_ok s' ∧ view s' = view s);
  (* In ascending digest order. *)
  children_spec s p :
    storage_ok s →
    ∃ l, children s p = Ret l ∧
      ((∃ ds, collect l = Ok ds ∧ StronglySorted (λ a b, cmp a b = Lt) ds ∧
        ∀ d, d ∈ ds ↔ child_of (view s) p d) ∨
       ∃ e, collect l = Err e);
  parent_spec s d :
    storage_ok s →
    cwp (parent s d) (λ r, r = log (view s) !! d ≫= prev_of) (λ _, True);
}.

(** The children as one fallible read, [collect::<Result<_, _>>()?]. *)
Definition children_vec {S E : Type} `{Storage S E} (s : S) (p : EnvelopeDigest) : Comp E (list EnvelopeDigest) :=
  match children s p with
  | Ret l => Ret (collect l)
  | Panic => Panic
  | Diverge => Diverge
  end.

Definition namespaces_vec {S E : Type} `{Storage S E} (s : S) (head : EnvelopeDigest)
    : Comp E (list (NamespaceKey * Namespace)) :=
  match namespaces s head with
  | Ret l => Ret (collect l)
  | Panic => Panic
  | Diverge => Diverge
  end.

(** ** Lemmas *)

Lemma children_vec_spec {S E : Type} `{StorageSpec S E} s p :
  storage_ok s →
  cwp (children_vec s p)
    (λ ds, StronglySorted (λ a b, cmp a b = Lt) ds ∧ ∀ d, d ∈ ds ↔ child_of (view s) p d)
    (λ _, True).
Proof.
  intros Hs. unfold children_vec.
  by destruct (children_spec s p Hs) as (l & -> & [(ds & -> & ?)|[e ->]]).
Qed.

Lemma namespaces_vec_spec {S E : Type} `{StorageSpec S E} s h ver :
  storage_ok s → versions (view s) !! h = Some ver →
  cwp (namespaces_vec s h) (λ l, l = ver) (λ _, True).
Proof.
  intros Hs Hv. unfold namespaces_vec.
  by destruct (namespaces_spec s h ver Hs Hv) as (l & -> & [->|[e ->]]).
Qed.
