(* ===== verification/Mem.v ===== *)
(** * The in-memory backend: [crates/storage/src/mem.rs]

    [MemStorage] with the index of children it keeps beside the log, and its
    [Storage] instance. Nothing it does fails ([Error = Infallible]); a broken
    pre-validation is a panic. The wall clock that [put_envelope] reads is an
    input: a stream of readings carried next to the storage, one consumed per
    call of [StoredAt::now]. [mem_ok] is the index's invariant and the
    [StorageSpec] instance the proof that the backend keeps its promise. *)

From S2P Require Import Prelude BTree Text Codec Externals Keys Subkey Msg Envelope Value Storage.

Record MemStorage := MkMemStorage {
  mem_versions : gmap EnvelopeDigest (list (NamespaceKey * Namespace));
  mem_envelopes : gmap EnvelopeDigest LogEntry;
  (* A [BTreeSet] is a [BTreeMap] to unit. *)
  mem_children : gmap EnvelopeDigest (list (EnvelopeDigest * ()));
}.

Definition MemStorage_default : MemStorage := MkMemStorage ∅ ∅ ∅.

(** The storage and the clock it reads. *)
Record MemNode := MkMemNode {
  mem : MemStorage;
  clock : nat → StoredAt;
  ticks : nat;
}.

Abbreviation Infallible := Empty_set.

Section methods.
Implicit Types (self : MemStorage) (head digest parent : EnvelopeDigest).

(** [None] is the panic of an unheld head. *)
Definition mem_version self head : option (list (NamespaceKey * Namespace)) :=
  mem_versions self !! head.

Definition mem_contains_version self head : Comp Infallible bool :=
  c_ok (bool_decide (is_Some (mem_versions self !! head))).

Definition mem_resolve self head (key : NamespaceKey) (path : list Subkey)
    : Comp Infallible (option Resolution) :=
  let? version := c_expect (mem_version self head) in
  c_ok ((λ n, value_resolve (ns_value n) path) <$> bt_get version key).

Definition mem_value_at self head (key : NamespaceKey) (path : list Subkey)
    : Comp Infallible (option Value) :=
  let? version := c_expect (mem_version self head) in
  c_ok (bt_get version key ≫= λ n, walk (ns_value n) path).

Definition mem_meta_at self head (key : NamespaceKey) (path : list Subkey)
    : Comp Infallible (option ValueMeta) :=
  let? version := c_expect (mem_version self head) in
  c_ok (bt_get version key ≫= λ n, meta <$> walk (ns_value n) path).

Definition mem_namespace self head (key : NamespaceKey) : Comp Infallible (option Namespace) :=
  let? version := c_expect (mem_version self head) in
  c_ok (bt_get version key).

Definition mem_namespaces self head
    : Outcome (list (Result Infallible (NamespaceKey * Namespace))) :=
  match mem_version self head with
  | Some version => Ret (map Ok version)
  | None => Panic
  end.

(** [get_mut(..).expect(..)], then the amendment of the value in place. *)
Definition version_get_mut (key : NamespaceKey) (f : Value → option Value)
    (version : list (NamespaceKey * Namespace)) : option (list (NamespaceKey * Namespace)) :=
  namespace ← bt_get version key;
  value ← f (ns_value namespace);
  Some (bt_insert key (MkNamespace value) version).

Definition mem_commit self parent head (op : NamespaceOp) : option MemStorage :=
  version ← mem_version self parent;
  version ←
    match op with
    | NamespaceOp_Put key namespace => Some (bt_insert key namespace version)
    | NamespaceOp_Delete key =>
        _ ← bt_get version key; Some (bt_remove key version)
    | NamespaceOp_SetAt key path value =>
        version_get_mut key (λ v, set_at v path value) version
    | NamespaceOp_AmendAt key path op =>
        version_get_mut key (λ v, amend_at v path op) version
    end;
  Some (MkMemStorage (<[head := version]> (mem_versions self)) (mem_envelopes self)
    (mem_children self)).

Definition mem_install self head (namespaces : list (NamespaceKey * Namespace)) : MemStorage :=
  MkMemStorage (<[head := bt_from_iter namespaces]> (mem_versions self)) (mem_envelopes self)
    (mem_children self).

Definition mem_retain self (keep : list EnvelopeDigest) : MemStorage :=
  MkMemStorage (filter (λ hv, hv.1 ∈ keep) (mem_versions self)) (mem_envelopes self)
    (mem_children self).

(** [now] is the reading taken when the digest is new to the log. *)
Definition mem_put_envelope (now : StoredAt) self digest (envelope : Envelope) : MemStorage :=
  let children :=
    match prev_of envelope with
    | Some prev =>
        <[prev := bt_insert digest () (default [] (mem_children self !! prev))]>
          (mem_children self)
    | None => mem_children self
    end in
  let stored_at :=
    match mem_envelopes self !! digest with Some entry => le_stored_at entry | None => now end in
  MkMemStorage (mem_versions self) (<[digest := MkLogEntry envelope stored_at]> (mem_envelopes self))
    children.

Definition mem_logged_envelope self digest : Comp Infallible (option LogEntry) :=
  c_ok (mem_envelopes self !! digest).

Definition mem_parent self digest : Comp Infallible (option EnvelopeDigest) :=
  c_ok (mem_envelopes self !! digest ≫= λ entry, prev_of (le_envelope entry)).

Definition mem_remove_envelope self digest : MemStorage :=
  match mem_envelopes self !! digest with
  | None => self
  | Some entry =>
      let children :=
        match prev_of (le_envelope entry) with
        | None => mem_children self
        | Some prev =>
            match mem_children self !! prev with
            | None => mem_children self
            | Some siblings =>
                match bt_remove digest siblings with
                | [] => delete prev (mem_children self)
                | siblings' => <[prev := siblings']> (mem_children self)
                end
            end
        end in
      MkMemStorage (mem_versions self) (delete digest (mem_envelopes self)) children
  end.

Definition mem_children_of self parent : Outcome (list (Result Infallible EnvelopeDigest)) :=
  Ret (map Ok (bt_keys (default [] (mem_children self !! parent)))).
End methods.

(** A [&mut self] method that cannot panic, and one that can. *)
Definition on_mem (f : MemStorage → MemStorage) : M MemNode Infallible () := λ s,
  Ret (Ok (), MkMemNode (f (mem s)) (clock s) (ticks s)).

Definition on_mem_expect (f : MemStorage → option MemStorage) : M MemNode Infallible () := λ s,
  match f (mem s) with
  | Some m => Ret (Ok (), MkMemNode m (clock s) (ticks s))
  | None => Panic
  end.

(** [put_envelope] with the clock: read only for a digest the log lacks. *)
Definition node_put_envelope (digest : EnvelopeDigest) (envelope : Envelope)
    : M MemNode Infallible () := λ s,
  Ret (Ok (),
    MkMemNode (mem_put_envelope (clock s (ticks s)) (mem s) digest envelope) (clock s)
      (match mem_envelopes (mem s) !! digest with Some _ => ticks s | None => S (ticks s) end)).

#[export] Instance MemNode_Storage : Storage MemNode Infallible := {
  contains_version s := mem_contains_version (mem s);
  resolve s := mem_resolve (mem s);
  value_at s := mem_value_at (mem s);
  meta_at s := mem_meta_at (mem s);
  namespace s := mem_namespace (mem s);
  namespaces s := mem_namespaces (mem s);
  namespace_keys s := default_namespace_keys (λ s, mem_namespaces (mem s)) s;
  commit parent head op := on_mem_expect (λ m, mem_commit m parent head op);
  install head l := on_mem (λ m, mem_install m head l);
  retain keep := on_mem (λ m, mem_retain m keep);
  put_envelope := node_put_envelope;
  logged_envelope s := mem_logged_envelope (mem s);
  envelope s := default_envelope (λ s, mem_logged_envelope (mem s)) s;
  remove_envelope d := on_mem (λ m, mem_remove_envelope m d);
  children s := mem_children_of (mem s);
  parent s := mem_parent (mem s);
}.

(** ** The invariant of the children index *)

Definition mem_view (m : MemStorage) : Store :=
  MkStore (mem_versions m) (le_envelope <$> mem_envelopes m).

(** [children] holds, sorted and never empty, exactly the logged children. *)
Record mem_ok (m : MemStorage) : Prop := {
  ok_sorted p l : mem_children m !! p = Some l → bt_sorted l ∧ l ≠ [];
  ok_index p d :
    is_Some (bt_get (default [] (mem_children m !! p)) d) ↔ child_of (mem_view m) p d;
}.

(** ** Preservation *)

Lemma mem_ok_default : mem_ok MemStorage_default.
Proof.
  split; simpl.
  - intros p l. by rewrite lookup_empty.
  - intros p d. rewrite lookup_empty. unfold child_of. simpl. rewrite fmap_empty.
    split; [by intros [? ?]|]. intros (e & He & _). by rewrite lookup_empty in He.
Qed.

Lemma mem_ok_versions m v : mem_ok m → mem_ok (MkMemStorage v (mem_envelopes m) (mem_children m)).
Proof. intros [Hs Hi]. by split. Qed.

Lemma default_sorted m p : mem_ok m → bt_sorted (default [] (mem_children m !! p)).
Proof.
  intros Hm. destruct (mem_children m !! p) as [l|] eqn:Hl; simpl; [|constructor].
  by apply (ok_sorted m Hm) in Hl as [? _].
Qed.

Lemma bt_get_insert_is_Some {K V} `{OrdLaws K} (m : list (K * V)) (k k' : K) (v : V) :
  is_Some (bt_get (bt_insert k v m) k') ↔ k = k' ∨ is_Some (bt_get m k').
Proof.
  destruct (decide (cmp k k' = Eq)) as [Heq|Hne].
  - apply cmp_eq_iff in Heq as ->. rewrite bt_get_insert_eq. naive_solver.
  - rewrite cmp_eq_iff in Hne. rewrite bt_get_insert_ne by done. naive_solver.
Qed.

Lemma bt_get_remove_is_Some {K V} `{OrdLaws K} (m : list (K * V)) (k k' : K) :
  is_Some (bt_get (bt_remove k m) k') ↔ k ≠ k' ∧ is_Some (bt_get m k').
Proof.
  destruct (decide (cmp k k' = Eq)) as [Heq|Hne].
  - apply cmp_eq_iff in Heq as ->. rewrite bt_get_remove_eq.
    split; [by intros [? ?]|naive_solver].
  - rewrite cmp_eq_iff in Hne. rewrite bt_get_remove_ne by done. naive_solver.
Qed.

Lemma put_view now m d e :
  mem_view (mem_put_envelope now m d e) = store_put d e (mem_view m).
Proof. unfold mem_view, store_put, mem_put_envelope. simpl. by rewrite fmap_insert. Qed.

Lemma put_children_is_Some now m d e p x :
  is_Some (bt_get (default [] (mem_children (mem_put_envelope now m d e) !! p)) x) ↔
  (prev_of e = Some p ∧ x = d) ∨ is_Some (bt_get (default [] (mem_children m !! p)) x).
Proof.
  unfold mem_put_envelope. simpl. destruct (prev_of e) as [q|]; [|naive_solver].
  destruct (decide (q = p)) as [->|Hne].
  - rewrite lookup_insert_eq. simpl. rewrite bt_get_insert_is_Some. naive_solver.
  - rewrite lookup_insert_ne by done. naive_solver.
Qed.

Lemma mem_ok_put now m d e :
  mem_ok m → (∀ old, log (mem_view m) !! d = Some old → prev_of old = prev_of e) →
  mem_ok (mem_put_envelope now m d e).
Proof.
  intros Hm Hold. split.
  - intros p l Hl. unfold mem_put_envelope in Hl. simpl in Hl.
    destruct (prev_of e) as [q|]; [|by apply (ok_sorted m Hm) in Hl].
    apply lookup_insert_Some in Hl as [[-> <-]|[_ Hl]]; [|by apply (ok_sorted m Hm) in Hl].
    split; [by apply sorted_insert, default_sorted|apply bt_insert_not_nil].
  - intros p x. rewrite put_children_is_Some, (ok_index m Hm), put_view.
    unfold child_of, store_put. simpl. split.
    + intros [[Hp ->]|(e' & He' & Hp)]; [exists e; by rewrite lookup_insert_eq|].
      destruct (decide (d = x)) as [->|Hne]; [|exists e'; by rewrite lookup_insert_ne].
      exists e. rewrite lookup_insert_eq. split; [done|]. rewrite <-Hp. symmetry. by apply Hold.
    + intros (e' & [[-> ->]|[_ He']]%lookup_insert_Some & Hp); [by left|right; by exists e'].
Qed.

Lemma remove_view m d : mem_view (mem_remove_envelope m d) = store_remove d (mem_view m).
Proof.
  unfold mem_view, store_remove, mem_remove_envelope.
  destruct (mem_envelopes m !! d) as [entry|] eqn:Hd; simpl; [by rewrite fmap_delete|].
  rewrite <-fmap_delete, delete_id; done.
Qed.

Lemma remove_children_is_Some m d entry p x :
  mem_envelopes m !! d = Some entry →
  is_Some (bt_get (default [] (mem_children (mem_remove_envelope m d) !! p)) x) ↔
  ¬ (prev_of (le_envelope entry) = Some p ∧ x = d) ∧
  is_Some (bt_get (default [] (mem_children m !! p)) x).
Proof.
  intros Hd. unfold mem_remove_envelope. rewrite Hd. simpl.
  destruct (prev_of (le_envelope entry)) as [q|]; [|naive_solver].
  destruct (mem_children m !! q) as [l|] eqn:Hq.
  - assert (default [] (match bt_remove d l with
        | [] => delete q (mem_children m) | l' => <[q := l']> (mem_children m) end !! p)
      = if decide (q = p) then bt_remove d l else default [] (mem_children m !! p)) as ->.
    { destruct (bt_remove d l) as [|y l'] eqn:Hr.
      - rewrite lookup_delete. by case_decide.
      - rewrite lookup_insert. by case_decide. }
    case_decide as Hqp; [subst q; rewrite Hq; simpl; rewrite bt_get_remove_is_Some|]; naive_solver.
  - split; [|naive_solver]. intros Hx. split; [|done]. intros [[= ->] ->].
    rewrite Hq in Hx. by destruct Hx.
Qed.

Lemma mem_ok_remove m d : mem_ok m → mem_ok (mem_remove_envelope m d).
Proof.
  intros Hm. destruct (mem_envelopes m !! d) as [entry|] eqn:Hd;
    [|unfold mem_remove_envelope; by rewrite Hd].
  split.
  - intros p l. unfold mem_remove_envelope. rewrite Hd. simpl.
    destruct (prev_of (le_envelope entry)) as [q|]; [|by apply (ok_sorted m Hm)].
    destruct (mem_children m !! q) as [k|] eqn:Hq; [|by apply (ok_sorted m Hm)].
    destruct (bt_remove d k) as [|y k'] eqn:Hr.
    + intros [_ Hl]%lookup_delete_Some. by apply (ok_sorted m Hm) in Hl.
    + intros [[<- <-]|[_ Hl]]%lookup_insert_Some; [|by apply (ok_sorted m Hm) in Hl].
      split; [|done]. rewrite <-Hr. apply sorted_remove. by apply (ok_sorted m Hm) in Hq as [? _].
  - intros p x. rewrite (remove_children_is_Some m d entry p x Hd), (ok_index m Hm), remove_view.
    unfold child_of, store_remove. simpl. split.
    + intros [Hne (e & He & Hp)]. exists e. split; [|done].
      apply lookup_delete_Some. split; [|done]. intros ->. apply Hne. split; [|done].
      rewrite lookup_fmap, Hd in He. by simplify_eq/=.
    + intros (e & [Hne He]%lookup_delete_Some & Hp). split; [|by exists e].
      intros [_ ->]. done.
Qed.

(** ** The promise is kept *)

Lemma mem_commit_op_apply m p h op ver :
  mem_versions m !! p = Some ver →
  mem_commit m p h op =
    (λ ver', MkMemStorage (<[h := ver']> (mem_versions m)) (mem_envelopes m) (mem_children m))
      <$> op_apply op ver.
Proof.
  intros Hv. unfold mem_commit, mem_version, version_get_mut, op_apply, bt_contains_key.
  rewrite Hv. simpl. destruct op as [key n|key|key path v|key path op]; simpl; try done;
    destruct (bt_get ver key) as [n|]; simpl; done.
Qed.

Lemma children_elem m p d :
  mem_ok m → d ∈ bt_keys (default [] (mem_children m !! p)) ↔ child_of (mem_view m) p d.
Proof.
  intros Hm. rewrite <-(ok_index m Hm). unfold bt_keys. rewrite list_elem_of_fmap. split.
  - intros ([d' []] & -> & Hin). exists ().
    by apply bt_sorted_elem_get; [apply default_sorted|].
  - intros [[] Hg]. exists (d, ()). split; [done|by apply bt_get_elem].
Qed.

Lemma bt_keys_sorted {K V} `{Ord K} (m : list (K * V)) :
  bt_sorted m → StronglySorted (λ a b, cmp a b = Lt) (bt_keys m).
Proof.
  unfold bt_keys. induction 1 as [|[k v] m Hs IH Hall]; simpl; constructor; [done|].
  by apply Forall_fmap.
Qed.

#[export] Program Instance MemNode_StorageSpec : StorageSpec MemNode Infallible := {
  view s := mem_view (mem s);
  storage_ok s := mem_ok (mem s);
}.
Next Obligation. done. Qed.
Next Obligation. intros s h key path ver _ Hv. simpl in *. unfold mem_resolve, mem_version. by rewrite Hv. Qed.
Next Obligation. intros s h key path ver _ Hv. simpl in *. unfold mem_value_at, mem_version. by rewrite Hv. Qed.
Next Obligation. intros s h key path ver _ Hv. simpl in *. unfold mem_meta_at, mem_version. by rewrite Hv. Qed.
Next Obligation. intros s h key ver _ Hv. simpl in *. unfold mem_namespace, mem_version. by rewrite Hv. Qed.
Next Obligation.
  intros s h ver _ Hv. simpl in *. unfold mem_namespaces, mem_version. rewrite Hv.
  eexists. split; [done|]. left. apply collect_Ok.
Qed.
Next Obligation.
  intros s h ver _ Hv. simpl in *. unfold default_namespace_keys, mem_namespaces, mem_version. rewrite Hv.
  eexists. split; [done|]. intros key. rewrite list_elem_of_fmap. intros (r & Hr & Hin).
  apply list_elem_of_fmap in Hin as (kn & -> & Hin). injection Hr as ->. apply list_elem_of_fmap. by exists kn.
Qed.
Next Obligation.
  intros s p h op ver ver' Hok _ Hv Hop. simpl in *. unfold wp, on_mem_expect.
  rewrite (mem_commit_op_apply _ _ _ _ ver) by done. rewrite Hop. simpl.
  split; [by apply mem_ok_versions|done].
Qed.
Next Obligation. intros s h l Hok. split; [by apply mem_ok_versions|done]. Qed.
Next Obligation. intros s keep Hok. split; [by apply mem_ok_versions|done]. Qed.
Next Obligation. intros s d e Hok Hold. split; [by apply mem_ok_put|apply put_view]. Qed.
Next Obligation. intros s d _. simpl. by rewrite lookup_fmap. Qed.
Next Obligation. intros s d _. simpl. by rewrite lookup_fmap. Qed.
Next Obligation. intros s d Hok. split; [by apply mem_ok_remove|apply remove_view]. Qed.
Next Obligation.
  intros s p Hok. simpl. eexists. split; [done|]. left. eexists. split; [apply collect_Ok|].
  split; [by apply bt_keys_sorted, default_sorted|]. intros d. by apply children_elem.
Qed.
Next Obligation.
  intros s d _. simpl. rewrite lookup_fmap. by destruct (mem_envelopes (mem s) !! d).
Qed.
