(* ===== verification/Addr.v ===== *)
(** * iroh addresses in the ledger: [crates/wire/src/msg/addr.rs]

    Both directions of the conversion between an [iroh::EndpointAddr] and the
    [Value] a ledger holds, and the round trip. The [iroh] types, their parsers
    and their [Display] are [Externals]. *)

From S2P Require Import Prelude BTree Text Codec Externals Keys Subkey Msg.

Definition ENDPOINT_ID : rstring := str "endpoint_id".
Definition ADDR_TYPE : rstring := str "type".
Definition ADDR : rstring := str "addr".
Definition ADDRS : rstring := str "addrs".
Definition RELAY : rstring := str "relay".
Definition IP : rstring := str "ip".
Definition CUSTOM : rstring := str "custom".

Inductive AddrError : Type :=
  | AddrError_NotAMap (what : rstring)
  | AddrError_MissingField (field : rstring)
  | AddrError_AddrsNotAnArray
  | AddrError_BadEndpointId (text : rstring)
  | AddrError_BadAddr (kind text : rstring)
  | AddrError_UnknownAddrType (kind : rstring)
  | AddrError_UnsupportedAddr (addr : rstring).

(** [impl Display for AddrError]. *)
Definition AddrError_display (e : AddrError) : rstring :=
  match e with
  | AddrError_NotAMap what => str "a " ++ what ++ str " is a map"
  | AddrError_MissingField field => str "no `" ++ field ++ str "` string"
  | AddrError_AddrsNotAnArray => str "`" ++ ADDRS ++ str "` is an array"
  | AddrError_BadEndpointId text => text ++ str " is not an endpoint id"
  | AddrError_BadAddr kind text => text ++ str " is not a " ++ kind ++ str " address"
  | AddrError_UnknownAddrType kind => str "no transport is called " ++ kind
  | AddrError_UnsupportedAddr addr => addr ++ str " has no ledger encoding"
  end.

Section addr.
Context `{Externals}.

(** [TryFrom<&Value> for iroh::TransportAddr]. *)
Definition TransportAddr_try_from (value : Value) : Result AddrError TransportAddr :=
  match value with
  | Value_Map fields =>
      match bt_get fields ADDR_TYPE with
      | Some (Value_String kind) =>
          match bt_get fields ADDR with
          | Some (Value_String addr) =>
              let bad {A} (o : option A) (wrap : A → TransportAddr) :=
                match o with
                | Some a => Ok (wrap a)
                | None => Err (AddrError_BadAddr kind addr)
                end in
              if decide (kind = RELAY) then bad (relay_parse addr) TransportAddr_Relay
              else if decide (kind = IP) then bad (socket_parse addr) TransportAddr_Ip
              else if decide (kind = CUSTOM) then bad (custom_parse addr) TransportAddr_Custom
              else Err (AddrError_UnknownAddrType kind)
          | _ => Err (AddrError_MissingField ADDR)
          end
      | _ => Err (AddrError_MissingField ADDR_TYPE)
      end
  | _ => Err (AddrError_NotAMap (str "transport address"))
  end.

(** [matches!(addr, Err(AddrError::UnknownAddrType(_)))]. *)
Definition is_unknown_type (addr : Result AddrError TransportAddr) : bool :=
  match addr with Err (AddrError_UnknownAddrType _) => true | _ => false end.

(** [TryFrom<&Value> for iroh::EndpointAddr]. *)
Definition EndpointAddr_try_from (value : Value) : Result AddrError EndpointAddr :=
  match value with
  | Value_Map fields =>
      match bt_get fields ENDPOINT_ID with
      | Some (Value_String id) =>
          match endpoint_id_from_z32 id with
          | Some id =>
              match bt_get fields ADDRS with
              | Some (Value_Array addrs) =>
                  match collect (base.filter (λ a, Is_true (negb (is_unknown_type a)))
                          (map TransportAddr_try_from addrs)) with
                  | Ok addrs => Ok (endpoint_addr_from_parts id addrs)
                  | Err e => Err e
                  end
              | Some _ => Err AddrError_AddrsNotAnArray
              | None => Err (AddrError_MissingField ADDRS)
              end
          | None => Err (AddrError_BadEndpointId id)
          end
      | _ => Err (AddrError_MissingField ENDPOINT_ID)
      end
  | _ => Err (AddrError_NotAMap (str "endpoint address"))
  end.

(** [TryFrom<&iroh::TransportAddr> for Value]. *)
Definition Value_try_from_transport (addr : TransportAddr) : Result AddrError Value :=
  let entry (kind text : rstring) :=
    Ok (Value_Map (bt_from_iter [(ADDR_TYPE, Value_String kind); (ADDR, Value_String text)])) in
  match addr with
  | TransportAddr_Relay url => entry RELAY (relay_display url)
  | TransportAddr_Ip socket => entry IP (socket_display socket)
  | TransportAddr_Custom custom => entry CUSTOM (custom_display custom)
  | TransportAddr_Other display => Err (AddrError_UnsupportedAddr display)
  end.

(** [TryFrom<&iroh::EndpointAddr> for Value]. *)
Definition Value_try_from_endpoint (addr : EndpointAddr) : Result AddrError Value :=
  match collect (map Value_try_from_transport (endpoint_addr_addrs addr)) with
  | Ok addrs =>
      Ok (Value_Map (bt_from_iter
        [(ENDPOINT_ID, Value_String (endpoint_id_to_z32 (endpoint_addr_id addr)));
         (ADDRS, Value_Array addrs)]))
  | Err e => Err e
  end.
End addr.

(** ** Lemmas *)

Section roundtrip.
Context `{Externals}.

(** What [iroh] documents of the text forms. *)
Hypothesis z32_roundtrip : ∀ id, endpoint_id_from_z32 (endpoint_id_to_z32 id) = Some id.
Hypothesis relay_roundtrip : ∀ u, relay_parse (relay_display u) = Some u.
Hypothesis socket_roundtrip : ∀ a, socket_parse (socket_display a) = Some a.
Hypothesis custom_roundtrip : ∀ c, custom_parse (custom_display c) = Some c.

Lemma transport_roundtrip addr v :
  Value_try_from_transport addr = Ok v → TransportAddr_try_from v = Ok addr.
Proof using relay_roundtrip socket_roundtrip custom_roundtrip.
  destruct addr as [u|s|c|d]; intros Hv; simplify_eq/=; vm_compute bt_get;
    by rewrite ?relay_roundtrip, ?socket_roundtrip, ?custom_roundtrip.
Qed.

Lemma transports_roundtrip addrs vs :
  collect (map Value_try_from_transport addrs) = Ok vs →
  map TransportAddr_try_from vs = map Ok addrs.
Proof using relay_roundtrip socket_roundtrip custom_roundtrip.
  revert vs. induction addrs as [|a addrs IH]; intros vs Hvs; simplify_eq/=; [done|].
  destruct (Value_try_from_transport a) as [v|e] eqn:Hv; [|done].
  destruct (collect _) as [vs'|e] eqn:Hc; simplify_eq/=.
  by rewrite (transport_roundtrip a v), (IH vs').
Qed.

Lemma filter_known (addrs : list TransportAddr) :
  base.filter (λ a, Is_true (negb (is_unknown_type a))) (map (@Ok AddrError _) addrs)
  = map Ok addrs.
Proof. induction addrs as [|a addrs IH]; [done|]. simpl map. by rewrite filter_cons_True, IH. Qed.
End roundtrip.

(** ** Properties *)

(** An address written into the ledger reads back as itself, given
    the text round trips [iroh] documents. *)
Theorem endpoint_addr_roundtrip `{Externals} (addr : EndpointAddr) (v : Value)
    (Hz32 : ∀ id, endpoint_id_from_z32 (endpoint_id_to_z32 id) = Some id)
    (Hrelay : ∀ u, relay_parse (relay_display u) = Some u)
    (Hsocket : ∀ a, socket_parse (socket_display a) = Some a)
    (Hcustom : ∀ c, custom_parse (custom_display c) = Some c)
    (Hparts : ∀ a, endpoint_addr_from_parts (endpoint_addr_id a) (endpoint_addr_addrs a) = a) :
  Value_try_from_endpoint addr = Ok v → EndpointAddr_try_from v = Ok addr.
Proof.
  unfold Value_try_from_endpoint. intros Hv.
  destruct (collect _) as [vs|e] eqn:Hvs; simplify_eq.
  unfold EndpointAddr_try_from. vm_compute bt_get. cbv iota. rewrite Hz32.
  rewrite (transports_roundtrip Hrelay Hsocket Hcustom _ _ Hvs), filter_known, collect_Ok.
  by rewrite Hparts.
Qed.

Lemma endpoint_addr_roundtrip_witness :
  ∃ v, @Value_try_from_endpoint Toy (MkToyEndpointAddr (str "id") [TransportAddr_Ip (str "::1")])
         = Ok v ∧
       @EndpointAddr_try_from Toy v
         = Ok (MkToyEndpointAddr (str "id") [TransportAddr_Ip (str "::1")]).
Proof.
  eexists. split; [reflexivity|].
  apply (@endpoint_addr_roundtrip Toy); try reflexivity. by intros [].
Defined.
