(* ===== verification/StateError.v ===== *)
(** * The state crate's errors: [crates/state/src/error.rs] *)

From S2P Require Import Prelude BTree Text Codec Externals Keys Subkey Msg.

Inductive TrustedKeysError : Type :=
  | TrustedKeysError_NotAMap
  | TrustedKeysError_NotAKey (id : rstring)
  | TrustedKeysError_IdMismatch (id : rstring) (derived : KeyId).

Inductive ValueError : Type :=
  | ValueError_MinKeepMinutes
  | ValueError_MinEnvelopeWeight
  | ValueError_MinEnvelopeSignatures
  | ValueError_TrustedKeys (e : TrustedKeysError)
  | ValueError_ClusterNodes (e : rstring).

Section errors.
Context `{Externals}.
Context (E : Type).

(** Why an envelope could not be applied; weights and counts are [u32]s. *)
Inductive ApplyError : Type :=
  | ApplyError_Wire (e : WireError)
  | ApplyError_UnexpectedInit
  | ApplyError_ChainMismatch (expected found : EnvelopeDigest)
  | ApplyError_UnknownNamespace (key : NamespaceKey)
  | ApplyError_UnknownPath (key : NamespaceKey) (path : SubkeyPath)
  | ApplyError_PathTypeMismatch (key : NamespaceKey) (path : SubkeyPath)
  | ApplyError_AmendTypeMismatch (key : NamespaceKey) (path : option SubkeyPath)
  | ApplyError_Overflow (key : NamespaceKey) (path : option SubkeyPath)
  | ApplyError_InvalidBounds (key : NamespaceKey) (path : option SubkeyPath)
  | ApplyError_InvalidValue (key : NamespaceKey) (reason : ValueError)
  | ApplyError_InsufficientWeight (required found : N)
  | ApplyError_InsufficientSignatures (required found : N)
  | ApplyError_InvalidSignatures (failing_key_ids : gset KeyId)
  | ApplyError_Storage (e : E).

Inductive Error : Type :=
  | Error_Wire (e : WireError)
  | Error_NotInit
  | Error_EmptyChain
  | Error_UnknownHead (head : EnvelopeDigest)
  | Error_UnknownParent (prev : EnvelopeDigest)
  | Error_Diverged (from to_ : EnvelopeDigest)
  | Error_Apply (e : ApplyError)
  | Error_Storage (e : E).
End errors.
Arguments ApplyError_Wire {_ E} e.
Arguments ApplyError_UnexpectedInit {_ E}.
Arguments ApplyError_ChainMismatch {_ E} expected found.
Arguments ApplyError_UnknownNamespace {_ E} key.
Arguments ApplyError_UnknownPath {_ E} key path.
Arguments ApplyError_PathTypeMismatch {_ E} key path.
Arguments ApplyError_AmendTypeMismatch {_ E} key path.
Arguments ApplyError_Overflow {_ E} key path.
Arguments ApplyError_InvalidBounds {_ E} key path.
Arguments ApplyError_InvalidValue {_ E} key reason.
Arguments ApplyError_InsufficientWeight {_ E} required found.
Arguments ApplyError_InsufficientSignatures {_ E} required found.
Arguments ApplyError_InvalidSignatures {_ E} failing_key_ids.
Arguments ApplyError_Storage {_ E} e.
Arguments Error_Wire {_ E} e.
Arguments Error_NotInit {_ E}.
Arguments Error_EmptyChain {_ E}.
Arguments Error_UnknownHead {_ E} head.
Arguments Error_UnknownParent {_ E} prev.
Arguments Error_Diverged {_ E} from to_.
Arguments Error_Apply {_ E} e.
Arguments Error_Storage {_ E} e.

(** [TrustedKeysError]'s and [ValueError]'s [Display]; a [KeyId] displays as
    its hex. *)
Definition TrustedKeysError_display `{Externals} (e : TrustedKeysError) : rstring :=
  match e with
  | TrustedKeysError_NotAMap => str "the trusted key set must be a map of hex key id to key"
  | TrustedKeysError_NotAKey id => str "the entry under " ++ id ++ str " is not a key"
  | TrustedKeysError_IdMismatch id derived =>
      str "the key filed under " ++ id ++ str " derives to " ++ KeyId_to_hex derived
  end.

Definition ValueError_display `{Externals} (e : ValueError) : rstring :=
  match e with
  | ValueError_MinKeepMinutes =>
      str "the compaction floor must be a positive whole number of minutes"
  | ValueError_MinEnvelopeWeight =>
      str "the minimum envelope weight must be a non-negative whole number"
  | ValueError_MinEnvelopeSignatures =>
      str "the minimum envelope signature count must be a non-negative whole number"
  | ValueError_TrustedKeys err => TrustedKeysError_display err
  | ValueError_ClusterNodes err => str "cluster nodes: " ++ err
  end.
