(* ===== verification/Ledger.v ===== *)
(** * The ledger: [crates/state/src/ledger.rs]

    A ledger is a cursor into a [Storage]: the head it stands at. A [&mut self]
    operation returns the ledger it leaves; on an error the caller's ledger is
    the one it had, as in the source, where [apply] moves the head last. The
    operations are proved against [StorageSpec], so for every backend that
    keeps its promise. *)

From S2P Require Import Prelude BTree Text Codec Externals Keys Subkey Msg Envelope Value.
From S2P Require Import Storage Addr StateError.

(** [.map(f).collect::<Result<_, _>>()] where [f] can panic: stops at the
    first error. *)
Fixpoint c_traverse {E A B} (f : A → Comp E B) (l : list A) : Comp E (list B) :=
  match l with
  | [] => c_ok []
  | a :: l' => let? b := f a in let? r := c_traverse f l' in c_ok (b :: r)
  end.

Definition c_lift {E A} (r : Result E A) : Comp E A := Ret r.

(** ** Configuration *)

Definition MIN_KEEP_MINUTES_KEY : rstring := str "_lotus_min_keep_minutes".
Definition DEFAULT_MIN_KEEP_MINUTES : N := 5 * 24 * 60.
Definition MIN_ENVELOPE_WEIGHT_KEY : rstring := str "_lotus_min_envelope_weight".
Definition MIN_ENVELOPE_SIGNATURES_KEY : rstring := str "_lotus_min_envelope_signatures".
Definition TRUSTED_KEYS_KEY : rstring := str "_lotus_trusted_keys".
Definition CLUSTER_NODES_KEY : rstring := str "_lotus_nodes".

Record Ledger := MkLedger { ledger_head : EnvelopeDigest }.

#[export] Instance Ledger_eq_dec : EqDecision Ledger.
Proof. solve_decision. Defined.

(** Why a path stopped short. *)
Inductive Miss : Type := Miss_NotFound | Miss_TypeMismatch.

(** A positive integer that fits a [u32]. *)
Definition parse_min_keep (value : Value) : option N :=
  match value with
  | Value_Int minutes =>
      minutes ← u32_try_from_i64 minutes;
      if (0 <? minutes)%N then Some minutes else None
  | _ => None
  end.

(** A non-negative integer that fits a [u32]. *)
Definition parse_threshold (value : Value) : option N :=
  match value with
  | Value_Int n => u32_try_from_i64 n
  | _ => None
  end.

Section parsers.
Context `{Externals}.

Definition parse_trusted_key (entry : rstring * Value) : Comp TrustedKeysError (KeyId * Key) :=
  match entry.2 with
  | Value_Key key =>
      let? derived := c_expect (Key_id key) in
      if decide (entry.1 = KeyId_to_hex derived) then c_ok (derived, key)
      else c_err (TrustedKeysError_IdMismatch entry.1 derived)
  | _ => c_err (TrustedKeysError_NotAKey entry.1)
  end.

Definition parse_trusted_keys (value : Value) : Comp TrustedKeysError (BTreeMap KeyId Key) :=
  match value with
  | Value_Map entries =>
      let? keys := c_traverse parse_trusted_key entries in
      c_ok (bt_from_iter keys)
  | _ => c_err TrustedKeysError_NotAMap
  end.

Definition parse_cluster_node (entry : rstring * Value) : Result rstring (KeyId * EndpointAddr) :=
  let id := entry.1 in
  match KeyId_from_hex id with
  | Err e => Err (id ++ str ": " ++ e)
  | Ok node_id =>
      if decide (id ≠ KeyId_to_hex node_id)
      then Err (id ++ str ": not the canonical spelling of a key id")
      else
        match entry.2 with
        | Value_Map inner =>
            match bt_get inner (str "iroh") with
            | None => Err (id ++ str ": missing or invalid `iroh` value")
            | Some iroh =>
                match EndpointAddr_try_from iroh with
                | Ok addr => Ok (node_id, addr)
                | Err e => Err (id ++ str ": " ++ AddrError_display e)
                end
            end
        | _ => Err (id ++ str ": not a map")
        end
  end.

Definition parse_cluster_nodes (value : Value) : Result rstring (BTreeMap KeyId EndpointAddr) :=
  match value with
  | Value_Map entries =>
      match collect (map parse_cluster_node entries) with
      | Ok nodes => Ok (bt_from_iter nodes)
      | Err e => Err e
      end
  | _ => Err (str "not a map")
  end.

(** [Ledger::rule]: what the value of a reserved namespace must satisfy. *)
Definition rule (key : NamespaceKey) : option (Value → Comp ValueError ()) :=
  let key := NamespaceKey_as_ref key in
  let judge {A} (parse : Value → option A) (reason : ValueError) (value : Value) :=
    match parse value with Some _ => c_ok () | None => c_err reason end in
  if decide (key = MIN_KEEP_MINUTES_KEY) then
    Some (judge parse_min_keep ValueError_MinKeepMinutes)
  else if decide (key = MIN_ENVELOPE_WEIGHT_KEY) then
    Some (judge parse_threshold ValueError_MinEnvelopeWeight)
  else if decide (key = MIN_ENVELOPE_SIGNATURES_KEY) then
    Some (judge parse_threshold ValueError_MinEnvelopeSignatures)
  else if decide (key = TRUSTED_KEYS_KEY) then
    Some (λ value, do? c_map_err ValueError_TrustedKeys (parse_trusted_keys value) in c_ok ())
  else if decide (key = CLUSTER_NODES_KEY) then
    Some (λ value,
      do? c_map_err ValueError_ClusterNodes (c_lift (parse_cluster_nodes value)) in c_ok ())
  else None.

(** [Ledger::validate_value]. *)
Definition validate_value {E} (key : NamespaceKey) (value : Value) : Comp (ApplyError E) () :=
  match rule key with
  | None => c_ok ()
  | Some rule => c_map_err (ApplyError_InvalidValue key) (rule value)
  end.

(** [Miss::into_error]. *)
Definition Miss_into_error {E} (self : Miss) (key : NamespaceKey) (path : SubkeyPath)
    : ApplyError E :=
  match self with
  | Miss_NotFound => ApplyError_UnknownPath key path
  | Miss_TypeMismatch => ApplyError_PathTypeMismatch key path
  end.

Definition c_wire {E A} (r : Result WireError A) : Comp (ApplyError E) A :=
  c_map_err ApplyError_Wire (c_lift r).

Definition c_wire_error {E A} (r : Result WireError A) : Comp (Error E) A :=
  c_map_err Error_Wire (c_lift r).
End parsers.

(** ** Reads *)

Section reads.
Context `{Externals} {S E : Type} `{Storage S E}.
Implicit Types (self : Ledger) (storage : S) (key : NamespaceKey).

Definition ledger_resolve self storage key (path : list Subkey) : Comp (ApplyError E) (option Resolution) :=
  c_map_err ApplyError_Storage (resolve storage (ledger_head self) key path).

Definition ledger_namespace self storage key : Comp E (option Namespace) :=
  namespace storage (ledger_head self) key.

(** [NamespaceKey::try_new(..).expect("the reserved key is static")]. *)
Definition reserved_key {E'} (name : rstring) : Comp E' NamespaceKey :=
  c_expect (NamespaceKey_try_new name).

Definition ledger_min_keep_minutes self storage : Comp E N :=
  let? key := reserved_key MIN_KEEP_MINUTES_KEY in
  let? ns := ledger_namespace self storage key in
  c_ok (default DEFAULT_MIN_KEEP_MINUTES (ns ≫= λ n, parse_min_keep (ns_value n))).

Definition trusted_keys self storage : Comp (ApplyError E) (BTreeMap KeyId Key) :=
  let? key := reserved_key TRUSTED_KEYS_KEY in
  let? ns := c_map_err ApplyError_Storage (ledger_namespace self storage key) in
  match ns with
  | None => c_ok []
  | Some n =>
      c_map_err (λ reason, ApplyError_InvalidValue key (ValueError_TrustedKeys reason))
        (parse_trusted_keys (ns_value n))
  end.

Definition threshold self storage (name : rstring) (reason : ValueError)
    : Comp (ApplyError E) N :=
  let? key := reserved_key name in
  let? ns := c_map_err ApplyError_Storage (ledger_namespace self storage key) in
  match ns with
  | None => c_ok 0%N
  | Some n => c_ok_or (ApplyError_InvalidValue key reason) (parse_threshold (ns_value n))
  end.

Definition min_envelope_weight self storage : Comp (ApplyError E) N :=
  threshold self storage MIN_ENVELOPE_WEIGHT_KEY ValueError_MinEnvelopeWeight.

Definition min_envelope_signatures self storage : Comp (ApplyError E) N :=
  threshold self storage MIN_ENVELOPE_SIGNATURES_KEY ValueError_MinEnvelopeSignatures.

Definition peer_addresses self storage : Comp (ApplyError E) (BTreeMap KeyId EndpointAddr) :=
  let? key := reserved_key CLUSTER_NODES_KEY in
  let? ns := c_map_err ApplyError_Storage (ledger_namespace self storage key) in
  match ns with
  | None => c_ok []
  | Some n =>
      c_map_err (λ reason, ApplyError_InvalidValue key (ValueError_ClusterNodes reason))
        (c_lift (parse_cluster_nodes (ns_value n)))
  end.

Definition check_sig_thresholds self storage (envelope : Envelope) : Comp (ApplyError E) () :=
  let status := verification_status envelope in
  match status with
  | Failed failing_key_ids => c_err (ApplyError_InvalidSignatures failing_key_ids)
  | Unchecked | AllMatched _ =>
      let found := signature_weight status in
      let? required := min_envelope_weight self storage in
      if (found <? required)%N then c_err (ApplyError_InsufficientWeight required found)
      else
        let found := verified_signers envelope in
        let? required := min_envelope_signatures self storage in
        if (found <? required)%N then c_err (ApplyError_InsufficientSignatures required found)
        else c_ok ()
  end.

(** The filter of [verify_envelope]: a signature that verifies under the
    trusted key it names. *)
Definition signature_matches (keys : BTreeMap KeyId Key) (digest : EnvelopeSignatureDigest)
    (entry : KeyId * Signature) : bool :=
  match bt_get keys entry.1 with
  | Some key => Key_verify key entry.2 digest
  | None => false
  end.

(** The [u64] sum of the signing keys' weights. *)
Definition signed_weight (keys : BTreeMap KeyId Key) (signatures : BTreeMap KeyId Signature) : N :=
  foldr (λ (k : Key) acc, weight k + acc)%N 0%N (omap (bt_get keys) (bt_keys signatures)).

Definition verify_envelope self storage (envelope : Envelope)
    : Comp (ApplyError E) VerificationStatus :=
  let? parent :=
    match Msg_prev_digest (payload envelope) with
    | Some prev => c_ok prev
    | None => c_wire (Envelope_digest envelope)
    end in
  if decide (parent ≠ ledger_head self)
  then c_err (ApplyError_ChainMismatch (ledger_head self) parent)
  else
    match signatures envelope with
    | [] => c_ok (AllMatched 0)
    | signatures =>
        let? keys := trusted_keys self storage in
        let? digest := c_wire (Envelope_signature_digest envelope) in
        let failing :=
          base.filter (λ s, Is_true (negb (signature_matches keys digest s))) signatures in
        match failing with
        | _ :: _ => c_ok (Failed (list_to_set failing.*1))
        | [] => c_ok (AllMatched (default u32_max (u32_try_from_u64 (signed_weight keys signatures))))
        end
    end.

Definition ledger_checkpoint self storage : Comp E FullCheckpoint :=
  let? l := namespaces_vec storage (ledger_head self) in
  c_ok (MkFullCheckpoint (bt_from_iter l)).

(** ** Validation of a nested write *)

Definition validate_set_key self storage (set : SetNamespaceKey)
    : Comp (ApplyError E) NamespaceOp :=
  let miss m := Miss_into_error m (snk_key set) (snk_path set) in
  let last := length (SubkeyPath_as_ref (snk_path set)) - 1 in
  let? r := ledger_resolve self storage (snk_key set) (SubkeyPath_as_ref (snk_path set)) in
  let? resolution := c_ok_or (ApplyError_UnknownNamespace (snk_key set)) r in
  let op := NamespaceOp_SetAt (snk_key set) (snk_path set) (snk_value set) in
  match resolution with
  | Resolution_Node _ => c_ok op
  | Resolution_Missing depth NodeKind_Map =>
      if decide (depth = last ∧ is_Some (snk_value set)) then c_ok op
      else c_err (miss Miss_NotFound)
  | Resolution_Missing _ _ => c_err (miss Miss_NotFound)
  | Resolution_Mismatch _ => c_err (miss Miss_TypeMismatch)
  end.

(** The arm of an increment on a leaf. *)
Definition validate_increment self storage (amend : AmendNamespaceKey) (inc : IncrementDecrement)
    : Comp (ApplyError E) () :=
  let segments := path_segments (ank_path amend) in
  if match inc_min inc, inc_max inc with
     | Some min, Some max => (min >? max)%Z
     | _, _ => false
     end
  then c_err (ApplyError_InvalidBounds (ank_key amend) (ank_path amend))
  else
    let? value :=
      c_map_err ApplyError_Storage
        (value_at storage (ledger_head self) (ank_key amend) segments) in
    match value with
    | Some (Value_Int n) =>
        let? sum :=
          c_ok_or (ApplyError_Overflow (ank_key amend) (ank_path amend))
            (IncrementDecrement_apply inc n) in
        match segments with
        | [] => validate_value (ank_key amend) (Value_Int sum)
        | _ :: _ => c_ok ()
        end
    | _ => c_err (ApplyError_AmendTypeMismatch (ank_key amend) (ank_path amend))
    end.

Definition validate_amend_key self storage (amend : AmendNamespaceKey)
    : Comp (ApplyError E) NamespaceOp :=
  let segments := path_segments (ank_path amend) in
  (* [expect]s a path: a miss walked at least one segment. *)
  let miss m :=
    let? path := c_expect (ank_path amend) in
    c_err (Miss_into_error m (ank_key amend) path) in
  let cannot_amend := c_err (ApplyError_AmendTypeMismatch (ank_key amend) (ank_path amend)) in
  let last := match length segments with 0 => None | Datatypes.S n => Some n end in
  let? r := ledger_resolve self storage (ank_key amend) segments in
  let? resolution := c_ok_or (ApplyError_UnknownNamespace (ank_key amend)) r in
  do?
    match ank_op amend, resolution with
    | AmendOp_AppendEntry _, Resolution_Node NodeKind_Array => c_ok ()
    | AmendOp_AppendEntry _, Resolution_Missing depth NodeKind_Map =>
        if decide (Some depth = last) then c_ok () else miss Miss_NotFound
    | AmendOp_AppendEntry _, Resolution_Node _ => cannot_amend
    | AmendOp_IncrementDecrement inc, Resolution_Node NodeKind_Leaf =>
        validate_increment self storage amend inc
    | AmendOp_IncrementDecrement _, Resolution_Node _ => cannot_amend
    | AmendOp_DeleteMatching _, Resolution_Node (NodeKind_Map | NodeKind_Array) => c_ok ()
    | AmendOp_DeleteMatching _, Resolution_Node NodeKind_Leaf => cannot_amend
    | _, Resolution_Missing _ _ => miss Miss_NotFound
    | _, Resolution_Mismatch _ => miss Miss_TypeMismatch
    end in
  c_ok (NamespaceOp_AmendAt (ank_key amend) (ank_path amend) (ank_op amend)).

(** [expect]s the namespace: the write is pre-validated. *)
Definition ruled_value self storage key : Comp (ApplyError E) Value :=
  let? ns := c_map_err ApplyError_Storage (ledger_namespace self storage key) in
  let? n := c_expect ns in
  c_ok (ns_value n).

Definition validate_nested self storage (op : NamespaceOp) : Comp (ApplyError E) () :=
  match op with
  | NamespaceOp_SetAt key path value =>
      match rule key with
      | None => c_ok ()
      | Some _ =>
          let? before := ruled_value self storage key in
          let? result := c_expect (set_at before path value) in
          validate_value key result
      end
  | NamespaceOp_AmendAt key path op =>
      match rule key with
      | None => c_ok ()
      | Some _ =>
          let? before := ruled_value self storage key in
          let? result := c_expect (amend_at before path op) in
          validate_value key result
      end
  | NamespaceOp_Put _ _ | NamespaceOp_Delete _ => c_ok ()
  end.

(** The match of [apply] on the message. *)
Definition validate_msg self storage (msg : Msg) : Comp (ApplyError E) NamespaceOp :=
  match msg with
  | Msg_Init _ => c_err ApplyError_UnexpectedInit
  | Msg_SetNamespace set =>
      do? validate_value (sn_key set) (ns_value (sn_namespace set)) in
      c_ok (NamespaceOp_Put (sn_key set) (sn_namespace set))
  | Msg_SetNamespaceKey set => validate_set_key self storage set
  | Msg_AmendNamespaceKey amend => validate_amend_key self storage amend
  | Msg_DeleteNamespace del =>
      let? r := ledger_resolve self storage (dn_key del) [] in
      do? c_ok_or (ApplyError_UnknownNamespace (dn_key del)) r in
      c_ok (NamespaceOp_Delete (dn_key del))
  end.
End reads.

(** ** Operations *)

Section operations.
Context `{Externals} {S E : Type} `{Storage S E}.

Definition validate_checkpoint (state : FullCheckpoint) : Comp (Error E) () :=
  do? c_map_err Error_Apply
        (c_traverse (λ kn, validate_value kn.1 (ns_value kn.2)) (fc_namespaces state)) in
  c_ok ().

Definition ledger_init (envelope : Envelope) : M S (Error E) Ledger :=
  match payload envelope with
  | Msg_Init init =>
      do! m_ask (λ _, validate_checkpoint (init_state init)) in
      let! head := m_ask (λ _, c_wire_error (Envelope_digest envelope)) in
      do! m_map_err Error_Storage (install head (fc_namespaces (init_state init))) in
      m_ret (MkLedger head)
  | _ => m_err Error_NotInit
  end.

Definition ledger_open (storage : S) (head : EnvelopeDigest) : Comp (Error E) Ledger :=
  let? held := c_map_err Error_Storage (contains_version storage head) in
  if held : bool then c_ok (MkLedger head) else c_err (Error_UnknownHead head).

Definition ledger_adopt (envelope : Envelope) (state : FullCheckpoint) : M S (Error E) Ledger :=
  do! m_ask (λ _, validate_checkpoint state) in
  let! head := m_ask (λ _, c_wire_error (Envelope_digest envelope)) in
  do! m_map_err Error_Storage (install head (fc_namespaces state)) in
  m_ret (MkLedger head).

Definition apply (self : Ledger) (envelope : Envelope) : M S (ApplyError E) Ledger :=
  let msg := payload envelope in
  let! prev := m_ask (λ _, c_ok_or ApplyError_UnexpectedInit (Msg_prev_digest msg)) in
  if decide (prev ≠ ledger_head self)
  then m_err (ApplyError_ChainMismatch (ledger_head self) prev)
  else
    let! head := m_ask (λ _, c_wire (Envelope_digest envelope)) in
    do! m_ask (λ storage, check_sig_thresholds self storage envelope) in
    let! op := m_ask (λ storage, validate_msg self storage msg) in
    do! m_ask (λ storage, validate_nested self storage op) in
    do! m_map_err ApplyError_Storage (commit (ledger_head self) head op) in
    m_ret (MkLedger head).

Fixpoint replay_from (ledger : Ledger) (envelopes : list Envelope) : M S (Error E) Ledger :=
  match envelopes with
  | [] => m_ret ledger
  | envelope :: rest =>
      let! ledger :=
        m_map_err Error_Apply
          (let! status := m_ask (λ storage, verify_envelope ledger storage envelope) in
           apply ledger (set_verification_status envelope status)) in
      replay_from ledger rest
  end.

Definition replay (envelopes : list Envelope) : M S (Error E) Ledger :=
  match envelopes with
  | [] => m_err Error_EmptyChain
  | first :: rest =>
      let! ledger := ledger_init first in
      replay_from ledger rest
  end.
End operations.
