(* ===== verification/LedgerSpec.v ===== *)
(** * What the ledger promises

    [version_reader] reads one version directly, with no backend to fail:
    instantiated with it, the ledger's own checks become the pure [judge] of an
    envelope against the version it chains onto. The ledger over any backend
    that keeps [StorageSpec] does what [judge] says, or stops at a failure of
    the backend ([apply_refines]); so any two backends agree. *)

From S2P Require Import Prelude BTree Text Codec Externals Keys Subkey Msg Envelope Value Storage.
From S2P Require Import Addr StateError Ledger.

(** ** Reading one version *)

#[export] Instance version_reader : Storage (list (NamespaceKey * Namespace)) Empty_set := {
  contains_version _ _ := c_ok true;
  resolve ver _ key path := c_ok ((λ n, value_resolve (ns_value n) path) <$> bt_get ver key);
  value_at ver _ key path := c_ok (bt_get ver key ≫= λ n, walk (ns_value n) path);
  meta_at ver _ key path := c_ok (bt_get ver key ≫= λ n, meta <$> walk (ns_value n) path);
  namespace ver _ key := c_ok (bt_get ver key);
  namespaces ver _ := Ret (map Ok ver);
  namespace_keys ver _ := Ret (map Ok (bt_keys ver));
  commit _ _ _ := m_panic;
  install _ _ := m_panic;
  retain _ := m_panic;
  put_envelope _ _ := m_panic;
  logged_envelope _ _ := c_ok None;
  envelope _ _ := c_ok None;
  remove_envelope _ := m_panic;
  children _ _ := Ret [];
  parent _ _ := c_ok None;
}.

Section judge.
Context `{Externals}.

(** Everything [apply] checks before its one commit. *)
Definition judge (self : Ledger) (ver : list (NamespaceKey * Namespace)) (env : Envelope)
    : Comp (ApplyError Empty_set) (EnvelopeDigest * NamespaceOp) :=
  let? prev := c_ok_or ApplyError_UnexpectedInit (Msg_prev_digest (payload env)) in
  if decide (prev ≠ ledger_head self)
  then c_err (ApplyError_ChainMismatch (ledger_head self) prev)
  else
    let? head := c_wire (Envelope_digest env) in
    do? check_sig_thresholds self ver env in
    let? op := validate_msg self ver (payload env) in
    do? validate_nested self ver op in
    c_ok (head, op).

(** The error of a backend that cannot fail, at any backend. *)
Definition lift_error {E} (e : ApplyError Empty_set) : ApplyError E :=
  match e with
  | ApplyError_Wire e => ApplyError_Wire e
  | ApplyError_UnexpectedInit => ApplyError_UnexpectedInit
  | ApplyError_ChainMismatch a b => ApplyError_ChainMismatch a b
  | ApplyError_UnknownNamespace k => ApplyError_UnknownNamespace k
  | ApplyError_UnknownPath k p => ApplyError_UnknownPath k p
  | ApplyError_PathTypeMismatch k p => ApplyError_PathTypeMismatch k p
  | ApplyError_AmendTypeMismatch k p => ApplyError_AmendTypeMismatch k p
  | ApplyError_Overflow k p => ApplyError_Overflow k p
  | ApplyError_InvalidBounds k p => ApplyError_InvalidBounds k p
  | ApplyError_InvalidValue k r => ApplyError_InvalidValue k r
  | ApplyError_InsufficientWeight r f => ApplyError_InsufficientWeight r f
  | ApplyError_InsufficientSignatures r f => ApplyError_InsufficientSignatures r f
  | ApplyError_InvalidSignatures ids => ApplyError_InvalidSignatures ids
  | ApplyError_Storage e => match e with end
  end.

(** A computation over a backend against the same over [version_reader]. *)
Definition agrees {E A} (c : Comp (ApplyError E) A) (p : Comp (ApplyError Empty_set) A) : Prop :=
  c = c_map_err lift_error p ∨ ∃ e, c = c_err (ApplyError_Storage e).

(** A rule is satisfied. *)
Definition rule_ok (key : NamespaceKey) (value : Value) : Prop :=
  match rule key with None => True | Some r => r value = c_ok () end.

(** What holds of every version a ledger stands on. *)
Record version_ok (ver : list (NamespaceKey * Namespace)) : Prop := {
  ver_sorted : bt_sorted ver;
  ver_values key n : bt_get ver key = Some n → value_ok (ns_value n);
  ver_rules key n : bt_get ver key = Some n → rule_ok key (ns_value n);
}.

(** The threshold in force under a reserved name: absent is none. *)
Definition in_force (name : rstring) (ver : list (NamespaceKey * Namespace)) : N :=
  match NamespaceKey_try_new name ≫= bt_get ver with
  | Some n => default 0%N (parse_threshold (ns_value n))
  | None => 0
  end.

(** The trusted keys of a version. *)
Definition trusted (ver : list (NamespaceKey * Namespace)) : BTreeMap KeyId Key :=
  match NamespaceKey_try_new TRUSTED_KEYS_KEY ≫= bt_get ver with
  | Some n => match parse_trusted_keys (ns_value n) with Ret (Ok keys) => keys | _ => [] end
  | None => []
  end.
End judge.

(** What the message's Rust types guarantee of the values it carries. *)
Definition msg_ok (msg : Msg) : Prop :=
  match msg with
  | Msg_Init init => Forall (λ kn, value_ok (ns_value kn.2)) (fc_namespaces (init_state init))
  | Msg_SetNamespace set => value_ok (ns_value (sn_namespace set))
  | Msg_SetNamespaceKey set =>
      match snk_value set with Some v => value_ok v | None => True end
  | Msg_AmendNamespaceKey amend => amend_op_ok (ank_op amend)
  | Msg_DeleteNamespace _ => True
  end.

(** The operation a message asks for. *)
Definition msg_op (msg : Msg) : option NamespaceOp :=
  match msg with
  | Msg_Init _ => None
  | Msg_SetNamespace set => Some (NamespaceOp_Put (sn_key set) (sn_namespace set))
  | Msg_SetNamespaceKey set => Some (NamespaceOp_SetAt (snk_key set) (snk_path set) (snk_value set))
  | Msg_AmendNamespaceKey amend =>
      Some (NamespaceOp_AmendAt (ank_key amend) (ank_path amend) (ank_op amend))
  | Msg_DeleteNamespace del => Some (NamespaceOp_Delete (dn_key del))
  end.

(** ** Agreement with the reader *)

Section agreement.
Context `{Externals} {S E : Type} `{StorageSpec S E}.
Implicit Types (self : Ledger) (s : S) (ver : list (NamespaceKey * Namespace)).

Lemma agrees_bind {A B} (c : Comp (ApplyError E) A) p (k : A → Comp (ApplyError E) B) pk :
  agrees c p → (∀ a, agrees (k a) (pk a)) → agrees (c_bind c k) (c_bind p pk).
Proof.
  intros [->|[e ->]] Hk; [|right; by exists e].
  destruct p as [[a|e]| |]; simpl; [apply Hk|by left..].
Qed.

Lemma agrees_expect {A} (o : option A) : agrees (E:=E) (c_expect o) (c_expect o).
Proof. destruct o; by left. Qed.

Lemma agrees_ok_or {A} e e' (o : option A) :
  e = lift_error e' → agrees (E:=E) (c_ok_or e o) (c_ok_or e' o).
Proof. intros ->. destruct o; by left. Qed.

Lemma agrees_wire {A} (r : Result WireError A) : agrees (E:=E) (c_wire r) (c_wire r).
Proof. destruct r; by left. Qed.

Lemma agrees_map_err {E' A} (f : E' → ApplyError E) f' (c : Comp E' A) :
  (∀ e, f e = lift_error (f' e)) → agrees (c_map_err f c) (c_map_err f' c).
Proof. intros Hf. left. destruct c as [[a|e]| |]; simpl; by rewrite ?Hf. Qed.

Lemma agrees_read {A} (c : Comp E A) (a : A) :
  cwp c (λ b, b = a) (λ _, True) →
  agrees (c_map_err ApplyError_Storage c) (c_map_err ApplyError_Storage (c_ok a)).
Proof. destruct c as [[b|e]| |]; simpl; try done; [intros ->; by left|right; by exists e]. Qed.
End agreement.

(** Follows the program, one bind or match at a time. *)
Ltac agrees_step :=
  match goal with
  | |- agrees (c_bind _ _) (c_bind _ _) => apply agrees_bind; [|intros]
  | |- agrees (c_ok _) _ => by left
  | |- agrees (c_err _) _ => by left
  | |- agrees (c_expect _) _ => apply agrees_expect
  | |- agrees (c_ok_or _ _) _ => by apply agrees_ok_or
  | |- agrees (c_wire _) _ => apply agrees_wire
  | |- agrees (if ?b then _ else _) _ => destruct b
  | |- agrees (match ?x with _ => _ end) _ => destruct x
  end.

Section readers.
Context `{Externals} {S E : Type} `{StorageSpec S E}.
Variables (self : Ledger) (s : S) (ver : list (NamespaceKey * Namespace)).
Hypothesis Hs : storage_ok s.
Hypothesis Hver : versions (view s) !! ledger_head self = Some ver.

Lemma validate_value_agrees key value :
  agrees (E:=E) (validate_value key value) (validate_value key value).
Proof. unfold validate_value. destruct (rule key); [by apply agrees_map_err|by left]. Qed.

Lemma ledger_resolve_agrees key path :
  agrees (ledger_resolve self s key path) (ledger_resolve self ver key path).
Proof using Hs Hver. by apply agrees_read, resolve_spec. Qed.

Lemma ledger_namespace_agrees key :
  agrees (c_map_err ApplyError_Storage (ledger_namespace self s key))
    (c_map_err ApplyError_Storage (ledger_namespace self ver key)).
Proof using Hs Hver. by apply agrees_read, namespace_spec. Qed.

Lemma value_at_agrees key path :
  agrees (c_map_err ApplyError_Storage (value_at s (ledger_head self) key path))
    (c_map_err ApplyError_Storage (value_at ver (ledger_head self) key path)).
Proof using Hs Hver. by apply agrees_read, value_at_spec. Qed.

Lemma threshold_agrees name reason :
  agrees (threshold self s name reason) (threshold self ver name reason).
Proof using Hs Hver.
  unfold threshold, reserved_key. repeat agrees_step. apply ledger_namespace_agrees.
Qed.

Lemma trusted_keys_agrees : agrees (trusted_keys self s) (trusted_keys self ver).
Proof using Hs Hver.
  unfold trusted_keys, reserved_key. repeat agrees_step.
  - apply ledger_namespace_agrees.
  - by apply agrees_map_err.
Qed.

Lemma check_sig_thresholds_agrees env :
  agrees (check_sig_thresholds self s env) (check_sig_thresholds self ver env).
Proof using Hs Hver.
  unfold check_sig_thresholds. repeat agrees_step; apply threshold_agrees.
Qed.

Lemma verify_envelope_agrees env :
  agrees (verify_envelope self s env) (verify_envelope self ver env).
Proof using Hs Hver.
  unfold verify_envelope. repeat agrees_step; apply trusted_keys_agrees.
Qed.

Lemma validate_set_key_agrees set :
  agrees (validate_set_key self s set) (validate_set_key self ver set).
Proof using Hs Hver.
  unfold validate_set_key. repeat agrees_step; try apply ledger_resolve_agrees;
    unfold Miss_into_error; repeat agrees_step.
Qed.

Lemma validate_increment_agrees amend inc :
  agrees (validate_increment self s amend inc) (validate_increment self ver amend inc).
Proof using Hs Hver.
  unfold validate_increment. repeat agrees_step; try apply value_at_agrees.
  apply validate_value_agrees.
Qed.

Lemma validate_amend_key_agrees amend :
  agrees (validate_amend_key self s amend) (validate_amend_key self ver amend).
Proof using Hs Hver.
  unfold validate_amend_key. repeat agrees_step; try apply ledger_resolve_agrees;
    apply validate_increment_agrees.
Qed.

Lemma validate_nested_agrees op :
  agrees (validate_nested self s op) (validate_nested self ver op).
Proof using Hs Hver.
  unfold validate_nested, ruled_value. repeat agrees_step; try apply ledger_namespace_agrees;
    apply validate_value_agrees.
Qed.

Lemma validate_msg_agrees msg :
  agrees (validate_msg self s msg) (validate_msg self ver msg).
Proof using Hs Hver.
  unfold validate_msg. destruct msg; repeat agrees_step.
  - apply validate_value_agrees.
  - apply validate_set_key_agrees.
  - apply validate_amend_key_agrees.
  - apply ledger_resolve_agrees.
Qed.
End readers.


(** ** What the judgement establishes *)

Lemma NamespaceKey_try_new_Some (name : rstring) :
  name ≠ [] → ∃ key, NamespaceKey_try_new name = Some key ∧ NamespaceKey_as_ref key = name.
Proof.
  intros Hn. unfold NamespaceKey_try_new. case_decide as Hd; [|done]. by eexists.
Qed.

Lemma op_apply_get op ver :
  is_Some (op_apply op ver) →
  match op with
  | NamespaceOp_Put _ _ => True
  | NamespaceOp_Delete key => is_Some (bt_get ver key)
  | NamespaceOp_SetAt key path value =>
      ∃ n v, bt_get ver key = Some n ∧ set_at (ns_value n) path value = Some v ∧
        op_apply op ver = Some (bt_insert key (MkNamespace v) ver)
  | NamespaceOp_AmendAt key path op' =>
      ∃ n v, bt_get ver key = Some n ∧ amend_at (ns_value n) path op' = Some v ∧
        op_apply op ver = Some (bt_insert key (MkNamespace v) ver)
  end.
Proof.
  destruct op as [key n|key|key path value|key path op']; simpl; [done|..].
  - unfold bt_contains_key. intros [? Hx]. destruct (bt_get ver key); naive_solver.
  - intros [? Hx]. simplify_option_eq. naive_solver.
  - intros [? Hx]. simplify_option_eq. naive_solver.
Qed.

Lemma cwp_ok_or {E A} (e : E) (o : option A) (Q : A → Prop) (X : E → Prop) :
  match o with Some a => Q a | None => X e end → cwp (c_ok_or e o) Q X.
Proof. by destruct o. Qed.

Section judgement.
Context `{Externals}.
(** The source [expect]s that a public key encodes. *)
Hypothesis Hid : ∀ k, is_Some (Key_id k).

Lemma c_traverse_total {E A B} (f : A → Comp E B) l :
  (∀ a, cwp (f a) (λ _, True) (λ _, True)) → cwp (c_traverse f l) (λ _, True) (λ _, True).
Proof using.
  intros Hf. induction l as [|a l IH]; simpl; [done|].
  apply cwp_bind. eapply cwp_mono; [apply Hf| |done]. intros b _.
  apply cwp_bind. by eapply cwp_mono.
Qed.

Lemma parse_trusted_keys_total value :
  cwp (parse_trusted_keys value) (λ _, True) (λ _, True).
Proof using Hid.
  destruct value; try done. apply cwp_bind. eapply cwp_mono; [|done|done].
  apply c_traverse_total. intros [id [| | | | |key]]; try done. unfold parse_trusted_key. simpl.
  destruct (Hid key) as [derived ->]. simpl. by case_decide.
Qed.

Lemma rule_total key r value : rule key = Some r → cwp (r value) (λ _, True) (λ _, True).
Proof using Hid.
  unfold rule. intros Hr. repeat case_decide; simplify_eq; try (by case_match).
  - apply cwp_bind, cwp_map_err. eapply cwp_mono; [apply parse_trusted_keys_total|done|done].
  - apply cwp_bind, cwp_map_err. by destruct (parse_cluster_nodes value).
Qed.

Lemma validate_value_ok {E} key value :
  validate_value (E:=E) key value = c_ok () ↔ rule_ok key value.
Proof using.
  unfold validate_value, rule_ok. destruct (rule key) as [r|]; [|done].
  destruct (r value) as [[[]|e]| |]; naive_solver.
Qed.

Lemma validate_value_cwp {E} key value :
  cwp (validate_value (E:=E) key value) (λ _, rule_ok key value) (λ _, True).
Proof using Hid.
  pose proof (validate_value_ok (E:=E) key value) as Hok. unfold validate_value in *.
  destruct (rule key) as [r|] eqn:Hr; [|by apply Hok].
  pose proof (rule_total key r value Hr) as Ht.
  destruct (r value) as [[[]|e]| |]; simpl in *; try done. by apply Hok.
Qed.

Variables (self : Ledger) (ver : list (NamespaceKey * Namespace)).

Lemma threshold_cwp name reason :
  name ≠ [] → cwp (threshold self ver name reason) (λ n, n = in_force name ver) (λ _, True).
Proof using.
  intros (key & Hk & _)%NamespaceKey_try_new_Some. unfold threshold, reserved_key, in_force.
  rewrite Hk. simpl. destruct (bt_get ver key) as [n|]; simpl; [|done].
  by destruct (parse_threshold (ns_value n)).
Qed.

Lemma check_sig_thresholds_cwp env :
  cwp (check_sig_thresholds self ver env)
    (λ _, (∀ ids, verification_status env ≠ Failed ids) ∧
      (in_force MIN_ENVELOPE_WEIGHT_KEY ver ≤ signature_weight (verification_status env))%N ∧
      (in_force MIN_ENVELOPE_SIGNATURES_KEY ver ≤ verified_signers env)%N)
    (λ _, True).
Proof using.
  unfold check_sig_thresholds.
  destruct (verification_status env) as [|ids|w] eqn:Hst; [|done|];
    (apply cwp_bind; eapply cwp_mono; [by apply threshold_cwp| |done]; intros n ->;
     case_match eqn:Hw; [done|]; apply cwp_bind;
     eapply cwp_mono; [by apply threshold_cwp| |done]; intros n ->;
     case_match eqn:Hn; [done|]; apply N.ltb_ge in Hw, Hn; by split_and!).
Qed.

Lemma validate_set_key_cwp set :
  cwp (validate_set_key self ver set)
    (λ op, op = NamespaceOp_SetAt (snk_key set) (snk_path set) (snk_value set) ∧
      is_Some (op_apply op ver)) (λ _, True).
Proof using.
  unfold validate_set_key, ledger_resolve. simpl.
  destruct (bt_get ver (snk_key set)) as [n|] eqn:Hg; simpl; [|done].
  destruct (value_resolve _ _) as [k|d k|d] eqn:Hr; simpl; [| |done].
  - split; [done|]. rewrite Hg. simpl.
    destruct (set_at_total _ _ (snk_value set) _ Hr) as [v ->]. by eexists.
  - destruct k; try done. case_decide as Hd; [|done]. destruct Hd as [-> Hv].
    split; [done|]. simpl. rewrite Hg. simpl.
    destruct (set_at_fresh_total _ _ _ Hr Hv) as [v ->]. by eexists.
Qed.

Lemma amend_miss_path path root d k :
  value_resolve root (path_segments path) = Resolution_Missing d k ∨
  value_resolve root (path_segments path) = Resolution_Mismatch d →
  is_Some path.
Proof using. destruct path; simpl; [by eexists|]. by intros [?|?]. Qed.

Lemma validate_increment_cwp amend inc n :
  bt_get ver (ank_key amend) = Some n →
  cwp (validate_increment self ver amend inc)
    (λ _, is_Some (amend_at (ns_value n) (ank_path amend) (AmendOp_IncrementDecrement inc)))
    (λ _, True).
Proof using Hid.
  intros Hg. unfold validate_increment. case_match; [done|]. simpl. rewrite Hg. simpl.
  destruct (walk _ _) as [v|] eqn:Hw; [|done]. destruct v as [|m| | | |]; try done.
  apply cwp_bind, cwp_ok_or. destruct (IncrementDecrement_apply inc m) as [sum|] eqn:Hi; [|done].
  pose proof (increment_total _ _ _ _ _ Hw Hi) as Ht.
  eapply (cwp_mono _ (λ _, True) _ (λ _, True)); [|by intros|done].
  destruct (path_segments _); [|done].
  by eapply cwp_mono; [apply validate_value_cwp|..].
Qed.

Lemma validate_amend_key_cwp amend :
  cwp (validate_amend_key self ver amend)
    (λ op, op = NamespaceOp_AmendAt (ank_key amend) (ank_path amend) (ank_op amend) ∧
      is_Some (op_apply op ver)) (λ _, True).
Proof using Hid.
  unfold validate_amend_key, ledger_resolve. simpl.
  destruct (bt_get ver (ank_key amend)) as [n|] eqn:Hg; simpl; [|done].
  apply cwp_bind.
  eapply (cwp_mono _ (λ _, is_Some (amend_at (ns_value n) (ank_path amend) (ank_op amend)))
            _ (λ _, True)); [| |done].
  2: { intros _ [v Hv]. simpl. split; [done|]. rewrite Hg. simpl. rewrite Hv. by eexists. }
  pose proof (amend_miss_path (ank_path amend) (ns_value n)) as Hmiss.
  destruct (value_resolve _ _) as [k|d k|d] eqn:Hr.
  - destruct (ank_op amend) as [entry|inc|predicate], k; simpl; try done.
    + by apply append_total.
    + by apply validate_increment_cwp.
    + by eapply delete_total.
    + by eapply delete_total.
  - destruct (Hmiss d k) as [path Hp]; [by left|]. rewrite Hp in *. simpl in *.
    destruct (ank_op amend), k; try done. case_decide as Hd; [|done]. simpl.
    apply append_fresh_total. rewrite Hr. f_equal.
    destruct (length (SubkeyPath_as_ref path)); simplify_eq. lia.
  - destruct (Hmiss d NodeKind_Map) as [path Hp]; [by right|]. rewrite Hp in *.
    by destruct (ank_op amend).
Qed.

(** The rules hold of what the operation leaves. *)
Definition op_rules_ok (op : NamespaceOp) : Prop :=
  match op with
  | NamespaceOp_Put key n => rule_ok key (ns_value n)
  | NamespaceOp_Delete _ => True
  | NamespaceOp_SetAt key path value =>
      ∀ n v, bt_get ver key = Some n → set_at (ns_value n) path value = Some v → rule_ok key v
  | NamespaceOp_AmendAt key path op =>
      ∀ n v, bt_get ver key = Some n → amend_at (ns_value n) path op = Some v → rule_ok key v
  end.

Lemma validate_msg_cwp msg :
  cwp (validate_msg self ver msg)
    (λ op, msg_op msg = Some op ∧ is_Some (op_apply op ver) ∧
      match op with NamespaceOp_Put _ _ => op_rules_ok op | _ => True end)
    (λ _, True).
Proof using Hid.
  destruct msg as [init|set|set|amend|del]; simpl; [done|..].
  - apply cwp_bind. eapply cwp_mono; [apply validate_value_cwp| |done]. intros [] Hr.
    simpl. split_and!; [done|by eexists|done].
  - eapply cwp_mono; [apply validate_set_key_cwp| |done]. by intros op [-> ?].
  - eapply cwp_mono; [apply validate_amend_key_cwp| |done]. by intros op [-> ?].
  - unfold ledger_resolve. simpl. destruct (bt_get ver (dn_key del)) as [n|] eqn:Hg; simpl; [|done].
    unfold bt_contains_key. rewrite Hg. split_and!; [done|by eexists|done].
Qed.

Lemma validate_nested_cwp op :
  is_Some (op_apply op ver) →
  cwp (validate_nested self ver op)
    (λ _, match op with
          | NamespaceOp_SetAt _ _ _ | NamespaceOp_AmendAt _ _ _ => op_rules_ok op
          | _ => True
          end) (λ _, True).
Proof using Hid.
  intros Hop%op_apply_get.
  destruct op as [key n|key|key path value|key path op]; try done;
    destruct Hop as (n & v & Hg & Hv & _); unfold validate_nested;
    (destruct (rule key) eqn:Hr;
      [|cbn; intros ????; unfold rule_ok; by rewrite Hr]);
    unfold ruled_value, ledger_namespace; cbn [namespace version_reader];
    rewrite Hg; cbn [c_map_err c_bind c_ok c_expect]; rewrite Hv;
    (eapply cwp_mono; [apply validate_value_cwp| |done]); intros [] Hok n' v' Hg' Hv'; by simplify_eq.
Qed.

(** What a favourable judgement means. *)
Record judged (env : Envelope) (d : EnvelopeDigest) (op : NamespaceOp) : Prop := {
  jd_prev : prev_of env = Some (ledger_head self);
  jd_digest : Envelope_digest env = Ok d;
  jd_op : msg_op (payload env) = Some op;
  jd_fits : is_Some (op_apply op ver);
  jd_rules : op_rules_ok op;
  jd_verified ids : verification_status env ≠ Failed ids;
  jd_weight : (in_force MIN_ENVELOPE_WEIGHT_KEY ver ≤ signature_weight (verification_status env))%N;
  jd_signers : (in_force MIN_ENVELOPE_SIGNATURES_KEY ver ≤ verified_signers env)%N;
}.

Lemma judge_cwp env :
  cwp (judge self ver env) (λ r, judged env r.1 r.2) (λ _, True).
Proof using Hid.
  unfold judge. apply cwp_bind, cwp_ok_or.
  destruct (Msg_prev_digest (payload env)) as [prev|] eqn:Hp; [|done].
  destruct (decide (prev ≠ _)) as [|Hd]; [done|]. apply dec_stable in Hd as ->.
  apply cwp_bind. destruct (Envelope_digest env) as [d|] eqn:Hdig; [|done]. simpl.
  apply cwp_bind. eapply cwp_mono; [apply check_sig_thresholds_cwp| |done].
  intros [] (Hst & Hw & Hn).
  apply cwp_bind. eapply cwp_mono; [apply validate_msg_cwp| |done].
  intros op (Hop & Hfits & Hput).
  apply cwp_bind. eapply cwp_mono; [by apply validate_nested_cwp| |done].
  intros [] Hnested. simpl. split; try done. by destruct op.
Qed.

(** The judgement preserves what holds of versions. *)
Lemma op_apply_version_ok msg op ver' :
  version_ok ver → msg_ok msg → msg_op msg = Some op → op_rules_ok op →
  op_apply op ver = Some ver' → version_ok ver'.
Proof using.
  intros [Hsorted Hvals Hrules] Hmsg Hop Hok Happ.
  assert (∀ key n, value_ok (ns_value n) → rule_ok key (ns_value n) →
    version_ok (bt_insert key n ver)) as Hins.
  { intros key n Hv Hr. split; [by apply sorted_insert|..];
      (intros key' n'; destruct (decide (key = key')) as [<-|Hne];
       [rewrite bt_get_insert_eq; by intros [= <-]|rewrite bt_get_insert_ne by done; eauto]). }
  destruct msg as [init|set|set|amend|del]; simplify_eq/=.
  - by apply Hins.
  - simplify_option_eq. apply Hins; simpl; [|by eapply Hok]. eapply set_at_ok; [by eapply Hvals| |done].
    done.
  - simplify_option_eq. apply Hins; simpl; [|by eapply Hok]. eapply amend_at_ok; [by eapply Hvals|done..].
  - case_match; simplify_eq. split; [by apply sorted_remove|..];
      (intros key' n'; destruct (decide (dn_key del = key')) as [<-|Hne];
       [by rewrite bt_get_remove_eq|rewrite bt_get_remove_ne by done; eauto]).
Qed.
End judgement.

(** ** The ledger does what the judgement says *)

Section refinement.
Context `{Externals} {S E : Type} `{StorageSpec S E}.
Hypothesis Hid : ∀ k, is_Some (Key_id k).

(** A backend's failure, or an error of the program's own. *)
Definition is_storage_error (e : ApplyError E) : Prop := ∃ x, e = ApplyError_Storage x.

Lemma wp_agrees {A} (c : S → Comp (ApplyError E) A) p s (Q : A → S → Prop) X :
  agrees (c s) p → (∀ e, X (ApplyError_Storage e) s) →
  cwp p (λ a, Q a s) (λ e, X (lift_error e) s) → wp (m_ask c) s Q X.
Proof using.
  intros [Hc|[e Hc]] HX Hp; apply wp_ask; rewrite Hc; [|apply HX].
  by destruct p as [[a|e]| |].
Qed.

(** [apply] against [judge]: the refusals are the judgement's, whatever the
    backend; a favourable judgement is committed, exactly; and only a failure
    of the backend comes between. A refused or interrupted envelope leaves
    what the store holds as it was. *)
Lemma apply_refines self env s ver :
  storage_ok s → Envelope_digest env ≠ Ok (ledger_head self) →
  versions (view s) !! ledger_head self = Some ver →
  wp (apply self env) s
    (λ self' s', ∃ d op ver', judge self ver env = c_ok (d, op) ∧
      judged self ver env d op ∧ op_apply op ver = Some ver' ∧ self' = MkLedger d ∧
      storage_ok s' ∧ view s' = store_set_version d ver' (view s))
    (λ e s', storage_ok s' ∧ view s' = view s ∧
      (is_storage_error e ∨ ∃ e', judge self ver env = c_err e' ∧ e = lift_error e')).
Proof using Hid.
  intros Hs Hown Hver. pose proof (judge_cwp Hid self ver env) as Hj.
  unfold apply. unfold judge in *.
  assert (∀ e : E, is_storage_error (ApplyError_Storage e)) as Hse by (by eexists).
  apply wp_bind, wp_ask. destruct (Msg_prev_digest (payload env)) as [prev|]; simpl in *;
    [|split_and!; [done..|]; right; by eexists].
  case_decide; [simpl; split_and!; [done..|]; right; by eexists|].
  apply wp_bind. apply wp_ask. destruct (Envelope_digest env) as [d|err]; simpl in *;
    [|split_and!; [done..|]; right; by eexists].
  apply wp_bind. eapply wp_agrees; [by apply check_sig_thresholds_agrees|by auto|].
  destruct (check_sig_thresholds self ver env) as [[[]|err]| |]; simpl in *; try done;
    [|split_and!; [done..|]; right; by eexists].
  apply wp_bind. eapply wp_agrees; [by apply validate_msg_agrees|by auto|].
  destruct (validate_msg self ver (payload env)) as [[op|err]| |]; simpl in *; try done;
    [|split_and!; [done..|]; right; by eexists].
  apply wp_bind. eapply wp_agrees; [by apply validate_nested_agrees|by auto|].
  destruct (validate_nested self ver op) as [[[]|err]| |]; simpl in *; try done;
    [|split_and!; [done..|]; right; by eexists].
  destruct (jd_fits _ _ _ _ _ Hj) as [ver' Hver'].
  apply wp_bind, wp_map_err. eapply wp_mono; [eapply commit_spec; [done| |done|done]|..]; [congruence|..].
  - intros _ s' [Hs' Hv]. simpl. by exists d, op, ver'.
  - intros e s' [Hs' Hv]. simpl. split_and!; [done..|]. left. by eexists.
Qed.
End refinement.
