(* ===== verification/Fixtures.v ===== *)
(** * Concrete states for the witnesses

    A genesis, its children and the in-memory stores that hold them, built by
    running the program over the stand-in crates of [Toy]. *)

From S2P Require Import Prelude BTree Text Codec Externals Keys Subkey Msg Envelope Value.
From S2P Require Import Storage Mem Addr StateError Ledger LedgerSpec.

#[export] Existing Instance Toy.

Definition mk_key (s : string) : NamespaceKey :=
  match NamespaceKey_try_new (str s) with
  | Some k => k
  | None => dexist [0%N] (not_eq_sym (@nil_cons _ _ _))
  end.

Definition mk_path (l : list Subkey) : SubkeyPath :=
  match SubkeyPath_try_new l with
  | Some p => p
  | None => dexist [Subkey_Index 0] (not_eq_sym (@nil_cons _ _ _))
  end.

Definition key_a : NamespaceKey := mk_key "a".
Definition key_m : NamespaceKey := mk_key "m".
Definition key_weight : NamespaceKey := mk_key "_lotus_min_envelope_weight".
Definition key_trusted : NamespaceKey := mk_key "_lotus_trusted_keys".

(** A signer of weight 7 and its id. *)
Definition signer : Key := Key_new (PublicKey_Ed25519 (MkEd25519PublicKey (array_repeat 32 x05))) 7.

Definition signer_id : KeyId := default (MkKeyId (array_repeat 32 x00)) (Key_id signer).

Definition genesis : Envelope :=
  Envelope_new (Msg_Init (MkInitMsg (MkFullCheckpoint (bt_from_iter
    [(key_a, MkNamespace (Value_Int 5));
     (key_m, MkNamespace (Value_Map []));
     (key_weight, MkNamespace (Value_Int 0));
     (key_trusted, MkNamespace (Value_Map [(KeyId_to_hex signer_id, Value_Key signer)]))])))).

Definition digest_of (e : Envelope) : EnvelopeDigest :=
  match Envelope_digest e with Ok d => d | Err _ => MkEnvelopeDigest (array_repeat 32 x00) end.

Definition genesis_d : EnvelopeDigest := digest_of genesis.

(** An envelope setting [a], signed by [signer]. *)
Definition set_a (prev : EnvelopeDigest) (n : Z) : Envelope :=
  Envelope_new (Msg_SetNamespace (MkSetNamespace prev key_a (MkNamespace (Value_Int n)))).

Definition toy_sign (k : Key) (e : Envelope) : Envelope :=
  match public_key k, Envelope_signature_digest e with
  | PublicKey_Ed25519 pk, Ok d =>
      match array_try_from 64 (as_slice (ed25519_public_key pk) ++ as_slice (sig_digest_bytes d)) with
      | Some sig => with_signature e signer_id (Signature_Ed25519 (MkEd25519Signature sig))
      | None => e
      end
  | _, _ => e
  end.

Lemma digest_of_ok e d : Envelope_digest e = Ok d → digest_of e = d.
Proof. unfold digest_of. by intros ->. Qed.

(** Evaluated by [vm_compute] only. *)
#[global] Opaque genesis digest_of set_a toy_sign.

Definition empty_node : MemNode := MkMemNode MemStorage_default (λ _, MkStoredAt 0) 0.

(** The state and the value a computation leaves. *)
Definition state_of {S E A} (m : M S E A) (s : S) : S :=
  match m s with Ret (_, s') => s' | _ => s end.

Definition value_of {S E A} (m : M S E A) (s : S) : option A :=
  match m s with Ret (Ok a, _) => Some a | _ => None end.

(** The store after genesis. *)
Definition node_1 : MemNode := state_of (ledger_init genesis) empty_node.

Definition ledger_1 : Ledger := MkLedger genesis_d.

Definition version_1 : list (NamespaceKey * Namespace) :=
  default [] (versions (view node_1) !! genesis_d).

Lemma node_1_holds_genesis : versions (view node_1) !! genesis_d = Some version_1.
Proof.
  unfold version_1. destruct (versions (view node_1) !! genesis_d) as [v|] eqn:Hv; [done|].
  exfalso. revert Hv. assert (is_Some (versions (view node_1) !! genesis_d)) as [? ->]; [|done].
  refine (bool_decide_unpack _ _). vm_compute. exact I.
Qed.

Lemma toy_key_id_total (k : Key) : is_Some (Key_id k).
Proof. by eexists. Qed.

Lemma mem_ok_node_1 : storage_ok node_1.
Proof.
  change (mem_ok (mem node_1)).
  assert (size (mem_envelopes (mem node_1)) = 0) as He%map_size_empty_inv
    by (vm_compute; reflexivity).
  assert (size (mem_children (mem node_1)) = 0) as Hc%map_size_empty_inv
    by (vm_compute; reflexivity).
  destruct (mem node_1) as [v e c]; simpl in *. subst. exact (mem_ok_versions _ v mem_ok_default).
Qed.

Definition c_value {E A} (c : Comp E A) : option A :=
  match c with Ret (Ok a) => Some a | _ => None end.

(** A run that ends well ends in [state_of]. *)
Lemma run_ok {S E A} (m : M S E A) (s : S) :
  is_Some (value_of m s) → ∃ a, value_of m s = Some a ∧ m s = Ret (Ok a, state_of m s).
Proof.
  unfold value_of, state_of. destruct (m s) as [[[a|e] s']| |]; intros [? ?]; simplify_eq. by eexists.
Qed.

Lemma runs {S E A} (m : M S E A) (s : S) :
  is_Some (value_of m s) → ∃ a s', m s = Ret (Ok a, s').
Proof. intros (a & _ & Ha)%run_ok. by exists a, (state_of m s). Qed.

(** The same store on a node whose clock reads otherwise. *)
Definition node_late : MemNode := MkMemNode (mem node_1) (λ _, MkStoredAt 9) 0.

Lemma genesis_runs : ∃ l, ledger_init genesis empty_node = Ret (Ok l, node_1).
Proof.
  destruct (run_ok (ledger_init genesis) empty_node) as (l & _ & Hl); [by_computing|by exists l].
Qed.

Lemma genesis_msg_ok : msg_ok (payload genesis).
Proof.
  repeat constructor; try (apply value_ok_Map; split; repeat constructor); vm_compute; done.
Qed.

Lemma mem_ok_empty_node : storage_ok empty_node.
Proof. exact mem_ok_default. Qed.

Lemma mem_ok_node_late : storage_ok node_late.
Proof. exact mem_ok_node_1. Qed.

Lemma node_late_holds_genesis : versions (view node_late) !! genesis_d = Some version_1.
Proof. exact node_1_holds_genesis. Qed.
