(* ===== verification/LedgerProps.v ===== *)
(** * The ledger's properties

    What holds of every version a store reaches, what a verified status is
    worth, and the contract of [apply], [verify_envelope], [checkpoint] and
    [adopt] for every backend that keeps [StorageSpec]. *)

From S2P Require Import Prelude BTree Text Codec Externals Keys Subkey Msg Envelope Value.
From S2P Require Import Storage Mem Addr StateError Ledger LedgerSpec Fixtures.

(** Every version the store holds is well-formed and obeys the rules. *)
Definition store_ok `{Externals} (st : Store) : Prop :=
  ∀ h ver, versions st !! h = Some ver → version_ok ver.

(** What the Rust types guarantee of a checkpoint's values. *)
Definition checkpoint_ok (c : FullCheckpoint) : Prop :=
  Forall (λ kn, value_ok (ns_value kn.2)) (fc_namespaces c).

(** The program's steps over the state of a store, whatever their outcome. *)
Inductive ledger_step `{Externals} {S E : Type} `{StorageSpec S E} : S → S → Prop :=
  | step_init env r s s' :
      msg_ok (payload env) → ledger_init env s = Ret (r, s') → ledger_step s s'
  | step_adopt env c r s s' :
      checkpoint_ok c → ledger_adopt env c s = Ret (r, s') → ledger_step s s'
  | step_apply self env r s s' :
      msg_ok (payload env) → Envelope_digest env ≠ Ok (ledger_head self) →
      is_Some (versions (view s) !! ledger_head self) →
      apply self env s = Ret (r, s') → ledger_step s s'
  | step_retain keep r s s' :
      retain keep s = Ret (r, s') → ledger_step s s'
  | step_put d env r s s' :
      (∀ old, log (view s) !! d = Some old → prev_of old = prev_of env) →
      put_envelope d env s = Ret (r, s') → ledger_step s s'
  | step_remove d r s s' :
      remove_envelope d s = Ret (r, s') → ledger_step s s'.

(** ** Lemmas *)

Lemma wp_Ret {S E A} (m : M S E A) s Q X r s' :
  wp m s Q X → m s = Ret (r, s') → match r with Ok a => Q a s' | Err e => X e s' end.
Proof. unfold wp. intros Hwp Hm. rewrite Hm in Hwp. by destruct r. Qed.

Section lemmas.
Context `{Externals} {S E : Type} `{StorageSpec S E}.
Hypothesis Hid : ∀ k, is_Some (Key_id k).

Lemma c_traverse_Forall {E' A B} (f : A → Comp E' B) (P : A → Prop) l :
  (∀ a, cwp (f a) (λ _, P a) (λ _, True)) →
  cwp (c_traverse f l) (λ _, Forall P l) (λ _, True).
Proof using.
  intros Hf. induction l as [|a l IH]; simpl; [done|].
  apply cwp_bind. eapply cwp_mono; [apply Hf| |done]. intros b Ha.
  apply cwp_bind. eapply cwp_mono; [apply IH| |done]. intros r Hl. by constructor.
Qed.

Lemma validate_checkpoint_cwp (c : FullCheckpoint) :
  cwp (validate_checkpoint (E:=E) c)
    (λ _, Forall (λ kn, rule_ok kn.1 (ns_value kn.2)) (fc_namespaces c))
    (λ e, ¬ ∃ x, e = Error_Storage x).
Proof using Hid.
  unfold validate_checkpoint. apply cwp_bind, cwp_map_err.
  eapply cwp_mono; [apply (c_traverse_Forall _ (λ kn, rule_ok kn.1 (ns_value kn.2)))|done|].
  - intros kn. by apply validate_value_cwp.
  - by intros e _ [x ?].
Qed.

Lemma validate_checkpoint_passes (c : FullCheckpoint) :
  Forall (λ kn, rule_ok kn.1 (ns_value kn.2)) (fc_namespaces c) →
  validate_checkpoint (E:=E) c = c_ok ().
Proof using.
  intros Hc. unfold validate_checkpoint.
  assert (∃ r, c_traverse (λ kn, validate_value (E:=E) kn.1 (ns_value kn.2)) (fc_namespaces c)
    = c_ok r) as [r ->]; [|done].
  induction Hc as [|kn l Hkn Hl [r IH]]; simpl; [by eexists|].
  apply (validate_value_ok (E:=E)) in Hkn as ->. simpl. rewrite IH. by eexists.
Qed.

Lemma from_iter_version_ok (c : FullCheckpoint) :
  checkpoint_ok c → Forall (λ kn, rule_ok kn.1 (ns_value kn.2)) (fc_namespaces c) →
  version_ok (bt_from_iter (fc_namespaces c)).
Proof using.
  unfold checkpoint_ok. rewrite !Forall_forall. intros Hvals Hrules.
  split; [apply sorted_from_iter|..]; intros key n Hg%bt_from_iter_elem.
  - by apply (Hvals (key, n)).
  - by apply (Hrules (key, n)).
Qed.

(** Installing a checkpoint, at genesis or on adoption. *)
Lemma install_checkpoint_wp (env : Envelope) (c : FullCheckpoint) (s : S) :
  storage_ok s →
  wp (do! m_ask (λ _, validate_checkpoint c) in
      let! head := m_ask (λ _, c_wire_error (Envelope_digest env)) in
      do! m_map_err Error_Storage (install head (fc_namespaces c)) in
      m_ret (MkLedger head)) s
    (λ l s', storage_ok s' ∧ Envelope_digest env = Ok (ledger_head l) ∧
      Forall (λ kn, rule_ok kn.1 (ns_value kn.2)) (fc_namespaces c) ∧
      view s' = store_set_version (ledger_head l) (bt_from_iter (fc_namespaces c)) (view s))
    (λ _ s', storage_ok s' ∧ view s' = view s).
Proof using Hid.
  intros Hs. apply wp_bind, wp_ask. eapply cwp_mono; [apply validate_checkpoint_cwp|..|done].
  intros [] Hrules. apply wp_bind, wp_ask.
  destruct (Envelope_digest env) as [d|e] eqn:Hd; simpl; [|done].
  apply wp_bind, wp_map_err. eapply wp_mono; [by apply install_spec|..|done].
  intros _ s' [Hs' Hv]. done.
Qed.

Lemma ledger_init_wp (env : Envelope) (s : S) :
  storage_ok s →
  wp (ledger_init env) s
    (λ l s', storage_ok s' ∧ ∃ init, payload env = Msg_Init init ∧
      Envelope_digest env = Ok (ledger_head l) ∧
      Forall (λ kn, rule_ok kn.1 (ns_value kn.2)) (fc_namespaces (init_state init)) ∧
      view s' = store_set_version (ledger_head l)
        (bt_from_iter (fc_namespaces (init_state init))) (view s))
    (λ _ s', storage_ok s' ∧ view s' = view s).
Proof using Hid.
  intros Hs. unfold ledger_init. destruct (payload env) as [init| | | |]; try done.
  eapply wp_mono; [by apply install_checkpoint_wp| |done].
  intros l s' (? & ? & ? & ?). split; [done|]. by exists init.
Qed.

Lemma store_ok_set_version st h ver :
  store_ok st → version_ok ver → store_ok (store_set_version h ver st).
Proof using.
  intros Hst Hver h' ver' Hl. simpl in Hl. apply lookup_insert_Some in Hl as [[_ <-]|[_ ?]]; [done|by eapply Hst].
Qed.

Lemma ledger_step_ok (s s' : S) :
  ledger_step s s' → storage_ok s → store_ok (view s) → storage_ok s' ∧ store_ok (view s').
Proof using Hid.
  intros Hstep Hs Hst.
  destruct Hstep as [env r s s' Hm Hr|env c r s s' Hc Hr|self env r s s' Hm Hown [ver Hver] Hr
    |keep r s s' Hr|d env r s s' Hold Hr|d r s s' Hr].
  - pose proof (wp_Ret _ _ _ _ _ _ (ledger_init_wp env s Hs) Hr) as Hw. destruct r as [l|e].
    + destruct Hw as (Hs' & init & Hp & _ & Hrules & ->). rewrite Hp in Hm. split; [done|].
      by apply store_ok_set_version, from_iter_version_ok.
    + by destruct Hw as [Hs' ->].
  - pose proof (wp_Ret _ _ _ _ _ _ (install_checkpoint_wp env c s Hs) Hr) as Hw.
    destruct r as [l|e]; [|by destruct Hw as [Hs' ->]].
    destruct Hw as (Hs' & _ & Hrules & ->). split; [done|].
    by apply store_ok_set_version, from_iter_version_ok.
  - pose proof (wp_Ret _ _ _ _ _ _ (apply_refines Hid self env s ver Hs Hown Hver) Hr) as Hw.
    destruct r as [l|e]; [|by destruct Hw as (Hs' & -> & _)].
    destruct Hw as (d & op & ver' & _ & Hj & Happ & _ & Hs' & ->). split; [done|].
    apply store_ok_set_version; [done|].
    by eapply op_apply_version_ok; [by eapply Hst|done|apply (jd_op _ _ _ _ _ Hj)
      |apply (jd_rules _ _ _ _ _ Hj)|].
  - pose proof (wp_Ret _ _ _ _ _ _ (retain_spec s keep Hs) Hr) as Hw.
    assert (store_ok (store_retain keep (view s))) as Hkept
      by (intros h ver [Hv _]%map_lookup_filter_Some; by eapply Hst).
    destruct r as [l|e]; [by destruct Hw as [Hs' ->]|]. by destruct Hw as [Hs' [-> | ->]].
  - pose proof (wp_Ret _ _ _ _ _ _ (put_envelope_spec s d env Hs Hold) Hr) as Hw.
    by destruct r as [l|e]; destruct Hw as [Hs' ->].
  - pose proof (wp_Ret _ _ _ _ _ _ (remove_envelope_spec s d Hs) Hr) as Hw.
    by destruct r as [l|e]; destruct Hw as [Hs' ->].
Qed.
End lemmas.

(** ** Reads over a well-formed version *)

(** Decides the tests of [rule] between the reserved names. *)
Ltac decide_names :=
  repeat first
    [ rewrite decide_True by reflexivity
    | rewrite decide_False by (intros Hname; apply (f_equal (@length N)) in Hname; discriminate Hname) ].

Section reads.
Context `{Externals}.

Lemma rule_ok_threshold key value :
  NamespaceKey_as_ref key = MIN_ENVELOPE_WEIGHT_KEY ∨
  NamespaceKey_as_ref key = MIN_ENVELOPE_SIGNATURES_KEY →
  rule_ok key value → is_Some (parse_threshold value).
Proof.
  unfold rule_ok, rule. intros [Hk|Hk]; rewrite Hk; decide_names;
    (destruct (parse_threshold value); [by eexists|done]).
Qed.

Lemma rule_ok_trusted key value :
  NamespaceKey_as_ref key = TRUSTED_KEYS_KEY → rule_ok key value →
  ∃ keys, parse_trusted_keys value = c_ok keys.
Proof.
  unfold rule_ok, rule. intros Hk. rewrite Hk. decide_names.
  destruct (parse_trusted_keys value) as [[keys|e]| |]; try done. by exists keys.
Qed.

Lemma rule_ok_nodes key value :
  NamespaceKey_as_ref key = CLUSTER_NODES_KEY → rule_ok key value →
  ∃ nodes, parse_cluster_nodes value = Ok nodes.
Proof.
  unfold rule_ok, rule. intros Hk. rewrite Hk. decide_names.
  destruct (parse_cluster_nodes value) as [nodes|e]; [|done]. by exists nodes.
Qed.

Context {S E : Type} `{StorageSpec S E}.
Variables (self : Ledger) (s : S) (ver : list (NamespaceKey * Namespace)).
Hypothesis Hs : storage_ok s.
Hypothesis Hver : versions (view s) !! ledger_head self = Some ver.

(** A read of a reserved namespace: its parse is judged by the same parser
    the rule judged the write by. *)
Lemma threshold_reads name reason :
  name = MIN_ENVELOPE_WEIGHT_KEY ∨ name = MIN_ENVELOPE_SIGNATURES_KEY → version_ok ver →
  cwp (threshold self s name reason) (λ n, n = in_force name ver)
    (λ e, ∃ x, e = ApplyError_Storage x).
Proof using Hs Hver.
  intros Hname [_ _ Hrules]. assert (name ≠ []) as Hn by (by intros ->; destruct Hname).
  destruct (NamespaceKey_try_new_Some name Hn) as (key & Hk & Hkn).
  unfold threshold, reserved_key, in_force. rewrite Hk. simpl.
  apply cwp_bind, cwp_map_err. eapply cwp_mono; [by eapply namespace_spec| |by eexists].
  intros r ->. destruct (bt_get ver key) as [n|] eqn:Hg; [|done].
  apply cwp_ok_or. destruct (rule_ok_threshold key (ns_value n)) as [t ->]; [|by eauto|done].
  rewrite Hkn. by destruct Hname; [left|right].
Qed.

Lemma trusted_keys_reads :
  version_ok ver →
  cwp (trusted_keys self s) (λ keys, keys = trusted ver) (λ e, ∃ x, e = ApplyError_Storage x).
Proof using Hs Hver.
  intros [_ _ Hrules].
  destruct (NamespaceKey_try_new_Some TRUSTED_KEYS_KEY ltac:(done)) as (key & Hk & Hkn).
  unfold trusted_keys, reserved_key, trusted. rewrite Hk. simpl.
  apply cwp_bind, cwp_map_err. eapply cwp_mono; [by eapply namespace_spec| |by eexists].
  intros r ->. destruct (bt_get ver key) as [n|] eqn:Hg; [|done].
  destruct (rule_ok_trusted key (ns_value n)) as [keys Hkeys]; [done|by eauto|].
  by rewrite Hkeys.
Qed.

Lemma peer_addresses_reads :
  version_ok ver →
  cwp (peer_addresses self s) (λ _, True) (λ e, ∃ x, e = ApplyError_Storage x).
Proof using Hs Hver.
  intros [_ _ Hrules].
  destruct (NamespaceKey_try_new_Some CLUSTER_NODES_KEY ltac:(done)) as (key & Hk & Hkn).
  unfold peer_addresses, reserved_key. rewrite Hk. simpl.
  apply cwp_bind, cwp_map_err. eapply cwp_mono; [by eapply namespace_spec| |by eexists].
  intros r ->. destruct (bt_get ver key) as [n|] eqn:Hg; [|done].
  destruct (rule_ok_nodes key (ns_value n)) as [nodes ->]; [done|by eauto|done].
Qed.
End reads.

(** ** Signatures *)

Section signatures.
Context `{Externals}.

Lemma filter_nil_all {A} (f : A → bool) (l : list A) :
  base.filter (λ x, Is_true (negb (f x))) l = [] ↔ ∀ x, x ∈ l → f x.
Proof.
  induction l as [|a l IH]; [by split; [set_solver|]|]. rewrite filter_cons.
  destruct (f a) eqn:Hf; simpl.
  - rewrite IH. split; [|set_solver]. intros Hall x [->|?]%elem_of_cons; [by rewrite Hf|auto].
  - split; [done|]. intros Hall. specialize (Hall a). rewrite Hf in Hall. by destruct Hall; left.
Qed.

(** The answer of [verify_envelope], past its reads. *)
Lemma verify_envelope_wp {S E : Type} `{StorageSpec S E} (self : Ledger) (s : S) ver env :
  storage_ok s → versions (view s) !! ledger_head self = Some ver → version_ok ver →
  cwp (verify_envelope self s env)
    (λ status, ∃ d, (Envelope_signature_digest env = Ok d ∨ signatures env = []) ∧
      match status with
      | Unchecked => False
      | AllMatched w =>
          (∀ x, x ∈ signatures env → signature_matches (trusted ver) d x) ∧
          w = N.min u32_max (signed_weight (trusted ver) (signatures env))
      | Failed ids =>
          ids ≠ ∅ ∧ ∀ k, k ∈ ids ↔
            ∃ sig, (k, sig) ∈ signatures env ∧ ¬ signature_matches (trusted ver) d (k, sig)
      end)
    (λ _, True).
Proof.
  intros Hs Hver Hok. unfold verify_envelope. apply cwp_bind.
  eapply (cwp_mono _ (λ _, True) _ (λ _, True)); [| |done].
  { destruct (Msg_prev_digest (payload env)); [done|]. by destruct (Envelope_digest env). }
  intros parent _. case_decide; [done|].
  destruct (signatures env) as [|x l] eqn:Hsigs.
  { simpl. exists (MkEnvelopeSignatureDigest (array_repeat 32 x00)). split; [by right|].
    split; [set_solver|]. done. }
  rewrite <-Hsigs. apply cwp_bind.
  eapply cwp_mono; [by apply (trusted_keys_reads self s ver)| |done]. intros keys ->.
  apply cwp_bind. destruct (Envelope_signature_digest env) as [d|e] eqn:Hd; simpl; [|done].
  destruct (base.filter _ (signatures env)) as [|y l'] eqn:Hf;
    unfold c_ok, cwp; exists d; (split; [by left|]).
  - split; [by apply filter_nil_all|]. unfold u32_try_from_u64. case_decide; simpl; lia.
  - split; [simpl; set_solver|]. intros k. rewrite <-Hf, elem_of_list_to_set, list_elem_of_fmap.
    split.
    + intros ([k' sig] & -> & [Hneg Hin]%list_elem_of_filter). exists sig. split; [done|].
      simpl. by apply negb_True.
    + intros (sig & Hin & Hneg). exists (k, sig). split; [done|]. apply list_elem_of_filter.
      split; [by apply negb_True|done].
Qed.
End signatures.

(** ** The fixtures are reachable *)

Lemma genesis_step : ledger_step empty_node node_1.
Proof. destruct genesis_runs as [l Hl]. exact (step_init genesis _ _ _ genesis_msg_ok Hl). Qed.

Lemma version_1_ok : version_ok version_1.
Proof.
  destruct (ledger_step_ok toy_key_id_total _ _ genesis_step mem_ok_empty_node) as [_ Hst].
  - intros h ver Hl. by apply (lookup_empty_Some h ver) in Hl.
  - exact (Hst _ _ node_1_holds_genesis).
Qed.

Lemma set_a_not_own_parent : Envelope_digest (set_a genesis_d 9) ≠ Ok (ledger_head ledger_1).
Proof.
  assert ((match Envelope_digest (set_a genesis_d 9) with
           | Ok d => bool_decide (d ≠ ledger_head ledger_1) | Err _ => true end) = true) as Hne
    by (vm_compute; reflexivity).
  intros Hd. rewrite Hd in Hne. apply bool_decide_eq_true in Hne. exact (Hne eq_refl).
Qed.

(** ** Properties *)

(** C4: [apply] over any backend that keeps its promise never panics. When it
    succeeds, the envelope chained onto the head, carried no failed signature
    and cleared both thresholds in force at its parent, and the store gained
    exactly one version: the message's operation applied to the parent's
    version, at the envelope's digest, where the ledger now stands. When it
    refuses, for whatever reason, what the store holds is untouched. *)
Theorem apply_contract `{Externals} {S E : Type} `{StorageSpec S E}
    (self : Ledger) (env : Envelope) (s : S) ver :
  (∀ k, is_Some (Key_id k)) → Envelope_digest env ≠ Ok (ledger_head self) →
  storage_ok s → versions (view s) !! ledger_head self = Some ver →
  wp (apply self env) s
    (λ self' s', storage_ok s' ∧
      prev_of env = Some (ledger_head self) ∧ Envelope_digest env = Ok (ledger_head self') ∧
      (∀ ids, verification_status env ≠ Failed ids) ∧
      (in_force MIN_ENVELOPE_WEIGHT_KEY ver ≤ signature_weight (verification_status env))%N ∧
      (in_force MIN_ENVELOPE_SIGNATURES_KEY ver ≤ verified_signers env)%N ∧
      ∃ op ver', msg_op (payload env) = Some op ∧ op_apply op ver = Some ver' ∧
        view s' = store_set_version (ledger_head self') ver' (view s))
    (λ _ s', storage_ok s' ∧ view s' = view s).
Proof.
  intros Hid Hown Hs Hver. eapply wp_mono; [by apply (apply_refines Hid self env s ver)|..].
  - intros self' s' (d & op & ver' & _ & [] & Happ & -> & Hs' & Hv).
    split_and!; try done. by exists op, ver'.
  - by intros e s' (Hs' & Hv & _).
Qed.

Lemma apply_contract_witness :
  wp (apply ledger_1 (set_a genesis_d 9)) node_1 (λ self' s',
    storage_ok s' ∧
    prev_of (set_a genesis_d 9) = Some genesis_d ∧
    Envelope_digest (set_a genesis_d 9) = Ok (ledger_head self') ∧
    (∀ ids, Unchecked ≠ Failed ids) ∧
    (in_force MIN_ENVELOPE_WEIGHT_KEY version_1 ≤ 0)%N ∧
    (in_force MIN_ENVELOPE_SIGNATURES_KEY version_1 ≤ 0)%N ∧
    ∃ op ver', msg_op (payload (set_a genesis_d 9)) = Some op ∧
      op_apply op version_1 = Some ver' ∧
      view s' = store_set_version (ledger_head self') ver' (view node_1))
    (λ _ s', storage_ok s' ∧ view s' = view node_1).
Proof.
  apply (apply_contract ledger_1 (set_a genesis_d 9) node_1 version_1).
  - apply toy_key_id_total.
  - exact set_a_not_own_parent.
  - apply mem_ok_node_1.
  - apply node_1_holds_genesis.
Defined.

(** C5: deciding is the ledger's and storing the backend's: two stores that hold
    the same version at a head, whatever their backends, answer [apply] alike —
    the same new head over the same new version, or the same refusal — unless a
    backend itself fails. *)
Theorem backends_agree `{Externals} {S1 E1 S2 E2 : Type} `{StorageSpec S1 E1} `{StorageSpec S2 E2}
    (self : Ledger) (env : Envelope) (s1 s1' : S1) (s2 s2' : S2) ver
    (r1 : Result (ApplyError E1) Ledger) (r2 : Result (ApplyError E2) Ledger) :
  (∀ k, is_Some (Key_id k)) → Envelope_digest env ≠ Ok (ledger_head self) →
  storage_ok s1 → storage_ok s2 →
  versions (view s1) !! ledger_head self = Some ver →
  versions (view s2) !! ledger_head self = Some ver →
  apply self env s1 = Ret (r1, s1') → apply self env s2 = Ret (r2, s2') →
  (∀ x, r1 ≠ Err (ApplyError_Storage x)) → (∀ x, r2 ≠ Err (ApplyError_Storage x)) →
  match r1, r2 with
  | Ok l1, Ok l2 =>
      l1 = l2 ∧ is_Some (versions (view s1') !! ledger_head l1) ∧
      versions (view s1') !! ledger_head l1 = versions (view s2') !! ledger_head l1
  | Err e1, Err e2 => ∃ e, e1 = lift_error e ∧ e2 = lift_error e
  | _, _ => False
  end.
Proof.
  intros Hid Hown Hs1 Hs2 Hv1 Hv2 Hr1 Hr2 Hn1 Hn2.
  pose proof (wp_Ret _ _ _ _ _ _ (apply_refines Hid self env s1 ver Hs1 Hown Hv1) Hr1) as Hw1.
  pose proof (wp_Ret _ _ _ _ _ _ (apply_refines Hid self env s2 ver Hs2 Hown Hv2) Hr2) as Hw2.
  destruct r1 as [l1|e1], r2 as [l2|e2]; simpl in *.
  - destruct Hw1 as (d & op & ver1 & Hj1 & _ & Happ1 & -> & _ & Hview1).
    destruct Hw2 as (d' & op' & ver2 & Hj2 & _ & Happ2 & -> & _ & Hview2).
    rewrite Hj1 in Hj2. simplify_eq. rewrite Hview1, Hview2. simpl.
    rewrite !lookup_insert_eq. by eauto.
  - destruct Hw1 as (d & op & ver1 & Hj1 & _). destruct Hw2 as (_ & _ & [[x ->]|(e & Hj2 & _)]).
    + by destruct (Hn2 x).
    + by rewrite Hj1 in Hj2.
  - destruct Hw2 as (d & op & ver1 & Hj1 & _). destruct Hw1 as (_ & _ & [[x ->]|(e & Hj2 & _)]).
    + by destruct (Hn1 x).
    + by rewrite Hj1 in Hj2.
  - destruct Hw1 as (_ & _ & [[x ->]|(e & Hj1 & ->)]); [by destruct (Hn1 x)|].
    destruct Hw2 as (_ & _ & [[x ->]|(e' & Hj2 & ->)]); [by destruct (Hn2 x)|].
    rewrite Hj1 in Hj2. simplify_eq. by exists e'.
Qed.

Lemma backends_agree_witness :
  ∃ l1 s1' l2 s2', apply ledger_1 (set_a genesis_d 9) node_1 = Ret (Ok l1, s1') ∧
    apply ledger_1 (set_a genesis_d 9) node_late = Ret (Ok l2, s2') ∧
    l1 = l2 ∧ is_Some (versions (view s1') !! ledger_head l1) ∧
    versions (view s1') !! ledger_head l1 = versions (view s2') !! ledger_head l1.
Proof.
  destruct (runs (apply ledger_1 (set_a genesis_d 9)) node_1) as (l1 & s1' & H1); [by_computing|].
  destruct (runs (apply ledger_1 (set_a genesis_d 9)) node_late) as (l2 & s2' & H2); [by_computing|].
  exists l1, s1', l2, s2'. split; [exact H1|]. split; [exact H2|].
  apply (backends_agree ledger_1 (set_a genesis_d 9) node_1 s1' node_late s2' version_1
    (Ok l1) (Ok l2) toy_key_id_total set_a_not_own_parent mem_ok_node_1 mem_ok_node_late node_1_holds_genesis
    node_late_holds_genesis H1 H2); done.
Defined.

(** C6: whatever sequence of openings, adoptions, applications, log writes and
    prunings a store goes through, and however each ends, every version it
    holds is sorted, holds only values the Rust types admit, and obeys the
    rules of the reserved namespaces. *)
Theorem reachable_versions_obey_rules `{Externals} {S E : Type} `{StorageSpec S E} (s s' : S) :
  (∀ k, is_Some (Key_id k)) →
  storage_ok s → versions (view s) = ∅ → rtc ledger_step s s' →
  storage_ok s' ∧ ∀ h ver, versions (view s') !! h = Some ver → version_ok ver.
Proof.
  intros Hid Hs Hempty Hrun.
  assert (store_ok (view s)) as Hst by (intros h ver; by rewrite Hempty, lookup_empty).
  clear Hempty. induction Hrun as [s|s s1 s' Hstep Hrun IH]; [by split|].
  destruct (ledger_step_ok Hid s s1 Hstep Hs Hst) as [Hs1 Hst1]. by apply IH.
Qed.

Lemma reachable_versions_obey_rules_witness :
  rtc ledger_step empty_node node_1 ∧
  storage_ok node_1 ∧ ∀ h ver, versions (view node_1) !! h = Some ver → version_ok ver.
Proof.
  assert (rtc ledger_step empty_node node_1) as Hrun by exact (rtc_once _ _ genesis_step).
  split; [exact Hrun|].
  exact (reachable_versions_obey_rules empty_node node_1 toy_key_id_total mem_ok_empty_node
    eq_refl Hrun).
Defined.

(** C17: on a well-formed version the configuration always reads: the thresholds
    and the trusted key set are the ones the version holds, the peer addresses
    parse, and nothing but a failure of the backend is ever an error. *)
Theorem config_reads_total `{Externals} {S E : Type} `{StorageSpec S E}
    (self : Ledger) (s : S) ver :
  storage_ok s → versions (view s) !! ledger_head self = Some ver → version_ok ver →
  let only_storage := λ e : ApplyError E, ∃ x, e = ApplyError_Storage x in
  cwp (min_envelope_weight self s) (λ n, n = in_force MIN_ENVELOPE_WEIGHT_KEY ver) only_storage ∧
  cwp (min_envelope_signatures self s)
    (λ n, n = in_force MIN_ENVELOPE_SIGNATURES_KEY ver) only_storage ∧
  cwp (trusted_keys self s) (λ keys, keys = trusted ver) only_storage ∧
  cwp (peer_addresses self s) (λ _, True) only_storage ∧
  cwp (ledger_min_keep_minutes self s) (λ n, (0 < n ≤ u32_max)%N) (λ _, True).
Proof.
  intros Hs Hver Hok only_storage. split_and!.
  - apply (threshold_reads self s ver Hs Hver); [by left|done].
  - apply (threshold_reads self s ver Hs Hver); [by right|done].
  - by apply (trusted_keys_reads self s ver Hs Hver).
  - by apply (peer_addresses_reads self s ver Hs Hver).
  - destruct (NamespaceKey_try_new_Some MIN_KEEP_MINUTES_KEY ltac:(done)) as (key & Hk & _).
    unfold ledger_min_keep_minutes, reserved_key. rewrite Hk. simpl.
    apply cwp_bind. eapply cwp_mono; [by eapply namespace_spec| |done].
    intros r ->. simpl. destruct (bt_get ver key) as [n|]; simpl; [|done].
    destruct (parse_min_keep (ns_value n)) as [m|] eqn:Hm; simpl; [|done].
    destruct (ns_value n) as [|z| | | |]; simplify_eq/=. unfold u32_try_from_i64 in Hm.
    case_decide; simplify_eq/=. destruct (0 <? Z.to_N z)%N eqn:Hz; simplify_eq. apply N.ltb_lt in Hz. unfold u32_max in *. lia.
Qed.

Lemma config_reads_total_witness :
  bool_decide (trusted version_1 = [(signer_id, signer)]) = true ∧
  cwp (trusted_keys ledger_1 node_1) (λ keys, keys = trusted version_1)
    (λ e, ∃ x, e = ApplyError_Storage x).
Proof.
  split; [vm_compute; reflexivity|].
  exact (proj1 (proj2 (proj2 (config_reads_total ledger_1 node_1 version_1 mem_ok_node_1
    node_1_holds_genesis version_1_ok)))).
Defined.

(** C16: a verified status is worth what it says. [AllMatched w]: every signature
    the envelope carries verifies under the trusted key it names, over the
    digest of the signed portion, and [w] is those keys' total weight, held at
    [u32::MAX]. [Failed ids]: [ids] are exactly the signers, at least one,
    whose signature names no trusted key or does not verify. [Unchecked] is
    never an answer. *)
Theorem verify_envelope_sound `{Externals} {S E : Type} `{StorageSpec S E}
    (self : Ledger) (s : S) ver env status :
  storage_ok s → versions (view s) !! ledger_head self = Some ver → version_ok ver →
  verify_envelope self s env = Ret (Ok status) →
  ∃ d, (Envelope_signature_digest env = Ok d ∨ signatures env = []) ∧
    match status with
    | Unchecked => False
    | AllMatched w =>
        (∀ id sig, (id, sig) ∈ signatures env →
          ∃ key, bt_get (trusted ver) id = Some key ∧ Key_verify key sig d) ∧
        w = N.min u32_max (signed_weight (trusted ver) (signatures env))
    | Failed ids =>
        ids ≠ ∅ ∧ ∀ id, id ∈ ids ↔ ∃ sig, (id, sig) ∈ signatures env ∧
          ∀ key, bt_get (trusted ver) id = Some key → ¬ Key_verify key sig d
    end.
Proof.
  intros Hs Hver Hok Hv. pose proof (verify_envelope_wp self s ver env Hs Hver Hok) as Hw.
  rewrite Hv in Hw. destruct Hw as (d & Hd & Hst). exists d. split; [done|].
  unfold signature_matches in Hst. destruct status as [|ids|w]; [done|..].
  - destruct Hst as [Hne Hids]. split; [done|]. intros id. rewrite Hids.
    apply exist_proper. intros sig. apply and_iff_compat_l. simpl.
    destruct (bt_get (trusted ver) id) as [key|]; naive_solver.
  - destruct Hst as [Hall Hw]. split; [|done]. intros id sig Hin. specialize (Hall _ Hin).
    simpl in Hall. destruct (bt_get (trusted ver) id) as [key|]; [by exists key|done].
Qed.

Lemma verify_envelope_sound_witness :
  let env := toy_sign signer (set_a genesis_d 9) in
  verify_envelope ledger_1 node_1 env = Ret (Ok (AllMatched 7)) ∧
  ∃ d, (Envelope_signature_digest env = Ok d ∨ signatures env = []) ∧
    (∀ id sig, (id, sig) ∈ signatures env →
      ∃ key, bt_get (trusted version_1) id = Some key ∧ Key_verify key sig d) ∧
    7%N = N.min u32_max (signed_weight (trusted version_1) (signatures env)).
Proof.
  intros env.
  assert (verify_envelope ledger_1 node_1 env = Ret (Ok (AllMatched 7))) as Hv.
  { assert (signature_weight <$> c_value (verify_envelope ledger_1 node_1 env) = Some 7%N) as Hw
      by (vm_compute; reflexivity).
    destruct (verify_envelope ledger_1 node_1 env) as [[[|ids|w]|e]| |]; simpl in Hw; congruence. }
  split; [exact Hv|].
  exact (verify_envelope_sound ledger_1 node_1 version_1 env (AllMatched 7) mem_ok_node_1
    node_1_holds_genesis version_1_ok Hv).
Defined.

(** C35: a checkpoint carries the whole state: a ledger adopted from it, in any
    store, stands on the very version the checkpoint was taken at — no rule
    refuses it, and only the envelope's encoding or the backend can fail. *)
Theorem adopt_restores_checkpoint `{Externals} {S1 E1 S2 E2 : Type} `{StorageSpec S1 E1}
    `{StorageSpec S2 E2} (self : Ledger) (env : Envelope) (s1 : S1) (s2 : S2) ver c d :
  storage_ok s1 → storage_ok s2 →
  versions (view s1) !! ledger_head self = Some ver → version_ok ver →
  ledger_checkpoint self s1 = Ret (Ok c) → Envelope_digest env = Ok d →
  wp (ledger_adopt env c) s2
    (λ self' s2', self' = MkLedger d ∧ storage_ok s2' ∧
      view s2' = store_set_version d ver (view s2))
    (λ e s2', (∃ x, e = Error_Storage x) ∧ view s2' = view s2).
Proof.
  intros Hs1 Hs2 Hver Hok Hc Hd.
  assert (c = MkFullCheckpoint ver) as ->.
  { pose proof (namespaces_vec_spec s1 _ _ Hs1 Hver) as Hn. unfold ledger_checkpoint in Hc.
    destruct (namespaces_vec _ _) as [[l|e]| |]; try done. simpl in Hn, Hc. subst l.
    injection Hc as <-. f_equal. apply bt_from_iter_sorted, (ver_sorted _ Hok). }
  unfold ledger_adopt. apply wp_bind, wp_ask.
  rewrite (validate_checkpoint_passes (MkFullCheckpoint ver)).
  2: { apply Forall_forall. intros [key n] Hin. simpl.
       eapply ver_rules; [done|]. apply bt_sorted_elem_get; [apply (ver_sorted _ Hok)|done]. }
  simpl. apply wp_bind, wp_ask. rewrite Hd. simpl. apply wp_bind, wp_map_err.
  eapply wp_mono; [by apply install_spec|..].
  - intros _ s2' [Hs2' Hv]. simpl in *. by rewrite bt_from_iter_sorted in Hv by apply (ver_sorted _ Hok).
  - intros e s2' [_ Hv]. split; [by eexists|done].
Qed.

Lemma adopt_restores_checkpoint_witness :
  wp (ledger_adopt (set_a genesis_d 9) (MkFullCheckpoint version_1)) empty_node
    (λ self' s', self' = MkLedger (digest_of (set_a genesis_d 9)) ∧ storage_ok s' ∧
      view s' = store_set_version (digest_of (set_a genesis_d 9)) version_1 (view empty_node))
    (λ e s', (∃ x, e = Error_Storage x) ∧ view s' = view empty_node).
Proof.
  apply (adopt_restores_checkpoint ledger_1 (set_a genesis_d 9) node_1 empty_node version_1
    (MkFullCheckpoint version_1) _ mem_ok_node_1 mem_ok_empty_node node_1_holds_genesis version_1_ok);
    [|reflexivity].
  unfold ledger_checkpoint, namespaces_vec, namespaces, MemNode_Storage, mem_namespaces, mem_version.
  change (mem_versions (mem node_1)) with (versions (view node_1)).
  change (ledger_head ledger_1) with genesis_d. rewrite node_1_holds_genesis, collect_Ok. simpl.
  by rewrite bt_from_iter_sorted by apply (ver_sorted _ version_1_ok).
Defined.
