(* ===== verification/Chain.v ===== *)
(** * Fork resolution: [crates/state/src/chain.rs]

    A [Chain] is a cursor over the envelopes a store's log holds: the root it
    grew from and the ledger at the canonical head. The methods that take
    [&mut self] and [&mut S] run over the pair of both, so a chain that moved
    before an error is seen to have moved. Each [while] loop runs on [fuel];
    [ChainSpec.v] bounds what it needs by the size of the log. *)

From S2P Require Import Prelude BTree Text Codec Externals Keys Subkey Msg Envelope Value Storage.
From S2P Require Import Addr StateError Ledger.

Record Chain := MkChain { chain_root : EnvelopeDigest; chain_ledger : Ledger }.

Definition chain_head (self : Chain) : EnvelopeDigest := ledger_head (chain_ledger self).

(** What an insert did to the canonical head. *)
Inductive Insert : Type :=
  | Insert_Extended
  | Insert_Reorged (from : EnvelopeDigest)
  | Insert_Unchanged
  | Insert_Duplicate.

(** The fuel of a loop ran out: no outcome of the program's. *)
Definition m_diverge {S E A} : M S E A := λ _, Diverge.

(** A computation on one half of the state. *)
Definition on_snd {C S E A} (m : M S E A) : M (C * S) E A := λ cs,
  match m cs.2 with
  | Ret (r, s') => Ret (r, (cs.1, s'))
  | Panic => Panic
  | Diverge => Diverge
  end.

Definition get_fst {C S E} : M (C * S) E C := λ cs, Ret (Ok cs.1, cs).

Definition put_fst {C S E} (c : C) : M (C * S) E () := λ cs, Ret (Ok (), (c, cs.2)).

Section chain.
Context `{Externals} {S E : Type} `{Storage S E}.

(** A read of the store, its failure the crate's [Error::Storage]. *)
Definition read {A} (f : S → Comp E A) : M S (Error E) A :=
  m_ask (λ s, c_map_err Error_Storage (f s)).

Definition write {A} (m : M S E A) : M S (Error E) A := m_map_err Error_Storage m.

(** ** Walking the log *)

(** The loop of [descends], from [cursor]. *)
Fixpoint descends_loop (fuel : nat) (storage : S) (cursor : option EnvelopeDigest)
    (ancestor : EnvelopeDigest) : Comp (Error E) bool :=
  match cursor with
  | None => c_ok false
  | Some current =>
      match fuel with
      | 0 => Diverge
      | Datatypes.S fuel =>
          if decide (current = ancestor) then c_ok true
          else
            let? entry := c_map_err Error_Storage (envelope storage current) in
            descends_loop fuel storage (entry ≫= prev_of) ancestor
      end
  end.

Definition descends (fuel : nat) (storage : S) (digest ancestor : EnvelopeDigest)
    : Comp (Error E) bool :=
  descends_loop fuel storage (Some digest) ancestor.

(** The loop of [remove_subtree] over its stack, the top first. *)
Fixpoint remove_loop (fuel : nat) (stack : list (EnvelopeDigest * bool)) (removed : N)
    : M S (Error E) N :=
  match stack with
  | [] => m_ret removed
  | (at_, expanded) :: rest =>
      match fuel with
      | 0 => m_diverge
      | Datatypes.S fuel =>
          if expanded : bool then
            do! write (remove_envelope at_) in
            remove_loop fuel rest (removed + 1)
          else
            let! children := read (λ s, children_vec s at_) in
            remove_loop fuel (reverse ((λ c, (c, false)) <$> children) ++ (at_, true) :: rest) removed
      end
  end.

Definition remove_subtree (fuel : nat) (root : EnvelopeDigest) : M S (Error E) N :=
  remove_loop fuel [(root, false)] 0.

(** ** The canonical walk *)

(** One candidate of a fork: its weight, its digest and itself. *)
Definition candidate (s : S) (child : EnvelopeDigest)
    : Comp (Error E) (N * EnvelopeDigest * Envelope) :=
  let? env := c_map_err Error_Storage (envelope s child) in
  let? envelope := c_expect env in
  c_ok (signature_weight (verification_status envelope), child, envelope).

Definition step (ledger : Ledger) : M S (Error E) (option Ledger) :=
  let! children := read (λ s, children_vec s (ledger_head ledger)) in
  let! candidates := m_ask (λ s, c_traverse (candidate s) children) in
  match max_by_key (λ c : N * EnvelopeDigest * Envelope, (c.1.1, c.1.2)) candidates with
  | None => m_ret None
  | Some (_, child, envelope) =>
      let! held := read (λ s, contains_version s child) in
      if held : bool then
        let! opened := m_ask (λ s, ledger_open s child) in
        m_ret (Some opened)
      else
        let! result := m_catch (apply ledger envelope) in
        match result with
        | Ok moved => m_ret (Some moved)
        | Err (ApplyError_Storage err) => m_err (Error_Storage err)
        | Err err =>
            do! write (remove_envelope child) in
            m_err (Error_Apply err)
        end
  end.

Fixpoint canonicalize_loop (fuel : nat) (ledger : Ledger) : M S (Error E) Ledger :=
  match fuel with
  | 0 => m_diverge
  | Datatypes.S fuel =>
      let! next := step ledger in
      match next with
      | Some next => canonicalize_loop fuel next
      | None => m_ret ledger
      end
  end.

Definition canonicalize (fuel : nat) (root : EnvelopeDigest) : M S (Error E) Ledger :=
  let! ledger := m_ask (λ s, ledger_open s root) in
  canonicalize_loop fuel ledger.

(** ** Opening *)

Definition chain_init (envelope : Envelope) : M S (Error E) Chain :=
  let! ledger := ledger_init envelope in
  let root := ledger_head ledger in
  let! status :=
    m_ask (λ s, c_map_err Error_Apply (verify_envelope ledger s envelope)) in
  do! write (put_envelope root (set_verification_status envelope status)) in
  m_ret (MkChain root ledger).

Definition chain_open (fuel : nat) (root : EnvelopeDigest) : M S (Error E) Chain :=
  let! logged := read (λ s, envelope s root) in
  do! m_ask (λ _, c_ok_or (Error_UnknownHead root) logged) in
  do! m_ask (λ s, ledger_open s root) in
  let! ledger := canonicalize fuel root in
  m_ret (MkChain root ledger).

Definition chain_adopt (envelope : Envelope) (state : FullCheckpoint) : M S (Error E) Chain :=
  match payload envelope with
  | Msg_Init _ => m_err (Error_Apply ApplyError_UnexpectedInit)
  | _ =>
      let! ledger := ledger_adopt envelope state in
      let root := ledger_head ledger in
      do! write (put_envelope root envelope) in
      m_ret (MkChain root ledger)
  end.

(** ** Inserting *)

(** The ledger standing at [prev]: the run's own, or one the store holds. *)
Definition trial_parent (trial : option Ledger) (prev : EnvelopeDigest)
    : M S (Error E) (option Ledger) :=
  match trial with
  | Some ledger => m_ret (Some ledger)
  | None =>
      let! held := read (λ s, contains_version s prev) in
      if held : bool then
        let! ledger := m_ask (λ s, ledger_open s prev) in m_ret (Some ledger)
      else m_ret None
  end.

(** The envelope with the status its parent's ledger gives it, where it is
    new and there is one. *)
Definition verified_at (stored : bool) (parent : option Ledger) (envelope : Envelope)
    : M S (Error E) Envelope :=
  match stored, parent with
  | false, Some parent =>
      let! status :=
        m_ask (λ s, c_map_err Error_Apply (verify_envelope parent s envelope)) in
      m_ret (set_verification_status envelope status)
  | _, _ => m_ret envelope
  end.

(** One envelope of a run whose parent is [prev]: the trial ledger it leaves. *)
Definition store_one (trial : option Ledger) (prev digest : EnvelopeDigest) (stored : bool)
    (envelope : Envelope) : M S (Error E) (option Ledger) :=
  let! parent := trial_parent trial prev in
  let! envelope := verified_at stored parent envelope in
  let! held := read (λ s, contains_version s digest) in
  if held : bool then
    do! (match stored, parent with
         | false, Some _ => write (put_envelope digest envelope)
         | _, _ => m_ret ()
         end) in
    let! ledger := m_ask (λ s, ledger_open s digest) in
    m_ret (Some ledger)
  else
    match parent with
    | None => if stored then m_ret None else m_err (Error_UnknownParent prev)
    | Some ledger =>
        let! result := m_catch (apply ledger envelope) in
        match result with
        | Ok moved =>
            do! (if stored then m_ret () else write (put_envelope digest envelope)) in
            m_ret (Some moved)
        | Err (ApplyError_Storage err) => m_err (Error_Storage err)
        | Err err => if stored then m_ret None else m_err (Error_Apply err)
        end
    end.

(** [last.filter(|&expected| expected != prev)]. *)
Definition run_gap (last : option EnvelopeDigest) (prev : EnvelopeDigest)
    : option EnvelopeDigest :=
  expected ← last; if decide (expected ≠ prev) then Some expected else None.

(** The loop of [store_batch]: its mutable locals are its arguments. *)
Fixpoint store_loop (trial : option Ledger) (last : option EnvelopeDigest)
    (all_duplicates : bool) (envelopes : list Envelope) : M S (Error E) bool :=
  match envelopes with
  | [] => m_ret (bool_decide (is_Some last) && all_duplicates)
  | envelope_ :: rest =>
      match Msg_prev_digest (payload envelope_) with
      | None => m_err (Error_Apply ApplyError_UnexpectedInit)
      | Some prev =>
          match run_gap last prev with
          | Some expected => m_err (Error_Apply (ApplyError_ChainMismatch expected prev))
          | None =>
              let! digest := m_ask (λ _, c_wire_error (Envelope_digest envelope_)) in
              let! logged := read (λ s, envelope s digest) in
              let stored := bool_decide (is_Some logged) in
              let! trial := store_one trial prev digest stored envelope_ in
              store_loop trial (Some digest) (all_duplicates && stored) rest
          end
      end
  end.

Definition store_batch (envelopes : list Envelope) : M S (Error E) bool :=
  store_loop None None true envelopes.

(** [insert_batch] past the store: the walk, then the report. *)
Definition walk_and_report (fuel : nat) (stored : Result (Error E) bool)
    : M (Chain * S) (Error E) Insert :=
  let! self := get_fst in
  let from := chain_head self in
  let! ledger := on_snd (canonicalize fuel (chain_root self)) in
  do! put_fst (MkChain (chain_root self) ledger) in
  let! all_duplicates := m_lift stored in
  let head := ledger_head ledger in
  if decide (head ≠ from) then
    let! extended := on_snd (m_ask (λ s, descends fuel s head from)) in
    m_ret (if extended : bool then Insert_Extended else Insert_Reorged from)
  else m_ret (if all_duplicates : bool then Insert_Duplicate else Insert_Unchanged).

Definition insert_batch (fuel : nat) (envelopes : list Envelope)
    : M (Chain * S) (Error E) Insert :=
  let! stored := on_snd (m_catch (store_batch envelopes)) in
  walk_and_report fuel stored.

Definition insert (fuel : nat) (envelope : Envelope) : M (Chain * S) (Error E) Insert :=
  insert_batch fuel [envelope].

Definition contains (fuel : nat) (self : Chain) (storage : S) (digest : EnvelopeDigest)
    : Comp (Error E) bool :=
  descends fuel storage (chain_head self) digest.

Definition chain_min_keep_minutes (self : Chain) (storage : S) : Comp E N :=
  ledger_min_keep_minutes (chain_ledger self) storage.

Definition chain_checkpoint (self : Chain) (storage : S) : Comp E FullCheckpoint :=
  ledger_checkpoint (chain_ledger self) storage.

(** ** Compacting *)

(** The path [head..cut], [keep] its digests so far and [at_] the last. *)
Fixpoint keep_path (fuel : nat) (storage : S) (head cut : EnvelopeDigest)
    (keep : list EnvelopeDigest) (at_ : EnvelopeDigest) : Comp (Error E) (list EnvelopeDigest) :=
  if decide (at_ = cut) then c_ok keep
  else
    match fuel with
    | 0 => Diverge
    | Datatypes.S fuel =>
        let? up := c_map_err Error_Storage (parent storage at_) in
        match up with
        | Some p => keep_path fuel storage head cut (keep ++ [p]) p
        | None => c_err (Error_Diverged head cut)
        end
    end.

(** The ancestors of [at_], nearest first. *)
Fixpoint ancestors_of (fuel : nat) (storage : S) (at_ : EnvelopeDigest)
    : Comp (Error E) (list EnvelopeDigest) :=
  match fuel with
  | 0 => Diverge
  | Datatypes.S fuel =>
      let? up := c_map_err Error_Storage (parent storage at_) in
      match up with
      | Some p => let? rest := ancestors_of fuel storage p in c_ok (p :: rest)
      | None => c_ok []
      end
  end.

(** The dead branches at one ancestor. *)
Fixpoint prune_branches (fuel : nat) (on_path : gset EnvelopeDigest)
    (children : list EnvelopeDigest) (pruned : N) : M S (Error E) N :=
  match children with
  | [] => m_ret pruned
  | child :: rest =>
      if decide (child ∈ on_path) then prune_branches fuel on_path rest pruned
      else
        let! n := remove_subtree fuel child in
        prune_branches fuel on_path rest (pruned + n)
  end.

(** The ancestors, oldest first, with whether each is the oldest. *)
Fixpoint prune_ancestors (fuel : nat) (on_path : gset EnvelopeDigest)
    (ancestors : list (EnvelopeDigest * bool)) (pruned : N) : M S (Error E) N :=
  match ancestors with
  | [] => m_ret pruned
  | (ancestor, oldest) :: rest =>
      let! children := read (λ s, children_vec s ancestor) in
      let! pruned := prune_branches fuel on_path children pruned in
      let! stored :=
        (if oldest : bool
         then let! e := read (λ s, envelope s ancestor) in m_ret (bool_decide (is_Some e))
         else m_ret true) in
      if stored : bool then
        do! write (remove_envelope ancestor) in
        prune_ancestors fuel on_path rest (pruned + 1)
      else prune_ancestors fuel on_path rest pruned
  end.

(** [enumerate().rev()]: only the last of the ancestors is not [index + 1 < len]. *)
Definition oldest_first (ancestors : list EnvelopeDigest) : list (EnvelopeDigest * bool) :=
  reverse (imap (λ index a, (a, negb (index + 1 <? length ancestors))) ancestors).

Definition compact (fuel : nat) (cut : EnvelopeDigest) : M (Chain * S) (Error E) N :=
  let! self := get_fst in
  let head := chain_head self in
  let! keep := on_snd (m_ask (λ s, keep_path fuel s head cut [head] head)) in
  let! ancestors := on_snd (m_ask (λ s, ancestors_of fuel s cut)) in
  let on_path : gset EnvelopeDigest := list_to_set (ancestors ++ [cut]) in
  let! pruned := on_snd (prune_ancestors fuel on_path (oldest_first ancestors) 0) in
  do! on_snd (write (retain keep)) in
  do! put_fst (MkChain cut (chain_ledger self)) in
  m_ret pruned.
End chain.
