(* ===== verification/ChainSpec.v ===== *)
(** * The canonical path

    The fork-choice rule as a relation on the log ([winner]) and its normal
    form ([tip]), the invariant a chain keeps over its store ([chain_inv]), and
    the specifications of the walk, of [descends] and of the loops that store a
    run. What digests stand for is an oracle: [pins] is the message each digest
    is the digest of, and [rank] a height every message's [prev] is below; both
    speak of the envelopes at hand only, and say that on those the hash has
    neither collision nor cycle. *)

From S2P Require Import Prelude BTree Text Codec Externals Keys Subkey Msg Envelope Value Storage.
From S2P Require Import Addr StateError Ledger LedgerSpec LedgerProps Chain.

Abbreviation Log := (gmap EnvelopeDigest Envelope) (only parsing).

(** ** Fork choice *)

Definition logged_child (lg : gmap EnvelopeDigest Envelope) (p d : EnvelopeDigest) : Prop :=
  ∃ e, lg !! d = Some e ∧ prev_of e = Some p.

Definition fork_key (lg : gmap EnvelopeDigest Envelope) (d : EnvelopeDigest) : N * EnvelopeDigest :=
  (from_option (λ e, signature_weight (verification_status e)) 0%N (lg !! d), d).

(** Highest verified weight first, then highest digest. *)
Definition winner (lg : gmap EnvelopeDigest Envelope) (p d : EnvelopeDigest) : Prop :=
  logged_child lg p d ∧
  ∀ d', logged_child lg p d' → cmp (fork_key lg d') (fork_key lg d) ≠ Gt.

(** The end of the winners' path from [root]. *)
Definition tip (lg : gmap EnvelopeDigest Envelope) (root head : EnvelopeDigest) : Prop :=
  rtc (winner lg) root head ∧ ∀ d, ¬ logged_child lg head d.

(** [d] lies on the way from [a] back to the root. *)
Definition ancestor (lg : gmap EnvelopeDigest Envelope) (d a : EnvelopeDigest) : Prop :=
  rtc (logged_child lg) d a.

Lemma child_of_logged st p d : child_of st p d ↔ logged_child (log st) p d.
Proof. done. Qed.

Lemma logged_child_fun lg p p' d : logged_child lg p d → logged_child lg p' d → p = p'.
Proof. intros (e & He & Hp) (e' & He' & Hp'). congruence. Qed.

Lemma winner_unique lg p d d' : winner lg p d → winner lg p d' → d = d'.
Proof.
  intros [Hc Hmax] [Hc' Hmax'].
  assert (fork_key lg d = fork_key lg d') as Hk; [|by injection Hk].
  apply cmp_le_antisym; auto.
Qed.

Lemma tip_unique lg root h h' : tip lg root h → tip lg root h' → h = h'.
Proof.
  intros [Hp Hn] [Hp' Hn']. revert h' Hp' Hn'.
  induction Hp as [x|x y h Hw Hp IH]; intros h' Hp' Hn'.
  - destruct Hp' as [|x y h' [Hc _] _]; [done|]. by destruct (Hn y).
  - destruct Hp' as [x|x y' h' Hw' Hp']; [destruct Hw as [Hc _]; by destruct (Hn' y)|].
    apply IH; [done| |done]. by rewrite (winner_unique lg x y y').
Qed.

Lemma winner_ancestor lg a b : rtc (winner lg) a b → ancestor lg a b.
Proof. apply rtc_subrel. by intros x y [Hc _]. Qed.

(** ** The hash, on the envelopes at hand *)

Record HashOk (pins : EnvelopeDigest → option Msg) (rank : EnvelopeDigest → nat) : Prop := {
  rank_prev d m p : pins d = Some m → Msg_prev_digest m = Some p → rank p < rank d;
}.

(** An envelope of the digest it is filed under. *)
Definition pinned `{Externals} (pins : EnvelopeDigest → option Msg) (d : EnvelopeDigest)
    (e : Envelope) : Prop :=
  Envelope_digest e = Ok d ∧ pins d = Some (payload e).

(** Every logged envelope is filed under its digest; every version but the
    root's is one a message chained, and that message's operation on the version
    of its [prev]. *)
Record chain_inv `{Externals} (pins : EnvelopeDigest → option Msg) (root : EnvelopeDigest)
    (st : Store) : Prop := {
  inv_pinned d e : log st !! d = Some e → pinned pins d e;
  inv_derived d m p v :
    d ≠ root → pins d = Some m → Msg_prev_digest m = Some p → versions st !! d = Some v →
    ∃ vp op, versions st !! p = Some vp ∧ msg_op m = Some op ∧ op_apply op vp = Some v;
  inv_born d : d ≠ root → is_Some (versions st !! d) → ∃ m p, pins d = Some m ∧ Msg_prev_digest m = Some p;
}.

(** The versions of a store that another still holds. *)
Definition extends (st st' : Store) : Prop := versions st ⊆ versions st'.

Lemma extends_refl st : extends st st.
Proof. unfold extends. reflexivity. Qed.

Lemma extends_trans st1 st2 st3 : extends st1 st2 → extends st2 st3 → extends st1 st3.
Proof. unfold extends. apply transitivity. Qed.

Lemma extends_held st st' d : extends st st' → is_Some (versions st !! d) → is_Some (versions st' !! d).
Proof. intros Hext [v Hv]. exists v. by eapply lookup_weaken. Qed.

#[export] Hint Resolve extends_refl : core.

(** ** Counting *)

Lemma size_filter_lt {A} `{Countable A} (X : gset A) (P Q : A → Prop)
    `{∀ x, Decision (P x), ∀ x, Decision (Q x)} (a : A) :
  (∀ x, Q x → P x) → a ∈ X → P a → ¬ Q a → size (filter Q X) < size (filter P X).
Proof. intros HQP Ha HP HQ. apply subset_size. set_solver. Qed.

(** The logged envelopes above and below a height. *)
Definition higher (rank : EnvelopeDigest → nat) (lg : gmap EnvelopeDigest Envelope)
    (d : EnvelopeDigest) : nat :=
  size (filter (λ x, rank d < rank x) (dom lg)).

Definition not_higher (rank : EnvelopeDigest → nat) (lg : gmap EnvelopeDigest Envelope)
    (d : EnvelopeDigest) : nat :=
  size (filter (λ x, rank x ≤ rank d) (dom lg)).

Lemma higher_le rank lg d : higher rank lg d ≤ size lg.
Proof. unfold higher. rewrite <-size_dom. apply subseteq_size. set_solver. Qed.

Lemma not_higher_le rank lg d : not_higher rank lg d ≤ size lg.
Proof. unfold not_higher. rewrite <-size_dom. apply subseteq_size. set_solver. Qed.

Lemma higher_child rank lg p d : logged_child lg p d → rank p < rank d → higher rank lg d < higher rank lg p.
Proof.
  intros (e & He & _) Hr. apply size_filter_lt with d; [lia| |lia|lia]. by apply elem_of_dom_2 in He.
Qed.

Lemma not_higher_parent rank lg p d :
  is_Some (lg !! d) → rank p < rank d → not_higher rank lg p < not_higher rank lg d.
Proof. intros He Hr. apply size_filter_lt with d; [lia|by apply elem_of_dom|lia|lia]. Qed.

(** ** Preservation of the invariant *)

Section preservation.
Context `{Externals} (pins : EnvelopeDigest → option Msg) (rank : EnvelopeDigest → nat).
Hypothesis Hhash : HashOk pins rank.
Variable root : EnvelopeDigest.
Implicit Types (st : Store) (d p : EnvelopeDigest).

Lemma child_rank st p d : chain_inv pins root st → logged_child (log st) p d → rank p < rank d.
Proof using Hhash.
  intros [Hpin _ _] (e & He & Hp). destruct (Hpin d e He) as [_ Hd].
  by apply (rank_prev _ _ Hhash d (payload e)).
Qed.

Lemma chain_inv_commit st d e p vp op v :
  chain_inv pins root st → pinned pins d e → prev_of e = Some p →
  versions st !! d = None → versions st !! p = Some vp →
  msg_op (payload e) = Some op → op_apply op vp = Some v →
  chain_inv pins root (store_set_version d v st).
Proof using Hhash.
  intros [Hpin Hder Hborn] [Hdig Hd] Hp Hnone Hvp Hop Happ. split; [apply Hpin|..]; simpl.
  2: { intros d' Hroot [v' [[<- _]|[_ Hv']]%lookup_insert_Some]; [by exists (payload e), p|apply Hborn; [done|by eexists]]. }
  assert (p ≠ d) as Hpd.
  { intros ->. pose proof (rank_prev _ _ Hhash d (payload e) d Hd Hp). lia. }
  intros d' m p' v' Hroot Hm Hp' Hv'.
  apply lookup_insert_Some in Hv' as [[<- <-]|[Hne Hv']].
  - rewrite Hd in Hm. simplify_eq. unfold prev_of in Hp. rewrite Hp in Hp'. simplify_eq.
    exists vp, op. by rewrite lookup_insert_ne.
  - destruct (Hder d' m p' v' Hroot Hm Hp' Hv') as (vp' & op' & Hvp' & Hop' & Happ').
    exists vp', op'. rewrite lookup_insert_ne; [done|]. intros ->. by rewrite Hnone in Hvp'.
Qed.

Lemma chain_inv_put st d e :
  chain_inv pins root st → pinned pins d e → chain_inv pins root (store_put d e st).
Proof using.
  intros [Hpin Hder Hborn] He. split; [|apply Hder|apply Hborn]. simpl.
  intros d' e' [[<- <-]|[_ Hl]]%lookup_insert_Some; [done|by apply Hpin].
Qed.

Lemma chain_inv_remove st d : chain_inv pins root st → chain_inv pins root (store_remove d st).
Proof using.
  intros [Hpin Hder Hborn]. split; [|apply Hder|apply Hborn]. simpl.
  intros d' e' [_ Hl]%lookup_delete_Some. by apply Hpin.
Qed.

Lemma extends_commit st d v : versions st !! d = None → extends st (store_set_version d v st).
Proof using. apply insert_subseteq. Qed.
End preservation.

(** ** The walk *)

Section walk.
Context `{Externals} {S E : Type} `{StorageSpec S E}.
Variables (pins : EnvelopeDigest → option Msg) (rank : EnvelopeDigest → nat).
Hypothesis Hid : ∀ k, is_Some (Key_id k).
Hypothesis Hhash : HashOk pins rank.
Variable root : EnvelopeDigest.

Lemma read_wp {A} (f : S → Comp E A) s (Q : A → S → Prop) X P :
  cwp (f s) P (λ _, True) → (∀ a, P a → Q a s) → (∀ x, X (Error_Storage x) s) →
  wp (read f) s Q X.
Proof using. intros Hf HQ HX. apply wp_ask, cwp_map_err. eapply cwp_mono; [exact Hf|exact HQ|intros x _; apply HX]. Qed.

Lemma write_wp {A} (m : M S E A) s (Q : A → S → Prop) X P P' :
  wp m s P P' → (∀ a s', P a s' → Q a s') → (∀ x s', P' x s' → X (Error_Storage x) s') →
  wp (write m) s Q X.
Proof using. intros Hm HQ HX. apply wp_map_err. eapply wp_mono; [exact Hm|exact HQ|exact HX]. Qed.

Lemma ledger_open_cwp (s : S) d :
  storage_ok s → is_Some (versions (view s) !! d) →
  cwp (ledger_open s d) (λ l, l = MkLedger d) (λ e, ∃ x, e = Error_Storage x).
Proof using.
  intros Hs Hd. apply cwp_bind, cwp_map_err.
  eapply cwp_mono; [by apply contains_version_spec| |by eexists].
  intros b ->. by rewrite bool_decide_true.
Qed.

(** The candidates of a fork, as the walk collects them. *)
Lemma candidates_cwp (s : S) (ds : list EnvelopeDigest) :
  storage_ok s → (∀ d, d ∈ ds → is_Some (log (view s) !! d)) →
  cwp (c_traverse (candidate s) ds)
    (λ cs, Forall2 (λ d c, ∃ e, log (view s) !! d = Some e ∧
      c = (signature_weight (verification_status e), d, e)) ds cs)
    (λ e, ∃ x, e = Error_Storage x).
Proof using.
  intros Hs. induction ds as [|d ds IH]; intros Hds; simpl; [by constructor|].
  destruct (Hds d) as [e He]; [by left|].
  apply cwp_bind. unfold candidate. apply cwp_bind, cwp_map_err.
  eapply cwp_mono; [by apply envelope_spec| |by eexists]. intros o ->. rewrite He. simpl.
  apply cwp_bind. eapply cwp_mono; [apply IH; intros d0 Hd0; apply Hds; by right| |done].
  intros cs Hcs. simpl. constructor; [by exists e|done].
Qed.

(** What the maximum over the candidates is. *)
Lemma max_candidate (lg : gmap EnvelopeDigest Envelope) p ds cs :
  (∀ d, d ∈ ds ↔ logged_child lg p d) →
  Forall2 (λ d c, ∃ e, lg !! d = Some e ∧
    c = (signature_weight (verification_status e), d, e)) ds cs →
  match max_by_key (λ c : N * EnvelopeDigest * Envelope, (c.1.1, c.1.2)) cs with
  | None => ∀ d, ¬ logged_child lg p d
  | Some (_, d, e) => winner lg p d ∧ lg !! d = Some e
  end.
Proof using.
  intros Hds Hcs. destruct (max_by_key _ cs) as [[[w d] e]|] eqn:Hmax.
  - pose proof (max_by_key_elem _ _ _ Hmax) as Hin.
    pose proof (max_by_key_max _ _ _ Hmax) as Hle.
    assert (∀ c, c ∈ cs → c.1.2 ∈ ds ∧ lg !! c.1.2 = Some c.2 ∧
      (c.1.1, c.1.2) = fork_key lg c.1.2) as Hc.
    { intros c (i & Hi)%list_elem_of_lookup.
      destruct (Forall2_lookup_r _ _ _ _ _ Hcs Hi) as (d' & Hd' & e' & He' & ->). simpl.
      unfold fork_key. rewrite He'. split_and!; [by eapply list_elem_of_lookup_2|done|done]. }
    destruct (Hc _ Hin) as (Hd & He & Hk). simpl in *. split; [|done]. split; [by apply Hds|].
    intros d' (i & Hi)%Hds%list_elem_of_lookup.
    destruct (Forall2_lookup_l _ _ _ _ _ Hcs Hi) as (c & Hci & e' & He' & Heq).
    specialize (Hle c ltac:(by eapply list_elem_of_lookup_2)).
    rewrite <-Hk. unfold fork_key. rewrite He'. subst c. exact Hle.
  - apply max_by_key_None in Hmax as ->. apply Forall2_nil_inv_r in Hcs as ->.
    intros d Hd%Hds. by apply not_elem_of_nil in Hd.
Qed.

(** How a step of the walk can fail: the backend, or a winner that does not
    apply and is dropped for it. *)
Definition walk_fails (s : S) (from : EnvelopeDigest) (e : Error E) (s' : S) : Prop :=
  (log (view s') = log (view s) ∧ ∃ x, e = Error_Storage x) ∨
  ∃ at_ d err, rtc (winner (log (view s))) from at_ ∧ winner (log (view s)) at_ d ∧
    versions (view s') !! d = None ∧
    log (view s') = delete d (log (view s)) ∧ e = Error_Apply err ∧ ¬ is_storage_error err.

Lemma lift_error_not_storage e : ¬ is_storage_error (E:=E) (lift_error e).
Proof using. intros [x Hx]. by destruct e. Qed.

Lemma step_wp (ledger : Ledger) (s : S) :
  storage_ok s → chain_inv pins root (view s) →
  is_Some (versions (view s) !! ledger_head ledger) →
  wp (step ledger) s
    (λ next s', storage_ok s' ∧ chain_inv pins root (view s') ∧ log (view s') = log (view s) ∧
      extends (view s) (view s') ∧
      match next with
      | None => ∀ d, ¬ logged_child (log (view s)) (ledger_head ledger) d
      | Some next => winner (log (view s)) (ledger_head ledger) (ledger_head next) ∧
          is_Some (versions (view s') !! ledger_head next)
      end)
    (λ e s', storage_ok s' ∧ chain_inv pins root (view s') ∧ extends (view s) (view s') ∧
      walk_fails s (ledger_head ledger) e s').
Proof using Hid Hhash.
  intros Hs Hinv [ver Hver].
  assert (∀ x, storage_ok s ∧ chain_inv pins root (view s) ∧ extends (view s) (view s) ∧
    walk_fails s (ledger_head ledger) (Error_Storage x) s) as Hfail.
  { intros x. split_and!; [done..|]. left. split; [done|]. by exists x. }
  unfold step. apply wp_bind. eapply read_wp; [by apply children_vec_spec| |done].
  intros ds [_ Hds]. apply wp_bind, wp_ask.
  eapply cwp_mono; [apply candidates_cwp; [done|]| |intros e [x ->]; apply Hfail].
  { intros d (e & He & _)%Hds. by eexists. }
  intros cs Hcs. pose proof (max_candidate (log (view s)) _ _ _ Hds Hcs) as Hmax.
  destruct (max_by_key _ cs) as [[[w child] env]|]; [|by apply wp_ret].
  destruct Hmax as [Hwin Henv].
  apply wp_bind. eapply read_wp; [by apply contains_version_spec| |done]. intros held ->.
  destruct (versions (view s) !! child) as [v|] eqn:Hchild.
  - rewrite bool_decide_true by (by eexists).
    apply wp_bind, wp_ask. eapply cwp_mono; [by apply ledger_open_cwp; [|eexists]| |intros e [x ->]; apply Hfail].
    intros l ->. simpl. split_and!; done.
  - rewrite bool_decide_false by (by intros []).
    destruct (inv_pinned _ _ _ Hinv _ _ Henv) as [Hdig Hpin].
    assert (prev_of env = Some (ledger_head ledger)) as Hprev.
    { destruct Hwin as [(env' & Henv' & Hp) _]. congruence. }
    assert (Envelope_digest env ≠ Ok (ledger_head ledger)) as Hown.
    { pose proof (rank_prev _ _ Hhash child (payload env) _ Hpin Hprev). intros Hd. rewrite Hdig in Hd.
      injection Hd as ->. lia. }
    apply wp_bind, wp_catch.
    eapply wp_mono; [by apply (apply_refines Hid ledger env s ver)|..].
    + intros moved s' (d & op & v & _ & [_ Hd Hop _ _ _ _ _] & Happ & -> & Hs' & Hview).
      assert (d = child) as -> by congruence. apply wp_ret. rewrite Hview.
      split_and!; [done| |done| |done|].
      * by eapply chain_inv_commit.
      * by apply extends_commit.
      * simpl. rewrite lookup_insert_eq. by eexists.
    + intros err s' (Hs' & Hview & Herr).
      assert (∀ err', err' = err → ¬ is_storage_error err' →
        wp (do! write (remove_envelope child) in m_err (A:=option Ledger) (Error_Apply err')) s'
          (λ _ _, False)
          (λ e s'', storage_ok s'' ∧ chain_inv pins root (view s'') ∧ extends (view s) (view s'') ∧
            walk_fails s (ledger_head ledger) e s'')) as Hdrop.
      { intros err' -> Hns. apply wp_bind. eapply write_wp; [by apply remove_envelope_spec|..].
        - intros _ s'' [Hs'' Hview'']. simpl. apply wp_err; unfold walk_fails; rewrite Hview'', Hview. split_and!; [done|..].
          + by apply chain_inv_remove.
          + apply (extends_refl (view s)).
          + right. by exists (ledger_head ledger), child, err.
        - intros x s'' [Hs'' Hview'']. unfold walk_fails. rewrite Hview'', Hview.
          split_and!; [done..|]. left. split; [done|]. by exists x. }
      destruct Herr as [[x ->]|(e' & _ & ->)].
      * apply wp_err. unfold walk_fails. rewrite Hview. split_and!; [done..|]. left. split; [done|]. by exists x.
      * pose proof (lift_error_not_storage e') as Hns.
        destruct (lift_error e') eqn:Hl; try (eapply wp_mono; [by apply Hdrop|done|done]).
        by destruct Hns; eexists.
Qed.

(** The whole walk: it ends at the tip of the log, having only added
    versions; or it stops as [walk_fails] says. *)
Lemma canonicalize_loop_wp (fuel : nat) (ledger : Ledger) (s : S) :
  storage_ok s → chain_inv pins root (view s) →
  is_Some (versions (view s) !! ledger_head ledger) →
  higher rank (log (view s)) (ledger_head ledger) < fuel →
  wp (canonicalize_loop fuel ledger) s
    (λ l s', storage_ok s' ∧ chain_inv pins root (view s') ∧ log (view s') = log (view s) ∧
      extends (view s) (view s') ∧ is_Some (versions (view s') !! ledger_head l) ∧
      tip (log (view s)) (ledger_head ledger) (ledger_head l))
    (λ e s', storage_ok s' ∧ chain_inv pins root (view s') ∧ extends (view s) (view s') ∧
      walk_fails s (ledger_head ledger) e s').
Proof using Hid Hhash.
  revert ledger s. induction fuel as [|fuel IH]; intros ledger s Hs Hinv Hheld Hfuel; [lia|].
  simpl. apply wp_bind. eapply wp_mono; [by apply step_wp| |done].
  intros [next|] s1 (Hs1 & Hinv1 & Hlog & Hext & Hnext).
  - destruct Hnext as [Hwin Hheld1].
    assert (higher rank (log (view s1)) (ledger_head next) < fuel) as Hfuel1.
    { rewrite Hlog. pose proof (higher_child rank (log (view s)) _ _ (proj1 Hwin)) as Hlt.
      specialize (Hlt ltac:(by eapply (child_rank pins rank Hhash root); [|apply Hwin])). lia. }
    eapply wp_mono; [by apply IH|..].
    + intros l s2 (Hs2 & Hinv2 & Hlog2 & Hext2 & Hheld2 & [Hpath Hend]).
      rewrite Hlog in *. split_and!; [done..|by eapply extends_trans|done|].
      split; [by eapply rtc_l|done].
    + intros e s2 (Hs2 & Hinv2 & Hext2 & Hfails). split_and!; [done..|by eapply extends_trans|].
      destruct Hfails as [[Hlog2 Hx]|(at_ & d & err & Hpath & Hd & Hnone & Hlog2 & -> & Hns)].
      * left. split; [congruence|done].
      * right. rewrite Hlog in *. exists at_, d, err. split_and!; try done; by eapply rtc_l.
  - apply wp_ret. rewrite Hlog. split_and!; try done; by eapply extends_held.
Qed.

Lemma canonicalize_wp (fuel : nat) (s : S) :
  storage_ok s → chain_inv pins root (view s) → is_Some (versions (view s) !! root) →
  size (log (view s)) < fuel →
  wp (canonicalize fuel root) s
    (λ l s', storage_ok s' ∧ chain_inv pins root (view s') ∧ log (view s') = log (view s) ∧
      extends (view s) (view s') ∧ is_Some (versions (view s') !! ledger_head l) ∧
      tip (log (view s)) root (ledger_head l))
    (λ e s', storage_ok s' ∧ chain_inv pins root (view s') ∧ extends (view s) (view s') ∧
      walk_fails s root e s').
Proof using Hid Hhash.
  intros Hs Hinv Hheld Hfuel. apply wp_bind, wp_ask.
  eapply cwp_mono; [by apply ledger_open_cwp|..].
  - intros l ->. apply canonicalize_loop_wp; [done..|].
    pose proof (higher_le rank (log (view s)) root). simpl. lia.
  - intros e [x ->]. split_and!; [done..|]. left. split; [done|]. by exists x.
Qed.

(** [descends] decides ancestry, and ends. *)
Lemma descends_cwp (fuel : nat) (s : S) (d a : EnvelopeDigest) :
  storage_ok s → chain_inv pins root (view s) →
  size (log (view s)) + 1 < fuel →
  cwp (descends fuel s d a) (λ b, b = true ↔ ancestor (log (view s)) a d)
    (λ e, ∃ x, e = Error_Storage x).
Proof using Hhash.
  intros Hs Hinv Hfuel.
  assert (not_higher rank (log (view s)) d + 1 < fuel) as Hf.
  { pose proof (not_higher_le rank (log (view s)) d). lia. }
  clear Hfuel. unfold descends. revert d Hf.
  induction fuel as [|fuel IH]; intros d Hf; [lia|]. simpl.
  case_decide as Hda; [subst; simpl; by split; [intros _; apply rtc_refl|]|].
  apply cwp_bind, cwp_map_err. eapply cwp_mono; [by apply envelope_spec| |by eexists].
  intros entry ->. destruct (log (view s) !! d ≫= prev_of) as [p|] eqn:Hp.
  - destruct (log (view s) !! d) as [e|] eqn:He; [|done]. simpl in Hp.
    assert (logged_child (log (view s)) p d) as Hc by (by exists e).
    pose proof (child_rank pins rank Hhash root _ _ _ Hinv Hc) as Hr.
    pose proof (not_higher_parent rank (log (view s)) p d ltac:(by eexists) Hr).
    eapply cwp_mono; [apply IH; lia| |done]. intros b ->. split.
    + intros Hap. by eapply rtc_r.
    + intros Had. apply rtc_inv_r in Had as [->|(p' & Hap & Hc')]; [done|].
      by rewrite (logged_child_fun (log (view s)) p p' d Hc Hc').
  - destruct fuel; simpl; split; try done.
    + intros Had. apply rtc_inv_r in Had as [->|(p' & Hap & (e & He & Hp'))]; [done|].
      rewrite He in Hp. simpl in Hp. congruence.
    + intros Had. apply rtc_inv_r in Had as [->|(p' & Hap & (e & He & Hp'))]; [done|].
      rewrite He in Hp. simpl in Hp. congruence.
Qed.
End walk.
