(* ===== verification/ChainStore.v ===== *)
(** * Storing a run of envelopes

    What [store_batch] leaves in the log and what it refuses: the specification
    the insert is proved from. *)

From S2P Require Import Prelude BTree Text Codec Externals Keys Subkey Msg Envelope Value Storage.
From S2P Require Import Addr StateError Ledger LedgerSpec LedgerProps Chain ChainSpec.

(** From [st] to [st'] by storing the envelopes of [batch]: the log only grows;
    a new entry is an envelope of the batch with the status its parent's version
    gives it, and its own version is held; nothing of the batch is lost. *)
Record stored_from `{Externals} (st : Store) (batch : list Envelope) (st' : Store) : Prop := {
  sf_versions : extends st st';
  sf_grows : log st ⊆ log st';
  sf_new d e' : log st' !! d = Some e' → log st !! d = None →
    ∃ e status p ver, e ∈ batch ∧ Envelope_digest e = Ok d ∧
      e' = set_verification_status e status ∧ prev_of e = Some p ∧
      versions st' !! p = Some ver ∧ verify_envelope (MkLedger p) ver e = c_ok status ∧
      is_Some (versions st' !! d);
  sf_known e : e ∈ batch →
    ∃ d, Envelope_digest e = Ok d ∧ (is_Some (log st' !! d) ∨ is_Some (versions st' !! d));
}.

(** Why a run is refused at an envelope, over the store that holds the run up to it
    and after the envelope of digest [last]: it is an [Init], it leaves a gap, it
    has no digest; or it is new and nothing stands at its parent, or the version
    there cannot say what its signatures are worth, or judges against it. What the
    log already has is not judged again. *)
Definition refusal `{Externals} {E} (st : Store) (last : option EnvelopeDigest) (env : Envelope) : option (Error E) :=
  match prev_of env with
  | None => Some (Error_Apply ApplyError_UnexpectedInit)
  | Some prev =>
      match run_gap last prev with
      | Some expected => Some (Error_Apply (ApplyError_ChainMismatch expected prev))
      | None =>
          match Envelope_digest env with
          | Err e => Some (Error_Wire e)
          | Ok d =>
              match log st !! d, versions st !! d, versions st !! prev with
              | Some _, _, _ | None, Some _, None => None
              | None, None, None => Some (Error_UnknownParent prev)
              | None, held, Some ver =>
                  match verify_envelope (MkLedger prev) ver env, held with
                  | Ret (Err e), _ => Some (Error_Apply (lift_error e))
                  | Ret (Ok status), None =>
                      match judge (MkLedger prev) ver (set_verification_status env status) with
                      | Ret (Err e) => Some (Error_Apply (lift_error e))
                      | _ => None
                      end
                  | _, _ => None
                  end
              end
          end
      end
  end.

(** The digest the next envelope of a run must chain onto. *)
Definition run_last `{Externals} (last : option EnvelopeDigest) (run : list Envelope) : option EnvelopeDigest :=
  foldl (λ last e, match Envelope_digest e with Ok d => Some d | Err _ => last end) last run.

(** The backend failed, in a call or within a read of the configuration. *)
Definition backend_failed `{Externals} {E} (e : Error E) : Prop :=
  ∃ x, e = Error_Storage x ∨ e = Error_Apply (ApplyError_Storage x).

(** Why a run went no further than [prefix], which the store holds: the envelope
    after it is refused there, or the backend failed. *)
Definition stopped `{Externals} {E} (last : option EnvelopeDigest) (st : Store) (prefix rest : list Envelope) (e : Error E) : Prop :=
  (∃ env more, rest = env :: more ∧ refusal st (run_last last prefix) env = Some e) ∨ backend_failed e.

Lemma storage_failed `{Externals} {E} (x : E) : backend_failed (Error_Storage x).
Proof. exists x. by left. Qed.
#[export] Hint Resolve storage_failed : core.

(** The envelope's digest is logged. *)
Definition is_logged `{Externals} (st : Store) (e : Envelope) : Prop :=
  ∃ d, Envelope_digest e = Ok d ∧ is_Some (log st !! d).

Section stored_from.
Context `{Externals}.

Lemma stored_from_refl st : stored_from st [] st.
Proof.
  split; [done|done| |].
  - intros d e' He Hn. congruence.
  - intros e He. by apply not_elem_of_nil in He.
Qed.

Lemma stored_from_extends st st' :
  extends st st' → log st' = log st → stored_from st [] st'.
Proof.
  intros Hext Hlog. split; rewrite ?Hlog; try done.
  - intros d e' He Hn. congruence.
  - intros e He. by apply not_elem_of_nil in He.
Qed.

Lemma stored_from_trans st b1 st1 b2 st2 :
  stored_from st b1 st1 → stored_from st1 b2 st2 → stored_from st (b1 ++ b2) st2.
Proof.
  intros [Hv1 Hg1 Hn1 Hk1] [Hv2 Hg2 Hn2 Hk2]. split.
  - by eapply extends_trans.
  - by transitivity (log st1).
  - intros d e' He Hnone. destruct (log st1 !! d) as [e1|] eqn:He1.
    + assert (e1 = e') as -> by (pose proof (lookup_weaken _ _ _ _ He1 Hg2); congruence).
      destruct (Hn1 d e' He1 Hnone) as (e & status & p & ver & Hin & Hd & -> & Hp & Hver & Hst & Hheld).
      exists e, status, p, ver. split_and!; try done; [set_solver|by eapply lookup_weaken|by eapply extends_held].
    + destruct (Hn2 d e' He He1) as (e & status & p & ver & Hin & Hd & -> & Hp & Hver & Hst & Hheld).
      exists e, status, p, ver. split_and!; try done; set_solver.
  - intros e [Hin|Hin]%elem_of_app; [|by apply Hk2].
    destruct (Hk1 e Hin) as (d & Hd & [[x Hx]|Hx]); exists d; (split; [done|]).
    + left. exists x. by eapply lookup_weaken.
    + right. by eapply extends_held.
Qed.
End stored_from.

Section store.
Context `{Externals} {S E : Type} `{StorageSpec S E}.
Variables (pins : EnvelopeDigest → option Msg) (rank : EnvelopeDigest → nat).
Hypothesis Hid : ∀ k, is_Some (Key_id k).
Hypothesis Hhash : HashOk pins rank.
Variable root : EnvelopeDigest.

Lemma agrees_cwp {A} (c : Comp (ApplyError E) A) p :
  agrees c p → cwp p (λ _, True) (λ _, True) →
  cwp c (λ a, p = c_ok a) (λ e, is_storage_error e ∨ ∃ e', p = c_err e' ∧ e = lift_error e').
Proof using.
  intros [->|[e ->]] Hp; [|left; by eexists]. destruct p as [[a|e]| |]; [done| |done..]. right. by eexists.
Qed.

Lemma verify_total (l : Ledger) (ver : list (NamespaceKey * Namespace)) env :
  cwp (verify_envelope l ver env) (λ _, True) (λ _, True).
Proof using Hid.
  unfold verify_envelope. apply cwp_bind.
  eapply (cwp_mono _ (λ _, True) _ (λ _, True)); [| |done].
  { destruct (Msg_prev_digest (payload env)); [done|]. by destruct (Envelope_digest env). }
  intros prev _. case_decide; [done|]. destruct (signatures env); [done|].
  apply cwp_bind. eapply (cwp_mono _ (λ _, True) _ (λ _, True)); [| |done].
  - unfold trusted_keys.
    destruct (NamespaceKey_try_new_Some TRUSTED_KEYS_KEY ltac:(done)) as (key & Hk & _).
    unfold reserved_key. rewrite Hk. simpl. destruct (bt_get ver key) as [n|]; [|done].
    apply cwp_map_err. eapply cwp_mono; [by apply parse_trusted_keys_total|done|done].
  - intros keys _. apply cwp_bind. destruct (Envelope_signature_digest env); [|done]. simpl.
    by destruct (base.filter _ _).
Qed.

Lemma verify_reader_cwp (s : S) p ver env :
  storage_ok s → versions (view s) !! p = Some ver →
  cwp (verify_envelope (MkLedger p) s env)
    (λ status, verify_envelope (MkLedger p) ver env = c_ok status)
    (λ e, is_storage_error e ∨ ∃ e', verify_envelope (MkLedger p) ver env = c_err e' ∧ e = lift_error e').
Proof using Hid. intros Hs Hver. apply agrees_cwp; [by apply verify_envelope_agrees|apply verify_total]. Qed.

(** The parent's ledger: standing at [prev], over a version the store holds. *)
Lemma trial_parent_wp (trial : option Ledger) prev (s : S) :
  storage_ok s →
  (∀ l, trial = Some l → ledger_head l = prev ∧ is_Some (versions (view s) !! prev)) →
  wp (trial_parent trial prev) s
    (λ parent s', s' = s ∧
      match parent with
      | Some l => l = MkLedger prev ∧ is_Some (versions (view s) !! prev)
      | None => versions (view s) !! prev = None
      end)
    (λ e s', s' = s ∧ ∃ x, e = Error_Storage x).
Proof using.
  intros Hs Htrial. unfold trial_parent. destruct trial as [l|].
  - destruct (Htrial l eq_refl) as [Hl Hheld]. apply wp_ret. split; [done|]. split; [|done].
    destruct l. simpl in Hl. by subst.
  - apply wp_bind. eapply read_wp; [by apply contains_version_spec| |intros x; split; [done|by eexists]].
    intros held ->. case_bool_decide as Hheld.
    + apply wp_bind, wp_ask. eapply cwp_mono; [by apply ledger_open_cwp| |done].
      by intros l ->.
    + apply wp_ret. split; [done|]. by apply eq_None_not_Some.
Qed.

Lemma verified_at_wp (stored : bool) (parent : option Ledger) prev env (s : S) :
  storage_ok s →
  match parent with
  | Some l => l = MkLedger prev ∧ is_Some (versions (view s) !! prev)
  | None => True
  end →
  wp (verified_at stored parent env) s
    (λ env' s', s' = s ∧ payload env' = payload env ∧ Envelope_digest env' = Envelope_digest env ∧
      (stored = false → is_Some parent → ∃ status ver, env' = set_verification_status env status ∧
        versions (view s) !! prev = Some ver ∧
        verify_envelope (MkLedger prev) ver env = c_ok status))
    (λ e s', s' = s ∧ (backend_failed e ∨ stored = false ∧ ∃ ver e', versions (view s) !! prev = Some ver ∧
      verify_envelope (MkLedger prev) ver env = c_err e' ∧ e = Error_Apply (lift_error e'))).
Proof using Hid.
  intros Hs Hparent. unfold verified_at.
  destruct stored; [by apply wp_ret|]. destruct parent as [l|]; [|apply wp_ret; split_and!; try done; by intros _ []].
  destruct Hparent as [-> [ver Hver]]. apply wp_bind, wp_ask, cwp_map_err.
  eapply cwp_mono; [by apply (verify_reader_cwp s prev ver env Hs Hver)|..].
  - intros status Hst. apply wp_ret. split_and!; try done. intros _ _. by exists status, ver.
  - intros e [[x ->]|(e' & He & ->)]; (split; [done|]); [left; exists x; by right|right].
    split; [done|]. by exists ver, e'.
Qed.

(** The log entry a store writes. *)
Lemma put_new_wp (s : S) prev digest env status ver (verp : list (NamespaceKey * Namespace)) :
  storage_ok s → chain_inv pins root (view s) →
  Envelope_digest env = Ok digest → pins digest = Some (payload env) → prev_of env = Some prev →
  log (view s) !! digest = None → versions (view s) !! digest = Some ver →
  versions (view s) !! prev = Some verp → verify_envelope (MkLedger prev) verp env = c_ok status →
  wp (write (put_envelope digest (set_verification_status env status))) s
    (λ _ s', storage_ok s' ∧ chain_inv pins root (view s') ∧ stored_from (view s) [env] (view s') ∧
      versions (view s') = versions (view s))
    (λ e s', storage_ok s' ∧ view s' = view s ∧ backend_failed e).
Proof using.
  intros Hs Hinv Hd Hpin Hp Hnone Hver Hverp Hst.
  eapply write_wp; [apply put_envelope_spec; [done|]; intros old Ho; congruence|..].
  - intros _ s' [Hs' Hview]. rewrite Hview. split_and!; [done|by apply chain_inv_put| |done].
    split; simpl.
    + apply (extends_refl (view s)).
    + by apply insert_subseteq.
    + intros d e' [[<- <-]|[_ He']]%lookup_insert_Some Hn; [|congruence].
      exists env, status, prev, verp. split_and!; try done; by left.
    + intros e ->%list_elem_of_singleton. exists digest. split; [done|]. right. by eexists.
  - by intros x s' [Hs' Hview].
Qed.

Lemma stored_known st st' env digest :
  extends st st' → log st' = log st → Envelope_digest env = Ok digest →
  is_Some (log st' !! digest) ∨ is_Some (versions st' !! digest) →
  stored_from st [env] st'.
Proof using.
  intros Hext Hlog Hd Hk. split; rewrite ?Hlog; try done.
  - intros d e' He Hn. congruence.
  - intros e ->%list_elem_of_singleton. exists digest. by rewrite <-Hlog.
Qed.

(** What one envelope of the run does. *)
Definition one_stored (s : S) (env : Envelope) (digest : EnvelopeDigest) (stored : bool)
    (trial : option Ledger) (s' : S) : Prop :=
  storage_ok s' ∧ chain_inv pins root (view s') ∧ stored_from (view s) [env] (view s') ∧
  (stored = true → log (view s') = log (view s)) ∧
  ∀ l, trial = Some l → ledger_head l = digest ∧ is_Some (versions (view s') !! digest).

(** How one can fail: refused, and nothing changed; or the backend failed, with it
    stored or not. *)
Definition one_failed (s : S) (last : option EnvelopeDigest) (env : Envelope) (e : Error E) (s' : S) : Prop :=
  storage_ok s' ∧ chain_inv pins root (view s') ∧
  ((view s' = view s ∧ refusal (view s) last env = Some e) ∨
   ((stored_from (view s) [] (view s') ∨ stored_from (view s) [env] (view s')) ∧ backend_failed e)).

Lemma one_refused (s s' : S) last env e :
  storage_ok s' → chain_inv pins root (view s) → view s' = view s → refusal (view s) last env = Some e →
  one_failed s last env e s'.
Proof using. intros Hs' Hinv Hview Hr. unfold one_failed. rewrite Hview. split_and!; [done|done|by left]. Qed.

Lemma one_unserved (s s' : S) last env e :
  storage_ok s' → chain_inv pins root (view s) → view s' = view s → backend_failed e →
  one_failed s last env e s'.
Proof using.
  intros Hs' Hinv Hview Hx. unfold one_failed. rewrite Hview.
  split_and!; [done|done|right]. split; [left; apply stored_from_refl|done].
Qed.

(** Standing the trial at a held version, the run so far stored. *)
Lemma open_trial_wp (s s' : S) last env digest (stored : bool) :
  storage_ok s' → chain_inv pins root (view s') → stored_from (view s) [env] (view s') →
  is_Some (versions (view s') !! digest) → (stored = true → log (view s') = log (view s)) →
  wp (let! ledger := m_ask (λ s, ledger_open s digest) in m_ret (Some ledger)) s'
    (one_stored s env digest stored) (one_failed s last env).
Proof using.
  intros Hs' Hinv' Hfrom Hheld Hlog. apply wp_bind, wp_ask.
  eapply cwp_mono; [by apply ledger_open_cwp|..].
  - intros l ->. unfold one_stored. simpl. split_and!; try done. by intros l [= <-].
  - intros e [x ->]. unfold one_failed. split_and!; try done. right. split; [by right|done].
Qed.

(** Applying the envelope over its parent's version, and logging it if new. *)
Lemma apply_trial_wp (s : S) last prev digest env env' (stored : bool) :
  storage_ok s → chain_inv pins root (view s) → run_gap last prev = None →
  Envelope_digest env = Ok digest → pins digest = Some (payload env) → prev_of env = Some prev →
  stored = bool_decide (is_Some (log (view s) !! digest)) →
  is_Some (versions (view s) !! prev) → versions (view s) !! digest = None →
  payload env' = payload env → Envelope_digest env' = Envelope_digest env →
  (stored = false → ∃ status ver, env' = set_verification_status env status ∧
    versions (view s) !! prev = Some ver ∧
    verify_envelope (MkLedger prev) ver env = c_ok status) →
  wp (let! result := m_catch (apply (MkLedger prev) env') in
      match result with
      | Ok moved =>
          do! (if stored then m_ret () else write (put_envelope digest env')) in
          m_ret (Some moved)
      | Err (ApplyError_Storage err) => m_err (Error_Storage err)
      | Err err => if stored then m_ret None else m_err (Error_Apply err)
      end) s
    (one_stored s env digest stored) (one_failed s last env).
Proof using Hid Hhash.
  intros Hs Hinv Hgap Hd Hpin Hp Hstored [verp Hverp] Hnone Hpay Hdig Hnew.
  assert (Envelope_digest env' ≠ Ok prev) as Hown.
  { pose proof (rank_prev _ _ Hhash digest (payload env) _ Hpin Hp). rewrite Hdig, Hd. intros [= ->]. lia. }
  apply wp_bind, wp_catch. eapply wp_mono; [by apply (apply_refines Hid (MkLedger prev) env' s verp)|..].
  - intros moved s1 (d & op & ver & _ & [_ Hd' Hop _ _ _ _ _] & Happ & -> & Hs1 & Hview).
    assert (d = digest) as -> by congruence. rewrite Hpay in Hop.
    assert (chain_inv pins root (view s1)) as Hinv1.
    { rewrite Hview. by eapply (chain_inv_commit pins rank Hhash root _ _ env). }
    assert (extends (view s) (view s1)) as Hext by (rewrite Hview; by apply extends_commit).
    assert (log (view s1) = log (view s)) as Hlog by (by rewrite Hview).
    assert (versions (view s1) !! digest = Some ver) as Hver
      by (rewrite Hview; apply lookup_insert_eq).
    apply wp_bind. destruct stored.
    + apply wp_ret, wp_ret. unfold one_stored. split_and!; try done.
      * by eapply (stored_known _ _ env digest Hext Hlog Hd); right; eexists.
      * intros l [= <-]. split; [done|by eexists].
    + destruct (Hnew eq_refl) as (status & verp' & -> & Hverp' & Hst).
      symmetry in Hstored. apply bool_decide_eq_false, eq_None_not_Some in Hstored.
      eapply wp_mono; [eapply (put_new_wp s1 prev digest env status ver verp'); try done|..].
      * by rewrite Hlog.
      * by eapply lookup_weaken.
      * intros _ s2 (Hs2 & Hinv2 & Hfrom & Hvers). apply wp_ret. unfold one_stored.
        split_and!; try done.
        -- apply (stored_from_trans _ [] (view s1) [env]); [|done].
           by apply stored_from_extends.
        -- intros l [= <-]. split; [done|]. rewrite Hvers, Hver. by eexists.
      * intros x s2 (Hs2 & Hview2 & Hx). unfold one_failed. rewrite Hview2. split_and!; try done.
        right. split; [left; by apply stored_from_extends|done].
  - intros err s1 (Hs1 & Hview & Herr).
    destruct Herr as [[x ->]|(e' & Hjudge & ->)]; [apply wp_err; by apply one_unserved|].
    assert (wp (if stored then m_ret None else m_err (Error_Apply (lift_error e'))) s1
      (one_stored s env digest stored) (one_failed s last env)) as Hrefuse.
    { destruct stored.
      2: { apply wp_err. apply one_refused; [done..|]. destruct (Hnew eq_refl) as (status & verp' & -> & Hverp' & Hst).
        symmetry in Hstored. apply bool_decide_eq_false, eq_None_not_Some in Hstored.
        assert (verp' = verp) as -> by congruence.
        unfold refusal. rewrite Hp, Hgap, Hd, Hstored, Hnone, Hverp, Hst. unfold c_ok. by rewrite Hjudge. }
      apply wp_ret. unfold one_stored. rewrite Hview.
      split_and!; try done. symmetry in Hstored. apply bool_decide_eq_true in Hstored.
      apply (stored_known (view s) (view s) env digest); try done. by left. }
    pose proof (lift_error_not_storage (E:=E) e') as Hns.
    destruct (lift_error e') eqn:Hl; try exact Hrefuse. by destruct Hns; eexists.
Qed.

Lemma store_one_wp (trial : option Ledger) last prev digest env (s : S) :
  storage_ok s → chain_inv pins root (view s) → run_gap last prev = None →
  Envelope_digest env = Ok digest → pins digest = Some (payload env) → prev_of env = Some prev →
  (∀ l, trial = Some l → ledger_head l = prev ∧ is_Some (versions (view s) !! prev)) →
  let stored := bool_decide (is_Some (log (view s) !! digest)) in
  wp (store_one trial prev digest stored env) s (one_stored s env digest stored)
    (one_failed s last env).
Proof using Hid Hhash.
  intros Hs Hinv Hgap Hd Hpin Hp Htrial stored.
  assert (∀ x s', storage_ok s' → view s' = view s → one_failed s last env (Error_Storage x) s') as Hsame
    by (intros; by apply one_unserved).
  unfold store_one. apply wp_bind. eapply wp_mono; [by apply trial_parent_wp|..].
  2: { intros e s' [-> [x ->]]. by apply Hsame. }
  intros parent s0 [-> Hparent]. apply wp_bind.
  eapply wp_mono; [apply (verified_at_wp stored parent prev env s Hs); by destruct parent|..].
  2: { intros e s' [-> [Hx|(Hst & ver & e' & Hver & He & ->)]]; [by apply one_unserved|].
    apply bool_decide_eq_false, eq_None_not_Some in Hst.
    apply one_refused; [done..|]. unfold refusal. rewrite Hp, Hgap, Hd, Hst, Hver, He. by destruct (versions _ !! digest). }
  intros env' s0 (-> & Hpay & Hdig & Hnew). apply wp_bind.
  eapply read_wp; [by apply contains_version_spec| |intros; by apply Hsame].
  intros held ->. case_bool_decide as Hheld.
  - apply wp_bind. destruct Hheld as [v Hv].
    assert (wp (let! ledger := m_ask (λ s, ledger_open s digest) in m_ret (Some ledger)) s
      (one_stored s env digest stored) (one_failed s last env)) as Hopen.
    { apply open_trial_wp; try done.
      apply (stored_known (view s) (view s) env digest); try done. by right; eexists. }
    destruct stored eqn:Hstored; [by apply wp_ret|].
    destruct parent as [l|]; [|by apply wp_ret].
    destruct (Hnew eq_refl ltac:(by eexists)) as (status & verp & -> & Hverp & Hst).
    apply bool_decide_eq_false, eq_None_not_Some in Hstored.
    eapply wp_mono; [by apply (put_new_wp s prev digest env status v verp)|..].
    + intros _ s1 (Hs1 & Hinv1 & Hfrom & Hvers). apply open_trial_wp; try done.
      rewrite Hvers, Hv. by eexists.
    + intros x s1 (Hs1 & Hview & Hx). by apply one_unserved.
  - apply eq_None_not_Some in Hheld. destruct parent as [l|].
    + destruct Hparent as [-> Hverp]. apply (apply_trial_wp s last prev digest env env'); try done.
      intros Hst. apply Hnew; [done|by eexists].
    + destruct stored eqn:Hstored.
      2: { apply bool_decide_eq_false, eq_None_not_Some in Hstored. apply wp_err, one_refused; [done..|].
        unfold refusal. by rewrite Hp, Hgap, Hd, Hstored, Hheld, Hparent. }
      apply wp_ret. unfold one_stored. split_and!; try done.
      apply bool_decide_eq_true in Hstored.
      apply (stored_known (view s) (view s) env digest); try done. by left.
Qed.

(** The envelopes' digests stand for their messages. *)
Definition batch_pinned (batch : list Envelope) : Prop :=
  ∀ e d, e ∈ batch → Envelope_digest e = Ok d → pins d = Some (payload e).

(** A run that fails keeps the part of it before the fault. *)
Definition run_failed (s : S) (last : option EnvelopeDigest) (batch : list Envelope) (e : Error E) (s' : S) : Prop :=
  storage_ok s' ∧ chain_inv pins root (view s') ∧
  ∃ prefix rest, batch = prefix ++ rest ∧ stored_from (view s) prefix (view s') ∧
    stopped last (view s') prefix rest e.

Lemma run_failed_here (s s' : S) last env batch e :
  one_failed s last env e s' → run_failed s last (env :: batch) e s'.
Proof using.
  intros (Hs' & Hinv' & [[Hview Hr]|[[Hnone|Hone] Hx]]); (split; [done|]; split; [done|]).
  - exists [], (env :: batch). rewrite Hview. split_and!; [done|apply stored_from_refl|left; by exists env, batch].
  - exists [], (env :: batch). split_and!; [done|done|by right].
  - exists [env], batch. split_and!; [done|done|by right].
Qed.

Lemma store_loop_wp (batch : list Envelope) trial last (all_duplicates : bool) (s : S) :
  storage_ok s → chain_inv pins root (view s) → batch_pinned batch →
  (∀ l, trial = Some l →
    last = Some (ledger_head l) ∧ is_Some (versions (view s) !! ledger_head l)) →
  wp (store_loop trial last all_duplicates batch) s
    (λ b s', storage_ok s' ∧ chain_inv pins root (view s') ∧
      stored_from (view s) batch (view s') ∧
      (b = true ↔ (is_Some last ∨ batch ≠ []) ∧ all_duplicates = true ∧
        Forall (is_logged (view s)) batch))
    (run_failed s last batch).
Proof using Hid Hhash.
  revert trial last all_duplicates s.
  induction batch as [|env batch IH]; intros trial last all_duplicates s Hs Hinv Hpins Htrial; simpl.
  { apply wp_ret. split_and!; [done|done|apply stored_from_refl|].
    rewrite andb_true_iff, bool_decide_eq_true. split; [naive_solver|].
    intros ([?|?] & ? & _); done. }
  assert (∀ e, refusal (view s) last env = Some e → run_failed s last (env :: batch) e s) as Hhere
    by (intros e Hr; by apply run_failed_here, one_refused).
  unfold refusal, prev_of in Hhere.
  destruct (Msg_prev_digest (payload env)) as [prev|] eqn:Hprev; [|apply wp_err; by apply Hhere].
  destruct (run_gap last prev) as [expected|] eqn:Hgap; [apply wp_err; by apply Hhere|].
  apply wp_bind, wp_ask. destruct (Envelope_digest env) as [digest|err] eqn:Hd; simpl; [|by apply Hhere].
  assert (pins digest = Some (payload env)) as Hpin by (by apply Hpins; [left|]).
  apply wp_bind. eapply read_wp; [by apply envelope_spec| |intros x; by apply run_failed_here, one_unserved]. intros logged ->.
  apply wp_bind. eapply wp_mono; [apply (store_one_wp trial last prev digest env s); try done|..].
  - intros l Hl. destruct (Htrial l Hl) as [-> Hheld]. unfold run_gap in Hgap. simpl in Hgap.
    destruct (decide (ledger_head l ≠ prev)) as [|Hne]; [done|]. apply dec_stable in Hne as <-. done.
  - intros trial' s1 (Hs1 & Hinv1 & Hfrom1 & Hlog1 & Htrial1).
    eapply wp_mono; [apply IH; try done|..].
    + intros e d Hin. by apply Hpins; right.
    + intros l Hl. destruct (Htrial1 l Hl) as [-> Hheld]. done.
    + intros b s2 (Hs2 & Hinv2 & Hfrom2 & Hb). split_and!; [done|done|..].
      { by apply (stored_from_trans _ [env] (view s1) batch). }
      rewrite Hb, andb_true_iff, bool_decide_eq_true, Forall_cons. split.
      * intros (_ & [Hall Hlogged] & Hrest).
        assert (log (view s1) = log (view s)) as Hlog by (by apply Hlog1, bool_decide_eq_true).
        split_and!; [by right|done|by exists digest|].
        unfold is_logged in *. by rewrite <-Hlog.
      * intros (_ & Hall & (d & Hd' & Hlogged) & Hrest).
        assert (d = digest) as -> by congruence.
        split_and!; [left; by eexists|done|done|].
        assert (log (view s1) = log (view s)) as Hlog by (by apply Hlog1, bool_decide_eq_true).
        unfold is_logged in *. by rewrite Hlog.
    + intros e s2 (Hs2 & Hinv2 & prefix & rest & -> & Hfrom2 & Hrest).
      split; [done|]. split; [done|]. exists (env :: prefix), rest. split_and!; [done| |].
      { by apply (stored_from_trans _ [env] (view s1) prefix). }
      unfold stopped, run_last in *. cbn [foldl]. by rewrite Hd.
  - intros e s1 Hfail. by apply run_failed_here.
Qed.
End store.

(** ** Opening a chain *)

(** What the program holds of a chain and its store. *)
Record chain_ok `{Externals} {S E : Type} `{StorageSpec S E}
    (pins : EnvelopeDigest → option Msg) (self : Chain) (s : S) : Prop := {
  co_storage : storage_ok s;
  co_inv : chain_inv pins (chain_root self) (view s);
  co_root : is_Some (versions (view s) !! chain_root self);
}.

(** A chain opened from an [Init] is in order: the genesis stands verified
    against the key set it installs itself, its version is the checkpoint's,
    and every entry of the log is what its digest says. *)
Lemma chain_init_wp `{Externals} {S E : Type} `{StorageSpec S E}
    (pins : EnvelopeDigest → option Msg) (Hid : ∀ k, is_Some (Key_id k)) (env : Envelope) (s : S) :
  storage_ok s → versions (view s) = ∅ → log (view s) = ∅ →
  (∀ d, Envelope_digest env = Ok d → pins d = Some (payload env)) →
  wp (chain_init env) s
    (λ self s', chain_ok pins self s' ∧ chain_head self = chain_root self ∧
      tip (log (view s')) (chain_root self) (chain_head self) ∧
      ∃ init status, payload env = Msg_Init init ∧
        versions (view s') = {[ chain_root self := bt_from_iter (fc_namespaces (init_state init)) ]} ∧
        log (view s') = {[ chain_root self := set_verification_status env status ]})
    (λ _ s', storage_ok s' ∧ log (view s') = ∅).
Proof.
  intros Hs Hvers Hlog Hpin. apply wp_bind.
  eapply wp_mono; [by apply ledger_init_wp| |by intros e s' [? ->]].
  intros [d] s1 (Hs1 & init & Hpay & Hd & _ & Hview1). simpl in *. apply wp_bind, wp_ask.
  apply cwp_map_err.
  eapply (cwp_mono _ (λ _, True) _ (λ _, True)); [|intros status _|intros _ _; by rewrite Hview1].
  { eapply cwp_mono; [apply (verify_reader_cwp Hid s1 d (bt_from_iter (fc_namespaces (init_state init))))|done|done];
      [done|]. rewrite Hview1. apply lookup_insert_eq. }
  apply wp_bind. eapply write_wp; [apply put_envelope_spec; [done|]|..].
  - intros old Ho. rewrite Hview1 in Ho. simpl in Ho. by rewrite Hlog, lookup_empty in Ho.
  - intros _ s2 [Hs2 Hview2]. apply wp_ret. rewrite Hview2, Hview1. simpl. rewrite Hvers, Hlog.
    split_and!; [|done|..].
    + split; [done|..]; rewrite Hview2, Hview1; simpl; rewrite ?Hvers, ?Hlog.
      * split; simpl.
        -- intros d' e' He'. rewrite Hlog in He'. apply lookup_insert_Some in He' as [[<- <-]|[_ He']];
             [|by rewrite lookup_empty in He']. split; [done|by apply Hpin].
        -- intros d' m p v Hne Hm Hp Hv. rewrite Hvers in Hv.
           apply lookup_insert_Some in Hv as [[? _]|[_ Hv]]; [done|by rewrite lookup_empty in Hv].
        -- intros d' Hne [v [[? _]|[_ Hv]]%lookup_insert_Some]; [done|by rewrite Hvers, lookup_empty in Hv].
      * rewrite lookup_insert_eq. by eexists.
    + split; [apply rtc_refl|]. intros d' (e' & He' & Hp').
      apply lookup_insert_Some in He' as [[<- <-]|[_ He']]; [|by rewrite lookup_empty in He'].
      unfold prev_of in Hp'. simpl in Hp'. by rewrite Hpay in Hp'.
    + by exists init, status.
  - intros x s2 [Hs2 Hview2]. by rewrite Hview2, Hview1.
Qed.
