(* ===== verification/ChainInsert.v ===== *)
(** * Inserting a run of envelopes

    What an insert stores, where it leaves the canonical head and what it
    reports, and how the walk repeats where everything is held. *)

From S2P Require Import Prelude BTree Text Codec Externals Keys Subkey Msg Envelope Value Storage.
From S2P Require Import Addr StateError Ledger LedgerSpec LedgerProps Chain ChainSpec ChainStore.

(** ** Lemmas *)

Lemma wp_on_snd {C S E A} (m : M S E A) (c : C) s (Q : A → C * S → Prop) X :
  wp m s (λ a s', Q a (c, s')) (λ e s', X e (c, s')) → wp (on_snd m) (c, s) Q X.
Proof. unfold wp, on_snd. simpl. by destruct (m s) as [[[a|e] s']| |]. Qed.

Lemma wp_get_fst {C S E} (c : C) s (Q : C → C * S → Prop) (X : E → C * S → Prop) :
  Q c (c, s) → wp get_fst (c, s) Q X.
Proof. done. Qed.

Lemma wp_put_fst {C S E} (c c' : C) s (Q : () → C * S → Prop) (X : E → C * S → Prop) :
  Q () (c', s) → wp (put_fst c') (c, s) Q X.
Proof. done. Qed.

Lemma size_list_to_set_le {A} `{Countable A} (l : list A) :
  size (list_to_set (C:=gset A) l) ≤ length l.
Proof.
  induction l as [|a l IH]; simpl; [done|].
  rewrite size_union_alt, size_singleton.
  assert (size (list_to_set (C:=gset A) l ∖ {[a]}) ≤ size (list_to_set (C:=gset A) l))
    by (apply subseteq_size; set_solver). lia.
Qed.

Lemma length_omap_le {A B} (f : A → option B) (l : list A) : length (omap f l) ≤ length l.
Proof. induction l as [|a l IH]; csimpl; [done|]. destruct (f a); simpl; lia. Qed.

Lemma stored_from_size `{Externals} st batch st' :
  stored_from st batch st' → size (log st') ≤ size (log st) + length batch.
Proof.
  intros [_ _ Hnew _].
  set (ds := omap (λ e, match Envelope_digest e with Ok d => Some d | Err _ => None end) batch).
  assert (dom (log st') ⊆ dom (log st) ∪ list_to_set ds) as Hsub.
  { intros d [e' He']%elem_of_dom. destruct (log st !! d) as [old|] eqn:Hold.
    - apply elem_of_union_l. by apply elem_of_dom_2 in Hold.
    - apply elem_of_union_r, elem_of_list_to_set, list_elem_of_omap.
      destruct (Hnew d e' He' Hold) as (e & _ & _ & _ & Hin & Hd & _). exists e. by rewrite Hd. }
  apply subseteq_size in Hsub. rewrite size_union_alt, !size_dom in Hsub.
  etransitivity; [exact Hsub|]. apply Nat.add_le_mono_l.
  transitivity (size (list_to_set (C:=gset EnvelopeDigest) ds)); [apply subseteq_size; set_solver|].
  transitivity (length ds); [apply size_list_to_set_le|].
  apply length_omap_le.
Qed.

Section insert.
Context `{Externals} {S E : Type} `{StorageSpec S E}.
Variables (pins : EnvelopeDigest → option Msg) (rank : EnvelopeDigest → nat).
Hypothesis Hid : ∀ k, is_Some (Key_id k).
Hypothesis Hhash : HashOk pins rank.

(** How the insert reads its own outcome. *)
Definition insert_reads (old new : Chain) (before after : Store) (batch : list Envelope)
    (ins : Insert) : Prop :=
  match ins with
  | Insert_Extended =>
      chain_head new ≠ chain_head old ∧ ancestor (log after) (chain_head old) (chain_head new)
  | Insert_Reorged from =>
      from = chain_head old ∧ chain_head new ≠ chain_head old ∧
      ¬ ancestor (log after) (chain_head old) (chain_head new)
  | Insert_Duplicate =>
      chain_head new = chain_head old ∧ batch ≠ [] ∧ Forall (is_logged before) batch
  | Insert_Unchanged =>
      chain_head new = chain_head old ∧ ¬ (batch ≠ [] ∧ Forall (is_logged before) batch)
  end.

(** The run is stored as far as [prefix], and its head [rest] says why no further. *)
Definition stored_until (s : S) (prefix rest : list Envelope) (e : Error E) (s1 : S) : Prop :=
  stored_from (view s) prefix (view s1) ∧ stopped None (view s1) prefix rest e.

(** An insert that fails: the part of the run before the fault is stored, and the
    fault is what the rules make of the envelope after it, over what is stored —
    or the backend's. The walk then either moved the head to the tip of what is
    stored, changing nothing of the log; or failed itself, and left the chain where
    it was. *)
Definition insert_fails (self : Chain) (s : S) (batch : list Envelope) (e : Error E)
    (self' : Chain) (s' : S) : Prop :=
  extends (view s) (view s') ∧
  ∃ prefix rest s1, batch = prefix ++ rest ∧ extends (view s1) (view s') ∧
    ((stored_until s prefix rest e s1 ∧ log (view s') = log (view s1) ∧
      tip (log (view s')) (chain_root self) (chain_head self') ∧
      is_Some (versions (view s') !! chain_head self')) ∨
     (self' = self ∧ walk_fails s1 (chain_root self) e s' ∧
      (stored_from (view s) prefix (view s1) ∧ rest = [] ∨ ∃ e0, stored_until s prefix rest e0 s1))).

Lemma fails_stored (self : Chain) (s : S) prefix rest e s1 s' :
  stored_until s prefix rest e s1 → extends (view s1) (view s') → log (view s') = log (view s1) →
  stored_from (view s) prefix (view s').
Proof using.
  intros [Hfrom _] Hext Hlog. rewrite <-(app_nil_r prefix). eapply stored_from_trans; [done|].
  by apply stored_from_extends.
Qed.

(** What storing a run leaves, by its result. *)
Definition store_outcome (self : Chain) (s : S) (batch : list Envelope)
    (r : Result (Error E) bool) (s1 : S) : Prop :=
  storage_ok s1 ∧ chain_inv pins (chain_root self) (view s1) ∧
  ∃ prefix rest, batch = prefix ++ rest ∧ stored_from (view s) prefix (view s1) ∧
    match r with
    | Ok b => rest = [] ∧ (b = true ↔ batch ≠ [] ∧ Forall (is_logged (view s)) batch)
    | Err e => stopped None (view s1) prefix rest e
    end.

Lemma store_batch_outcome (self : Chain) (s : S) (batch : list Envelope) :
  chain_ok pins self s → batch_pinned pins batch →
  wp (store_batch batch) s (λ b, store_outcome self s batch (Ok b))
    (λ e, store_outcome self s batch (Err e)).
Proof using Hid Hhash.
  intros [Hs Hinv Hroot] Hpins.
  eapply wp_mono; [by apply (store_loop_wp pins rank Hid Hhash (chain_root self))|..].
  - intros b s1 (Hs1 & Hinv1 & Hfrom & Hb). split; [done|]. split; [done|].
    exists batch, []. rewrite app_nil_r. split_and!; [done|done|done|].
    rewrite Hb. split; [|naive_solver]. intros ([[? ?]|?] & _ & ?); done.
  - intros e s1 (Hs1 & Hinv1 & prefix & rest & Hbatch & Hfrom & Hfault).
    split; [done|]. split; [done|]. by exists prefix, rest.
Qed.

(** The report on a head that moved to [ledger] over [s2]. *)
Lemma report_wp (fuel : nat) (self : Chain) (s s2 : S) (batch : list Envelope)
    (ledger : Ledger) (b : bool) :
  let self' := MkChain (chain_root self) ledger in
  chain_ok pins self' s2 → size (log (view s2)) + 1 < fuel →
  (b = true ↔ batch ≠ [] ∧ Forall (is_logged (view s)) batch) →
  wp (if decide (ledger_head ledger ≠ chain_head self) then
        let! extended :=
          on_snd (m_ask (λ s, descends fuel s (ledger_head ledger) (chain_head self))) in
        m_ret (if extended : bool then Insert_Extended else Insert_Reorged (chain_head self))
      else m_ret (if b then Insert_Duplicate else Insert_Unchanged)) (self', s2)
    (λ ins cs, cs = (self', s2) ∧ insert_reads self self' (view s) (view s2) batch ins)
    (λ e cs, cs = (self', s2) ∧ ∃ x, e = Error_Storage x).
Proof using Hhash.
  intros self' [Hs2 Hinv2 _] Hfuel Hb.
  destruct (decide (ledger_head ledger ≠ chain_head self)) as [Hne|Heq].
  - apply wp_bind, wp_on_snd, wp_ask.
    eapply cwp_mono; [by apply (descends_cwp pins rank Hhash (chain_root self))| |by intros e Hx].
    intros extended Hext. apply wp_ret. split; [done|].
    destruct extended; simpl; [split; [done|by apply Hext]|].
    split_and!; [done|done|]. by intros Ha%Hext.
  - apply dec_stable in Heq. apply wp_ret. split; [done|].
    destruct b; simpl; (split; [done|]); [by apply Hb|]. by intros Hall%Hb.
Qed.

(** ** Versions along the canonical path *)

Lemma rank_root st root d :
  chain_inv pins root st → rtc (winner (log st)) root d → rank root ≤ rank d.
Proof using Hhash.
  intros Hinv. revert d. apply (rtc_ind_r (λ d, rank root ≤ rank d)); [done|].
  intros x y Hpath [Hc _] IH.
  pose proof (child_rank pins rank Hhash root st x y Hinv Hc). lia.
Qed.

Lemma path_version_eq st1 st2 root d v1 v2 :
  chain_inv pins root st1 → chain_inv pins root st2 →
  versions st1 !! root = versions st2 !! root → rtc (winner (log st1)) root d →
  versions st1 !! d = Some v1 → versions st2 !! d = Some v2 → v1 = v2.
Proof using Hhash.
  intros Hinv1 Hinv2 Hroot Hpath. revert v1 v2. revert d Hpath.
  apply (rtc_ind_r (λ d, ∀ v1 v2, versions st1 !! d = Some v1 → versions st2 !! d = Some v2 →
    v1 = v2)); [congruence|].
  intros p d Hpath [Hc _] IH v1 v2 Hv1 Hv2.
  assert (d ≠ root) as Hne.
  { intros ->. pose proof (rank_root st1 root p Hinv1 Hpath).
    pose proof (child_rank pins rank Hhash root st1 p root Hinv1 Hc). lia. }
  destruct Hc as (e & He & Hp). destruct (inv_pinned _ _ _ Hinv1 d e He) as [_ Hd].
  destruct (inv_derived _ _ _ Hinv1 d _ p v1 Hne Hd Hp Hv1) as (w1 & op1 & Hw1 & Hop1 & Ha1).
  destruct (inv_derived _ _ _ Hinv2 d _ p v2 Hne Hd Hp Hv2) as (w2 & op2 & Hw2 & Hop2 & Ha2).
  rewrite (IH w1 w2 Hw1 Hw2) in Ha1. congruence.
Qed.

(** A held version's canonical ancestors are held. *)
Lemma path_held st root p d :
  chain_inv pins root st → rtc (winner (log st)) root p → winner (log st) p d →
  is_Some (versions st !! d) → is_Some (versions st !! p).
Proof using Hhash.
  intros Hinv Hpath [Hc _] [v Hv].
  assert (d ≠ root) as Hne.
  { intros ->. pose proof (rank_root st root p Hinv Hpath).
    pose proof (child_rank pins rank Hhash root st p root Hinv Hc). lia. }
  destruct Hc as (e & He & Hp). destruct (inv_pinned _ _ _ Hinv d e He) as [_ Hd].
  destruct (inv_derived _ _ _ Hinv d _ p v Hne Hd Hp Hv) as (w & _ & Hw & _). by exists w.
Qed.

(** ** Walking where everything is held *)

Lemma step_held_wp (s : S) p d :
  storage_ok s → winner (log (view s)) p d → is_Some (versions (view s) !! d) →
  wp (step (MkLedger p)) s (λ next s', next = Some (MkLedger d) ∧ s' = s)
    (λ e s', s' = s ∧ ∃ x, e = Error_Storage x).
Proof using.
  intros Hs Hwin Hheld. unfold step. apply wp_bind.
  eapply read_wp; [by apply children_vec_spec| |intros x; split; [done|by exists x]].
  intros ds [_ Hds]. apply wp_bind, wp_ask.
  eapply cwp_mono; [apply candidates_cwp; [done|]| |done].
  { intros d' (e & He & _)%Hds. by eexists. }
  intros cs Hcs. pose proof (max_candidate (log (view s)) _ _ _ Hds Hcs) as Hmax.
  destruct (max_by_key _ cs) as [[[w child] env]|]; [|by destruct (Hmax d), Hwin].
  destruct Hmax as [Hwin' _]. assert (child = d) as -> by (by eapply winner_unique).
  apply wp_bind. eapply read_wp; [by apply contains_version_spec| |intros x; split; [done|by exists x]].
  intros held ->. rewrite bool_decide_true by done.
  apply wp_bind, wp_ask. eapply cwp_mono; [by apply ledger_open_cwp| |done].
  by intros l ->.
Qed.

Lemma step_tip_wp (s : S) p :
  storage_ok s → (∀ d, ¬ logged_child (log (view s)) p d) →
  wp (step (MkLedger p)) s (λ next s', next = None ∧ s' = s)
    (λ e s', s' = s ∧ ∃ x, e = Error_Storage x).
Proof using.
  intros Hs Htip. unfold step. apply wp_bind.
  eapply read_wp; [by apply children_vec_spec| |intros x; split; [done|by exists x]].
  intros ds [_ Hds]. apply wp_bind, wp_ask.
  eapply cwp_mono; [apply candidates_cwp; [done|]| |done].
  { intros d' Hd%Hds. by destruct (Htip d'). }
  intros cs Hcs. pose proof (max_candidate (log (view s)) _ _ _ Hds Hcs) as Hmax.
  destruct (max_by_key _ cs) as [[[w child] env]|]; [|by apply wp_ret].
  destruct Hmax as [[Hc _] _]. by destruct (Htip child).
Qed.

(** The walk down a path whose versions are held reads, and ends at its tip. *)
Lemma canonicalize_path_wp (fuel : nat) (s : S) p h :
  storage_ok s → (∀ x y, logged_child (log (view s)) x y → rank x < rank y) → tip (log (view s)) p h →
  (∀ x, rtc (winner (log (view s))) p x → rtc (winner (log (view s))) x h → is_Some (versions (view s) !! x)) →
  higher rank (log (view s)) p < fuel →
  wp (canonicalize_loop fuel (MkLedger p)) s (λ l s', l = MkLedger h ∧ s' = s)
    (λ e s', s' = s ∧ ∃ x, e = Error_Storage x).
Proof using.
  intros Hs Hr [Hpath Hend]. revert fuel.
  induction Hpath as [p|p d h Hwin Hpath IH]; intros [|fuel] Hheld Hf; try lia; simpl; apply wp_bind.
  - eapply wp_mono; [by apply step_tip_wp| |done]. by intros next s' [-> ->].
  - eapply wp_mono; [apply (step_held_wp s p d Hs Hwin)| |done].
    { apply Hheld; [by apply rtc_once|done]. }
    intros next s' [-> ->]. apply IH; [done| |].
    + intros x Hdx. apply Hheld. by eapply rtc_l.
    + pose proof (higher_child rank (log (view s)) p d (proj1 Hwin) (Hr p d (proj1 Hwin))). lia.
Qed.

Lemma canonicalize_held_wp (fuel : nat) (s : S) root p h :
  storage_ok s → chain_inv pins root (view s) → rtc (winner (log (view s))) root p →
  tip (log (view s)) p h → is_Some (versions (view s) !! h) →
  higher rank (log (view s)) p < fuel →
  wp (canonicalize_loop fuel (MkLedger p)) s (λ l s', l = MkLedger h ∧ s' = s)
    (λ e s', s' = s ∧ ∃ x, e = Error_Storage x).
Proof using Hhash.
  intros Hs Hinv Hroot Htip Hheld Hf. apply canonicalize_path_wp; [done| |done| |done].
  - intros x y. by eapply child_rank.
  - intros x Hpx Hxy. assert (rtc (winner (log (view s))) root x) as Hx by (by etrans).
    clear Htip Hf Hpx. induction Hxy as [|x y z Hw Hxy IH]; [done|].
    assert (rtc (winner (log (view s))) root y) as Hy by (by eapply rtc_r).
    by eapply path_held; [| |exact Hw|apply IH].
Qed.
End insert.

(** ** The insert *)

Lemma insert_batch_wp `{Externals} {S E : Type} `{StorageSpec S E}
    (pins : EnvelopeDigest → option Msg) (rank : EnvelopeDigest → nat)
    (Hid : ∀ k, is_Some (Key_id k)) (Hhash : HashOk pins rank)
    (fuel : nat) (batch : list Envelope) (self : Chain) (s : S) :
  chain_ok pins self s → batch_pinned pins batch →
  size (log (view s)) + length batch + 1 < fuel →
  wp (insert_batch fuel batch) (self, s)
    (λ ins cs, chain_ok pins cs.1 cs.2 ∧ chain_root cs.1 = chain_root self ∧
      stored_from (view s) batch (view cs.2) ∧
      is_Some (versions (view cs.2) !! chain_head cs.1) ∧
      tip (log (view cs.2)) (chain_root self) (chain_head cs.1) ∧
      insert_reads self cs.1 (view s) (view cs.2) batch ins)
    (λ e cs, chain_ok pins cs.1 cs.2 ∧ chain_root cs.1 = chain_root self ∧
      insert_fails self s batch e cs.1 cs.2).
Proof.
  intros Hok Hpins Hfuel. unfold insert_batch.
  apply wp_bind, wp_on_snd, wp_catch.
  assert (∀ r s1, store_outcome pins self s batch r s1 →
    wp (walk_and_report fuel r) (self, s1) (λ ins cs, chain_ok pins cs.1 cs.2 ∧
        chain_root cs.1 = chain_root self ∧
        stored_from (view s) batch (view cs.2) ∧
        is_Some (versions (view cs.2) !! chain_head cs.1) ∧
        tip (log (view cs.2)) (chain_root self) (chain_head cs.1) ∧
        insert_reads self cs.1 (view s) (view cs.2) batch ins)
      (λ e cs, chain_ok pins cs.1 cs.2 ∧ chain_root cs.1 = chain_root self ∧
        insert_fails self s batch e cs.1 cs.2)) as Hrest;
    [|eapply wp_mono; [by apply (store_batch_outcome pins rank Hid Hhash self s batch)|..];
      intros r s1 Hout; by apply Hrest].
  intros r s1 (Hs1 & Hinv1 & prefix & rest & Hbatch & Hfrom & Hr).
  pose proof (stored_from_size _ _ _ Hfrom) as Hsize.
  assert (length prefix ≤ length batch) as Hlen by (rewrite Hbatch, length_app; lia).
  assert (is_Some (versions (view s1) !! chain_root self)) as Hroot1
    by (by eapply extends_held; [apply (sf_versions _ _ _ Hfrom)|apply (co_root _ _ _ Hok)]).
  apply wp_bind, wp_get_fst, wp_bind, wp_on_snd.
  eapply wp_mono; [apply (canonicalize_wp pins rank Hid Hhash); try done; lia|..].
  - intros ledger s2 (Hs2 & Hinv2 & Hlog2 & Hext2 & Hheld2 & Htip).
    assert (stored_from (view s) prefix (view s2)) as Hfrom2.
    { rewrite <-(app_nil_r prefix). eapply stored_from_trans; [done|]. by apply stored_from_extends. }
    assert (chain_ok pins (MkChain (chain_root self) ledger) s2) as Hok2
      by (split; [done|done|by eapply extends_held]).
    apply wp_bind, wp_put_fst, wp_bind, wp_lift. rewrite <-Hlog2 in Htip.
    destruct r as [b|e]; [|split; [done|]; split; [done|]; split; [apply Hfrom2|]; exists prefix, rest, s1; split; [done|]; split; [done|left]; by split_and!].
    destruct Hr as [-> Hb]. rewrite app_nil_r in Hbatch. subst prefix.
    eapply wp_mono; [apply (report_wp pins rank Hhash fuel self s s2 batch ledger b Hok2); [rewrite Hlog2; lia|done]|..].
    + by intros ins cs [-> Hreads].
    + intros e cs [-> [x ->]]. split; [done|]. split; [done|]. split; [apply Hfrom2|]. exists batch, [], s1. rewrite app_nil_r.
      split; [done|]. split; [done|left]. split; [split; [done|by right]|done].
  - intros e s2 (Hs2 & Hinv2 & Hext2 & Hfails). split; [|split; [done|split]].
    + split; [done|done|by eapply extends_held].
    + eapply extends_trans; [apply Hfrom|done].
    + exists prefix, rest, s1. split; [done|]. split; [done|right]. split; [done|]. split; [done|].
      destruct r as [b|e0]; [left; by destruct Hr|right; by exists e0].
Qed.

(** ** Runs the rules admit *)

(** A run retraced from a version, each envelope verified and judged at its parent's:
    where it ends, or that some envelope of it is refused. *)
Fixpoint retrace `{Externals} (at_ : EnvelopeDigest) (ver : list (NamespaceKey * Namespace)) (run : list Envelope)
    : option (EnvelopeDigest * list (NamespaceKey * Namespace)) :=
  match run with
  | [] => Some (at_, ver)
  | env :: rest =>
      match verify_envelope (MkLedger at_) ver env with
      | Ret (Ok status) =>
          match judge (MkLedger at_) ver (set_verification_status env status) with
          | Ret (Ok (d, op)) => op_apply op ver ≫= λ ver', retrace d ver' rest
          | _ => None
          end
      | _ => None
      end
  end.

(** The envelope is logged, or its version is held. *)
Definition known `{Externals} (st : Store) (e : Envelope) : Prop :=
  ∃ d, Envelope_digest e = Ok d ∧ (is_Some (log st !! d) ∨ is_Some (versions st !! d)).

(** Every version of the log is held. *)
Definition log_held (st : Store) : Prop := ∀ d, is_Some (log st !! d) → is_Some (versions st !! d).

Lemma log_held_stored `{Externals} st run st' : stored_from st run st' → log_held st → log_held st'.
Proof.
  intros Hfrom Hheld d [e He]. destruct (log st !! d) as [e0|] eqn:He0.
  - eapply extends_held; [apply Hfrom|]. apply Hheld. by eexists.
  - by destruct (sf_new _ _ _ Hfrom d e He He0) as (? & ? & ? & ? & _ & _ & _ & _ & _ & _ & ?).
Qed.

Lemma known_stored `{Externals} st run st' e : stored_from st run st' → known st e → known st' e.
Proof.
  intros Hfrom (d & Hd & [[x Hx]|Hv]); exists d; (split; [done|]).
  - left. exists x. eapply lookup_weaken; [done|apply Hfrom].
  - right. eapply extends_held; [apply Hfrom|done].
Qed.

Section admitted.
Context `{Externals}.
Variables (pins : EnvelopeDigest → option Msg) (rank : EnvelopeDigest → nat).
Hypothesis Hid : ∀ k, is_Some (Key_id k).
Hypothesis Hhash : HashOk pins rank.
Variable root : EnvelopeDigest.

Lemma retrace_app at_ ver run rest :
  retrace at_ ver (run ++ rest) = retrace at_ ver run ≫= λ r, retrace r.1 r.2 rest.
Proof using.
  revert at_ ver. induction run as [|env run IH]; intros at_ ver; simpl; [done|].
  destruct (verify_envelope _ _ _) as [[status|]| |]; [|done..].
  destruct (judge _ _ _) as [[[d op]|]| |]; [|done..]. destruct (op_apply op ver); simpl; [apply IH|done].
Qed.

(** An envelope the retrace takes, on the version at its parent. *)
Lemma retrace_cons at_ ver env rest r :
  retrace at_ ver (env :: rest) = Some r →
  ∃ status d op ver', verify_envelope (MkLedger at_) ver env = Ret (Ok status) ∧
    judge (MkLedger at_) ver (set_verification_status env status) = Ret (Ok (d, op)) ∧
    prev_of env = Some at_ ∧ Envelope_digest env = Ok d ∧ msg_op (payload env) = Some op ∧
    op_apply op ver = Some ver' ∧ retrace d ver' rest = Some r.
Proof using Hid.
  simpl. destruct (verify_envelope _ _ _) as [[status|]| |] eqn:Hv; [|done..].
  pose proof (judge_cwp Hid (MkLedger at_) ver (set_verification_status env status)) as Hj. unfold cwp in Hj.
  destruct (judge _ _ _) as [[[d op]|]| |] eqn:Hjudge; [|done..]. destruct Hj as [Hp Hd Hop _ _ _ _ _].
  destruct (op_apply op ver) as [ver'|] eqn:Ha; [|done]. intros Hr. exists status, d, op, ver'. done.
Qed.

(** The root is below every version held. *)
Lemma rank_root_held st d : chain_inv pins root st → is_Some (versions st !! d) → rank root ≤ rank d.
Proof using Hhash.
  intros Hinv. remember (rank d) as n eqn:Hn. revert d Hn.
  induction (lt_wf n) as [n _ IH]. intros d -> [v Hv].
  destruct (decide (d = root)) as [->|Hne]; [done|].
  destruct (inv_born _ _ _ Hinv d Hne ltac:(by eexists)) as (m & p & Hm & Hp).
  destruct (inv_derived _ _ _ Hinv d m p v Hne Hm Hp Hv) as (vp & _ & Hvp & _).
  pose proof (rank_prev _ _ Hhash d m p Hm Hp) as Hlt.
  pose proof (IH (rank p) Hlt p eq_refl ltac:(by eexists)). lia.
Qed.

(** Where the retrace takes a run whose versions are held, it reads the versions the
    store holds, and that any store extending it reads. *)
Lemma retrace_held st st' at_ ver run mid ver' last :
  chain_inv pins root st' → extends st st' → log_held st → batch_pinned pins run → Forall (known st) run →
  versions st !! at_ = Some ver → retrace at_ ver run = Some (mid, ver') → last = None ∨ last = Some at_ →
  versions st !! mid = Some ver' ∧ (run_last last run = None ∨ run_last last run = Some mid).
Proof using Hid Hhash.
  intros Hinv Hext Hheld. revert at_ ver last. induction run as [|env run IH]; intros at_ ver last Hpins Hk Hver Hr Hlast.
  - simpl in *. by simplify_eq.
  - apply Forall_cons in Hk as [(d0 & Hd0 & Hk) Hks].
    apply retrace_cons in Hr as (status & d & op & ver1 & _ & _ & Hp & Hd & Hop & Ha & Hr).
    assert (d0 = d) as -> by congruence.
    assert (is_Some (versions st !! d)) as [v Hv] by (destruct Hk as [Hl|Hl]; [by apply Hheld|done]).
    pose proof (Hpins env d ltac:(by left) Hd) as Hpin.
    assert (d ≠ root) as Hne.
    { intros ->. pose proof (rank_prev _ _ Hhash root _ at_ Hpin Hp).
      pose proof (rank_root_held st' at_ Hinv (extends_held _ _ at_ Hext (mk_is_Some _ _ Hver))). lia. }
    pose proof (lookup_weaken _ _ _ _ Hver Hext) as Hver'.
    destruct (inv_derived _ _ _ Hinv d _ at_ v Hne Hpin Hp ltac:(by eapply lookup_weaken)) as (vp & op' & Hvp & Hop' & Ha').
    apply (IH d ver1); [|done| |done|by right; rewrite Hd].
    + intros e d' Hin. apply Hpins. by right.
    + congruence.
Qed.

(** An envelope the retrace takes is not refused there. *)
Lemma retrace_refusal {E} st last at_ ver env rest r :
  versions st !! at_ = Some ver → retrace at_ ver (env :: rest) = Some r →
  last = None ∨ last = Some at_ → refusal (E:=E) st last env = None.
Proof using Hid.
  intros Hver Hr Hlast. apply retrace_cons in Hr as (status & d & op & ver1 & Hv & Hj & Hp & Hd & _).
  unfold refusal. rewrite Hp.
  assert (run_gap last at_ = None) as -> by (destruct Hlast as [->| ->]; [done|]; simpl; by rewrite decide_False by auto).
  rewrite Hd, Hver, Hv, Hj. by destruct (log st !! d), (versions st !! d).
Qed.

(** So a run the rules admit fails on nothing but the backend: whatever part of it
    the store came to hold. *)
Lemma retrace_stops {E} st st' at_ ver run r prefix rest (e : Error E) :
  chain_inv pins root st' → extends st st' → log_held st → batch_pinned pins run → versions st !! at_ = Some ver →
  retrace at_ ver run = Some r → run = prefix ++ rest → Forall (known st) prefix →
  stopped None st prefix rest e → backend_failed e.
Proof using Hid Hhash.
  intros Hinv Hext Hheld Hpins Hver Hr -> Hk [(env & more & -> & He)|Hx]; [|done].
  rewrite retrace_app in Hr. destruct (retrace at_ ver prefix) as [[mid ver']|] eqn:Hmid; [|done].
  destruct (retrace_held st st' at_ ver prefix mid ver' None) as [Hver' Hlast]; try done; [|by left|].
  { intros x d Hin. apply Hpins. apply elem_of_app. by left. }
  by rewrite (retrace_refusal (E:=E) st _ mid ver' env more r) in He.
Qed.
End admitted.
