(* ===== verification/ChainCompact.v ===== *)
(** * Compaction

    What [Chain::compact] removes: the log below the cut is untouched, what
    hangs off the cut's ancestors elsewhere goes, chains that share the store
    are left alone. The removal is a depth-first walk on an explicit stack; its
    invariant ([stack_ok]) is what makes it take each subtree whole, children
    before their parent, and end. *)

From S2P Require Import Prelude BTree Text Codec Externals Keys Subkey Msg Envelope Value Storage.
From S2P Require Import Addr StateError Ledger LedgerSpec LedgerProps Chain ChainSpec ChainStore.
From S2P Require Import ChainInsert.

(** ** The log as a forest *)

Definition ranked (rank : EnvelopeDigest → nat) (lg : gmap EnvelopeDigest Envelope) : Prop :=
  ∀ p d, logged_child lg p d → rank p < rank d.

#[export] Instance ancestor_preorder lg : PreOrder (ancestor lg).
Proof. split; [intros x; apply rtc_refl|intros x y z; unfold ancestor; etransitivity; eassumption]. Qed.

Section forest.
Variables (rank : EnvelopeDigest → nat) (lg : gmap EnvelopeDigest Envelope).
Hypothesis Hranked : ranked rank lg.

Lemma ancestor_rank a d : ancestor lg a d → rank a ≤ rank d.
Proof using Hranked.
  induction 1 as [x|x y z Hc _ IH]; [done|]. specialize (Hranked x y Hc). lia.
Qed.

Lemma ancestor_antisym a d : ancestor lg a d → ancestor lg d a → a = d.
Proof using Hranked.
  intros Had Hda. destruct Had as [x|x y z Hc Hyz]; [done|].
  pose proof (Hranked x y Hc). pose proof (ancestor_rank y z Hyz). pose proof (ancestor_rank z x Hda). lia.
Qed.

(** The ancestors of an envelope are a chain. *)
Lemma ancestor_linear a b x : ancestor lg a x → ancestor lg b x → ancestor lg a b ∨ ancestor lg b a.
Proof using.
  intros Ha. revert b. revert x Ha.
  apply (rtc_ind_r (λ x, ∀ b, ancestor lg b x → ancestor lg a b ∨ ancestor lg b a)); [by right|].
  intros y z Hay Hc IH b Hbz. apply rtc_inv_r in Hbz as [->|(y' & Hby & Hc')].
  - left. by eapply rtc_r.
  - rewrite (logged_child_fun lg y' y z Hc' Hc) in Hby. by apply IH.
Qed.

Lemma siblings_disjoint p c c' x :
  logged_child lg p c → logged_child lg p c' → ancestor lg c x → ancestor lg c' x → c = c'.
Proof using Hranked.
  intros Hc Hc' Hx Hx'.
  assert (∀ a b, logged_child lg p a → logged_child lg p b → ancestor lg a b → a = b) as Hsib.
  { intros a b Ha Hb Hab. apply rtc_inv_r in Hab as [->|(q & Haq & Hq)]; [done|].
    rewrite (logged_child_fun lg q p b Hq Hb) in Haq.
    pose proof (Hranked p a Ha). pose proof (ancestor_rank a p Haq). lia. }
  destruct (ancestor_linear c c' x Hx Hx'); [by apply Hsib|symmetry; by apply Hsib].
Qed.

Lemma child_not_above p c : logged_child lg p c → ¬ ancestor lg c p.
Proof using Hranked.
  intros Hc Hcp. pose proof (Hranked p c Hc). pose proof (ancestor_rank c p Hcp). lia.
Qed.
End forest.

(** ** Taking a part out of a log *)

(** [lg'] is [lg] without the entries of [P]. *)
Record pruned (lg : gmap EnvelopeDigest Envelope) (P : EnvelopeDigest → Prop)
    (lg' : gmap EnvelopeDigest Envelope) : Prop := {
  pr_gone x : P x → lg' !! x = None;
  pr_kept x : ¬ P x → lg' !! x = lg !! x;
}.

Lemma pruned_sub lg P lg' : pruned lg P lg' → lg' ⊆ lg.
Proof.
  intros [Hgone Hkept]. apply map_subseteq_spec. intros x e He.
  rewrite <-Hkept; [done|]. intros HP. by rewrite (Hgone x HP) in He.
Qed.

Lemma pruned_none lg P lg' : (∀ x, ¬ P x) → lg' = lg → pruned lg P lg'.
Proof. intros HP ->. split; [|done]. intros x Hx. by destruct (HP x). Qed.

Lemma pruned_iff lg P Q lg' : (∀ x, P x ↔ Q x) → pruned lg P lg' → pruned lg Q lg'.
Proof. intros HPQ [Hgone Hkept]. split; intros x Hx; [by apply Hgone, HPQ|apply Hkept; by rewrite HPQ]. Qed.

Lemma pruned_delete lg d : pruned lg (λ x, x = d) (delete d lg).
Proof. split; [intros x ->; apply lookup_delete_eq|intros x Hne; by apply lookup_delete_ne]. Qed.

(** One removal after another. *)
Lemma pruned_trans lg P lg1 Q1 lg2 R :
  pruned lg P lg1 → pruned lg1 Q1 lg2 →
  (∀ x, P x → R x) → (∀ x, Q1 x → is_Some (lg1 !! x) → R x) →
  (∀ x, R x → ¬ P x → is_Some (lg1 !! x) → ¬ ¬ Q1 x) →
  pruned lg R lg2.
Proof.
  intros H1 H2 HP HQ HR. pose proof (pruned_sub _ _ _ H2) as Hsub. destruct H1 as [Hg1 Hk1], H2 as [Hg2 Hk2].
  split; intros x Hx.
  - destruct (lg2 !! x) as [e|] eqn:He; [|done]. exfalso.
    assert (lg1 !! x = Some e) as He1 by (by eapply lookup_weaken).
    assert (¬ P x) as HnP by (intros HPx; by rewrite (Hg1 x HPx) in He1).
    apply (HR x Hx HnP); [by eexists|]. intros HQx. by rewrite (Hg2 x HQx) in He.
  - assert (¬ P x) as HnP by (intros HPx; by apply Hx, HP).
    destruct (lg1 !! x) as [e|] eqn:He.
    + rewrite Hk2, He, <-(Hk1 x HnP); [done|]. intros HQx. apply Hx, HQ; [done|by eexists].
    + rewrite <-(Hk1 x HnP), He. destruct (lg2 !! x) as [e|] eqn:He2; [|done].
      pose proof (lookup_weaken _ _ _ _ He2 Hsub). congruence.
Qed.

Lemma pruned_child lg P lg' p d : pruned lg P lg' → logged_child lg' p d → logged_child lg p d ∧ ¬ P d.
Proof.
  intros Hpr (e & He & Hp). split.
  - exists e. split; [by eapply lookup_weaken; [|eapply pruned_sub]|done].
  - intros HP. by rewrite (pr_gone _ _ _ Hpr d HP) in He.
Qed.

Lemma pruned_child_kept lg P lg' p d : pruned lg P lg' → logged_child lg p d → ¬ P d → logged_child lg' p d.
Proof. intros Hpr (e & He & Hp) HP. exists e. split; [by rewrite (pr_kept _ _ _ Hpr d HP)|done]. Qed.

Lemma pruned_ranked rank lg P lg' : ranked rank lg → pruned lg P lg' → ranked rank lg'.
Proof. intros Hr Hpr p d Hc. apply Hr. by eapply pruned_child. Qed.

Lemma pruned_ancestor lg P lg' a x : pruned lg P lg' → ancestor lg' a x → ancestor lg a x.
Proof. intros Hpr. apply rtc_subrel. intros p d Hc. by eapply pruned_child. Qed.

(** Ancestry survives where what is taken lies off the way. *)
Lemma pruned_ancestor_kept lg P lg' a x :
  pruned lg P lg' → ancestor lg a x →
  (∀ p y, ancestor lg a p → logged_child lg p y → ancestor lg y x → ¬ P y) →
  ancestor lg' a x.
Proof.
  intros Hpr Hax. induction Hax as [x|x y z Hc Hyz IH]; intros HP; [apply rtc_refl|].
  eapply rtc_l.
  - eapply pruned_child_kept; [done|done|]. by eapply HP; [apply rtc_refl| |].
  - apply IH. intros p w Hyp. apply HP. by eapply rtc_l.
Qed.

(** ** The removal walk *)

(** The children of an expanded entry lie above it. *)
Fixpoint stacked (lg : gmap EnvelopeDigest Envelope) (above : list EnvelopeDigest)
    (stack : list (EnvelopeDigest * bool)) : Prop :=
  match stack with
  | [] => True
  | (d, expanded) :: rest =>
      (expanded = true → ∀ c, logged_child lg d c → c ∈ above) ∧ stacked lg (d :: above) rest
  end.

(** The stack of a walk from [bottom]: no entry twice, every entry's parent
    expanded below it, the children of an expanded entry above it. *)
Record stack_ok (rank : EnvelopeDigest → nat) (lg : gmap EnvelopeDigest Envelope)
    (bottom : EnvelopeDigest) (stack : list (EnvelopeDigest * bool)) : Prop := {
  so_nodup : NoDup stack.*1;
  so_parent c b : (c, b) ∈ stack →
    c = bottom ∨ ∃ p, logged_child lg p c ∧ (p, true) ∈ stack;
  so_rank c : c ∈ stack.*1 → rank bottom ≤ rank c;
  so_stacked : stacked lg [] stack;
}.

(** What the walk has still to take. *)
Definition to_take (lg : gmap EnvelopeDigest Envelope) (stack : list (EnvelopeDigest * bool))
    (x : EnvelopeDigest) : Prop :=
  ∃ d expanded, (d, expanded) ∈ stack ∧ if (expanded : bool) then x = d else ancestor lg d x.

(** The steps it still needs. *)
Definition stack_cost (lg : gmap EnvelopeDigest Envelope) (stack : list (EnvelopeDigest * bool)) : nat :=
  sum_list_with (λ de : EnvelopeDigest * bool, if de.2 then 1 else 2) stack
  + 2 * size (dom lg ∖ list_to_set stack.*1).

Lemma stacked_weaken lg lg1 above above1 stack :
  (∀ d c, logged_child lg1 d c → logged_child lg d c ∧ (c ∈ above → c ∈ above1)) →
  stacked lg above stack → stacked lg1 above1 stack.
Proof.
  revert above above1. induction stack as [|[d b] stack IH]; intros above above1 Hw; simpl; [done|].
  intros [Hd Hrest]. split.
  - intros Hb c Hc. destruct (Hw d c Hc) as [Hc' Hin]. by apply Hin, Hd.
  - eapply IH; [|done]. intros d' c Hc. destruct (Hw d' c Hc) as [Hc' Hin]. split; [done|]. set_solver.
Qed.

Lemma stack_pop rank lg bottom d rest :
  stack_ok rank lg bottom ((d, true) :: rest) → stack_ok rank (delete d lg) bottom rest.
Proof.
  intros [Hnd Hpar Hrank [Htop Hst]]. simpl in *. apply NoDup_cons in Hnd as [Hd Hnd].
  pose proof (pruned_delete lg d) as Hpr. split.
  - done.
  - intros c b Hin. destruct (Hpar c b) as [->|(p & Hc & Hp)]; [by right|by left|].
    apply elem_of_cons in Hp as [[= ->]|Hp].
    + specialize (Htop eq_refl c Hc). by apply not_elem_of_nil in Htop.
    + right. exists p. split; [|done]. eapply pruned_child_kept; [done|done|].
      intros ->. apply Hd. apply list_elem_of_fmap. by exists (d, b).
  - intros c Hc. apply Hrank. by right.
  - eapply stacked_weaken; [|done]. intros p c Hc. destruct (pruned_child _ _ _ _ _ Hpr Hc) as [Hc' Hne].
    split; [done|]. intros [?|?]%elem_of_cons; done.
Qed.

Lemma stacked_app lg above cs rest :
  stacked lg (reverse cs ++ above) rest →
  stacked lg above (((λ c, (c, false)) <$> cs) ++ rest).
Proof.
  revert above. induction cs as [|c cs IH]; intros above Hs; simpl in *; [done|].
  split; [done|]. apply IH. by rewrite reverse_cons, <-app_assoc in Hs.
Qed.

Lemma pushed_fst (ds : list EnvelopeDigest) : (reverse ((λ c, (c, false)) <$> ds)).*1 = reverse ds.
Proof. rewrite fmap_reverse, <-list_fmap_compose. f_equal. by apply list_fmap_id. Qed.

(** The children of the entry on top are not on the stack yet. *)
Lemma children_fresh rank lg bottom d rest c :
  ranked rank lg → stack_ok rank lg bottom ((d, false) :: rest) → logged_child lg d c →
  c ∉ d :: rest.*1.
Proof.
  intros Hr [Hnd Hpar Hrank _] Hcd Hin. simpl in *. pose proof (Hr d c Hcd) as Hlt.
  apply elem_of_cons in Hin as [->|Hin]; [lia|].
  apply list_elem_of_fmap in Hin as ([c' b] & Heq & Hin). simpl in Heq. subst c'.
  destruct (Hpar c b) as [->|(p & Hp & Hpin)]; [by right| |].
  - pose proof (Hrank d ltac:(by left)). lia.
  - rewrite (logged_child_fun lg p d c Hp Hcd) in Hpin.
    apply elem_of_cons in Hpin as [?|Hpin]; [done|].
    apply NoDup_cons in Hnd as [Hnd _]. apply Hnd. apply list_elem_of_fmap. by exists (d, true).
Qed.

Lemma stack_expand rank lg bottom d rest ds :
  ranked rank lg → NoDup ds → (∀ c, c ∈ ds ↔ logged_child lg d c) →
  stack_ok rank lg bottom ((d, false) :: rest) →
  stack_ok rank lg bottom (reverse ((λ c, (c, false)) <$> ds) ++ (d, true) :: rest).
Proof.
  intros Hr Hds Hch Hok. pose proof Hok as [Hnd Hpar Hrank [_ Hst]]. simpl in *. split.
  - rewrite fmap_app, pushed_fst. apply NoDup_app. split_and!; [by rewrite reverse_Permutation| |done].
    intros c Hc%elem_of_reverse%Hch. by eapply children_fresh.
  - assert (∀ p, (p, true) ∈ (d, false) :: rest →
      (p, true) ∈ reverse ((λ c, (c, false)) <$> ds) ++ (d, true) :: rest) as Hup.
    { intros p [?|?]%elem_of_cons; [done|]. apply elem_of_app. by do 2 right. }
    intros c b [Hin|[[= -> ->]|Hin]%elem_of_cons]%elem_of_app.
    + right. exists d. split; [|apply elem_of_app; by right; left].
      apply Hch, elem_of_reverse. rewrite <-pushed_fst. apply list_elem_of_fmap. by exists (c, b).
    + destruct (Hpar d false) as [->|(p & Hp & Hpin)]; [by left|by left|].
      right. exists p. split; [done|]. by apply Hup.
    + destruct (Hpar c b) as [->|(p & Hp & Hpin)]; [by right|by left|].
      right. exists p. split; [done|]. by apply Hup.
  - intros c. rewrite fmap_app, elem_of_app, pushed_fst, elem_of_reverse.
    intros [Hc%Hch|Hc]; [|by apply Hrank].
    pose proof (Hr d c Hc). pose proof (Hrank d ltac:(by left)). lia.
  - rewrite <-fmap_reverse. apply stacked_app. rewrite reverse_involutive, app_nil_r. split.
    + intros _ c Hc. by apply Hch.
    + eapply stacked_weaken; [|done]. intros p c Hc. split; [done|]. set_solver.
Qed.

Lemma sum_list_with_reverse {A} (f : A → nat) (l : list A) :
  sum_list_with f (reverse l) = sum_list_with f l.
Proof. by rewrite reverse_Permutation. Qed.

Lemma cost_pop lg d rest :
  stack_cost (delete d lg) rest < stack_cost lg ((d, true) :: rest).
Proof.
  unfold stack_cost. csimpl. rewrite dom_delete_L.
  assert (size (dom lg ∖ {[d]} ∖ list_to_set rest.*1)
    ≤ size (dom lg ∖ ({[d]} ∪ list_to_set rest.*1))) as Hle;
    [|lia].
  apply subseteq_size. set_solver.
Qed.

Lemma cost_expand lg d rest ds :
  NoDup ds → (∀ c, c ∈ ds → is_Some (lg !! c) ∧ c ∉ d :: rest.*1) →
  stack_cost lg (reverse ((λ c, (c, false)) <$> ds) ++ (d, true) :: rest)
    < stack_cost lg ((d, false) :: rest).
Proof.
  intros Hnd Hds. unfold stack_cost. rewrite sum_list_with_app, sum_list_with_reverse, fmap_app, pushed_fst.
  assert (sum_list_with (λ de : EnvelopeDigest * bool, if de.2 then 1 else 2) ((λ c, (c, false)) <$> ds)
    = 2 * length ds) as ->.
  { clear. induction ds as [|c ds IH]; [done|]; csimpl; rewrite IH; lia. }
  csimpl. set (old := dom lg ∖ ({[d]} ∪ list_to_set rest.*1)).
  assert (size (dom lg ∖ list_to_set (reverse ds ++ d :: rest.*1)) + length ds ≤ size old); [|lia].
  rewrite <-(size_list_to_set (C:=gset EnvelopeDigest) ds) by done.
  rewrite <-size_union by (rewrite list_to_set_app; set_solver).
  apply subseteq_size. unfold old. intros x. rewrite list_to_set_app.
  intros [Hx|Hx%elem_of_list_to_set]%elem_of_union; [set_solver|].
  destruct (Hds x Hx) as [Hlg Hfresh%not_elem_of_cons]. apply elem_of_difference.
  split; [by apply elem_of_dom|]. rewrite elem_of_union, elem_of_singleton, elem_of_list_to_set. naive_solver.
Qed.

Lemma to_take_expand lg d rest ds x :
  (∀ c, c ∈ ds ↔ logged_child lg d c) →
  to_take lg (reverse ((λ c, (c, false)) <$> ds) ++ (d, true) :: rest) x ↔
  to_take lg ((d, false) :: rest) x.
Proof.
  intros Hds. split.
  - intros (c & b & [Hin|[[= -> ->]|Hin]%elem_of_cons]%elem_of_app & Hx).
    + apply elem_of_reverse, list_elem_of_fmap in Hin as (c' & [= -> ->] & Hc). exists d, false.
      split; [by left|]. eapply rtc_l; [by apply Hds|done].
    + subst x. exists d, false. split; [by left|apply rtc_refl].
    + exists c, b. split; [by right|done].
  - intros (c & b & [[= -> ->]|Hin]%elem_of_cons & Hx).
    + destruct Hx as [x|x y z Hc Hyz].
      * exists x, true. split; [apply elem_of_app; by right; left|done].
      * exists y, false. split; [|done]. apply elem_of_app. left.
        apply elem_of_reverse, list_elem_of_fmap. exists y. split; [done|by apply Hds].
    + exists c, b. split; [apply elem_of_app; by do 2 right|done].
Qed.

Lemma to_take_pop lg lg' d rest P :
  stacked lg [] ((d, true) :: rest) → NoDup ((d, true) :: rest).*1 →
  pruned (delete d lg) (to_take (delete d lg) rest) lg' →
  (∀ x, P x ↔ to_take lg ((d, true) :: rest) x) → pruned lg P lg'.
Proof.
  intros [Htop _] Hnd Hpr HP. pose proof (pruned_delete lg d) as Hd.
  apply NoDup_cons in Hnd as [Hfresh _].
  eapply pruned_trans; [exact Hd|exact Hpr|..].
  - intros x ->. apply HP. exists d, true. split; [by left|done].
  - intros x (c & b & Hin & Hx) _. apply HP. exists c, b. split; [by right|].
    destruct b; [done|]. by eapply pruned_ancestor.
  - intros x (c & b & [[= -> ->]|Hin]%elem_of_cons & Hx)%HP Hne _ Hn; [done|].
    apply Hn. exists c, b. split; [done|]. destruct b; [done|].
    eapply pruned_ancestor_kept; [done|done|]. intros p y _ Hpy Hyx ->.
    apply Hne. destruct Hyx as [|y z x Hc _]; [done|].
    specialize (Htop eq_refl z Hc). by apply not_elem_of_nil in Htop.
Qed.

Section removal.
Context `{Externals} {S E : Type} `{StorageSpec S E}.
Variables (pins : EnvelopeDigest → option Msg) (rank : EnvelopeDigest → nat).
Hypothesis Hhash : HashOk pins rank.
Variable root : EnvelopeDigest.

Lemma inv_ranked st : chain_inv pins root st → ranked rank (log st).
Proof using Hhash. intros Hinv p d Hc. by eapply child_rank. Qed.

(** A store that keeps its promise and its versions. *)
Definition settled (s s' : S) : Prop :=
  storage_ok s' ∧ chain_inv pins root (view s') ∧ versions (view s') = versions (view s).

(** The count of the entries removed. *)
Definition counted (s : S) (n n' : N) (s' : S) : Prop :=
  N.to_nat n' + size (log (view s')) = N.to_nat n + size (log (view s)).

(** A removal the backend cut short: some of [P] may be gone, nothing else. *)
Definition cut_short (s : S) (P : EnvelopeDigest → Prop) (e : Error E) (s' : S) : Prop :=
  settled s s' ∧ log (view s') ⊆ log (view s) ∧
  (∀ x, ¬ P x → log (view s') !! x = log (view s) !! x) ∧ ∃ err, e = Error_Storage err.

Lemma cut_short_here (s s' : S) P err :
  storage_ok s' → chain_inv pins root (view s) → view s' = view s →
  cut_short s P (Error_Storage err) s'.
Proof using.
  intros Hs' Hinv Hview. unfold cut_short, settled. rewrite Hview. split_and!; try done. by exists err.
Qed.

Lemma remove_loop_wp (fuel : nat) stack n bottom (s : S) :
  storage_ok s → chain_inv pins root (view s) →
  stack_ok rank (log (view s)) bottom stack → stack_cost (log (view s)) stack ≤ fuel →
  (∀ c, c ∈ stack.*1 → is_Some (log (view s) !! c)) →
  wp (remove_loop fuel stack n) s
    (λ n' s', settled s s' ∧ counted s n n' s' ∧ pruned (log (view s)) (to_take (log (view s)) stack) (log (view s')))
    (cut_short s (to_take (log (view s)) stack)).
Proof using Hhash.
  revert stack n s. induction fuel as [|fuel IH]; intros [|[d b] rest] n s Hs Hinv Hok Hcost Hlogged.
  1, 3: apply wp_ret; split; [done|]; split; [done|]; apply pruned_none; [|done]; intros x (c & b & Hin & _); by apply not_elem_of_nil in Hin.
  { exfalso. destruct b; unfold stack_cost in Hcost; simpl in Hcost; lia. }
  simpl. destruct b.
  - apply wp_bind. eapply write_wp; [by apply remove_envelope_spec|..].
    2: { intros x s' [Hs' Hview]. by apply cut_short_here. }
    intros _ s1 [Hs1 Hview1].
    assert (log (view s1) = delete d (log (view s))) as Hlog1 by (by rewrite Hview1).
    assert (chain_inv pins root (view s1)) as Hinv1 by (rewrite Hview1; by apply chain_inv_remove).
    pose proof (cost_pop (log (view s)) d rest) as Hlt.
    pose proof (so_nodup _ _ _ _ Hok) as [Hfresh _]%NoDup_cons.
    destruct (Hlogged d ltac:(by left)) as [e Hd].
    eapply wp_mono; [apply IH; rewrite ?Hlog1; [done|done|by apply stack_pop|lia|]|..].
    { intros c Hc. rewrite lookup_delete_ne; [apply Hlogged; by right|]. by intros ->. }
    + intros n' s2 [(Hs2 & Hinv2 & Hv2) [Hn Hpr]]. split; [split_and!; [done|done|by rewrite Hv2, Hview1]|].
      rewrite Hlog1 in Hpr. split.
      { unfold counted in *. rewrite Hlog1, map_size_delete_Some in Hn by done.
        assert (size (log (view s)) ≠ 0) by (intros Hz%map_size_empty_inv; rewrite Hz in Hd; done). lia. }
      eapply to_take_pop; [apply (so_stacked _ _ _ _ Hok)|apply (so_nodup _ _ _ _ Hok)|done|done].
    + intros err s2 [(Hs2 & Hinv2 & Hv2) (Hsub & Hkept & Hx)]. split; [split_and!; [done|done|by rewrite Hv2, Hview1]|].
      split; [rewrite Hsub, Hlog1; apply delete_subseteq|]. split; [|done]. intros x Hx'. rewrite Hlog1 in Hkept.
      rewrite Hkept.
      * apply lookup_delete_ne. intros ->. apply Hx'. exists x, true. split; [by left|done].
      * intros (c & b & Hin & Hc). apply Hx'. exists c, b. split; [by right|].
        destruct b; [done|]. eapply pruned_ancestor; [apply pruned_delete|done].
  - apply wp_bind. eapply read_wp; [by apply children_vec_spec| |intros; by apply cut_short_here].
    intros ds [Hsort Hds].
    pose proof (ascending_NoDup _ Hsort) as Hnd.
    pose proof (inv_ranked _ Hinv) as Hr.
    assert (stack_cost (log (view s)) (reverse ((λ c, (c, false)) <$> ds) ++ (d, true) :: rest)
      < stack_cost (log (view s)) ((d, false) :: rest)) as Hlt.
    { apply cost_expand; [done|]. intros c Hc%Hds. split; [|by eapply children_fresh].
      destruct Hc as (e & He & _). by exists e. }
    pose proof (λ x, to_take_expand (log (view s)) d rest ds x Hds) as Htake.
    eapply wp_mono; [apply IH; [done|done|by eapply stack_expand|lia|]|..].
    { intros c. rewrite fmap_app, elem_of_app, pushed_fst, elem_of_reverse.
      intros [(e & He & _)%Hds|Hc]; [by exists e|by apply Hlogged]. }
    + intros n' s2 [Hset [Hn Hpr]]. split; [done|]. split; [done|].
      eapply pruned_iff; [exact Htake|done].
    + intros e s2 (Hset & Hsub & Hkept & Hx). split_and!; [done|done| |done].
      intros x Hx'. apply Hkept. by rewrite Htake.
Qed.

(** A subtree, whole. *)
Lemma remove_subtree_wp (fuel : nat) (d : EnvelopeDigest) (s : S) :
  storage_ok s → chain_inv pins root (view s) → 2 * size (log (view s)) + 2 ≤ fuel →
  is_Some (log (view s) !! d) →
  wp (remove_subtree fuel d) s
    (λ n s', settled s s' ∧ counted s 0 n s' ∧ pruned (log (view s)) (ancestor (log (view s)) d) (log (view s')))
    (cut_short s (ancestor (log (view s)) d)).
Proof using Hhash.
  intros Hs Hinv Hfuel Hd.
  assert (∀ x, to_take (log (view s)) [(d, false)] x ↔ ancestor (log (view s)) d x) as Htake.
  { intros x. split.
    - by intros (c & b & [= -> ->]%list_elem_of_singleton & Hx).
    - intros Hx. exists d, false. split; [by left|done]. }
  eapply wp_mono; [apply (remove_loop_wp fuel [(d, false)] 0 d s Hs Hinv)|..].
  - split; simpl.
    + apply NoDup_singleton.
    + intros c b [= -> ->]%list_elem_of_singleton. by left.
    + by intros c ->%list_elem_of_singleton.
    + done.
  - unfold stack_cost. csimpl.
    assert (size (dom (log (view s)) ∖ ({[d]} ∪ ∅)) ≤ size (log (view s))); [|lia].
    rewrite <-size_dom. apply subseteq_size. set_solver.
  - by intros c ->%list_elem_of_singleton.
  - intros n s' [Hset [Hn Hpr]]. split; [done|]. split; [done|]. by eapply pruned_iff.
  - intros e s' (Hset & Hsub & Hkept & Hx). split_and!; [done|done| |done]. intros x Hx'. apply Hkept. by rewrite Htake.
Qed.

Lemma pruned_size lg P lg' : pruned lg P lg' → size lg' ≤ size lg.
Proof using. intros Hpr%pruned_sub. rewrite <-!size_dom. by apply subseteq_size, subseteq_dom. Qed.

Lemma settled_trans (s s1 s2 : S) : settled s s1 → settled s1 s2 → settled s s2.
Proof using. intros (_ & _ & Hv1) (Hs2 & Hinv2 & Hv2). split_and!; [done|done|congruence]. Qed.

Lemma counted_trans (s s1 s2 : S) n n1 n2 :
  counted s n n1 s1 → counted s1 n1 n2 s2 → counted s n n2 s2.
Proof using. unfold counted. lia. Qed.

Lemma cut_short_trans (s s1 s2 : S) P P1 R e :
  settled s s1 → pruned (log (view s)) P (log (view s1)) → cut_short s1 P1 e s2 →
  (∀ x, P x → R x) → (∀ x, P1 x → R x) → cut_short s R e s2.
Proof using.
  intros Hset Hpr (Hset2 & Hsub & Hkept & Hx) HP HP1. split; [by eapply settled_trans|].
  split; [by etrans; [|eapply pruned_sub]|]. split; [|done].
  intros x HR. rewrite Hkept by (intros H'; by apply HR, HP1).
  apply (pr_kept _ _ _ Hpr). intros H'. by apply HR, HP.
Qed.

Lemma cut_short_weaken (s s2 : S) P R e :
  cut_short s P e s2 → (∀ x, P x → R x) → cut_short s R e s2.
Proof using.
  intros (Hset & Hsub & Hkept & Hx) HP. split_and!; [done|done| |done]. intros x HR. apply Hkept.
  intros H'. by apply HR, HP.
Qed.

(** The dead branches at one ancestor, each whole. *)
Definition branches (lg : gmap EnvelopeDigest Envelope) (on_path : gset EnvelopeDigest)
    (ds : list EnvelopeDigest) (x : EnvelopeDigest) : Prop :=
  ∃ c, c ∈ ds ∧ c ∉ on_path ∧ ancestor lg c x.

Lemma prune_branches_wp (fuel : nat) (on_path : gset EnvelopeDigest) a ds n (s : S) :
  storage_ok s → chain_inv pins root (view s) → 2 * size (log (view s)) + 2 ≤ fuel →
  NoDup ds → (∀ c, c ∈ ds → logged_child (log (view s)) a c) →
  wp (prune_branches fuel on_path ds n) s
    (λ n' s', settled s s' ∧ counted s n n' s' ∧
      pruned (log (view s)) (branches (log (view s)) on_path ds) (log (view s')))
    (cut_short s (branches (log (view s)) on_path ds)).
Proof using Hhash.
  revert n s. induction ds as [|c ds IH]; intros n s Hs Hinv Hfuel Hnd Hds; simpl.
  { apply wp_ret. split; [done|]. split; [done|].
    apply pruned_none; [|done]. intros x (c & Hc & _). by apply not_elem_of_nil in Hc. }
  apply NoDup_cons in Hnd as [Hc Hnd]. pose proof (inv_ranked _ Hinv) as Hr.
  case_decide as Hpath.
  - assert (∀ x, branches (log (view s)) on_path ds x ↔ branches (log (view s)) on_path (c :: ds) x) as Hiff.
    { intros x. split; intros (d & Hd & Hrest); exists d; (split; [|done]); [by right|].
      apply elem_of_cons in Hd as [->|?]; [by destruct Hrest|done]. }
    eapply wp_mono; [apply IH; try done; intros d Hd; apply Hds; by right|..].
    + intros n' s' (Hset & Hn & Hpr). split_and!; [done|done|by eapply pruned_iff].
    + intros e s' Hcut. eapply cut_short_weaken; [done|]. intros x. by rewrite Hiff.
  - assert (logged_child (log (view s)) a c) as Hac by (by apply Hds; left).
    apply wp_bind. eapply wp_mono; [apply remove_subtree_wp; try done|..].
    { destruct Hac as (e & He & _). by exists e. }
    2: { intros e s' Hcut. eapply cut_short_weaken; [done|]. intros x Hx. exists c. split_and!; [by left|done|done]. }
    intros m s1 ((Hs1 & Hinv1 & Hv1) & Hm & Hpr1).
    assert (∀ d, d ∈ ds → ¬ ancestor (log (view s)) c d) as Hapart.
    { intros d Hd Hcd. apply Hc.
      by rewrite (siblings_disjoint rank _ Hr a c d d Hac ltac:(by apply Hds; right) Hcd (rtc_refl _ _)). }
    pose proof (pruned_size _ _ _ Hpr1) as Hsize.
    eapply wp_mono; [apply IH; [done|done|lia|done|]|..].
    + intros d Hd. eapply pruned_child_kept; [done|apply Hds; by right|by apply Hapart].
    + intros n' s2 (Hset2 & Hn2 & Hpr2).
      split; [by apply (settled_trans _ s1)|]. split; [unfold counted in *; lia|].
      eapply pruned_trans; [exact Hpr1|exact Hpr2|..].
      * intros x Hx. exists c. split_and!; [by left|done|done].
      * intros x (d & Hd & Hpath' & Hx) _. exists d. split_and!; [by right|done|by eapply pruned_ancestor].
      * intros x (d & [->|Hd]%elem_of_cons & Hpath' & Hx) Hnc _ Hn; [done|].
        apply Hn. exists d. split_and!; [done|done|]. eapply pruned_ancestor_kept; [done|done|].
        intros p y _ _ Hyx Hcy. apply Hnc. by etransitivity.
    + intros e s2 Hcut. eapply cut_short_trans; [by split_and!|done|done|..].
      * intros x Hx. exists c. split_and!; [by left|done|done].
      * intros x (d & Hd & Hpath' & Hx). exists d. split_and!; [by right|done|by eapply pruned_ancestor].
Qed.

Lemma prune_app (fuel : nat) (on_path : gset EnvelopeDigest) l1 l2 n (s : S) :
  prune_ancestors (E:=E) fuel on_path (l1 ++ l2) n s =
  m_bind (prune_ancestors fuel on_path l1 n) (prune_ancestors fuel on_path l2) s.
Proof using.
  revert n s. induction l1 as [|[a oldest] l1 IH]; intros n s; simpl; [done|].
  rewrite m_bind_assoc. apply m_bind_ext. intros cs s1.
  rewrite m_bind_assoc. apply m_bind_ext. intros n1 s2.
  rewrite m_bind_assoc. apply m_bind_ext. intros stored s3.
  destruct stored; [|by apply IH]. rewrite m_bind_assoc. apply m_bind_ext. intros [] s4. by apply IH.
Qed.

(** The subtree of an ancestor, but for the part under [below]. *)
Definition off_path (lg : gmap EnvelopeDigest Envelope) (P : EnvelopeDigest → Prop)
    (below x : EnvelopeDigest) : Prop :=
  (∃ a, P a ∧ ancestor lg a x) ∧ ¬ ancestor lg below x.

Lemma prune_one_wp (fuel : nat) (on_path : gset EnvelopeDigest) a (oldest : bool) below n (s : S) :
  storage_ok s → chain_inv pins root (view s) → 2 * size (log (view s)) + 2 ≤ fuel →
  logged_child (log (view s)) a below → below ∈ on_path →
  (∀ c, logged_child (log (view s)) a c → c ∈ on_path → c = below) →
  (oldest = false → is_Some (log (view s) !! a)) →
  wp (prune_ancestors fuel on_path [(a, oldest)] n) s
    (λ n' s', settled s s' ∧ counted s n n' s' ∧
      pruned (log (view s)) (off_path (log (view s)) (λ b, b = a) below) (log (view s')))
    (cut_short s (off_path (log (view s)) (λ b, b = a) below)).
Proof using Hhash.
  intros Hs Hinv Hfuel Hbelow Hon Honly Hold. pose proof (inv_ranked _ Hinv) as Hr. simpl.
  apply wp_bind. eapply read_wp; [by apply children_vec_spec| |intros; by apply cut_short_here].
  intros ds [Hsort Hds]. pose proof (ascending_NoDup _ Hsort) as Hnd.
  assert (∀ x, branches (log (view s)) on_path ds x → off_path (log (view s)) (λ b, b = a) below x) as Hbr.
  { intros x (c & Hc%Hds & Hpath & Hx). split; [exists a; split; [done|by eapply rtc_l]|].
    intros Hbx. apply Hpath. by rewrite (siblings_disjoint rank _ Hr a c below x Hc Hbelow Hx Hbx). }
  apply wp_bind. eapply wp_mono; [by apply (prune_branches_wp fuel on_path a); try done; intros c Hc; apply Hds| |].
  2: { intros e s' Hcut. by eapply cut_short_weaken. }
  intros n1 s1 (Hset1 & Hn1 & Hpr1). pose proof Hset1 as (Hs1 & Hinv1 & Hv1).
  assert (log (view s1) !! a = log (view s) !! a) as Ha1.
  { apply (pr_kept _ _ _ Hpr1). intros (c & Hc%Hds & _ & Hca). by apply (child_not_above rank _ Hr a c). }
  assert (∀ s2 n2, settled s s2 → counted s n n2 s2 → log (view s2) = delete a (log (view s1)) →
    settled s s2 ∧ counted s n n2 s2 ∧
    pruned (log (view s)) (off_path (log (view s)) (λ b, b = a) below) (log (view s2))) as Hdone.
  { intros s2 n2 Hset2 Hn2 Hlog2. split; [done|]. split; [done|]. rewrite Hlog2.
    eapply pruned_trans; [exact Hpr1|apply pruned_delete|exact Hbr|..].
    - intros x -> _. split; [exists a; split; [done|apply rtc_refl]|].
      by apply (child_not_above rank _ Hr).
    - intros x [(b & -> & Hbx) Hnot] Hnb _ Hn. apply Hn.
      destruct Hbx as [x|x y z Hxy Hyz]; [done|]. exfalso. apply Hnb.
      exists y. split_and!; [by apply Hds| |done]. intros Hy. by rewrite (Honly y Hxy Hy) in Hyz. }
  apply wp_bind.
  assert (∀ x, cut_short s (off_path (log (view s)) (λ b, b = a) below) (Error_Storage x) s1) as Hfail.
  { intros x. eapply (cut_short_trans s s1 s1 _ (λ _, False)); [exact Hset1|exact Hpr1|by apply cut_short_here|exact Hbr|].
    done. }
  assert (∀ stored : bool, (stored = true ↔ is_Some (log (view s1) !! a)) →
    wp (if stored then
          do! write (remove_envelope a) in m_ret (n1 + 1)%N
        else m_ret n1) s1
      (λ n' s', settled s s' ∧ counted s n n' s' ∧
        pruned (log (view s)) (off_path (log (view s)) (λ b, b = a) below) (log (view s')))
      (cut_short s (off_path (log (view s)) (λ b, b = a) below))) as Htail.
  { intros stored Hst. destruct stored.
    - destruct (proj1 Hst eq_refl) as [e He].
      apply wp_bind. eapply write_wp; [by apply remove_envelope_spec|..].
      + intros _ s2 [Hs2 Hview2]. apply wp_ret, Hdone.
        * apply (settled_trans _ s1); [done|]. split_and!; [done|rewrite Hview2; by apply chain_inv_remove|by rewrite Hview2].
        * unfold counted in *. rewrite Hview2. simpl. rewrite map_size_delete_Some by done.
          assert (size (log (view s1)) ≠ 0) by (intros Hz%map_size_empty_inv; rewrite Hz in He; done). lia.
        * by rewrite Hview2.
      + intros x s2 [Hs2 Hview2]. destruct (Hfail x) as ((_ & _ & Hv) & Hsub & Hkept & Hx).
        split_and!; [|by rewrite Hview2|by rewrite Hview2|done]. split_and!; [done|by rewrite Hview2|by rewrite Hview2].
    - apply wp_ret, Hdone; [done|done|]. rewrite delete_id; [done|].
      apply eq_None_not_Some. intros Hsome%Hst. done. }
  destruct oldest.
  - apply wp_bind. eapply read_wp; [by apply envelope_spec| |done].
    intros entry ->. apply wp_ret. apply Htail. by rewrite bool_decide_eq_true.
  - apply wp_ret. apply (Htail true). split; [|done]. intros _. rewrite Ha1. by apply Hold.
Qed.

(** The way up from [at_]: each the parent of the one before, as far as the
    log reaches. *)
Fixpoint way_up (lg : gmap EnvelopeDigest Envelope) (at_ : EnvelopeDigest)
    (l : list EnvelopeDigest) : Prop :=
  match l with
  | [] => lg !! at_ ≫= prev_of = None
  | p :: rest => logged_child lg p at_ ∧ way_up lg p rest
  end.

Lemma oldest_first_cons a rest :
  oldest_first (a :: rest) =
  oldest_first rest ++ [(a, match rest with [] => true | _ => false end)].
Proof using.
  unfold oldest_first. rewrite imap_cons, reverse_cons. f_equal.
  by destruct rest.
Qed.

Lemma off_path_step lg lg1 a rest below x :
  ranked rank lg → logged_child lg a below →
  pruned lg (off_path lg (λ b, b ∈ rest) a) lg1 →
  off_path lg1 (λ b, b = a) below x ↔
  off_path lg (λ b, b ∈ a :: rest) below x ∧ (ancestor lg a x).
Proof using.
  intros Hr Hbelow Hpr.
  assert (∀ c y, ancestor lg a c → ancestor lg c y → ancestor lg1 c y) as Hkept.
  { intros c y Hac Hcy. eapply pruned_ancestor_kept; [done|done|].
    intros p z Hcp Hpz _ [_ Hna]. apply Hna. transitivity c; [done|]. by eapply rtc_r. }
  split.
  - intros [(b & -> & Hax) Hnot]. pose proof (pruned_ancestor _ _ _ _ _ Hpr Hax) as Hax'.
    split; [|done]. split; [exists a; split; [by left|done]|].
    intros Hbx. apply Hnot, Hkept; [by apply rtc_once|done].
  - intros [[_ Hnot] Hax]. split; [exists a; split; [done|by apply Hkept]|].
    intros Hbx. apply Hnot. by eapply pruned_ancestor.
Qed.

Lemma prune_all_wp (fuel : nat) (on_path : gset EnvelopeDigest) (cut : EnvelopeDigest) l below n (s : S) :
  storage_ok s → chain_inv pins root (view s) → 2 * size (log (view s)) + 2 ≤ fuel →
  way_up (log (view s)) below l → below ∈ on_path → (∀ a, a ∈ l → a ∈ on_path) →
  (∀ a, a ∈ on_path → ancestor (log (view s)) a cut) →
  wp (prune_ancestors fuel on_path (oldest_first l) n) s
    (λ n' s', settled s s' ∧ counted s n n' s' ∧
      pruned (log (view s)) (off_path (log (view s)) (λ b, b ∈ l) below) (log (view s')))
    (cut_short s (off_path (log (view s)) (λ b, b ∈ l) below)).
Proof using Hhash.
  revert below n s. induction l as [|a rest IH]; intros below n s Hs Hinv Hfuel Hup Hbelow Hl Hcut.
  { apply wp_ret. split; [done|]. split; [done|].
    apply pruned_none; [|done]. intros x [(b & Hb & _) _]. by apply not_elem_of_nil in Hb. }
  destruct Hup as [Hab Hup]. pose proof (inv_ranked _ Hinv) as Hr.
  assert (∀ x, off_path (log (view s)) (λ b, b ∈ rest) a x →
    off_path (log (view s)) (λ b, b ∈ a :: rest) below x) as Hsub.
  { intros x [(b & Hb & Hbx) Hnot]. split; [exists b; split; [by right|done]|].
    intros Hx. apply Hnot. by eapply rtc_l. }
  rewrite oldest_first_cons. unfold wp. rewrite prune_app. apply wp_bind.
  eapply wp_mono; [apply (IH a); try done; [apply Hl; by left|intros b Hb; apply Hl; by right]|..].
  2: { intros e s' Hcs. by eapply cut_short_weaken. }
  intros n1 s1 (Hset1 & Hn1 & Hpr1). pose proof Hset1 as (Hs1 & Hinv1 & Hv1).
  pose proof (λ x, off_path_step (log (view s)) (log (view s1)) a rest below x Hr Hab Hpr1) as Hstep.
  pose proof (pruned_size _ _ _ Hpr1) as Hsize.
  eapply wp_mono; [apply (prune_one_wp fuel on_path a _ below n1 s1); try done; [lia|..]|..].
  - eapply pruned_child_kept; [done|done|]. intros [_ Hn]. apply Hn. by apply rtc_once.
  - intros c Hc Hin. destruct (pruned_child _ _ _ _ _ Hpr1 Hc) as [Hc' _].
    apply (siblings_disjoint rank _ Hr a c below cut); try done; by apply Hcut.
  - intros Holdest. destruct rest as [|b rest]; [done|]. destruct Hup as [(e & He & _) _].
    exists e. rewrite (pr_kept _ _ _ Hpr1); [done|]. intros [_ Hn]. apply Hn. reflexivity.
  - intros n2 s2 (Hset2 & Hn2 & Hpr2).
    split; [by apply (settled_trans _ s1)|]. split; [by eapply counted_trans|].
    eapply pruned_trans; [exact Hpr1|exact Hpr2|exact Hsub|..].
    + intros x Hx _. by apply (Hstep x) in Hx as [Hx _].
    + intros x Hx Hn1' _ Hn. apply Hn1'. pose proof Hx as [(b & [->|Hb]%elem_of_cons & Hbx) Hnot].
      * exfalso. apply Hn, (Hstep x). done.
      * split; [by exists b|]. intros Hax. apply Hn, (Hstep x). done.
  - intros e s2 Hcs. eapply cut_short_trans; [exact Hset1|exact Hpr1|exact Hcs|exact Hsub|].
    intros x Hx. by apply (Hstep x) in Hx as [Hx _].
Qed.

(** ** The two upward walks of [compact] *)

Lemma way_up_elem lg at_ l a :
  ranked rank lg → way_up lg at_ l → a ∈ l ↔ ancestor lg a at_ ∧ a ≠ at_.
Proof using.
  intros Hr. revert at_. induction l as [|p rest IH]; intros at_; simpl.
  - intros Hnone. split; [by intros ?%not_elem_of_nil|]. intros [Ha Hne].
    apply rtc_inv_r in Ha as [->|(q & _ & (e & He & Hp))]; [done|].
    rewrite He in Hnone. simpl in Hnone. congruence.
  - intros [Hc Hup]. rewrite elem_of_cons, (IH p Hup). split.
    + intros [->|[Ha Hne]].
      * split; [by apply rtc_once|]. intros ->. by apply (child_not_above rank _ Hr _ _ Hc).
      * split; [by eapply rtc_r|]. intros ->. by apply (child_not_above rank _ Hr _ _ Hc).
    + intros [Ha Hne]. apply rtc_inv_r in Ha as [->|(q & Haq & Hq)]; [done|].
      rewrite (logged_child_fun lg q p at_ Hq Hc) in Haq.
      destruct (decide (a = p)); [by left|by right].
Qed.

Lemma parent_wp (s : S) at_ :
  storage_ok s →
  cwp (c_map_err Error_Storage (parent s at_))
    (λ up, match up with
           | Some p => logged_child (log (view s)) p at_
           | None => log (view s) !! at_ ≫= prev_of = None
           end) (λ e : Error E, ∃ x, e = Error_Storage x).
Proof using.
  intros Hs. apply cwp_map_err. eapply cwp_mono; [by apply parent_spec| |by eexists].
  intros up ->. destruct (log (view s) !! at_) as [e|] eqn:He; simpl; [|done].
  destruct (prev_of e) as [p|] eqn:Hp; [by exists e|done].
Qed.

Lemma ancestors_of_cwp (fuel : nat) (s : S) at_ :
  storage_ok s → chain_inv pins root (view s) → size (log (view s)) + 1 < fuel →
  cwp (ancestors_of fuel s at_) (way_up (log (view s)) at_) (λ e, ∃ x, e = Error_Storage x).
Proof using Hhash.
  intros Hs Hinv Hfuel.
  assert (not_higher rank (log (view s)) at_ + 1 < fuel) as Hf.
  { pose proof (not_higher_le rank (log (view s)) at_). lia. }
  clear Hfuel. revert at_ Hf. induction fuel as [|fuel IH]; intros at_ Hf; [lia|]. simpl.
  apply cwp_bind. eapply cwp_mono; [by apply parent_wp| |done]. intros [p|] Hp; [|done].
  pose proof (child_rank pins rank Hhash root _ _ _ Hinv Hp) as Hr. pose proof Hp as (e & He & _).
  pose proof (not_higher_parent rank (log (view s)) p at_ ltac:(by eexists) Hr).
  apply cwp_bind. eapply cwp_mono; [apply IH; lia| |done]. intros rest Hrest. by split.
Qed.

Lemma keep_path_cwp (fuel : nat) (s : S) head cut keep at_ :
  storage_ok s → chain_inv pins root (view s) → size (log (view s)) + 1 < fuel →
  cwp (keep_path fuel s head cut keep at_)
    (λ l, ancestor (log (view s)) cut at_ ∧ ∀ x, x ∈ l ↔ x ∈ keep ∨
      (ancestor (log (view s)) cut x ∧ ancestor (log (view s)) x at_ ∧ x ≠ at_))
    (λ e, (e = Error_Diverged head cut ∧ ¬ ancestor (log (view s)) cut at_) ∨
      ∃ x, e = Error_Storage x).
Proof using Hhash.
  intros Hs Hinv Hfuel. pose proof (inv_ranked _ Hinv) as Hr.
  assert (not_higher rank (log (view s)) at_ + 1 < fuel) as Hf.
  { pose proof (not_higher_le rank (log (view s)) at_). lia. }
  clear Hfuel. revert keep at_ Hf.
  assert (∀ at_ (keep : list EnvelopeDigest), at_ = cut → ancestor (log (view s)) cut at_ ∧ ∀ x, x ∈ keep ↔ x ∈ keep ∨
    (ancestor (log (view s)) cut x ∧ ancestor (log (view s)) x at_ ∧ x ≠ at_)) as Hend.
  { intros at_ keep ->. split; [reflexivity|]. intros x. split; [by left|].
    intros [?|(Hcx & Hxc & Hne)]; [done|]. by destruct Hne; apply (ancestor_antisym rank _ Hr). }
  induction fuel as [|fuel IH]; intros keep at_ Hf; [lia|]. simpl.
  case_decide as Hat; [by apply Hend|].
  apply cwp_bind. eapply cwp_mono; [by apply parent_wp| |by right].
  intros [p|] Hp.
  - pose proof (Hr _ _ Hp) as Hlt. pose proof Hp as (e & He & _).
    pose proof (not_higher_parent rank (log (view s)) p at_ ltac:(by eexists) Hlt).
    assert (∀ x, ancestor (log (view s)) x at_ ∧ x ≠ at_ ↔ ancestor (log (view s)) x p) as Hstep.
    { intros x. split.
      - intros [[->|(q & Hxq & Hq)]%rtc_inv_r Hne]; [done|].
        by rewrite (logged_child_fun (log (view s)) q p at_ Hq Hp) in Hxq.
      - intros Hxp. split; [by eapply rtc_r|]. intros ->. by apply (child_not_above rank _ Hr _ _ Hp). }
    eapply cwp_mono; [apply (IH (keep ++ [p]) p); lia|..].
    + intros l [Hcp Hl]. split; [by apply Hstep|]. intros x. rewrite Hl, elem_of_app, list_elem_of_singleton.
      rewrite Hstep. split.
      * intros [[?| ->]|(Hcx & Hxp & Hne)]; [by left|right; split; [done|reflexivity]|by right].
      * intros [?|[Hcx Hxp]]; [left; by left|]. destruct (decide (x = p)); [left; by right|by right].
    + intros e' [[-> Hn]|Hx]; [|by right]. left. split; [done|]. intros Hca. apply Hn.
      apply Hstep. split; [done|]. by intros <-.
  - simpl. left. split; [done|]. intros Hca. apply rtc_inv_r in Hca as [->|(q & _ & (e & He & Hq))]; [done|].
    rewrite He in Hp. simpl in Hp. congruence.
Qed.
End removal.

(** ** The canonical path across a compaction *)

Section across.
Context `{Externals} (pins : EnvelopeDigest → option Msg) (rank : EnvelopeDigest → nat).
Hypothesis Hhash : HashOk pins rank.

(** An ancestor of the head at or below the root lies on the winners' path. *)
Lemma on_winner_path lg root c h :
  ranked rank lg → rtc (winner lg) root h → ancestor lg root c → ancestor lg c h →
  rtc (winner lg) c h.
Proof using.
  intros Hr Hpath. induction Hpath as [x|x y h Hw Hpath IH]; intros Hrc Hch.
  - by rewrite (ancestor_antisym rank lg Hr c x Hch Hrc).
  - destruct Hrc as [x|x z c Hxz Hzc]; [by eapply rtc_l|].
    apply IH; [|done].
    rewrite <-(siblings_disjoint rank lg Hr x z y h Hxz (proj1 Hw)); [done| |].
    + by transitivity c.
    + by apply winner_ancestor.
Qed.

(** Taking what hangs off elsewhere leaves the path under the cut. *)
Lemma winner_kept lg P lg' cut p d :
  pruned lg P lg' → (∀ x, ancestor lg cut x → ¬ P x) → ancestor lg cut p →
  winner lg p d → winner lg' p d.
Proof using.
  intros Hpr HP Hcp [Hc Hmax].
  assert (∀ x, logged_child lg p x → fork_key lg' x = fork_key lg x) as Hkey.
  { intros x Hx. unfold fork_key. rewrite (pr_kept _ _ _ Hpr); [done|]. apply HP. by eapply rtc_r. }
  split; [eapply pruned_child_kept; [done|done|]; apply HP; by eapply rtc_r|].
  intros d' Hd'. destruct (pruned_child _ _ _ _ _ Hpr Hd') as [Hd _].
  rewrite !Hkey by done. by apply Hmax.
Qed.

Lemma tip_kept lg P lg' cut h :
  pruned lg P lg' → (∀ x, ancestor lg cut x → ¬ P x) → tip lg cut h → tip lg' cut h.
Proof using.
  intros Hpr HP [Hpath Hend]. split.
  - assert (∀ c, ancestor lg cut c → rtc (winner lg) c h → rtc (winner lg') c h) as Hgen.
    { intros c Hc Hch. induction Hch as [x|x y z Hw Hyz IH]; [apply rtc_refl|].
      eapply rtc_l; [by eapply winner_kept|]. apply IH; [done..|]. eapply rtc_r; [done|apply Hw]. }
    apply Hgen; [reflexivity|done].
  - intros d Hd. apply (Hend d). by eapply pruned_child.
Qed.

(** What is held below the root is held all the way up to it. *)
Lemma ancestor_held st root x h :
  chain_inv pins root st → ancestor (log st) root x → ancestor (log st) x h →
  is_Some (versions st !! h) → is_Some (versions st !! x).
Proof using Hhash.
  intros Hinv Hrx Hxh. pose proof (inv_ranked pins rank Hhash root st Hinv) as Hr.
  induction Hxh as [x|x y h Hc Hyh IH]; [done|]. intros Hh.
  destruct (IH ltac:(by eapply rtc_r) Hh) as [v Hv].
  destruct Hc as (e & He & Hp). destruct (inv_pinned _ _ _ Hinv y e He) as [_ Hpin].
  assert (y ≠ root) as Hne.
  { intros ->. assert (logged_child (log st) x root) as Hc by (by exists e).
    by apply (child_not_above rank _ Hr _ _ Hc). }
  destruct (inv_derived _ _ _ Hinv y _ x v Hne Hpin Hp Hv) as (w & _ & Hw & _). by exists w.
Qed.

(** The invariant moves to the cut with the versions of the path kept. *)
Lemma chain_inv_compact st st' root cut head P (keep : list EnvelopeDigest) :
  chain_inv pins root st → ancestor (log st) root cut →
  (∀ x, x ∈ keep ↔ ancestor (log st) cut x ∧ ancestor (log st) x head) →
  pruned (log st) P (log st') → versions st' = filter (λ hv, hv.1 ∈ keep) (versions st) →
  chain_inv pins cut st'.
Proof using Hhash.
  intros Hinv Hrc Hkeep Hpr Hvers. pose proof (inv_ranked pins rank Hhash root st Hinv) as Hr. split.
  - intros d e He. apply (inv_pinned _ _ _ Hinv). by eapply lookup_weaken; [|eapply pruned_sub].
  - intros d m p v Hne Hm Hp. rewrite Hvers. intros [Hv Hk]%map_lookup_filter_Some. simpl in Hk.
    apply Hkeep in Hk as [Hcd Hdh].
    apply rtc_inv_r in Hcd as [->|(q & Hcq & Hq)]; [done|].
    assert (q = p) as ->.
    { destruct Hq as (e & He & Hq). destruct (inv_pinned _ _ _ Hinv d e He) as [_ Hpin].
      unfold prev_of in Hq. congruence. }
    assert (d ≠ root) as Hdr.
    { intros ->. apply Hne. symmetry. apply (ancestor_antisym rank _ Hr); [by eapply rtc_r|done]. }
    destruct (inv_derived _ _ _ Hinv d m p v Hdr Hm Hp Hv) as (w & op & Hw & Hop & Happ).
    exists w, op. split_and!; [|done|done]. apply map_lookup_filter_Some. split; [done|].
    apply Hkeep. split; [done|by eapply rtc_l].
  - intros d Hne [v Hv]. rewrite Hvers in Hv. apply map_lookup_filter_Some in Hv as [Hv Hk]. simpl in Hk.
    apply Hkeep in Hk as [Hcd _]. apply (inv_born _ _ _ Hinv); [|by eexists]. intros ->. apply Hne.
    by apply (ancestor_antisym rank _ Hr).
Qed.
End across.

(** ** The compaction *)

(** The entries a compaction at [cut] is to take: under a proper ancestor of the
    cut, and not under the cut. *)
Definition doomed (lg : gmap EnvelopeDigest Envelope) (cut x : EnvelopeDigest) : Prop :=
  off_path lg (λ a, ancestor lg a cut ∧ a ≠ cut) cut x.

Lemma compact_wp `{Externals} {S E : Type} `{StorageSpec S E}
    (pins : EnvelopeDigest → option Msg) (rank : EnvelopeDigest → nat)
    (Hhash : HashOk pins rank) (fuel : nat) (cut : EnvelopeDigest) (self : Chain) (s : S) :
  chain_ok pins self s → is_Some (versions (view s) !! chain_head self) →
  tip (log (view s)) (chain_root self) (chain_head self) →
  (ancestor (log (view s)) cut (chain_head self) → ancestor (log (view s)) (chain_root self) cut) →
  2 * size (log (view s)) + 2 ≤ fuel →
  let before := view s in
  wp (compact fuel cut) (self, s)
    (λ n cs, chain_ok pins cs.1 cs.2 ∧ chain_root cs.1 = cut ∧ chain_head cs.1 = chain_head self ∧
      tip (log (view cs.2)) cut (chain_head self) ∧
      N.to_nat n + size (log (view cs.2)) = size (log before) ∧
      pruned (log before) (doomed (log before) cut) (log (view cs.2)) ∧
      ∀ d v, versions (view cs.2) !! d = Some v ↔ versions before !! d = Some v ∧
        ancestor (log before) cut d ∧ ancestor (log before) d (chain_head self))
    (λ e cs, cs.1 = self ∧
      ((e = Error_Diverged (chain_head self) cut ∧
          ¬ ancestor (log before) cut (chain_head self) ∧ cs.2 = s) ∨
       ((∃ x, e = Error_Storage x) ∧ log (view cs.2) ⊆ log before ∧
        (∀ x, ¬ doomed (log before) cut x → log (view cs.2) !! x = log before !! x) ∧
        ((chain_ok pins self cs.2 ∧ versions (view cs.2) = versions before) ∨
         (chain_ok pins (MkChain cut (chain_ledger self)) cs.2 ∧
          ∀ d v, versions (view cs.2) !! d = Some v ↔ versions before !! d = Some v ∧
            ancestor (log before) cut d ∧ ancestor (log before) d (chain_head self)))))).
Proof.
  intros Hok Hheld Htip Hbelow Hfuel before. pose proof Hok as [Hs Hinv Hroot].
  pose proof (inv_ranked pins rank Hhash _ _ Hinv) as Hr.
  unfold compact. apply wp_bind, wp_get_fst, wp_bind, wp_on_snd, wp_ask.
  eapply cwp_mono; [apply (keep_path_cwp pins rank Hhash (chain_root self)); try done; unfold before in *; lia|..].
  2: { intros e [[-> Hn]|Hx]; (split; [done|]); [by left|right]. split_and!; [done|done|done|by left]. }
  intros keep [Hcut Hkeep]. specialize (Hbelow Hcut).
  assert (tip (log before) cut (chain_head self)) as Htip'.
  { split; [|apply Htip].
    apply (on_winner_path rank (log before) (chain_root self)); try done. apply Htip. }
  assert (∀ x, x ∈ keep ↔ ancestor (log before) cut x ∧ ancestor (log before) x (chain_head self)) as Hpath.
  { intros x. rewrite Hkeep, list_elem_of_singleton. split.
    - intros [->|(Hcx & Hxh & _)]; [split; [done|reflexivity]|done].
    - intros [Hcx Hxh]. destruct (decide (x = chain_head self)); [by left|by right]. }
  apply wp_bind, wp_on_snd, wp_ask.
  eapply cwp_mono; [apply (ancestors_of_cwp pins rank Hhash (chain_root self)); try done; unfold before in *; lia| |].
  2: { intros e Hx. split; [done|right]. split_and!; [done|done|done|by left]. }
  intros ancestors Hup. pose proof (λ a, way_up_elem rank (log before) cut ancestors a Hr Hup) as Hanc.
  assert (∀ x, off_path (log before) (λ b, b ∈ ancestors) cut x ↔ doomed (log before) cut x) as Hdoom.
  { intros x. unfold doomed, off_path. apply and_iff_compat_r, exist_proper. intros a.
    by rewrite Hanc. }
  apply wp_bind, wp_on_snd.
  eapply wp_mono; [apply (prune_all_wp pins rank Hhash (chain_root self) fuel _ cut ancestors cut 0); try done|..].
  - apply elem_of_list_to_set, elem_of_app. right. by left.
  - intros a Ha. apply elem_of_list_to_set, elem_of_app. by left.
  - intros a [Ha%Hanc| ->%list_elem_of_singleton]%elem_of_list_to_set%elem_of_app; [apply Ha|reflexivity].
  - intros n s1 ((Hs1 & Hinv1 & Hv1) & Hn & Hpr). apply (pruned_iff _ _ _ _ Hdoom) in Hpr.
    assert (∀ x, ancestor (log before) cut x → ¬ doomed (log before) cut x) as Hstay by (intros x Hx [_ Hnot]; done).
    assert (∀ s2, storage_ok s2 → view s2 = store_retain keep (view s1) →
      log (view s2) = log (view s1) ∧ chain_ok pins (MkChain cut (chain_ledger self)) s2 ∧
      ∀ d v, versions (view s2) !! d = Some v ↔ versions before !! d = Some v ∧
        ancestor (log before) cut d ∧ ancestor (log before) d (chain_head self)) as Hretained.
    { intros s2 Hs2 Hview2. assert (log (view s2) = log (view s1)) as Hlog2 by (by rewrite Hview2).
      assert (versions (view s2) = filter (λ hv, hv.1 ∈ keep) (versions before)) as Hv2
        by (rewrite Hview2; simpl; by rewrite Hv1).
      split_and!; [done| |intros d v; rewrite Hv2, map_lookup_filter_Some; simpl; by rewrite Hpath].
      split; [done| |].
      - apply (chain_inv_compact pins rank Hhash before (view s2) (chain_root self) cut
          (chain_head self) (doomed (log before) cut) keep); try done. by rewrite Hlog2.
      - simpl. rewrite Hv2.
        destruct (ancestor_held pins rank Hhash before (chain_root self) cut (chain_head self)) as [v Hv]; [done..|].
        exists v. apply map_lookup_filter_Some. split; [done|]. apply Hpath. split; [reflexivity|done]. }
    apply wp_bind, wp_on_snd. eapply write_wp; [by apply retain_spec|..].
    + intros _ s2 [Hs2 Hview2]. destruct (Hretained s2 Hs2 Hview2) as (Hlog2 & Hok2 & Hv2).
      apply wp_bind, wp_put_fst, wp_ret. cbn [fst snd chain_root]. rewrite Hlog2.
      split_and!; [done|done|done|by eapply tip_kept|exact Hn|done|done].
    + intros x s2 [Hs2 Hview2]. cbn [fst snd].
      assert (log (view s2) = log (view s1)) as Hlog2 by (by destruct Hview2 as [-> | ->]).
      rewrite Hlog2. split; [done|]. right. split_and!; [by exists x|by eapply pruned_sub|apply (pr_kept _ _ _ Hpr)|].
      destruct Hview2 as [Hsame|Hret]; [left|right; by apply Hretained].
      split; [|by rewrite Hsame]. split; [done|by rewrite Hsame|by rewrite Hsame, Hv1].
  - intros e s1 ((Hs1 & Hinv1 & Hv1) & Hsub & Hkept & Hx). split; [done|]. right.
    split_and!; [done|done|intros x Hx'; apply Hkept; intros H'; by apply Hx', Hdoom|].
    left. split; [|done]. split; simpl; [done|done|by rewrite Hv1].
Qed.

(** ** Inserting after a compaction that failed *)

Section stranded.
Context `{Externals} {S E : Type} `{StorageSpec S E}.
Variables (pins : EnvelopeDigest → option Msg) (rank : EnvelopeDigest → nat).
Hypothesis Hid : ∀ k, is_Some (Key_id k).
Hypothesis Hhash : HashOk pins rank.

Definition childless (st : Store) (root : EnvelopeDigest) : Prop := ∀ d, ¬ logged_child (log st) root d.

(** A run that says nothing of the root gives it no child. *)
Lemma childless_stored st run st' root :
  Forall (λ e, prev_of e ≠ Some root) run → stored_from st run st' → childless st root → childless st' root.
Proof using.
  intros Hrun Hfrom Hnone d (e' & He' & Hp). destruct (log st !! d) as [e|] eqn:He.
  - apply (Hnone d). exists e. split; [done|]. pose proof (lookup_weaken _ _ _ _ He (sf_grows _ _ _ Hfrom)). congruence.
  - destruct (sf_new _ _ _ Hfrom d e' He' He) as (e & status & p & ver & Hin & _ & -> & Hpe & _).
    rewrite Forall_forall in Hrun. by destruct (Hrun e Hin).
Qed.

Lemma childless_tip st root h : childless st root → tip (log st) root h → h = root.
Proof using. intros Hnone Htip. apply (tip_unique (log st) root); [done|]. split; [apply rtc_refl|done]. Qed.

Lemma childless_same st st' root : log st' = log st → childless st root → childless st' root.
Proof using. unfold childless. by intros ->. Qed.

(** A chain whose root has no child left, and whose head is above it, falls back to
    the root whatever it is given. *)
Lemma insert_stranded_wp (fuel : nat) (run : list Envelope) (self : Chain) (s : S) :
  chain_ok pins self s → childless (view s) (chain_root self) →
  rank (chain_root self) < rank (chain_head self) →
  Forall (λ e, prev_of e ≠ Some (chain_root self)) run → batch_pinned pins run →
  size (log (view s)) + length run + 1 < fuel →
  wp (insert_batch fuel run) (self, s)
    (λ ins cs, ins = Insert_Reorged (chain_head self) ∧ chain_head cs.1 = chain_root self)
    (λ e cs, chain_head cs.1 = chain_root self ∨ cs.1 = self ∧ ∃ x, e = Error_Storage x).
Proof using Hid Hhash.
  intros Hok Hnone Hrank Hrun Hpins Hfuel.
  eapply wp_mono; [by apply (insert_batch_wp pins rank Hid Hhash fuel run self s Hok Hpins)|..].
  - intros ins cs (Hok' & _ & Hfrom & _ & Htip & Hreads).
    pose proof (childless_tip _ _ _ (childless_stored _ _ _ _ Hrun Hfrom Hnone) Htip) as Hhead.
    assert (chain_head cs.1 ≠ chain_head self) as Hne by (intros Heq; rewrite Hhead in Heq; rewrite Heq in Hrank; lia).
    split; [|done]. destruct ins as [|from| |]; [..|by destruct Hreads as [? _]|by destruct Hreads as [? _]].
    + destruct Hreads as [_ Hanc]. rewrite Hhead in Hanc.
      pose proof (ancestor_rank rank _ (inv_ranked pins rank Hhash _ _ (co_inv _ _ _ Hok')) _ _ Hanc). lia.
    + destruct Hreads as [-> _]. done.
  - intros e cs (_ & _ & _ & prefix & rest & s1 & -> & _ & Hcases). apply Forall_app in Hrun as [Hrun _].
    destruct Hcases as [([Hfrom _] & Hlog & Htip & _)|(Hsame & Hw & Hstored)].
    + left. apply (childless_tip (view cs.2)); [|done]. apply (childless_same (view s1)); [done|].
      by eapply childless_stored.
    + right. split; [done|]. destruct Hw as [[_ Hx]|(at_ & d & err & Hpath & [Hc _] & _)]; [done|].
      assert (stored_from (view s) prefix (view s1)) as Hfrom by (by destruct Hstored as [[? _]|(e0 & ? & _)]).
      pose proof (childless_stored _ _ _ _ Hrun Hfrom Hnone) as Hnone1. exfalso.
      destruct Hpath as [x|x y z [Hc' _] _]; [by apply (Hnone1 d)|by apply (Hnone1 y)].
Qed.

(** A chain whose root is below what the store keeps is refused for its root. *)
Lemma insert_unrooted_wp (fuel : nat) (run : list Envelope) (self self' : Chain) (s : S) :
  chain_ok pins self' s → rank (chain_root self) < rank (chain_root self') → batch_pinned pins run →
  wp (insert_batch fuel run) (self, s) (λ _ _, False)
    (λ e cs, cs.1 = self ∧ (e = Error_UnknownHead (chain_root self) ∨ ∃ x, e = Error_Storage x)).
Proof using Hid Hhash.
  intros Hok Hrank Hpins. unfold insert_batch. apply wp_bind, wp_on_snd, wp_catch.
  assert (∀ r s1, store_outcome pins self' s run r s1 →
    wp (walk_and_report fuel r) (self, s1) (λ _ _, False)
      (λ e cs, cs.1 = self ∧ (e = Error_UnknownHead (chain_root self) ∨ ∃ x, e = Error_Storage x))) as Hrest.
  { intros r s1 (Hs1 & Hinv1 & _). apply wp_bind, wp_get_fst, wp_bind, wp_on_snd, wp_bind, wp_ask.
    unfold ledger_open. apply cwp_bind, cwp_map_err. eapply cwp_mono; [by apply contains_version_spec| |].
    - intros held ->. case_bool_decide as Hheld; [|by split; [|left]].
      pose proof (rank_root_held pins rank Hhash (chain_root self') (view s1) _ Hinv1 Hheld). lia.
    - intros x _. split; [done|right]. by exists x. }
  eapply wp_mono; [by apply (store_batch_outcome pins rank Hid Hhash self' s run)|..]; intros r s1 Hout; by apply Hrest.
Qed.
End stranded.
