(* ===== verification/Change.v ===== *)
(** * What a head movement changed: [crates/state/src/change.rs]

    A [ChangeSet] summarises the namespaces and paths a run of envelopes
    touched; [diff] derives one from the log, reorgs included. A [BTreeSet] is a
    [BTreeMap] to unit, so iteration order is the source's. The loop of [diff]
    runs on fuel. *)

From S2P Require Import Prelude BTree Text Codec Externals Keys Subkey Msg Envelope Value.
From S2P Require Import Storage Addr StateError Ledger Chain.

Abbreviation BTreeSet A := (list (A * ())) (only parsing).

(** What changed inside one namespace. *)
Inductive Change : Type :=
  | Change_Whole
  | Change_Paths (paths : BTreeSet SubkeyPath).

Definition ChangeSet : Type := BTreeMap NamespaceKey Change.

Definition ChangeSet_default : ChangeSet := [].

Definition ChangeSet_is_empty (self : ChangeSet) : bool := bool_decide (length self = 0).

Definition ChangeSet_get (self : ChangeSet) (key : NamespaceKey) : option Change := bt_get self key.

Definition ChangeSet_iter (self : ChangeSet) : list (NamespaceKey * Change) := self.

(** One path is a prefix of the other. *)
Definition overlaps (a b : SubkeyPath) : bool :=
  forallb (λ ab, bool_decide (ab.1 = ab.2)) (zip (SubkeyPath_as_ref a) (SubkeyPath_as_ref b)).

Definition covers (a b : SubkeyPath) : bool :=
  (length (SubkeyPath_as_ref a) <=? length (SubkeyPath_as_ref b)) && overlaps a b.

Definition touches (self : ChangeSet) (key : NamespaceKey) (path : option SubkeyPath) : bool :=
  match bt_get self key, path with
  | None, _ => false
  | Some Change_Whole, _ | Some (Change_Paths _), None => true
  | Some (Change_Paths paths), Some path => existsb (λ touched, overlaps touched path) (bt_keys paths)
  end.

(** The match of [touch] on the entry found or just inserted. *)
Definition touch_entry (path : SubkeyPath) (change : Change) : Change :=
  match change with
  | Change_Whole => Change_Whole
  | Change_Paths paths =>
      if existsb (λ touched, covers touched path) (bt_keys paths) then Change_Paths paths
      else Change_Paths (bt_insert path () (bt_retain (λ touched _, negb (covers path touched)) paths))
  end.

Definition touch (self : ChangeSet) (key : NamespaceKey) (path : option SubkeyPath) : ChangeSet :=
  match path with
  | None => bt_insert key Change_Whole self
  | Some path =>
      let entry := default (Change_Paths [(path, ())]) (bt_get self key) in
      bt_insert key (touch_entry path entry) self
  end.

Definition record (self : ChangeSet) (msg : Msg) : ChangeSet :=
  match msg with
  | Msg_Init init =>
      foldl (λ self key, touch self key None) self (bt_keys (fc_namespaces (init_state init)))
  | Msg_SetNamespace set => touch self (sn_key set) None
  | Msg_DeleteNamespace del => touch self (dn_key del) None
  | Msg_SetNamespaceKey set => touch self (snk_key set) (Some (snk_path set))
  | Msg_AmendNamespaceKey amend => touch self (ank_key amend) (ank_path amend)
  end.

Definition merge (self other : ChangeSet) : ChangeSet :=
  foldl (λ self kc,
    match kc.2 with
    | Change_Whole => touch self kc.1 None
    | Change_Paths paths => foldl (λ self path, touch self kc.1 (Some path)) self (bt_keys paths)
    end) self other.

(** What one movement of the canonical head did. *)
Record Movement := MkMovement {
  orphaned : BTreeSet EnvelopeDigest;
  changes : ChangeSet;
}.

Definition Movement_default : Movement := MkMovement [] ChangeSet_default.

Definition Movement_merge (self next : Movement) : Movement :=
  MkMovement (foldl (λ s d, bt_insert d () s) (orphaned self) (bt_keys (orphaned next)))
    (merge (changes self) (changes next)).

Definition Movement_is_empty (self : Movement) : bool :=
  ChangeSet_is_empty (changes self) && bool_decide (length (orphaned self) = 0).

(** ** The walk *)

Inductive Cursor : Type :=
  | Cursor_At (digest : EnvelopeDigest)
  | Cursor_End (digest : option EnvelopeDigest).

Record Branch := MkBranch {
  walked : list (EnvelopeDigest * Envelope);
  cursor : Cursor;
  reached : BTreeSet EnvelopeDigest;
}.

Definition Branch_opened (head : EnvelopeDigest) : Branch :=
  MkBranch [] (Cursor_At head) [(head, ())].

(** The digests a branch has reached, head first. *)
Definition Branch_reached (self : Branch) : list EnvelopeDigest :=
  (walked self).*1 ++
  match cursor self with
  | Cursor_At digest | Cursor_End (Some digest) => [digest]
  | Cursor_End None => []
  end.

Definition Branch_meet (self other : Branch) : option EnvelopeDigest :=
  find (λ digest, bt_contains_key (reached other) digest) (Branch_reached self).

Fixpoint take_while {A} (p : A → bool) (l : list A) : list A :=
  match l with [] => [] | a :: l' => if p a then a :: take_while p l' else [] end.

Definition Branch_above (self : Branch) (meet : EnvelopeDigest) : list (EnvelopeDigest * Envelope) :=
  take_while (λ de, bool_decide (de.1 ≠ meet)) (walked self).

(** [ChangeDiffer]: the head standing before the ingest. *)
Record ChangeDiffer := MkChangeDiffer { differ_from : EnvelopeDigest }.

Definition ChangeDiffer_opened_at (from : EnvelopeDigest) : ChangeDiffer := MkChangeDiffer from.

Section diff.
Context {S E : Type} `{Externals} `{Storage S E}.

(** [Branch::step]: whether the walk moved, and the branch it left. *)
Definition Branch_step (self : Branch) (storage : S) : Comp (Error E) (bool * Branch) :=
  match cursor self with
  | Cursor_End _ => c_ok (false, self)
  | Cursor_At digest =>
      let? entry := c_map_err Error_Storage (envelope storage digest) in
      match entry with
      | None => c_ok (false, MkBranch (walked self) (Cursor_End (Some digest)) (reached self))
      | Some envelope =>
          let walked := walked self ++ [(digest, envelope)] in
          match Msg_prev_digest (payload envelope) with
          | Some prev =>
              c_ok (true, MkBranch walked (Cursor_At prev) (bt_insert prev () (reached self)))
          | None => c_ok (false, MkBranch walked (Cursor_End None) (reached self))
          end
      end
  end.

(** The loop of [diff]: where the two branches met. *)
Fixpoint diff_loop (fuel : nat) (from to_ : EnvelopeDigest) (storage : S) (undone made : Branch)
    : Comp (Error E) (EnvelopeDigest * Branch * Branch) :=
  match Branch_meet undone made with
  | Some meet => c_ok (meet, undone, made)
  | None =>
      match fuel with
      | 0 => Diverge
      | Datatypes.S fuel =>
          let? undone := Branch_step undone storage in
          let? made := Branch_step made storage in
          if negb undone.1 && negb made.1 then c_err (Error_Diverged from to_)
          else diff_loop fuel from to_ storage undone.2 made.2
      end
  end.

Definition diff (fuel : nat) (self : ChangeDiffer) (storage : S) (to_ : EnvelopeDigest)
    : Comp (Error E) Movement :=
  let from := differ_from self in
  let? met := diff_loop fuel from to_ storage (Branch_opened from) (Branch_opened to_) in
  let '(meet, undone, made) := met in
  let movement :=
    foldl (λ m de, MkMovement (bt_insert de.1 () (orphaned m)) (record (changes m) (payload de.2)))
      Movement_default (Branch_above undone meet) in
  c_ok (MkMovement (orphaned movement)
    (foldl (λ c de, record c (payload de.2)) (changes movement) (Branch_above made meet))).
End diff.
