(* ===== verification/ChangeSpec.v ===== *)
(** * Change sets

    A change set covers the paths at or under those it records ([covered]); two
    well-formed sets that cover the same are equal, which makes recording and
    merging laws of union. *)

From S2P Require Import Prelude BTree Text Codec Externals Keys Subkey Msg Envelope Value.
From S2P Require Import Storage Addr StateError Ledger LedgerSpec Chain Change.

(** ** What a set covers *)

Definition change_covers (c : Change) (q : list Subkey) : Prop :=
  match c with
  | Change_Whole => True
  | Change_Paths paths => ∃ p, p ∈ bt_keys paths ∧ SubkeyPath_as_ref p `prefix_of` q
  end.

Definition covered (cs : ChangeSet) (key : NamespaceKey) (q : list Subkey) : Prop :=
  ∃ c, bt_get cs key = Some c ∧ change_covers c q.

(** [Paths] is never empty and no path in it is a prefix of another. *)
Definition change_ok (c : Change) : Prop :=
  match c with
  | Change_Whole => True
  | Change_Paths paths =>
      bt_sorted paths ∧ paths ≠ [] ∧
      ∀ p p', p ∈ bt_keys paths → p' ∈ bt_keys paths →
        SubkeyPath_as_ref p `prefix_of` SubkeyPath_as_ref p' → p = p'
  end.

Definition changes_ok (cs : ChangeSet) : Prop :=
  bt_sorted cs ∧ ∀ key c, bt_get cs key = Some c → change_ok c.

(** One of two paths lies at or under the other. *)
Definition related (w q : list Subkey) : Prop := w `prefix_of` q ∨ q `prefix_of` w.

(** What a message writes: a namespace, and the path in it. *)
Definition writes (msg : Msg) : list (NamespaceKey * list Subkey) :=
  match msg with
  | Msg_Init init => (λ k, (k, [])) <$> bt_keys (fc_namespaces (init_state init))
  | Msg_SetNamespace set => [(sn_key set, [])]
  | Msg_DeleteNamespace del => [(dn_key del, [])]
  | Msg_SetNamespaceKey set => [(snk_key set, SubkeyPath_as_ref (snk_path set))]
  | Msg_AmendNamespaceKey amend => [(ank_key amend, path_segments (ank_path amend))]
  end.

(** The set a run of messages records. *)
Definition changes_of (msgs : list Msg) : ChangeSet := foldl record ChangeSet_default msgs.

(** ** Paths *)

Lemma zip_all_prefix (a b : list Subkey) :
  forallb (λ ab, bool_decide (ab.1 = ab.2)) (zip a b) = true ↔ related a b.
Proof.
  unfold related. revert b. induction a as [|x a IH]; intros [|y b]; simpl.
  - split; [by left|done].
  - split; [|done]. intros _. left. apply prefix_nil.
  - split; [|done]. intros _. right. apply prefix_nil.
  - rewrite andb_true_iff, bool_decide_eq_true, IH. split.
    + intros [-> [Hp|Hp]]; [left|right]; by apply prefix_cons.
    + intros [Hp|Hp]; (split; [by apply prefix_cons_inv_1 in Hp|apply prefix_cons_inv_2 in Hp; tauto]).
Qed.

Lemma overlaps_related a b : overlaps a b = true ↔ related (SubkeyPath_as_ref a) (SubkeyPath_as_ref b).
Proof. apply zip_all_prefix. Qed.

Lemma covers_prefix a b :
  covers a b = true ↔ SubkeyPath_as_ref a `prefix_of` SubkeyPath_as_ref b.
Proof.
  unfold covers. rewrite andb_true_iff, Nat.leb_le, overlaps_related. split.
  - intros [Hl [Hp|[k Hk]]]; [done|]. rewrite Hk in Hl. rewrite length_app in Hl.
    destruct k; [|simpl in Hl; lia]. rewrite app_nil_r in Hk. by rewrite Hk.
  - intros Hp. split; [by apply prefix_length|by left].
Qed.

Lemma prefix_antisym {A} (a b : list A) : a `prefix_of` b → b `prefix_of` a → a = b.
Proof. intros. by apply (anti_symm prefix). Qed.

Lemma path_nonempty (p : SubkeyPath) : ¬ SubkeyPath_as_ref p `prefix_of` [].
Proof. intros Hp%prefix_nil_inv. by destruct (SubkeyPath_nonempty p). Qed.

(** Unrelated paths part. *)
Lemma unrelated_diverge (w q : list Subkey) : ¬ related w q → diverge w q.
Proof.
  revert q. induction w as [|x w IH]; intros [|y q] Hn.
  - destruct Hn. by left.
  - destruct Hn. left. apply prefix_nil.
  - destruct Hn. right. apply prefix_nil.
  - destruct (decide (x = y)) as [<-|Hne].
    + destruct (IH q) as (l & a & b & p' & q' & -> & -> & Hab).
      { intros [Hp|Hp]; apply Hn; [left|right]; by apply prefix_cons. }
      by exists (x :: l), a, b, p', q'.
    + by exists [], x, y, w, q.
Qed.

(** ** Sets as maps to unit *)

Section sets.
Context {A : Type} `{OrdLaws A}.
Implicit Types l : list (A * ()).

Lemma set_elem_get l x : bt_sorted l → x ∈ bt_keys l ↔ bt_get l x = Some ().
Proof.
  intros Hs. unfold bt_keys. rewrite list_elem_of_fmap. split.
  - intros ([y []] & -> & Hin). by apply bt_sorted_elem_get.
  - intros Hg%bt_get_elem. by exists (x, ()).
Qed.

Lemma set_insert_keys l x y : bt_sorted l → y ∈ bt_keys (bt_insert x () l) ↔ y = x ∨ y ∈ bt_keys l.
Proof.
  intros Hs. rewrite !set_elem_get by auto with lotus.
  destruct (cmp x y) eqn:E; [apply cmp_eq_iff in E as <-|..].
  - rewrite bt_get_insert_eq. naive_solver.
  - rewrite bt_get_insert_ne by (by apply cmp_lt_neq).
    split; [by right|intros [->|?]; [by rewrite cmp_refl in E|done]].
  - rewrite bt_get_insert_ne by (intros ->; by rewrite cmp_refl in E).
    split; [by right|intros [->|?]; [by rewrite cmp_refl in E|done]].
Qed.

Lemma set_retain_keys l (keep : A → bool) y :
  y ∈ bt_keys (bt_retain (λ x _, keep x) l) ↔ y ∈ bt_keys l ∧ keep y = true.
Proof.
  unfold bt_keys, bt_retain. rewrite !list_elem_of_fmap. split.
  - intros ([z []] & -> & [Hk Hin]%list_elem_of_filter). simpl in *.
    split; [by exists (z, ())|by apply Is_true_true].
  - intros [([z []] & -> & Hin) Hk]. exists (z, ()). split; [done|]. simpl in *.
    apply list_elem_of_filter. split; [by apply Is_true_true|done].
Qed.

Lemma set_ext l l' : bt_sorted l → bt_sorted l' → (∀ x, x ∈ bt_keys l ↔ x ∈ bt_keys l') → l = l'.
Proof.
  intros Hs Hs' Hext. apply bt_ext; [done..|]. intros x. specialize (Hext x).
  rewrite !set_elem_get in Hext by done.
  destruct (bt_get l x) as [[]|], (bt_get l' x) as [[]|]; naive_solver.
Qed.

Lemma contains_key_elem l x : bt_sorted l → bt_contains_key l x = true ↔ x ∈ bt_keys l.
Proof.
  intros Hs. rewrite set_elem_get by done. unfold bt_contains_key.
  destruct (bt_get l x) as [[]|]; naive_solver.
Qed.
End sets.

(** ** Recording *)

Lemma touch_entry_ok path c : change_ok c → change_ok (touch_entry path c).
Proof.
  destruct c as [|paths]; simpl; [done|]. intros (Hs & Hne & Hanti).
  destruct (existsb _ _) eqn:Hex; [done|].
  assert (∀ p, p ∈ bt_keys paths → ¬ SubkeyPath_as_ref p `prefix_of` SubkeyPath_as_ref path) as Hnew.
  { intros p Hp Hpre. apply not_true_iff_false in Hex. apply Hex, existsb_exists.
    exists p. by rewrite <-list_elem_of_In, covers_prefix. }
  split_and!; [by apply sorted_insert, sorted_retain|apply bt_insert_not_nil|].
  assert (∀ p, p ∈ bt_keys (bt_insert path () (bt_retain (λ touched _, negb (covers path touched)) paths)) →
    p = path ∨ p ∈ bt_keys paths ∧ ¬ SubkeyPath_as_ref path `prefix_of` SubkeyPath_as_ref p) as Hin.
  { intros p. rewrite (set_insert_keys (bt_retain _ paths)) by by apply sorted_retain.
    rewrite (set_retain_keys paths (λ touched, negb (covers path touched))).
    rewrite negb_true_iff, <-not_true_iff_false, covers_prefix. tauto. }
  intros p p' [->|[Hp Hn]]%Hin [->|[Hp' Hn']]%Hin Hpre; [done|done|by destruct (Hnew p)|by apply Hanti].
Qed.

Lemma touch_entry_covers path c q :
  change_ok c →
  change_covers (touch_entry path c) q ↔ change_covers c q ∨ SubkeyPath_as_ref path `prefix_of` q.
Proof.
  destruct c as [|paths]; simpl; [tauto|]. intros (Hs & _ & _).
  destruct (existsb _ _) eqn:Hex; simpl.
  - apply existsb_exists in Hex as (p & Hp%list_elem_of_In & Hc%covers_prefix).
    split; [by left|]. intros [?|Hq]; [done|]. exists p. split; [done|by etransitivity].
  - split.
    + intros (p & Hp & Hq). rewrite (set_insert_keys (bt_retain _ paths)) in Hp by by apply sorted_retain.
      rewrite (set_retain_keys paths (λ touched, negb (covers path touched))) in Hp.
      destruct Hp as [->|[Hp _]]; [by right|left; by exists p].
    + intros Hq.
      assert (∀ p, p = path ∨ p ∈ bt_keys paths ∧ covers path p = false →
        p ∈ bt_keys (bt_insert path () (bt_retain (λ touched _, negb (covers path touched)) paths))) as Hin.
      { intros p. rewrite (set_insert_keys (bt_retain _ paths)) by by apply sorted_retain.
        rewrite (set_retain_keys paths (λ touched, negb (covers path touched))), negb_true_iff. tauto. }
      destruct Hq as [(p & Hp & Hq)|Hq]; [|exists path; split; [apply Hin; by left|done]].
      destruct (covers path p) eqn:Hc.
      * exists path. split; [apply Hin; by left|]. apply covers_prefix in Hc. by etransitivity.
      * exists p. split; [apply Hin; by right|done].
Qed.

Lemma fresh_paths_ok (path : SubkeyPath) : change_ok (Change_Paths [(path, ())]).
Proof.
  simpl. split_and!; [by repeat constructor|done|].
  intros p p' ->%list_elem_of_singleton ->%list_elem_of_singleton. done.
Qed.

Lemma entry_ok cs key path :
  changes_ok cs → change_ok (default (Change_Paths [(path, ())]) (bt_get cs key)).
Proof.
  intros [_ Hok]. destruct (bt_get cs key) as [c|] eqn:Hg; simpl; [by eapply Hok|apply fresh_paths_ok].
Qed.

Lemma touch_ok cs key path : changes_ok cs → changes_ok (touch cs key path).
Proof.
  intros Hok. pose proof Hok as [Hs Hall]. destruct path as [path|]; simpl; (split; [by apply sorted_insert|]).
  - intros key' c. destruct (decide (key = key')) as [<-|Hne].
    + rewrite bt_get_insert_eq. intros [= <-]. by apply touch_entry_ok, entry_ok.
    + rewrite bt_get_insert_ne by done. apply Hall.
  - intros key' c. destruct (decide (key = key')) as [<-|Hne].
    + rewrite bt_get_insert_eq. by intros [= <-].
    + rewrite bt_get_insert_ne by done. apply Hall.
Qed.

Lemma touch_covered cs key path key' q :
  changes_ok cs →
  covered (touch cs key path) key' q ↔
  covered cs key' q ∨ key = key' ∧ path_segments path `prefix_of` q.
Proof.
  intros Hok. unfold covered, touch. destruct (decide (key = key')) as [<-|Hne].
  - destruct path as [path|]; rewrite bt_get_insert_eq.
    + pose proof (touch_entry_covers path _ q (entry_ok cs key path Hok)) as Hc.
      destruct (bt_get cs key) as [c|]; simpl in *; [naive_solver|].
      split; [|naive_solver]. intros (c & [= <-] & Hq). apply Hc in Hq as [(p & Hp & Hq)|Hq]; [|by right].
      apply list_elem_of_singleton in Hp as ->. by right.
    + split; [|naive_solver]. intros _. right. split; [done|apply prefix_nil].
  - destruct path as [path|]; rewrite bt_get_insert_ne by done; naive_solver.
Qed.

(** A fold of touches covers what each of them writes. *)
Lemma foldl_touch cs (ws : list (NamespaceKey * option SubkeyPath)) :
  changes_ok cs →
  changes_ok (foldl (λ cs w, touch cs w.1 w.2) cs ws) ∧
  ∀ key q, covered (foldl (λ cs w, touch cs w.1 w.2) cs ws) key q ↔
    covered cs key q ∨ ∃ path, (key, path) ∈ ws ∧ path_segments path `prefix_of` q.
Proof.
  revert cs. induction ws as [|[k w] ws IH]; intros cs Hok; simpl.
  - split; [done|]. intros key q. split; [by left|]. intros [?|(p & Hp%not_elem_of_nil & _)]; done.
  - destruct (IH (touch cs k w)) as [Hok' Hc]; [by apply touch_ok|]. split; [done|].
    intros key q. rewrite Hc, touch_covered by done. split.
    + intros [[?|[<- Hw]]|(p & Hp & Hq)]; [by left|right; exists w; split; [by left|done]|].
      right. exists p. split; [by right|done].
    + intros [?|(p & [[= -> ->]|Hp]%elem_of_cons & Hq)]; [by left; left|by left; right|].
      right. by exists p.
Qed.

(** The touches a message and a merge amount to. *)
Definition msg_touches (msg : Msg) : list (NamespaceKey * option SubkeyPath) :=
  match msg with
  | Msg_Init init => (λ k, (k, None)) <$> bt_keys (fc_namespaces (init_state init))
  | Msg_SetNamespace set => [(sn_key set, None)]
  | Msg_DeleteNamespace del => [(dn_key del, None)]
  | Msg_SetNamespaceKey set => [(snk_key set, Some (snk_path set))]
  | Msg_AmendNamespaceKey amend => [(ank_key amend, ank_path amend)]
  end.

Definition change_touches (kc : NamespaceKey * Change) : list (NamespaceKey * option SubkeyPath) :=
  match kc.2 with
  | Change_Whole => [(kc.1, None)]
  | Change_Paths paths => (λ p, (kc.1, Some p)) <$> bt_keys paths
  end.

Lemma foldl_fmap {A B C} (f : A → B → A) (g : C → B) (a : A) (l : list C) :
  foldl f a (g <$> l) = foldl (λ a c, f a (g c)) a l.
Proof. revert a. by induction l as [|c l IH]; intros a; simpl; [|rewrite IH]. Qed.

Lemma record_touches cs msg :
  record cs msg = foldl (λ cs w, touch cs w.1 w.2) cs (msg_touches msg).
Proof. destruct msg; simpl; try done. by rewrite foldl_fmap. Qed.

Lemma writes_touches msg key w :
  (key, w) ∈ writes msg ↔ ∃ path, (key, path) ∈ msg_touches msg ∧ path_segments path = w.
Proof.
  destruct msg; simpl; [setoid_rewrite list_elem_of_fmap|setoid_rewrite list_elem_of_singleton..];
    naive_solver.
Qed.

Lemma merge_touches cs other :
  merge cs other = foldl (λ cs w, touch cs w.1 w.2) cs (other ≫= change_touches).
Proof.
  unfold merge. revert cs. induction other as [|[k c] other IH]; intros cs; [done|].
  simpl. rewrite foldl_app, <-IH. f_equal.
  destruct c; [done|]. unfold change_touches. cbn [fst snd]. by rewrite foldl_fmap.
Qed.

Lemma record_ok cs msg : changes_ok cs → changes_ok (record cs msg).
Proof. intros Hok. rewrite record_touches. by apply foldl_touch. Qed.

Lemma record_covered cs msg key q :
  changes_ok cs →
  covered (record cs msg) key q ↔
  covered cs key q ∨ ∃ w, (key, w) ∈ writes msg ∧ w `prefix_of` q.
Proof.
  intros Hok. rewrite record_touches. rewrite (proj2 (foldl_touch cs (msg_touches msg) Hok)).
  setoid_rewrite writes_touches. naive_solver.
Qed.

Lemma merge_ok cs other : changes_ok cs → changes_ok (merge cs other).
Proof. intros Hok. rewrite merge_touches. by apply foldl_touch. Qed.

Lemma merge_covered cs other key q :
  changes_ok cs → changes_ok other →
  covered (merge cs other) key q ↔ covered cs key q ∨ covered other key q.
Proof.
  intros Hok [Hs _]. rewrite merge_touches. rewrite (proj2 (foldl_touch _ _ Hok)). apply or_iff_compat_l.
  unfold covered. split.
  - intros (p & ([k c] & Hp & Hin)%list_elem_of_bind & Hq).
    destruct c as [|paths]; simpl in Hp.
    + apply list_elem_of_singleton in Hp as [= <- ->]. exists Change_Whole.
      split; [by apply bt_sorted_elem_get|done].
    + apply list_elem_of_fmap in Hp as (p' & [= <- ->] & Hp'). exists (Change_Paths paths).
      split; [by apply bt_sorted_elem_get|by exists p'].
  - intros ([|paths] & Hg & Hc); apply bt_get_elem in Hg.
    + exists None. split; [|apply prefix_nil]. apply list_elem_of_bind.
      exists (key, Change_Whole). split; [by left|exact Hg].
    + destruct Hc as (p & Hp & Hq). exists (Some p). split; [|done]. apply list_elem_of_bind.
      exists (key, Change_Paths paths). split; [|exact Hg]. apply list_elem_of_fmap. by exists p.
Qed.

Lemma default_ok : changes_ok ChangeSet_default.
Proof. split; [constructor|done]. Qed.

Lemma changes_of_snoc msgs msg : changes_of (msgs ++ [msg]) = record (changes_of msgs) msg.
Proof. unfold changes_of. by rewrite foldl_app. Qed.

Lemma changes_of_ok msgs : changes_ok (changes_of msgs).
Proof.
  induction msgs as [|msg msgs IH] using rev_ind; [apply default_ok|].
  rewrite changes_of_snoc. by apply record_ok.
Qed.

Lemma changes_of_covered msgs key q :
  covered (changes_of msgs) key q ↔
  ∃ msg w, msg ∈ msgs ∧ (key, w) ∈ writes msg ∧ w `prefix_of` q.
Proof.
  induction msgs as [|msg msgs IH] using rev_ind.
  - split; [by intros (c & ? & _)|]. intros (m & w & Hm%not_elem_of_nil & _). done.
  - rewrite changes_of_snoc, record_covered by apply changes_of_ok. rewrite IH.
    setoid_rewrite elem_of_app. setoid_rewrite list_elem_of_singleton. naive_solver.
Qed.

(** ** Sets that cover the same are equal *)

Lemma paths_incl paths paths' :
  change_ok (Change_Paths paths) → change_ok (Change_Paths paths') →
  (∀ q, change_covers (Change_Paths paths) q ↔ change_covers (Change_Paths paths') q) →
  ∀ p, p ∈ bt_keys paths → p ∈ bt_keys paths'.
Proof.
  intros (Hs & _ & Hanti) _ Hext p Hp.
  destruct (proj1 (Hext (SubkeyPath_as_ref p))) as (p' & Hp' & Hpre'); [by exists p|].
  destruct (proj2 (Hext (SubkeyPath_as_ref p'))) as (p'' & Hp'' & Hpre''); [by exists p'|].
  assert (p'' = p) as -> by (apply Hanti; [done..|by etransitivity]).
  assert (p = p') as -> by (apply (inj SubkeyPath_as_ref); by apply prefix_antisym). done.
Qed.

Lemma change_ext c c' :
  change_ok c → change_ok c' → (∀ q, change_covers c q ↔ change_covers c' q) → c = c'.
Proof.
  intros Hc Hc' Hext. destruct c as [|paths], c' as [|paths']; [done|..].
  - destruct (proj1 (Hext [])) as (p & _ & Hp); [done|]. by destruct (path_nonempty p).
  - destruct (proj2 (Hext [])) as (p & _ & Hp); [done|]. by destruct (path_nonempty p).
  - f_equal. apply set_ext; [apply Hc|apply Hc'|]. intros p. split.
    + by apply paths_incl.
    + apply paths_incl; [done|done|]. intros q. symmetry. apply Hext.
Qed.

(** A recorded change covers something. *)
Lemma change_covers_some c : change_ok c → ∃ q, change_covers c q.
Proof.
  destruct c as [|[|[p []] paths]]; simpl; [by exists []|by intros (_ & ? & _)|].
  intros _. exists (SubkeyPath_as_ref p). exists p. split; [by left|done].
Qed.

Lemma changes_ext cs cs' :
  changes_ok cs → changes_ok cs' → (∀ key q, covered cs key q ↔ covered cs' key q) → cs = cs'.
Proof.
  intros [Hs Hok] [Hs' Hok'] Hext. apply bt_ext; [done..|]. intros key. specialize (Hext key).
  unfold covered in Hext.
  destruct (bt_get cs key) as [c|] eqn:Hc, (bt_get cs' key) as [c'|] eqn:Hc'; [| | |done].
  - f_equal. apply change_ext; [by eapply Hok|by eapply Hok'|]. intros q. specialize (Hext q). naive_solver.
  - destruct (change_covers_some c) as [q Hq]; [by eapply Hok|].
    destruct (proj1 (Hext q)) as (c' & ? & _); [by exists c|done].
  - destruct (change_covers_some c') as [q Hq]; [by eapply Hok'|].
    destruct (proj2 (Hext q)) as (c & ? & _); [by exists c'|done].
Qed.

(** [touches] asks whether something under the path is covered. *)
Lemma touches_covered cs key path :
  changes_ok cs →
  touches cs key path = true ↔ ∃ q, path_segments path `prefix_of` q ∧ covered cs key q.
Proof.
  intros [_ Hok]. unfold touches, covered. destruct (bt_get cs key) as [[|paths]|] eqn:Hg.
  - split; [|done]. intros _. exists (path_segments path). split; [done|by exists Change_Whole].
  - destruct path as [path|].
    + rewrite existsb_exists. split.
      * intros (p & Hp%list_elem_of_In & [Ho|Ho]%overlaps_related).
        -- exists (SubkeyPath_as_ref path). split; [done|]. exists (Change_Paths paths).
           split; [done|by exists p].
        -- exists (SubkeyPath_as_ref p). split; [done|]. exists (Change_Paths paths).
           split; [done|by exists p].
      * intros (q & Hq & c & [= <-] & p & Hp & Hpq). exists p. split; [by apply list_elem_of_In|].
        apply overlaps_related. unfold related. destruct (prefix_weak_total _ _ q Hpq Hq); tauto.
    + split; [|done]. intros _. destruct (change_covers_some _ (Hok _ _ Hg)) as [q Hq].
      exists q. split; [apply prefix_nil|by eexists].
  - naive_solver.
Qed.
