(* ===== verification/ChangeWalk.v ===== *)
(** * What lies between two heads

    The two walks of [diff]: where they meet, what lies above it on either
    side, and that an operation leaves alone every path it does not write. *)

From S2P Require Import Prelude BTree Text Codec Externals Keys Subkey Msg Envelope Value.
From S2P Require Import Storage Addr StateError Ledger LedgerSpec LedgerProps Chain ChainSpec.
From S2P Require Import ChainStore ChainInsert ChainCompact Change ChangeSpec.

(** ** An operation and the paths beside it *)

(** The value a path of a namespace addresses. *)
Definition read_at (ver : list (NamespaceKey * Namespace)) (key : NamespaceKey) (q : list Subkey)
    : option Value :=
  n ← bt_get ver key; walk (ns_value n) q.

(** The operation clears an array element, shifting the ones after it. *)
Definition clears_element (op : NamespaceOp) : bool :=
  match op with
  | NamespaceOp_SetAt _ path None =>
      match last (SubkeyPath_as_ref path) with Some (Subkey_Index _) => true | _ => false end
  | _ => false
  end.

Definition msg_clears_element (msg : Msg) : bool :=
  match msg_op msg with Some op => clears_element op | None => false end.

(** [f] leaves every child of a node but the last segment's alone. *)
Definition only_child (last : Subkey) (f : Value → option Value) : Prop :=
  ∀ parent parent' seg, f parent = Some parent' → seg ≠ last →
    value_step parent' seg = value_step parent seg.

Lemma walk_mut_only root root' parents last f q :
  walk_mut root parents f = Some root' → only_child last f →
  ¬ related (parents ++ [last]) q → walk root' q = walk root q.
Proof.
  intros Hm Hf Hn. destruct (walk_mut_Some _ _ _ _ Hm) as (parent & parent' & Hw & Hl & Hw').
  apply unrelated_diverge in Hn as [Hq|(seg & q' & -> & Hne)]%diverge_snoc;
    [by eapply walk_mut_diverge|].
  rewrite !walk_app, Hw, Hw'. simpl. rewrite !walk_cons. by rewrite (Hf _ _ _ Hl Hne).
Qed.

Lemma set_last_only last value :
  match value, last with None, Subkey_Index _ => False | _, _ => True end →
  only_child last (set_last last value).
Proof.
  intros Hc parent parent' seg Hs Hne. destruct value as [v|]; [by eapply set_last_other|].
  destruct parent, last; simplify_eq/=. case_match; [|done]. simplify_eq.
  destruct seg as [key'|]; simpl; [|done]. apply bt_get_remove_ne. congruence.
Qed.

Lemma append_last_only last entry : only_child last (append_last last entry).
Proof.
  intros parent parent' seg Ha Hne. destruct parent, last; simplify_option_eq.
  - destruct seg as [|j]; simpl; [done|]. apply list_lookup_insert_ne. intros ?%N2Nat.inj. congruence.
  - destruct seg as [key'|]; simpl; [|done]. apply bt_get_insert_ne. congruence.
Qed.

(** A write at [path] leaves what is unrelated to it. *)
Lemma set_at_unrelated root root' path value q :
  set_at root path value = Some root' →
  match value, last (SubkeyPath_as_ref path) with None, Some (Subkey_Index _) => False | _, _ => True end →
  ¬ related (SubkeyPath_as_ref path) q → walk root' q = walk root q.
Proof.
  destruct (SubkeyPath_split_last path) as (parents & seg & Hp).
  rewrite (set_at_snoc _ _ _ _ _ Hp), Hp, last_snoc. intros Hs Hc.
  eapply walk_mut_only; [exact Hs|]. apply set_last_only. by destruct value, seg.
Qed.

Lemma amend_at_unrelated root root' path op q :
  amend_at root path op = Some root' → ¬ related (path_segments path) q →
  walk root' q = walk root q.
Proof.
  intros Ha Hn. unfold amend_at in Ha. destruct op as [entry|inc|predicate].
  - destruct path as [path|]; [|destruct Hn; left; apply prefix_nil]. simpl in *.
    destruct (SubkeyPath_split_last path) as (parents & seg & Hp).
    rewrite Hp in *. rewrite split_last_snoc in Ha.
    eapply walk_mut_only; [exact Ha|apply append_last_only|exact Hn].
  - eapply walk_mut_diverge; [exact Ha|by apply unrelated_diverge].
  - eapply walk_mut_diverge; [exact Ha|by apply unrelated_diverge].
Qed.

Lemma op_unrelated msg op ver ver' key q :
  msg_op msg = Some op → op_apply op ver = Some ver' → clears_element op = false →
  (∀ w, (key, w) ∈ writes msg → ¬ related w q) → read_at ver' key q = read_at ver key q.
Proof.
  intros Hop Happ Hc Hn. unfold read_at.
  assert (∀ k w, (k, w) ∈ writes msg → key ≠ k ∨ ¬ related w q) as Hsplit.
  { intros k w Hin. destruct (decide (key = k)) as [<-|]; [right; by apply Hn|by left]. }
  assert (∀ k, (k, []) ∈ writes msg → key ≠ k) as Hroot.
  { intros k Hin. destruct (Hsplit k [] Hin) as [?|Hr]; [done|]. destruct Hr. left. apply prefix_nil. }
  destruct msg as [init|set|set|amend|del]; simplify_eq/=.
  - rewrite bt_get_insert_ne; [done|]. intros Heq. by apply (Hroot (sn_key set)); [left|].
  - destruct (bt_get ver (snk_key set)) as [n|] eqn:Hg; simplify_eq/=.
    destruct (set_at _ _ _) as [v|] eqn:Hs; simplify_eq/=.
    destruct (decide (snk_key set = key)) as [<-|Hne]; [|by rewrite bt_get_insert_ne].
    rewrite bt_get_insert_eq, Hg. simpl.
    destruct (Hsplit _ _ ltac:(by left)) as [?|Hr]; [done|].
    eapply set_at_unrelated; [exact Hs| |exact Hr].
    by destruct (snk_value set), (last (SubkeyPath_as_ref (snk_path set))) as [[|]|].
  - destruct (bt_get ver (ank_key amend)) as [n|] eqn:Hg; simplify_eq/=.
    destruct (amend_at _ _ _) as [v|] eqn:Hs; simplify_eq/=.
    destruct (decide (ank_key amend = key)) as [<-|Hne]; [|by rewrite bt_get_insert_ne].
    rewrite bt_get_insert_eq, Hg. simpl.
    destruct (Hsplit _ _ ltac:(by left)) as [?|Hr]; [done|].
    by eapply amend_at_unrelated.
  - case_match; simplify_eq. rewrite bt_get_remove_ne; [done|].
    intros Heq. by apply (Hroot (dn_key del)); [left|].
Qed.

(** ** The way down from a head *)

Section ways.
Variable lg : gmap EnvelopeDigest Envelope.

(** [way h l x]: reading parents from [h] takes the entries [l] and comes to [x]. *)
Inductive way : EnvelopeDigest → list (EnvelopeDigest * Envelope) → EnvelopeDigest → Prop :=
  | way_nil h : way h [] h
  | way_cons h e p l x :
      lg !! h = Some e → prev_of e = Some p → way p l x → way h ((h, e) :: l) x.

Lemma way_snoc h l d e p :
  way h l d → lg !! d = Some e → prev_of e = Some p → way h (l ++ [(d, e)]) p.
Proof using.
  induction 1 as [h|h e' p' l x He' Hp' Hw IH]; intros He Hp; simpl.
  - by eapply way_cons; [..|apply way_nil].
  - by eapply way_cons; [..|apply IH].
Qed.

Lemma way_ancestor h l x : way h l x → ancestor lg x h.
Proof using.
  induction 1 as [h|h e p l x He Hp Hw IH]; [apply rtc_refl|].
  eapply rtc_r; [exact IH|]. by exists e.
Qed.

Lemma way_elem h l x d e : way h l x → (d, e) ∈ l → lg !! d = Some e ∧ ancestor lg d h.
Proof using.
  induction 1 as [h|h e' p l x He Hp Hw IH]; [by intros ?%not_elem_of_nil|].
  intros [[= -> ->]|Hin]%elem_of_cons; [split; [done|apply rtc_refl]|].
  destruct (IH Hin) as [Hd Ha]. split; [done|]. eapply rtc_r; [exact Ha|]. by exists e'.
Qed.

(** What is above a digest the way takes or comes to. *)
Lemma way_above (rank : EnvelopeDigest → nat) (Hr : ranked rank lg) h l x m y :
  way h l x → m ∈ l.*1 ∨ m = x →
  y ∈ (take_while (λ de, bool_decide (de.1 ≠ m)) l).*1 ↔
  ancestor lg y h ∧ ancestor lg m y ∧ y ≠ m.
Proof using.
  induction 1 as [h|h e p l x He Hp Hw IH]; intros Hm; simpl.
  - destruct Hm as [Hm%not_elem_of_nil| ->]; [done|]. split; [by intros ?%not_elem_of_nil|].
    intros (Hyh & Hhy & Hne). destruct Hne. by apply (ancestor_antisym rank lg Hr).
  - assert (logged_child lg p h) as Hc by (by exists e).
    case_bool_decide as Hh; simpl.
    + assert (m ∈ l.*1 ∨ m = x) as Hm'.
      { destruct Hm as [[->|?]%elem_of_cons|?]; [by destruct Hh|by left|by right]. }
      rewrite elem_of_cons, (IH Hm'). split.
      * intros [->|(Hy & Hmy & Hne)].
        -- split_and!; [apply rtc_refl| |done]. transitivity p; [|by apply rtc_once].
           destruct Hm' as [([d e'] & -> & Hin)%list_elem_of_fmap| ->].
           ++ by eapply way_elem.
           ++ by eapply way_ancestor.
        -- split_and!; [by eapply rtc_r|done|done].
      * intros (Hy & Hmy & Hne). apply rtc_inv_r in Hy as [->|(q & Hyq & Hq)]; [by left|right].
        rewrite (logged_child_fun lg q p h Hq Hc) in Hyq. done.
    + subst m. split; [by intros ?%not_elem_of_nil|].
      intros (Hyh & Hhy & Hne). destruct Hne. by apply (ancestor_antisym rank lg Hr).
Qed.

Lemma take_while_app {A} (p : A → bool) (l l' : list A) :
  (∃ a, a ∈ l ∧ p a = false) → take_while p (l ++ l') = take_while p l.
Proof using.
  intros (a & Hin & Ha). induction l as [|b l IH]; [by apply not_elem_of_nil in Hin|]. simpl.
  destruct (p b) eqn:Hb; [|done]. f_equal. apply IH.
  apply elem_of_cons in Hin as [<-|?]; [congruence|done].
Qed.

Lemma take_while_stop {A} (p : A → bool) (l : list A) (a : A) :
  p a = false → take_while p (l ++ [a]) = take_while p l.
Proof using.
  intros Ha. induction l as [|b l IH]; simpl; [by rewrite Ha|]. by destruct (p b); [rewrite IH|].
Qed.

Lemma ne_self (d : EnvelopeDigest) : bool_decide (d ≠ d) = false.
Proof using. apply bool_decide_eq_false_2. intros Hne. by apply Hne. Qed.

(** A branch opened at [h]. *)
Record branch_ok (h : EnvelopeDigest) (b : Branch) : Prop := {
  bo_walk :
    match cursor b with
    | Cursor_At d => way h (walked b) d
    | Cursor_End (Some d) => way h (walked b) d ∧ lg !! d = None
    | Cursor_End None => ∃ l d e, walked b = l ++ [(d, e)] ∧ way h l d ∧ lg !! d = Some e ∧
        prev_of e = None
    end;
  bo_sorted : bt_sorted (reached b);
  bo_reached x : x ∈ bt_keys (reached b) ↔ x ∈ Branch_reached b;
}.

(** Every branch is a way and what it came to. *)
Lemma branch_way h b : branch_ok h b →
  ∃ l x, way h l x ∧ Branch_reached b = l.*1 ++ [x] ∧
    (∀ m, m ∈ Branch_reached b → Branch_above b m = take_while (λ de, bool_decide (de.1 ≠ m)) l).
Proof using.
  intros [Hw _ _]. unfold Branch_reached, Branch_above.
  destruct (cursor b) as [d|[d|]]; [by exists (walked b), d|by exists (walked b), d; destruct Hw|].
  destruct Hw as (l & d & e & -> & Hw & _). exists l, d. rewrite fmap_app, app_nil_r.
  split_and!; [done|done|]. intros m [Hm|Hm]%elem_of_app.
  - apply list_elem_of_fmap in Hm as ([d' e'] & -> & Hin). apply take_while_app.
    exists (d', e'). split; [done|apply ne_self].
  - apply list_elem_of_singleton in Hm as ->. apply take_while_stop, ne_self.
Qed.

Lemma branch_reached_ancestor h b x : branch_ok h b → x ∈ Branch_reached b → ancestor lg x h.
Proof using.
  intros (l & d & Hw & -> & _)%branch_way [Hx|Hx]%elem_of_app.
  - apply list_elem_of_fmap in Hx as ([d' e] & -> & Hin). by eapply way_elem.
  - apply list_elem_of_singleton in Hx as ->. by eapply way_ancestor.
Qed.

Lemma branch_above_elem (rank : EnvelopeDigest → nat) (Hr : ranked rank lg) h b m y :
  branch_ok h b → m ∈ Branch_reached b →
  y ∈ (Branch_above b m).*1 ↔ ancestor lg y h ∧ ancestor lg m y ∧ y ≠ m.
Proof using.
  intros Hb Hm. destruct (branch_way h b Hb) as (l & x & Hw & Hreach & Habove).
  rewrite (Habove m Hm). apply (way_above rank Hr h l x); [done|].
  rewrite Hreach in Hm. apply elem_of_app in Hm as [?|?%list_elem_of_singleton]; [by left|by right].
Qed.

Lemma take_while_sub {A} (p : A → bool) (l : list A) a : a ∈ take_while p l → a ∈ l.
Proof using.
  induction l as [|b l IH]; simpl; [done|]. destruct (p b); [|by intros ?%not_elem_of_nil].
  intros [->|?]%elem_of_cons; [by left|right; by apply IH].
Qed.

Lemma branch_above_logged h b m d e : branch_ok h b → (d, e) ∈ Branch_above b m → lg !! d = Some e.
Proof using.
  intros [Hw _ _] Hin%take_while_sub. destruct (cursor b) as [d'|[d'|]].
  - by eapply way_elem.
  - destruct Hw as [Hw _]. by eapply way_elem.
  - destruct Hw as (l & d' & e' & Heq & Hw & He & _). rewrite Heq in Hin.
    apply elem_of_app in Hin as [Hin|Hin]; [by eapply way_elem|].
    apply list_elem_of_singleton in Hin as [= -> ->]. done.
Qed.

Lemma way_reaches h l z x :
  way h l z → (∀ y, ¬ logged_child lg y z) → ancestor lg x h → x ∈ l.*1 ++ [z].
Proof using.
  intros Hw Hz. induction Hw as [h|h e p l z He Hp Hw IH]; intros Hx;
    apply rtc_inv_r in Hx as [->|(q & Hxq & Hq)]; simpl.
  1, 3: by left.
  { by destruct (Hz q). }
  right. apply IH; [done|]. assert (logged_child lg p h) as Hc by (by exists e).
  by rewrite (logged_child_fun lg p q h Hc Hq).
Qed.

(** A walk that has ended has reached every ancestor. *)
Lemma branch_ended h b x o :
  branch_ok h b → cursor b = Cursor_End o → ancestor lg x h → x ∈ Branch_reached b.
Proof using.
  intros [Hw _ _] Hc Hx. unfold Branch_reached. rewrite Hc in *. destruct o as [d|].
  - destruct Hw as [Hw Hn]. eapply way_reaches; [done| |done]. intros y (e & He & _). congruence.
  - destruct Hw as (l & d & e & -> & Hw & He & Hp). rewrite fmap_app, app_nil_r.
    apply (way_reaches h l d); [done| |done]. intros y (e' & He' & Hp'). congruence.
Qed.

(** ** Where two branches meet *)

Lemma find_first {A} (f : A → bool) (l : list A) (a : A) :
  find f l = Some a → ∃ l1 l2, l = l1 ++ a :: l2 ∧ f a = true ∧ ∀ x, x ∈ l1 → f x = false.
Proof using.
  induction l as [|b l IH]; simpl; [done|]. destruct (f b) eqn:Hb.
  - intros [= ->]. exists [], l. split_and!; [done|done|by intros x ?%not_elem_of_nil].
  - intros (l1 & l2 & -> & Ha & Hl1)%IH. exists (b :: l1), l2. split_and!; [done|done|].
    intros x [->|?]%elem_of_cons; [done|by apply Hl1].
Qed.

Lemma before_meet (l : list (EnvelopeDigest * Envelope)) t l1 l2 m y :
  l.*1 ++ t = l1 ++ m :: l2 → y ∈ (take_while (λ de, bool_decide (de.1 ≠ m)) l).*1 → y ∈ l1.
Proof using.
  revert l1. induction l as [|[d e] l IH]; intros l1 Heq; simpl; [by intros ?%not_elem_of_nil|].
  case_bool_decide as Hd; simpl; [|by intros ?%not_elem_of_nil].
  destruct l1 as [|d' l1]; simplify_eq/=. intros [->|Hy]%elem_of_cons; [by left|right; by eapply IH].
Qed.

(** The nearest common ancestor of two heads. *)
Record meets (a b m : EnvelopeDigest) : Prop := {
  me_left : ancestor lg m a;
  me_right : ancestor lg m b;
  me_nearest y : ancestor lg y a → ancestor lg y b → ancestor lg y m;
}.

Lemma branches_meet (rank : EnvelopeDigest → nat) (Hr : ranked rank lg) a b undone made m :
  branch_ok a undone → branch_ok b made → Branch_meet undone made = Some m →
  meets a b m ∧ m ∈ Branch_reached undone ∧ m ∈ Branch_reached made.
Proof using.
  intros Ha Hb (l1 & l2 & Heq & Hm & Hl1)%find_first.
  apply contains_key_elem in Hm; [|apply Hb]. apply (bo_reached _ _ Hb) in Hm.
  assert (m ∈ Branch_reached undone) as Hm' by (rewrite Heq; set_solver).
  split; [|done]. split; [by eapply branch_reached_ancestor..|].
  intros y Hya Hyb.
  pose proof (branch_reached_ancestor _ _ _ Ha Hm') as Hma.
  pose proof (branch_reached_ancestor _ _ _ Hb Hm) as Hmb.
  destruct (ancestor_linear lg y m a Hya Hma) as [?|Hmy]; [done|].
  destruct (decide (y = m)) as [->|Hne]; [apply rtc_refl|]. exfalso.
  assert (y ∈ (Branch_above undone m).*1) as Hyu by (by apply (branch_above_elem rank Hr a)).
  assert (y ∈ (Branch_above made m).*1) as Hym by (by apply (branch_above_elem rank Hr b)).
  assert (y ∈ l1) as Hy1.
  { destruct (branch_way _ _ Ha) as (l & x & _ & Hreach & Habove). rewrite (Habove m Hm') in Hyu.
    eapply before_meet; [|exact Hyu]. by rewrite <-Heq, Hreach. }
  assert (y ∈ Branch_reached made) as Hy2.
  { unfold Branch_above in Hym. apply list_elem_of_fmap in Hym as (de & -> & Hin%take_while_sub).
    unfold Branch_reached. apply elem_of_app. left. apply list_elem_of_fmap. by exists de. }
  specialize (Hl1 y Hy1). apply (bo_reached _ _ Hb), contains_key_elem in Hy2; [congruence|apply Hb].
Qed.

Lemma branches_apart a b undone made o o' y :
  branch_ok a undone → branch_ok b made → Branch_meet undone made = None →
  cursor undone = Cursor_End o → cursor made = Cursor_End o' →
  ancestor lg y a → ¬ ancestor lg y b.
Proof using.
  intros Ha Hb Hn Ho Ho' Hya Hyb.
  pose proof (find_none _ _ Hn y) as Hf.
  apply not_true_iff_false in Hf; [destruct Hf|by eapply list_elem_of_In, branch_ended].
  apply contains_key_elem; [apply Hb|]. apply (bo_reached _ _ Hb). by eapply branch_ended.
Qed.
End ways.

(** ** The loop of [diff] *)

Section loop.
Context `{Externals} {S E : Type} `{StorageSpec S E}.
Variables (rank : EnvelopeDigest → nat) (s : S).
Hypothesis Hs : storage_ok s.
Hypothesis Hr : ranked rank (log (view s)).

Lemma way_length h l x :
  way (log (view s)) h l x → length l + not_higher rank (log (view s)) x ≤ not_higher rank (log (view s)) h.
Proof using Hr.
  induction 1 as [h|h e p l x He Hp Hw IH]; simpl; [lia|].
  assert (rank p < rank h) as Hlt by (apply Hr; by exists e).
  pose proof (not_higher_parent rank (log (view s)) p h ltac:(by eexists) Hlt). lia.
Qed.

Lemma branch_length h b : branch_ok (log (view s)) h b → length (walked b) ≤ size (log (view s)).
Proof using Hr.
  intros [Hw _ _]. pose proof (not_higher_le rank (log (view s)) h).
  destruct (cursor b) as [d|[d|]]; [apply way_length in Hw; lia|destruct Hw as [Hw%way_length _]; lia|].
  destruct Hw as (l & d & e & -> & Hw%way_length & He & _). rewrite length_app. simpl.
  assert (0 < not_higher rank (log (view s)) d); [|lia].
  unfold not_higher. apply Nat.neq_0_lt_0, size_non_empty_iff. intros Hemp%leibniz_equiv. apply (not_elem_of_empty (C:=gset EnvelopeDigest) d). rewrite <-Hemp. apply elem_of_filter. split; [done|].
  by apply elem_of_dom_2 in He.
Qed.

Lemma opened_ok h : branch_ok (log (view s)) h (Branch_opened h).
Proof using.
  split; simpl; [apply way_nil|by repeat constructor|done].
Qed.

Lemma branch_step_cwp h b :
  branch_ok (log (view s)) h b →
  cwp (Branch_step b s)
    (λ r, branch_ok (log (view s)) h r.2 ∧ length (walked b) ≤ length (walked r.2) ∧
      if r.1 : bool then length (walked b) < length (walked r.2)
      else (∃ o, cursor r.2 = Cursor_End o) ∧ Branch_reached r.2 = Branch_reached b ∧
        reached r.2 = reached b)
    (λ e : Error E, ∃ x, e = Error_Storage x).
Proof using Hs Hr.
  intros Hb. pose proof Hb as [Hw Hsort Hreach]. unfold Branch_step, Branch_reached in *.
  destruct (cursor b) as [d|o] eqn:Hc.
  2: { simpl. split_and!; [done|done|by exists o|by rewrite Hc|done]. }
  apply cwp_bind, cwp_map_err. eapply cwp_mono; [by apply envelope_spec| |by eexists].
  intros entry ->. destruct (log (view s) !! d) as [e|] eqn:He.
  2: { simpl. split_and!; [split; [done|done|exact Hreach]|done|by eexists|done|done]. }
  destruct (Msg_prev_digest (payload e)) as [p|] eqn:Hp; simpl; rewrite length_app; simpl.
  - split_and!; [|lia|lia]. split; simpl; [by eapply way_snoc|by apply sorted_insert|].
    intros x. rewrite (set_insert_keys (reached b)), Hreach by done.
    unfold Branch_reached. simpl. rewrite fmap_app. simpl. set_solver.
  - split_and!; [|lia|by eexists|by rewrite fmap_app, app_nil_r|done]. split; simpl; [|done|].
    + by exists (walked b), d, e.
    + intros x. rewrite Hreach. unfold Branch_reached. simpl. by rewrite fmap_app, app_nil_r.
Qed.

Lemma diff_loop_cwp (fuel : nat) from to_ undone made :
  branch_ok (log (view s)) from undone → branch_ok (log (view s)) to_ made →
  2 * size (log (view s)) < fuel + length (walked undone) + length (walked made) →
  cwp (diff_loop fuel from to_ s undone made)
    (λ r, branch_ok (log (view s)) from r.1.2 ∧ branch_ok (log (view s)) to_ r.2 ∧
      Branch_meet r.1.2 r.2 = Some r.1.1)
    (λ e, (∃ x, e = Error_Storage x) ∨
      e = Error_Diverged from to_ ∧
      ∀ y, ancestor (log (view s)) y from → ¬ ancestor (log (view s)) y to_).
Proof using Hs Hr.
  revert undone made. induction fuel as [|fuel IH]; intros undone made Hu Hm Hf; simpl.
  - pose proof (branch_length _ _ Hu). pose proof (branch_length _ _ Hm). lia.
  - destruct (Branch_meet undone made) as [m|] eqn:Hmeet; [done|].
    apply cwp_bind. eapply cwp_mono; [by apply branch_step_cwp| |by left].
    intros [bu undone'] (Hu' & Hlu & Hsu). simpl in *.
    apply cwp_bind. eapply cwp_mono; [by apply (branch_step_cwp to_)| |by left].
    intros [bm made'] (Hm' & Hlm & Hsm). simpl in *.
    destruct bu, bm; simpl; try (apply IH; [done|done|lia]).
    destruct Hsu as ([o Ho] & Hru & _), Hsm as ([o' Ho'] & _ & Hrm). right. split; [done|]. intros y.
    apply (branches_apart (log (view s)) from to_ undone' made' o o'); try done.
    unfold Branch_meet in *. by rewrite Hru, Hrm.
Qed.
End loop.

(** ** The movement *)

(** On one branch and not on the other. *)
Definition between (lg : gmap EnvelopeDigest Envelope) (a b d : EnvelopeDigest) : Prop :=
  ancestor lg d a ∧ ¬ ancestor lg d b.

Lemma between_above (rank : EnvelopeDigest → nat) lg (Hr : ranked rank lg) a b m d :
  meets lg a b m → ancestor lg d a ∧ ancestor lg m d ∧ d ≠ m ↔ between lg a b d.
Proof.
  intros [Hma Hmb Hnear]. split.
  - intros (Hda & Hmd & Hne). split; [done|]. intros Hdb.
    destruct Hne. by apply (ancestor_antisym rank lg Hr); [apply Hnear|].
  - intros [Hda Hdb]. split; [done|].
    destruct (ancestor_linear lg d m a Hda Hma) as [Hdm|Hmd]; [destruct Hdb; by transitivity m|].
    split; [done|]. by intros ->.
Qed.

Lemma meets_sym lg a b m : meets lg a b m → meets lg b a m.
Proof. intros [? ? ?]. split; auto. Qed.

Lemma fold_movement (l : list (EnvelopeDigest * Envelope)) (m : Movement) :
  foldl (λ m de, MkMovement (bt_insert de.1 () (orphaned m)) (record (changes m) (payload de.2))) m l =
  MkMovement (foldl (λ ds d, bt_insert d () ds) (orphaned m) l.*1)
    (foldl record (changes m) (payload <$> l.*2)).
Proof. revert m. induction l as [|de l IH]; intros m; simpl; [by destruct m|]. by rewrite IH. Qed.

Lemma fold_insert_keys (l : list EnvelopeDigest) (ds : list (EnvelopeDigest * ())) :
  bt_sorted ds →
  bt_sorted (foldl (λ ds d, bt_insert d () ds) ds l) ∧
  ∀ d, d ∈ bt_keys (foldl (λ ds d, bt_insert d () ds) ds l) ↔ d ∈ bt_keys ds ∨ d ∈ l.
Proof.
  revert ds. induction l as [|x l IH]; intros ds Hs; simpl.
  - split; [done|]. intros d. split; [by left|intros [?|?%not_elem_of_nil]; done].
  - destruct (IH (bt_insert x () ds)) as [Hs' Hin]; [by apply sorted_insert|]. split; [done|].
    intros d. rewrite Hin, set_insert_keys, elem_of_cons by done. tauto.
Qed.

Section diff.
Context `{Externals} {S E : Type} `{StorageSpec S E}.
Variables (rank : EnvelopeDigest → nat) (s : S).
Hypothesis Hs : storage_ok s.
Hypothesis Hr : ranked rank (log (view s)).

(** What moving between two heads did. *)
Record movement_ok (from to_ : EnvelopeDigest) (mv : Movement) (msgs : list Msg) : Prop := {
  mv_meets : ∃ m, meets (log (view s)) from to_ m;
  mv_orphaned d : d ∈ bt_keys (orphaned mv) ↔ between (log (view s)) from to_ d;
  mv_changes : changes mv = changes_of msgs;
  mv_msgs msg : msg ∈ msgs ↔ ∃ d e, log (view s) !! d = Some e ∧ payload e = msg ∧
    (between (log (view s)) from to_ d ∨ between (log (view s)) to_ from d);
}.

Lemma above_between a b branch m d :
  branch_ok (log (view s)) a branch → m ∈ Branch_reached branch → meets (log (view s)) a b m →
  d ∈ (Branch_above branch m).*1 ↔ between (log (view s)) a b d.
Proof using Hr.
  intros Hb Hm Hmeets. rewrite (branch_above_elem _ rank Hr a) by done. by apply (between_above rank).
Qed.

Lemma above_msgs a b branch m msg :
  branch_ok (log (view s)) a branch → m ∈ Branch_reached branch → meets (log (view s)) a b m →
  msg ∈ payload <$> (Branch_above branch m).*2 ↔
  ∃ d e, log (view s) !! d = Some e ∧ payload e = msg ∧ between (log (view s)) a b d.
Proof using Hr.
  intros Hb Hm Hmeets. rewrite list_elem_of_fmap. split.
  - intros (e & -> & ([d e'] & -> & Hin)%list_elem_of_fmap). exists d, e'.
    split_and!; [by eapply branch_above_logged|done|].
    eapply above_between; [done|done|done|]. apply list_elem_of_fmap. by exists (d, e').
  - intros (d & e & He & <- & Hd). apply (above_between a b branch m) in Hd; [|done..].
    apply list_elem_of_fmap in Hd as ([d' e'] & -> & Hin). exists e'. split.
    + pose proof (branch_above_logged _ _ _ _ _ _ Hb Hin). simpl in *. congruence.
    + apply list_elem_of_fmap. by exists (d', e').
Qed.

Lemma diff_cwp (fuel : nat) from to_ :
  2 * size (log (view s)) < fuel →
  cwp (diff fuel (ChangeDiffer_opened_at from) s to_)
    (λ mv, ∃ msgs, movement_ok from to_ mv msgs)
    (λ e, (∃ x, e = Error_Storage x) ∨
      e = Error_Diverged from to_ ∧
      ∀ y, ancestor (log (view s)) y from → ¬ ancestor (log (view s)) y to_).
Proof using Hs Hr.
  intros Hf. unfold diff. apply cwp_bind. eapply cwp_mono.
  { apply (diff_loop_cwp rank s Hs Hr); [by apply opened_ok..|simpl; lia]. }
  2: done.
  intros [[m undone] made] (Hu & Hm & Hmeet). simpl in *.
  destruct (branches_meet _ rank Hr _ _ _ _ _ Hu Hm Hmeet) as (Hmeets & Hmu & Hmm).
  pose proof (meets_sym _ _ _ _ Hmeets) as Hmeets'.
  exists ((payload <$> (Branch_above undone m).*2) ++ (payload <$> (Branch_above made m).*2)).
  rewrite fold_movement. simpl. split; simpl.
  - by exists m.
  - intros d. rewrite (proj2 (fold_insert_keys _ [] ltac:(constructor))).
    rewrite (above_between from to_ undone m d Hu Hmu Hmeets). simpl.
    split; [intros [?%not_elem_of_nil|?]; done|by right].
  - unfold changes_of. by rewrite foldl_app, !foldl_fmap.
  - intros msg. rewrite elem_of_app, (above_msgs from to_ undone m), (above_msgs to_ from made m) by done.
    naive_solver.
Qed.
End diff.

(** ** Versions either side of a movement *)

Section versions.
Context `{Externals}.
Variables (pins : EnvelopeDigest → option Msg) (rank : EnvelopeDigest → nat).
Hypothesis Hhash : HashOk pins rank.
Variables (st : Store) (root : EnvelopeDigest).
Hypothesis Hinv : chain_inv pins root st.

(** Down a branch whose envelopes leave a path alone, the path reads the same. *)
Lemma branch_reads m h v key q :
  ancestor (log st) root m → ancestor (log st) m h → versions st !! h = Some v →
  (∀ d e, log st !! d = Some e → ancestor (log st) d h → ancestor (log st) m d → d ≠ m →
    msg_clears_element (payload e) = false ∧ ∀ w, (key, w) ∈ writes (payload e) → ¬ related w q) →
  ∃ vm, versions st !! m = Some vm ∧ read_at v key q = read_at vm key q.
Proof using Hhash Hinv.
  intros Hroot Hmh. revert v. revert h Hmh.
  apply (rtc_ind_r (λ h, ∀ v, versions st !! h = Some v → _ → _)); [by intros v Hv _; exists v|].
  intros p h Hmp Hc IH v Hv Hq.
  pose proof (inv_ranked pins rank Hhash root st Hinv) as Hr.
  pose proof (ancestor_rank rank _ Hr _ _ Hroot). pose proof (ancestor_rank rank _ Hr _ _ Hmp).
  pose proof (Hr _ _ Hc) as Hlt. pose proof Hc as (e & He & Hp).
  destruct (inv_pinned _ _ _ Hinv h e He) as [_ Hpin].
  assert (h ≠ root) as Hne by (intros ->; lia).
  destruct (inv_derived _ _ _ Hinv h _ p v Hne Hpin Hp Hv) as (w & op & Hw & Hop & Happ).
  destruct (Hq h e He) as [Hclear Hwr]; [apply rtc_refl|by eapply rtc_r|intros ->; lia|].
  destruct (IH w Hw) as (vm & Hvm & Hread).
  { intros d e' He' Hd Hmd Hdm. apply (Hq d e'); [done|by eapply rtc_r|done|done]. }
  exists vm. split; [done|]. rewrite <-Hread.
  unfold msg_clears_element in Hclear. rewrite Hop in Hclear. by eapply op_unrelated.
Qed.
End versions.
