(* ===== verification/ChainFixtures.v ===== *)
(** * A chain for the witnesses

    A genesis with two children that fork, one of them signed by a trusted key
    and so the heavier, in the in-memory backend over the crates of [Toy]. *)

From S2P Require Import Prelude BTree Text Codec Externals Keys Subkey Msg Envelope Value.
From S2P Require Import Storage Mem Addr StateError Ledger LedgerSpec Fixtures LedgerProps Chain.
From S2P Require Import ChainSpec ChainStore ChainInsert.

Definition light : Envelope := set_a genesis_d 9.
Definition heavy : Envelope := toy_sign signer (set_a genesis_d 10).

Definition light_d : EnvelopeDigest := digest_of light.
Definition heavy_d : EnvelopeDigest := digest_of heavy.

(** A child of the heavy one. *)
Definition leaf : Envelope := toy_sign signer (set_a heavy_d 11).

Definition leaf_d : EnvelopeDigest := digest_of leaf.

(** A table of messages by digest, each with its height. *)
Abbreviation PinTable := (list (EnvelopeDigest * (Msg * nat))) (only parsing).

Fixpoint pin_lookup (t : list (EnvelopeDigest * (Msg * nat))) (d : EnvelopeDigest) : option (Msg * nat) :=
  match t with
  | [] => None
  | (d', m) :: t' => if decide (d = d') then Some m else pin_lookup t' d
  end.

Definition pins_of (t : list (EnvelopeDigest * (Msg * nat))) (d : EnvelopeDigest) : option Msg :=
  fst <$> pin_lookup t d.

Definition rank_of (t : list (EnvelopeDigest * (Msg * nat))) (d : EnvelopeDigest) : nat :=
  from_option snd 0 (pin_lookup t d).

(** Every entry's [prev] is lower than it. *)
Definition table_ok (t : list (EnvelopeDigest * (Msg * nat))) : bool :=
  forallb (λ e, match Msg_prev_digest e.2.1 with
                | Some p => rank_of t p <? e.2.2
                | None => true
                end) t.

Lemma table_hash_ok t : table_ok t = true → HashOk (pins_of t) (rank_of t).
Proof.
  unfold table_ok. rewrite forallb_forall. intros Hall. split. intros d m p Hd Hp.
  unfold pins_of in Hd. destruct (pin_lookup t d) as [[m' r]|] eqn:Hl; simplify_eq/=.
  assert (In (d, (m, r)) t) as Hin.
  { clear Hall. induction t as [|[d' e] t IH]; simpl in Hl; [done|].
    case_decide; [left; congruence|right; by apply IH]. }
  specialize (Hall _ Hin). simpl in Hall. rewrite Hp in Hall. apply Nat.ltb_lt in Hall.
  unfold rank_of at 2. by rewrite Hl.
Qed.

(** The table of the sample envelopes. *)
Definition sample_table : list (EnvelopeDigest * (Msg * nat)) :=
  [(genesis_d, (payload genesis, 0)); (light_d, (payload light, 1)); (heavy_d, (payload heavy, 1));
   (leaf_d, (payload leaf, 2))].

Definition sample_pins : EnvelopeDigest → option Msg := pins_of sample_table.

Definition sample_rank : EnvelopeDigest → nat := rank_of sample_table.

Lemma sample_hash_ok : HashOk sample_pins sample_rank.
Proof. apply table_hash_ok. vm_compute. reflexivity. Qed.

(** The chain opened from the genesis. *)
Definition chain_node : MemNode := state_of (chain_init genesis) empty_node.

Definition chain_1 : Chain := MkChain genesis_d ledger_1.

Lemma pin_lookup_head d m t : pin_lookup ((d, m) :: t) d = Some m.
Proof. simpl. by rewrite decide_True. Qed.

Lemma pin_lookup_skip d d' m t : d ≠ d' → pin_lookup ((d', m) :: t) d = pin_lookup t d.
Proof. intros Hne. simpl. by rewrite decide_False. Qed.

(** Every sample envelope is in the table under its digest. *)
Ltac pinned_at :=
  match goal with
  | |- pin_lookup _ ?d = _ =>
      repeat (rewrite pin_lookup_skip; [|by_computing]); exact (pin_lookup_head _ _ _)
  end.

Lemma sample_lookup :
  pin_lookup sample_table genesis_d = Some (payload genesis, 0) ∧
  pin_lookup sample_table light_d = Some (payload light, 1) ∧
  pin_lookup sample_table heavy_d = Some (payload heavy, 1) ∧
  pin_lookup sample_table leaf_d = Some (payload leaf, 2).
Proof. unfold sample_table. repeat split; pinned_at. Qed.

Lemma pins_digest e r d :
  pin_lookup sample_table (digest_of e) = Some (payload e, r) → Envelope_digest e = Ok d →
  sample_pins d = Some (payload e).
Proof.
  intros Hl Hd. apply digest_of_ok in Hd as <-.
  unfold sample_pins, pins_of. by rewrite Hl.
Qed.

Lemma batch_pinned_nil pins : batch_pinned pins [].
Proof. by intros e d He%not_elem_of_nil. Qed.

Lemma batch_pinned_cons e r l :
  pin_lookup sample_table (digest_of e) = Some (payload e, r) → batch_pinned sample_pins l →
  batch_pinned sample_pins (e :: l).
Proof. intros He Hl e' d [->|Hin]%elem_of_cons Hd; [by eapply pins_digest|by eapply Hl]. Qed.

Lemma light_pinned : batch_pinned sample_pins [light].
Proof.
  destruct sample_lookup as (_ & Hl & _).
  exact (batch_pinned_cons light 1 [] Hl (batch_pinned_nil _)).
Qed.

Lemma heavy_pinned : batch_pinned sample_pins [heavy; leaf].
Proof.
  destruct sample_lookup as (_ & _ & Hh & Hl).
  exact (batch_pinned_cons heavy 1 _ Hh (batch_pinned_cons leaf 2 [] Hl (batch_pinned_nil _))).
Qed.

Lemma genesis_pinned d : Envelope_digest genesis = Ok d → sample_pins d = Some (payload genesis).
Proof. by apply (pins_digest _ 0), sample_lookup. Qed.

Lemma chain_1_ok : chain_ok sample_pins chain_1 chain_node ∧
  tip (log (view chain_node)) genesis_d genesis_d ∧ size (log (view chain_node)) = 1.
Proof.
  assert (is_Some (value_of (chain_init genesis) empty_node)) as Hval by by_computing.
  assert (is_Some (versions (view chain_node) !! genesis_d)) as Hheld by by_computing.
  destruct (run_ok (chain_init genesis) empty_node Hval) as (c & _ & Hrun).
  destruct (wp_Ret _ _ _ _ _ _ (chain_init_wp sample_pins toy_key_id_total genesis empty_node
    mem_ok_empty_node eq_refl eq_refl genesis_pinned) Hrun)
    as (Hok & Hhead & Htip & init & status & _ & Hv & Hl).
  assert (c = chain_1) as ->.
  { destruct c as [root [head]]. cbn [chain_root chain_head chain_ledger ledger_head] in *. subst head.
    destruct Hheld as [x Hx]. unfold chain_node in Hx. rewrite Hv in Hx. apply lookup_singleton_Some in Hx as [-> _].
    reflexivity. }
  unfold chain_node. split_and!; [exact Hok|exact Htip|]. rewrite Hl. apply map_size_singleton.
Qed.

(** The chain that learns one run and then another. *)
Definition learn (first second : list Envelope) : M (Chain * MemNode) (Error Empty_set) Insert :=
  do! insert_batch 20 first in insert_batch 20 second.

Definition learnt (first second : list Envelope) : Chain * MemNode :=
  state_of (learn first second) (chain_1, chain_node).

(** Its state, in order and at the tip. *)
Definition at_tip (cs : Chain * MemNode) : Prop :=
  chain_ok sample_pins cs.1 cs.2 ∧ chain_root cs.1 = genesis_d ∧
  is_Some (versions (view cs.2) !! chain_head cs.1) ∧
  tip (log (view cs.2)) genesis_d (chain_head cs.1) ∧ size (log (view cs.2)) ≤ 4.

Lemma learn_ok (first second : list Envelope) :
  batch_pinned sample_pins first → batch_pinned sample_pins second →
  length first + length second ≤ 3 →
  is_Some (value_of (learn first second) (chain_1, chain_node)) → at_tip (learnt first second).
Proof.
  intros Hp1 Hp2 Hlen Hval.
  destruct (run_ok (learn first second) _ Hval) as (i & _ & Hrun).
  destruct chain_1_ok as (Hok & _ & Hsize).
  assert (wp (learn first second) (chain_1, chain_node) (λ _, at_tip) (λ _ _, True)) as Hwp.
  { unfold learn. apply wp_bind.
    eapply wp_mono; [apply (insert_batch_wp sample_pins sample_rank toy_key_id_total sample_hash_ok);
      [exact Hok|exact Hp1|rewrite Hsize; lia]| |done].
    intros _ [c s] (Hok1 & Hroot1 & Hfrom1 & _). apply stored_from_size in Hfrom1.
    cbn [fst snd] in *. rewrite Hsize in Hfrom1.
    eapply wp_mono; [apply (insert_batch_wp sample_pins sample_rank toy_key_id_total sample_hash_ok);
      [exact Hok1|exact Hp2|lia]| |done].
    intros _ [c' s'] (Hok2 & Hroot2 & Hfrom2 & Hheld & Htip & _). apply stored_from_size in Hfrom2.
    cbn [fst snd] in *. rewrite Hroot1 in Hroot2, Htip.
    split; [exact Hok2|]. split; [exact Hroot2|]. split; [exact Hheld|]. split; [exact Htip|].
    cbn [fst snd]. lia. }
  exact (wp_Ret _ _ _ _ _ _ Hwp Hrun).
Qed.

(** The light child first, and the heavy one first. *)
Definition forked : Chain * MemNode := learnt [light] [heavy; leaf].
Definition forked' : Chain * MemNode := learnt [heavy; leaf] [light].

Lemma forked_ok : at_tip forked.
Proof. apply (learn_ok _ _ light_pinned heavy_pinned (le_n 3)). by_computing. Qed.

Lemma forked'_ok : at_tip forked'.
Proof. apply (learn_ok _ _ heavy_pinned light_pinned (le_n 3)). by_computing. Qed.

(** A node that has learnt one branch only. *)
Definition lit : Chain * MemNode := learnt [light] [].
Definition weighed : Chain * MemNode := learnt [heavy; leaf] [].

Lemma lit_ok : at_tip lit.
Proof. apply (learn_ok _ _ light_pinned (batch_pinned_nil _)); [simpl; lia|by_computing]. Qed.

Lemma weighed_ok : at_tip weighed.
Proof. apply (learn_ok _ _ heavy_pinned (batch_pinned_nil _)); [simpl; lia|by_computing]. Qed.

Lemma forked_same_log : log (view forked.2) = log (view forked'.2).
Proof. by_computing. Qed.

Lemma forked_head : chain_head forked.1 = leaf_d.
Proof. by_computing. Qed.

Lemma heavy_logged : logged_child (log (view forked.2)) genesis_d heavy_d.
Proof.
  assert ((log (view forked.2) !! heavy_d) ≫= prev_of = Some genesis_d) as Hp by by_computing.
  by apply bind_Some in Hp.
Qed.

Lemma light_logged : logged_child (log (view forked.2)) genesis_d light_d.
Proof.
  assert ((log (view forked.2) !! light_d) ≫= prev_of = Some genesis_d) as Hp by by_computing.
  by apply bind_Some in Hp.
Qed.

Lemma leaf_logged : logged_child (log (view forked.2)) heavy_d leaf_d.
Proof.
  assert ((log (view forked.2) !! leaf_d) ≫= prev_of = Some heavy_d) as Hp by by_computing.
  by apply bind_Some in Hp.
Qed.
