(* ===== verification/ChainProps.v ===== *)
(** * The chain's properties

    Inserting, reopening and agreeing: where the canonical head stands, what an
    insert reports, and that the head and the state there are a function of the
    log, whatever the order it was learnt in. *)

From S2P Require Import Prelude BTree Text Codec Externals Keys Subkey Msg Envelope Value.
From S2P Require Import Storage Mem Addr StateError Ledger LedgerSpec Fixtures LedgerProps Chain.
From S2P Require Import ChainSpec ChainStore ChainInsert ChainFixtures ChainCompact.

(** C1: inserting a run never panics and always ends, given fuel for the log and
    the run. When it succeeds the run is stored — new envelopes with the status
    their parent's version gives them, their own versions held — and the head
    stands at the tip of everything the log holds, where the fork choice says;
    the report is what happened to the head. When it fails, the part of the run
    before the fault is stored just so — all of it: the error is what the rules
    make of the very next envelope over what is stored ([refusal]: an [Init], a
    gap, no parent to stand on, signatures or a message the version there
    refuses), or the backend's — and the head still stands at the tip of it,
    unless the walk itself failed: then the chain is where it was, and the walk's
    reason is the backend or a winner that does not apply, which has left the
    log. *)
Theorem insert_batch_contract `{Externals} {S E : Type} `{StorageSpec S E}
    (pins : EnvelopeDigest → option Msg) (rank : EnvelopeDigest → nat)
    (Hid : ∀ k, is_Some (Key_id k)) (Hhash : HashOk pins rank)
    (fuel : nat) (batch : list Envelope) (self : Chain) (s : S) :
  chain_ok pins self s → batch_pinned pins batch →
  size (log (view s)) + length batch + 1 < fuel →
  wp (insert_batch fuel batch) (self, s)
    (λ ins cs, chain_ok pins cs.1 cs.2 ∧ chain_root cs.1 = chain_root self ∧
      stored_from (view s) batch (view cs.2) ∧
      is_Some (versions (view cs.2) !! chain_head cs.1) ∧
      tip (log (view cs.2)) (chain_root self) (chain_head cs.1) ∧
      insert_reads self cs.1 (view s) (view cs.2) batch ins)
    (λ e cs, chain_ok pins cs.1 cs.2 ∧ chain_root cs.1 = chain_root self ∧
      insert_fails self s batch e cs.1 cs.2).
Proof. intros Hok Hpins Hfuel. by apply (insert_batch_wp pins rank Hid Hhash). Qed.

Lemma gap_pinned : batch_pinned sample_pins [heavy; light].
Proof.
  destruct sample_lookup as (_ & Hl & Hh & _).
  exact (batch_pinned_cons heavy 1 _ Hh (batch_pinned_cons light 1 [] Hl (batch_pinned_nil _))).
Qed.

(** What an insert says where it is refused for a gap. *)
Definition gap_of {A} (r : Result (Error Empty_set) A) : option (EnvelopeDigest * EnvelopeDigest) :=
  match r with Err (Error_Apply (ApplyError_ChainMismatch expected found)) => Some (expected, found) | _ => None end.

(** A run that goes in whole; and one with a gap, whose first envelope stays and
    becomes the head. *)
Lemma insert_batch_contract_witness :
  wp (insert_batch 20 [heavy; leaf]) (chain_1, chain_node)
    (λ ins cs, is_Some (versions (view cs.2) !! chain_head cs.1) ∧
      stored_from (view chain_node) [heavy; leaf] (view cs.2) ∧
      insert_reads chain_1 cs.1 (view chain_node) (view cs.2) [heavy; leaf] ins)
    (λ _ _, True) ∧
  wp (insert_batch 20 [heavy; light]) (chain_1, chain_node) (λ _ _, True)
    (λ e cs, insert_fails chain_1 chain_node [heavy; light] e cs.1 cs.2) ∧
  match insert_batch 20 [heavy; light] (chain_1, chain_node) with
  | Ret (r, cs) => gap_of r = Some (heavy_d, genesis_d) ∧ chain_head cs.1 = heavy_d ∧
      is_Some (log (view cs.2) !! heavy_d) ∧ log (view cs.2) !! light_d = None
  | _ => False
  end.
Proof.
  destruct chain_1_ok as (Hok & _ & Hsize). split; [|split].
  - eapply wp_mono; [apply (insert_batch_contract sample_pins sample_rank toy_key_id_total
      sample_hash_ok 20 [heavy; leaf] chain_1 chain_node Hok heavy_pinned)| |done].
    + rewrite Hsize. cbn [length]. lia.
    + intros ins cs (_ & _ & Hfrom & Hheld & _ & Hreads). exact (conj Hheld (conj Hfrom Hreads)).
  - eapply wp_mono; [apply (insert_batch_contract sample_pins sample_rank toy_key_id_total
      sample_hash_ok 20 [heavy; light] chain_1 chain_node Hok gap_pinned)|done|].
    + rewrite Hsize. cbn [length]. lia.
    + intros e cs (_ & _ & Hfails). exact Hfails.
  - assert (match insert_batch 20 [heavy; light] (chain_1, chain_node) with
      | Ret (r, cs) => bool_decide (gap_of r = Some (heavy_d, genesis_d) ∧ chain_head cs.1 = heavy_d ∧
          is_Some (log (view cs.2) !! heavy_d) ∧ log (view cs.2) !! light_d = None)
      | _ => false
      end = true) as Hrun by (vm_compute; reflexivity).
    destruct (insert_batch 20 [heavy; light] (chain_1, chain_node)) as [[r cs]| |]; [|discriminate Hrun..].
    exact (bool_decide_eq_true_1 _ Hrun).
Defined.

(** C2: the state is a function of the log. Two nodes, on whatever backends and
    however they came by their envelopes, that hold the same log and the same
    version at the root, walk to the same head and stand on the same version
    there. *)
Theorem same_log_same_state `{Externals} {S1 E1 S2 E2 : Type}
    `{StorageSpec S1 E1} `{StorageSpec S2 E2}
    (pins : EnvelopeDigest → option Msg) (rank : EnvelopeDigest → nat)
    (Hid : ∀ k, is_Some (Key_id k)) (Hhash : HashOk pins rank)
    (fuel1 fuel2 : nat) (c1 c2 : Chain) (s1 s1' : S1) (s2 s2' : S2) (l1 l2 : Ledger) :
  chain_ok pins c1 s1 → chain_ok pins c2 s2 → chain_root c1 = chain_root c2 →
  log (view s1) = log (view s2) →
  versions (view s1) !! chain_root c1 = versions (view s2) !! chain_root c2 →
  size (log (view s1)) < fuel1 → size (log (view s2)) < fuel2 →
  canonicalize fuel1 (chain_root c1) s1 = Ret (Ok l1, s1') →
  canonicalize fuel2 (chain_root c2) s2 = Ret (Ok l2, s2') →
  l1 = l2 ∧ tip (log (view s1)) (chain_root c1) (ledger_head l1) ∧
  is_Some (versions (view s1') !! ledger_head l1) ∧
  versions (view s1') !! ledger_head l1 = versions (view s2') !! ledger_head l2.
Proof.
  intros [Hs1 Hinv1 Hroot1] [Hs2 Hinv2 Hroot2] Hroot Hlog Hver Hf1 Hf2 Hr1 Hr2.
  rewrite <-Hroot in *. set (root := chain_root c1) in *.
  pose proof (wp_Ret _ _ _ _ _ _
    (canonicalize_wp pins rank Hid Hhash root fuel1 s1 Hs1 Hinv1 Hroot1 Hf1) Hr1)
    as (_ & Hinv1' & Hlog1 & Hext1 & [v1 Hv1] & Htip1).
  pose proof (wp_Ret _ _ _ _ _ _
    (canonicalize_wp pins rank Hid Hhash root fuel2 s2 Hs2 Hinv2 Hroot2 Hf2) Hr2)
    as (_ & Hinv2' & Hlog2 & Hext2 & [v2 Hv2] & Htip2).
  assert (l1 = l2) as <-.
  { destruct l1 as [h1], l2 as [h2]. f_equal. simpl in *. rewrite <-Hlog in Htip2. by eapply tip_unique. }
  split_and!; [done|done|by eexists|]. rewrite Hv1, Hv2. f_equal.
  destruct Hroot1 as [vr Hvr].
  apply (path_version_eq pins rank Hhash (view s1') (view s2') root (ledger_head l1) v1 v2);
    try done; [|rewrite Hlog1; apply Htip1].
  rewrite (lookup_weaken _ _ _ _ Hvr Hext1). symmetry. apply (lookup_weaken _ _ _ _ (eq_trans (eq_sym Hver) Hvr) Hext2).
Qed.

Lemma same_log_same_state_witness : ∃ l s1 s2,
  canonicalize 20 genesis_d forked.2 = Ret (Ok l, s1) ∧
  canonicalize 20 genesis_d forked'.2 = Ret (Ok l, s2) ∧
  versions (view s1) !! ledger_head l = versions (view s2) !! ledger_head l.
Proof.
  destruct forked_ok as (Hok1 & Hroot1 & _ & _ & Hsize1).
  destruct forked'_ok as (Hok2 & Hroot2 & _ & _ & Hsize2).
  destruct (runs (canonicalize 20 genesis_d) forked.2) as (l1 & s1 & Hr1); [by_computing|].
  destruct (runs (canonicalize 20 genesis_d) forked'.2) as (l2 & s2 & Hr2); [by_computing|].
  pose proof (same_log_same_state sample_pins sample_rank toy_key_id_total sample_hash_ok 20 20
    forked.1 forked'.1 forked.2 s1 forked'.2 s2 l1 l2 Hok1 Hok2) as Hthm.
  rewrite Hroot1, Hroot2 in Hthm.
  assert (versions (view forked.2) !! genesis_d = versions (view forked'.2) !! genesis_d) as Hv by by_computing.
  destruct (Hthm eq_refl forked_same_log Hv ltac:(lia) ltac:(lia) Hr1 Hr2) as (Hl & _ & _ & Hveq).
  exists l1, s1, s2. rewrite <-Hl in Hr2, Hveq. exact (conj Hr1 (conj Hr2 Hveq)).
Defined.

(** A restart loses nothing. A chain reopened at its root, over a store whose
    log it already stands at the tip of, comes back as it was, and reopening
    writes nothing; only the backend can fail it. *)
Theorem reopen_restores `{Externals} {S E : Type} `{StorageSpec S E}
    (pins : EnvelopeDigest → option Msg) (rank : EnvelopeDigest → nat)
    (Hhash : HashOk pins rank) (fuel : nat) (self : Chain) (s : S) :
  chain_ok pins self s → is_Some (log (view s) !! chain_root self) →
  tip (log (view s)) (chain_root self) (chain_head self) →
  is_Some (versions (view s) !! chain_head self) → size (log (view s)) < fuel →
  wp (chain_open fuel (chain_root self)) s (λ self' s', self' = self ∧ s' = s)
    (λ e s', s' = s ∧ ∃ x, e = Error_Storage x).
Proof.
  intros [Hs Hinv Hroot] [e He] Htip Hheld Hfuel. unfold chain_open.
  assert (∀ x : E, s = s ∧ ∃ y, Error_Storage x = Error_Storage y) as Hx
    by (intros x; split; [done|by exists x]).
  apply wp_bind. eapply read_wp; [by apply envelope_spec| |done]. intros logged ->.
  apply wp_bind, wp_ask. rewrite He. simpl.
  apply wp_bind, wp_ask. eapply cwp_mono; [by apply ledger_open_cwp| |done]. intros l0 _.
  apply wp_bind. unfold canonicalize. apply wp_bind, wp_ask.
  eapply cwp_mono; [by apply ledger_open_cwp| |done]. intros l ->.
  pose proof (higher_le rank (log (view s)) (chain_root self)).
  eapply wp_mono; [apply (canonicalize_held_wp pins rank Hhash fuel s (chain_root self)
    (chain_root self) (chain_head self)); try done; lia| |done].
  intros l s' [-> ->]. apply wp_ret. split; [|done]. by destruct self as [root [head]].
Qed.

Lemma reopen_restores_witness :
  wp (chain_open 20 genesis_d) forked.2 (λ self' s', self' = forked.1 ∧ s' = forked.2) (λ _ _, True).
Proof.
  destruct forked_ok as (Hok & Hroot & Hheld & Htip & Hsize).
  assert (is_Some (log (view forked.2) !! genesis_d)) as Hlog by by_computing.
  pose proof (reopen_restores sample_pins sample_rank sample_hash_ok 20 forked.1 forked.2 Hok) as Hthm.
  rewrite Hroot in Hthm.
  eapply wp_mono; [apply (Hthm Hlog Htip Hheld); lia|intros self' s' Hend; exact Hend|done].
Defined.

(** C33: [Chain::contains] decides whether a digest lies on the path from the head
    back to the root: it always answers, unless the backend fails, and the
    answer is ancestry in the log. *)
Theorem contains_decides_ancestry `{Externals} {S E : Type} `{StorageSpec S E}
    (pins : EnvelopeDigest → option Msg) (rank : EnvelopeDigest → nat)
    (Hhash : HashOk pins rank) (fuel : nat) (self : Chain) (s : S) (d : EnvelopeDigest) :
  chain_ok pins self s → size (log (view s)) + 1 < fuel →
  cwp (contains fuel self s d) (λ b, b = true ↔ ancestor (log (view s)) d (chain_head self))
    (λ e, ∃ x, e = Error_Storage x).
Proof. intros [Hs Hinv Hroot] Hfuel. by apply (descends_cwp pins rank Hhash (chain_root self)). Qed.

Lemma contains_decides_ancestry_witness :
  cwp (contains 20 forked.1 forked.2 heavy_d)
    (λ b, b = true ↔ ancestor (log (view forked.2)) heavy_d (chain_head forked.1)) (λ _, True).
Proof.
  destruct forked_ok as (Hok & _ & _ & _ & Hsize).
  eapply cwp_mono; [apply (contains_decides_ancestry sample_pins sample_rank sample_hash_ok 20
    forked.1 forked.2 heavy_d Hok); lia|intros b Hb; exact Hb|done].
Defined.

(** C3: compacting at an envelope on the canonical path takes exactly the doomed
    entries out of the log and says how many; keeps exactly the versions on the
    path from the head to the cut; and leaves a chain in order, rooted at the
    cut, whose head has not moved and is still the tip. A cut that is not on the
    path is refused with nothing touched. Where the backend fails midway, no
    entry that was to stay is lost, and either no version is and the chain is as
    it was, or the backend failed after it had dropped them, and it is the chain
    rooted at the cut that is in order. *)
Theorem compact_contract `{Externals} {S E : Type} `{StorageSpec S E}
    (pins : EnvelopeDigest → option Msg) (rank : EnvelopeDigest → nat)
    (Hhash : HashOk pins rank) (fuel : nat) (cut : EnvelopeDigest) (self : Chain) (s : S) :
  chain_ok pins self s → is_Some (versions (view s) !! chain_head self) →
  tip (log (view s)) (chain_root self) (chain_head self) →
  (ancestor (log (view s)) cut (chain_head self) → ancestor (log (view s)) (chain_root self) cut) →
  2 * size (log (view s)) + 2 ≤ fuel →
  let before := view s in
  wp (compact fuel cut) (self, s)
    (λ n cs, chain_ok pins cs.1 cs.2 ∧ chain_root cs.1 = cut ∧ chain_head cs.1 = chain_head self ∧
      tip (log (view cs.2)) cut (chain_head self) ∧
      N.to_nat n + size (log (view cs.2)) = size (log before) ∧
      pruned (log before) (doomed (log before) cut) (log (view cs.2)) ∧
      ∀ d v, versions (view cs.2) !! d = Some v ↔ versions before !! d = Some v ∧
        ancestor (log before) cut d ∧ ancestor (log before) d (chain_head self))
    (λ e cs, cs.1 = self ∧
      ((e = Error_Diverged (chain_head self) cut ∧
          ¬ ancestor (log before) cut (chain_head self) ∧ cs.2 = s) ∨
       ((∃ x, e = Error_Storage x) ∧ log (view cs.2) ⊆ log before ∧
        (∀ x, ¬ doomed (log before) cut x → log (view cs.2) !! x = log before !! x) ∧
        ((chain_ok pins self cs.2 ∧ versions (view cs.2) = versions before) ∨
         (chain_ok pins (MkChain cut (chain_ledger self)) cs.2 ∧
          ∀ d v, versions (view cs.2) !! d = Some v ↔ versions before !! d = Some v ∧
            ancestor (log before) cut d ∧ ancestor (log before) d (chain_head self)))))).
Proof.
  intros Hok Hheld Htip Hbelow Hfuel.
  by apply (compact_wp pins rank Hhash).
Qed.

Lemma compact_contract_witness :
  wp (compact 20 heavy_d) (forked.1, forked.2)
    (λ n cs, chain_root cs.1 = heavy_d ∧ chain_head cs.1 = chain_head forked.1 ∧
      N.to_nat n + size (log (view cs.2)) = size (log (view forked.2)))
    (λ _ _, True).
Proof.
  destruct forked_ok as (Hok & Hroot & Hheld & Htip & Hsize).
  pose proof (compact_contract sample_pins sample_rank sample_hash_ok 20 heavy_d forked.1 forked.2
    Hok Hheld) as Hthm.
  rewrite Hroot in Hthm.
  eapply wp_mono; [apply (Hthm Htip)| |done].
  - intros _. apply rtc_once. exact heavy_logged.
  - lia.
  - intros n cs (_ & Hr & Hh & _ & Hn & _). exact (conj Hr (conj Hh Hn)).
Defined.

(** ** A stored branch whose versions were dropped *)

(** A genesis that asks weight, and two children of it with one each of their own. *)
Definition weighty : Envelope :=
  Envelope_new (Msg_Init (MkInitMsg (MkFullCheckpoint (bt_from_iter
    [(key_a, MkNamespace (Value_Int 5)); (key_m, MkNamespace (Value_Map [])); (key_weight, MkNamespace (Value_Int 1));
     (key_trusted, MkNamespace (Value_Map [(KeyId_to_hex signer_id, Value_Key signer)]))])))).

Definition weighty_d : EnvelopeDigest := digest_of weighty.
Definition branch_1 : Envelope := toy_sign signer (set_a weighty_d 1).
Definition branch_2 : Envelope := toy_sign signer (set_a weighty_d 2).
Definition on_branch_2 : Envelope := toy_sign signer (set_a (digest_of branch_2) 4).

(** A node that logs both children, and retains the versions of one. *)
Definition retained_one : Chain * MemNode :=
  state_of (do! insert_batch 20 [branch_1] in do! insert_batch 20 [branch_2] in compact 20 weighty_d)
    (MkChain weighty_d (MkLedger weighty_d), state_of (chain_init weighty) empty_node).

(** The digest an insert names as an unknown parent. *)
Definition unknown_parent {A} (r : Outcome (Result (Error Empty_set) A * (Chain * MemNode))) : option EnvelopeDigest :=
  match r with Ret (Err (Error_UnknownParent d), _) => Some d | _ => None end.

(** A run on the other child is refused for that child being an unknown parent,
    though it is logged, and its own parent's version is held: what is stored is
    judged again by the status it comes in with, which off the wire is [Unchecked],
    and the weight asked for is then not there. *)
Example stored_child_refused :
  chain_head retained_one.1 = digest_of branch_1 ∧ is_Some (log (view retained_one.2) !! digest_of branch_2) ∧
  is_Some (versions (view retained_one.2) !! weighty_d) ∧
  unknown_parent (insert_batch 20 [branch_2; on_branch_2] retained_one) = Some (digest_of branch_2).
Proof. by_computing. Qed.
