(* ===== verification/ForkChoice.v ===== *)
(** * Fork choice over merged logs

    The head of a log depends only on the envelopes a canonical path could run
    through: two logs that hold both of two nodes' canonical paths, and nothing
    neither of them knew, have one tip. *)

From S2P Require Import Prelude BTree Text Codec Externals Keys Subkey Msg Envelope Value.
From S2P Require Import Storage Mem Addr StateError Ledger LedgerSpec Fixtures LedgerProps Chain.
From S2P Require Import ChainSpec ChainStore ChainInsert ChainFixtures ChainCompact.

(** Every logged envelope hangs below the root, or is it. *)
Definition rooted (lg : gmap EnvelopeDigest Envelope) (root : EnvelopeDigest) : Prop :=
  ∀ d, is_Some (lg !! d) → ancestor lg root d.

(** The log holds another's canonical path. *)
Definition holds_path (lg lg0 : gmap EnvelopeDigest Envelope) (root : EnvelopeDigest) : Prop :=
  ∀ p d, rtc (winner lg0) root p → winner lg0 p d → lg !! d = lg0 !! d.

Section merge.
Variables (rank : EnvelopeDigest → nat) (root : EnvelopeDigest).
Implicit Types (lg : gmap EnvelopeDigest Envelope) (p d : EnvelopeDigest).

Lemma child_grows lg1 lg2 p d : lg1 ⊆ lg2 → logged_child lg1 p d → logged_child lg2 p d.
Proof. intros Hsub (e & He & Hp). exists e. split; [by eapply lookup_weaken|done]. Qed.

Lemma key_grows lg1 lg2 p d : lg1 ⊆ lg2 → logged_child lg1 p d → fork_key lg1 d = fork_key lg2 d.
Proof. intros Hsub (e & He & _). unfold fork_key. by rewrite He, (lookup_weaken _ _ _ _ He Hsub). Qed.

(** On a log, off it or on its canonical path. *)
Definition on_way lg0 d : Prop := ancestor lg0 root d → rtc (winner lg0) root d.

Lemma next_winner lg0 h p x :
  tip lg0 root h → rtc (winner lg0) root p → logged_child lg0 p x → ∃ b, winner lg0 p b.
Proof.
  intros [Hpath Hend] Hp Hx. revert h Hpath Hend Hx. induction Hp as [y|y z p Hw Hp IH]; intros h Hpath Hend Hx.
  - destruct Hpath as [y|y z h Hw _]; [by destruct (Hend x)|by exists z].
  - destruct Hpath as [y|y z' h Hw' Hpath]; [by destruct (Hend z (proj1 Hw))|].
    rewrite (winner_unique _ _ _ _ Hw' Hw) in Hpath. by eapply IH.
Qed.

(** A child the node knows, of an entry the merged walk reaches, hangs off the
    node's canonical path, where its own choice is no lighter. *)
Lemma reached lg0 lgU p x :
  ranked rank lgU → lg0 ⊆ lgU → rooted lg0 root → (∃ h, tip lg0 root h) →
  ancestor lgU root p → on_way lg0 p → logged_child lg0 p x →
  rtc (winner lg0) root p ∧ ∃ b, winner lg0 p b.
Proof.
  intros Hr Hsub Hrooted [h Htip] Hanc Hon Hx.
  assert (ancestor lg0 root p) as Hrp.
  { pose proof Hx as (e & He & _). pose proof (Hrooted x ltac:(by eexists)) as Hrx.
    destruct (rtc_inv_r _ _ Hrx) as [<-|(p' & Hrp & Hc')].
    - pose proof (ancestor_rank rank lgU Hr root p Hanc). pose proof (Hr p root (child_grows _ _ _ _ Hsub Hx)). lia.
    - by rewrite <-(logged_child_fun lg0 _ _ _ Hc' Hx). }
  specialize (Hon Hrp). split; [done|]. by eapply next_winner.
Qed.
End merge.

Section exchange.
Variables (rank : EnvelopeDigest → nat) (root : EnvelopeDigest).
Variables lgA lgB lgU : gmap EnvelopeDigest Envelope.
Hypothesis Hranked : ranked rank lgU.

(** What is asked of each of the two nodes. *)
Record node_log (lg0 : gmap EnvelopeDigest Envelope) : Prop := {
  node_sub : lg0 ⊆ lgU;
  node_rooted : rooted lg0 root;
  node_tip : ∃ h, tip lg0 root h;
}.
Hypothesis HA : node_log lgA.
Hypothesis HB : node_log lgB.

(** A log between the two paths and the two logs. *)
Record between (lg : gmap EnvelopeDigest Envelope) : Prop := {
  btw_sub : lg ⊆ lgU;
  btw_known d : is_Some (lg !! d) → is_Some (lgA !! d) ∨ is_Some (lgB !! d);
  btw_A : holds_path lg lgA root;
  btw_B : holds_path lg lgB root;
}.

Lemma child_within lg0 lg p d : lg0 ⊆ lgU → lg ⊆ lgU → logged_child lg p d → is_Some (lg0 !! d) → logged_child lg0 p d.
Proof using.
  intros H0 H1 (e & He & Hp) [x Hx]. exists x. split; [done|].
  pose proof (lookup_weaken _ _ _ _ He H1) as He'. pose proof (lookup_weaken _ _ _ _ Hx H0) as Hx'. congruence.
Qed.

(** What one of the two nodes makes of a step of the walk over a log between. *)
Lemma node_step lg lg0 p d :
  lg ⊆ lgU → holds_path lg lg0 root → node_log lg0 → ancestor lgU root p → on_way root lg0 p → winner lg p d →
  (is_Some (lg0 !! d) → rtc (winner lg0) root p ∧ winner lg0 p d) ∧
  (∀ x, logged_child lg0 p x → cmp (fork_key lgU x) (fork_key lgU d) ≠ Gt).
Proof using Hranked.
  intros Hsub Hpath [H0 Hrt Ht] Hanc Hon [Hc Hmax].
  assert (∀ x, logged_child lg0 p x → ∃ b, rtc (winner lg0) root p ∧ winner lg0 p b ∧
    cmp (fork_key lgU b) (fork_key lgU d) ≠ Gt) as Hbest.
  { intros x Hx. destruct (reached rank root lg0 lgU p x) as [Hrp [b Hb]]; try done. exists b.
    split; [done|]. split; [done|].
    assert (logged_child lg p b) as Hcb.
    { pose proof (Hpath p b Hrp Hb) as Heq. destruct Hb as [(e & He & Hp) _]. exists e. by rewrite Heq. }
    rewrite <-(key_grows lg lgU p b), <-(key_grows lg lgU p d) by done. by apply Hmax. }
  split.
  - intros Hd. pose proof (child_within lg0 lg p d H0 Hsub Hc Hd) as Hc0.
    destruct (Hbest d Hc0) as (b & Hrp & Hb & Hle). split; [done|].
    assert (fork_key lgU b = fork_key lgU d) as Hk.
    { apply cmp_le_antisym; [done|].
      rewrite <-(key_grows lg0 lgU p d), <-(key_grows lg0 lgU p b) by (done || apply Hb). by apply Hb. }
    by injection Hk as _ <-.
  - intros x Hx. destruct (Hbest x Hx) as (b & Hrp & Hb & Hle).
    eapply cmp_le_trans; [|exact Hle].
    rewrite <-(key_grows lg0 lgU p x), <-(key_grows lg0 lgU p b) by (done || apply Hb). by apply Hb.
Qed.

Lemma on_way_step lg lg0 p d :
  lg ⊆ lgU → node_log lg0 → ancestor lgU root p → on_way root lg0 p → logged_child lg p d →
  (is_Some (lg0 !! d) → rtc (winner lg0) root p ∧ winner lg0 p d) → on_way root lg0 d.
Proof using Hranked.
  intros Hsub [H0 _ _] Hanc Hon Hc Hstep Hrd.
  destruct (rtc_inv_r _ _ Hrd) as [<-|(p' & _ & (e & He & _))].
  - pose proof (ancestor_rank rank lgU Hranked root p Hanc). pose proof (Hranked p root (child_grows _ _ _ _ Hsub Hc)). lia.
  - destruct Hstep as [Hrp Hw]; [by eexists|]. by eapply rtc_r.
Qed.

(** A step of the walk over one such log is a step over any other. *)
Lemma merged_step lg lg' p d :
  between lg → between lg' → ancestor lgU root p → on_way root lgA p → on_way root lgB p →
  winner lg p d → winner lg' p d ∧ on_way root lgA d ∧ on_way root lgB d.
Proof using Hranked HA HB.
  intros [Hs Hk HpA HpB] [Hs' Hk' HpA' HpB'] Hanc HonA HonB Hw. pose proof Hw as [Hc _].
  destruct (node_step lg lgA p d Hs HpA HA Hanc HonA Hw) as [HwA HmaxA].
  destruct (node_step lg lgB p d Hs HpB HB Hanc HonB Hw) as [HwB HmaxB].
  split; [|split; [exact (on_way_step lg lgA p d Hs HA Hanc HonA Hc HwA)|exact (on_way_step lg lgB p d Hs HB Hanc HonB Hc HwB)]].
  assert (logged_child lg' p d) as Hc'.
  { assert (is_Some (lg' !! d)) as Hd; [|exact (child_within lg' lg p d Hs' Hs Hc Hd)].
    destruct (Hk d) as [Hd|Hd]; [destruct Hc as (e & He & _); by eexists|..].
    - destruct (HwA Hd) as [Hrp Hwd]. by rewrite (HpA' p d Hrp Hwd).
    - destruct (HwB Hd) as [Hrp Hwd]. by rewrite (HpB' p d Hrp Hwd). }
  split; [done|]. intros x Hx. rewrite (key_grows lg' lgU p x), (key_grows lg' lgU p d) by done.
  destruct (Hk' x) as [Hd|Hd]; [destruct Hx as (e & He & _); by eexists|..].
  - apply HmaxA. exact (child_within lgA lg' p x (node_sub _ HA) Hs' Hx Hd).
  - apply HmaxB. exact (child_within lgB lg' p x (node_sub _ HB) Hs' Hx Hd).
Qed.

Lemma merged_path lg lg' h :
  between lg → between lg' → rtc (winner lg) root h →
  rtc (winner lg') root h ∧ ancestor lgU root h ∧ on_way root lgA h ∧ on_way root lgB h.
Proof using Hranked HA HB.
  intros Hl Hl' Hpath. revert h Hpath.
  apply (rtc_ind_r (λ h, rtc (winner lg') root h ∧ ancestor lgU root h ∧ on_way root lgA h ∧ on_way root lgB h)).
  - split_and!; [apply rtc_refl|reflexivity|intros _; apply rtc_refl..].
  - intros p d _ Hw (Hp & Hanc & HonA & HonB).
    destruct (merged_step lg lg' p d Hl Hl' Hanc HonA HonB Hw) as (Hw' & HonA' & HonB').
    split_and!; [by eapply rtc_r| |done..].
    eapply rtc_r; [done|]. apply (child_grows lg); [apply Hl|apply Hw].
Qed.

(** One tip. *)
Lemma merged_tip lg lg' h h' : between lg → between lg' → tip lg root h → tip lg' root h' → h = h'.
Proof using Hranked HA HB.
  intros Hl Hl' [Hpath Hend] Htip'. eapply (tip_unique lg' root); [|done].
  destruct (merged_path lg lg' h Hl Hl' Hpath) as (Hp & Hanc & HonA & HonB). split; [done|].
  intros x Hx.
  assert (∀ lg0, node_log lg0 → holds_path lg lg0 root → on_way root lg0 h → is_Some (lg0 !! x) → False) as Hno.
  { intros lg0 [H0 Hrt Ht] Hhold Hon Hd.
    pose proof (child_within lg0 lg' h x H0 (btw_sub _ Hl') Hx Hd) as Hc0.
    destruct (reached rank root lg0 lgU h x) as [Hrp [b Hb]]; try done.
    pose proof (Hhold h b Hrp Hb) as Heq. destruct Hb as [(e & He & Hp') _].
    apply (Hend b). exists e. by rewrite Heq. }
  destruct (btw_known _ Hl' x) as [Hd|Hd]; [destruct Hx as (e & He & _); by eexists|..].
  - apply (Hno lgA HA); [apply Hl|done..].
  - apply (Hno lgB HB); [apply Hl|done..].
Qed.
End exchange.

(** ** Agreement *)

(** C13: two nodes agree once each holds the other's canonical path. Take two
    nodes standing at the tips of their logs, under one root, and two stores that
    hold at least both canonical paths and at most both logs — what the two have
    after pulling from one another, whatever else they passed on, whatever the
    backend. The walk from the root ends at the same head over either, and at the
    same version. *)
Theorem exchanged_paths_agree `{Externals} {S1 E1 S2 E2 : Type}
    `{StorageSpec S1 E1} `{StorageSpec S2 E2}
    (pins : EnvelopeDigest → option Msg) (rank : EnvelopeDigest → nat)
    (Hid : ∀ k, is_Some (Key_id k)) (Hhash : HashOk pins rank)
    (root : EnvelopeDigest) (lgA lgB lgU : gmap EnvelopeDigest Envelope)
    (fuel1 fuel2 : nat) (s1 s1' : S1) (s2 s2' : S2) (l1 l2 : Ledger) :
  (∀ d e, lgU !! d = Some e → pinned pins d e) → node_log root lgU lgA → node_log root lgU lgB →
  storage_ok s1 → chain_inv pins root (view s1) → between root lgA lgB lgU (log (view s1)) →
  storage_ok s2 → chain_inv pins root (view s2) → between root lgA lgB lgU (log (view s2)) →
  is_Some (versions (view s1) !! root) → versions (view s1) !! root = versions (view s2) !! root →
  size (log (view s1)) < fuel1 → size (log (view s2)) < fuel2 →
  canonicalize fuel1 root s1 = Ret (Ok l1, s1') → canonicalize fuel2 root s2 = Ret (Ok l2, s2') →
  l1 = l2 ∧ is_Some (versions (view s1') !! ledger_head l1) ∧
  versions (view s1') !! ledger_head l1 = versions (view s2') !! ledger_head l2.
Proof.
  intros HpinU HA HB Hs1 Hinv1 Hbt1 Hs2 Hinv2 Hbt2 Hroot Hver Hf1 Hf2 Hr1 Hr2.
  assert (ranked rank lgU) as Hranked.
  { intros p d (e & He & Hp). destruct (HpinU d e He) as [_ Hd]. by eapply rank_prev. }
  pose proof (wp_Ret _ _ _ _ _ _
    (canonicalize_wp pins rank Hid Hhash root fuel1 s1 Hs1 Hinv1 Hroot Hf1) Hr1)
    as (_ & Hinv1' & Hlog1 & Hext1 & [v1 Hv1] & Htip1).
  pose proof Hroot as [vr Hvr]. pose proof (eq_trans (eq_sym Hver) Hvr) as Hvr2.
  pose proof (wp_Ret _ _ _ _ _ _
    (canonicalize_wp pins rank Hid Hhash root fuel2 s2 Hs2 Hinv2 ltac:(by eexists) Hf2) Hr2)
    as (_ & Hinv2' & Hlog2 & Hext2 & [v2 Hv2] & Htip2).
  assert (l1 = l2) as <-.
  { destruct l1 as [h1], l2 as [h2]. f_equal. by apply (merged_tip rank root lgA lgB lgU Hranked HA HB _ _ _ _ Hbt1 Hbt2). }
  split_and!; [done|by eexists|]. rewrite Hv1, Hv2. f_equal.
  apply (path_version_eq pins rank Hhash (view s1') (view s2') root (ledger_head l1) v1 v2); try done.
  - by rewrite (lookup_weaken _ _ _ _ Hvr Hext1), (lookup_weaken _ _ _ _ Hvr2 Hext2).
  - rewrite Hlog1. apply Htip1.
Qed.

(** ** The fixtures *)

(** Whether going up from a digest meets the root. *)
Fixpoint climbs (n : nat) (lg : gmap EnvelopeDigest Envelope) (root d : EnvelopeDigest) : bool :=
  if decide (d = root) then true
  else
    match n with
    | 0 => false
    | S n =>
        match lg !! d ≫= prev_of with
        | Some p => climbs n lg root p
        | None => false
        end
    end.

Lemma climbs_ancestor n lg root d : climbs n lg root d = true → ancestor lg root d.
Proof.
  revert d. induction n as [|n IH]; intros d; simpl; (case_decide; [intros _; subst; reflexivity|]); [done|].
  destruct (lg !! d ≫= prev_of) as [p|] eqn:Hp; [|done]. intros Hc%IH.
  eapply rtc_r; [exact Hc|]. by apply bind_Some in Hp.
Qed.

Lemma climbs_rooted n lg root :
  forallb (λ p, climbs n lg root p.1) (map_to_list lg) = true → rooted lg root.
Proof.
  rewrite forallb_forall. intros Hall d [e He]. apply (climbs_ancestor n).
  apply (Hall (d, e)), list_elem_of_In, elem_of_map_to_list. exact He.
Qed.

Lemma between_union root (lgA lgB lg : gmap EnvelopeDigest Envelope) :
  lg = lgA ∪ lgB → lg = lgB ∪ lgA → between root lgA lgB lg lg.
Proof.
  intros HAB HBA.
  assert (lgA ⊆ lg) as HA by (rewrite HAB; apply map_union_subseteq_l).
  assert (lgB ⊆ lg) as HB by (rewrite HBA; apply map_union_subseteq_l).
  assert (∀ lg0, lg0 ⊆ lg → holds_path lg lg0 root) as Hhold.
  { intros lg0 H0 p d _ [(e & He & _) _]. rewrite He. by eapply lookup_weaken. }
  split; [reflexivity| |by apply Hhold..].
  intros d [e He]. rewrite HAB in He. apply lookup_union_Some_raw in He as [He|[_ He]]; [left|right]; by eexists.
Qed.

Lemma exchanged_paths_agree_witness : ∃ l s1 s2,
  canonicalize 20 genesis_d forked.2 = Ret (Ok l, s1) ∧
  canonicalize 20 genesis_d forked'.2 = Ret (Ok l, s2) ∧
  versions (view s1) !! ledger_head l = versions (view s2) !! ledger_head l.
Proof.
  destruct forked_ok as ([Hs1 Hinv1 Hheld1] & Hroot1 & _ & _ & Hsize1).
  destruct forked'_ok as ([Hs2 Hinv2 Hheld2] & Hroot2 & _ & _ & Hsize2).
  destruct lit_ok as (_ & _ & _ & HtipA & _). destruct weighed_ok as (_ & _ & _ & HtipB & _).
  rewrite Hroot1 in Hinv1, Hheld1. rewrite Hroot2 in Hinv2.
  assert (log (view forked.2) = log (view lit.2) ∪ log (view weighed.2)) as HAB by by_computing.
  assert (log (view forked.2) = log (view weighed.2) ∪ log (view lit.2)) as HBA by by_computing.
  pose proof (between_union genesis_d _ _ _ HAB HBA) as Hbt.
  assert (node_log genesis_d (log (view forked.2)) (log (view lit.2))) as HA.
  { split; [rewrite HAB; apply map_union_subseteq_l|apply (climbs_rooted 5); vm_compute; reflexivity|].
    exact (ex_intro _ _ HtipA). }
  assert (node_log genesis_d (log (view forked.2)) (log (view weighed.2))) as HB.
  { split; [rewrite HBA; apply map_union_subseteq_l|apply (climbs_rooted 5); vm_compute; reflexivity|].
    exact (ex_intro _ _ HtipB). }
  pose proof Hbt as Hbt2. rewrite forked_same_log in Hbt2 at 2.
  destruct (runs (canonicalize 20 genesis_d) forked.2) as (l1 & s1 & Hr1); [by_computing|].
  destruct (runs (canonicalize 20 genesis_d) forked'.2) as (l2 & s2 & Hr2); [by_computing|].
  assert (versions (view forked.2) !! genesis_d = versions (view forked'.2) !! genesis_d) as Hv by by_computing.
  destruct (exchanged_paths_agree sample_pins sample_rank toy_key_id_total sample_hash_ok genesis_d
    _ _ _ 20 20 forked.2 s1 forked'.2 s2 l1 l2 (inv_pinned _ _ _ Hinv1) HA HB Hs1 Hinv1 Hbt Hs2 Hinv2 Hbt2
    Hheld1 Hv ltac:(lia) ltac:(lia) Hr1 Hr2) as (Hl & _ & Hveq).
  exists l1, s1, s2. rewrite <-Hl in Hr2, Hveq. exact (conj Hr1 (conj Hr2 Hveq)).
Defined.
