(* ===== verification/ChangeProps.v ===== *)
(** * What a movement reports

    Change sets are exact, merging is recording both runs, the walk between two
    heads reports the symmetric difference of their branches, and a path no
    reported change touches reads the same at both heads — unless an array
    element was cleared, which shifts its later siblings unreported. *)

From S2P Require Import Prelude BTree Text Codec Externals Keys Subkey Msg Envelope Value.
From S2P Require Import Storage Mem Addr StateError Ledger LedgerSpec Fixtures LedgerProps Chain.
From S2P Require Import ChainSpec ChainStore ChainInsert ChainCompact Change ChangeSpec ChangeWalk.
From S2P Require Import ChainFixtures.

(** ** Lemmas *)

(** What a recorded run touches. *)
Lemma changes_of_touches msgs key path :
  touches (changes_of msgs) key path = true ↔
  ∃ msg w, msg ∈ msgs ∧ (key, w) ∈ writes msg ∧ related w (path_segments path).
Proof.
  rewrite touches_covered by apply changes_of_ok. setoid_rewrite changes_of_covered. split.
  - intros (q & Hq & msg & w & Hmsg & Hw & Hwq). exists msg, w. split_and!; [done..|].
    destruct (prefix_weak_total w (path_segments path) q); [done|done|by left|by right].
  - intros (msg & w & Hmsg & Hw & [Hp|Hp]).
    + exists (path_segments path). split; [done|by exists msg, w].
    + exists w. split; [done|by exists msg, w].
Qed.

(** ** Properties *)

(** A change set answers exactly: recording a run of messages, a namespace or
    a path in it is touched when, and only when, one of the messages writes at,
    above or under it; and what is recorded is in normal form. *)
Theorem recorded_changes_exact (msgs : list Msg) :
  changes_ok (foldl record ChangeSet_default msgs) ∧
  ∀ key path, touches (foldl record ChangeSet_default msgs) key path = true ↔
    ∃ msg w, msg ∈ msgs ∧ (key, w) ∈ writes msg ∧ related w (path_segments path).
Proof. split; [apply changes_of_ok|apply changes_of_touches]. Qed.

(** Folding one change set into another is recording both runs, and the order
    the runs came in does not show. *)
Theorem merge_records_both (msgs msgs' : list Msg) :
  merge (foldl record ChangeSet_default msgs) (foldl record ChangeSet_default msgs')
    = foldl record ChangeSet_default (msgs ++ msgs') ∧
  foldl record ChangeSet_default (msgs ++ msgs') = foldl record ChangeSet_default (msgs' ++ msgs).
Proof.
  split; (apply changes_ext; [try apply merge_ok; apply changes_of_ok|apply changes_of_ok|]); intros key q.
  - rewrite merge_covered by apply changes_of_ok. rewrite !changes_of_covered.
    setoid_rewrite elem_of_app. naive_solver.
  - rewrite !changes_of_covered. setoid_rewrite elem_of_app. naive_solver.
Qed.

(** C37: the movement between two heads of one chain is their symmetric difference.
    Given fuel for the log, [diff] always ends: with the orphans exactly the
    envelopes on the old branch and not on the new, and the changes exactly what
    the envelopes on one branch and not the other write; or with [Diverged], and
    then the heads have no common ancestor; or with the backend's failure. *)
Theorem movement_is_symmetric_difference `{Externals} {S E : Type} `{StorageSpec S E}
    (pins : EnvelopeDigest → option Msg) (rank : EnvelopeDigest → nat) (Hhash : HashOk pins rank)
    (fuel : nat) (self : Chain) (s : S) (from to_ : EnvelopeDigest) :
  chain_ok pins self s → 2 * size (log (view s)) < fuel →
  let lg := log (view s) in
  cwp (diff fuel (ChangeDiffer_opened_at from) s to_)
    (λ mv,
      (∀ d, d ∈ bt_keys (orphaned mv) ↔ ancestor lg d from ∧ ¬ ancestor lg d to_) ∧
      ∀ key path, touches (changes mv) key path = true ↔
        ∃ d e w, lg !! d = Some e ∧ (between lg from to_ d ∨ between lg to_ from d) ∧
          (key, w) ∈ writes (payload e) ∧ related w (path_segments path))
    (λ e, (∃ x, e = Error_Storage x) ∨
      e = Error_Diverged from to_ ∧ ∀ d, ancestor lg d from → ¬ ancestor lg d to_).
Proof.
  intros [Hs Hinv _] Hf lg. pose proof (inv_ranked pins rank Hhash _ _ Hinv) as Hr.
  eapply cwp_mono; [by apply (diff_cwp rank s Hs Hr)| |done].
  intros mv (msgs & [_ Horph Hch Hmsgs]). split; [exact Horph|]. intros key path.
  rewrite Hch, changes_of_touches. setoid_rewrite Hmsgs. split.
  - intros (msg & w & (d & e & He & <- & Hb) & Hw & Hrel). by exists d, e, w.
  - intros (d & e & w & He & Hb & Hw & Hrel). exists (payload e), w. split_and!; [|done..]. by exists d, e.
Qed.

Lemma movement_is_symmetric_difference_witness :
  cwp (diff 20 (ChangeDiffer_opened_at light_d) forked.2 leaf_d)
    (λ mv, ∀ d, d ∈ bt_keys (orphaned mv) ↔
      ancestor (log (view forked.2)) d light_d ∧ ¬ ancestor (log (view forked.2)) d leaf_d)
    (λ _, True).
Proof.
  destruct forked_ok as (Hok & _ & _ & _ & Hsize).
  eapply cwp_mono; [apply (movement_is_symmetric_difference sample_pins sample_rank sample_hash_ok 20
    forked.1 forked.2 light_d leaf_d Hok); lia|intros mv [Ho _]; exact Ho|done].
Defined.

(** C36: a reader that goes by the change set misses nothing: where [diff] reports
    a movement between two heads of a chain and a path is not touched by it, the
    path reads the same at both — provided no envelope of the movement clears an
    array element. *)
Theorem untouched_paths_read_the_same `{Externals} {S E : Type} `{StorageSpec S E}
    (pins : EnvelopeDigest → option Msg) (rank : EnvelopeDigest → nat) (Hhash : HashOk pins rank)
    (fuel : nat) (self : Chain) (s : S) (from to_ : EnvelopeDigest)
    (v v' : list (NamespaceKey * Namespace)) (mv : Movement)
    (key : NamespaceKey) (path : option SubkeyPath) :
  chain_ok pins self s → 2 * size (log (view s)) < fuel →
  ancestor (log (view s)) (chain_root self) from → ancestor (log (view s)) (chain_root self) to_ →
  versions (view s) !! from = Some v → versions (view s) !! to_ = Some v' →
  diff fuel (ChangeDiffer_opened_at from) s to_ = c_ok mv →
  touches (changes mv) key path = false →
  (∀ d e, log (view s) !! d = Some e →
    between (log (view s)) from to_ d ∨ between (log (view s)) to_ from d →
    msg_clears_element (payload e) = false) →
  read_at v' key (path_segments path) = read_at v key (path_segments path).
Proof.
  intros [Hs Hinv Hroot] Hf Hra Hrb Hv Hv' Hdiff Hun Hclear.
  pose proof (inv_ranked pins rank Hhash _ _ Hinv) as Hr.
  pose proof (diff_cwp rank s Hs Hr fuel from to_ Hf) as Hcwp. unfold cwp in Hcwp. rewrite Hdiff in Hcwp.
  destruct Hcwp as (msgs & [(m & Hmeets) _ Hch Hmsgs]). pose proof Hmeets as [Hma Hmb Hnear].
  assert (∀ d e w, log (view s) !! d = Some e →
    between (log (view s)) from to_ d ∨ between (log (view s)) to_ from d →
    (key, w) ∈ writes (payload e) → ¬ related w (path_segments path)) as Hwr.
  { intros d e w He Hb Hw Hrel. apply not_true_iff_false in Hun. apply Hun.
    rewrite Hch. apply changes_of_touches. exists (payload e), w. split_and!; [|done..].
    apply Hmsgs. by exists d, e. }
  assert (∀ h h' u, meets (log (view s)) h h' m → versions (view s) !! h = Some u →
    (∀ d, between (log (view s)) h h' d →
      between (log (view s)) from to_ d ∨ between (log (view s)) to_ from d) →
    ∃ vm, versions (view s) !! m = Some vm ∧ read_at u key (path_segments path) = read_at vm key (path_segments path))
    as Hside.
  { intros h h' u Hm Hu Hside. eapply (branch_reads pins rank Hhash); [done|by apply Hnear|apply Hm|done|].
    intros d e He Hdh Hmd Hne. assert (between (log (view s)) h h' d) as Hb%Hside
      by (by apply (between_above rank _ Hr _ _ m)).
    split; [by apply (Hclear d)|]. intros w. by apply (Hwr d). }
  destruct (Hside from to_ v Hmeets Hv) as (vm & Hvm & ->); [by left|].
  destruct (Hside to_ from v' (meets_sym _ _ _ _ Hmeets) Hv') as (vm' & Hvm' & ->); [by right|]. congruence.
Qed.

Lemma untouched_paths_read_the_same_witness : ∃ v v',
  versions (view forked.2) !! light_d = Some v ∧ versions (view forked.2) !! leaf_d = Some v' ∧
  read_at v' key_m [] = read_at v key_m [].
Proof.
  destruct forked_ok as (Hok & Hroot & _ & _ & Hsize).
  assert (is_Some (versions (view forked.2) !! light_d)) as [v Hv] by by_computing.
  assert (is_Some (versions (view forked.2) !! leaf_d)) as [v' Hv'] by by_computing.
  assert ((λ mv, touches (changes mv) key_m None) <$>
    c_value (diff 20 (ChangeDiffer_opened_at light_d) forked.2 leaf_d) = Some false) as Hrun by by_computing.
  assert (map_Forall (λ _ e, msg_clears_element (payload e) = false) (log (view forked.2))) as Hclear
    by by_computing.
  destruct (diff 20 (ChangeDiffer_opened_at light_d) forked.2 leaf_d) as [[mv|]| |] eqn:Hdiff; try discriminate Hrun.
  injection Hrun as Hun. exists v, v'. split; [exact Hv|]. split; [exact Hv'|].
  eapply (untouched_paths_read_the_same sample_pins sample_rank sample_hash_ok 20 forked.1 forked.2
    light_d leaf_d v v' mv key_m None Hok); [lia|rewrite Hroot..|exact Hv|exact Hv'|exact Hdiff|exact Hun|].
  - apply rtc_once. exact light_logged.
  - eapply rtc_l; [exact heavy_logged|]. apply rtc_once. exact leaf_logged.
  - intros d e He _. exact (Hclear d e He).
Defined.

(** C40: a change set is not the over-approximation it says it is. Whatever the
    version and wherever in it an array lies, a message that clears one of its
    elements applies, every later element moves down by one, and the change set
    recorded for the message touches no later index: what the index [j] addresses
    goes from the element at [j] to the one after it, or from the last element to
    nothing, and a reader going by the change set is not told. *)
Theorem cleared_element_goes_unreported (ver : list (NamespaceKey * Namespace)) (prev : EnvelopeDigest)
    (key : NamespaceKey) (parents : list Subkey) (items : list Value) (i j : N) (cleared later : SubkeyPath) :
  read_at ver key parents = Some (Value_Array items) →
  (i < j)%N → N.to_nat j < length items →
  SubkeyPath_as_ref cleared = parents ++ [Subkey_Index i] → SubkeyPath_as_ref later = parents ++ [Subkey_Index j] →
  let msg := Msg_SetNamespaceKey (MkSetNamespaceKey prev key cleared None) in
  ∃ op ver', msg_op msg = Some op ∧ op_apply op ver = Some ver' ∧
    touches (record ChangeSet_default msg) key (Some later) = false ∧
    read_at ver key (SubkeyPath_as_ref later) = items !! N.to_nat j ∧
    read_at ver' key (SubkeyPath_as_ref later) = items !! S (N.to_nat j).
Proof.
  intros Hread Hij Hj Hcleared Hlater msg. unfold read_at in Hread.
  destruct (bt_get ver key) as [n|] eqn:Hn; [|done]. simpl in Hread.
  assert (set_last (Subkey_Index i) None (Value_Array items) = Some (Value_Array (delete (N.to_nat i) items))) as Hset.
  { simpl. unfold vec_remove. by rewrite decide_True by lia. }
  destruct (walk_mut_total (ns_value n) parents (set_last (Subkey_Index i) None) (Value_Array items)) as [root' Hroot];
    [done|by eexists|].
  destruct (walk_mut_Some _ _ _ _ Hroot) as (v & v' & Hv & Hv' & Hw').
  assert (v = Value_Array items) as -> by congruence. rewrite Hset in Hv'. injection Hv' as <-.
  exists (NamespaceOp_SetAt key cleared None), (bt_insert key (MkNamespace root') ver). split; [done|].
  assert (∀ l, walk (Value_Array l) [Subkey_Index j] = l !! N.to_nat j) as Hstep.
  { intros l. rewrite walk_cons. simpl. by destruct (l !! N.to_nat j). }
  split_and!.
  - simpl. rewrite Hn. simpl. by rewrite (set_at_snoc _ _ _ _ _ Hcleared), Hroot.
  - apply not_true_iff_false. change (record ChangeSet_default msg) with (changes_of [msg]).
    intros (m & w & ->%list_elem_of_singleton & [= ->]%list_elem_of_singleton & Hrel)%changes_of_touches.
    unfold related in Hrel. cbn [path_segments] in Hrel. rewrite Hcleared, Hlater in Hrel.
    destruct Hrel as [Hp|Hp]; apply prefix_app_inv, prefix_cons_inv_1 in Hp; injection Hp; lia.
  - rewrite Hlater. unfold read_at. rewrite Hn. simpl. by rewrite walk_app, Hread; simpl; rewrite Hstep.
  - rewrite Hlater. unfold read_at. rewrite bt_get_insert_eq. simpl. rewrite walk_app, Hw'. simpl.
    rewrite Hstep, list_lookup_delete_ge by lia. done.
Qed.

(** The middle one of three elements, two levels down. *)
Lemma cleared_element_goes_unreported_witness :
  let items := [Value_Int 1; Value_Int 2; Value_Int 3] in
  let ver := [(key_a, MkNamespace (Value_Map [(str "l", Value_Array items)]))] in
  let msg := Msg_SetNamespaceKey (MkSetNamespaceKey genesis_d key_a (mk_path [Subkey_Key (str "l"); Subkey_Index 0]) None) in
  let later := mk_path [Subkey_Key (str "l"); Subkey_Index 1] in
  ∃ op ver', msg_op msg = Some op ∧ op_apply op ver = Some ver' ∧
    touches (record ChangeSet_default msg) key_a (Some later) = false ∧
    read_at ver key_a (SubkeyPath_as_ref later) = Some (Value_Int 2) ∧
    read_at ver' key_a (SubkeyPath_as_ref later) = Some (Value_Int 3).
Proof.
  intros items ver msg later.
  exact (cleared_element_goes_unreported ver genesis_d key_a [Subkey_Key (str "l")] items 0 1
    (mk_path [Subkey_Key (str "l"); Subkey_Index 0]) later ltac:(vm_compute; reflexivity) ltac:(lia) ltac:(simpl; lia)
    ltac:(vm_compute; reflexivity) ltac:(vm_compute; reflexivity)).
Defined.
