(* ===== verification/Subscribe.v ===== *)
(** * Subscriptions: [crates/lotusd/src/subscribe.rs]

    The registry an insert publishes to. The arena is a finite map under
    indices that are never reused; a subscription's shared half (filter, pending
    notification) and its wake channel, of capacity one, are one [Subscriber].
    [next] awaits, so it is given as the two moves between its awaits. *)

From S2P Require Import Prelude BTree Text Codec Externals Keys Subkey Msg Envelope Value.
From S2P Require Import Storage Change.

(** One thing a subscriber wants to hear about. *)
Inductive ChangeSelector : Type :=
  | ChangeSelector_Head
  | ChangeSelector_Namespace (key : NamespaceKey)
  | ChangeSelector_Path (key : NamespaceKey) (path : SubkeyPath)
  | ChangeSelector_Orphaned (digest : EnvelopeDigest).

(** Whether a movement selects this. *)
Definition selects (self : ChangeSelector) (movement : Movement) : bool :=
  match self with
  | ChangeSelector_Head => true
  | ChangeSelector_Namespace key => touches (changes movement) key None
  | ChangeSelector_Path key path => touches (changes movement) key (Some path)
  | ChangeSelector_Orphaned digest => bt_contains_key (orphaned movement) digest
  end.

(** What one subscription watches. *)
Record ChangeFilter := MkChangeFilter { first : ChangeSelector; rest : list ChangeSelector }.

Module ChangeFilter.

Definition of_selector (selector : ChangeSelector) : ChangeFilter := MkChangeFilter selector [].

Definition and (self : ChangeFilter) (selector : ChangeSelector) : ChangeFilter :=
  MkChangeFilter (first self) (rest self ++ [selector]).

Definition head : ChangeFilter := of_selector ChangeSelector_Head.

Definition namespace (key : NamespaceKey) : ChangeFilter := of_selector (ChangeSelector_Namespace key).

Definition path (key : NamespaceKey) (path : SubkeyPath) : ChangeFilter :=
  of_selector (ChangeSelector_Path key path).

Definition orphaned (digest : EnvelopeDigest) : ChangeFilter :=
  of_selector (ChangeSelector_Orphaned digest).

Definition and_namespace (self : ChangeFilter) (key : NamespaceKey) : ChangeFilter :=
  and self (ChangeSelector_Namespace key).

Definition and_path (self : ChangeFilter) (key : NamespaceKey) (path : SubkeyPath) : ChangeFilter :=
  and self (ChangeSelector_Path key path).

Definition and_orphaned (self : ChangeFilter) (digest : EnvelopeDigest) : ChangeFilter :=
  and self (ChangeSelector_Orphaned digest).

(** Every selector this filter watches. *)
Definition selectors (self : ChangeFilter) : list ChangeSelector := first self :: rest self.

(** The selectors a movement matched. *)
Definition matched (self : ChangeFilter) (movement : Movement) : list ChangeSelector :=
  base.filter (λ s, Is_true (selects s movement)) (selectors self).

(** Whether any selector matched. *)
Definition matches (self : ChangeFilter) (movement : Movement) : bool :=
  existsb (λ s, selects s movement) (selectors self).
End ChangeFilter.

(** What a subscriber is woken with. *)
Record ChangeNotification := MkChangeNotification {
  cn_from : EnvelopeDigest;
  cn_head : EnvelopeDigest;
  cn_movement : Movement;
}.

(** A subscription as publisher and handle share it: [wake] is the channel
    holding its one wake, [publisher] whether the sending end is still there. *)
Record Subscriber := MkSubscriber {
  sub_filter : ChangeFilter;
  pending : option ChangeNotification;
  wake : bool;
  publisher : bool;
}.

(** Every registered subscription, and the next index of the arena. *)
Record Subscriptions := MkSubscriptions {
  subscribers : gmap nat Subscriber;
  next_index : nat;
}.

Definition Subscriptions_default : Subscriptions := MkSubscriptions ∅ 0.

(** The handle's own part. *)
Record SubscriptionHandle := MkSubscriptionHandle { handle_id : nat; opened_at : EnvelopeDigest }.

(** Registers a filter, standing at the head [opened_at]. *)
Definition register (self : Subscriptions) (filter : ChangeFilter) (opened_at : EnvelopeDigest)
    : SubscriptionHandle * Subscriptions :=
  (MkSubscriptionHandle (next_index self) opened_at,
   MkSubscriptions
     (<[next_index self := MkSubscriber filter None false true]> (subscribers self))
     (next_index self + 1)).

(** What [push] does in its turn under the lock of what is pending. *)
Definition merge_pending (self : Subscriber) (from head : EnvelopeDigest) (movement : Movement) : Subscriber :=
  let merged :=
    match pending self with
    | Some accumulated =>
        MkChangeNotification (cn_from accumulated) head
          (Movement_merge (cn_movement accumulated) movement)
    | None => MkChangeNotification from head movement
    end in
  MkSubscriber (sub_filter self) (Some merged) (wake self) (publisher self).

(** [self.wake.try_send(())], its result dropped: a full channel holds a wake. *)
Definition try_wake (self : Subscriber) : Subscriber :=
  MkSubscriber (sub_filter self) (pending self) true (publisher self).

(** The shared accesses of a [push], in its order. The lock of what is pending is
    released before the wake is sent, so a reader may run in between. *)
Inductive PushStep : Type :=
  | PushStep_Merge (from head : EnvelopeDigest) (movement : Movement)
  | PushStep_Wake.

Definition push_step (self : Subscriber) (step : PushStep) : Subscriber :=
  match step with
  | PushStep_Merge from head movement => merge_pending self from head movement
  | PushStep_Wake => try_wake self
  end.

Definition push_steps (from head : EnvelopeDigest) (movement : Movement) : list PushStep :=
  [PushStep_Merge from head movement; PushStep_Wake].

(** Merges a movement into what is pending, and wakes the subscriber: all of its
    steps, no reader in between. *)
Definition push (self : Subscriber) (from head : EnvelopeDigest) (movement : Movement) : Subscriber :=
  foldl push_step self (push_steps from head movement).

(** Wakes every subscription whose filter selects the movement. *)
Definition publish (self : Subscriptions) (from head : EnvelopeDigest) (movement : Movement)
    : Subscriptions :=
  MkSubscriptions
    ((λ subscriber,
        if ChangeFilter.matches (sub_filter subscriber) movement
        then push subscriber from head movement else subscriber) <$> subscribers self)
    (next_index self).

(** How many subscriptions are registered. *)
Definition count (self : Subscriptions) : nat := size (subscribers self).

(** Dropping a handle deregisters it. *)
Definition drop_handle (self : Subscriptions) (handle : SubscriptionHandle) : Subscriptions :=
  MkSubscriptions (delete (handle_id handle) (subscribers self)) (next_index self).

(** [SubscriptionInner::take]. *)
Definition take_pending (self : Subscriber) : option ChangeNotification * Subscriber :=
  (pending self, MkSubscriber (sub_filter self) None (wake self) (publisher self)).

(** [self.wake.recv()], polled: the wake is taken, or the channel is closed, or
    there is nothing yet. *)
Inductive Recv : Type :=
  | Recv_Wake
  | Recv_Closed
  | Recv_Pending.

Definition recv (self : Subscriber) : Recv * Subscriber :=
  if wake self
  then (Recv_Wake, MkSubscriber (sub_filter self) (pending self) false (publisher self))
  else if publisher self then (Recv_Pending, self) else (Recv_Closed, self).

(** ** A subscription beside its publisher *)

(** Where a reader stands in [next]'s loop: about to look at what is pending,
    at the [recv] of the wake, or returned [None]. *)
Inductive Reader : Type :=
  | Looking
  | Waiting
  | Over.

(** A movement of the head, as it is published. *)
Abbreviation Published := (EnvelopeDigest * EnvelopeDigest * Movement)%type (only parsing).

(** A subscriber and its reader, what the publisher's [push] under way has still to
    do, and what has been published and delivered. *)
Record Watch := MkWatch {
  w_sub : Subscriber;
  w_reader : Reader;
  w_pushing : list PushStep;
  w_published : list (EnvelopeDigest * EnvelopeDigest * Movement);
  w_delivered : list ChangeNotification;
}.

(** The publisher and the reader interleave at every access of what they share. A
    publisher is at one [push] at a time, and is not dropped within one: it is the
    core that publishes. *)
Inductive watch_step : Watch → Watch → Prop :=
  | watch_publish sub r ps ds from head m :
      publisher sub = true →
      watch_step (MkWatch sub r [] ps ds)
        (MkWatch sub r (if ChangeFilter.matches (sub_filter sub) m then push_steps from head m else [])
          (ps ++ [(from, head, m)]) ds)
  | watch_push sub r step rest ps ds :
      watch_step (MkWatch sub r (step :: rest) ps ds) (MkWatch (push_step sub step) r rest ps ds)
  | watch_look sub todo ps ds n sub' :
      take_pending sub = (Some n, sub') →
      watch_step (MkWatch sub Looking todo ps ds) (MkWatch sub' Looking todo ps (ds ++ [n]))
  | watch_look_none sub todo ps ds sub' :
      take_pending sub = (None, sub') →
      watch_step (MkWatch sub Looking todo ps ds) (MkWatch sub' Waiting todo ps ds)
  | watch_wake sub todo ps ds sub' :
      recv sub = (Recv_Wake, sub') →
      watch_step (MkWatch sub Waiting todo ps ds) (MkWatch sub' Looking todo ps ds)
  | watch_closed sub todo ps ds sub' :
      recv sub = (Recv_Closed, sub') →
      watch_step (MkWatch sub Waiting todo ps ds) (MkWatch sub' Over todo ps ds)
  (* A cancelled [next] starts over. *)
  | watch_cancel sub todo ps ds :
      watch_step (MkWatch sub Waiting todo ps ds) (MkWatch sub Looking todo ps ds)
  (* The core goes away, and the sending end with it. *)
  | watch_close sub r ps ds :
      watch_step (MkWatch sub r [] ps ds)
        (MkWatch (MkSubscriber (sub_filter sub) (pending sub) (wake sub) false) r [] ps ds).

Definition watch_start (filter : ChangeFilter) : Watch :=
  MkWatch (MkSubscriber filter None false true) Looking [] [] [].

(** ** What a subscriber is told *)

(** One notification for a run of movements, oldest first. *)
Definition merge_one (acc : option ChangeNotification) (p : EnvelopeDigest * EnvelopeDigest * Movement)
    : option ChangeNotification :=
  let '(from, head, m) := p in
  Some match acc with
       | Some n => MkChangeNotification (cn_from n) head (Movement_merge (cn_movement n) m)
       | None => MkChangeNotification from head m
       end.

Definition notify (run : list (EnvelopeDigest * EnvelopeDigest * Movement)) : option ChangeNotification :=
  foldl merge_one None run.

(** The movements a filter matches. *)
Definition matching (filter : ChangeFilter) (ps : list (EnvelopeDigest * EnvelopeDigest * Movement))
    : list (EnvelopeDigest * EnvelopeDigest * Movement) :=
  base.filter (λ p, Is_true (ChangeFilter.matches filter p.2)) ps.

(** The movements a push under way has still to merge. *)
Definition unmerged (todo : list PushStep) : list (EnvelopeDigest * EnvelopeDigest * Movement) :=
  omap (λ step, match step with PushStep_Merge from head m => Some (from, head, m) | PushStep_Wake => None end) todo.

(** What was delivered is the matched movements, run by run; the rest of them is
    pending, or about to be; a reader at the wake of an unwoken channel has nothing
    pending but what a push under way is about to wake it for, and one that has
    returned [None] has lost nothing. *)
Record watch_inv (filter : ChangeFilter) (w : Watch) : Prop := {
  watch_filter : sub_filter (w_sub w) = filter;
  watch_runs : ∃ runs run,
    matching filter (w_published w) = concat runs ++ run ++ unmerged (w_pushing w) ∧
    Some <$> w_delivered w = notify <$> runs ∧ pending (w_sub w) = notify run;
  watch_pushing : w_pushing w = [] ∨ (publisher (w_sub w) = true ∧ ∃ from head m, w_pushing w `suffix_of` push_steps from head m);
  watch_awake : w_reader w = Waiting → is_Some (pending (w_sub w)) → wake (w_sub w) = true ∨ PushStep_Wake ∈ w_pushing w;
  watch_over : w_reader w = Over → pending (w_sub w) = None ∧ publisher (w_sub w) = false;
}.

(** ** Lemmas *)

Lemma notify_snoc run p : notify (run ++ [p]) = merge_one (notify run) p.
Proof. unfold notify. by rewrite foldl_app. Qed.

Lemma notify_None run : notify run = None ↔ run = [].
Proof.
  split; [|by intros ->]. destruct run as [|p run _] using rev_ind; [done|].
  rewrite notify_snoc. by destruct p as [[]].
Qed.

Lemma matching_snoc filter ps p :
  matching filter (ps ++ [p]) =
  matching filter ps ++ (if ChangeFilter.matches filter p.2 then [p] else []).
Proof.
  unfold matching. rewrite filter_app, filter_cons, filter_nil. f_equal.
  case_decide as Hd; by destruct (ChangeFilter.matches filter p.2).
Qed.

(** Where a push under way stands. *)
Lemma push_stands todo from head m :
  todo `suffix_of` push_steps from head m → todo = push_steps from head m ∨ todo = [PushStep_Wake] ∨ todo = [].
Proof.
  unfold push_steps. intros [[|a [|b [|c k]]] Hk]; simpl in Hk; simplify_eq; auto.
Qed.

Lemma watch_push_inv filter sub r step rest ps ds :
  watch_inv filter (MkWatch sub r (step :: rest) ps ds) → watch_inv filter (MkWatch (push_step sub step) r rest ps ds).
Proof.
  intros [Hf (runs & run & Hm & Hd & Hp) [?|[Hpub (from & head & m & Hsuf)]] Ha Ho]; simpl in *; [done|].
  assert (r ≠ Over) as Hr by (intros Hr; destruct (Ho Hr); congruence).
  apply push_stands in Hsuf as [[= -> ->]|[[= -> ->]|?]]; [| |done]; (split; [done| | | |done]); simpl in *.
  - exists runs, (run ++ [(from, head, m)]). rewrite Hm, <-app_assoc. split_and!; [done|done|].
    rewrite notify_snoc, <-Hp. by destruct (pending sub).
  - right. split; [done|]. exists from, head, m. by exists [PushStep_Merge from head m].
  - intros _ _. right. by left.
  - by exists runs, run.
  - by left.
  - intros _ _. by left.
Qed.

Lemma watch_step_inv filter w w' : watch_inv filter w → watch_step w w' → watch_inv filter w'.
Proof.
  intros Hinv Hstep.
  destruct Hstep as [sub r ps ds from head m Hpub|sub r step rest ps ds|sub todo ps ds n sub' Ht|sub todo ps ds sub' Ht|
    sub todo ps ds sub' Hr|sub todo ps ds sub' Hr|sub todo ps ds|sub r ps ds]; [|by apply watch_push_inv|..];
    destruct Hinv as [Hf (runs & run & Hm & Hd & Hp) Hpush Ha Ho]; simpl in *.
  - rewrite Hf. pose proof (matching_snoc filter ps (from, head, m)) as Hs. rewrite app_nil_r in Hm. simpl in Hs.
    destruct (ChangeFilter.matches filter m); (split; simpl; [done| | | |done]).
    + exists runs, run. by rewrite Hs, Hm, <-app_assoc.
    + right. split; [done|]. by exists from, head, m.
    + intros _ _. right. by right; left.
    + exists runs, run. by rewrite Hs, Hm, !app_nil_r.
    + by left.
    + done.
  - unfold take_pending in Ht. simplify_eq/=. split; simpl; [done| |done|done|done].
    exists (runs ++ [run]), []. rewrite concat_app, <-app_assoc. simpl. rewrite app_nil_r.
    split_and!; [done| |done]. rewrite !fmap_app, Hd. simpl. congruence.
  - unfold take_pending in Ht. simplify_eq/=. split; simpl; [done| |done|by intros _ []|done].
    exists runs, run. rewrite <-Hp. split_and!; congruence.
  - unfold recv in Hr. destruct (wake sub), (publisher sub) eqn:Hpub; simplify_eq/=;
      (split; simpl; [done|by exists runs, run|done|done|done]).
  - unfold recv in Hr. destruct (wake sub) eqn:Hw, (publisher sub) eqn:Hpub; simplify_eq/=.
    destruct Hpush as [->|[? _]]; [|congruence].
    split; simpl; [done|by exists runs, run|by left|done|]. intros _. split; [|done].
    destruct (pending sub') eqn:Hs; [|done].
    destruct (Ha eq_refl ltac:(by eexists)) as [?|?%not_elem_of_nil]; [congruence|done].
  - split; simpl; [done|by exists runs, run|done|done|done].
  - split; simpl; [done|by exists runs, run|by left|done|]. intros Hr. by destruct (Ho Hr).
Qed.

Lemma watch_reachable_inv filter w : rtc watch_step (watch_start filter) w → watch_inv filter w.
Proof.
  intros Hw. assert (watch_inv filter (watch_start filter)) as H0.
  { split; simpl; [done| |by left|by intros _ []|done]. by exists [], []. }
  revert H0. induction Hw as [|x y z Hxy _ IH]; [done|]. intros Hx. by apply IH, (watch_step_inv _ x).
Qed.
