(* ===== verification/SubscribeProps.v ===== *)
(** * What subscribers can rely on *)

From S2P Require Import Prelude BTree Text Codec Externals Keys Subkey Msg Envelope Value.
From S2P Require Import Storage Mem Addr StateError Ledger LedgerSpec Fixtures.
From S2P Require Import Change ChangeSpec Subscribe.

(** A movement as [diff] makes them: sets in order, changes in normal form. *)
Definition movement_wf (m : Movement) : Prop := bt_sorted (orphaned m) ∧ changes_ok (changes m).

Lemma insert_all_keys (l s : list EnvelopeDigest) (acc : list (EnvelopeDigest * ())) :
  bt_sorted acc → let r := foldl (λ s d, bt_insert d () s) acc l in
  bt_sorted r ∧ ∀ x, x ∈ bt_keys r ↔ x ∈ bt_keys acc ∨ x ∈ l.
Proof.
  revert acc. induction l as [|d l IH]; intros acc Hs; simpl.
  - split; [done|]. intros x. split; [by left|by intros [?|?%not_elem_of_nil]].
  - destruct (IH (bt_insert d () acc)) as [Hr Hk]; [by apply sorted_insert|]. split; [done|].
    intros x. rewrite Hk, set_insert_keys by done. rewrite elem_of_cons. tauto.
Qed.

Lemma merge_movement_wf m m' :
  movement_wf m → movement_wf m' → movement_wf (Movement_merge m m').
Proof.
  intros [Hs Hc] [Hs' Hc']. split; simpl; [by apply (insert_all_keys _ [])|by apply merge_ok].
Qed.

Lemma merge_touches_either cs cs' key path :
  changes_ok cs → changes_ok cs' →
  touches (merge cs cs') key path = touches cs key path || touches cs' key path.
Proof.
  intros Hc Hc'. apply eq_true_iff_eq. rewrite orb_true_iff.
  rewrite !touches_covered by (try apply merge_ok; done).
  setoid_rewrite merge_covered; [|done..]. naive_solver.
Qed.

Lemma merge_selects s m m' :
  movement_wf m → movement_wf m' → selects s (Movement_merge m m') = selects s m || selects s m'.
Proof.
  intros [Hs Hc] [Hs' Hc']. destruct s as [|key|key path|d]; simpl; [done|by apply merge_touches_either..|].
  destruct (insert_all_keys (bt_keys (orphaned m')) [] (orphaned m) Hs) as [Hr Hk].
  apply eq_true_iff_eq. by rewrite orb_true_iff, !contains_key_elem, Hk.
Qed.

Lemma notify_selects run n :
  Forall (λ p, movement_wf p.2) run → notify run = Some n →
  movement_wf (cn_movement n) ∧
  ∀ s, selects s (cn_movement n) = true ↔ ∃ p, p ∈ run ∧ selects s p.2 = true.
Proof.
  revert n. induction run as [|[[from head] m] run IH] using rev_ind; intros n; [done|].
  rewrite Forall_app, Forall_singleton, notify_snoc. intros [Hrun Hm] [= <-]. simpl in Hm.
  destruct (notify run) as [n|] eqn:Hn; simpl.
  - destruct (IH n Hrun eq_refl) as [Hok Hs]. split; [by apply merge_movement_wf|]. intros s.
    rewrite merge_selects, orb_true_iff, Hs by done.
    setoid_rewrite elem_of_app. setoid_rewrite list_elem_of_singleton. naive_solver.
  - apply notify_None in Hn as ->. split; [done|]. intros s. simpl.
    setoid_rewrite list_elem_of_singleton. naive_solver.
Qed.

(** A watch whose reader took a movement between its merge and its wake, slept, was
    woken for nothing, and sleeps again. *)
Definition told_early : Watch :=
  let m := Movement_default in
  MkWatch (MkSubscriber ChangeFilter.head None false true) Waiting []
    [(genesis_d, genesis_d, m)] [MkChangeNotification genesis_d genesis_d m].

Lemma told_early_reached : rtc watch_step (watch_start ChangeFilter.head) told_early.
Proof.
  eapply rtc_l; [apply (watch_publish _ _ _ _ genesis_d genesis_d Movement_default); reflexivity|].
  eapply rtc_l; [apply watch_push|].
  eapply rtc_l; [eapply watch_look; reflexivity|].
  eapply rtc_l; [eapply watch_look_none; reflexivity|].
  eapply rtc_l; [apply watch_push|].
  eapply rtc_l; [eapply watch_wake; reflexivity|].
  apply rtc_once. eapply watch_look_none; reflexivity.
Qed.

(** C20: whatever the interleaving of publisher and reader — between the merge of a
    push and its wake too — and however the reader cancels and restarts, what it
    has been told is exactly the movements its filter matched, in order, each
    notification standing for one run of them; the rest is pending, but for the one
    a push under way has yet to merge. Something pending never meets a reader
    asleep for good: the wake is in its channel, or the push under way is about to
    put it there. And a reader told that the core is gone was told everything
    first, no push left half done. *)
Theorem subscriber_told_everything (filter : ChangeFilter) (w : Watch) :
  rtc watch_step (watch_start filter) w →
  ∃ runs run,
    matching filter (w_published w) = concat runs ++ run ++ unmerged (w_pushing w) ∧
    Some <$> w_delivered w = notify <$> runs ∧ pending (w_sub w) = notify run ∧
    (w_reader w = Waiting → run ≠ [] → wake (w_sub w) = true ∨ PushStep_Wake ∈ w_pushing w) ∧
    (w_reader w = Over → run = [] ∧ w_pushing w = []).
Proof.
  intros [Hf (runs & run & Hm & Hd & Hp) Hpush Ha Ho]%watch_reachable_inv.
  exists runs, run. split_and!; [done..| |]; intros Hr.
  - intros Hne. apply (Ha Hr). rewrite Hp. destruct (notify run) eqn:Hn; [by eexists|]. by apply notify_None in Hn.
  - destruct (Ho Hr) as [Hnone Hpub]. split; [by rewrite <-notify_None, <-Hp|].
    destruct Hpush as [?|[? _]]; [done|congruence].
Qed.

(** A subscriber to every movement, told of one before it is woken for it. *)
Lemma subscriber_told_everything_witness :
  rtc watch_step (watch_start ChangeFilter.head) told_early ∧
  ∃ runs, matching ChangeFilter.head (w_published told_early) = concat runs ∧
    Some <$> w_delivered told_early = notify <$> runs.
Proof.
  split; [exact told_early_reached|].
  destruct (subscriber_told_everything _ _ told_early_reached) as (runs & run & Hm & Hd & _ & Hawake & _).
  exists runs. destruct run as [|p run]; [rewrite Hm; cbn [app unmerged omap list_omap w_pushing told_early]; by rewrite app_nil_r|].
  destruct (Hawake eq_refl ltac:(done)) as [Hw|Hw]; [discriminate Hw|by apply not_elem_of_nil in Hw].
Defined.

(** Falling behind loses the shape of the movements, never the fact of them:
    the one notification a run of movements is merged into is selected by
    exactly the selectors that one of them would have been. *)
Theorem merged_notification_selects (run : list (EnvelopeDigest * EnvelopeDigest * Movement))
    (n : ChangeNotification) (s : ChangeSelector) :
  Forall (λ p, movement_wf p.2) run → notify run = Some n →
  selects s (cn_movement n) = true ↔ ∃ p, p ∈ run ∧ selects s p.2 = true.
Proof. intros Hrun Hn. by destruct (notify_selects run n Hrun Hn). Qed.

(** Two movements that write a namespace each. *)
Definition moved_a : EnvelopeDigest * EnvelopeDigest * Movement :=
  (genesis_d, genesis_d, MkMovement [] (touch ChangeSet_default key_a None)).

Definition moved_m : EnvelopeDigest * EnvelopeDigest * Movement :=
  (genesis_d, genesis_d, MkMovement [] (touch ChangeSet_default key_m None)).

Lemma moved_ok : Forall (λ p, movement_wf p.2) [moved_a; moved_m].
Proof.
  assert (∀ key, movement_wf (MkMovement [] (touch ChangeSet_default key None))) as Hok.
  { intros key. split; [constructor|]. apply touch_ok, default_ok. }
  constructor; [apply Hok|]. constructor; [apply Hok|]. constructor.
Qed.

Lemma merged_notification_selects_witness :
  ∃ n, notify [moved_a; moved_m] = Some n ∧
    selects (ChangeSelector_Namespace key_a) (cn_movement n) = true.
Proof.
  eexists. split; [reflexivity|].
  apply (merged_notification_selects [moved_a; moved_m] _ (ChangeSelector_Namespace key_a) moved_ok eq_refl).
  exists moved_a. split; [by left|]. vm_compute. reflexivity.
Defined.

(** What a publish does to one subscription. *)
Definition told (sub : Subscriber) (from head : EnvelopeDigest) (m : Movement) : Subscriber :=
  if ChangeFilter.matches (sub_filter sub) m then push sub from head m else sub.

Lemma publish_lookup self from head m i :
  subscribers (publish self from head m) !! i = (λ sub, told sub from head m) <$> subscribers self !! i.
Proof. apply lookup_fmap. Qed.

Lemma told_matched sub from head m :
  ChangeFilter.matches (sub_filter sub) m = true → told sub from head m = push sub from head m.
Proof. unfold told. by intros ->. Qed.

Lemma told_unmatched sub from head m :
  ChangeFilter.matches (sub_filter sub) m = false → told sub from head m = sub.
Proof. unfold told. by intros ->. Qed.

(** A registry with one subscription, watching [m]. *)
Definition watching_m : Subscriptions :=
  (register Subscriptions_default (ChangeFilter.namespace key_m) genesis_d).2.

(** A notification is not everything that happened since the last one. A
    movement the filter does not match is not merged into the pending
    notification it falls within: with one subscription, to [m], and three
    movements of the head from [h0] to [h3], the second of them under [a], the
    subscriber is told of a movement from [h0] to [h3] that changed nothing
    under [a]. *)
Theorem unmatched_movement_goes_untold (h0 h1 h2 h3 : EnvelopeDigest) :
  let published :=
    publish (publish (publish watching_m h0 h1 moved_m.2) h1 h2 moved_a.2) h2 h3 moved_m.2 in
  ∃ n, subscribers published !! 0 ≫= pending = Some n ∧ cn_from n = h0 ∧ cn_head n = h3 ∧
    selects (ChangeSelector_Namespace key_a) moved_a.2 = true ∧
    selects (ChangeSelector_Namespace key_a) (cn_movement n) = false.
Proof.
  exists (MkChangeNotification h0 h3 (Movement_merge moved_m.2 moved_m.2)).
  assert (ChangeFilter.matches (ChangeFilter.namespace key_m) moved_a.2 = false) as Ha
    by (vm_compute; reflexivity).
  assert (ChangeFilter.matches (ChangeFilter.namespace key_m) moved_m.2 = true) as Hm
    by (vm_compute; reflexivity).
  split; [|split_and!; [done|done|vm_compute; reflexivity..]].
  rewrite !publish_lookup. unfold watching_m, register. cbn [subscribers snd].
  rewrite lookup_insert_eq. cbn [fmap option_fmap option_map mbind option_bind].
  set (sub := MkSubscriber (ChangeFilter.namespace key_m) None false true).
  rewrite (told_matched sub _ _ _ Hm), (told_unmatched (push sub _ _ _) _ _ _ Ha).
  rewrite (told_matched (push sub _ _ _) _ _ _ Hm). reflexivity.
Qed.
