(* ===== verification/Locator.v ===== *)
(** * Locators: [crates/sync/src/locator.rs]

    Sampling a walk of the canonical path and finding the newest sample on
    another. Both consume the walk in one pass, so both are written as what
    they do with each digest; [sample] and [split] run them over a list. *)

From S2P Require Import Prelude Text Keys.

(** The most entries a locator may carry. *)
Definition MAX_LOCATOR_LEN : nat := 64.

(** [usize::is_power_of_two]. *)
Definition is_power_of_two (n : N) : bool := (0 <? n)%N && (2 ^ N.log2 n =? n)%N.

(** Whether a locator samples the entry this many envelopes behind the head. *)
Definition sampled (offset : N) : bool := (offset =? 0)%N || is_power_of_two offset.

(** ** Sampling, one digest at a time *)

Record Sampling := MkSampling {
  samples : list EnvelopeDigest;
  next_offset : N;
  last_seen : option (N * EnvelopeDigest);
}.

Definition sample_start : Sampling := MkSampling [] 0 None.

Definition sample_next (self : Sampling) (digest : EnvelopeDigest) : Sampling :=
  let offset := next_offset self in
  MkSampling (if sampled offset then samples self ++ [digest] else samples self)
    (offset + 1) (Some (offset, digest)).

Definition sample_done (self : Sampling) : list EnvelopeDigest :=
  match last_seen self with
  | Some (offset, root) => if sampled offset then samples self else samples self ++ [root]
  | None => samples self
  end.

Definition sample (path : list EnvelopeDigest) : list EnvelopeDigest :=
  sample_done (foldl sample_next sample_start path).

(** The newest locator entry on [path]; [HashSet::contains] is membership. *)
Definition split (locator path : list EnvelopeDigest) : option EnvelopeDigest :=
  find (λ digest, bool_decide (digest ∈ locator)) path.

(** ** What a locator holds *)

(** The offsets sampled of a path of length [n]. *)
Definition offset_sampled (n i : nat) : Prop :=
  i < n ∧ (sampled (N.of_nat i) = true ∨ i = n - 1).

Lemma sampled_spec n : sampled n = true ↔ n = 0%N ∨ ∃ k, n = (2 ^ k)%N.
Proof.
  unfold sampled, is_power_of_two. rewrite orb_true_iff, andb_true_iff, N.eqb_eq, N.ltb_lt, N.eqb_eq.
  split; [intros [->|[? Hk]]; [by left|right; by exists (N.log2 n)]|].
  intros [->|[k ->]]; [by left|right]. rewrite N.log2_pow2 by lia. split; [|done].
  by apply N.neq_0_lt_0, N.pow_nonzero.
Qed.

(** The samples taken so far: the entries at sampled offsets. *)
Definition samples_of (path : list EnvelopeDigest) : list EnvelopeDigest :=
  omap (λ i, if sampled (N.of_nat i) then path !! i else None) (seq 0 (length path)).

Lemma samples_of_snoc path d :
  samples_of (path ++ [d]) =
  samples_of path ++ (if sampled (N.of_nat (length path)) then [d] else []).
Proof.
  unfold samples_of. rewrite length_app. cbn [length].
  rewrite Nat.add_1_r, seq_S, omap_app. f_equal.
  - apply list_omap_ext. apply Forall2_same_length_lookup. split; [done|].
    intros i x y Hx Hy. simplify_eq. apply lookup_seq in Hx as [-> Hlt]. simpl.
    by rewrite lookup_app_l.
  - simpl. rewrite lookup_app_r, Nat.sub_diag by done. by destruct (sampled _).
Qed.

Lemma foldl_sample path :
  foldl sample_next sample_start path =
  MkSampling (samples_of path) (N.of_nat (length path))
    ((λ d, (N.of_nat (length path - 1), d)) <$> last path).
Proof.
  induction path as [|d path IH] using rev_ind; [done|].
  rewrite foldl_snoc, IH. unfold sample_next. simpl.
  rewrite samples_of_snoc, last_snoc, length_app. simpl. f_equal; [|lia|].
  - destruct (sampled _); [done|by rewrite app_nil_r].
  - do 3 f_equal. lia.
Qed.

Lemma sample_eq path :
  sample path = samples_of path ++
    match last path with
    | Some d => if sampled (N.of_nat (length path - 1)) then [] else [d]
    | None => []
    end.
Proof.
  unfold sample, sample_done. rewrite foldl_sample. simpl.
  destruct (last path) as [d|]; simpl; [|by rewrite app_nil_r].
  destruct (sampled _); [by rewrite app_nil_r|done].
Qed.

(** Every sample is an entry of the path. *)
Lemma elem_of_sample path d : d ∈ sample path → d ∈ path.
Proof.
  rewrite sample_eq, elem_of_app. intros [Hd|Hd].
  - unfold samples_of in Hd. apply list_elem_of_omap in Hd as (i & _ & Hi).
    destruct (sampled _); [by eapply list_elem_of_lookup_2|done].
  - destruct (last path) as [r|] eqn:Hl; [|by apply not_elem_of_nil in Hd].
    destruct (sampled _); [by apply not_elem_of_nil in Hd|].
    apply list_elem_of_singleton in Hd as ->. by apply last_Some_elem_of in Hl.
Qed.

(** Which entries those are. *)
Lemma sampled_in_sample path i d :
  path !! i = Some d → offset_sampled (length path) i → d ∈ sample path.
Proof.
  intros Hd [Hi Hs]. rewrite sample_eq, elem_of_app.
  destruct (sampled (N.of_nat i)) eqn:He.
  - left. unfold samples_of. apply list_elem_of_omap. exists i. rewrite He. split; [|done].
    apply elem_of_seq. lia.
  - destruct Hs as [?| ->]; [done|]. rewrite last_lookup, <-Nat.sub_1_r, Hd, He. right. by left.
Qed.

Lemma length_samples_of path k : length path ≤ 2 ^ k → length (samples_of path) ≤ k + 1.
Proof.
  intros Hlen. unfold samples_of.
  set (offsets := base.filter (λ i : nat, sampled (N.of_nat i) = true) (seq 0 (length path))).
  trans (length offsets).
  - unfold offsets. generalize (seq 0 (length path)). intros l.
    induction l as [|i l IH]; [done|]. rewrite filter_cons. cbn [omap list_omap].
    case_decide as Hs; [rewrite Hs|rewrite not_true_iff_false in Hs; by rewrite Hs].
    destruct (path !! i); simpl; lia.
  - trans (length (0 :: ((λ j, 2 ^ j) <$> seq 0 k))).
    + apply submseteq_length, NoDup_submseteq; [apply NoDup_filter, NoDup_seq|].
      intros i [Hs Hi]%list_elem_of_filter. apply elem_of_seq in Hi as [_ Hi].
      apply sampled_spec in Hs as [Hs|[j Hj]]; [apply elem_of_cons; left; lia|right].
      assert (i = 2 ^ N.to_nat j) as ->.
      { apply (f_equal N.to_nat) in Hj. rewrite Nat2N.id, N2Nat.inj_pow in Hj. done. }
      apply list_elem_of_fmap. exists (N.to_nat j). split; [done|]. apply elem_of_seq.
      split; [lia|]. simpl. apply (Nat.pow_lt_mono_r_iff 2); lia.
    + simpl. rewrite length_fmap, length_seq. lia.
Qed.

(** A locator of a path of up to [2 ^ 62] envelopes stays within the cap. *)
Lemma length_sample path : (N.of_nat (length path) ≤ 2 ^ 62)%N → length (sample path) ≤ MAX_LOCATOR_LEN.
Proof.
  intros Hlen. rewrite sample_eq, length_app. unfold MAX_LOCATOR_LEN.
  assert (length (samples_of path) ≤ 62 + 1) as Hs.
  { apply length_samples_of, Nat2Z.inj_le. rewrite Nat2Z.inj_pow.
    apply N2Z.inj_le in Hlen. by rewrite nat_N_Z in Hlen. }
  destruct (last path); [destruct (sampled _)|]; simpl; lia.
Qed.

Lemma sample_nil path : sample path = [] ↔ path = [].
Proof.
  split; [|by intros ->]. intros Hs. destruct path as [|d path]; [done|].
  assert (d ∈ sample (d :: path)) as Hd; [|rewrite Hs in Hd; by apply not_elem_of_nil in Hd].
  apply (sampled_in_sample _ 0); [done|]. split; [simpl; lia|by left].
Qed.

(** The split is the first entry of the path that the locator offers. *)
Lemma split_Some locator path d :
  split locator path = Some d ↔
  ∃ newer older, path = newer ++ d :: older ∧ d ∈ locator ∧ ∀ x, x ∈ newer → x ∉ locator.
Proof.
  unfold split. split.
  - induction path as [|y path IH]; simpl; [done|]. case_bool_decide as Hy.
    + intros [= ->]. exists [], path. split_and!; [done|done|]. by intros x ?%not_elem_of_nil.
    + intros (newer & older & -> & Hd & Hn)%IH. exists (y :: newer), older.
      split_and!; [done|done|]. by intros x [->|Hx]%elem_of_cons; [|apply Hn].
  - intros (newer & older & -> & Hd & Hn). induction newer as [|y newer IH]; simpl.
    + by rewrite bool_decide_true.
    + rewrite bool_decide_false by (apply Hn; by left). apply IH. intros x Hx. apply Hn. by right.
Qed.

Lemma split_None locator path :
  split locator path = None ↔ ∀ x, x ∈ path → x ∉ locator.
Proof.
  unfold split. induction path as [|y path IH]; simpl.
  - split; [by intros _ x ?%not_elem_of_nil|done].
  - case_bool_decide as Hy.
    + split; [done|]. intros Hn. exfalso. apply (Hn y); [by left|done].
    + rewrite IH. split; [by intros Hn x [->|?]%elem_of_cons; [|apply Hn]|].
      intros Hn x Hx. apply Hn. by right.
Qed.

(** ** What a locator is good for *)

(** A sampled offset at most as deep again as any. *)
Lemma sampled_near (n : nat) : ∃ i, n ≤ i ≤ 2 * n ∧ sampled (N.of_nat i) = true.
Proof.
  destruct (decide (n ≤ 1)) as [Hn|Hn].
  - exists n. split; [lia|]. by destruct n as [|[|]]; [..|lia].
  - exists (N.to_nat (2 ^ N.log2_up (N.of_nat n))). rewrite N2Nat.id.
    destruct (N.log2_up_spec (N.of_nat n)) as [Hlo Hhi]; [lia|]. split; [|apply sampled_spec; right; by eexists].
    pose proof (N.log2_up_pos (N.of_nat n) ltac:(lia)).
    rewrite <-(N.succ_pred (N.log2_up (N.of_nat n))) in Hhi |- * by lia. rewrite N.pow_succ_r' in Hhi |- *. lia.
Qed.

(** An entry of the path's end that the locator offers, no deeper under its start
    than the start is under the head. *)
Lemma sample_near (newer common : list EnvelopeDigest) :
  common ≠ [] → ∃ j d, j ≤ length newer ∧ common !! j = Some d ∧ d ∈ sample (newer ++ common).
Proof.
  intros Hne. destruct (sampled_near (length newer)) as (i & Hi & Hs).
  assert (0 < length common) as Hlen by (destruct common; [done|simpl; lia]).
  set (k := Nat.min i (length (newer ++ common) - 1)).
  assert (length newer ≤ k < length (newer ++ common) ∧ k ≤ 2 * length newer) as [[Hk1 Hk2] Hk3]
    by (unfold k; rewrite length_app; lia).
  assert (offset_sampled (length (newer ++ common)) k) as Hoff.
  { split; [done|]. unfold k. destruct (decide (i ≤ length (newer ++ common) - 1)); [left|right; lia].
    by rewrite Nat.min_l. }
  destruct (lookup_lt_is_Some_2 (newer ++ common) k Hk2) as [d Hd].
  exists (k - length newer), d. split; [lia|]. rewrite lookup_app_r in Hd by done. split; [done|].
  apply (sampled_in_sample _ k); [by rewrite lookup_app_r|done].
Qed.

(** A locator finds where two paths part, near enough. For two canonical paths
    that end in the same history and share nothing above it, the split of the one
    by the locator of the other is an entry of the shared history, never an entry
    of its own side, and lies no deeper under the parting than the locator's node
    is ahead of it: what is streamed twice is at most as long as what the puller
    has of its own. The locator is within the protocol's cap, and it is empty only
    where the path is. *)
Theorem locator_meets (newA newB common : list EnvelopeDigest) :
  common ≠ [] → (∀ d, d ∈ newB → d ∉ newA ++ common) → (N.of_nat (length (newA ++ common)) ≤ 2 ^ 62)%N →
  sample (newA ++ common) ≠ [] ∧ length (sample (newA ++ common)) ≤ MAX_LOCATOR_LEN ∧
  ∃ j d, split (sample (newA ++ common)) (newB ++ common) = Some d ∧ common !! j = Some d ∧ j ≤ length newA.
Proof.
  intros Hne Hdisj Hcap.
  split; [rewrite sample_nil; intros [_ ?]%app_eq_nil; done|]. split; [by apply length_sample|].
  destruct (sample_near newA common Hne) as (j & d & Hj & Hd & Hin).
  assert (split (sample (newA ++ common)) (newB ++ common) ≠ None) as Hsome.
  { rewrite split_None. intros Hn. apply (Hn d); [|done]. apply elem_of_app. right.
    by eapply list_elem_of_lookup_2. }
  destruct (split _ _) as [x|] eqn:Hx; [|done]. clear Hsome. apply split_Some in Hx as (l1 & l2 & Heq & Hxs & Hl1).
  assert (∃ k, l1 = newB ++ k ∧ common = k ++ x :: l2) as (k & Hk & Hcommon).
  { apply app_eq_inv in Heq as [(k & Hk & Heq)|(k & Hk & Heq)]; [|by exists k].
    destruct k as [|y k]; [exists []; rewrite app_nil_r in Hk |- *; by rewrite Hk|].
    injection Heq as <- _. destruct (Hdisj x); [rewrite Hk; apply elem_of_app; right; by left|].
    by apply elem_of_sample. }
  exists (length k), x. split; [done|]. split; [by rewrite Hcommon, lookup_app_r, Nat.sub_diag by done|].
  destruct (decide (length k ≤ j)) as [?|Hlt]; [lia|]. exfalso. apply (Hl1 d); [|done].
  rewrite Hk. apply elem_of_app. right. rewrite Hcommon, lookup_app_l in Hd by lia. by eapply list_elem_of_lookup_2.
Qed.

(** A digest of one repeated byte. *)
Definition digest_at (b : Byte.byte) : EnvelopeDigest := MkEnvelopeDigest (array_repeat 32 b).

Lemma locator_meets_witness : ∃ j d,
  split (sample [digest_at Byte.x01; digest_at Byte.x02; digest_at Byte.x03])
    [digest_at Byte.x04; digest_at Byte.x02; digest_at Byte.x03] = Some d ∧
  [digest_at Byte.x02; digest_at Byte.x03] !! j = Some d ∧ j ≤ 1.
Proof.
  assert (digest_at Byte.x04 ∉ [digest_at Byte.x01; digest_at Byte.x02; digest_at Byte.x03]) as Hd by by_computing.
  exact (proj2 (proj2 (locator_meets [digest_at Byte.x01] [digest_at Byte.x04] [digest_at Byte.x02; digest_at Byte.x03]
    ltac:(done) ltac:(intros d ->%list_elem_of_singleton; exact Hd) ltac:(done)))).
Defined.
