(* ===== verification/Sync.v ===== *)
(** * The sync protocol's data: [crates/sync/src/proto.rs], [session.rs], [lib.rs]

    The messages peers exchange, what flows between a session machine and its
    driver, and the ways a session ends. *)

From S2P Require Import Prelude BTree Text Codec Externals Keys Subkey Msg Envelope Locator.

(** ** Constants *)

Definition PROTOCOL_VERSION : N := 1.

(** The most envelopes one [Envelopes] frame may carry. *)
Definition MAX_BATCH_ENVELOPES : nat := 256.

(** The largest frame body, a [u32]. *)
Definition MAX_FRAME_LEN : N := N.shiftl 1 24.

(** The encoded-byte budget of a segment. *)
Definition SEGMENT_BYTE_BUDGET : N := MAX_FRAME_LEN - 1024.

(** ** Messages *)

(** Each side's first frame; the version is a [u32]. *)
Record Hello := MkHello { hello_version : N; hello_head : EnvelopeDigest }.

Record FindSplit := MkFindSplit { find_locator : list EnvelopeDigest }.

Record Split := MkSplit { split_at_ : EnvelopeDigest }.

Record NoSplit := MkNoSplit {}.

Record Envelopes := MkEnvelopes { batch : list Envelope }.

Record CaughtUp := MkCaughtUp {}.

Record Announce := MkAnnounce { announce_head : EnvelopeDigest }.

(** A frame on the peer wire. *)
Inductive Message : Type :=
  | Message_Hello (m : Hello)
  | Message_FindSplit (m : FindSplit)
  | Message_Split (m : Split)
  | Message_NoSplit (m : NoSplit)
  | Message_Envelopes (m : Envelopes)
  | Message_CaughtUp (m : CaughtUp)
  | Message_Announce (m : Announce).

(** [derive(Cbor)]: maps with integer keys. *)
Definition ser_hello (m : Hello) : Item :=
  IMap [(IUint 1, IUint (hello_version m)); (IUint 2, ser_digest false (hello_head m))].

Definition ser_find_split (m : FindSplit) : Item :=
  IMap [(IUint 1, IArray (map (ser_digest false) (find_locator m)))].

Definition ser_split (m : Split) : Item := IMap [(IUint 1, ser_digest false (split_at_ m))].

Definition ser_no_split (m : NoSplit) : Item := IMap [].

Definition ser_envelopes (m : Envelopes) : Item := IMap [(IUint 1, IArray (map ser_envelope (batch m)))].

Definition ser_caught_up (m : CaughtUp) : Item := IMap [].

Definition ser_announce (m : Announce) : Item := IMap [(IUint 1, ser_digest false (announce_head m))].

(** [wire_tags!]: a one-pair map under the variant's tag. *)
Definition ser_message (self : Message) : Item :=
  match self with
  | Message_Hello v => dual_serialize 1 (ser_hello v)
  | Message_FindSplit v => dual_serialize 2 (ser_find_split v)
  | Message_Split v => dual_serialize 3 (ser_split v)
  | Message_NoSplit v => dual_serialize 4 (ser_no_split v)
  | Message_Envelopes v => dual_serialize 5 (ser_envelopes v)
  | Message_CaughtUp v => dual_serialize 6 (ser_caught_up v)
  | Message_Announce v => dual_serialize 7 (ser_announce v)
  end.

(** A [Message]'s name without its payload. *)
Inductive MessageKind : Type :=
  | MessageKind_Hello
  | MessageKind_FindSplit
  | MessageKind_Split
  | MessageKind_NoSplit
  | MessageKind_Envelopes
  | MessageKind_CaughtUp
  | MessageKind_Announce.

Definition kind (self : Message) : MessageKind :=
  match self with
  | Message_Hello _ => MessageKind_Hello
  | Message_FindSplit _ => MessageKind_FindSplit
  | Message_Split _ => MessageKind_Split
  | Message_NoSplit _ => MessageKind_NoSplit
  | Message_Envelopes _ => MessageKind_Envelopes
  | Message_CaughtUp _ => MessageKind_CaughtUp
  | Message_Announce _ => MessageKind_Announce
  end.

(** ** Sessions *)

(** A question a machine asks of the core it works for. *)
Inductive Query : Type :=
  | Query_ContainsEnvelope (digest : EnvelopeDigest)
  | Query_Locator
  | Query_SplitPoint (locator : list EnvelopeDigest)
  | Query_Segment (after : EnvelopeDigest).

(** The answer, in the same shape. *)
Inductive Answer : Type :=
  | Answer_Contains (held : bool)
  | Answer_Locator (locator : list EnvelopeDigest)
  | Answer_SplitPoint (at_ : option EnvelopeDigest)
  | Answer_Segment (batch : list Envelope).

(** What a driver feeds a session machine. *)
Inductive Input : Type :=
  | Input_Message (m : Message)
  | Input_Answer (a : Answer)
  | Input_Ingested.

(** How a pull session ended for the puller; [ingested] is a [u64]. *)
Inductive PullOutcome : Type :=
  | PullOutcome_AlreadyCurrent
  | PullOutcome_Synced (head : EnvelopeDigest) (ingested : N)
  | PullOutcome_NoCommonHistory.

(** How it ended for the server; [sent] is a [u64]. *)
Inductive ServeOutcome : Type :=
  | ServeOutcome_NoCommonHistory
  | ServeOutcome_Served (head : EnvelopeDigest) (sent : N).

Section externals.
Context `{Externals}.

(** How the peer broke the protocol. *)
Inductive Breach : Type :=
  | Breach_Version (ours theirs : N)
  | Breach_Unexpected (got : MessageKind) (expected : rstring)
  | Breach_SplitNotInLocator (at_ : EnvelopeDigest)
  | Breach_EmptyBatch
  | Breach_OversizedBatch (got : nat)
  | Breach_EmptyLocator
  | Breach_OversizedLocator (got : nat)
  | Breach_BrokenRun (expected : EnvelopeDigest)
  | Breach_Undigestable (e : WireError).

(** What a machine instructs its driver to do. *)
Inductive Effect (O : Type) : Type :=
  | Effect_Send (m : Message)
  | Effect_Ask (q : Query)
  | Effect_Ingest (run : list Envelope)
  | Effect_Done (outcome : O)
  | Effect_Violation (breach : Breach).
End externals.
Arguments Effect_Send {_ O} m.
Arguments Effect_Ask {_ O} q.
Arguments Effect_Ingest {_ O} run.
Arguments Effect_Done {_ O} outcome.
Arguments Effect_Violation {_ O} breach.

(** A machine's step: the next state and the effects, or a broken contract.
    [&mut self] over the [State]. *)
Abbreviation Step State O := (Outcome (State * list (Effect O))) (only parsing).

(** The answer a query asks for, by shape. *)
Definition answers (q : Query) (a : Answer) : bool :=
  match q, a with
  | Query_ContainsEnvelope _, Answer_Contains _ => true
  | Query_Locator, Answer_Locator _ => true
  | Query_SplitPoint _, Answer_SplitPoint _ => true
  | Query_Segment _, Answer_Segment _ => true
  | _, _ => false
  end.

(** ** Linked runs *)

(** The link check of one envelope: [try_fold]'s closure in the puller. *)
Definition link `{Externals} (expected : EnvelopeDigest) (envelope : Envelope)
    : Result Breach EnvelopeDigest :=
  if decide (Msg_prev_digest (payload envelope) ≠ Some expected)
  then Err (Breach_BrokenRun expected)
  else match Envelope_digest envelope with
       | Ok digest => Ok digest
       | Err e => Err (Breach_Undigestable e)
       end.

(** [batch.iter().try_fold(cursor, ..)]. *)
Fixpoint link_run `{Externals} (cursor : EnvelopeDigest) (batch : list Envelope)
    : Result Breach EnvelopeDigest :=
  match batch with
  | [] => Ok cursor
  | envelope :: rest =>
      match link cursor envelope with
      | Ok digest => link_run digest rest
      | Err breach => Err breach
      end
  end.

(** A run that chains from [cursor] to [tip], parent-first. *)
Fixpoint linked `{Externals} (cursor : EnvelopeDigest) (run : list Envelope) (tip : EnvelopeDigest) : Prop :=
  match run with
  | [] => tip = cursor
  | e :: rest => prev_of e = Some cursor ∧ ∃ d, Envelope_digest e = Ok d ∧ linked d rest tip
  end.

Section linked.
Context `{Externals}.

Lemma link_run_Ok cursor run tip : link_run cursor run = Ok tip ↔ linked cursor run tip.
Proof.
  revert cursor. induction run as [|e run IH]; intros cursor; simpl.
  - split; [by intros [=]|by intros ->].
  - unfold link. fold (prev_of e). case_decide as Hp; [naive_solver|].
    destruct (Envelope_digest e) as [d|err]; [|naive_solver].
    rewrite IH. split; [by eauto|]. intros (_ & d' & [= <-] & Hl). done.
Qed.

Lemma linked_app cursor run1 mid run2 tip :
  linked cursor run1 mid → linked mid run2 tip → linked cursor (run1 ++ run2) tip.
Proof.
  revert cursor. induction run1 as [|e run1 IH]; intros cursor; simpl; [by intros ->|].
  intros (Hp & d & Hd & Hl) H2. split; [done|]. exists d. split; [done|]. by apply IH.
Qed.

Lemma linked_fun cursor run tip tip' : linked cursor run tip → linked cursor run tip' → tip = tip'.
Proof. rewrite <-!link_run_Ok. congruence. Qed.

(** The digest a server takes for the tip is the run's. *)
Lemma linked_last cursor run tip e :
  linked cursor run tip → last run = Some e → Envelope_digest e = Ok tip.
Proof.
  revert cursor. induction run as [|e' run IH]; intros cursor; [done|]. intros (_ & d & Hd & Hl) Hlast.
  destruct run as [|e'' run]; [simpl in *; congruence|]. by apply (IH d).
Qed.
End linked.
