(* ===== verification/Puller.v ===== *)
(** * The pulling machine: [crates/sync/src/puller.rs]

    [Puller_step] is the source's [step]: it is also all that [handle] does
    besides logging. A contract panic is [Panic]. *)

From S2P Require Import Prelude BTree Text Codec Externals Keys Subkey Msg Envelope Locator Sync.

Module Puller.

(** Counts are [u64]s. *)
Inductive State : Type :=
  | AwaitHello
  | AwaitContains
  | AwaitLocator
  | AwaitSplit (locator : list EnvelopeDigest)
  | AwaitBatch (cursor : EnvelopeDigest) (ingested : N)
  | AwaitIngest (cursor : EnvelopeDigest) (ingested pending : N)
  | Terminal.

(** What the protocol admits next. *)
Definition expecting (self : State) : rstring :=
  match self with
  | AwaitHello => str "Hello"
  | AwaitSplit _ => str "Split or NoSplit"
  | AwaitBatch _ _ => str "Envelopes or CaughtUp"
  | AwaitContains | AwaitLocator | AwaitIngest _ _ _ => str "no frame while an effect is unresolved"
  | Terminal => str "nothing"
  end.

Section machine.
Context `{Externals}.

(** A puller for a node at [head], and the first message to be sent. *)
Definition new (head : EnvelopeDigest) : State * Effect PullOutcome :=
  (AwaitHello, Effect_Send (Message_Hello (MkHello PROTOCOL_VERSION head))).

Definition breach (b : Breach) : State * list (Effect PullOutcome) := (Terminal, [Effect_Violation b]).

(** What an [Envelopes] frame does while one is awaited. *)
Definition take_batch (cursor : EnvelopeDigest) (ingested : N) (batch : list Envelope)
    : State * list (Effect PullOutcome) :=
  if decide (batch = []) then breach Breach_EmptyBatch
  else if decide (MAX_BATCH_ENVELOPES < length batch) then breach (Breach_OversizedBatch (length batch))
  else
    match link_run cursor batch with
    | Ok tip => (AwaitIngest tip ingested (N.of_nat (length batch)), [Effect_Ingest batch])
    | Err b => breach b
    end.

Definition step (state : State) (input : Input) : Outcome (State * list (Effect PullOutcome)) :=
  match state, input with
  | AwaitHello, Input_Message (Message_Hello peer) =>
      if decide (hello_version peer ≠ PROTOCOL_VERSION)
      then Ret (breach (Breach_Version PROTOCOL_VERSION (hello_version peer)))
      else Ret (AwaitContains, [Effect_Ask (Query_ContainsEnvelope (hello_head peer))])
  | AwaitContains, Input_Answer (Answer_Contains true) =>
      Ret (Terminal, [Effect_Done PullOutcome_AlreadyCurrent])
  | AwaitContains, Input_Answer (Answer_Contains false) => Ret (AwaitLocator, [Effect_Ask Query_Locator])
  | AwaitLocator, Input_Answer (Answer_Locator locator) =>
      if decide (locator ≠ [] ∧ length locator ≤ MAX_LOCATOR_LEN)
      then Ret (AwaitSplit locator, [Effect_Send (Message_FindSplit (MkFindSplit locator))])
      else Panic
  | AwaitSplit locator, Input_Message (Message_Split (MkSplit at_)) =>
      if decide (at_ ∈ locator) then Ret (AwaitBatch at_ 0, [])
      else Ret (breach (Breach_SplitNotInLocator at_))
  | AwaitSplit _, Input_Message (Message_NoSplit _) =>
      Ret (Terminal, [Effect_Done PullOutcome_NoCommonHistory])
  | AwaitBatch cursor ingested, Input_Message (Message_Envelopes (MkEnvelopes batch)) =>
      Ret (take_batch cursor ingested batch)
  | AwaitBatch cursor ingested, Input_Message (Message_CaughtUp _) =>
      Ret (Terminal, [Effect_Done (PullOutcome_Synced cursor ingested)])
  | AwaitIngest cursor ingested pending, Input_Ingested => Ret (AwaitBatch cursor (ingested + pending), [])
  (* A frame the phase does not admit is the peer's breach... *)
  | (AwaitHello | AwaitSplit _ | AwaitBatch _ _), Input_Message message =>
      Ret (breach (Breach_Unexpected (kind message) (expecting state)))
  (* ...while everything below is the driver breaking its contract. *)
  | (AwaitContains | AwaitLocator | AwaitIngest _ _ _), Input_Message _ => Panic
  | Terminal, _ => Panic
  | _, Input_Answer _ => Panic
  | _, Input_Ingested => Panic
  end.
End machine.
End Puller.
