(* ===== verification/Server.v ===== *)
(** * The serving machine: [crates/sync/src/server.rs]

    [step] is the source's [step]. Its [debug_assert!] is compiled in debug
    builds only: [debug] says which build this is. *)

From S2P Require Import Prelude BTree Text Codec Externals Keys Subkey Msg Envelope Locator Sync.

Module Server.

(** [sent] is a [u64]. *)
Inductive State : Type :=
  | AwaitHello
  | AwaitFindSplit
  | AwaitSplitPoint
  | AwaitSegment (cursor : EnvelopeDigest) (sent : N)
  | Terminal.

(** What the protocol admits next. *)
Definition expecting (self : State) : rstring :=
  match self with
  | AwaitHello => str "Hello"
  | AwaitFindSplit => str "FindSplit"
  | AwaitSplitPoint | AwaitSegment _ _ => str "no frame while an effect is unresolved"
  | Terminal => str "nothing"
  end.

Section machine.
Context `{Externals}.

(** The head at session start. *)
Variable head : EnvelopeDigest.

Variable debug : bool.

Definition breach (b : Breach) : State * list (Effect ServeOutcome) := (Terminal, [Effect_Violation b]).

(** [debug_assert!(batch.iter().try_fold(..).is_ok())], whose closure panics on
    an envelope that does not re-encode; a release build skips it. *)
Fixpoint assert_linked (cursor : EnvelopeDigest) (batch : list Envelope) : bool :=
  match batch with
  | [] => true
  | envelope :: rest =>
      if decide (Msg_prev_digest (payload envelope) = Some cursor)
      then match Envelope_digest envelope with
           | Ok digest => assert_linked digest rest
           | Err _ => false
           end
      else false
  end.

(** What a segment does while one is awaited. *)
Definition send_segment (cursor : EnvelopeDigest) (sent : N) (batch : list Envelope)
    : Outcome (State * list (Effect ServeOutcome)) :=
  if decide (batch = []) then
    Ret (Terminal, [Effect_Send (Message_CaughtUp MkCaughtUp);
                    Effect_Done (ServeOutcome_Served cursor sent)])
  else if decide (MAX_BATCH_ENVELOPES < length batch) then Panic
  else if debug && negb (assert_linked cursor batch) then Panic
  else
    match last batch with
    | None => Panic
    | Some envelope =>
        match Envelope_digest envelope with
        | Err _ => Panic
        | Ok tip =>
            Ret (AwaitSegment tip (sent + N.of_nat (length batch)),
                 [Effect_Send (Message_Envelopes (MkEnvelopes batch)); Effect_Ask (Query_Segment tip)])
        end
    end.

Definition step (state : State) (input : Input) : Outcome (State * list (Effect ServeOutcome)) :=
  match state, input with
  | AwaitHello, Input_Message (Message_Hello peer) =>
      if decide (hello_version peer ≠ PROTOCOL_VERSION)
      then Ret (breach (Breach_Version PROTOCOL_VERSION (hello_version peer)))
      else Ret (AwaitFindSplit, [Effect_Send (Message_Hello (MkHello PROTOCOL_VERSION head))])
  | AwaitFindSplit, Input_Message (Message_FindSplit (MkFindSplit locator)) =>
      if decide (locator = []) then Ret (breach Breach_EmptyLocator)
      else if decide (MAX_LOCATOR_LEN < length locator)
      then Ret (breach (Breach_OversizedLocator (length locator)))
      else Ret (AwaitSplitPoint, [Effect_Ask (Query_SplitPoint locator)])
  | AwaitSplitPoint, Input_Answer (Answer_SplitPoint None) =>
      Ret (Terminal, [Effect_Send (Message_NoSplit MkNoSplit);
                      Effect_Done ServeOutcome_NoCommonHistory])
  | AwaitSplitPoint, Input_Answer (Answer_SplitPoint (Some at_)) =>
      Ret (AwaitSegment at_ 0,
           [Effect_Send (Message_Split (MkSplit at_)); Effect_Ask (Query_Segment at_)])
  | AwaitSegment cursor sent, Input_Answer (Answer_Segment batch) => send_segment cursor sent batch
  (* A frame the phase does not admit is the peer's breach... *)
  | (AwaitHello | AwaitFindSplit), Input_Message message =>
      Ret (breach (Breach_Unexpected (kind message) (expecting state)))
  (* ...while everything below is the driver breaking its contract. *)
  | (AwaitSplitPoint | AwaitSegment _ _), Input_Message _ => Panic
  | Terminal, _ => Panic
  | _, Input_Answer _ => Panic
  | _, Input_Ingested => Panic
  end.
End machine.
End Server.
