(* ===== verification/Frame.v ===== *)
(** * Framing: [crates/sync/src/frame.rs], [error.rs]

    A [BytesMut] is the list of its bytes; a codec call threads it. Decoding
    the body is [cbor2]'s, [wire_decode]; the prefix, the cap and the buffer
    discipline are the source's. *)

From S2P Require Import Prelude BTree Text Codec Externals Keys Subkey Msg Envelope Locator Sync.

(** [wire::decode::<Message>]: [cbor2::from_slice]. *)
Class MessageDecode `{Externals} := wire_decode : list u8 → Result WireError Message.

(** [sync::Error]; the I/O error is the transport's. *)
Inductive FrameError `{Externals} (IoError : Type) : Type :=
  | FrameError_Wire (e : WireError)
  | FrameError_FrameTooLarge (len : N)
  | FrameError_Io (e : IoError).
Arguments FrameError_Wire {_ _} e.
Arguments FrameError_FrameTooLarge {_ _} len.
Arguments FrameError_Io {_ _} e.

(** ** Big-endian [u32]s *)

(** [BufMut::put_u32], the bytes it puts. *)
Definition u32_to_be_bytes (n : N) : list u8 :=
  map (λ i, u8_of_N (N.land (N.shiftr n (8 * i)) 255)) [3; 2; 1; 0]%N.

(** [u32::from_be_bytes]. *)
Definition u32_from_be_bytes (l : list u8) : N :=
  foldl (λ acc b, N.lor (N.shiftl acc 8) (Byte.to_N b)) 0%N l.

Section codec.
Context `{MessageDecode} {IoError : Type}.

(** [slice.get(..4)]. *)
Definition get_prefix (src : list u8) : option (list u8) :=
  if decide (4 ≤ length src) then Some (take 4 src) else None.

Definition decode : M (list u8) (FrameError IoError) (option Message) := λ src,
  match get_prefix src with
  | None => Ret (Ok None, src)
  | Some prefix =>
      let len := u32_from_be_bytes prefix in
      if (MAX_FRAME_LEN <? len)%N then Ret (Err (FrameError_FrameTooLarge len), src)
      else
        let frame := 4 + N.to_nat len in
        if decide (length src < frame) then Ret (Ok None, src)
        else
          let src := drop 4 src in
          let body := take (N.to_nat len) src in
          let src := drop (N.to_nat len) src in
          match wire_decode body with
          | Ok message => Ret (Ok (Some message), src)
          | Err e => Ret (Err (FrameError_Wire e), src)
          end
  end.

(** [u32::try_from(body.len()).ok().filter(|&len| len <= MAX_FRAME_LEN)]. *)
Definition frame_len (body : list u8) : option N :=
  match u32_try_from_u64 (N.of_nat (length body)) with
  | Some len => if (len <=? MAX_FRAME_LEN)%N then Some len else None
  | None => None
  end.

Definition encode_message (message : Message) : M (list u8) (FrameError IoError) () := λ dst,
  match encode (ser_message message) with
  | Err e => Ret (Err (FrameError_Wire e), dst)
  | Ok body =>
      match frame_len body with
      | None => Ret (Err (FrameError_FrameTooLarge (N.of_nat (length body))), dst)
      | Some len => Ret (Ok (), dst ++ u32_to_be_bytes len ++ body)
      end
  end.
End codec.

(** ** Lemmas *)

Lemma u32_be_length n : length (u32_to_be_bytes n) = 4.
Proof. done. Qed.

Lemma land_255 n : N.land n 255 = (n mod 256)%N.
Proof. exact (N.land_ones n 8). Qed.

Lemma be_step n k : N.lor (N.shiftl (N.shiftr n (k + 8)) 8) (N.land (N.shiftr n k) 255) = N.shiftr n k.
Proof.
  apply N.bits_inj. intros i. rewrite N.lor_spec, N.land_spec.
  change 255%N with (N.ones 8). destruct (decide (i < 8)%N) as [Hi|Hi].
  - rewrite N.shiftl_spec_low, N.ones_spec_low by done. by rewrite andb_true_r.
  - rewrite N.shiftl_spec_high', N.ones_spec_high, andb_false_r, orb_false_r by lia.
    rewrite !N.shiftr_spec'. f_equal. lia.
Qed.

Lemma u32_be_roundtrip n : (n < 2 ^ 32)%N → u32_from_be_bytes (u32_to_be_bytes n) = n.
Proof.
  intros Hn. unfold u32_from_be_bytes, u32_to_be_bytes. cbn [map foldl].
  assert (∀ k, Byte.to_N (u8_of_N (N.land (N.shiftr n k) 255)) = N.land (N.shiftr n k) 255) as Hb.
  { intros k. apply u8_of_N_to_N. rewrite land_255. apply N.mod_lt. lia. }
  rewrite !Hb.
  assert (N.shiftr n 32 = 0%N) as H32.
  { rewrite N.shiftr_div_pow2. by apply N.div_small. }
  pose proof (be_step n 24) as H24. change (24 + 8)%N with 32%N in H24. rewrite H32 in H24.
  pose proof (be_step n 16) as H16. change (16 + 8)%N with 24%N in H16.
  pose proof (be_step n 8) as H8. change (8 + 8)%N with 16%N in H8.
  pose proof (be_step n 0) as H0. change (0 + 8)%N with 8%N in H0.
  change (8 * 3)%N with 24%N. change (8 * 2)%N with 16%N. change (8 * 1)%N with 8%N. change (8 * 0)%N with 0%N.
  rewrite H24, H16, H8, H0. by rewrite N.shiftr_0_r.
Qed.
