(* ===== verification/SyncDriver.v ===== *)
(** * Driving a session: [crates/lotusd/src/sync_driver.rs]

    The effect loop that resolves what a machine asks for: messages through
    the codec and over the transport, questions and runs through the core. The
    core is an interface, [SyncCore]. The transport is played by a script — what
    each read yields and which writes fail — so quantifying over scripts is
    quantifying over every finite behaviour of a peer and a network. *)

From S2P Require Import Prelude BTree Text Codec Externals Keys Subkey Msg Envelope Locator Sync.
From S2P Require Import Frame Puller Server Chain.

(** Why a session ended without an outcome. *)
Inductive SyncError `{Externals} (IoError ChainError : Type) : Type :=
  | SyncError_ServerGone
  | SyncError_Frame (e : FrameError IoError)
  | SyncError_Breach (b : Breach)
  | SyncError_Answer (e : ChainError)
  | SyncError_Ingest (e : ChainError)
  | SyncError_PeerClosed
  | SyncError_Truncated
  | SyncError_TimedOut.
Arguments SyncError_ServerGone {_ _ _}.
Arguments SyncError_Frame {_ _ _} e.
Arguments SyncError_Breach {_ _ _} b.
Arguments SyncError_Answer {_ _ _} e.
Arguments SyncError_Ingest {_ _ _} e.
Arguments SyncError_PeerClosed {_ _ _}.
Arguments SyncError_Truncated {_ _ _}.
Arguments SyncError_TimedOut {_ _ _}.

(** What a read of the transport yields: bytes, none at the end of the stream;
    a failure; or nothing for [FRAME_TIMEOUT]. *)
Inductive Read (IoError : Type) : Type :=
  | Read_Bytes (bytes : list u8)
  | Read_Fails (e : IoError)
  | Read_Quiet.
Arguments Read_Bytes {_} bytes.
Arguments Read_Fails {_} e.
Arguments Read_Quiet {_}.

(** A transport's script, and what has been written to it. A read past the
    script is the end of the stream; a write past it succeeds. *)
Record Transport (IoError : Type) := MkTransport {
  reads : list (Read IoError);
  writes : list (option IoError);
  written : list u8;
}.
Arguments MkTransport {_} reads writes written.
Arguments reads {_} _.
Arguments writes {_} _.
Arguments written {_} _.

(** The chain a session runs against. *)
Class SyncCore `{Externals} (C IoError ChainError : Type) := {
  core_head : M C (SyncError IoError ChainError) EnvelopeDigest;
  core_answer : Query → M C (SyncError IoError ChainError) Answer;
  core_ingest : list Envelope → M C (SyncError IoError ChainError) ();
}.

(** A session under way: the machine, the core, the transport and the bytes
    read ahead. *)
Record Session (MS C IoError : Type) := MkSession {
  machine_state : MS;
  core : C;
  transport : Transport IoError;
  inbound : list u8;
}.
Arguments MkSession {_ _ _} machine_state core transport inbound.
Arguments machine_state {_ _ _} _.
Arguments core {_ _ _} _.
Arguments transport {_ _ _} _.
Arguments inbound {_ _ _} _.

Section drive.
Context `{MessageDecode} {MS C IoError ChainError O : Type} `{!SyncCore C IoError ChainError}.
Variable machine : MS → Input → Outcome (MS * list (Effect O)).

Abbreviation SErr := (SyncError IoError ChainError) (only parsing).
Abbreviation SM := (M (Session MS C IoError) SErr) (only parsing).

(** Reads one frame, or [None] where the peer closed cleanly between frames;
    over what is left of the script and the bytes read ahead. A quiet peer is
    the [timeout] the caller wraps this in. *)
Fixpoint next_frame_loop (script : list (Read IoError)) (buffer : list u8)
    : Outcome (Result SErr (option Message) * (list (Read IoError) * list u8)) :=
  match decode buffer with
  | Panic => Panic
  | Diverge => Diverge
  | Ret (Err e, buffer) => Ret (Err (SyncError_Frame e), (script, buffer))
  | Ret (Ok (Some message), buffer) => Ret (Ok (Some message), (script, buffer))
  | Ret (Ok None, buffer) =>
      let ended := if decide (buffer = []) then Ok None else Err SyncError_Truncated in
      match script with
      | [] => Ret (ended, ([], buffer))
      | Read_Bytes bytes :: script =>
          if decide (bytes = []) then Ret (ended, (script, buffer))
          else next_frame_loop script (buffer ++ bytes)
      | Read_Fails e :: script => Ret (Err (SyncError_Frame (FrameError_Io e)), (script, buffer))
      | Read_Quiet :: script => Ret (Err SyncError_TimedOut, (script, buffer))
      end
  end.

Definition next_frame : SM (option Message) := λ s,
  match next_frame_loop (reads (transport s)) (inbound s) with
  | Ret (r, (script, buffer)) =>
      Ret (r, MkSession (machine_state s) (core s)
                (MkTransport script (writes (transport s)) (written (transport s))) buffer)
  | Panic => Panic
  | Diverge => Diverge
  end.

(** [transport.write_all(..)] and [flush]. *)
Definition write_all (bytes : list u8) : SM () := λ s,
  let t := transport s in
  let wrote ws := MkSession (machine_state s) (core s)
    (MkTransport (reads t) ws (written t ++ bytes)) (inbound s) in
  match writes t with
  | Some e :: ws =>
      Ret (Err (SyncError_Frame (FrameError_Io e)),
           MkSession (machine_state s) (core s) (MkTransport (reads t) ws (written t)) (inbound s))
  | None :: ws => Ret (Ok (), wrote ws)
  | [] => Ret (Ok (), wrote [])
  end.

(** [Effect::Send]: [outbound] is cleared after every write. *)
Definition send (message : Message) : SM () := λ s,
  match encode_message message [] with
  | Ret (Ok _, outbound) => write_all outbound s
  | Ret (Err e, _) => Ret (Err (SyncError_Frame e), s)
  | Panic => Panic
  | Diverge => Diverge
  end.

(** A call on the core. *)
Definition on_core {A} (m : M C SErr A) : SM A := λ s,
  match m (core s) with
  | Ret (r, c) => Ret (r, MkSession (machine_state s) c (transport s) (inbound s))
  | Panic => Panic
  | Diverge => Diverge
  end.

(** Feeds the machine. *)
Definition feed (input : Input) : SM (list (Effect O)) := λ s,
  match machine (machine_state s) input with
  | Ret (ms, effects) => Ret (Ok effects, MkSession ms (core s) (transport s) (inbound s))
  | Panic => Panic
  | Diverge => Diverge
  end.

(** Resolves every pending effect in order, and only then reads the peer's next
    frame. *)
Fixpoint drive (fuel : nat) (effects : list (Effect O)) : SM O :=
  match fuel with
  | 0 => m_diverge
  | S fuel =>
      match effects with
      | [] =>
          let! frame := next_frame in
          match frame with
          | None => m_err SyncError_PeerClosed
          | Some message => let! effects := feed (Input_Message message) in drive fuel effects
          end
      | Effect_Send message :: effects => do! send message in drive fuel effects
      | Effect_Ask query :: effects =>
          let! answer := on_core (core_answer query) in
          let! more := feed (Input_Answer answer) in
          drive fuel (effects ++ more)
      | Effect_Ingest run :: effects =>
          do! on_core (core_ingest run) in
          let! more := feed Input_Ingested in
          drive fuel (effects ++ more)
      | Effect_Done outcome :: _ => m_ret outcome
      | Effect_Violation breach :: _ => m_err (SyncError_Breach breach)
      end
  end.
End drive.

(** ** The two sessions *)

Section sessions.
Context `{MessageDecode} {C IoError ChainError : Type} `{!SyncCore C IoError ChainError}.

(** What is left of a session's state once its machine is dropped. *)
Definition session_end {MS A} (r : Outcome (Result (SyncError IoError ChainError) A * Session MS C IoError))
    : Outcome (Result (SyncError IoError ChainError) A * (C * Transport IoError)) :=
  match r with
  | Ret (r, s) => Ret (r, (core s, transport s))
  | Panic => Panic
  | Diverge => Diverge
  end.

(** Pulls this node up to date from the peer on the transport. *)
Definition pull (fuel : nat) : M (C * Transport IoError) (SyncError IoError ChainError) PullOutcome :=
  λ ct,
  match core_head ct.1 with
  | Ret (Ok head, c) =>
      let '(puller, opening) := Puller.new head in
      session_end (drive Puller.step fuel [opening] (MkSession puller c ct.2 []))
  | Ret (Err e, c) => Ret (Err e, (c, ct.2))
  | Panic => Panic
  | Diverge => Diverge
  end.

(** Serves the pull of the peer on the transport. *)
Definition serve (debug : bool) (fuel : nat)
    : M (C * Transport IoError) (SyncError IoError ChainError) ServeOutcome := λ ct,
  match core_head ct.1 with
  | Ret (Ok head, c) =>
      session_end (drive (Server.step head debug) fuel [] (MkSession Server.AwaitHello c ct.2 []))
  | Ret (Err e, c) => Ret (Err e, (c, ct.2))
  | Panic => Panic
  | Diverge => Diverge
  end.
End sessions.
