(* ===== verification/Contract.v ===== *)
(** * The driver contract: [crates/sync/src/lib.rs]

    What a driver may do with a machine, whoever the peer is: effects are
    resolved in order, a question is answered in its own shape and within the
    budgets the core owes, and a frame is fed only when nothing is pending. The
    step relation [contract_step] is that contract; what has happened is kept as
    a history of events. The machines' promises are invariants of its reachable
    configurations. *)

From S2P Require Import Prelude BTree Text Codec Externals Keys Subkey Msg Envelope Locator Sync.
From S2P Require Import Puller Server.

(** What has passed between machine, peer and core. *)
Inductive Event : Type :=
  | Received (m : Message)
  | Sent (m : Message)
  | Asked (q : Query) (a : Answer)
  | Ingested (run : list Envelope).

(** What the core owes a question beyond its shape. *)
Definition answer_ok `{Externals} (q : Query) (a : Answer) : Prop :=
  match q, a with
  | Query_ContainsEnvelope _, Answer_Contains _ => True
  | Query_Locator, Answer_Locator locator => locator ≠ [] ∧ length locator ≤ MAX_LOCATOR_LEN
  | Query_SplitPoint _, Answer_SplitPoint _ => True
  | Query_Segment after, Answer_Segment batch =>
      length batch ≤ MAX_BATCH_ENVELOPES ∧ ∃ tip, linked after batch tip
  | _, _ => False
  end.

Record Config `{Externals} (MS O : Type) := MkConfig {
  cfg_machine : MS;
  cfg_pending : list (Effect O);
  cfg_history : list Event;
}.
Arguments MkConfig {_ _ _} cfg_machine cfg_pending cfg_history.
Arguments cfg_machine {_ _ _} _.
Arguments cfg_pending {_ _ _} _.
Arguments cfg_history {_ _ _} _.

Section contract.
Context `{Externals} {MS O : Type}.
Variable machine : MS → Input → Outcome (MS * list (Effect O)).

(** How a driven session stands: running, ended by the machine, or broken by a
    panic. *)
Inductive Phase : Type :=
  | Running (c : Config MS O)
  | Finished (history : list Event) (outcome : O)
  | Violated (history : list Event) (b : Breach)
  | Broken.

(** The machine fed one input, the effects it returns queued behind [pending]. *)
Definition fed (ms : MS) (input : Input) (pending : list (Effect O)) (history : list Event) : Phase :=
  match machine ms input with
  | Ret (ms', effects) => Running (MkConfig ms' (pending ++ effects) history)
  | Panic | Diverge => Broken
  end.

Inductive contract_step : Phase → Phase → Prop :=
  | step_send ms m pending h :
      contract_step (Running (MkConfig ms (Effect_Send m :: pending) h))
        (Running (MkConfig ms pending (h ++ [Sent m])))
  | step_ask ms q a pending h :
      answer_ok q a →
      contract_step (Running (MkConfig ms (Effect_Ask q :: pending) h))
        (fed ms (Input_Answer a) pending (h ++ [Asked q a]))
  | step_ingest ms run pending h :
      contract_step (Running (MkConfig ms (Effect_Ingest run :: pending) h))
        (fed ms Input_Ingested pending (h ++ [Ingested run]))
  | step_receive ms m h :
      contract_step (Running (MkConfig ms [] h)) (fed ms (Input_Message m) [] (h ++ [Received m]))
  | step_done ms o pending h :
      contract_step (Running (MkConfig ms (Effect_Done o :: pending) h)) (Finished h o)
  | step_violation ms b pending h :
      contract_step (Running (MkConfig ms (Effect_Violation b :: pending) h)) (Violated h b).

Definition reachable (start : Config MS O) (p : Phase) : Prop := rtc contract_step (Running start) p.

(** An invariant of the running configurations, kept by every step. *)
Lemma reachable_inv (P : Phase → Prop) (start : Config MS O) :
  P (Running start) → (∀ p p', P p → contract_step p p' → P p') → ∀ p, reachable start p → P p.
Proof. intros H0 Hstep p Hp. revert H0. induction Hp as [|x y z Hxy _ IH]; [done|]. eauto. Qed.
End contract.
Arguments Running {_ _ _} c.
Arguments Finished {_ _ _} history outcome.
Arguments Violated {_ _ _} history b.
Arguments Broken {_ _ _}.

(** ** What a history holds *)

(** The envelopes handed to the chain, in order. *)
Definition ingested_of (h : list Event) : list Envelope :=
  h ≫= λ e, match e with Ingested run => run | _ => [] end.

(** The envelopes sent to the peer, in order. *)
Definition sent_of (h : list Event) : list Envelope :=
  h ≫= λ e, match e with Sent (Message_Envelopes m) => batch m | _ => [] end.

#[global] Arguments ingested_of : simpl never.
#[global] Arguments sent_of : simpl never.

(** Every run handed to the chain is non-empty and within the cap. *)
Definition runs_bounded (h : list Event) : Prop :=
  ∀ run, Ingested run ∈ h → run ≠ [] ∧ length run ≤ MAX_BATCH_ENVELOPES.

Lemma ingested_snoc h e :
  ingested_of (h ++ [e]) = ingested_of h ++ match e with Ingested run => run | _ => [] end.
Proof. unfold ingested_of. rewrite bind_app. simpl. by rewrite app_nil_r. Qed.

Lemma ingested_other h e :
  match e with Ingested _ => False | _ => True end → ingested_of (h ++ [e]) = ingested_of h.
Proof. intros He. rewrite ingested_snoc. destruct e; [..|done]; apply app_nil_r. Qed.

Lemma sent_snoc h e :
  sent_of (h ++ [e]) =
  sent_of h ++ match e with Sent (Message_Envelopes m) => batch m | _ => [] end.
Proof. unfold sent_of. rewrite bind_app. simpl. by rewrite app_nil_r. Qed.

Lemma runs_bounded_snoc h e :
  runs_bounded h →
  match e with Ingested run => run ≠ [] ∧ length run ≤ MAX_BATCH_ENVELOPES | _ => True end →
  runs_bounded (h ++ [e]).
Proof.
  intros Hh He run [Hin|<-%list_elem_of_singleton]%elem_of_app; [by apply Hh|done].
Qed.

(** ** The puller *)

Section puller.
Context `{Externals}.

(** What the puller has ingested by the time it stands at [cursor]: a run
    chaining there from an entry of the locator it sent. *)
Definition pulled (h : list Event) (run : list Envelope) (cursor : EnvelopeDigest) (n : N) : Prop :=
  ingested_of h = run ∧ n = N.of_nat (length run) ∧
  ∃ locator at_, Sent (Message_FindSplit (MkFindSplit locator)) ∈ h ∧
    Received (Message_Split (MkSplit at_)) ∈ h ∧ at_ ∈ locator ∧ linked at_ run cursor.

(** What an outcome says of the session. *)
Definition pull_reads (h : list Event) (o : PullOutcome) : Prop :=
  match o with
  | PullOutcome_AlreadyCurrent | PullOutcome_NoCommonHistory => ingested_of h = []
  | PullOutcome_Synced head ingested => ∃ run, pulled h run head ingested
  end.

(** The puller's state against its pending effects and what has happened. *)
Definition puller_inv (c : Config Puller.State PullOutcome) : Prop :=
  let h := cfg_history c in
  runs_bounded h ∧
  match cfg_machine c with
  | Puller.AwaitHello =>
      ingested_of h = [] ∧ (cfg_pending c = [] ∨ ∃ m, cfg_pending c = [Effect_Send m])
  | Puller.AwaitContains =>
      ingested_of h = [] ∧ ∃ d, cfg_pending c = [Effect_Ask (Query_ContainsEnvelope d)]
  | Puller.AwaitLocator => ingested_of h = [] ∧ cfg_pending c = [Effect_Ask Query_Locator]
  | Puller.AwaitSplit locator =>
      ingested_of h = [] ∧
      (cfg_pending c = [Effect_Send (Message_FindSplit (MkFindSplit locator))] ∨
       cfg_pending c = [] ∧ Sent (Message_FindSplit (MkFindSplit locator)) ∈ h)
  | Puller.AwaitBatch cursor n => cfg_pending c = [] ∧ ∃ run, pulled h run cursor n
  | Puller.AwaitIngest cursor n k =>
      ∃ run batch, cfg_pending c = [Effect_Ingest batch] ∧ batch ≠ [] ∧
        length batch ≤ MAX_BATCH_ENVELOPES ∧ k = N.of_nat (length batch) ∧
        ∃ mid, pulled h run mid n ∧ linked mid batch cursor
  | Puller.Terminal =>
      (∃ o, cfg_pending c = [Effect_Done o] ∧ pull_reads h o) ∨
      (∃ b, cfg_pending c = [Effect_Violation b])
  end.

(** Nothing is broken, and what ended says what happened. *)
Definition puller_phase (p : Phase) : Prop :=
  match p with
  | Running c => puller_inv c
  | Finished h o => runs_bounded h ∧ pull_reads h o
  | Violated h _ => runs_bounded h
  | Broken => False
  end.

Lemma pulled_snoc h e run cursor n :
  pulled h run cursor n → match e with Ingested _ => False | _ => True end →
  pulled (h ++ [e]) run cursor n.
Proof.
  intros (Hrun & Hn & locator & at_ & Hsent & Hrecv & Hat & Hl) He.
  split; [rewrite ingested_snoc, Hrun; destruct e; rewrite ?app_nil_r; done|]. split; [done|].
  exists locator, at_. rewrite !elem_of_app. auto.
Qed.

Lemma pulled_ingest h run cursor n batch tip :
  pulled h run cursor n → linked cursor batch tip →
  pulled (h ++ [Ingested batch]) (run ++ batch) tip (n + N.of_nat (length batch)).
Proof.
  intros (Hrun & Hn & locator & at_ & Hsent & Hrecv & Hat & Hl) Hb.
  split; [by rewrite ingested_snoc, Hrun|]. split; [rewrite length_app; lia|].
  exists locator, at_. rewrite !elem_of_app. split_and!; [by left|by left|done|].
  by eapply linked_app.
Qed.

Lemma puller_new_inv head :
  let '(st, e) := Puller.new head in puller_inv (MkConfig st [e] []).
Proof.
  split; [by intros run ?%not_elem_of_nil|]. split; [done|]. right. by eexists.
Qed.

(** A batch taken off the wire. *)
Lemma take_batch_inv h cursor n l :
  runs_bounded h → (∃ run, pulled h run cursor n) →
  puller_inv (MkConfig (Puller.take_batch cursor n l).1 (Puller.take_batch cursor n l).2
    (h ++ [Received (Message_Envelopes (MkEnvelopes l))])).
Proof.
  intros Hb [run Hrun]. split; [by apply runs_bounded_snoc|].
  unfold Puller.take_batch, Puller.breach. case_decide; [simpl; right; by eexists|].
  case_decide; [simpl; right; by eexists|].
  destruct (link_run cursor l) as [tip|b] eqn:Hl; simpl; [|right; by eexists].
  apply link_run_Ok in Hl. exists run, l. split_and!; [done|done|lia|done|].
  exists cursor. split; [by apply pulled_snoc|done].
Qed.

(** A frame fed with nothing pending. *)
Lemma puller_receive ms m h :
  puller_inv (MkConfig ms [] h) →
  puller_phase (fed Puller.step ms (Input_Message m) [] (h ++ [Received m])).
Proof.
  intros [Hb Hinv]. unfold fed. simpl in Hinv.
  assert (∀ m b, puller_phase (Running (MkConfig Puller.Terminal [Effect_Violation b] (h ++ [Received m])))) as Hbreach.
  { intros m' b. split; [by apply runs_bounded_snoc|]. right. by eexists. }
  destruct ms as [| | |locator|cursor n|cursor n k|]; simpl; try naive_solver.
  - destruct m as [[v d]|?|?|?|?|?|?]; simpl; try apply Hbreach.
    case_decide; [apply Hbreach|]. simpl. split; [by apply runs_bounded_snoc|]. simpl.
    split; [by rewrite ingested_other; [apply Hinv|]|]. by eexists.
  - destruct Hinv as (Hnone & [?|[_ Hsent]]); [done|].
    destruct m as [?|?|[at_]|?|?|?|?]; simpl; try apply Hbreach.
    + case_decide as Hat; [|apply Hbreach]. split; [by apply runs_bounded_snoc|]. split; [done|].
      exists []. simpl. split; [by rewrite ingested_other|]. split; [done|]. exists locator, at_.
      rewrite !elem_of_app. split_and!; [by left|by right; left|done|done].
    + split; [by apply runs_bounded_snoc|]. left. eexists. split; [done|]. simpl. by rewrite ingested_other.
  - destruct Hinv as (_ & run & Hrun).
    destruct m as [?|?|?|?|[l]|?|?]; simpl; try apply Hbreach.
    + pose proof (take_batch_inv h cursor n l Hb ltac:(by exists run)) as Hinv.
      by destruct (Puller.take_batch cursor n l).
    + split; [by apply runs_bounded_snoc|]. left. eexists. split; [done|]. exists run. by apply pulled_snoc.
Qed.

(** A question answered. *)
Lemma puller_answer ms q a pending h :
  answer_ok q a → puller_inv (MkConfig ms (Effect_Ask q :: pending) h) →
  puller_phase (fed Puller.step ms (Input_Answer a) pending (h ++ [Asked q a])).
Proof.
  intros Ha [Hb Hinv]. unfold fed. simpl in Hinv.
  assert (∀ q a, ingested_of (h ++ [Asked q a]) = ingested_of h) as Hing
    by (intros; by apply ingested_other).
  destruct ms as [| | |locator|cursor n|cursor n k|]; try naive_solver.
  - destruct Hinv as (Hnone & d & [= -> ->]). destruct a as [held|?|?|?]; try done.
    destruct held; simpl; (split; [by apply runs_bounded_snoc|]); simpl; [left; eexists; split; [done|]; simpl; by rewrite Hing|by rewrite Hing].
  - destruct Hinv as (Hnone & [= -> ->]). destruct a as [?|locator|?|?]; try done. simpl.
    rewrite decide_True by done. split; [by apply runs_bounded_snoc|]. simpl. rewrite Hing. by split; [|left].
Qed.

Lemma puller_step_inv p p' : puller_phase p → contract_step Puller.step p p' → puller_phase p'.
Proof.
  intros Hinv Hstep. destruct Hstep as [ms m pending h|ms q a pending h Ha|ms run pending h|ms m h|
    ms o pending h|ms b pending h]; [|by apply puller_answer| |by apply puller_receive|..];
    destruct Hinv as [Hb Hinv]; simpl in Hinv; [..|done].
  - split; [by apply runs_bounded_snoc|]. simpl. rewrite ingested_other by done.
    destruct ms as [| | |locator|cursor n|cursor n k|]; try naive_solver.
    destruct Hinv as (Hnone & [[= -> ->]|[? _]]); [|done]. split; [done|]. right.
    split; [done|]. rewrite elem_of_app. right. by left.
  - destruct ms as [| | |locator|cursor n|cursor n k|]; try naive_solver.
    destruct Hinv as (run' & batch & [= -> ->] & Hne & Hlen & -> & mid & Hrun & Hl).
    split; [by apply runs_bounded_snoc|]. split; [done|]. exists (run' ++ batch). by apply pulled_ingest with mid.
  - split; [done|]. destruct ms as [| | |locator|cursor n|cursor n k|]; naive_solver.
Qed.
End puller.

(** ** The server *)

Section server.
Context `{Externals}.
Variables (head : EnvelopeDigest) (debug : bool).

(** What the server has streamed by the time it stands at [cursor]. *)
Definition served (h : list Event) (run : list Envelope) (cursor : EnvelopeDigest) (n : N) : Prop :=
  sent_of h = run ∧ n = N.of_nat (length run) ∧
  ∃ at_, Sent (Message_Split (MkSplit at_)) ∈ h ∧ linked at_ run cursor.

Definition batches_bounded (h : list Event) : Prop :=
  ∀ l, Sent (Message_Envelopes (MkEnvelopes l)) ∈ h → l ≠ [] ∧ length l ≤ MAX_BATCH_ENVELOPES.

Definition serve_reads (h : list Event) (o : ServeOutcome) : Prop :=
  match o with
  | ServeOutcome_NoCommonHistory => sent_of h = []
  | ServeOutcome_Served cursor sent =>
      Sent (Message_CaughtUp MkCaughtUp) ∈ h ∧ ∃ run, served h run cursor sent
  end.

(** A batch on its way out, on top of what was served up to [mid]. *)
Definition sending (h : list Event) (l : list Envelope) (cursor : EnvelopeDigest) (n : N) : Prop :=
  l ≠ [] ∧ length l ≤ MAX_BATCH_ENVELOPES ∧
  ∃ run mid n', served h run mid n' ∧ linked mid l cursor ∧ n = (n' + N.of_nat (length l))%N.

Definition server_inv (c : Config Server.State ServeOutcome) : Prop :=
  let h := cfg_history c in
  batches_bounded h ∧
  match cfg_machine c with
  | Server.AwaitHello => sent_of h = [] ∧ cfg_pending c = []
  | Server.AwaitFindSplit =>
      sent_of h = [] ∧ (cfg_pending c = [] ∨ ∃ m, cfg_pending c = [Effect_Send (Message_Hello m)])
  | Server.AwaitSplitPoint =>
      sent_of h = [] ∧ ∃ locator, cfg_pending c = [Effect_Ask (Query_SplitPoint locator)] ∧
        locator ≠ [] ∧ length locator ≤ MAX_LOCATOR_LEN
  | Server.AwaitSegment cursor n =>
      (sent_of h = [] ∧ n = 0%N ∧
        cfg_pending c = [Effect_Send (Message_Split (MkSplit cursor)); Effect_Ask (Query_Segment cursor)]) ∨
      ((∃ run, served h run cursor n) ∧ cfg_pending c = [Effect_Ask (Query_Segment cursor)]) ∨
      (∃ l, sending h l cursor n ∧
        cfg_pending c = [Effect_Send (Message_Envelopes (MkEnvelopes l)); Effect_Ask (Query_Segment cursor)])
  | Server.Terminal =>
      (∃ cursor n run, served h run cursor n ∧
        cfg_pending c = [Effect_Send (Message_CaughtUp MkCaughtUp); Effect_Done (ServeOutcome_Served cursor n)]) ∨
      (sent_of h = [] ∧
        cfg_pending c = [Effect_Send (Message_NoSplit MkNoSplit); Effect_Done ServeOutcome_NoCommonHistory]) ∨
      (∃ o, serve_reads h o ∧ cfg_pending c = [Effect_Done o]) ∨
      (∃ b, cfg_pending c = [Effect_Violation b])
  end.

Definition server_phase (p : Phase) : Prop :=
  match p with
  | Running c => server_inv c
  | Finished h o => batches_bounded h ∧ serve_reads h o
  | Violated h _ => batches_bounded h
  | Broken => False
  end.

Lemma batches_bounded_snoc h e :
  batches_bounded h →
  match e with
  | Sent (Message_Envelopes m) => batch m ≠ [] ∧ length (batch m) ≤ MAX_BATCH_ENVELOPES
  | _ => True
  end → batches_bounded (h ++ [e]).
Proof.
  intros Hh He l [Hin|<-%list_elem_of_singleton]%elem_of_app; [by apply Hh|done].
Qed.

Lemma sent_other h e :
  match e with Sent (Message_Envelopes _) => False | _ => True end → sent_of (h ++ [e]) = sent_of h.
Proof. intros He. rewrite sent_snoc. destruct e as [|[]| |]; [..|done| | | |]; try done; apply app_nil_r. Qed.

Lemma served_snoc h e run cursor n :
  served h run cursor n → match e with Sent (Message_Envelopes _) => False | _ => True end →
  served (h ++ [e]) run cursor n.
Proof.
  intros (Hrun & Hn & at_ & Hat & Hl) He. split; [by rewrite sent_other|]. split; [done|].
  exists at_. rewrite elem_of_app. auto.
Qed.

Lemma served_send h l cursor n :
  sending h l cursor n → ∃ run, served (h ++ [Sent (Message_Envelopes (MkEnvelopes l))]) run cursor n.
Proof.
  intros (_ & _ & run & mid & n' & (Hrun & -> & at_ & Hat & Hl) & Hlink & ->).
  exists (run ++ l). split; [by rewrite sent_snoc, Hrun|]. split; [rewrite length_app; lia|].
  exists at_. split; [rewrite elem_of_app; by left|by eapply linked_app].
Qed.

Lemma assert_linked_ok cursor l tip : linked cursor l tip → Server.assert_linked cursor l = true.
Proof.
  revert cursor. induction l as [|e l IH]; intros cursor; simpl; [done|].
  intros (Hp & d & Hd & Hl). unfold prev_of in Hp. rewrite decide_True by done. rewrite Hd. by apply IH.
Qed.

(** A segment within its budgets is sent whole, and the next asked for. *)
Lemma send_segment_ok cursor n l tip :
  l ≠ [] → length l ≤ MAX_BATCH_ENVELOPES → linked cursor l tip →
  Server.send_segment debug cursor n l =
  Ret (Server.AwaitSegment tip (n + N.of_nat (length l)),
       [Effect_Send (Message_Envelopes (MkEnvelopes l)); Effect_Ask (Query_Segment tip)]).
Proof.
  intros Hne Hlen Hl. unfold Server.send_segment.
  rewrite decide_False by done. rewrite decide_False by lia.
  rewrite (assert_linked_ok _ _ _ Hl), andb_false_r.
  destruct (last l) as [e|] eqn:Hlast; [|by apply last_None in Hlast].
  by rewrite (linked_last _ _ _ _ Hl Hlast).
Qed.

Lemma server_new_inv : server_inv (MkConfig Server.AwaitHello [] []).
Proof. split; [by intros l ?%not_elem_of_nil|]. done. Qed.

(** A frame fed with nothing pending. *)
Lemma server_receive ms m h :
  server_inv (MkConfig ms [] h) →
  server_phase (fed (Server.step head debug) ms (Input_Message m) [] (h ++ [Received m])).
Proof.
  intros [Hb Hinv]. unfold fed. simpl in Hinv.
  assert (∀ m b, server_phase (Running (MkConfig Server.Terminal [Effect_Violation b] (h ++ [Received m])))) as Hbreach.
  { intros m' b. split; [by apply batches_bounded_snoc|]. right. right. right. by eexists. }
  destruct ms as [| | |cursor n|]; simpl; try naive_solver.
  - destruct m as [[v d]|?|?|?|?|?|?]; simpl; try apply Hbreach.
    case_decide; [apply Hbreach|]. simpl. split; [by apply batches_bounded_snoc|]. simpl.
    split; [by rewrite sent_other; [apply Hinv|]|]. right. by eexists.
  - destruct m as [?|[locator]|?|?|?|?|?]; simpl; try apply Hbreach.
    case_decide; [apply Hbreach|]. case_decide; [apply Hbreach|]. simpl.
    split; [by apply batches_bounded_snoc|]. simpl.
    split; [by rewrite sent_other; [apply Hinv|]|]. exists locator. split_and!; [done..|lia].
Qed.

(** A question answered. *)
Lemma server_answer ms q a pending h :
  answer_ok q a → server_inv (MkConfig ms (Effect_Ask q :: pending) h) →
  server_phase (fed (Server.step head debug) ms (Input_Answer a) pending (h ++ [Asked q a])).
Proof.
  intros Ha [Hb Hinv]. unfold fed. simpl in Hinv.
  destruct ms as [| | |cursor n|]; try naive_solver.
  - destruct Hinv as (Hnone & locator & [= -> ->] & _). destruct a as [?|?|at_|?]; try done.
    destruct at_ as [at_|]; simpl; (split; [by apply batches_bounded_snoc|]); simpl.
    + left. split; [by rewrite sent_other|done].
    + right. left. split; [by rewrite sent_other|done].
  - destruct Hinv as [(_ & _ & ?)|[([run Hrun] & [= -> ->])|(l & _ & ?)]]; [done| |done].
    destruct a as [?|?|?|l]; try done. destruct Ha as [Hlen [tip Hl]]. simpl.
    destruct (decide (l = [])) as [->|Hne].
    + unfold Server.send_segment. rewrite decide_True by done. simpl.
      split; [by apply batches_bounded_snoc|]. left. exists cursor, n, run. split; [by apply served_snoc|done].
    + rewrite (send_segment_ok cursor n l tip) by done. split; [by apply batches_bounded_snoc|].
      right. right. exists l. split; [|done]. split; [done|]. split; [done|]. exists run, cursor, n.
      split; [by apply served_snoc|done].
Qed.

Lemma server_step_inv p p' :
  server_phase p → contract_step (Server.step head debug) p p' → server_phase p'.
Proof.
  intros Hinv Hstep. destruct Hstep as [ms m pending h|ms q a pending h Ha|ms run pending h|ms m h|
    ms o pending h|ms b pending h]; [|by apply server_answer| |by apply server_receive|..];
    destruct Hinv as [Hb Hinv]; simpl in Hinv; [..|done].
  - destruct ms as [| | |cursor n|]; try naive_solver.
    + destruct Hinv as (Hnone & [?|[m' [= -> ->]]]); [done|].
      split; [by apply batches_bounded_snoc|]. split; [by simpl; rewrite sent_other|by left].
    + destruct Hinv as [(Hnone & -> & [= -> ->])|[(_ & ?)|(l & Hl & [= -> ->])]]; [|done|].
      * split; [by apply batches_bounded_snoc|]. right. left. split; [|done]. exists [].
        split; [by simpl; rewrite sent_other|]. split; [done|]. exists cursor. simpl.
        rewrite elem_of_app. split; [right; by left|done].
      * split; [apply batches_bounded_snoc; [done|by split; apply Hl]|]. right. left.
        split; [by apply served_send|done].
    + split; [|right; right; left].
      * apply batches_bounded_snoc; [done|]. naive_solver.
      * destruct Hinv as [(cursor & n & run & Hrun & [= -> ->])|[(Hnone & [= -> ->])|[(o & _ & ?)|(b & ?)]]];
          [| |done..]; eexists; (split; [|done]).
        { split; [apply elem_of_app; right; by left|]. exists run. by apply served_snoc. }
        { simpl. by rewrite sent_other. }
  - destruct ms as [| | |cursor n|]; naive_solver.
  - split; [done|]. destruct ms as [| | |cursor n|]; naive_solver.
Qed.
End server.
