(* ===== verification/DriverSpec.v ===== *)
(** * The driver keeps the contract

    [SyncCoreSpec] is what a core promises a session; against it, [drive] is
    shown to refine [contract_step], to end — on any script — given fuel for the
    bytes the peer sends and the path the core streams, and to leave the core in
    order. *)

From S2P Require Import Prelude BTree Text Codec Externals Keys Subkey Msg Envelope Locator Sync.
From S2P Require Import Frame Puller Server Chain SyncDriver Contract.

(** ** The core's promise *)

Class SyncCoreSpec `{Externals} (C IoError ChainError : Type) `{!SyncCore C IoError ChainError} := {
  core_ok : C → Prop;
  (* What taking a run does to a core, and how it may change when it fails. *)
  core_took : C → list Envelope → C → Prop;
  core_evolves : C → C → Prop;
  (* The runs that may be ingested. *)
  run_ok : list Envelope → Prop;
  (* How much of the canonical path is left after a digest. *)
  core_rest : C → EnvelopeDigest → nat;
  core_length : C → nat;

  core_took_nil c : core_took c [] c;
  core_took_app c run c' run' c'' :
    core_took c run c' → core_took c' run' c'' → core_took c (run ++ run') c'';
  core_took_evolves c run c' : core_took c run c' → core_evolves c c';
  core_evolves_trans c c' c'' : core_evolves c c' → core_evolves c' c'' → core_evolves c c'';
  (* Short enough to be sampled within a locator, until something is ingested. *)
  locatable : C → Prop;
  locatable_took c c' : core_took c [] c' → locatable c → locatable c';
  core_rest_length c d : core_ok c → core_rest c d ≤ core_length c;
  core_head_spec c : core_ok c → wp core_head c (λ _ c', c' = c) (λ _ c', c' = c);
  core_answer_spec q c :
    core_ok c → (q = Query_Locator → locatable c) →
    wp (core_answer q) c
      (λ a c', c' = c ∧ answer_ok q a ∧
        match q, a with
        | Query_Segment after, Answer_Segment l =>
            l ≠ [] → ∀ tip, linked after l tip → core_rest c tip < core_rest c after
        | _, _ => True
        end)
      (λ e c', c' = c ∧ ∀ b, e ≠ SyncError_Breach b);
  core_ingest_spec run c :
    core_ok c → run_ok run →
    wp (core_ingest run) c (λ _ c', core_ok c' ∧ core_took c run c')
      (λ e c', core_ok c' ∧ core_evolves c c' ∧ ∀ b, e ≠ SyncError_Breach b);
}.

(** ** Bytes *)

Definition read_bytes {IoError} (r : Read IoError) : nat :=
  match r with Read_Bytes bytes => length bytes | _ => 0 end.

(** The bytes a session can still read. *)
Definition bytes_left {MS C IoError} (s : Session MS C IoError) : nat :=
  length (inbound s) + sum_list_with read_bytes (reads (transport s)).

(** What sending a message writes. *)
Definition frame_bytes `{Externals} (m : Message) : list u8 :=
  match encode (ser_message m) with
  | Ok body => u32_to_be_bytes (N.of_nat (length body)) ++ body
  | Err _ => []
  end.

(** What a history has written. *)
Definition frames_of `{Externals} (h : list Event) : list u8 :=
  h ≫= λ e, match e with Sent m => frame_bytes m | _ => [] end.

Section frames.
Context `{MessageDecode} {IoError ChainError : Type}.

Lemma frames_snoc h e :
  frames_of (h ++ [e]) = frames_of h ++ match e with Sent m => frame_bytes m | _ => [] end.
Proof. unfold frames_of. rewrite bind_app. simpl. by rewrite app_nil_r. Qed.

Lemma frames_other h e : match e with Sent _ => False | _ => True end → frames_of (h ++ [e]) = frames_of h.
Proof. intros He. rewrite frames_snoc. destruct e; [|done|..]; apply app_nil_r. Qed.

(** The codec on a buffer: it never panics, keeps a buffer it takes nothing
    from, and takes at least a prefix with a message. *)
Lemma decode_cases (src : list u8) :
  match decode (IoError:=IoError) src with
  | Ret (Ok (Some m), src') => length src' + 4 ≤ length src ∧ ∃ body, wire_decode body = Ok m
  | Ret (Ok None, src') => src' = src
  | Ret (Err _, src') => length src' ≤ length src
  | Panic | Diverge => False
  end.
Proof.
  unfold decode, get_prefix. case_decide as H4; [|done].
  destruct (_ <? _)%N; [done|]. case_decide as Hlen; [done|].
  destruct (wire_decode _) as [m|e] eqn:Hm; rewrite !length_drop; [|lia].
  split; [lia|by eexists].
Qed.

(** Encoding into an empty buffer. *)
Lemma encode_cases (m : Message) :
  match encode_message (IoError:=IoError) m [] with
  | Ret (Ok _, out) => out = frame_bytes m
  | Ret (Err _, _) => True
  | Panic | Diverge => False
  end.
Proof.
  unfold encode_message, frame_bytes. destruct (encode _) as [body|e]; [|done].
  unfold frame_len, u32_try_from_u64. case_decide; [|done]. by destruct (_ <=? _)%N.
Qed.

Lemma next_frame_loop_cases (script : list (Read IoError)) (buffer : list u8) :
  match next_frame_loop (ChainError:=ChainError) script buffer with
  | Ret (r, (script', buffer')) =>
      let left := length buffer' + sum_list_with read_bytes script' in
      let had := length buffer + sum_list_with read_bytes script in
      match r with
      | Ok (Some m) => left + 4 ≤ had ∧ ∃ body, wire_decode body = Ok m
      | Ok None => True
      | Err e => ∀ b, e ≠ SyncError_Breach b
      end
  | Panic | Diverge => False
  end.
Proof.
  revert buffer. induction script as [|r script IH]; intros buffer; simpl;
    pose proof (decode_cases buffer) as Hd;
    destruct (decode buffer) as [[[[m|]|e] buffer']| |]; try done; try lia; simpl.
  - split; [lia|apply Hd].
  - by case_decide.
  - split; [lia|apply Hd].
  - subst buffer'. destruct r as [bytes|e|]; simpl; [|done..].
    case_decide as Hnil; [by case_decide|]. specialize (IH (buffer ++ bytes)).
    destruct (next_frame_loop script (buffer ++ bytes)) as [[[[m|]|e] [script' buffer']]| |]; try done.
    rewrite length_app in IH. destruct IH as [? ?]. split; [lia|done].
Qed.
End frames.

(** ** A machine's progress *)

(** What makes a machine drivable: only a received batch is ever ingested, and
    every resolved effect lowers a measure that a received frame raises by less
    than four, the bytes of a frame's prefix. *)
Record Drivable `{Externals} {MS C IoError ChainError O : Type} `{!SyncCore C IoError ChainError}
    `{!SyncCoreSpec C IoError ChainError}
    (machine : MS → Input → Outcome (MS * list (Effect O)))
    (weight : C → MS → list (Effect O) → nat) : Prop := {
  ingests_received ms input ms' effects run :
    machine ms input = Ret (ms', effects) → Effect_Ingest run ∈ effects →
    input = Input_Message (Message_Envelopes (MkEnvelopes run));
  weight_send c ms m pending :
    weight c ms pending < weight c ms (Effect_Send m :: pending);
  weight_ask c ms q a pending ms' effects :
    core_ok c → machine ms (Input_Answer a) = Ret (ms', effects) → answer_ok q a →
    match q, a with
    | Query_Segment after, Answer_Segment l =>
        l ≠ [] → ∀ tip, linked after l tip → core_rest c tip < core_rest c after
    | _, _ => True
    end → weight c ms' (pending ++ effects) < weight c ms (Effect_Ask q :: pending);
  weight_ingest c c' ms run pending ms' effects :
    machine ms Input_Ingested = Ret (ms', effects) →
    weight c' ms' (pending ++ effects) < weight c ms (Effect_Ingest run :: pending);
  weight_receive c ms m ms' effects :
    machine ms (Input_Message m) = Ret (ms', effects) → weight c ms' effects < 4 + weight c ms [];
}.

Section drive.
Context `{MessageDecode} {MS C IoError ChainError O : Type}.
Context `{!SyncCore C IoError ChainError} `{!SyncCoreSpec C IoError ChainError}.
Variable machine : MS → Input → Outcome (MS * list (Effect O)).
Variable weight : C → MS → list (Effect O) → nat.
Hypothesis Hdrivable : Drivable machine weight.
Variable start : Config MS O.
Hypothesis Hunbroken : ¬ reachable machine start Broken.
Hypothesis Hadmitted : ∀ body m, wire_decode body = Ok (Message_Envelopes m) → run_ok (batch m).
Variables (c0 : C) (w0 : list u8).
Hypothesis Hlocator : ∀ ms pending h,
  reachable machine start (Running (MkConfig ms (Effect_Ask Query_Locator :: pending) h)) →
  ingested_of h = [] ∧ locatable c0.

(** A session on the way: its configuration is reachable, its history is what
    has been written, and its core has taken what it ingested. *)
Record on_the_way (pending : list (Effect O)) (s : Session MS C IoError) (h : list Event) : Prop := {
  way_reachable : reachable machine start (Running (MkConfig (machine_state s) pending h));
  way_core : core_ok (core s);
  way_took : core_took c0 (ingested_of h) (core s);
  way_runs run : Effect_Ingest run ∈ pending → run_ok run;
  way_written : written (transport s) = w0 ++ frames_of h;
}.

Definition left (pending : list (Effect O)) (s : Session MS C IoError) : nat :=
  bytes_left s + weight (core s) (machine_state s) pending.

(** How a driven session ends: as a session of the contract does, or cut short
    by its core or its transport. *)
Definition drive_ends (s : Session MS C IoError) (p : list Event → @Phase _ MS O → Prop) : Prop :=
  core_ok (core s) ∧
  ∃ h ph, written (transport s) = w0 ++ frames_of h ∧ reachable machine start ph ∧ p h ph.

Definition ended_ok (s : Session MS C IoError) (o : O) (h : list Event) (ph : @Phase _ MS O) : Prop :=
  ph = Finished h o ∧ core_took c0 (ingested_of h) (core s).

Definition ended_err (s : Session MS C IoError) (e : SyncError IoError ChainError) (h : list Event)
    (ph : @Phase _ MS O) : Prop :=
  core_evolves c0 (core s) ∧
  match e with
  | SyncError_Breach b => ph = Violated h b
  | _ => ∃ c, ph = Running c ∧ cfg_history c = h
  end.

Lemma way_step pending s h p :
  on_the_way pending s h →
  contract_step machine (Running (MkConfig (machine_state s) pending h)) p → reachable machine start p.
Proof using. intros Hway Hstep. eapply rtc_r; [by apply (way_reachable _ _ _ Hway)|done]. Qed.

(** A session cut short where it stands. *)
Lemma cut_short_wp pending s s' h (e : SyncError IoError ChainError) :
  on_the_way pending s h → core_ok (core s') → core_evolves c0 (core s') →
  written (transport s') = written (transport s) → (∀ b, e ≠ SyncError_Breach b) →
  drive_ends s' (ended_err s' e).
Proof using.
  intros [Hreach _ _ _ Hw] Hc Hev Hw' He. split; [done|].
  exists h, (Running (MkConfig (machine_state s) pending h)). split; [by rewrite Hw'|].
  split; [done|]. split; [done|]. destruct e; try (by eexists). by destruct (He b).
Qed.

(** What a session's core has gone through. *)
Lemma way_evolved pending s h : on_the_way pending s h → core_evolves c0 (core s).
Proof using. intros Hway. apply core_took_evolves with (ingested_of h), Hway. Qed.

Ltac cut_here Hway :=
  eapply (cut_short_wp _ _ _ _ _ Hway);
    [exact (way_core _ _ _ Hway)|exact (way_evolved _ _ _ Hway)|reflexivity|done].

(** Feeding the machine, once the core and the transport have done their part:
    it does not break, and the session goes on. *)
Lemma feed_wp input pending head_ s c1 tr buffer h e (Q : list (Effect O) → Session MS C IoError → Prop) X :
  on_the_way (head_ ++ pending) s h →
  contract_step machine (Running (MkConfig (machine_state s) (head_ ++ pending) h))
    (fed machine (machine_state s) input pending (h ++ [e])) →
  core_ok c1 → core_took c0 (ingested_of (h ++ [e])) c1 →
  written tr = written (transport s) → match e with Sent _ => False | _ => True end →
  (∀ run, input = Input_Message (Message_Envelopes (MkEnvelopes run)) → run_ok run) →
  (∀ ms effects, machine (machine_state s) input = Ret (ms, effects) →
    let s' := MkSession ms c1 tr buffer in
    on_the_way (pending ++ effects) s' (h ++ [e]) → Q effects s') →
  wp (feed (ChainError:=ChainError) machine input) (MkSession (machine_state s) c1 tr buffer) Q X.
Proof using Hunbroken Hdrivable.
  intros Hway Hstep Hc Htook Htr He Hrun HQ. pose proof (way_step _ _ _ _ Hway Hstep) as Hreach.
  unfold wp, feed. unfold fed in Hreach. simpl.
  destruct (machine (machine_state s) input) as [[ms effects]| |] eqn:Hm; [|by destruct Hunbroken..].
  destruct Hway as [_ _ _ Hruns Hw]. apply (HQ _ _ eq_refl). split; simpl; [done..| |].
  - intros run [Hin|Hin]%elem_of_app; [apply Hruns, elem_of_app; by right|].
    apply Hrun. by apply (ingests_received _ _ Hdrivable _ _ _ _ _ Hm).
  - by rewrite Htr, frames_other.
Qed.

Lemma send_wp m pending s h (Q : () → Session MS C IoError → Prop) (X : SyncError IoError ChainError → _ → Prop) :
  on_the_way (Effect_Send m :: pending) s h →
  (∀ t, bytes_left (MkSession (machine_state s) (core s) t (inbound s)) ≤ bytes_left s →
    let s' := MkSession (machine_state s) (core s) t (inbound s) in
    on_the_way pending s' (h ++ [Sent m]) → Q () s') →
  (∀ e s', drive_ends s' (ended_err s' e) → X e s') →
  wp (send m) s Q X.
Proof using.
  intros Hway HQ HX. pose proof (way_step _ _ _ _ Hway (step_send _ _ _ _ _)) as Hreach.
  pose proof (encode_cases (IoError:=IoError) m) as Henc. unfold wp, send.
  destruct (encode_message m []) as [[[[]|e] out]| |]; try done.
  2: { apply HX. cut_here Hway. }
  subst out. unfold write_all.
  assert (∀ ws, on_the_way pending (MkSession (machine_state s) (core s)
    (MkTransport (reads (transport s)) ws (written (transport s) ++ frame_bytes m)) (inbound s))
    (h ++ [Sent m])) as Hnext.
  { intros ws. destruct Hway as [_ Hc Htook Hruns Hw]. split; simpl; [done..| | |].
    - by rewrite ingested_other.
    - intros run Hin. apply Hruns. by right.
    - by rewrite frames_snoc, Hw, app_assoc. }
  destruct (writes (transport s)) as [|[e|] ws].
  - apply HQ; [done|apply Hnext].
  - apply HX. cut_here Hway.
  - apply HQ; [done|apply Hnext].
Qed.

(** [drive] refines the contract, and ends. *)
Lemma drive_wp (fuel : nat) (pending : list (Effect O)) (s : Session MS C IoError) h :
  on_the_way pending s h → left pending s < fuel →
  wp (drive machine fuel pending) s (λ o s', drive_ends s' (ended_ok s' o))
    (λ e s', drive_ends s' (ended_err s' e)).
Proof using Hunbroken Hdrivable Hadmitted Hlocator.
  revert pending s h. induction fuel as [|fuel IH]; intros pending s h Hway Hfuel; [lia|]. simpl.
  destruct pending as [|[m|q|run|o|b] pending].
  - (* the next frame *)
    apply wp_bind. unfold wp, next_frame.
    pose proof (next_frame_loop_cases (ChainError:=ChainError) (reads (transport s)) (inbound s)) as Hn.
    destruct (next_frame_loop _ _) as [[[[m|]|e] [script buffer]]| |]; try done.
    + destruct Hn as [Hbytes [body Hbody]].
      apply wp_bind. eapply (feed_wp _ [] [] s (core s) _ _ h (Received m));
        [done|apply step_receive|apply Hway| |done|done| |].
      { rewrite ingested_other by done. apply Hway. }
      { intros run [= ->]. by apply (Hadmitted body) in Hbody. }
      intros ms effects Hm s' Hway'. apply (IH _ _ _ Hway').
      pose proof (weight_receive _ _ Hdrivable (core s) _ _ _ _ Hm).
      unfold left, bytes_left in *. simpl in *. lia.
    + cut_here Hway.
    + cut_here Hway.
  - apply wp_bind. eapply send_wp; [done| |done].
    intros t Ht s' Hway'. apply (IH _ _ _ Hway').
    pose proof (weight_send _ _ Hdrivable (core s) (machine_state s) m pending).
    unfold left in *. unfold s'. simpl in *. lia.
  - apply wp_bind. unfold wp at 1, on_core.
    assert (q = Query_Locator → locatable (core s)) as Hloc.
    { intros ->. destruct Hway as [Hreach _ Htook _ _].
      destruct (Hlocator _ _ _ Hreach) as [Hnone Hloc]. rewrite Hnone in Htook. by eapply locatable_took. }
    pose proof (core_answer_spec q (core s) (way_core _ _ _ Hway) Hloc) as Ha. unfold wp in Ha.
    destruct (core_answer q (core s)) as [[[a|e] c]| |]; try done.
    2: { destruct Ha as [-> He]. cut_here Hway. }
    destruct Ha as (-> & Hok & Hrest).
    apply wp_bind. eapply (feed_wp _ pending [Effect_Ask q] s (core s) _ _ h (Asked q a));
      [done|by apply step_ask|apply Hway| |done..|].
    { rewrite ingested_other by done. apply Hway. }
    intros ms effects Hm s' Hway'. apply (IH _ _ _ Hway').
    pose proof (weight_ask _ _ Hdrivable (core s) _ q a pending _ _ (way_core _ _ _ Hway) Hm Hok Hrest).
    unfold left, bytes_left in *. simpl in *. lia.
  - apply wp_bind. unfold wp at 1, on_core.
    pose proof (core_ingest_spec run (core s) (way_core _ _ _ Hway)
      (way_runs _ _ _ Hway run ltac:(by left))) as Hi. unfold wp in Hi.
    destruct (core_ingest run (core s)) as [[[[]|e] c]| |]; try done.
    2: { destruct Hi as (Hc & Hev & He). eapply (cut_short_wp _ _ _ _ _ Hway); [done| |done..].
      eapply core_evolves_trans; [exact (way_evolved _ _ _ Hway)|done]. }
    destruct Hi as [Hc Htook].
    apply wp_bind. eapply (feed_wp _ pending [Effect_Ingest run] s c _ _ h (Ingested run));
      [done|apply step_ingest|done| |done..|].
    { rewrite ingested_snoc. eapply core_took_app; [apply Hway|done]. }
    intros ms effects Hm s' Hway'. apply (IH _ _ _ Hway').
    pose proof (weight_ingest _ _ Hdrivable (core s) c _ run pending _ _ Hm).
    unfold left, bytes_left in *. simpl in *. lia.
  - apply wp_ret. split; [apply Hway|]. exists h, (Finished h o). split; [apply Hway|].
    split; [eapply way_step; [done|apply step_done]|]. split; [done|apply Hway].
  - apply wp_err. split; [apply Hway|]. exists h, (Violated h b). split; [apply Hway|].
    split; [eapply way_step; [done|apply step_violation]|]. split; [by eapply way_evolved|done].
Qed.
End drive.
