(* ===== verification/SessionSpec.v ===== *)
(** * The two sessions, against a core

    Both machines are drivable, so both sessions end on any script in a phase
    their contract allows. *)

From S2P Require Import Prelude BTree Text Codec Externals Keys Subkey Msg Envelope Locator Sync.
From S2P Require Import Frame Puller Server Chain SyncDriver Contract DriverSpec.

Section sessions.
Context `{MessageDecode} {C IoError ChainError : Type}.
Context `{!SyncCore C IoError ChainError} `{!SyncCoreSpec C IoError ChainError}.
Implicit Types (c : C) (t : Transport IoError).

(** ** Weights *)

Definition puller_cost (e : Effect PullOutcome) : nat :=
  match e with
  | Effect_Ask (Query_ContainsEnvelope _) => 3
  | Effect_Ask Query_Locator => 2
  | _ => 1
  end.

Definition puller_weight (c : C) (ms : Puller.State) (pending : list (Effect PullOutcome)) : nat :=
  sum_list_with puller_cost pending.

Definition server_cost c (e : Effect ServeOutcome) : nat :=
  match e with
  | Effect_Ask (Query_SplitPoint _) => 2 * core_length c + 6
  | Effect_Ask (Query_Segment after) => 2 * core_rest c after + 3
  | _ => 1
  end.

Definition server_weight (c : C) (ms : Server.State) (pending : list (Effect ServeOutcome)) : nat :=
  match ms with
  | Server.AwaitHello | Server.AwaitFindSplit => 2 * core_length c + 6
  | _ => 0
  end + sum_list_with (server_cost c) pending.

Lemma puller_drivable : Drivable (C:=C) Puller.step puller_weight.
Proof.
  split; unfold puller_weight.
  - intros ms input ms' effects run Hm Hin. revert Hm Hin.
    destruct ms, input as [[]|[[]| | |]|]; simpl; intros; repeat (case_match || case_decide); simplify_eq/=;
      try set_solver.
    unfold Puller.take_batch, Puller.breach in *. repeat case_match; simplify_eq/=; set_solver.
  - intros c ms m pending. simpl. lia.
  - intros c ms q a pending ms' effects _ Hm Ha _. rewrite sum_list_with_app.
    destruct q, a as [[]| | |]; try done; destruct ms; simpl in *; repeat case_match; simplify_eq/=; lia.
  - intros c c' ms run pending ms' effects Hm. rewrite sum_list_with_app.
    destruct ms; simplify_eq/=; lia.
  - intros c ms m ms' effects Hm.
    destruct ms, m as [| | | |[]| |]; simpl in *; repeat (case_match || case_decide); simplify_eq/=; try lia.
    unfold Puller.take_batch, Puller.breach in *. repeat case_match; simplify_eq/=; lia.
Qed.

Lemma send_segment_weight c (debug : bool) cursor n l after ms' effects :
  answer_ok (Query_Segment after) (Answer_Segment l) →
  (l ≠ [] → ∀ tip, linked after l tip → core_rest c tip < core_rest c after) →
  Server.send_segment debug cursor n l = Ret (ms', effects) →
  server_weight c ms' effects < 2 * core_rest c after + 3.
Proof.
  intros [Hlen [tip Hl]] Hrest. unfold Server.send_segment, server_weight.
  case_decide as Hnil; [intros [= <- <-]; simpl; lia|].
  case_decide; [lia|]. destruct (debug && _); [done|].
  destruct (last l) as [e|] eqn:Hlast; [|done].
  rewrite (linked_last _ _ _ _ Hl Hlast). intros [= <- <-]. specialize (Hrest Hnil tip Hl). simpl. lia.
Qed.

Lemma server_drivable head debug : Drivable (C:=C) (Server.step head debug) server_weight.
Proof.
  split.
  - intros ms input ms' effects run Hm Hin. exfalso. revert Hm Hin.
    destruct ms, input as [[]|[|?|[]|]|]; simpl; intros; repeat (case_match || case_decide); simplify_eq/=;
      try set_solver.
    unfold Server.send_segment in *. repeat case_match; simplify_eq/=; set_solver.
  - intros c ms m pending. unfold server_weight. simpl. lia.
  - intros c ms q a pending ms' effects Hc Hm Ha Hrest. unfold server_weight. rewrite sum_list_with_app.
    destruct q, a as [|?|[at_|]|l]; try done; destruct ms; try done.
    + injection Hm as <- <-. simpl. pose proof (core_rest_length c at_ Hc). lia.
    + injection Hm as <- <-. simpl. lia.
    + pose proof (send_segment_weight c debug cursor sent l after ms' effects Ha Hrest Hm) as Hw.
      unfold server_weight in Hw. simpl in Hw |- *. lia.
  - intros c c' ms run pending ms' effects Hm. by destruct ms.
  - intros c ms m ms' effects Hm. unfold server_weight.
    destruct ms, m as [[]|[]| | | | |]; simpl in *; repeat (case_match || case_decide); simplify_eq/=; lia.
Qed.

(** ** The sessions *)

Definition script_bytes (t : Transport IoError) : nat := sum_list_with read_bytes (reads t).

Hypothesis Hadmitted : ∀ body m, wire_decode body = Ok (Message_Envelopes m) → run_ok (batch m).

Lemma pull_wp (fuel : nat) c t :
  core_ok c → locatable c → script_bytes t + 1 < fuel →
  wp (pull fuel) (c, t)
    (λ o ct, core_ok ct.1 ∧
      ∃ h, core_took c (ingested_of h) ct.1 ∧ written ct.2 = written t ++ frames_of h ∧ runs_bounded h ∧ pull_reads h o)
    (λ e ct, core_ok ct.1 ∧ core_evolves c ct.1 ∧
      ∃ h, written ct.2 = written t ++ frames_of h ∧ runs_bounded h).
Proof using Hadmitted.
  intros Hc Hloc Hfuel. unfold wp, pull. simpl. pose proof (core_head_spec c Hc) as Hh. unfold wp in Hh.
  destruct (core_head c) as [[[head|e] c']| |]; try done; subst c'.
  2: { split; [done|]. split; [apply core_took_evolves with [], core_took_nil|].
       exists []. rewrite app_nil_r. split; [done|]. by intros run ?%not_elem_of_nil. }
  pose proof (puller_new_inv head) as Hnew. simpl in *.
  set (start := MkConfig _ _ _) in Hnew.
  assert (∀ p, reachable Puller.step start p → puller_phase p) as Hinv.
  { intros p. by apply reachable_inv, puller_step_inv. }
  set (s := MkSession _ _ _ _).
  assert (∀ ms pending h,
    reachable Puller.step start (Running (MkConfig ms (Effect_Ask Query_Locator :: pending) h)) →
    ingested_of h = [] ∧ locatable c) as Hlocator.
  { intros ms pending h [_ Hi]%Hinv. split; [|done]. simpl in Hi. destruct ms; naive_solver. }
  pose proof (drive_wp Puller.step puller_weight puller_drivable start (λ Hb, Hinv _ Hb) Hadmitted c
    (written t) Hlocator fuel (cfg_pending start) s []) as Hd.
  assert (on_the_way Puller.step start c (written t) (cfg_pending start) s []) as Hway.
  { split; simpl; [apply rtc_refl|done|apply core_took_nil|by intros run [=]%list_elem_of_singleton|].
    by rewrite app_nil_r. }
  specialize (Hd Hway). unfold wp in Hd.
  assert (left puller_weight (cfg_pending start) s < fuel) as Hleft.
  { unfold left, bytes_left, puller_weight, script_bytes in *. simpl. lia. }
  specialize (Hd Hleft). unfold cfg_pending, start in Hd. unfold session_end.
  destruct (drive Puller.step fuel _ s) as [[[o|e] s']| |]; try done;
    destruct Hd as (Hc' & h & ph & Hw & Hreach & Hph); simpl; (split; [done|]);
    pose proof (Hinv _ Hreach) as Hi.
  - destruct Hph as [-> Htook]. by exists h.
  - destruct Hph as [Hev Hph]. split; [done|]. exists h. split; [done|].
    destruct e; simpl in Hph; try (destruct Hph as (cfg & -> & <-); apply Hi). by subst ph.
Qed.

Lemma serve_wp (debug : bool) (fuel : nat) c t :
  core_ok c → script_bytes t + 2 * core_length c + 6 < fuel →
  wp (serve debug fuel) (c, t)
    (λ o ct, core_ok ct.1 ∧
      ∃ h, core_took c (ingested_of h) ct.1 ∧ written ct.2 = written t ++ frames_of h ∧ batches_bounded h ∧ serve_reads h o)
    (λ e ct, core_ok ct.1 ∧ core_evolves c ct.1 ∧
      ∃ h, written ct.2 = written t ++ frames_of h ∧ batches_bounded h).
Proof using Hadmitted.
  intros Hc Hfuel. unfold wp, serve. simpl. pose proof (core_head_spec c Hc) as Hh. unfold wp in Hh.
  destruct (core_head c) as [[[head|e] c']| |]; try done; subst c'.
  2: { split; [done|]. split; [apply core_took_evolves with [], core_took_nil|].
       exists []. rewrite app_nil_r. split; [done|]. by intros run ?%not_elem_of_nil. }
  pose proof server_new_inv as Hnew.
  set (start := MkConfig _ _ _) in Hnew.
  assert (∀ p, reachable (Server.step head debug) start p → server_phase p) as Hinv.
  { intros p. by apply reachable_inv, server_step_inv. }
  set (s := MkSession _ _ _ _).
  assert (∀ ms pending h, reachable (Server.step head debug) start
    (Running (MkConfig ms (Effect_Ask Query_Locator :: pending) h)) →
    ingested_of h = [] ∧ locatable c) as Hlocator.
  { intros ms pending h [_ Hi]%Hinv. exfalso. simpl in Hi. destruct ms; naive_solver. }
  pose proof (drive_wp (Server.step head debug) server_weight (server_drivable head debug) start
    (λ Hb, Hinv _ Hb) Hadmitted c (written t) Hlocator fuel [] s []) as Hd.
  assert (on_the_way (Server.step head debug) start c (written t) [] s []) as Hway.
  { split; simpl; [apply rtc_refl|done|apply core_took_nil|by intros run ?%not_elem_of_nil|].
    by rewrite app_nil_r. }
  specialize (Hd Hway). unfold wp in Hd.
  assert (left server_weight [] s < fuel) as Hleft.
  { unfold left, bytes_left, server_weight, script_bytes in *. simpl. lia. }
  specialize (Hd Hleft). unfold session_end.
  destruct (drive (Server.step head debug) fuel [] s) as [[[o|e] s']| |]; try done;
    destruct Hd as (Hc' & h & ph & Hw & Hreach & Hph); simpl; (split; [done|]);
    pose proof (Hinv _ Hreach) as Hi.
  - destruct Hph as [-> Htook]. by exists h.
  - destruct Hph as [Hev Hph]. split; [done|]. exists h. split; [done|].
    destruct e; simpl in Hph; try (destruct Hph as (cfg & -> & <-); apply Hi). by subst ph.
Qed.
End sessions.
