(* ===== verification/FrameSpec.v ===== *)
(** * Frames over a stream

    However a stream of frames is cut into reads, [next_frame] takes the
    messages off it one by one. What a message decodes to is [received]: the
    verification status does not cross the wire. *)

From S2P Require Import Prelude BTree Text Codec Externals Keys Subkey Msg Envelope Locator Sync.
From S2P Require Import Frame Puller Server Chain SyncDriver Contract DriverSpec.

(** An envelope as it comes off the wire. *)
Definition unchecked (e : Envelope) : Envelope := set_verification_status e Unchecked.

Definition received (m : Message) : Message :=
  match m with
  | Message_Envelopes l => Message_Envelopes (MkEnvelopes (unchecked <$> batch l))
  | m => m
  end.

Section frames.
Context `{MessageDecode}.

(** The message encodes within the cap. *)
Definition framable (m : Message) : Prop :=
  ∃ body len, encode (ser_message m) = Ok body ∧ frame_len body = Some len.

(** [wire::decode] undoes [wire::encode]. *)
Definition decodable (m : Message) : Prop :=
  ∀ body, encode (ser_message m) = Ok body → wire_decode body = Ok (received m).

Definition speaks (m : Message) : Prop := framable m ∧ decodable m.

Lemma frame_len_spec body len :
  frame_len body = Some len ↔ len = N.of_nat (length body) ∧ (len ≤ MAX_FRAME_LEN)%N.
Proof.
  assert (MAX_FRAME_LEN ≤ u32_max)%N as Hcap by (vm_compute; discriminate).
  unfold frame_len, u32_try_from_u64. case_decide as Hle; [|naive_solver lia].
  destruct (N.leb_spec (N.of_nat (length body)) MAX_FRAME_LEN); naive_solver lia.
Qed.

(** The codec on a buffer that starts with a whole frame. *)
Lemma decode_frame {IoError} (m : Message) (rest : list u8) :
  framable m → decodable m →
  decode (IoError:=IoError) (frame_bytes m ++ rest) = Ret (Ok (Some (received m)), rest).
Proof.
  intros (body & len & Hbody & Hlen) Hdec. unfold frame_bytes. rewrite Hbody.
  apply frame_len_spec in Hlen as [-> Hlen].
  assert (N.of_nat (length body) < 2 ^ 32)%N as H32.
  { eapply N.le_lt_trans; [exact Hlen|]. vm_compute. reflexivity. }
  unfold decode, get_prefix. rewrite <-app_assoc, length_app, u32_be_length.
  rewrite decide_True by lia. rewrite take_app_le by (rewrite u32_be_length; lia).
  rewrite firstn_all2 by (rewrite u32_be_length; lia).
  rewrite (u32_be_roundtrip _ H32). rewrite (proj2 (N.ltb_ge _ _) Hlen).
  rewrite Nat2N.id, length_app. rewrite decide_False by lia.
  rewrite drop_app_ge, u32_be_length, Nat.sub_diag, drop_0 by (rewrite u32_be_length; lia).
  rewrite take_app_length, drop_app_length. by rewrite (Hdec body Hbody).
Qed.

(** And on one that starts with part of a frame. *)
Lemma decode_partial {IoError} (m : Message) (part more : list u8) :
  framable m → frame_bytes m = part ++ more → more ≠ [] →
  decode (IoError:=IoError) part = Ret (Ok None, part).
Proof.
  intros (body & len & Hbody & Hlen) Hpart Hmore. unfold frame_bytes in Hpart. rewrite Hbody in Hpart.
  apply frame_len_spec in Hlen as [-> Hlen].
  assert (N.of_nat (length body) < 2 ^ 32)%N as H32.
  { eapply N.le_lt_trans; [exact Hlen|]. vm_compute. reflexivity. }
  assert (length part < 4 + length body) as Hshort.
  { apply (f_equal length) in Hpart. rewrite !length_app, u32_be_length in Hpart.
    destruct more; [done|]. simpl in Hpart. lia. }
  unfold decode, get_prefix. case_decide as H4; [|done].
  assert (take 4 part = u32_to_be_bytes (N.of_nat (length body))) as ->.
  { rewrite <-(take_app_le part more) by lia. rewrite <-Hpart.
    rewrite take_app_le by (rewrite u32_be_length; lia). apply firstn_all2. rewrite u32_be_length. lia. }
  rewrite (u32_be_roundtrip _ H32), (proj2 (N.ltb_ge _ _) Hlen), Nat2N.id. by rewrite decide_True by lia.
Qed.
End frames.

(** The bytes a script of reads carries, and that it carries nothing else: no
    failure, no silence, no end before the last read. *)
Fixpoint carries {IoError} (script : list (Read IoError)) (bytes : list u8) : Prop :=
  match script with
  | [] => bytes = []
  | Read_Bytes chunk :: script => chunk ≠ [] ∧ ∃ more, bytes = chunk ++ more ∧ carries script more
  | _ :: _ => False
  end.

Lemma carries_bytes {IoError} (script : list (Read IoError)) bytes :
  carries script bytes → sum_list_with read_bytes script = length bytes.
Proof.
  revert bytes. induction script as [|[chunk| |] script IH]; intros bytes; simpl; [by intros ->| |done..].
  intros (_ & more & -> & Hc). by rewrite length_app, (IH more).
Qed.

Section stream.
Context `{MessageDecode} {IoError ChainError : Type}.

Lemma next_frame_stream (m : Message) (script : list (Read IoError)) buffer bytes tail :
  framable m → decodable m → carries script bytes → buffer ++ bytes = frame_bytes m ++ tail →
  ∃ script' buffer' bytes',
    next_frame_loop (ChainError:=ChainError) script buffer = Ret (Ok (Some (received m)), (script', buffer')) ∧
    carries script' bytes' ∧ buffer' ++ bytes' = tail.
Proof.
  intros Hfr Hdec. revert buffer bytes. induction script as [|[chunk| |] script IH]; intros buffer bytes Hc Heq;
    [..|done|done].
  - simpl in Hc. subst bytes. rewrite app_nil_r in Heq. subst buffer. exists [], tail, [].
    simpl. rewrite (decode_frame m tail Hfr Hdec). by rewrite app_nil_r.
  - destruct (decide (length (frame_bytes m) ≤ length buffer)) as [Hle|Hgt].
    + assert (∃ rest, buffer = frame_bytes m ++ rest) as [rest ->].
      { exists (drop (length (frame_bytes m)) buffer).
        rewrite <-(take_drop (length (frame_bytes m)) buffer) at 1. f_equal.
        rewrite <-(take_app_le buffer bytes) by done. rewrite Heq. apply take_app_length. }
      rewrite <-app_assoc in Heq. apply app_inv_head in Heq.
      exists (Read_Bytes chunk :: script), rest, bytes. simpl. rewrite (decode_frame m rest Hfr Hdec). done.
    + assert (∃ more, frame_bytes m = buffer ++ more ∧ more ≠ []) as (more & Hmore & Hne).
      { exists (drop (length buffer) (frame_bytes m)). split.
        - rewrite <-(take_drop (length buffer) (frame_bytes m)) at 1. f_equal.
          rewrite <-(take_app_le (frame_bytes m) tail) by lia. rewrite <-Heq. apply take_app_length.
        - intros Hn. apply (f_equal length) in Hn. rewrite length_drop in Hn. simpl in Hn. lia. }
      destruct Hc as (Hchunk & bytes' & -> & Hc). simpl.
      rewrite (decode_partial m buffer more Hfr Hmore Hne). rewrite decide_False by done.
      apply (IH (buffer ++ chunk) bytes' Hc). by rewrite <-app_assoc.
Qed.
End stream.

(** ** A wire for the witnesses

    [wire_decode] by looking the body up in a table of messages: it undoes
    [wire::encode] on every message no earlier one shares its encoding with. *)

Section wire.
Context `{Externals}.

Fixpoint decode_in (table : list Message) (body : list u8) : Result WireError Message :=
  match table with
  | [] => Err WireError_Decode
  | m :: table =>
      match encode (ser_message m) with
      | Ok body' => if decide (body = body') then Ok (received m) else decode_in table body
      | Err _ => decode_in table body
      end
  end.

Lemma decode_in_Ok table body m : decode_in table body = Ok m → ∃ m', m' ∈ table ∧ m = received m'.
Proof.
  induction table as [|m' table IH]; simpl; [done|]. destruct (encode (ser_message m')) as [body'|e].
  - case_decide; [intros [= <-]; exists m'; by split; [left|]|]. intros Hd.
    destruct (IH Hd) as (m'' & ? & ?). exists m''. split; [by right|done].
  - intros Hd. destruct (IH Hd) as (m'' & ? & ?). exists m''. split; [by right|done].
Qed.

(** Nothing earlier in the table has the message's encoding. *)
Definition unambiguous (table : list Message) (i : nat) : bool :=
  match table !! i with
  | Some m =>
      match encode (ser_message m) with
      | Ok body =>
          match frame_len body with Some _ => true | None => false end &&
          forallb (λ m', match encode (ser_message m') with
                         | Ok body' => bool_decide (body ≠ body')
                         | Err _ => true
                         end) (take i table)
      | Err _ => false
      end
  | None => false
  end.

Lemma unambiguous_speaks table i m :
  unambiguous table i = true → table !! i = Some m → speaks (H0 := decode_in table) m.
Proof.
  unfold unambiguous. intros Hu Hm. rewrite Hm in Hu. destruct (encode (ser_message m)) as [body|] eqn:Hbody; [|done].
  apply andb_prop in Hu as [Hlen Hno]. destruct (frame_len body) as [len|] eqn:Hl; [|done]. split; [by exists body, len|].
  intros b Hb. assert (b = body) as -> by congruence. clear Hlen Hl Hb. unfold wire_decode.
  revert i Hm Hno. induction table as [|m' table IH]; intros i Hm Hno; [done|].
  destruct i as [|i]; simpl in *.
  - injection Hm as ->. by rewrite Hbody, decide_True.
  - apply andb_prop in Hno as [Hhd Htl]. destruct (encode (ser_message m')) as [body'|].
    + apply bool_decide_eq_true_1 in Hhd. rewrite decide_False by done. by apply (IH i).
    + by apply (IH i).
Qed.


Lemma table_speaks table :
  forallb (unambiguous table) (seq 0 (length table)) = true → Forall (speaks (H0 := decode_in table)) table.
Proof.
  rewrite forallb_forall. intros Hall. apply Forall_lookup. intros i m Hm.
  apply (unambiguous_speaks _ i); [|done]. apply Hall, in_seq. apply lookup_lt_Some in Hm. lia.
Qed.
End wire.
