(* ===== verification/FrameProps.v ===== *)
(** * The framing's properties

    What one call of the codec does to its buffer, and that a stream of frames
    reads back as the messages written, however it is cut. *)

From S2P Require Import Prelude BTree Text Codec Externals Keys Subkey Msg Envelope Fixtures Locator Sync.
From S2P Require Import Frame SyncDriver Contract DriverSpec FrameSpec.

Section stream.
Context `{MessageDecode} {IoError ChainError : Type}.

(** Messages written one after the other. *)
Fixpoint write_stream (messages : list Message) : M (list u8) (FrameError IoError) () :=
  match messages with
  | [] => m_ret ()
  | m :: messages => do! encode_message m in write_stream messages
  end.

(** Frames read until the stream ends or fails. *)
Fixpoint read_stream (fuel : nat) (script : list (Read IoError)) (buffer : list u8)
    : Outcome (list Message * option (SyncError IoError ChainError)) :=
  match fuel with
  | 0 => Diverge
  | S fuel =>
      match next_frame_loop (ChainError := ChainError) script buffer with
      | Ret (Ok (Some m), (script, buffer)) =>
          match read_stream fuel script buffer with
          | Ret (messages, e) => Ret (m :: messages, e)
          | Panic => Panic
          | Diverge => Diverge
          end
      | Ret (Ok None, _) => Ret ([], None)
      | Ret (Err e, _) => Ret ([], Some e)
      | Panic => Panic
      | Diverge => Diverge
      end
  end.

(** The start of a frame that is not all of it; the empty start too. *)
Definition partial (part : list u8) : Prop :=
  part = [] ∨ ∃ m more, framable m ∧ frame_bytes m = part ++ more ∧ more ≠ [].

Lemma encode_message_Ok m dst dst' :
  encode_message (IoError := IoError) m dst = Ret (Ok (), dst') ↔ framable m ∧ dst' = dst ++ frame_bytes m.
Proof using.
  unfold encode_message, framable, frame_bytes. destruct (encode (ser_message m)) as [body|e]; [|naive_solver].
  destruct (frame_len body) as [len|] eqn:Hlen; [|naive_solver].
  pose proof (proj1 (frame_len_spec body len) Hlen) as [-> _].
  split; [intros [= <-]; split; [by eexists _, _|done]|]. by intros [_ ->].
Qed.

Lemma write_stream_Ok messages dst dst' :
  write_stream messages dst = Ret (Ok (), dst') →
  Forall framable messages ∧ dst' = dst ++ (messages ≫= frame_bytes).
Proof using.
  revert dst. induction messages as [|m messages IH]; intros dst; simpl.
  - intros [= <-]. by rewrite app_nil_r.
  - unfold m_bind. destruct (encode_message m dst) as [[[[]|e] dst1]| |] eqn:Hm; try done.
    apply encode_message_Ok in Hm as [Hfr ->]. intros [Hall ->]%IH. split; [by constructor|]. by rewrite app_assoc.
Qed.

Lemma decode_partial_start part :
  partial part → ∀ start more, part = start ++ more → decode (IoError := IoError) start = Ret (Ok None, start).
Proof using.
  intros [->|(m & rest & Hfr & Hm & Hne)] start more Heq.
  - symmetry in Heq. by apply app_eq_nil in Heq as [-> ->].
  - apply (decode_partial m start (more ++ rest) Hfr); [by rewrite Hm, Heq, <-app_assoc|].
    by intros [_ ?]%app_eq_nil.
Qed.

(** What is left of a stream between frames, or within one. *)
Lemma next_frame_end (script : list (Read IoError)) buffer bytes part :
  partial part → carries script bytes → buffer ++ bytes = part →
  ∃ left, next_frame_loop (ChainError := ChainError) script buffer =
    Ret (if decide (part = []) then Ok None else Err SyncError_Truncated, left).
Proof using.
  intros Hp. revert buffer bytes. induction script as [|[chunk|e|] script IH]; intros buffer bytes Hc Heq;
    [..|done|done]; simpl in Hc |- *;
    rewrite (decode_partial_start part Hp buffer bytes) by done.
  - subst bytes. rewrite app_nil_r in Heq. subst buffer. by eexists.
  - destruct Hc as (Hne & more & -> & Hc). rewrite decide_False by done.
    apply (IH (buffer ++ chunk) more Hc). by rewrite <-app_assoc.
Qed.

Lemma read_stream_back messages (script : list (Read IoError)) buffer bytes part (fuel : nat) :
  Forall framable messages → Forall decodable messages → partial part →
  carries script bytes → buffer ++ bytes = (messages ≫= frame_bytes) ++ part → length messages < fuel →
  read_stream fuel script buffer =
    Ret (received <$> messages, if decide (part = []) then None else Some SyncError_Truncated).
Proof using.
  intros Hfr Hdec Hp. revert fuel script buffer bytes. induction messages as [|m messages IH];
    intros fuel script buffer bytes Hc Heq Hfuel; (destruct fuel as [|fuel]; [simpl in Hfuel; lia|]); simpl in Heq |- *.
  - destruct (next_frame_end script buffer bytes part Hp Hc Heq) as [left ->]. by case_decide.
  - apply Forall_cons in Hfr as [Hm Hfr]. apply Forall_cons in Hdec as [Hd Hdec]. rewrite <-app_assoc in Heq.
    destruct (next_frame_stream (ChainError := ChainError) m script buffer bytes _ Hm Hd Hc Heq)
      as (script' & buffer' & bytes' & -> & Hc' & Heq').
    rewrite (IH Hfr Hdec fuel script' buffer' bytes' Hc' Heq') by (simpl in Hfuel; lia). done.
Qed.
End stream.
Arguments read_stream {_ _ _ _} fuel script buffer.

(** C28: a stream reads back as what was written, whatever reads it arrives in.
    Messages written one after the other and cut into reads at any places come
    off the stream in order, each as its wire form decodes, their verification
    status dropped; at the end the stream is clean between frames, and truncated
    within one. *)
Theorem stream_roundtrip `{MessageDecode} {IoError ChainError : Type}
    (messages : list Message) (bytes part : list u8) (script : list (Read IoError)) (fuel : nat) :
  write_stream (IoError := IoError) messages [] = Ret (Ok (), bytes) → Forall decodable messages →
  partial part → carries script (bytes ++ part) → length messages < fuel →
  read_stream (ChainError := ChainError) fuel script [] =
    Ret (received <$> messages, if decide (part = []) then None else Some SyncError_Truncated).
Proof.
  intros Hw Hdec Hp Hc Hfuel. apply write_stream_Ok in Hw as [Hfr ->]. by eapply read_stream_back.
Qed.

(** A stream cut within its third frame. *)
Definition sample_messages : list Message :=
  [Message_Hello (MkHello PROTOCOL_VERSION genesis_d); Message_Envelopes (MkEnvelopes [genesis])].

#[local] Instance sample_decode : MessageDecode := decode_in sample_messages.

Definition sample_bytes : list u8 := sample_messages ≫= frame_bytes.

Definition sample_part : list u8 := take 20 (frame_bytes (Message_Hello (MkHello PROTOCOL_VERSION genesis_d))).

Lemma sample_speaks : Forall speaks sample_messages.
Proof. apply table_speaks. vm_compute. reflexivity. Qed.

Lemma stream_roundtrip_witness :
  read_stream (IoError := Empty_set) (ChainError := Empty_set) 3
    [Read_Bytes (take 3 (sample_bytes ++ sample_part)); Read_Bytes (drop 3 (sample_bytes ++ sample_part))] [] =
  Ret (received <$> sample_messages, Some SyncError_Truncated).
Proof.
  pose proof sample_speaks as Hspeak.
  assert (take 3 (sample_bytes ++ sample_part) ≠ []) as Hne1 by by_computing.
  assert (drop 3 (sample_bytes ++ sample_part) ≠ []) as Hne2 by by_computing.
  assert (sample_part ≠ []) as Hpart by by_computing.
  assert (drop 20 (frame_bytes (Message_Hello (MkHello PROTOCOL_VERSION genesis_d))) ≠ []) as Hrest by by_computing.
  rewrite (stream_roundtrip sample_messages sample_bytes sample_part).
  - by rewrite decide_False.
  - vm_compute. reflexivity.
  - eapply Forall_impl; [exact Hspeak|]. intros m Hm. apply Hm.
  - right. eexists _, _. split; [exact (proj1 (Forall_inv Hspeak))|].
    split; [symmetry; apply take_drop|exact Hrest].
  - split; [exact Hne1|]. eexists. split; [symmetry; apply take_drop|].
    split; [exact Hne2|]. exists []. by rewrite app_nil_r.
  - simpl. lia.
Defined.

(** What four bytes of prefix and a cap say of a buffer: it is short of a prefix, it
    claims too long a frame, it is short of the frame it claims, or it holds one. *)
Definition short_of_frame (src : list u8) : Prop :=
  length src < 4 ∨
  ∃ prefix rest, src = prefix ++ rest ∧ length prefix = 4 ∧
    (N.of_nat (length rest) < u32_from_be_bytes prefix ≤ MAX_FRAME_LEN)%N.

(** C29: one call of [decode] on any buffer, whatever it holds, is decided by its
    first four bytes. It asks for more exactly where it has no whole prefix, or
    where the prefix is within the cap and less than the body it claims is there;
    so no peer can make the buffer grow to more than the largest frame. It refuses
    a prefix past the cap on sight, whatever follows it, taking nothing. And as soon
    as a whole frame is there it takes exactly that frame, and yields its message
    or what is wrong with it. It never panics. *)
Theorem decode_contract `{MessageDecode} {IoError : Type} (src : list u8) :
  (short_of_frame src →
    decode (IoError := IoError) src = Ret (Ok None, src) ∧ (N.of_nat (length src) < 4 + MAX_FRAME_LEN)%N) ∧
  (∀ prefix rest, src = prefix ++ rest → length prefix = 4 →
    let len := u32_from_be_bytes prefix in
    ((MAX_FRAME_LEN < len)%N →
      decode (IoError := IoError) src = Ret (Err (FrameError_FrameTooLarge len), src)) ∧
    (∀ body more, (len ≤ MAX_FRAME_LEN)%N → rest = body ++ more → N.of_nat (length body) = len →
      decode (IoError := IoError) src =
        Ret (match wire_decode body with Ok m => Ok (Some m) | Err e => Err (FrameError_Wire e) end, more))) ∧
  (decode (IoError := IoError) src = Ret (Ok None, src) → short_of_frame src).
Proof.
  assert (∀ prefix rest, length prefix = 4 →
    get_prefix (prefix ++ rest) = Some prefix ∧ drop 4 (prefix ++ rest) = rest) as Hprefix.
  { intros prefix rest Hlen. unfold get_prefix. rewrite decide_True by (rewrite length_app; lia).
    rewrite take_app_length', drop_app_length' by done. done. }
  split_and!.
  - intros [Hlen|(prefix & rest & -> & Hlen & Hshort & Hcap)].
    + unfold decode, get_prefix. rewrite decide_False by lia. split; [done|lia].
    + unfold decode. destruct (Hprefix prefix rest Hlen) as [-> _]. rewrite (proj2 (N.ltb_ge _ _) Hcap).
      rewrite decide_True by (rewrite length_app; lia). split; [done|]. rewrite length_app. lia.
  - intros prefix rest -> Hlen len. destruct (Hprefix prefix rest Hlen) as [Hget Hdrop].
    unfold decode. rewrite Hget. fold len. split.
    + intros Hcap. by rewrite (proj2 (N.ltb_lt _ _) Hcap).
    + intros body more Hcap -> Hbody. rewrite (proj2 (N.ltb_ge _ _) Hcap).
      rewrite decide_False by (rewrite !length_app; lia). rewrite Hdrop.
      rewrite take_app_length', drop_app_length' by lia. by destruct (wire_decode body).
  - unfold decode, get_prefix. case_decide as H4; [|by left; lia].
    destruct (MAX_FRAME_LEN <? _)%N eqn:Hcap; [done|]. apply N.ltb_ge in Hcap.
    case_decide as Hshort; [|by destruct (wire_decode _)]. intros _. right.
    exists (take 4 src), (drop 4 src). rewrite take_drop, length_take, length_drop. split_and!; [done|lia|lia|done].
Qed.

(** A prefix one past the cap is refused with nothing after it. *)
Lemma decode_contract_witness :
  decode (IoError := Empty_set) [x01; x00; x00; x01] =
    Ret (Err (FrameError_FrameTooLarge (MAX_FRAME_LEN + 1)), [x01; x00; x00; x01]).
Proof.
  destruct (decode_contract (IoError := Empty_set) [x01; x00; x00; x01]) as (_ & Hprefix & _).
  destruct (Hprefix [x01; x00; x00; x01] [] eq_refl eq_refl) as [Hover _].
  apply Hover. vm_compute. reflexivity.
Defined.
