(* ===== verification/SessionRun.v ===== *)
(** * A session between two honest cores

    One side of a session at a time, run over a stream that carries the other
    side's frames: what the server says to a puller's opening, and what the
    puller makes of it. *)

From S2P Require Import Prelude BTree Text Codec Externals Keys Subkey Msg Envelope Locator Sync.
From S2P Require Import Frame Puller Server Chain SyncDriver Contract DriverSpec FrameSpec.

(** ** One turn of the driver *)

Section turns.
Context `{MessageDecode} {MS C IoError ChainError O : Type}.
Context `{!SyncCore C IoError ChainError}.
Variable machine : MS → Input → Outcome (MS * list (Effect O)).
Implicit Types (s : Session MS C IoError) (t : Transport IoError).

(** The stream a session has still to read; no write is to fail. *)
Definition streams s (bytes : list u8) : Prop :=
  writes (transport s) = [] ∧
  ∃ unread, carries (reads (transport s)) unread ∧ inbound s ++ unread = bytes.

(** A session that has moved on: its machine, its core, what it has written and
    what it has still to read. *)
Definition stands s (ms : MS) (c : C) (w stream : list u8) : Prop :=
  machine_state s = ms ∧ core s = c ∧ written (transport s) = w ∧ streams s stream.

Lemma turn_receive fuel m ms effects c w tail s (Q : O → Session MS C IoError → Prop) X :
  framable m → decodable m → stands s ms c w (frame_bytes m ++ tail) →
  machine ms (Input_Message (received m)) = Ret effects →
  (∀ s', stands s' effects.1 c w tail → wp (drive (ChainError:=ChainError) machine fuel effects.2) s' Q X) →
  wp (drive machine (S fuel) []) s Q X.
Proof using.
  intros Hfr Hdec (<- & <- & <- & Hw & unread & Hc & Heq) Hm HQ. simpl. apply wp_bind.
  destruct (next_frame_stream (ChainError:=ChainError) m _ _ _ _ Hfr Hdec Hc Heq)
    as (script' & buffer' & bytes' & Hnext & Hc' & Heq').
  unfold wp at 1, next_frame. rewrite Hnext. apply wp_bind. unfold wp at 1, feed. simpl. rewrite Hm.
  destruct effects as [ms' effects]. apply HQ. split_and!; [done..|]. split; [done|]. by exists bytes'.
Qed.

Lemma turn_send fuel m pending ms c w stream s (Q : O → Session MS C IoError → Prop) X :
  framable m → stands s ms c w stream →
  (∀ s', stands s' ms c (w ++ frame_bytes m) stream →
    wp (drive (ChainError:=ChainError) machine fuel pending) s' Q X) →
  wp (drive machine (S fuel) (Effect_Send m :: pending)) s Q X.
Proof using.
  intros (body & len & Hbody & Hlen) (<- & <- & <- & Hw & Hs) HQ. simpl. apply wp_bind. unfold wp at 1, send, encode_message.
  rewrite Hbody, Hlen. unfold write_all. rewrite Hw. apply HQ.
  split_and!; [done..| |by split]. simpl. f_equal. unfold frame_bytes. rewrite Hbody.
  by apply frame_len_spec in Hlen as [-> _].
Qed.

Lemma turn_ask fuel q pending ms c w stream s (P : Answer → Prop) (XE : SyncError IoError ChainError → C → Prop)
    (Q : O → Session MS C IoError → Prop) X :
  stands s ms c w stream →
  wp (core_answer q) c (λ a c', c' = c ∧ P a) XE → (∀ e c' s', XE e c' → X e s') →
  (∀ a, P a → match machine ms (Input_Answer a) with
    | Ret (ms', effects) => ∀ s', stands s' ms' c w stream →
        wp (drive (ChainError:=ChainError) machine fuel (pending ++ effects)) s' Q X
    | Panic | Diverge => False
    end) →
  wp (drive machine (S fuel) (Effect_Ask q :: pending)) s Q X.
Proof using.
  intros (<- & <- & <- & Hs) Ha HX HQ. simpl. apply wp_bind. unfold wp at 1, on_core. unfold wp in Ha.
  destruct (core_answer q (core s)) as [[[a|e] c']| |]; [|by eapply HX|done..].
  destruct Ha as [-> Ha]. apply wp_bind. unfold wp at 1, feed. simpl. specialize (HQ a Ha).
  destruct (machine (machine_state s) (Input_Answer a)) as [[ms' effects]| |]; [|done..].
  by apply HQ.
Qed.

Lemma turn_ingest fuel run pending ms c w stream s (P : C → Prop)
    (XE : SyncError IoError ChainError → C → Prop) effects (Q : O → Session MS C IoError → Prop) X :
  stands s ms c w stream →
  wp (core_ingest run) c (λ _ c', P c') XE → (∀ e c' s', XE e c' → X e s') →
  machine ms Input_Ingested = Ret effects →
  (∀ c' s', P c' → stands s' effects.1 c' w stream →
    wp (drive (ChainError:=ChainError) machine fuel (pending ++ effects.2)) s' Q X) →
  wp (drive machine (S fuel) (Effect_Ingest run :: pending)) s Q X.
Proof using.
  intros (<- & <- & <- & Hs) Hi HX Hm HQ. simpl. apply wp_bind. unfold wp at 1, on_core. unfold wp in Hi.
  destruct (core_ingest run (core s)) as [[[[]|e] c']| |]; [|by eapply HX|done..].
  apply wp_bind. unfold wp at 1, feed. simpl. rewrite Hm. destruct effects as [ms' effects].
  by apply (HQ c').
Qed.

Lemma turn_done fuel o pending s (Q : O → Session MS C IoError → Prop) X :
  Q o s → wp (drive (ChainError:=ChainError) machine (S fuel) (Effect_Done o :: pending)) s Q X.
Proof using. done. Qed.
End turns.

#[local] Arguments drive : simpl never.

(** ** The server's side *)

Section serve.
Context `{MessageDecode} {C IoError ChainError : Type}.
Context `{!SyncCore C IoError ChainError} `{!SyncCoreSpec C IoError ChainError}.

(** Every batch frames. *)
Definition framed (batches : list (list Envelope)) : Prop :=
  Forall (λ l, framable (Message_Envelopes (MkEnvelopes l))) batches.

Definition stream_of (batches : list (list Envelope)) : list u8 :=
  batches ≫= λ l, frame_bytes (Message_Envelopes (MkEnvelopes l)).

(** The stream a core answers from a digest on, segment by segment. *)
Inductive streamed (c : C) : EnvelopeDigest → list (list Envelope) → EnvelopeDigest → Prop :=
  | streamed_end at_ :
      core_answer (Query_Segment at_) c = Ret (Ok (Answer_Segment []), c) → streamed c at_ [] at_
  | streamed_more at_ l mid batches tip :
      core_answer (Query_Segment at_) c = Ret (Ok (Answer_Segment l), c) → l ≠ [] →
      length l ≤ MAX_BATCH_ENVELOPES → linked at_ l mid → streamed c mid batches tip →
      streamed c at_ (l :: batches) tip.

Lemma streamed_fun c at_ bs1 tip1 bs2 tip2 :
  streamed c at_ bs1 tip1 → streamed c at_ bs2 tip2 → bs1 = bs2 ∧ tip1 = tip2.
Proof using.
  intros H1. revert bs2 tip2. induction H1 as [at_ Ha|at_ l mid bs tip Ha Hne Hlen Hl Hs IH];
    intros bs2 tip2 H2; destruct H2 as [at2 Ha2|at2 l2 mid2 bs2 tip2 Ha2 Hne2 Hlen2 Hl2 Hs2];
    rewrite Ha in Ha2; simplify_eq; [done|].
  pose proof (linked_fun _ _ _ _ Hl Hl2) as <-. by destruct (IH _ _ Hs2) as [-> ->].
Qed.

Lemma streamed_linked c at_ batches tip : streamed c at_ batches tip → linked at_ (concat batches) tip.
Proof using. induction 1 as [|at_ l mid bs tip Ha Hne Hlen Hl Hs IH]; [done|]. by eapply linked_app. Qed.

Lemma wp_outcome {S' E' A} (m : M S' E' A) (s : S') (Q : A → S' → Prop) (X : E' → S' → Prop) :
  wp m s Q X → wp m s (λ a s', Q a s' ∧ m s = Ret (Ok a, s')) (λ e s', X e s' ∧ m s = Ret (Err e, s')).
Proof using. unfold wp. by destruct (m s) as [[[a|e] s']| |]. Qed.

(** A stream is no longer than what is left of the path it is on. *)
Lemma streamed_length c at_ batches tip : core_ok c → streamed c at_ batches tip → length batches ≤ core_rest c at_.
Proof using.
  intros Hc. induction 1 as [|at_ l mid bs tip Ha Hne Hlen Hl Hs IH]; simpl; [lia|].
  pose proof (core_answer_spec (Query_Segment at_) c Hc ltac:(done)) as Hwp. unfold wp in Hwp. rewrite Ha in Hwp.
  destruct Hwp as (_ & _ & Hrest). specialize (Hrest Hne mid Hl). lia.
Qed.

Lemma wp_answers {S' E' A} (m : M S' E' A) (s : S') a (Q : A → S' → Prop) (X : E' → S' → Prop) :
  m s = Ret (Ok a, s) → Q a s → wp m s Q X.
Proof using. unfold wp. by intros ->. Qed.

(** From [cursor] on, the server streams what its core streams, and says where it
    ends. Nothing comes between. *)
Lemma serve_stream head debug (fuel : nat) c cursor batches tip sent s w stream :
  streamed c cursor batches tip → framed batches → framable (Message_CaughtUp MkCaughtUp) →
  2 * length batches + 3 < fuel →
  stands s (Server.AwaitSegment cursor sent) c w stream →
  wp (drive (ChainError:=ChainError) (Server.step head debug) fuel [Effect_Ask (Query_Segment cursor)]) s
    (λ o s', core s' = c ∧ o = ServeOutcome_Served tip (sent + N.of_nat (length (concat batches))) ∧
      written (transport s') = w ++ stream_of batches ++ frame_bytes (Message_CaughtUp MkCaughtUp))
    (λ _ _, False).
Proof using.
  intros Hst. revert fuel sent s w. induction Hst as [at_ Ha|at_ l mid bs tip Ha Hne Hlen Hl Hst IH];
    intros fuel sent s w Hframed Hcaught Hfuel Hs; (do 3 (destruct fuel as [|fuel]; [simpl in Hfuel; lia|])).
  - eapply (turn_ask _ _ _ _ _ _ _ _ _ (λ a, a = Answer_Segment []) (λ _ _, False)); [done|by eapply wp_answers|done|].
    intros a ->. simpl. intros s' Hs'. simpl.
    eapply turn_send; [done|done|]. intros s2 (_ & Hcore & Hw2 & _). apply turn_done.
    split; [done|]. simpl. rewrite N.add_0_r. by split.
  - apply Forall_cons in Hframed as [Hfr Hframed].
    eapply (turn_ask _ _ _ _ _ _ _ _ _ (λ a, a = Answer_Segment l) (λ _ _, False)); [done|by eapply wp_answers|done|].
    intros a ->. simpl. rewrite (send_segment_ok debug at_ sent l mid) by done. intros s' Hs'. simpl.
    eapply turn_send; [done|done|]. intros s2 Hs2.
    eapply wp_mono; [apply (IH (S fuel)); [done|done|simpl in *; lia|done]| |done].
    intros o s3 (Hcore & -> & Hw3). cbn [concat]. rewrite length_app. split_and!; [done|f_equal; lia|].
    rewrite Hw3. unfold stream_of. simpl. by rewrite !app_assoc.
Qed.

Lemma wp_session_end {MS A} (m : M (Session MS C IoError) (SyncError IoError ChainError) A) s
    (Q : A → C * Transport IoError → Prop) X :
  wp m s (λ a s', Q a (core s', transport s')) (λ e s', X e (core s', transport s')) →
  match session_end (m s) with
  | Ret (Ok a, ct) => Q a ct
  | Ret (Err e, ct) => X e ct
  | Panic | Diverge => False
  end.
Proof using. unfold wp, session_end. by destruct (m s) as [[[a|e] s']| |]. Qed.

(** What a server says to a puller's opening. *)
Definition said (hello : Hello) (split : Message) (batches : list (list Envelope)) (last : list Message)
    : list u8 :=
  frame_bytes (Message_Hello hello) ++ frame_bytes split ++ stream_of batches ++ (last ≫= frame_bytes).

(** What a server has to say where it was asked to split: from there, its stream. *)
Definition replies c (split_ : option (EnvelopeDigest * list (list Envelope))) (tip : EnvelopeDigest) : Prop :=
  match split_ with
  | None => framable (Message_NoSplit MkNoSplit)
  | Some (at_, batches) =>
      streamed c at_ batches tip ∧ framed batches ∧
      framable (Message_Split (MkSplit at_)) ∧ framable (Message_CaughtUp MkCaughtUp)
  end.

(** The server's whole side: only its core's answer to the locator can fail it. *)
Lemma serve_run debug (fuel : nat) c t head opening locator split_ tip (XE : SyncError IoError ChainError → Prop) :
  core_ok c → core_head c = Ret (Ok head, c) →
  locator ≠ [] → length locator ≤ MAX_LOCATOR_LEN → hello_version opening = PROTOCOL_VERSION →
  wp (core_answer (Query_SplitPoint locator)) c
    (λ a c', c' = c ∧ a = Answer_SplitPoint (fst <$> split_)) (λ e _, XE e) →
  framable (Message_Hello (MkHello PROTOCOL_VERSION head)) → replies c split_ tip →
  writes t = [] →
  carries (reads t) (frame_bytes (Message_Hello opening) ++ frame_bytes (Message_FindSplit (MkFindSplit locator))) →
  Forall (λ m, framable m ∧ decodable m) [Message_Hello opening; Message_FindSplit (MkFindSplit locator)] →
  2 * core_length c + 8 < fuel →
  wp (serve debug fuel) (c, t)
    (λ o ct, ct.1 = c ∧
      match split_ with
      | None => o = ServeOutcome_NoCommonHistory ∧
          written ct.2 = written t ++
            said (MkHello PROTOCOL_VERSION head) (Message_NoSplit MkNoSplit) [] []
      | Some (at_, batches) =>
          o = ServeOutcome_Served tip (N.of_nat (length (concat batches))) ∧
          written ct.2 = written t ++
            said (MkHello PROTOCOL_VERSION head) (Message_Split (MkSplit at_)) batches
              [Message_CaughtUp MkCaughtUp]
      end)
    (λ e _, XE e).
Proof using.
  intros Hc Hhead Hne Hlen Hv Hsplit Hfr3 Hreply Hw Hcarry Hfd Hfuel.
  apply Forall_cons in Hfd as [[Hfr1 Hdec1] [[Hfr2 Hdec2] _]%Forall_cons].
  unfold wp, serve. simpl. rewrite Hhead.
  set (s0 := MkSession _ _ _ _). rewrite <-(app_nil_r (frame_bytes (Message_FindSplit _))) in Hcarry.
  assert (stands s0 Server.AwaitHello c (written t) (frame_bytes (Message_Hello opening) ++
    frame_bytes (Message_FindSplit (MkFindSplit locator)) ++ [])) as Hs0.
  { split_and!; [done..|]. split; [done|]. by eexists. }
  do 6 (destruct fuel as [|fuel]; [lia|]).
  apply (wp_session_end (drive (ChainError:=ChainError) (Server.step head debug) _ [])).
  eapply (turn_receive _ _ (Message_Hello opening)); [done|done|exact Hs0| |].
  { destruct opening as [v h]. simpl in *. by rewrite decide_False by (by intros []). }
  intros s1 Hs1. simpl. eapply turn_send; [done|done|]. intros s2 Hs2.
  eapply (turn_receive _ _ (Message_FindSplit (MkFindSplit locator))); [done|done|exact Hs2| |].
  { simpl. rewrite decide_False by done. by rewrite decide_False by lia. }
  intros s3 Hs3. simpl.
  eapply (turn_ask _ _ _ _ _ _ _ _ _ (λ a, a = Answer_SplitPoint (fst <$> split_)) (λ e _, XE e)); [done|exact Hsplit|done|].
  intros a ->. destruct split_ as [[at_ batches]|]; simpl; intros s4 Hs4.
  - destruct Hreply as (Hst & Hframed & Hfr4 & Hfr5). eapply turn_send; [done|done|]. intros s5 Hs5.
    pose proof (core_rest_length c at_ Hc). pose proof (streamed_length c at_ batches tip Hc Hst).
    eapply wp_mono; [eapply (serve_stream head debug _ c at_ batches tip 0); [done..|lia|exact Hs5]| |done].
    intros o s6 (Hcore & -> & Hw6). split_and!; [done|done|].
    simpl. rewrite Hw6. unfold said. simpl. by rewrite app_nil_r, !app_assoc.
  - eapply turn_send; [done|done|]. intros s5 (_ & Hcore & Hw5 & _). apply turn_done.
    split_and!; [done|done|]. rewrite Hw5. unfold said, stream_of. simpl. by rewrite app_nil_r, app_assoc.
Qed.
End serve.

(** ** The puller's side *)

Section pull.
Context `{MessageDecode} {C IoError ChainError : Type}.
Context `{!SyncCore C IoError ChainError} `{!SyncCoreSpec C IoError ChainError}.

(** A run cut into batches the protocol admits. *)
Definition batched (batches : list (list Envelope)) : Prop :=
  Forall (λ l, l ≠ [] ∧ length l ≤ MAX_BATCH_ENVELOPES ∧ framable (Message_Envelopes (MkEnvelopes l))) batches.

Lemma streamed_batched c at_ batches tip : streamed c at_ batches tip → framed batches → batched batches.
Proof using.
  induction 1 as [|at_ l mid bs tip Ha Hne Hlen Hl Hs IH]; [constructor|]. intros [Hfr Hb]%Forall_cons.
  constructor; [done|by apply IH].
Qed.

(** The envelopes of some batches, as they come off the wire. *)
Definition arrived (batches : list (list Envelope)) : list Envelope := unchecked <$> concat batches.

(** A pull that fails, of these batches, on top of what was taken: some batch is
    one the core fails to ingest, having taken those before it. *)
Definition balked c0 (took : list Envelope) (batches : list (list Envelope)) (e : SyncError IoError ChainError) : Prop :=
  ∃ before l after c1 c2, batches = before ++ l :: after ∧ core_ok c1 ∧
    core_took c0 (took ++ arrived before) c1 ∧ core_ingest (unchecked <$> l) c1 = Ret (Err e, c2).

Lemma linked_unchecked cursor run tip : linked cursor run tip → linked cursor (unchecked <$> run) tip.
Proof using.
  revert cursor. induction run as [|e run IH]; intros cursor; simpl; [done|].
  intros (Hp & d & Hd & Hl). split; [done|]. exists d. split; [done|by apply IH].
Qed.

Lemma linked_split cursor l rest tip :
  linked cursor (l ++ rest) tip → ∃ mid, linked cursor l mid ∧ linked mid rest tip.
Proof using.
  revert cursor. induction l as [|e l IH]; intros cursor; simpl; [by exists cursor|].
  intros (Hp & d & Hd & Hl). destruct (IH d Hl) as (mid & Hm & Hr). exists mid. split; [|done].
  split; [done|]. by exists d.
Qed.

(** From [cursor] on, the puller takes every batch and ends where the run does. *)
Lemma pull_stream (fuel : nat) (batches : list (list Envelope)) c0 took c cursor n tip s w :
  core_ok c → core_took c0 took c → linked cursor (concat batches) tip → batched batches →
  Forall (λ l, decodable (Message_Envelopes (MkEnvelopes l)) ∧ run_ok (unchecked <$> l)) batches →
  framable (Message_CaughtUp MkCaughtUp) → decodable (Message_CaughtUp MkCaughtUp) →
  2 * length batches + 1 < fuel →
  stands s (Puller.AwaitBatch cursor n) c w (stream_of batches ++ frame_bytes (Message_CaughtUp MkCaughtUp)) →
  wp (drive (ChainError:=ChainError) Puller.step fuel []) s
    (λ o s', o = PullOutcome_Synced tip (n + N.of_nat (length (concat batches))) ∧
      core_ok (core s') ∧ core_took c0 (took ++ arrived batches) (core s') ∧
      written (transport s') = w)
    (λ e _, balked c0 took batches e).
Proof using.
  intros Hc Ht Hl Hb Hd Hfr Hdec. revert fuel took c cursor n s Hc Ht Hl Hb Hd.
  induction batches as [|l batches IH]; intros fuel took c cursor n s Hc Ht Hl Hb Hd Hfuel Hs;
    (do 2 (destruct fuel as [|fuel]; [lia|])).
  - unfold stream_of in Hs. simpl in Hs. rewrite <-(app_nil_r (frame_bytes _)) in Hs.
    eapply (turn_receive _ _ (Message_CaughtUp MkCaughtUp)); [done|done|exact Hs|done|].
    intros s' (_ & <- & Hw & _). apply turn_done. simpl in *. subst tip. unfold arrived. simpl.
    rewrite app_nil_r, N.add_0_r. done.
  - apply Forall_cons in Hb as [(Hne & Hlen & Hfrl) Hb]. apply Forall_cons in Hd as [[Hdecl Hrun] Hd].
    cbn [concat] in *. apply linked_split in Hl as (mid & Hl & Hrest).
    unfold stream_of in Hs. cbn [mbind list_bind] in Hs. rewrite <-app_assoc in Hs.
    eapply (turn_receive _ _ (Message_Envelopes (MkEnvelopes l))); [done|done|exact Hs| |].
    { simpl. unfold Puller.take_batch. rewrite decide_False by (by destruct l).
      rewrite decide_False by (rewrite length_fmap; lia).
      rewrite (proj2 (link_run_Ok _ _ _) (linked_unchecked _ _ _ Hl)). done. }
    intros s1 Hs1. simpl in Hs1.
    eapply (turn_ingest _ _ _ _ _ _ _ _ _ _ (λ e c', core_ingest (unchecked <$> l) c = Ret (Err e, c')));
      [exact Hs1|eapply wp_mono; [by apply wp_outcome, (core_ingest_spec _ c Hc Hrun)|intros [] c' [Hc' _]; exact Hc'|
        by intros e c' [_ He]]| |done|].
    { intros e c' s' He. exists [], l, batches, c, c'. unfold arrived. simpl. by rewrite app_nil_r. }
    intros c' s2 [Hc' Htook] Hs2. simpl in Hs2.
    eapply wp_mono; [apply (IH fuel (took ++ (unchecked <$> l)) c' mid (n + N.of_nat (length (unchecked <$> l)))%N s2); try done|..].
    + by eapply core_took_app.
    + simpl in *. lia.
    + intros o s3 (-> & Hc3 & Htook3 & Hw3). split_and!; [|done| |done].
      * f_equal. rewrite length_fmap, length_app. lia.
      * unfold arrived in *. cbn [concat]. by rewrite fmap_app, app_assoc.
    + intros e s3 (before & l' & after & c1 & c2 & -> & Hc1 & Ht1 & He). exists (l :: before), l', after, c1, c2.
      split_and!; [done|done| |done]. unfold arrived in *. cbn [concat]. by rewrite fmap_app, app_assoc.
Qed.

(** The puller's side up to the answer to its locator: only its core's answers can
    fail it. *)
Lemma pull_opening (fuel : nat) c t head hello locator rest (XE : SyncError IoError ChainError → Prop)
    (Q : PullOutcome → C * Transport IoError → Prop) (X : SyncError IoError ChainError → C * Transport IoError → Prop) :
  core_head c = Ret (Ok head, c) →
  wp (core_answer (Query_ContainsEnvelope (hello_head hello))) c
    (λ a c', c' = c ∧ a = Answer_Contains false) (λ e _, XE e) →
  wp (core_answer Query_Locator) c (λ a c', c' = c ∧ a = Answer_Locator locator) (λ e _, XE e) →
  locator ≠ [] → length locator ≤ MAX_LOCATOR_LEN → hello_version hello = PROTOCOL_VERSION →
  Forall framable [Message_Hello (MkHello PROTOCOL_VERSION head); Message_FindSplit (MkFindSplit locator)] →
  framable (Message_Hello hello) → decodable (Message_Hello hello) →
  writes t = [] → carries (reads t) (frame_bytes (Message_Hello hello) ++ rest) →
  (∀ e ct, XE e → X e ct) →
  (∀ s, stands s (Puller.AwaitSplit locator) c
      (written t ++ frame_bytes (Message_Hello (MkHello PROTOCOL_VERSION head)) ++
        frame_bytes (Message_FindSplit (MkFindSplit locator))) rest →
    wp (drive (ChainError:=ChainError) Puller.step fuel []) s
      (λ o s', Q o (core s', transport s')) (λ e s', X e (core s', transport s'))) →
  wp (pull (5 + fuel)) (c, t) Q X.
Proof using SyncCoreSpec0.
  intros Hhead Hcontains Hlocator Hne Hlen Hv [Hfr1 [Hfr2 _]%Forall_cons]%Forall_cons Hfr Hdec Hw Hcarry HX HQ.
  unfold wp, pull. simpl. rewrite Hhead. set (s0 := MkSession _ _ _ _).
  assert (stands s0 Puller.AwaitHello c (written t) (frame_bytes (Message_Hello hello) ++ rest)) as Hs0.
  { split_and!; [done..|]. split; [done|]. by eexists. }
  apply (wp_session_end (drive (ChainError:=ChainError) Puller.step _ _)).
  eapply turn_send; [done|exact Hs0|]. intros s1 Hs1.
  eapply (turn_receive _ _ (Message_Hello hello)); [done|done|exact Hs1| |].
  { simpl. by rewrite decide_False by (intros []; apply Hv). }
  intros s2 Hs2. simpl in Hs2.
  eapply (turn_ask _ _ _ _ _ _ _ _ _ (λ a, a = Answer_Contains false) (λ e _, XE e));
    [exact Hs2|exact Hcontains|intros; by apply HX|].
  intros a ->. simpl. intros s3 Hs3.
  eapply (turn_ask _ _ _ _ _ _ _ _ _ (λ a, a = Answer_Locator locator) (λ e _, XE e));
    [exact Hs3|exact Hlocator|intros; by apply HX|].
  intros a ->. simpl. rewrite decide_True by done. intros s4 Hs4.
  eapply turn_send; [done|exact Hs4|]. intros s5 Hs5. apply HQ.
  by rewrite <-app_assoc in Hs5.
Qed.

(** What a server streams to one it shares an envelope with, taken whole. *)
Lemma pull_taken (fuel : nat) c locator at_ batches tip w s :
  core_ok c → at_ ∈ locator → linked at_ (concat batches) tip → batched batches →
  Forall (λ l, decodable (Message_Envelopes (MkEnvelopes l)) ∧ run_ok (unchecked <$> l)) batches →
  Forall (λ m, framable m ∧ decodable m) [Message_Split (MkSplit at_); Message_CaughtUp MkCaughtUp] →
  2 * length batches + 2 < fuel →
  stands s (Puller.AwaitSplit locator) c w
    (frame_bytes (Message_Split (MkSplit at_)) ++ stream_of batches ++ frame_bytes (Message_CaughtUp MkCaughtUp)) →
  wp (drive (ChainError:=ChainError) Puller.step fuel []) s
    (λ o s', o = PullOutcome_Synced tip (N.of_nat (length (concat batches))) ∧
      core_ok (core s') ∧ core_took c (arrived batches) (core s') ∧ written (transport s') = w)
    (λ e _, balked c [] batches e).
Proof using.
  intros Hc Hat Hl Hb Hd [[Hfr1 Hdec1] [[Hfr2 Hdec2] _]%Forall_cons]%Forall_cons Hfuel Hs.
  destruct fuel as [|fuel]; [lia|].
  eapply (turn_receive _ _ (Message_Split (MkSplit at_))); [done|done|exact Hs| |].
  { simpl. by rewrite decide_True. }
  intros s' Hs'. simpl in Hs'.
  eapply wp_mono; [apply (pull_stream fuel batches c [] c at_ 0 tip s'); try done; [apply core_took_nil|lia]| |done].
  intros o s7 (-> & Hc7 & Htook & Hw7). simpl. split_and!; [done..|]. exact Hw7.
Qed.

(** And the refusal of one it shares nothing with. *)
Lemma pull_refused (fuel : nat) c locator w s :
  framable (Message_NoSplit MkNoSplit) → decodable (Message_NoSplit MkNoSplit) → 1 < fuel →
  stands s (Puller.AwaitSplit locator) c w (frame_bytes (Message_NoSplit MkNoSplit)) →
  wp (drive (ChainError:=ChainError) Puller.step fuel []) s
    (λ o s', o = PullOutcome_NoCommonHistory ∧ core s' = c ∧ written (transport s') = w)
    (λ _ _, False).
Proof using.
  intros Hfr Hdec Hfuel Hs. do 2 (destruct fuel as [|fuel]; [lia|]).
  rewrite <-(app_nil_r (frame_bytes _)) in Hs.
  eapply (turn_receive _ _ (Message_NoSplit MkNoSplit)); [done|done|exact Hs|done|].
  intros s' (_ & Hc & Hw & _). apply turn_done. done.
Qed.
End pull.
