(* ===== verification/Core.v ===== *)
(** * The daemon's core: [crates/lotusd/src/core.rs]

    The storage, the chain on it, the oldest envelope, the node's keys and its
    subscriptions; every advance of the head goes through [core_insert]. The
    source fixes the backend to SQLite; here it is any [Storage]. Signing is the
    key crate's, a field of [NodeKeys]. *)

From S2P Require Import Prelude BTree Text Codec Externals Keys Subkey Msg Envelope Value.
From S2P Require Import Storage Addr StateError Ledger Chain Change Locator Sync Subscribe.

(** The keys a node runs on: what the ledger key signs, and its public half. *)
Record NodeKeys := MkNodeKeys {
  nk_sign : list u8 → array 64;
  nk_public : array 32;
}.

Record Core (S : Type) := MkCore {
  core_storage : S;
  core_chain : Chain;
  core_oldest : EnvelopeDigest;
  core_keys : NodeKeys;
  core_subscriptions : Subscriptions;
}.
Arguments MkCore {_} core_storage core_chain core_oldest core_keys core_subscriptions.
Arguments core_storage {_} _.
Arguments core_chain {_} _.
Arguments core_oldest {_} _.
Arguments core_keys {_} _.
Arguments core_subscriptions {_} _.

Definition with_chain {S} (self : Core S) (cs : Chain * S) : Core S :=
  MkCore cs.2 cs.1 (core_oldest self) (core_keys self) (core_subscriptions self).

Definition with_subscriptions {S} (self : Core S) (subscriptions : Subscriptions) : Core S :=
  MkCore (core_storage self) (core_chain self) (core_oldest self) (core_keys self) subscriptions.

Definition with_oldest {S} (self : Core S) (oldest : EnvelopeDigest) : Core S :=
  MkCore (core_storage self) (core_chain self) oldest (core_keys self) (core_subscriptions self).

(** A call on the chain over the core's storage. *)
Definition on_chain {S E A} (m : M (Chain * S) E A) : M (Core S) E A := λ self,
  match m (core_chain self, core_storage self) with
  | Ret (r, cs) => Ret (r, with_chain self cs)
  | Panic => Panic
  | Diverge => Diverge
  end.

(** ** Keys *)

Section keys.
Context `{Externals}.

(** The public half, as the ledger's key set holds it. *)
Definition NodeKeys_public_key (self : NodeKeys) : PublicKey :=
  PublicKey_Ed25519 (MkEd25519PublicKey (nk_public self)).

(** Attaches this node's signature. [PublicKey::id] panics where the key does
    not encode. *)
Definition NodeKeys_sign {E} (self : NodeKeys) (envelope : Envelope) : Comp (Error E) Envelope :=
  match Envelope_signature_digest envelope with
  | Err e => c_err (Error_Wire e)
  | Ok digest =>
      let? id := c_expect (PublicKey_id (NodeKeys_public_key self)) in
      c_ok (with_signature envelope id
        (Signature_Ed25519 (MkEd25519Signature (nk_sign self (as_slice (sig_digest_bytes digest))))))
  end.
End keys.

(** ** Reading and writing *)

Section core.
Context `{Externals} {S E : Type} `{Storage S E}.

(** The canonical head this core stands at. *)
Definition head (self : Core S) : EnvelopeDigest := chain_head (core_chain self).

Definition segments_of (path : option SubkeyPath) : list Subkey :=
  match path with Some path => SubkeyPath_as_ref path | None => [] end.

(** Ingests a parent-first run, telling every matching subscriber what the head
    movement changed. *)
Definition core_insert (fuel : nat) (envelopes : list Envelope) : M (Core S) (Error E) Insert := λ self,
  let differ := ChangeDiffer_opened_at (head self) in
  (let! insert := m_catch (on_chain (insert_batch fuel envelopes)) in
   let! head_ := (λ self, Ret (Ok (head self), self)) in
   do! (if decide (head_ = differ_from differ) then m_ret ()
        else
          let! movement := m_ask (λ self, diff fuel differ (core_storage self) head_) in
          λ self, Ret (Ok (), with_subscriptions self
            (publish (core_subscriptions self) (differ_from differ) head_ movement))) in
   m_lift insert) self.

(** The value a path addresses, and the head it was read at. *)
Definition core_read (self : Core S) (key : NamespaceKey) (path : option SubkeyPath)
    : Comp E (EnvelopeDigest * option Value) :=
  let? value := value_at (core_storage self) (head self) key (segments_of path) in
  c_ok (head self, value).

Definition core_meta (self : Core S) (key : NamespaceKey) (path : option SubkeyPath)
    : Comp E (EnvelopeDigest * option ValueMeta) :=
  let? meta := meta_at (core_storage self) (head self) key (segments_of path) in
  c_ok (head self, meta).

(** One listed namespace, with the kind of value at its root. *)
Definition namespace_kind (self : Core S) (key : Result E NamespaceKey)
    : Comp E (NamespaceKey * NodeKind) :=
  match key with
  | Err e => c_err e
  | Ok key =>
      let? r := resolve (core_storage self) (head self) key [] in
      match r with
      | Some (Resolution_Node kind) => c_ok (key, kind)
      | _ => Panic
      end
  end.

(** Every namespace the ledger holds. *)
Definition core_namespaces (self : Core S) : Comp E (EnvelopeDigest * list (NamespaceKey * NodeKind)) :=
  match namespace_keys (core_storage self) (head self) with
  | Ret keys =>
      let? namespaces := c_traverse (namespace_kind self) keys in
      c_ok (head self, namespaces)
  | Panic => Panic
  | Diverge => Diverge
  end.

(** Signs the message [build] makes for the head, and inserts it. *)
Definition sign_write (fuel : nat) (build : EnvelopeDigest → Msg)
    : M (Core S) (Error E) (EnvelopeDigest * Insert) := λ self,
  (let! envelope := m_ask (λ self, NodeKeys_sign (core_keys self) (Envelope_new (build (head self)))) in
   let! digest := m_ask (λ _, match Envelope_digest envelope with
                              | Ok digest => c_ok digest
                              | Err e => c_err (Error_Wire e)
                              end) in
   let! insert := core_insert fuel [envelope] in
   m_ret (digest, insert)) self.

(** Registers a subscription, standing at the head. *)
Definition subscribe (filter : ChangeFilter) : M (Core S) (Error E) SubscriptionHandle := λ self,
  let '(handle, subscriptions) := register (core_subscriptions self) filter (head self) in
  Ret (Ok handle, with_subscriptions self subscriptions).

(** Whether a digest lies on the canonical chain. *)
Definition core_contains (fuel : nat) (self : Core S) (digest : EnvelopeDigest) : Comp (Error E) bool :=
  contains fuel (core_chain self) (core_storage self) digest.

(** A subscription that fires when a digest leaves the chain, if it is on it. *)
Definition watch_orphaned (fuel : nat) (digest : EnvelopeDigest)
    : M (Core S) (Error E) (option SubscriptionHandle) :=
  let! on_it := m_ask (λ self, core_contains fuel self digest) in
  if on_it : bool
  then let! handle := subscribe (ChangeFilter.orphaned digest) in m_ret (Some handle)
  else m_ret None.

(** The envelope the chain is rooted at. *)
Definition root_envelope (self : Core S) : Comp E Envelope :=
  let? stored := envelope (core_storage self) (core_oldest self) in
  c_expect stored.

(** What a joining node is handed to build on. *)
Definition welcome_root (self : Core S) : Comp (Error E) (Envelope * option FullCheckpoint) :=
  let? root := c_map_err Error_Storage (root_envelope self) in
  match payload root with
  | Msg_Init _ => c_ok (root, None)
  | _ =>
      let? ledger := ledger_open (core_storage self) (core_oldest self) in
      let? state := c_map_err Error_Storage (ledger_checkpoint ledger (core_storage self)) in
      c_ok (root, Some state)
  end.

(** Why an envelope signed by this node alone would not apply. *)
Inductive CannotSignAlone : Type :=
  | CannotSignAlone_Weight (own min : N)
  | CannotSignAlone_Signatures (min : N).

(** Whether this node's key alone carries an envelope. *)
Definition signs_alone (self : Core S) : Comp (Error E) (Result CannotSignAlone ()) :=
  let ledger := chain_ledger (core_chain self) in
  let storage := core_storage self in
  let? keys := c_map_err (λ e, Error_Apply e) (trusted_keys ledger storage) in
  let? id := c_expect (PublicKey_id (NodeKeys_public_key (core_keys self))) in
  let weight := from_option weight 0%N (bt_get keys id) in
  let? min_weight := c_map_err (λ e, Error_Apply e) (min_envelope_weight ledger storage) in
  let? min_signatures := c_map_err (λ e, Error_Apply e) (min_envelope_signatures ledger storage) in
  c_ok (if (weight <? min_weight)%N then Err (CannotSignAlone_Weight weight min_weight)
        else if (1 <? min_signatures)%N then Err (CannotSignAlone_Signatures min_signatures)
        else Ok ()).
End core.
