(* ===== verification/CoreSync.v ===== *)
(** * The core's half of a sync session: [Core::sync_answer] and below

    [walk_canonical] streams the canonical path into a consumer, which may stop
    early: a step on an accumulator that goes on or has its answer, and the
    answer when the walk ends. As the source's iterator does, a digest's parent
    is read before the digest is handed out. *)

From S2P Require Import Prelude BTree Text Codec Externals Keys Subkey Msg Envelope Value.
From S2P Require Import Storage Addr StateError Ledger Chain Change Locator Sync Frame SyncDriver.
From S2P Require Import Subscribe Core.

(** What a walk is streamed into. *)
Record Consumer (A T : Type) := MkConsumer {
  on_digest : A → EnvelopeDigest → A + T;
  on_end : A → T;
}.
Arguments MkConsumer {_ _} on_digest on_end.
Arguments on_digest {_ _} _.
Arguments on_end {_ _} _.

(** The consumer over a whole path. *)
Fixpoint consume {A T} (c : Consumer A T) (acc : A) (path : list EnvelopeDigest) : T :=
  match path with
  | [] => on_end c acc
  | digest :: path =>
      match on_digest c acc digest with
      | inl acc => consume c acc path
      | inr answer => answer
      end
  end.

(** [locator::sample(walk)]. *)
Definition sampler : Consumer Sampling (list EnvelopeDigest) :=
  MkConsumer (λ acc digest, inl (sample_next acc digest)) sample_done.

(** [locator::split(&entries, walk)]. *)
Definition splitter (entries : list EnvelopeDigest) : Consumer () (option EnvelopeDigest) :=
  MkConsumer (λ _ digest, if decide (digest ∈ entries) then inr (Some digest) else inl ())
    (λ _, None).

(** What [segment] makes of the walk: the digests newer than [after]. *)
Definition newer_than (after : EnvelopeDigest)
    : Consumer (list EnvelopeDigest) (option (list EnvelopeDigest)) :=
  MkConsumer (λ newer digest, if decide (digest = after) then inr (Some newer) else inl (newer ++ [digest]))
    (λ _, None).

Section core_sync.
Context `{Externals} {S E : Type} `{Storage S E}.

Fixpoint walk_loop {A T} (fuel : nat) (storage : S) (c : Consumer A T) (acc : A) (at_ : EnvelopeDigest)
    : Comp E T :=
  match fuel with
  | 0 => Diverge
  | Datatypes.S fuel =>
      let? up := parent storage at_ in
      match on_digest c acc at_ with
      | inr answer => c_ok answer
      | inl acc =>
          match up with
          | Some p => walk_loop fuel storage c acc p
          | None => c_ok (on_end c acc)
          end
      end
  end.

(** Streams the canonical path, newest first, into [c]. *)
Definition walk_canonical {A T} (fuel : nat) (self : Core S) (c : Consumer A T) (acc : A) : Comp E T :=
  walk_loop fuel (core_storage self) c acc (head self).

(** The loop that fills a segment, oldest envelope first. *)
Fixpoint fill_segment (self : Core S) (budget : N) (segment : list Envelope) (digests : list EnvelopeDigest)
    : Comp E (list Envelope) :=
  match digests with
  | [] => c_ok segment
  | digest :: digests =>
      let? stored := envelope (core_storage self) digest in
      let? envelope := c_expect stored in
      let? bytes := c_expect (match encode (ser_envelope envelope) with Ok b => Some b | Err _ => None end) in
      let cost := N.of_nat (length bytes) in
      if bool_decide (segment ≠ []) && (budget <? cost)%N then c_ok segment
      else fill_segment self (budget - cost) (segment ++ [envelope]) digests
  end.

(** The canonical path just after [after], parent-first, within the budgets. *)
Definition segment (fuel : nat) (self : Core S) (after : EnvelopeDigest) : Comp E (list Envelope) :=
  let? newer := walk_canonical fuel self (newer_than after) [] in
  match newer with
  | None => c_ok []
  | Some newer => fill_segment self SEGMENT_BYTE_BUDGET [] (take MAX_BATCH_ENVELOPES (reverse newer))
  end.

(** Answers one sync-machine query against this node's chain. *)
Definition sync_answer (fuel : nat) (self : Core S) (query : Query) : Comp E Answer :=
  match query with
  | Query_ContainsEnvelope digest =>
      let? stored := envelope (core_storage self) digest in
      c_ok (Answer_Contains (bool_decide (is_Some stored)))
  | Query_Locator =>
      let? entries := walk_canonical fuel self sampler sample_start in
      c_ok (Answer_Locator entries)
  | Query_SplitPoint entries =>
      let? at_ := walk_canonical fuel self (splitter entries) () in
      c_ok (Answer_SplitPoint at_)
  | Query_Segment after =>
      let? batch := segment fuel self after in
      c_ok (Answer_Segment batch)
  end.
End core_sync.

(** ** [impl SyncCore for &mut Core] *)

Section instance.
Context `{Externals} {S E : Type} `{Storage S E} {IoError : Type}.

(** The fuel the core's loops run on, for the log it holds and the run it takes. *)
Variable fuel : Core S → list Envelope → nat.

Definition sync_head : M (Core S) (SyncError IoError (Error E)) EnvelopeDigest :=
  λ self, Ret (Ok (head self), self).

Definition sync_answers (query : Query) : M (Core S) (SyncError IoError (Error E)) Answer :=
  m_ask (λ self, c_map_err (λ err, SyncError_Answer (Error_Storage err)) (sync_answer (fuel self []) self query)).

Definition sync_ingest (run : list Envelope) : M (Core S) (SyncError IoError (Error E)) () :=
  let! _ := m_map_err SyncError_Ingest (λ self, core_insert (fuel self run) run self) in m_ret ().

Definition Core_SyncCore : SyncCore (Core S) IoError (Error E) := {|
  core_head := sync_head;
  core_answer := sync_answers;
  core_ingest := sync_ingest;
|}.
End instance.
