(* ===== verification/CorePath.v ===== *)
(** * What the core answers a session

    The canonical path as a list, newest first ([way_up] of [ChainCompact]), and
    the specifications of the walk and the segment over it. *)

From S2P Require Import Prelude BTree Text Codec Externals Keys Subkey Msg Envelope Value.
From S2P Require Import Storage Addr StateError Ledger LedgerSpec LedgerProps Chain ChainSpec ChainCompact.
From S2P Require Import Change Locator Sync Frame SyncDriver Contract Subscribe Core CoreSync.

(** ** The path *)

(** The way up from a digest, as far as the log reaches. *)
Fixpoint log_path (n : nat) (lg : gmap EnvelopeDigest Envelope) (at_ : EnvelopeDigest)
    : list EnvelopeDigest :=
  at_ :: match n, lg !! at_ ≫= prev_of with
         | S n, Some p => log_path n lg p
         | _, _ => []
         end.

Definition canonical_path (lg : gmap EnvelopeDigest Envelope) (head : EnvelopeDigest) : list EnvelopeDigest :=
  log_path (size lg) lg head.

Lemma logged_child_prev lg p d : logged_child lg p d → lg !! d ≫= prev_of = Some p.
Proof. intros (e & He & Hp). by rewrite He. Qed.

Lemma log_path_way lg n at_ way : way_up lg at_ way → length way ≤ n → log_path n lg at_ = at_ :: way.
Proof.
  revert n at_. induction way as [|p way IH]; intros n at_; simpl.
  - intros Hnone _. destruct n; simpl; [done|]. by rewrite Hnone.
  - intros [Hc Hup] Hn. destruct n as [|n]; [lia|]. simpl.
    rewrite (logged_child_prev _ _ _ Hc). f_equal. apply IH; [done|lia].
Qed.

Lemma canonical_way_length rank lg at_ way :
  ranked rank lg → way_up lg at_ way → length way ≤ not_higher rank lg at_.
Proof.
  intros Hr. revert at_. induction way as [|p way IH]; intros at_; simpl; [lia|].
  intros [Hc Hup]. specialize (IH p Hup). pose proof (Hr _ _ Hc). pose proof Hc as (e & He & _).
  pose proof (not_higher_parent rank lg p at_ ltac:(by eexists) ltac:(done)). lia.
Qed.

Lemma way_exists rank lg at_ : ranked rank lg → ∃ way, way_up lg at_ way ∧ length way ≤ size lg.
Proof.
  intros Hr. assert (∃ way, way_up lg at_ way) as [way Hway].
  { assert (∃ n, not_higher rank lg at_ < n) as [n Hn] by (eexists; constructor).
    revert at_ Hn. induction n as [|n IH]; intros at_ Hn; [lia|].
    destruct (lg !! at_ ≫= prev_of) as [p|] eqn:Hp; [|by exists []].
    apply bind_Some in Hp as (e & He & Hp). assert (logged_child lg p at_) as Hc by (by exists e).
    pose proof (not_higher_parent rank lg p at_ ltac:(by eexists) (Hr _ _ Hc)).
    destruct (IH p) as [way Hway]; [lia|]. by exists (p :: way). }
  exists way. split; [done|]. pose proof (canonical_way_length _ _ _ _ Hr Hway).
  pose proof (not_higher_le rank lg at_). lia.
Qed.

Lemma canonical_path_way rank lg head :
  ranked rank lg → ∃ way, canonical_path lg head = head :: way ∧ way_up lg head way ∧ length way ≤ size lg.
Proof.
  intros Hr. destruct (way_exists rank lg head Hr) as (way & Hway & Hlen). exists way.
  split; [by apply log_path_way|done].
Qed.

(** ** The walk *)

Lemma walk_loop_cwp {S E A T : Type} `{StorageSpec S E} (fuel : nat) (s : S) (c : Consumer A T) acc at_ way :
  storage_ok s → way_up (log (view s)) at_ way → length way < fuel →
  cwp (walk_loop fuel s c acc at_) (λ t, t = consume c acc (at_ :: way)) (λ _, True).
Proof.
  intros Hs. revert fuel acc at_.
  induction way as [|p way IH]; intros fuel acc at_ Hway Hfuel; (destruct fuel as [|fuel]; [lia|]);
    simpl; apply cwp_bind; (eapply cwp_mono; [by apply parent_spec| |done]); intros up ->; simpl in Hway.
  - rewrite Hway. by destruct (on_digest c acc at_).
  - destruct Hway as [Hc Hup]. rewrite (logged_child_prev _ _ _ Hc).
    destruct (on_digest c acc at_) as [acc'|]; [|done]. apply (IH fuel acc' p Hup). simpl in *. lia.
Qed.

(** What the three consumers make of a path. *)
Lemma consume_sampler path : consume sampler sample_start path = sample path.
Proof. unfold sample. generalize sample_start. induction path as [|d path IH]; intros acc; [done|apply IH]. Qed.

Lemma consume_splitter locator path : consume (splitter locator) () path = split locator path.
Proof.
  unfold split. induction path as [|d path IH]; [done|]. simpl.
  case_decide; [by rewrite bool_decide_true|]. by rewrite bool_decide_false.
Qed.

Lemma consume_newer after acc path :
  consume (newer_than after) acc path = None ∧ after ∉ path ∨
  ∃ newer older, path = newer ++ after :: older ∧ after ∉ newer ∧
    consume (newer_than after) acc path = Some (acc ++ newer).
Proof.
  revert acc. induction path as [|d path IH]; intros acc; simpl.
  - left. split; [done|]. apply not_elem_of_nil.
  - case_decide as Hd.
    + subst d. right. exists [], path. rewrite app_nil_r. split_and!; [done|apply not_elem_of_nil|done].
    + destruct (IH (acc ++ [d])) as [[-> Hn]|(newer & older & -> & Hn & ->)].
      * left. split; [done|]. by rewrite not_elem_of_cons.
      * right. exists (d :: newer), older. rewrite <-app_assoc. split_and!; [done|by rewrite not_elem_of_cons|done].
Qed.

(** ** Linked runs of the log *)

Section linked_path.
Context `{Externals}.

(** The envelopes of some digests. *)
Definition logged_as (lg : gmap EnvelopeDigest Envelope) (ds : list EnvelopeDigest) (es : list Envelope) : Prop :=
  Forall2 (λ d e, lg !! d = Some e) ds es.

Definition pinned_log (lg : gmap EnvelopeDigest Envelope) : Prop :=
  ∀ d e, lg !! d = Some e → Envelope_digest e = Ok d.

Lemma path_linked lg at_ way newer after older :
  pinned_log lg → way_up lg at_ way → at_ :: way = newer ++ after :: older →
  ∃ es, logged_as lg (reverse newer) es ∧ linked after es at_.
Proof.
  intros Hpin. revert at_ way. induction newer as [|d newer IH]; intros at_ way Hway Heq.
  - injection Heq as -> _. exists []. split; [constructor|done].
  - injection Heq as -> Hw. destruct way as [|p way]; [by destruct newer|].
    destruct Hway as [(e & He & Hp) Hup]. destruct (IH p way Hup Hw) as (es & Hes & Hl).
    exists (es ++ [e]). rewrite reverse_cons. split.
    + apply Forall2_app; [done|]. by repeat constructor.
    + eapply linked_app; [done|]. split; [done|]. exists d. split; [by apply Hpin|done].
Qed.

(** A non-empty part of such a run, from its start, ends at one of its digests. *)
Lemma linked_prefix lg ds es after tip k :
  pinned_log lg → logged_as lg ds es → linked after es tip →
  ∃ mid, linked after (take k es) mid ∧ linked mid (drop k es) tip ∧
    (take k es ≠ [] → mid ∈ ds).
Proof.
  intros Hpin Hes. revert after k. induction Hes as [|d e ds es Hd Hes IH]; intros after k; simpl.
  - intros ->. exists after. by rewrite take_nil, drop_nil.
  - intros (Hp & d' & Hd' & Hl). rewrite (Hpin _ _ Hd) in Hd'. injection Hd' as <-.
    destruct k as [|k]; [exists after; split_and!; [done|split; [done|]; exists d; split; [by apply Hpin|done]|done]|].
    simpl. destruct (IH d k Hl) as (mid & Hm & Hrest & Hin).
    exists mid. split; [split; [done|]; exists d; split; [by apply Hpin|done]|]. split; [done|].
    intros _. destruct (take k es) eqn:Ht; [simpl in Hm; subst mid; by left|right; by apply Hin].
Qed.
End linked_path.

(** ** The segment *)

Section segment.
Context `{Externals} {S E : Type} `{StorageSpec S E}.

(** What encodes for its digest encodes. *)
Lemma digest_encodes e d : Envelope_digest e = Ok d → ∃ bytes, encode (ser_envelope e) = Ok bytes.
Proof using.
  unfold Envelope_digest, encode_hash, encode. destruct (to_canonical_vec _) as [bytes|]; [|done].
  by exists bytes.
Qed.

(** A segment is a start of the run it is taken from, and a non-empty one of a
    non-empty run: its first envelope goes whatever its size. *)
Lemma fill_segment_cwp (self : Core S) budget acc ds es :
  storage_ok (core_storage self) → pinned_log (log (view (core_storage self))) →
  logged_as (log (view (core_storage self))) ds es →
  cwp (fill_segment self budget acc ds)
    (λ l, ∃ k, l = acc ++ take k es ∧ (acc = [] → es ≠ [] → 0 < k)) (λ _, True).
Proof using.
  intros Hs Hpin Hes. revert budget acc. induction Hes as [|d e ds es Hd Hes IH]; intros budget acc; simpl.
  - exists 0. by rewrite app_nil_r.
  - apply cwp_bind. eapply cwp_mono; [by apply envelope_spec| |done]. intros stored ->. rewrite Hd. simpl.
    destruct (digest_encodes e d (Hpin _ _ Hd)) as [bytes Hbytes]. rewrite Hbytes. simpl.
    destruct (_ && _) eqn:Hstop.
    + apply andb_true_iff in Hstop as [Hne%bool_decide_eq_true _]. exists 0.
      by rewrite take_0, app_nil_r.
    + eapply cwp_mono; [apply IH| |done]. intros l (k & -> & _). exists (Datatypes.S k).
      simpl. rewrite <-app_assoc. split; [done|lia].
Qed.

(** The segment after a digest: nothing where it is not on the path or is the
    head; otherwise the start of the run from there to the head. *)
Lemma segment_cwp (fuel : nat) (self : Core S) after way :
  let lg := log (view (core_storage self)) in
  storage_ok (core_storage self) → pinned_log lg → way_up lg (head self) way → length way < fuel →
  cwp (segment fuel self after)
    (λ l, length l ≤ MAX_BATCH_ENVELOPES ∧
      ((l = [] ∧ (after ∉ head self :: way ∨ after = head self)) ∨
       ∃ newer older es k, head self :: way = newer ++ after :: older ∧ after ∉ newer ∧
         logged_as lg (reverse newer) es ∧ linked after es (head self) ∧ l = take k es ∧ l ≠ []))
    (λ _, True).
Proof using.
  intros lg Hs Hpin Hway Hfuel. unfold segment. apply cwp_bind. unfold walk_canonical.
  eapply cwp_mono; [by apply (walk_loop_cwp _ _ _ _ _ way)| |done]. intros newer ->.
  destruct (consume_newer after [] (head self :: way)) as [[-> Hn]|(newer & older & Hpath & Hn & ->)].
  - split; [simpl; lia|]. left. split; [done|by left].
  - destruct (path_linked lg (head self) way newer after older Hpin Hway Hpath) as (es & Hes & Hl). simpl.
    eapply cwp_mono; [apply (fill_segment_cwp self SEGMENT_BYTE_BUDGET []
      (take MAX_BATCH_ENVELOPES (reverse newer)) (take MAX_BATCH_ENVELOPES es)); [done..|]| |done].
    { by apply Forall2_take. }
    intros l (k & -> & Hk). simpl. rewrite take_take. split; [rewrite length_take; lia|].
    destruct (decide (es = [])) as [->|Hne].
    + left. rewrite take_nil. split; [done|]. right. by simpl in Hl.
    + right. exists newer, older, es, (k `min` MAX_BATCH_ENVELOPES). split_and!; [done..|].
      destruct es as [|e es]; [done|]. destruct k as [|k]; [|done]. by specialize (Hk eq_refl ltac:(done)); lia.
Qed.
End segment.
