(* ===== verification/CoreSpec.v ===== *)
(** * The core's contract

    The invariant a core keeps over its chain and storage, the specification of
    [core_insert], and the core as the [SyncCoreSpec] a session is proved
    against. *)

From S2P Require Import Prelude BTree Text Codec Externals Keys Subkey Msg Envelope Value.
From S2P Require Import Storage Addr StateError Ledger LedgerSpec LedgerProps Chain ChainSpec ChainStore.
From S2P Require Import ChainInsert ChainCompact Change ChangeSpec ChangeWalk.
From S2P Require Import Locator Sync Frame SyncDriver Contract DriverSpec Subscribe Core CoreSync CorePath.

(** The chain is in order, its head held and on the way from its root. *)
Record core_sound `{Externals} {S E : Type} `{StorageSpec S E}
    (pins : EnvelopeDigest → option Msg) (self : Core S) : Prop := {
  cs_chain : chain_ok pins (core_chain self) (core_storage self);
  cs_held : is_Some (versions (view (core_storage self)) !! head self);
  cs_rooted : ancestor (log (view (core_storage self))) (chain_root (core_chain self)) (head self);
}.

(** What a core never changes by inserting. *)
Definition same_node {S} (self self' : Core S) : Prop :=
  chain_root (core_chain self') = chain_root (core_chain self) ∧
  core_oldest self' = core_oldest self ∧ core_keys self' = core_keys self.

Section core.
Context `{Externals} {S E : Type} `{StorageSpec S E}.
Variables (pins : EnvelopeDigest → option Msg) (rank : EnvelopeDigest → nat).
Hypothesis Hid : ∀ k, is_Some (Key_id k).
Hypothesis Hhash : HashOk pins rank.
Implicit Types (self : Core S) (s : S).

Abbreviation lg self := (log (view (core_storage self))) (only parsing).

(** What was published: nothing where the head stayed, and the movement between
    the two heads where it moved. *)
Definition announced self self' : Prop :=
  (head self' = head self ∧ core_subscriptions self' = core_subscriptions self) ∨
  (head self' ≠ head self ∧ ∃ mv msgs,
    movement_ok (core_storage self') (head self) (head self') mv msgs ∧
    core_subscriptions self' = publish (core_subscriptions self) (head self) (head self') mv).

(** How an insert fails: the chain refuses it, with the movement of whatever it
    stored published all the same; or the backend fails the diff, and the
    movement goes unpublished. *)
Definition core_fails self run (e : Error E) self' : Prop :=
  (insert_fails (core_chain self) (core_storage self) run e (core_chain self') (core_storage self') ∧
    announced self self') ∨
  ((∃ x, e = Error_Storage x) ∧ head self' ≠ head self ∧
    core_subscriptions self' = core_subscriptions self).

Lemma wp_on_chain {A} (m : M (Chain * S) (Error E) A) self (Q : A → Core S → Prop) X :
  wp m (core_chain self, core_storage self) (λ a cs, Q a (with_chain self cs))
    (λ e cs, X e (with_chain self cs)) → wp (on_chain m) self Q X.
Proof using. unfold wp, on_chain. by destruct (m _) as [[[a|e] cs]| |]. Qed.

Lemma ancestor_grows lg1 lg2 a b : lg1 ⊆ lg2 → ancestor lg1 a b → ancestor lg2 a b.
Proof using.
  intros Hsub. apply rtc_subrel. intros x y (e & He & Hp). exists e. split; [by eapply lookup_weaken|done].
Qed.

(** The way to a held head survives what a failed walk does to the log. *)
Lemma ancestor_survives st st1 st' root h d :
  chain_inv pins root st → is_Some (versions st !! h) → ancestor (log st) root h →
  log st ⊆ log st1 → extends st st' → versions st' !! d = None → log st' = delete d (log st1) →
  ancestor (log st') root h.
Proof using Hhash.
  intros Hinv Hheld Hanc Hsub Hext Hnone Hlog.
  assert (∀ x, ancestor (log st) root x → ancestor (log st) x h → ancestor (log st') x h) as Hgen.
  { intros x Hrx Hxh. induction Hxh as [x|x y h Hc Hyh IH]; [apply rtc_refl|].
    assert (ancestor (log st) root y) as Hry by (by eapply rtc_r).
    eapply rtc_l; [|by apply IH]. destruct Hc as (e & He & Hp). exists e. split; [|done].
    rewrite Hlog, lookup_delete_ne; [by eapply lookup_weaken|]. intros ->.
    pose proof (ancestor_held pins rank Hhash st root y h Hinv Hry Hyh Hheld) as Hy.
    destruct (extends_held _ _ _ Hext Hy) as [v Hv]. congruence. }
  apply Hgen; [apply rtc_refl|done].
Qed.

(** A core after an insert that failed. *)
Lemma sound_failed self run e cs :
  core_sound pins self → chain_ok pins cs.1 cs.2 → chain_root cs.1 = chain_root (core_chain self) →
  insert_fails (core_chain self) (core_storage self) run e cs.1 cs.2 →
  core_sound pins (with_chain self cs) ∧
  size (log (view cs.2)) ≤ size (lg self) + length run ∧
  ancestor (log (view cs.2)) (chain_root (core_chain self)) (head self).
Proof using Hhash.
  intros [Hok Hheld Hanc] Hok' Hroot (Hext & prefix & rest & s1 & Hrun & Hext1 & Hcases).
  assert (length prefix ≤ length run) as Hlen by (rewrite Hrun, length_app; lia).
  destruct Hcases as [(Huntil & Hlog & [Hpath _] & Hheld')|(Hsame & Hw & Hstored)].
  - pose proof (fails_stored (core_chain self) _ _ _ _ _ cs.2 Huntil Hext1 Hlog) as Hfrom.
    pose proof (stored_from_size _ _ _ Hfrom). split_and!; [|lia|].
    + split; [done|done|]. simpl. rewrite Hroot. by apply winner_ancestor.
    + eapply ancestor_grows; [apply Hfrom|done].
  - assert (stored_from (view (core_storage self)) prefix (view s1)) as Hfrom
      by (by destruct Hstored as [[? _]|(e0 & ? & _)]).
    pose proof (stored_from_size _ _ _ Hfrom).
    assert (ancestor (log (view cs.2)) (chain_root (core_chain self)) (head self) ∧
      size (log (view cs.2)) ≤ size (log (view s1))) as [Hanc' Hsize].
    { destruct Hw as [[Hlog _]|(at_ & d & err & _ & _ & Hnone & Hlog & _)].
      - rewrite Hlog. split; [|done]. eapply ancestor_grows; [apply Hfrom|done].
      - split.
        + eapply ancestor_survives; [apply Hok|done|done|apply Hfrom|done|done|done].
        + rewrite Hlog, map_size_delete. destruct (log (view s1) !! d); simpl; lia. }
    split_and!; [|lia|done]. split; [done| |].
    + unfold head. simpl. rewrite Hsame. by apply (extends_held _ _ _ Hext).
    + unfold head. simpl. by rewrite Hsame.
Qed.

Lemma sound_same self self' :
  core_sound pins self → core_chain self' = core_chain self → core_storage self' = core_storage self →
  core_sound pins self'.
Proof using. intros [Hok Hheld Hanc] Hc Hs. split; unfold head; by rewrite ?Hc, ?Hs. Qed.

(** What the insert leaves is told to the subscribers. *)
Lemma publish_wp (fuel : nat) self self1 (insert : Result (Error E) Insert) (Q : Insert → Core S → Prop) X :
  core_sound pins self1 → 2 * size (lg self1) < fuel →
  core_subscriptions self1 = core_subscriptions self →
  ancestor (lg self1) (chain_root (core_chain self1)) (head self) →
  (∀ self', core_chain self' = core_chain self1 → core_storage self' = core_storage self1 →
    core_oldest self' = core_oldest self1 → core_keys self' = core_keys self1 → announced self self' →
    match insert with Ok i => Q i self' | Err e => X e self' end) →
  (∀ x, head self1 ≠ head self → X (Error_Storage x) self1) →
  wp (let! head_ := (λ self, Ret (Ok (head self), self)) in
      do! (if decide (head_ = differ_from (ChangeDiffer_opened_at (head self))) then m_ret ()
           else
             let! movement := m_ask (λ self', diff fuel (ChangeDiffer_opened_at (head self)) (core_storage self') head_) in
             λ self', Ret (Ok (), with_subscriptions self'
               (publish (core_subscriptions self') (head self) head_ movement))) in
      m_lift insert) self1 Q X.
Proof using Hhash.
  intros [Hok Hheld Hanc] Hfuel Hsubs Hold HQ HX. apply wp_bind. unfold wp at 1.
  apply wp_bind. cbn [differ_from ChangeDiffer_opened_at]. case_decide as Heq.
  - apply wp_ret, wp_lift. pose proof (HQ self1 eq_refl eq_refl eq_refl eq_refl (or_introl (conj Heq Hsubs))) as Hr.
    by destruct insert.
  - apply wp_bind, wp_ask.
    pose proof (inv_ranked pins rank Hhash _ _ (co_inv _ _ _ Hok)) as Hr.
    eapply cwp_mono; [apply (diff_cwp rank (core_storage self1) (co_storage _ _ _ Hok) Hr fuel (head self)
      (head self1) Hfuel)| |].
    + intros mv (msgs & Hmv). unfold wp at 1. apply wp_lift.
      assert (∀ self', self' = with_subscriptions self1 (publish (core_subscriptions self1) (head self) (head self1) mv) →
        announced self self') as Hann.
      { intros self' ->. right. simpl. split; [done|]. exists mv, msgs. by rewrite <-Hsubs. }
      pose proof (HQ (with_subscriptions self1 _) eq_refl eq_refl eq_refl eq_refl (Hann _ eq_refl)) as Hres. by destruct insert.
    + intros e [[x ->]|[_ Hdiv]]; [by apply HX|]. by destruct (Hdiv _ Hold).
Qed.

(** [core_insert]: what [insert_batch] does, with every movement of the head
    published. *)
Lemma core_insert_wp (fuel : nat) (run : list Envelope) self :
  core_sound pins self → batch_pinned pins run →
  2 * (size (lg self) + length run) + 1 < fuel →
  wp (core_insert fuel run) self
    (λ ins self', core_sound pins self' ∧ same_node self self' ∧
      stored_from (view (core_storage self)) run (view (core_storage self')) ∧
      tip (lg self') (chain_root (core_chain self)) (head self') ∧
      insert_reads (core_chain self) (core_chain self') (view (core_storage self))
        (view (core_storage self')) run ins ∧
      announced self self')
    (λ e self', core_sound pins self' ∧ same_node self self' ∧
      extends (view (core_storage self)) (view (core_storage self')) ∧
      core_fails self run e self').
Proof using Hid Hhash.
  intros Hsound Hpins Hfuel. pose proof Hsound as [Hok Hheld Hanc]. unfold core_insert.
  apply wp_bind, wp_catch, wp_on_chain.
  eapply wp_mono; [apply (insert_batch_wp pins rank Hid Hhash fuel run _ _ Hok Hpins); lia|..].
  - intros ins cs (Hok' & Hroot & Hfrom & Hheld' & Htip & Hreads). pose proof (stored_from_size _ _ _ Hfrom).
    assert (core_sound pins (with_chain self cs)) as Hsound'.
    { split; [done|done|]. simpl. rewrite Hroot. apply winner_ancestor, Htip. }
    apply (publish_wp fuel self (with_chain self cs) (Ok ins)); [done|simpl; lia|done| | |].
    + simpl. rewrite Hroot. eapply ancestor_grows; [apply Hfrom|done].
    + intros self' Hc Hst Ho Hk Hann. split; [by eapply sound_same|].
      unfold same_node, head. rewrite Hc, Hst, Ho, Hk. done.
    + intros x Hne. split; [done|]. split; [done|]. split; [apply Hfrom|]. right. split; [by eexists|done].
  - intros e cs (Hok' & Hroot & Hfails).
    destruct (sound_failed self run e cs Hsound Hok' Hroot Hfails) as (Hsound' & Hsize & Hold).
    apply (publish_wp fuel self (with_chain self cs) (Err e)); [done|simpl; lia|done| | |].
    + simpl. by rewrite Hroot.
    + intros self' Hc Hst Ho Hk Hann. unfold same_node. rewrite Hc, Hst, Ho, Hk. simpl.
      split; [by eapply sound_same|]. split; [done|].
      split; [apply Hfails|]. left. rewrite Hc, Hst. by split.
    + intros x Hne. split; [done|]. split; [done|]. split; [apply Hfails|]. right. split; [by eexists|done].
Qed.
End core.
