(* ===== verification/CoreSession.v ===== *)
(** * The core as a session's chain

    [Core] discharges [SyncCoreSpec]: its locators and segments are what a
    session may be answered, and what it ingests goes through the one path that
    advances the chain. *)

From S2P Require Import Prelude BTree Text Codec Externals Keys Subkey Msg Envelope Value.
From S2P Require Import Storage Addr StateError Ledger LedgerSpec LedgerProps Chain ChainSpec ChainStore.
From S2P Require Import ChainInsert ChainCompact Change ChangeSpec ChangeWalk.
From S2P Require Import Locator Sync Frame SyncDriver Contract DriverSpec Subscribe Core CoreSync CorePath.
From S2P Require Import CoreSpec.

(** The place of a digest on a path. *)
Definition path_index (path : list EnvelopeDigest) (d : EnvelopeDigest) : nat :=
  match list_find (λ x, x = d) path with Some (i, _) => i | None => 0 end.

Lemma path_index_eq newer d older : d ∉ newer → path_index (newer ++ d :: older) d = length newer.
Proof.
  intros Hn. unfold path_index. rewrite list_find_app_r by (apply list_find_None, Forall_forall; naive_solver).
  simpl. rewrite decide_True by done. simpl. lia.
Qed.

Lemma path_index_lt newer d older : d ∈ newer → path_index (newer ++ older) d < length newer.
Proof.
  intros Hin. unfold path_index. destruct (list_find_elem_of (λ x, x = d) newer d Hin eq_refl) as [[i x] Hi].
  erewrite list_find_app_l by done. apply list_find_Some in Hi as (Hi & _). by apply lookup_lt_Some in Hi.
Qed.

Lemma path_index_le path d : path_index path d ≤ length path.
Proof.
  unfold path_index. destruct (list_find _ path) as [[i x]|] eqn:Hi; [|lia].
  apply list_find_Some in Hi as (Hi & _). apply lookup_lt_Some in Hi. lia.
Qed.

Section session.
Context `{Externals} {S E : Type} `{StorageSpec S E} (IoError : Type).
Variables (pins : EnvelopeDigest → option Msg) (rank : EnvelopeDigest → nat).
Hypothesis Hid : ∀ k, is_Some (Key_id k).
Hypothesis Hhash : HashOk pins rank.
Variable fuel : Core S → list Envelope → nat.
Hypothesis Hfuel : ∀ self run, 2 * (size (log (view (core_storage self))) + length run) + 1 < fuel self run.
Implicit Types (self : Core S).

Abbreviation lg self := (log (view (core_storage self))) (only parsing).

Definition at_tip self : Prop := tip (lg self) (chain_root (core_chain self)) (head self).

(** From a core to one that has taken a run: its store is the run's, and the head
    stands at the tip if it did, or if there was anything to take. *)
Record took self (run : list Envelope) self' : Prop := {
  took_node : same_node self self';
  took_stored : stored_from (view (core_storage self)) run (view (core_storage self'));
  took_tip : at_tip self → at_tip self';
}.

(** Nothing is lost, and everything of the run is known. *)
Lemma took_extends self run self' : took self run self' → extends (view (core_storage self)) (view (core_storage self')).
Proof using. intros Htook. apply Htook. Qed.

Lemma took_size self run self' : took self run self' → size (lg self') ≤ size (lg self) + length run.
Proof using. intros Htook. by apply stored_from_size, Htook. Qed.

Lemma took_known self run self' : took self run self' → Forall (known (view (core_storage self'))) run.
Proof using. intros Htook. apply Forall_forall. intros e He. by apply (sf_known _ _ _ (took_stored _ _ _ Htook)). Qed.

Definition evolves self self' : Prop :=
  same_node self self' ∧ extends (view (core_storage self)) (view (core_storage self')).

Lemma same_node_trans self self1 self2 : same_node self self1 → same_node self1 self2 → same_node self self2.
Proof using. intros (? & ? & ?) (? & ? & ?). split_and!; congruence. Qed.

Lemma took_nil self : took self [] self.
Proof using. split; [done|apply stored_from_refl|done]. Qed.

Lemma took_app self run self1 run' self2 :
  took self run self1 → took self1 run' self2 → took self (run ++ run') self2.
Proof using.
  intros [Hn Hs Ht] [Hn' Hs' Ht']. split; [by eapply same_node_trans|by eapply stored_from_trans|auto].
Qed.

Lemma took_insert self run self' :
  same_node self self' → stored_from (view (core_storage self)) run (view (core_storage self')) →
  tip (lg self') (chain_root (core_chain self)) (head self') → took self run self'.
Proof using.
  intros Hn Hfrom Htip. split; [done|done|]. intros _. unfold at_tip. destruct Hn as (-> & _). done.
Qed.

Lemma pinned_log_sound self : core_sound pins self → pinned_log (lg self).
Proof using. intros [[_ Hinv _] _ _] d e He. by apply (inv_pinned _ _ _ Hinv). Qed.

Lemma sound_ranked self : core_sound pins self → ranked rank (lg self).
Proof using Hhash. intros [[_ Hinv _] _ _]. by apply (inv_ranked pins rank Hhash _ _ Hinv). Qed.

(** What the core answers, question by question. *)
Definition answered self (q : Query) (a : Answer) : Prop :=
  let path := canonical_path (lg self) (head self) in
  match q, a with
  | Query_ContainsEnvelope d, Answer_Contains b => b = bool_decide (is_Some (lg self !! d))
  | Query_Locator, Answer_Locator l => l = sample path
  | Query_SplitPoint l, Answer_SplitPoint at_ => at_ = split l path
  | Query_Segment after, Answer_Segment l =>
      length l ≤ MAX_BATCH_ENVELOPES ∧
      ((l = [] ∧ (after ∉ path ∨ after = head self)) ∨
       ∃ newer older es k, path = newer ++ after :: older ∧ after ∉ newer ∧
         logged_as (lg self) (reverse newer) es ∧ linked after es (head self) ∧ l = take k es ∧ l ≠ [])
  | _, _ => False
  end.

Lemma sync_answer_cwp (n : nat) self (q : Query) :
  core_sound pins self → size (lg self) < n →
  cwp (sync_answer n self q) (answered self q) (λ _, True).
Proof using Hhash.
  intros Hsound Hn. pose proof (sound_ranked _ Hsound) as Hr. pose proof (pinned_log_sound _ Hsound) as Hpin.
  pose proof (co_storage _ _ _ (cs_chain _ _ Hsound)) as Hs.
  destruct (canonical_path_way rank (lg self) (head self) Hr) as (way & Hpath & Hway & Hlen).
  unfold sync_answer, answered, walk_canonical. rewrite Hpath.
  destruct q as [d| |entries|after]; apply cwp_bind.
  - eapply cwp_mono; [by apply envelope_spec| |done]. by intros o ->.
  - eapply cwp_mono; [apply (walk_loop_cwp _ _ _ _ _ way); [done..|lia]| |done].
    intros l ->. apply consume_sampler.
  - eapply cwp_mono; [apply (walk_loop_cwp _ _ _ _ _ way); [done..|lia]| |done].
    intros l ->. apply consume_splitter.
  - eapply cwp_mono; [apply (segment_cwp _ _ _ way); [done..|lia]| |done]. done.
Qed.

(** Within the contract's budgets, and nearer the head each time. *)
Lemma answered_ok self q a :
  core_sound pins self → (q = Query_Locator → (N.of_nat (size (lg self)) < 2 ^ 62)%N) → answered self q a →
  answer_ok q a ∧
  match q, a with
  | Query_Segment after, Answer_Segment l =>
      l ≠ [] → ∀ tip, linked after l tip →
      path_index (canonical_path (lg self) (head self)) tip <
      path_index (canonical_path (lg self) (head self)) after
  | _, _ => True
  end.
Proof using Hhash.
  intros Hsound Hcap. pose proof (pinned_log_sound _ Hsound) as Hpin.
  destruct (canonical_path_way rank (lg self) (head self) (sound_ranked _ Hsound)) as (way & Hpath & _ & Hlen).
  unfold answered. rewrite Hpath. destruct q as [d| |entries|after], a as [b|l|at_|l]; try done; simpl.
  - intros ->. split; [|done]. split; [by rewrite sample_nil|]. apply length_sample.
    specialize (Hcap eq_refl). simpl. lia.
  - intros [Hl [[-> _]|(newer & older & es & k & Hp & Hn & Hes & Hlink & -> & Hne)]].
    + split; [split; [simpl; lia|by exists after]|done].
    + destruct (linked_prefix (lg self) (reverse newer) es after (head self) k Hpin Hes Hlink)
        as (mid & Hmid & _ & Hin).
      split; [split; [done|by exists mid]|]. intros _ tip Htip.
      rewrite <-(linked_fun _ _ _ _ Hmid Htip), Hp. rewrite (path_index_eq _ _ _ Hn).
      apply path_index_lt. by apply elem_of_reverse, Hin.
Qed.

#[local] Instance Core_session : SyncCore (Core S) IoError (Error E) := Core_SyncCore fuel.

#[local] Program Instance Core_session_spec : SyncCoreSpec (Core S) IoError (Error E) := {|
  core_ok := core_sound pins;
  core_took := took;
  core_evolves := evolves;
  run_ok := batch_pinned pins;
  core_rest self d := path_index (canonical_path (lg self) (head self)) d;
  core_length self := size (lg self) + 1;
  locatable self := (N.of_nat (size (lg self)) < 2 ^ 62)%N;
|}.
Next Obligation. exact took_nil. Qed.
Next Obligation. exact took_app. Qed.
Next Obligation. intros self run self' Htook. split; [apply Htook|by eapply took_extends]. Qed.
Next Obligation.
  intros self self1 self2 [Hn He] [Hn' He']. split; [by eapply same_node_trans|by eapply extends_trans].
Qed.
Next Obligation. intros self self' Htook Hcap. pose proof (took_size _ _ _ Htook). simpl in *. lia. Qed.
Next Obligation.
  intros self d Hsound. etrans; [apply path_index_le|].
  destruct (canonical_path_way rank (lg self) (head self) (sound_ranked _ Hsound)) as (way & -> & _ & ?).
  simpl. lia.
Qed.
Next Obligation. intros self _. done. Qed.
Next Obligation.
  intros q self Hsound Hcap. apply wp_ask, cwp_map_err. pose proof (Hfuel self []) as Hf. simpl in Hf.
  eapply cwp_mono; [apply sync_answer_cwp; [done|lia]| |done].
  intros a Ha. split; [done|]. by apply answered_ok.
Qed.
Next Obligation.
  intros run self Hsound Hpins. apply wp_bind, wp_map_err.
  eapply wp_mono; [by apply (core_insert_wp pins rank Hid Hhash)|..].
  - intros ins self' (Hsound' & Hn & Hfrom & Htip & _). apply wp_ret. split; [done|]. by apply took_insert.
  - intros e self' (Hsound' & Hn & Hext & _). split; [done|]. split; [by split|done].
Qed.
End session.
