(* ===== verification/CoreNode.v ===== *)
(** * A core in a session

    The two sessions over the daemon's core, with the fuel its log and its runs
    ask for; that serving leaves the core alone; and what two cores say to each
    other. *)

From S2P Require Import Prelude BTree Text Codec Externals Keys Subkey Msg Envelope Value.
From S2P Require Import Storage Addr StateError Ledger LedgerSpec Chain.
From S2P Require Import ChainSpec ChainStore ChainInsert ChainCompact Change ChangeSpec ChangeWalk.
From S2P Require Import Locator Sync Puller Server Frame SyncDriver Contract DriverSpec SessionSpec FrameSpec.
From S2P Require Import SessionRun Subscribe Core CoreSync CorePath CoreSpec CoreSession.

Section node.
Context `{Externals} `{!MessageDecode} {S E IoError : Type} `{StorageSpec S E}.
Implicit Types (self : Core S) (t : Transport IoError).

Abbreviation lg self := (log (view (core_storage self))) (only parsing).
Abbreviation SErr := (SyncError IoError (Error E)) (only parsing).

(** Enough for every loop of the core: its log, and the run it takes. *)
Definition core_fuel self (run : list Envelope) : nat := 2 * (size (lg self) + length run) + 2.

Definition core_pull (fuel : nat) : M (Core S * Transport IoError) SErr PullOutcome :=
  pull (SyncCore0 := Core_SyncCore core_fuel) fuel.

Definition core_serve (debug : bool) (fuel : nat) : M (Core S * Transport IoError) SErr ServeOutcome :=
  serve (SyncCore0 := Core_SyncCore core_fuel) debug fuel.

Lemma core_fuel_ok self run : 2 * (size (lg self) + length run) + 1 < core_fuel self run.
Proof using. unfold core_fuel. lia. Qed.

(** ** What a machine that ingests nothing leaves of a core *)

Definition keeps {MS A} (m : M (Session MS (Core S) IoError) SErr A) : Prop :=
  ∀ s r s', m s = Ret (r, s') → core s' = core s.

Lemma keeps_bind {MS A B} (m : M (Session MS (Core S) IoError) SErr A) (k : A → M _ _ B) :
  keeps m → (∀ a s s', m s = Ret (Ok a, s') → keeps (k a)) → keeps (m_bind m k).
Proof using.
  intros Hm Hk s r s'. unfold m_bind. destruct (m s) as [[[a|e] s1]| |] eqn:Heq; [|intros [= <- <-]; by eapply Hm|done..].
  intros Hr. rewrite (Hk a s s1 Heq _ _ _ Hr). by eapply Hm.
Qed.

Lemma keeps_ret {MS A} (a : A) : keeps (MS:=MS) (m_ret a).
Proof using. by intros s r s' [= _ <-]. Qed.

Lemma keeps_err {MS A} (e : SErr) : keeps (MS:=MS) (A:=A) (m_err e).
Proof using. by intros s r s' [= _ <-]. Qed.

Lemma keeps_feed {MS O} (machine : MS → Input → Outcome (MS * list (Effect O))) input :
  keeps (feed machine input).
Proof using. intros s r s'. unfold feed. destruct (machine _ _) as [[ms l]| |]; [|done..]. by intros [= _ <-]. Qed.

Lemma keeps_next_frame {MS} : keeps (MS:=MS) next_frame.
Proof using.
  intros s r s'. unfold next_frame. destruct (next_frame_loop _ _) as [[r' [script buffer]]| |]; [|done..].
  by intros [= _ <-].
Qed.

Lemma keeps_send {MS} m : keeps (MS:=MS) (send m).
Proof using.
  intros s r s'. unfold send. destruct (encode_message m []) as [[[[]|e] out]| |]; [|by intros [= _ <-]|done..].
  unfold write_all. destruct (writes _) as [|[e|] ws]; by intros [= _ <-].
Qed.

Lemma keeps_ask {MS} q : keeps (MS:=MS) (on_core (sync_answers core_fuel q)).
Proof using.
  intros s r s'. unfold on_core, sync_answers, m_ask. destruct (c_map_err _ _); [|done..].
  by intros [= _ <-].
Qed.

Lemma keeps_drive {MS O} (machine : MS → Input → Outcome (MS * list (Effect O))) (fuel : nat) pending :
  (∀ ms input ms' effects run, machine ms input = Ret (ms', effects) → Effect_Ingest run ∉ effects) →
  (∀ run, Effect_Ingest run ∉ pending) →
  keeps (drive (SyncCore0 := Core_SyncCore core_fuel) machine fuel pending).
Proof using.
  intros Hm. revert pending. induction fuel as [|fuel IH]; intros pending Hp; [done|].
  assert (∀ input s s' effects run, feed (C:=Core S) (IoError:=IoError) (ChainError:=Error E) machine input s =
    Ret (Ok effects, s') → Effect_Ingest run ∉ effects) as Hfeed.
  { intros input s s' effects run. unfold feed.
    destruct (machine _ _) as [[ms' l]| |] eqn:Heq; intros; simplify_eq/=. by eapply Hm. }
  destruct pending as [|[m|q|run|o|b] pending]; simpl.
  - apply keeps_bind; [apply keeps_next_frame|]. intros [m|] _ _ _; [|apply keeps_err].
    apply keeps_bind; [apply keeps_feed|]. intros effects s s' Hf. apply IH. intros run. by eapply Hfeed.
  - apply keeps_bind; [apply keeps_send|]. intros _ _ _ _. apply IH. intros run Hin. apply (Hp run). by right.
  - apply keeps_bind; [apply keeps_ask|]. intros a _ _ _. apply keeps_bind; [apply keeps_feed|].
    intros effects s s' Hf. apply IH. intros run [Hin|Hin]%elem_of_app; [apply (Hp run); by right|].
    by eapply Hfeed.
  - destruct (Hp run). by left.
  - apply keeps_ret.
  - apply keeps_err.
Qed.

Lemma server_ingests_nothing hd debug ms input ms' effects run :
  Server.step hd debug ms input = Ret (ms', effects) → Effect_Ingest run ∉ effects.
Proof using.
  intros Hm Hin. revert Hm Hin.
  destruct ms, input as [[]|[|?|[]|]|]; simpl; intros; repeat (case_match || case_decide); simplify_eq/=;
    try set_solver.
  unfold Server.send_segment in *. repeat case_match; simplify_eq/=; set_solver.
Qed.

Lemma serve_keeps debug (fuel : nat) self t r self' t' :
  core_serve debug fuel (self, t) = Ret (r, (self', t')) → self' = self.
Proof using.
  unfold core_serve, serve. simpl. unfold session_end.
  destruct (drive _ _ _ _) as [[r' s']| |] eqn:Hd; [|done..]. intros [= _ <- _].
  eapply (keeps_drive _ _ _) in Hd; [done|by apply server_ingests_nothing|].
  intros run. apply not_elem_of_nil.
Qed.
End node.

(** ** What a core streams *)

Section stream.
Context `{Externals} {S E IoError : Type} `{StorageSpec S E}.
Variables (pins : EnvelopeDigest → option Msg) (rank : EnvelopeDigest → nat).
Hypothesis Hid : ∀ k, is_Some (Key_id k).
Hypothesis Hhash : HashOk pins rank.
Implicit Types (self : Core S).

Definition path_of self : list EnvelopeDigest := canonical_path (log (view (core_storage self))) (head self).

(** The segments a core answers from a digest on. *)
Definition core_streams self : EnvelopeDigest → list (list Envelope) → EnvelopeDigest → Prop :=
  streamed (SyncCore0 := Core_SyncCore (IoError := IoError) core_fuel) self.

Lemma core_answers self q a :
  core_sound pins self → sync_answers (IoError := IoError) core_fuel q self = Ret (Ok a, self) →
  answered self q a.
Proof using Hhash.
  intros Hsound Ha. pose proof (core_fuel_ok self []) as Hf. simpl in Hf.
  assert (size (log (view (core_storage self))) < core_fuel self []) as Hn by lia.
  pose proof (sync_answer_cwp pins rank Hhash (core_fuel self []) self q Hsound Hn) as Hc.
  unfold sync_answers, m_ask, cwp in *. destruct (sync_answer _ _ _) as [[a'|e]| |]; simplify_eq/=; done.
Qed.

(** Streamed from its path, a core's segments end at its head, and hold what its
    log holds. *)
Lemma core_streamed self at_ batches tip :
  core_sound pins self → at_ ∈ path_of self → core_streams self at_ batches tip →
  tip = head self ∧ Forall (λ l, batch_pinned pins (unchecked <$> l)) batches.
Proof using Hhash.
  intros Hsound Hat Hs. induction Hs as [at_ Ha|at_ l mid bs tip Ha Hne Hlen Hl Hs IH];
    apply core_answers in Ha; try done; destruct Ha as [_ Ha]; fold (path_of self) in Ha.
  - destruct Ha as [[_ [?| ->]]|(? & ? & ? & ? & _ & _ & _ & _ & ? & ?)]; [done|by split|congruence].
  - destruct Ha as [[-> _]|(newer & older & es & k & Hp & Hn & Hes & Hlink & -> & _)]; [done|].
    pose proof (pinned_log_sound pins self Hsound) as Hpin.
    destruct (linked_prefix _ _ _ _ _ k Hpin Hes Hlink) as (mid' & Hmid & _ & Hin).
    pose proof (linked_fun _ _ _ _ Hl Hmid) as <-.
    destruct IH as [-> Hb]; [rewrite Hp; apply elem_of_app; left; by apply elem_of_reverse, Hin|].
    split; [done|]. constructor; [|done].
    intros e d (e' & -> & He)%list_elem_of_fmap Hd. unfold unchecked in *. rewrite digest_set_status in Hd.
    apply elem_of_take in He as (i & Hi & _).
    destruct (Forall2_lookup_r _ _ _ _ _ Hes Hi) as (d' & _ & Hd').
    rewrite (Hpin _ _ Hd') in Hd. injection Hd as <-.
    destruct Hsound as [[_ Hinv _] _ _]. apply (inv_pinned _ _ _ Hinv _ _ Hd').
Qed.
End stream.

(** ** Two cores *)

Section dialogue.
Context `{Externals} `{!MessageDecode} {S E IoError : Type} `{StorageSpec S E}.
Variables (pins : EnvelopeDigest → option Msg) (rank : EnvelopeDigest → nat).
Hypothesis Hid : ∀ k, is_Some (Key_id k).
Hypothesis Hhash : HashOk pins rank.
Implicit Types (self : Core S) (t : Transport IoError).

(** The messages a puller opens with, and the locator it samples. *)
Definition opening self : list Message :=
  [Message_Hello (MkHello PROTOCOL_VERSION (head self));
   Message_FindSplit (MkFindSplit (sample (path_of self)))].

(** What a server says back: its stream from the split, or that there is none. *)
Definition reply self (split : option (EnvelopeDigest * list (list Envelope))) : list Message :=
  Message_Hello (MkHello PROTOCOL_VERSION (head self)) ::
  match split with
  | None => [Message_NoSplit MkNoSplit]
  | Some (at_, batches) =>
      Message_Split (MkSplit at_) :: (Message_Envelopes ∘ MkEnvelopes <$> batches) ++ [Message_CaughtUp MkCaughtUp]
  end.

Definition bytes_of (l : list Message) : list u8 := l ≫= frame_bytes.

Lemma bytes_of_reply self at_ batches :
  bytes_of (reply self (Some (at_, batches))) =
  said (MkHello PROTOCOL_VERSION (head self)) (Message_Split (MkSplit at_)) batches [Message_CaughtUp MkCaughtUp].
Proof using.
  unfold bytes_of, reply, said. cbn [mbind list_bind]. f_equal. f_equal. rewrite bind_app. f_equal.
  induction batches as [|l bs IH]; [done|]. unfold stream_of in *. cbn [fmap list_fmap mbind list_bind].
  by rewrite <-IH.
Qed.

#[local] Instance node_sync : SyncCore (Core S) IoError (Error E) := Core_SyncCore core_fuel.
#[local] Instance node_sync_spec : SyncCoreSpec (Core S) IoError (Error E) :=
  Core_session_spec IoError pins rank Hid Hhash core_fuel core_fuel_ok.

Lemma sample_path_ok self :
  core_sound pins self → (N.of_nat (size (log (view (core_storage self)))) < 2 ^ 62)%N →
  sample (path_of self) ≠ [] ∧ length (sample (path_of self)) ≤ MAX_LOCATOR_LEN.
Proof using Hhash.
  intros Hsound Hcap. unfold path_of.
  destruct (canonical_path_way rank _ (head self) (sound_ranked _ _ Hhash _ Hsound)) as (way & -> & _ & Hlen).
  split; [by rewrite sample_nil|]. apply length_sample. simpl. lia.
Qed.

(** The core's backend failed a question of the session. *)
Definition answer_failed (e : SyncError IoError (Error E)) : Prop := ∃ x, e = SyncError_Answer (Error_Storage x).

Lemma core_answered self q :
  core_sound pins self →
  wp (sync_answers core_fuel q) self (λ a c', c' = self ∧ answered self q a) (λ e _, answer_failed e).
Proof using Hhash.
  intros Hsound. apply wp_ask, cwp_map_err. pose proof (core_fuel_ok self []) as Hf. simpl in Hf.
  eapply cwp_mono; [apply (sync_answer_cwp pins rank Hhash); [done|lia]|done|intros x _; by exists x].
Qed.

(** The serving core, against an opening: its backend alone can fail it. *)
Lemma core_serve_said debug (fuel : nat) self t hello locator split_ :
  core_sound pins self → locator ≠ [] → length locator ≤ MAX_LOCATOR_LEN →
  hello_version hello = PROTOCOL_VERSION →
  Forall speaks [Message_Hello hello; Message_FindSplit (MkFindSplit locator)] →
  Forall framable (reply self split_) →
  match split_ with
  | None => split locator (path_of self) = None
  | Some (at_, batches) =>
      split locator (path_of self) = Some at_ ∧ core_streams (IoError := IoError) self at_ batches (head self)
  end →
  writes t = [] →
  carries (reads t) (bytes_of [Message_Hello hello; Message_FindSplit (MkFindSplit locator)]) →
  2 * size (log (view (core_storage self))) + 10 < fuel →
  wp (core_serve debug fuel) (self, t)
    (λ o st, st.1 = self ∧ written st.2 = written t ++ bytes_of (reply self split_) ∧
      o = match split_ with
          | None => ServeOutcome_NoCommonHistory
          | Some (at_, batches) => ServeOutcome_Served (head self) (N.of_nat (length (concat batches)))
          end)
    (λ e _, answer_failed e).
Proof using Hid Hhash.
  intros Hsound Hne Hlen Hv Hspeak [Hfr3 Hframes]%Forall_cons Hsplit Hw Hcarry Hfuel.
  unfold bytes_of in Hcarry. cbn [mbind list_bind] in Hcarry. rewrite app_nil_r in Hcarry.
  eapply wp_mono; [apply (serve_run debug fuel self t (head self) hello locator split_ (head self) answer_failed);
    try done|..|done].
  - eapply wp_mono; [by apply (core_answered self (Query_SplitPoint locator))| |done].
    intros a c' [-> Ha]. destruct a; try done. simpl in Ha. fold (path_of self) in Ha. subst.
    split; [done|]. f_equal. destruct split_ as [[at_ batches]|]; [apply Hsplit|done].
  - destruct split_ as [[at_ batches]|]; [|by apply Forall_cons in Hframes as [? _]].
    apply Forall_cons in Hframes as [Hfr4 [Hfrs [Hfr5 _]%Forall_cons]%Forall_app].
    split; [apply Hsplit|]. split; [exact (proj1 (Forall_fmap _ _ _) Hfrs)|done].
  - simpl. lia.
  - intros o [self' t'] [Heq Ho]. simpl in Heq. subst self'. split; [done|].
    destruct split_ as [[at_ batches]|]; destruct Ho as [-> Hwr]; (split; [|done]); [by rewrite bytes_of_reply|exact Hwr].
Qed.

(** The core takes a run from a digest on: it holds the version there and of all it
    has logged, and no envelope of the run is refused on the version at its parent. *)
Definition welcomes self (at_ : EnvelopeDigest) (run : list Envelope) : Prop :=
  log_held (view (core_storage self)) ∧
  ∃ ver, versions (view (core_storage self)) !! at_ = Some ver ∧ is_Some (retrace at_ ver run).

Lemma pinned_arrived batches :
  Forall (λ l, batch_pinned pins (unchecked <$> l)) batches → batch_pinned pins (arrived batches).
Proof using.
  unfold arrived. induction 1 as [|l bs Hl Hbs IH]; intros e d; simpl; [by intros ?%not_elem_of_nil|].
  rewrite fmap_app. intros [Hin|Hin]%elem_of_app; [by apply Hl|by apply IH].
Qed.

(** A run the core welcomes fails it, at whatever batch, by its backend. *)
Lemma welcomed_ingest self at_ batches e :
  core_sound pins self → Forall (λ l, batch_pinned pins (unchecked <$> l)) batches →
  balked self [] batches e →
  ∃ x, e = SyncError_Ingest x ∧ (welcomes self at_ (arrived batches) → backend_failed x).
Proof using Hid Hhash.
  intros Hsound Hpins (before & l & after & c1 & c2 & -> & Hsound1 & Htook & He). simpl in Hsound1, Htook.
  apply Forall_app in Hpins as [Hpb [Hpl _]%Forall_cons].
  simpl in He. unfold sync_ingest, m_bind, m_map_err in He.
  pose proof (core_insert_wp pins rank Hid Hhash (core_fuel c1 (unchecked <$> l)) (unchecked <$> l) c1 Hsound1 Hpl) as Hwp.
  specialize (Hwp ltac:(unfold core_fuel; lia)). unfold wp in Hwp.
  destruct (core_insert _ _ c1) as [[[ins|x] c']| |]; simplify_eq/=. exists x. split; [done|].
  intros (Hheld & ver & Hver & [r Hr]). destruct Hwp as (Hsound2 & _ & _ & [[Hfails _]|[[x' ->] _]]); [|done].
  pose proof (took_stored _ _ _ Htook) as Hfrom.
  destruct Hfails as (_ & prefix & rest & s1 & Hrun & Hext & Hcases).
  assert (∃ e0, stored_from (view (core_storage c1)) prefix (view s1) ∧
    (stopped None (view s1) prefix rest e0 ∧ e0 = x ∨
     walk_fails s1 (chain_root (core_chain c1)) x (core_storage c2))) as (e0 & Hfrom1 & Hwhy).
  { destruct Hcases as [([Hf Hst] & _)|(_ & Hw & [[Hf _]|(e0 & Hf & _)])]; [exists x|exists x|exists e0]; (split; [done|]);
      [by left|by right|by right]. }
  pose proof (log_held_stored _ _ _ (stored_from_trans _ _ _ _ _ Hfrom Hfrom1) Hheld) as Hheld1.
  destruct Hwhy as [[Hst ->]|[[_ [y ->]]|(p & d & err & _ & [(ed & Hed & _) _] & Hnone)]].
  - unfold arrived in Hr. rewrite concat_app, fmap_app, retrace_app in Hr.
    destruct (retrace at_ ver _) as [[mid ver']|] eqn:Hmid; [|done]. simpl in Hr.
    rewrite fmap_app, retrace_app in Hr. destruct (retrace mid ver' _) as [r'|] eqn:Hr'; [|done].
    pose proof (co_inv _ _ _ (cs_chain _ _ Hsound2)) as Hinv.
    pose proof (stored_from_trans _ _ _ _ _ Hfrom Hfrom1) as Hfrom2.
    destruct (retrace_held pins rank Hid Hhash _ (view s1) _ at_ ver (arrived before) mid ver' None Hinv Hext Hheld1)
      as [Hver' _]; [by apply pinned_arrived| | |done|by left|].
    + apply Forall_forall. intros e He. apply (sf_known _ _ _ Hfrom2), elem_of_app. by left.
    + eapply lookup_weaken; [done|apply Hfrom2].
    + apply (retrace_stops pins rank Hid Hhash _ (view s1) _ mid ver' (unchecked <$> l) r' prefix rest x Hinv Hext); try done.
      apply Forall_forall. intros e He. by apply (sf_known _ _ _ Hfrom1).
  - by exists y; left.
  - destruct Hnone as (Hnone & _). destruct (extends_held _ _ d Hext) as [v Hv]; [apply Hheld1; by eexists|congruence].
Qed.

(** How a pull of such a reply can fail: its core's backend failed, or its core does
    not welcome the run. *)
Definition pull_failed self (split_ : option (EnvelopeDigest * list (list Envelope)))
    (e : SyncError IoError (Error E)) : Prop :=
  answer_failed e ∨
  ∃ at_ batches x, split_ = Some (at_, batches) ∧ e = SyncError_Ingest x ∧
    (welcomes self at_ (arrived batches) → backend_failed x).

(** The pulling core, against a reply. *)
Lemma core_pull_heard (fuel : nat) self t hello split_ tip :
  core_sound pins self → (N.of_nat (size (log (view (core_storage self)))) < 2 ^ 62)%N →
  log (view (core_storage self)) !! hello_head hello = None → hello_version hello = PROTOCOL_VERSION →
  let heard := Message_Hello hello ::
    match split_ with
    | None => [Message_NoSplit MkNoSplit]
    | Some (at_, batches) => Message_Split (MkSplit at_) ::
        (Message_Envelopes ∘ MkEnvelopes <$> batches) ++ [Message_CaughtUp MkCaughtUp]
    end in
  Forall speaks heard → Forall framable (opening self) →
  match split_ with
  | None => True
  | Some (at_, batches) => at_ ∈ sample (path_of self) ∧ linked at_ (concat batches) tip ∧
      Forall (λ l, l ≠ [] ∧ length l ≤ MAX_BATCH_ENVELOPES ∧ batch_pinned pins (unchecked <$> l)) batches
  end →
  writes t = [] → carries (reads t) (bytes_of heard) → 2 * length heard + 10 < fuel →
  wp (core_pull fuel) (self, t)
    (λ o st, core_sound pins st.1 ∧ written st.2 = written t ++ bytes_of (opening self) ∧
      match split_ with
      | None => o = PullOutcome_NoCommonHistory ∧ st.1 = self
      | Some (at_, batches) => o = PullOutcome_Synced tip (N.of_nat (length (concat batches))) ∧
          took self (unchecked <$> concat batches) st.1
      end)
    (λ e _, pull_failed self split_ e).
Proof using Hid Hhash.
  intros Hsound Hcap Hnew Hv heard Hspeak Hopen Hsplit Hw Hcarry Hfuel.
  apply Forall_cons in Hspeak as [[Hfr Hdec] Hspeak]. destruct (sample_path_ok self Hsound Hcap) as [Hne Hlen].
  do 5 (destruct fuel as [|fuel]; [lia|]).
  eapply (pull_opening fuel self t (head self) hello (sample (path_of self)) (bytes_of (tail heard)) answer_failed); try done.
  - eapply wp_mono; [by apply (core_answered self (Query_ContainsEnvelope _))| |done].
    intros a c' [-> Ha]. destruct a; try done. simpl in Ha. by rewrite Ha, Hnew.
  - eapply wp_mono; [by apply (core_answered self Query_Locator)| |done].
    intros a c' [-> Ha]. destruct a; try done. simpl in Ha. by rewrite Ha.
  - intros e ct He. by left.
  - intros s Hs.
    assert (bytes_of (opening self) = frame_bytes (Message_Hello (MkHello PROTOCOL_VERSION (head self))) ++
      frame_bytes (Message_FindSplit (MkFindSplit (sample (path_of self))))) as Hop.
    { unfold bytes_of, opening. cbn [mbind list_bind]. by rewrite app_nil_r. }
    rewrite <-Hop in Hs. destruct split_ as [[at_ batches]|].
    + destruct Hsplit as (Hat & Hl & Hb). apply Forall_cons in Hspeak as [Hsp [Hspb Hcu]%Forall_app].
      assert (length heard = 3 + length batches) as Hheard.
      { unfold heard. simpl. rewrite length_app, length_fmap. simpl. lia. }
      assert (bytes_of (tail heard) = frame_bytes (Message_Split (MkSplit at_)) ++ stream_of batches ++
        frame_bytes (Message_CaughtUp MkCaughtUp)) as Hbytes.
      { pose proof (bytes_of_reply self at_ batches) as Hr. unfold bytes_of, reply, said in Hr.
        cbn [mbind list_bind] in Hr. apply app_inv_head in Hr. unfold heard. cbn [tail].
        unfold bytes_of. cbn [mbind list_bind]. rewrite Hr. by rewrite app_nil_r. }
      rewrite Hbytes in Hs. rewrite Forall_fmap in Hspb.
      eapply wp_mono; [eapply (pull_taken fuel self (sample (path_of self)) at_ batches tip _ s)|..]; try done.
      * apply Forall_forall. intros l Hin. split_and!; [by eapply Forall_forall in Hb as (? & ? & _)..|].
        by eapply Forall_forall in Hspb as [? _].
      * apply Forall_forall. intros l Hin. split; [by eapply Forall_forall in Hspb as [_ ?]|].
        by eapply Forall_forall in Hb as (_ & _ & ?).
      * by apply Forall_cons.
      * lia.
      * intros o s' (-> & Hs' & Htook & Hwr). done.
      * intros e s' He. right. destruct (welcomed_ingest self at_ batches e Hsound) as (x & -> & Hx); [|done|by exists at_, batches, x].
        eapply Forall_impl; [exact Hb|]. by intros l (_ & _ & ?).
    + unfold heard, bytes_of in Hs. cbn [tail mbind list_bind] in Hs. rewrite app_nil_r in Hs.
      apply Forall_cons in Hspeak as [[Hfr2 Hdec2] _].
      eapply wp_mono; [eapply (pull_refused fuel self (sample (path_of self)) _ s); try done; lia| |done].
      intros o s' (-> & -> & Hwr). done.
Qed.
End dialogue.
