(* ===== verification/CoreFixtures.v ===== *)
(** * Cores for the witnesses

    The nodes of [ChainFixtures] as cores, and what one of them streams to the
    other. *)

From S2P Require Import Prelude BTree Text Codec Externals Keys Subkey Msg Envelope Value.
From S2P Require Import Storage Mem Addr StateError Ledger LedgerSpec Fixtures LedgerProps Chain.
From S2P Require Import ChainSpec ChainStore ChainInsert ChainCompact Change ChangeSpec ChangeWalk ChainFixtures.
From S2P Require Import Locator Sync Puller Server Frame SyncDriver Contract DriverSpec SessionSpec FrameSpec.
From S2P Require Import SessionRun Subscribe Core CoreSync CorePath CoreSpec CoreSession CoreNode.

(** The nodes of [ChainFixtures] as cores. *)
(** A key of [Toy] that signs truly: the public half and then the message. *)
Definition toy_keys (pk : array 32) : NodeKeys :=
  MkNodeKeys (λ m, default (array_repeat 64 x00) (array_try_from 64 (as_slice pk ++ m))) pk.

Definition sample_keys : NodeKeys := toy_keys (array_repeat 32 x05).

(** One the ledger does not trust. *)
Definition stranger_keys : NodeKeys := toy_keys (array_repeat 32 x06).

Lemma toy_keys_verify pk digest :
  PublicKey_verify (PublicKey_Ed25519 (MkEd25519PublicKey pk))
    (Signature_Ed25519 (MkEd25519Signature (nk_sign (toy_keys pk) (as_slice (sig_digest_bytes digest))))) digest = true.
Proof.
  unfold PublicKey_verify, Ed25519PublicKey_verify. cbn [nk_sign toy_keys ed25519_public_key ed25519_signature].
  change (toy_verify pk (default (array_repeat 64 x00)
    (array_try_from 64 (as_slice pk ++ as_slice (sig_digest_bytes digest)))) (as_slice (sig_digest_bytes digest)) = true).
  unfold toy_verify, array_try_from. case_decide as Hl; [by apply bool_decide_eq_true_2|].
  rewrite length_app, !array_length in Hl. done.
Qed.

Definition core_of (cs : Chain * MemNode) : Core MemNode :=
  MkCore cs.2 cs.1 genesis_d sample_keys Subscriptions_default.

Definition fresh_core : Core MemNode := core_of (chain_1, chain_node).
Definition forked_core : Core MemNode := core_of forked.

Definition transport_of (bytes : list u8) : Transport Empty_set := MkTransport [Read_Bytes bytes] [] [].

Lemma fresh_sound : core_sound sample_pins fresh_core ∧ size (log (view chain_node)) = 1.
Proof.
  destruct chain_1_ok as (Hok & Htip & Hsize). split; [|exact Hsize].
  split; [exact Hok|by_computing|]. exact (winner_ancestor _ _ _ (proj1 Htip)).
Qed.

Lemma forked_sound : core_sound sample_pins forked_core ∧ size (log (view forked.2)) ≤ 4.
Proof.
  destruct forked_ok as (Hok & Hroot & Hheld & Htip & Hsize). split; [|exact Hsize].
  split; [exact Hok|exact Hheld|]. unfold forked_core, core_of. cbn [core_chain core_storage].
  rewrite Hroot. exact (winner_ancestor _ _ _ (proj1 Htip)).
Qed.

(** The segment an answer carries. *)
Definition answered_segment {S IoError E} (r : Outcome (Result (SyncError IoError E) Answer * S))
    : option (list Envelope) :=
  match r with
  | Ret (Ok (Answer_Segment l), _) => Some l
  | _ => None
  end.

Lemma answered_segment_eq {S E IoError} `{StorageSpec S E} (self : Core S) q l :
  answered_segment (sync_answers (IoError := IoError) core_fuel q self) = Some l →
  sync_answers (IoError := IoError) core_fuel q self = Ret (Ok (Answer_Segment l), self).
Proof.
  unfold sync_answers, m_ask, answered_segment. destruct (c_map_err _ _) as [[[]|]| |]; [..|done]; try done.
  by intros [= ->].
Qed.

Lemma link_run_tip `{Externals} cursor run tip :
  match link_run cursor run with Ok d => bool_decide (d = tip) | Err _ => false end = true →
  linked cursor run tip.
Proof. rewrite <-link_run_Ok. destruct (link_run _ _); [by intros ->%bool_decide_eq_true_1|done]. Qed.

(** The forked node streams the heavy branch from the genesis, as it logged it. *)
Definition heavy_run : list Envelope :=
  default [] (answered_segment (sync_answers (IoError := Empty_set) core_fuel (Query_Segment genesis_d) forked_core)).

Lemma heavy_run_payloads : payload <$> heavy_run = [payload heavy; payload leaf].
Proof. by_computing. Qed.

Lemma forked_streams : core_streams (IoError := Empty_set) forked_core genesis_d [heavy_run] leaf_d.
Proof.
  eapply (streamed_more _ _ _ leaf_d); [apply answered_segment_eq; by_computing|by_computing|by_computing| |].
  - apply link_run_tip. vm_compute. reflexivity.
  - apply streamed_end. apply answered_segment_eq. by_computing.
Qed.

(** The whole dialogue of a session between the two, as the wire's table. *)
Definition dialogue : list Message :=
  opening fresh_core ++ reply forked_core (Some (genesis_d, [heavy_run])).
