(* ===== verification/CoreProps.v ===== *)
(** * The core's properties

    The one path that advances the chain, and what the node makes of its own
    signature. *)

From S2P Require Import Prelude BTree Text Codec Externals Keys Subkey Msg Envelope Value.
From S2P Require Import Storage Mem Addr StateError Ledger LedgerSpec Fixtures LedgerProps Chain.
From S2P Require Import ChainSpec ChainStore ChainInsert ChainCompact Change ChangeSpec ChangeWalk ChainFixtures.
From S2P Require Import Subscribe Locator Sync Core CoreSpec CoreNode CoreFixtures.

(** C15: [Core::insert] is what the chain's insert does, with every movement of the
    head told. It never panics and always ends, given fuel for the log and the
    run; the core is in order either way, its root, oldest envelope and keys what
    they were. Where it succeeds the run is stored, the head stands at the tip of
    the log and the report is the chain's. Where the head moved the subscribers
    are published exactly the movement between the two heads, even where the chain
    refuses the run after storing part of it; where it did not move, nothing is
    published. Only a backend that fails the diff leaves a movement untold. *)
Theorem core_insert_contract `{Externals} {S E : Type} `{StorageSpec S E}
    (pins : EnvelopeDigest → option Msg) (rank : EnvelopeDigest → nat)
    (Hid : ∀ k, is_Some (Key_id k)) (Hhash : HashOk pins rank)
    (fuel : nat) (run : list Envelope) (self : Core S) :
  let lg self := log (view (core_storage self)) in
  core_sound pins self → batch_pinned pins run → 2 * (size (lg self) + length run) + 1 < fuel →
  wp (core_insert fuel run) self
    (λ ins self', core_sound pins self' ∧ same_node self self' ∧
      stored_from (view (core_storage self)) run (view (core_storage self')) ∧
      tip (lg self') (chain_root (core_chain self)) (head self') ∧
      insert_reads (core_chain self) (core_chain self') (view (core_storage self))
        (view (core_storage self')) run ins ∧
      announced self self')
    (λ e self', core_sound pins self' ∧ same_node self self' ∧
      extends (view (core_storage self)) (view (core_storage self')) ∧ core_fails self run e self').
Proof. intros lg Hsound Hpins Hfuel. by apply (core_insert_wp pins rank Hid Hhash). Qed.

Lemma core_insert_contract_witness :
  wp (core_insert 20 [light]) forked_core
    (λ ins self', stored_from (view forked.2) [light] (view (core_storage self')) ∧
      announced forked_core self') (λ _ _, True).
Proof.
  destruct forked_sound as [Hs Hsize].
  eapply wp_mono; [apply (core_insert_contract sample_pins sample_rank toy_key_id_total sample_hash_ok 20
    [light] forked_core Hs light_pinned)|intros ins self' (_ & _ & Hst & _ & _ & Han); exact (conj Hst Han)|done].
  change (2 * (size (log (view forked.2)) + 1) + 1 < 20). lia.
Defined.

(** ** Signing alone *)

(** The key the node signs with is the one it is known by, and signs truly. *)
Definition signs_truly `{Externals} (keys : NodeKeys) (key : Key) : Prop :=
  ∀ digest, Key_verify key
    (Signature_Ed25519 (MkEd25519Signature (nk_sign keys (as_slice (sig_digest_bytes digest))))) digest = true.

Lemma NodeKeys_sign_Ok `{Externals} {E} keys (msg : Msg) (e : Envelope) :
  NodeKeys_sign (E := E) keys (Envelope_new msg) = Ret (Ok e) →
  ∃ id digest, PublicKey_id (NodeKeys_public_key keys) = Some id ∧
    Envelope_signature_digest e = Ok digest ∧
    e = with_signature (Envelope_new msg) id
      (Signature_Ed25519 (MkEd25519Signature (nk_sign keys (as_slice (sig_digest_bytes digest))))).
Proof.
  unfold NodeKeys_sign. destruct (Envelope_signature_digest (Envelope_new msg)) as [digest|err] eqn:Hd; [|done].
  destruct (PublicKey_id _) as [id|]; [|done]. intros [= <-]. by exists id, digest.
Qed.

(** What a node told that it signs alone may count on. When [signs_alone] says
    so and the ledger trusts the node's key, an envelope the node signs for the
    head verifies in full and passes both thresholds: nothing but its message and
    the backend can keep it out. *)
Theorem signs_alone_sound `{Externals} {S E : Type} `{Storage S E}
    (self : Core S) (keys : BTreeMap KeyId Key) (key : Key) (id : KeyId) (msg : Msg) (e : Envelope) :
  let ledger := chain_ledger (core_chain self) in
  signs_alone self = Ret (Ok (Ok ())) →
  trusted_keys ledger (core_storage self) = Ret (Ok keys) →
  PublicKey_id (NodeKeys_public_key (core_keys self)) = Some id → bt_get keys id = Some key →
  signs_truly (core_keys self) key → (weight key ≤ u32_max)%N →
  Msg_prev_digest msg = Some (head self) →
  NodeKeys_sign (E := E) (core_keys self) (Envelope_new msg) = Ret (Ok e) →
  verify_envelope ledger (core_storage self) e = Ret (Ok (AllMatched (weight key))) ∧
  check_sig_thresholds ledger (core_storage self) (set_verification_status e (AllMatched (weight key))) = Ret (Ok ()).
Proof.
  intros ledger Halone Hkeys Hid Hkey Htrue Hw Hprev Hsign.
  destruct (NodeKeys_sign_Ok _ _ _ Hsign) as (id' & digest & Hid' & Hdigest & He).
  rewrite Hid in Hid'. injection Hid' as <-.
  unfold signs_alone in Halone. fold ledger in Halone. rewrite Hkeys, Hid in Halone. simpl in Halone. rewrite Hkey in Halone.
  destruct (min_envelope_weight ledger (core_storage self)) as [[min_w|]| |] eqn:Hmw; try done. simpl in Halone.
  destruct (min_envelope_signatures ledger (core_storage self)) as [[min_s|]| |] eqn:Hms; try done. simpl in Halone.
  destruct (weight key <? min_w)%N eqn:Hlt; [done|]. destruct (1 <? min_s)%N eqn:Hs; [done|].
  split.
  - unfold verify_envelope. subst e. simpl in Hdigest |- *. rewrite Hprev. simpl.
    rewrite decide_False by (unfold head; intros []; done). rewrite Hkeys. simpl. unfold c_wire. rewrite Hdigest. simpl.
    rewrite filter_cons_False; [|unfold signature_matches; simpl; rewrite Hkey, (Htrue digest); by intros []].
    rewrite filter_nil. unfold signed_weight, bt_keys. simpl. rewrite Hkey. simpl. rewrite N.add_0_r. unfold u32_try_from_u64. by rewrite decide_True.
  - unfold check_sig_thresholds. simpl. rewrite Hmw. simpl. rewrite Hlt. rewrite Hms. simpl.
    assert (verified_signers (set_verification_status e (AllMatched (weight key))) = 1%N) as -> by (by subst e).
    by rewrite Hs.
Qed.

(** The forked core signs alone with a trusted key, and is told so with another. *)
Definition next_msg : Msg := payload (set_a leaf_d 12).

Definition stranger_core : Core MemNode :=
  MkCore forked.2 forked.1 genesis_d stranger_keys Subscriptions_default.

(** The trusted keys at the forked core's head. *)
Definition forked_keys : BTreeMap KeyId Key :=
  default [] (c_value (trusted_keys (chain_ledger forked.1) forked.2)).

Lemma c_value_Ok {E A} (c : Comp E A) (d : A) : is_Some (c_value c) → c = Ret (Ok (default d (c_value c))).
Proof. unfold c_value. destruct c as [[a|]| |]; intros [? ?]; done. Qed.

Lemma c_value_eq {E A} (c : Comp E A) (a : A) : c_value c = Some a → c = Ret (Ok a).
Proof. unfold c_value. destruct c as [[a'|]| |]; intros; by simplify_eq. Qed.

(** What [signs_alone] says, as a verdict to evaluate. *)
Lemma says_alone {E} (c : Comp (Error E) (Result CannotSignAlone ())) :
  match c with Ret (Ok (Ok _)) => true | _ => false end = true → c = Ret (Ok (Ok ())).
Proof. by destruct c as [[[[]|]|]| |]. Qed.

Lemma signs_alone_sound_witness : ∃ e,
  NodeKeys_sign (E := Empty_set) sample_keys (Envelope_new next_msg) = Ret (Ok e) ∧
  verify_envelope (chain_ledger forked.1) forked.2 e = Ret (Ok (AllMatched 7)).
Proof.
  assert (is_Some (c_value (NodeKeys_sign (E := Empty_set) sample_keys (Envelope_new next_msg)))) as [e He%c_value_eq]
    by by_computing.
  exists e. split; [exact He|].
  assert (PublicKey_id (NodeKeys_public_key sample_keys) = Some signer_id) as Hid by by_computing.
  assert (bt_get forked_keys signer_id = Some signer) as Hkey by by_computing.
  assert (is_Some (c_value (trusted_keys (chain_ledger forked.1) forked.2))) as Hkeys by by_computing.
  assert (Msg_prev_digest next_msg = Some (head forked_core)) as Hprev by by_computing.
  assert (signs_alone forked_core = Ret (Ok (Ok ()))) as Halone by (apply says_alone; vm_compute; reflexivity).
  exact (proj1 (signs_alone_sound forked_core forked_keys signer signer_id next_msg e Halone (c_value_Ok _ [] Hkeys)
    Hid Hkey (toy_keys_verify _) ltac:(done) Hprev He)).
Defined.

(** C38: [signs_alone] promises more than it checks. A node whose key the ledger
    does not trust counts as weighing nothing, and where the ledger asks for no
    weight and at most one signature — as one with no thresholds set does — it is
    told that it signs alone. Every envelope it then signs for the head fails
    verification, and is refused for its signature. *)
Theorem signs_alone_overpromises `{Externals} {S E : Type} `{Storage S E}
    (self : Core S) (keys : BTreeMap KeyId Key) (id : KeyId) (min_s : N) (msg : Msg) (e : Envelope) :
  let ledger := chain_ledger (core_chain self) in
  trusted_keys ledger (core_storage self) = Ret (Ok keys) →
  min_envelope_weight ledger (core_storage self) = Ret (Ok 0%N) →
  min_envelope_signatures ledger (core_storage self) = Ret (Ok min_s) → (min_s ≤ 1)%N →
  PublicKey_id (NodeKeys_public_key (core_keys self)) = Some id → bt_get keys id = None →
  Msg_prev_digest msg = Some (head self) →
  NodeKeys_sign (E := E) (core_keys self) (Envelope_new msg) = Ret (Ok e) →
  signs_alone self = Ret (Ok (Ok ())) ∧
  verify_envelope ledger (core_storage self) e = Ret (Ok (Failed {[id]})) ∧
  check_sig_thresholds ledger (core_storage self) (set_verification_status e (Failed {[id]})) =
    Ret (Err (ApplyError_InvalidSignatures {[id]})).
Proof.
  intros ledger Hkeys Hmw Hms Hle Hid Hkey Hprev Hsign.
  destruct (NodeKeys_sign_Ok _ _ _ Hsign) as (id' & digest & Hid' & Hdigest & He).
  rewrite Hid in Hid'. injection Hid' as <-. split_and!; [| |done].
  - unfold signs_alone. fold ledger. rewrite Hkeys, Hid. simpl. rewrite Hkey, Hmw. simpl. rewrite Hms. simpl.
    by rewrite (proj2 (N.ltb_ge _ _) Hle).
  - unfold verify_envelope. subst e. simpl in Hdigest |- *. rewrite Hprev. simpl.
    rewrite decide_False by (unfold head; intros []; done). rewrite Hkeys. simpl. unfold c_wire. rewrite Hdigest. simpl.
    rewrite filter_cons_True; [|unfold signature_matches; simpl; by rewrite Hkey].
    rewrite filter_nil. simpl. by rewrite union_empty_r_L.
Qed.

Lemma signs_alone_overpromises_witness : ∃ id e,
  NodeKeys_sign (E := Empty_set) stranger_keys (Envelope_new next_msg) = Ret (Ok e) ∧
  signs_alone stranger_core = Ret (Ok (Ok ())) ∧
  verify_envelope (chain_ledger forked.1) forked.2 e = Ret (Ok (Failed {[id]})).
Proof.
  assert (is_Some (c_value (NodeKeys_sign (E := Empty_set) stranger_keys (Envelope_new next_msg)))) as [e He%c_value_eq]
    by by_computing.
  destruct (toy_key_id_total (Key_new (NodeKeys_public_key stranger_keys) 0)) as [id Hid].
  assert (PublicKey_id (NodeKeys_public_key stranger_keys) ≫= bt_get forked_keys = None) as Hkey by by_computing.
  change (PublicKey_id (NodeKeys_public_key stranger_keys) = Some id) in Hid. rewrite Hid in Hkey.
  assert (is_Some (c_value (trusted_keys (chain_ledger forked.1) forked.2))) as Hkeys by by_computing.
  assert (c_value (min_envelope_weight (chain_ledger forked.1) forked.2) = Some 0%N) as Hmw%c_value_eq by by_computing.
  assert (c_value (min_envelope_signatures (chain_ledger forked.1) forked.2) = Some 0%N) as Hms%c_value_eq by by_computing.
  assert (Msg_prev_digest next_msg = Some (head stranger_core)) as Hprev by by_computing.
  destruct (signs_alone_overpromises stranger_core forked_keys id 0 next_msg e (c_value_Ok _ [] Hkeys) Hmw Hms
    ltac:(done) Hid Hkey Hprev He) as (Halone & Hv & _).
  exists id, e. exact (conj He (conj Halone Hv)).
Defined.
