(* ===== verification/SyncProps.v ===== *)
(** * The sync protocol's properties

    Sessions run by the core, against any peer and against each other. *)

From S2P Require Import Prelude BTree Text Codec Externals Keys Subkey Msg Envelope Value.
From S2P Require Import Storage Mem Addr StateError Ledger LedgerSpec Fixtures LedgerProps Chain.
From S2P Require Import ChainSpec ChainStore ChainInsert ChainCompact Change ChangeSpec ChangeWalk ChainFixtures.
From S2P Require Import Locator Sync Puller Server Frame SyncDriver Contract DriverSpec SessionSpec FrameSpec.
From S2P Require Import SessionRun Subscribe Core CoreSync CorePath CoreSpec CoreSession CoreNode CoreFixtures.



#[local] Instance table_decode : MessageDecode := decode_in dialogue.





(** ** Against any peer *)

Section adversary.
Context `{Externals} `{!MessageDecode} {S E IoError : Type} `{StorageSpec S E}.
Variables (pins : EnvelopeDigest → option Msg) (rank : EnvelopeDigest → nat).

(** A peer that can send only envelopes the digests are true to. *)
Definition honest_digests : Prop :=
  ∀ body m, wire_decode body = Ok (Message_Envelopes m) → batch_pinned pins (batch m).

(** What a session has done by the time it ends, by its history: the frames it
    wrote are those of the history, and what the core took is what it ingested. *)
Definition session_of (self : Core S) (t : Transport IoError) (self' : Core S) (t' : Transport IoError)
    (h : list Event) : Prop :=
  written t' = written t ++ frames_of h ∧ runs_bounded h ∧ took self (ingested_of h) self'.
End adversary.

(** C11: a pull is safe against any peer and any network. Whatever the transport
    yields, a pull never panics and ends after at most the bytes it can read; its
    core is left in order either way, having lost nothing. If it ends well, the
    runs it handed to the chain are non-empty and within the cap, they chain from
    an entry of the locator it offered, everything in them is known and counted,
    and only a fresh head makes it say it was current. *)
Theorem pull_safe `{Externals} `{!MessageDecode} {S E IoError : Type} `{StorageSpec S E}
    (pins : EnvelopeDigest → option Msg) (rank : EnvelopeDigest → nat)
    (Hid : ∀ k, is_Some (Key_id k)) (Hhash : HashOk pins rank)
    (fuel : nat) (self : Core S) (t : Transport IoError) :
  honest_digests pins → core_sound pins self →
  (N.of_nat (size (log (view (core_storage self)))) < 2 ^ 62)%N → script_bytes t + 1 < fuel →
  wp (core_pull fuel) (self, t)
    (λ o st, core_sound pins st.1 ∧ ∃ h, session_of self t st.1 st.2 h ∧ pull_reads h o)
    (λ e st, core_sound pins st.1 ∧ evolves self st.1 ∧
      ∃ h, written st.2 = written t ++ frames_of h ∧ runs_bounded h).
Proof.
  intros Hpeer Hsound Hcap Hfuel.
  pose proof (pull_wp (SyncCoreSpec0 := Core_session_spec IoError pins rank Hid Hhash core_fuel core_fuel_ok)
    Hpeer fuel self t Hsound Hcap Hfuel) as Hwp.
  eapply wp_mono; [exact Hwp| |done].
  intros o [self' t'] (Hs & h & Htook & Hw & Hr & Ho). split; [done|]. by exists h.
Qed.

(** The fixtures' wire carries only what the digests are true to. *)
Lemma dialogue_honest : honest_digests sample_pins.
Proof.
  destruct forked_sound as [Hs _].
  assert (genesis_d ∈ path_of forked_core) as Hat by by_computing.
  destruct (core_streamed sample_pins sample_rank sample_hash_ok _ _ _ _ Hs Hat forked_streams)
    as [_ [Hrun _]%Forall_cons].
  assert (Forall (λ m, ∀ l, received m = Message_Envelopes l → batch_pinned sample_pins (batch l)) dialogue) as Hall.
  { unfold dialogue, opening, reply. cbn [fmap list_fmap app].
    do 4 (constructor; [by intros l [=]|]). constructor; [|constructor; [by intros l [=]|constructor]].
    intros l [= <-]. exact Hrun. }
  intros body l Hd. apply decode_in_Ok in Hd as (m & Hin & Hm).
  rewrite Forall_forall in Hall. by apply (Hall m).
Qed.

(** A peer that falls silent within a frame of its reply. *)
Definition silent_peer : Transport Empty_set :=
  MkTransport [Read_Bytes (take 50 (bytes_of (reply forked_core (Some (genesis_d, [heavy_run]))))); Read_Quiet] [] [].

Lemma pull_safe_witness :
  wp (core_pull (script_bytes silent_peer + 2)) (fresh_core, silent_peer)
    (λ o st, core_sound sample_pins st.1) (λ e st, core_sound sample_pins st.1 ∧ evolves fresh_core st.1).
Proof.
  destruct fresh_sound as [Hp Hsp].
  eapply wp_mono; [apply (pull_safe sample_pins sample_rank toy_key_id_total sample_hash_ok
    (script_bytes silent_peer + 2) fresh_core silent_peer dialogue_honest Hp)|..].
  - cbn [core_storage fresh_core core_of snd]. rewrite Hsp. done.
  - lia.
  - intros o st [Hs _]. exact Hs.
  - intros e st (Hs & Hev & _). exact (conj Hs Hev).
Defined.

(** C12: a serve is safe against any peer and any network. It never panics — in a
    debug build no more than in a release one — and ends, and the core is
    untouched. If it ends well having served, it sent the end of the stream after
    a run that chains from the split it announced, each batch non-empty and
    within the cap, and counted what it sent. *)
Theorem serve_safe `{Externals} `{!MessageDecode} {S E IoError : Type} `{StorageSpec S E}
    (pins : EnvelopeDigest → option Msg) (rank : EnvelopeDigest → nat)
    (Hid : ∀ k, is_Some (Key_id k)) (Hhash : HashOk pins rank)
    (debug : bool) (fuel : nat) (self : Core S) (t : Transport IoError) :
  honest_digests pins → core_sound pins self →
  script_bytes t + 2 * size (log (view (core_storage self))) + 8 < fuel →
  wp (core_serve debug fuel) (self, t)
    (λ o st, st.1 = self ∧ ∃ h, written st.2 = written t ++ frames_of h ∧ batches_bounded h ∧ serve_reads h o)
    (λ e st, st.1 = self ∧ ∃ h, written st.2 = written t ++ frames_of h ∧ batches_bounded h).
Proof.
  intros Hpeer Hsound Hfuel.
  pose proof (serve_wp (SyncCoreSpec0 := Core_session_spec IoError pins rank Hid Hhash core_fuel core_fuel_ok)
    Hpeer debug fuel self t Hsound) as Hwp. simpl in Hwp. specialize (Hwp ltac:(lia)).
  eapply wp_mono; [apply wp_outcome, Hwp|..].
  - intros o [self' t'] [(_ & h & _ & Hw & Hb & Ho) Hrun]. split; [by eapply serve_keeps|]. by exists h.
  - intros e [self' t'] [(_ & _ & h & Hw & Hb) Hrun]. split; [by eapply serve_keeps|]. by exists h.
Qed.

Lemma serve_safe_witness :
  wp (core_serve true (script_bytes silent_peer + 20)) (forked_core, silent_peer)
    (λ o st, st.1 = forked_core) (λ e st, st.1 = forked_core).
Proof.
  destruct forked_sound as [Hp Hsp].
  eapply wp_mono; [apply (serve_safe sample_pins sample_rank toy_key_id_total sample_hash_ok true
    (script_bytes silent_peer + 20) forked_core silent_peer dialogue_honest Hp)|..].
  - change (script_bytes silent_peer + 2 * size (log (view forked.2)) + 8 < script_bytes silent_peer + 20). lia.
  - intros o st [Hs _]. exact Hs.
  - intros e st [Hs _]. exact Hs.
Defined.
