(* ===== verification/Compaction.v ===== *)
(** * Retention: [crates/lotusd/src/core.rs], [compact] and the log walks

    Where a compaction cuts the canonical path, in what order it records the new
    root and prunes, and the two readers of the log. The state directory holds
    one thing the chain depends on, the digest it reopens from; writing it is a
    script of outcomes, and a write that fails leaves the old reading. *)

From S2P Require Import Prelude BTree Text Codec Externals Keys Subkey Msg Envelope Value.
From S2P Require Import Storage Addr StateError Ledger Chain Change Subscribe Core.

(** What a compaction pass did to the envelope log; the count is a [u64]. *)
Record Compacted := MkCompacted { compacted_from : EnvelopeDigest; compacted_to : EnvelopeDigest; compacted_pruned : N }.

(** Why a pass failed. *)
Inductive CompactError `{Externals} (E IoError : Type) : Type :=
  | CompactError_Chain (e : Error E)
  | CompactError_IO (e : IoError)
  | CompactError_ServerGone.
Arguments CompactError_Chain {_ _ _} e.
Arguments CompactError_IO {_ _ _} e.
Arguments CompactError_ServerGone {_ _ _}.

(** [usize::MAX], on a 64-bit machine. *)
Definition usize_max : N := (2 ^ 64 - 1)%N.

(** ** The cut *)

Definition stored_before (a b : StoredAt) : bool := (timestamp_millis a <? timestamp_millis b)%Z.

(** The loop over the path: [index] and [unseen] as the source has them, the
    indexing of [path] panicking out of range. *)
Fixpoint choose_cut_loop (path : list (EnvelopeDigest * StoredAt)) (keep : nat) (cutoff : StoredAt)
    (entries : list (EnvelopeDigest * StoredAt)) (index : nat) (unseen : gset EnvelopeDigest)
    : Outcome (option (EnvelopeDigest * N)) :=
  match entries with
  | [] => Ret None
  | (digest, stored_at) :: entries =>
      let pins := bool_decide (digest ∈ unseen) in
      let unseen := unseen ∖ {[digest]} in
      if pins || negb (bool_decide (unseen = ∅)) || (index <? keep) || negb (stored_before stored_at cutoff)
      then choose_cut_loop path keep cutoff entries (index + 1) unseen
      else
        match index with
        | 0 => Panic
        | S before =>
            match path !! before with
            | Some (cut, _) => Ret (Some (cut, N.of_nat (length path - index)))
            | None => Panic
            end
        end
  end.

(** [keep_envelopes] is a [NonZeroU32]. *)
Definition choose_cut (path : list (EnvelopeDigest * StoredAt)) (keep_envelopes : nat)
    (cutoff : option StoredAt) (pinned : gset EnvelopeDigest) : Outcome (option (EnvelopeDigest * N)) :=
  match cutoff with
  | None => Ret None
  | Some cutoff => choose_cut_loop path keep_envelopes cutoff path 0 pinned
  end.

(** ** The state directory *)

Record StateDir (IoError : Type) := MkStateDir {
  oldest_file : EnvelopeDigest;
  io_script : list (option IoError);
}.
Arguments MkStateDir {_} oldest_file io_script.
Arguments oldest_file {_} _.
Arguments io_script {_} _.

(** Staged and renamed: the reading is the old one or the new one. *)
Definition write_oldest {IoError} (oldest : EnvelopeDigest) : M (StateDir IoError) IoError () := λ dir,
  match io_script dir with
  | Some e :: script => Ret (Err e, MkStateDir (oldest_file dir) script)
  | None :: script => Ret (Ok (), MkStateDir oldest script)
  | [] => Ret (Ok (), MkStateDir oldest [])
  end.

(** ** The passes *)

Section passes.
Context `{Externals} {S E IoError : Type} `{Storage S E}.
Abbreviation CErr := (CompactError E IoError) (only parsing).
Abbreviation State := (Core S * StateDir IoError)%type (only parsing).

(** The canonical path newest first, with its arrival times, as far as the log
    reaches. *)
Fixpoint arrivals (fuel : nat) (storage : S) (next : option EnvelopeDigest)
    : Comp E (list (EnvelopeDigest * StoredAt)) :=
  match fuel with
  | 0 => Diverge
  | Datatypes.S fuel =>
      match next with
      | None => c_ok []
      | Some digest =>
          let? stored := logged_envelope storage digest in
          match stored with
          | None => c_ok []
          | Some entry =>
              let? path := arrivals fuel storage (prev_of (le_envelope entry)) in
              c_ok ((digest, le_stored_at entry) :: path)
          end
      end
  end.

(** [self.oldest = cut], once the file says so. *)
Definition record_oldest (cut : EnvelopeDigest) : M (Core S * StateDir IoError) CErr () := λ cd,
  match write_oldest cut cd.2 with
  | Ret (Ok _, dir) => Ret (Ok (), (with_oldest cd.1 cut, dir))
  | Ret (Err e, dir) => Ret (Err (CompactError_IO e), (cd.1, dir))
  | Panic => Panic
  | Diverge => Diverge
  end.

(** The chain's own compaction. *)
Definition prune_chain (fuel : nat) (cut : EnvelopeDigest) : M (Core S * StateDir IoError) CErr N := λ cd,
  match on_chain (compact fuel cut) cd.1 with
  | Ret (Ok n, self) => Ret (Ok n, (self, cd.2))
  | Ret (Err e, self) => Ret (Err (CompactError_Chain e), (self, cd.2))
  | Panic => Panic
  | Diverge => Diverge
  end.

Definition core_compact_before (fuel : nat) (cutoff : option StoredAt) (keep_envelopes : nat) (min_prune : N)
    (pinned : gset EnvelopeDigest) : M (Core S * StateDir IoError) CErr Compacted := λ cd,
  let from := core_oldest cd.1 in
  (let! path := m_ask (λ cd, c_map_err (λ e, CompactError_Chain (Error_Storage e))
     (arrivals fuel (core_storage cd.1) (Some (head cd.1)))) in
   let unchanged := MkCompacted from from 0 in
   let! chosen := m_ask (λ _, match choose_cut path keep_envelopes cutoff pinned with
                              | Ret o => c_ok o
                              | Panic => Panic
                              | Diverge => Diverge
                              end) in
   match chosen with
   | None => m_ret unchanged
   | Some (cut, eligible) =>
       if (eligible <? min_prune)%N then m_ret unchanged
       else
         do! record_oldest cut in
         let! pruned := prune_chain fuel cut in
         m_ret (MkCompacted from cut pruned)
   end) cd.

(** [StoredAt::ago], over [chrono]'s clock: the reading so many seconds ago. *)
Variable ago : N → option StoredAt.

Definition core_compact (fuel : nat) (keep_envelopes : nat) (min_prune : N) (pinned : gset EnvelopeDigest)
    : M (Core S * StateDir IoError) CErr Compacted :=
  let! minutes := m_ask (λ cd, c_map_err (λ e, CompactError_Chain (Error_Storage e))
    (chain_min_keep_minutes (core_chain cd.1) (core_storage cd.1))) in
  core_compact_before fuel (ago (minutes * 60)) keep_envelopes min_prune pinned.

(** Reopening from the state directory: what [init_with_state_dir] makes of the
    file's digest. *)
Definition reopen (fuel : nat) (dir : StateDir IoError) : M S (Error E) Chain := chain_open fuel (oldest_file dir).

(** ** Reading the log *)

(** The walk of [canonical_chain], newest first; [limit] is a [usize]. *)
Fixpoint chain_walk (fuel : nat) (storage : S) (limit : N) (since : option StoredAt)
    (chain : list (EnvelopeDigest * LogEntry)) (next : option EnvelopeDigest)
    : Comp E (list (EnvelopeDigest * LogEntry)) :=
  match fuel with
  | 0 => Diverge
  | Datatypes.S fuel =>
      match (if (N.of_nat (length chain) <? limit)%N then next else None) with
      | None => c_ok chain
      | Some digest =>
          let? stored := logged_envelope storage digest in
          match stored with
          | None => c_ok chain
          | Some entry =>
              if match since with Some since => stored_before (le_stored_at entry) since | None => false end
              then c_ok chain
              else chain_walk fuel storage limit since (chain ++ [(digest, entry)])
                     (prev_of (le_envelope entry))
          end
      end
  end.

(** The canonical chain, oldest envelope first. *)
Definition canonical_chain (fuel : nat) (self : Core S) (limit : option N) (since : option StoredAt)
    : Comp E (list (EnvelopeDigest * LogEntry)) :=
  let limit := from_option id usize_max limit in
  let? chain := chain_walk fuel (core_storage self) limit since [] (Some (head self)) in
  c_ok (reverse chain).

(** The envelopes stored under some digests, in the order asked for. *)
Fixpoint core_envelopes (self : Core S) (digests : list EnvelopeDigest)
    : Comp E (list (EnvelopeDigest * LogEntry)) :=
  match digests with
  | [] => c_ok []
  | digest :: digests =>
      let? found := logged_envelope (core_storage self) digest in
      let? rest := core_envelopes self digests in
      c_ok (match found with Some entry => (digest, entry) :: rest | None => rest end)
  end.
End passes.
