(* ===== verification/CompactionProps.v ===== *)
(** * Retention's properties

    What a pass keeps, and that whatever fails during one, the node comes back at
    the head it had. *)

From S2P Require Import Prelude BTree Text Codec Externals Keys Subkey Msg Envelope Value.
From S2P Require Import Storage Mem Addr StateError Ledger LedgerSpec Fixtures LedgerProps Chain.
From S2P Require Import ChainSpec ChainStore ChainInsert ChainFixtures ChainCompact ForkChoice Change Subscribe.
From S2P Require Import Core CoreSpec CoreNode CoreFixtures Compaction.

(** ** The cut *)

Definition stored_from_cutoff (cutoff : option StoredAt) (at_ : StoredAt) : Prop :=
  match cutoff with
  | None => True
  | Some cutoff => stored_before at_ cutoff = false
  end.

(** A clause that keeps the entry at an index of the path. *)
Definition held_by (path : list (EnvelopeDigest * StoredAt)) (keep : nat) (cutoff : option StoredAt)
    (pinned : gset EnvelopeDigest) (i : nat) (at_ : StoredAt) : Prop :=
  i < keep ∨ stored_from_cutoff cutoff at_ ∨ ∃ q, q ∈ pinned ∧ q ∉ (take i path).*1.

(** Times that only fall along a path. *)
Definition falling (path : list (EnvelopeDigest * StoredAt)) : Prop :=
  ∀ i j x y, i ≤ j → path !! i = Some x → path !! j = Some y →
    (timestamp_millis y.2 ≤ timestamp_millis x.2)%Z.

(** What the loop does from an index on. *)
Lemma choose_cut_loop_spec path keep cutoff pinned entries index unseen :
  1 ≤ keep → falling path → drop index path = entries →
  unseen = pinned ∖ list_to_set (take index path).*1 →
  (∀ i d t, i < index → path !! i = Some (d, t) → held_by path keep (Some cutoff) pinned i t) →
  ∃ o, choose_cut_loop path keep cutoff entries index unseen = Ret o ∧
  match o with
  | None => ∀ i d t, path !! i = Some (d, t) → held_by path keep (Some cutoff) pinned i t
  | Some (cut, n) => ∃ k at_, 0 < k ∧ k + N.to_nat n = length path ∧ path !! (k - 1) = Some (cut, at_) ∧
      ∀ i d t, path !! i = Some (d, t) → held_by path keep (Some cutoff) pinned i t ↔ i < k
  end.
Proof.
  intros Hkeep Hfall. revert index unseen. induction entries as [|[digest stored_at] entries IH];
    intros index unseen Hdrop Hunseen Hheld.
  - exists None. split; [done|]. intros i d t Hi. apply (Hheld i d t); [|done].
    apply lookup_lt_Some in Hi. apply (f_equal length) in Hdrop. rewrite length_drop in Hdrop. simpl in Hdrop. lia.
  - assert (path !! index = Some (digest, stored_at)) as Hix.
    { rewrite <-(Nat.add_0_r index), <-lookup_drop, Hdrop. done. }
    assert (take (index + 1) path = take index path ++ [(digest, stored_at)]) as Htake
      by (rewrite Nat.add_1_r; by apply take_S_r).
    cbn [choose_cut_loop].
    set (unseen' := unseen ∖ {[digest]}).
    assert (unseen' = pinned ∖ list_to_set (take (index + 1) path).*1) as Hunseen'.
    { unfold unseen'. rewrite Hunseen, Htake, fmap_app, list_to_set_app_L. cbn [fmap list_fmap list_to_set].
      set_solver. }
    assert ((bool_decide (digest ∈ unseen) || negb (bool_decide (unseen' = ∅))) = true ↔
      ∃ q, q ∈ pinned ∧ q ∉ (take index path).*1) as Hpin.
    { rewrite orb_true_iff, negb_true_iff, bool_decide_eq_true, bool_decide_eq_false. split.
      - intros [Hd|Hne]; [exists digest; rewrite Hunseen in Hd; set_solver|].
        apply set_choose_L in Hne as [q Hq]. exists q. unfold unseen' in Hq. rewrite Hunseen in Hq. set_solver.
      - intros (q & Hq & Hn). destruct (decide (q = digest)) as [->|Hne]; [left; rewrite Hunseen; set_solver|right].
        intros Hempty. assert (q ∈ unseen') as Hin; [|rewrite Hempty in Hin; set_solver].
        unfold unseen'. rewrite Hunseen. set_solver. }
    destruct (_ || _ || _ || _) eqn:Hc.
    + assert (held_by path keep (Some cutoff) pinned index stored_at) as Hhere.
      { apply orb_true_iff in Hc as [Hc|Hc]; [apply orb_true_iff in Hc as [Hc|Hc]|].
        - right. right. by apply Hpin.
        - left. by apply Nat.ltb_lt.
        - right. left. simpl. by apply negb_true_iff. }
      apply IH.
      * rewrite <-drop_drop, Hdrop. done.
      * done.
      * intros i d t Hi Hd. destruct (decide (i = index)) as [->|Hne]; [by simplify_eq|]. apply (Hheld i d t); [lia|done].
    + apply orb_false_iff in Hc as [Hc Hold]. apply orb_false_iff in Hc as [Hnp Hge]. apply Nat.ltb_ge in Hge.
      apply negb_false_iff in Hold. destruct index as [|before]; [lia|].
      destruct (lookup_lt_is_Some_2 path before) as [[cut at_] Hcut]; [apply lookup_lt_Some in Hix; lia|].
      rewrite Hcut. eexists. split; [done|]. exists (S before), at_. rewrite Nat2N.id.
      apply lookup_lt_Some in Hix as Hlen. split_and!; [lia|lia|by rewrite Nat.sub_1_r|].
      intros i d t Hi. split; [|intros Hlt; by apply (Hheld i d t)].
      intros Hh. destruct (decide (i < S before)) as [?|Hni]; [done|]. exfalso.
      destruct Hh as [?|[Ht|(q & Hq & Hn)]]; [lia|..].
      * simpl in Ht. pose proof (Hfall (S before) i _ _ ltac:(lia) Hix Hi) as Hle. simpl in Hle.
        unfold stored_before in Ht, Hold. apply Z.ltb_lt in Hold. apply Z.ltb_ge in Ht. lia.
      * apply not_true_iff_false in Hnp. apply Hnp, Hpin. exists q. split; [done|]. intros Hin. apply Hn.
        apply list_elem_of_fmap in Hin as (x & -> & Hx). apply list_elem_of_fmap. exists x. split; [done|].
        apply elem_of_take in Hx as (j & Hj & Hlt). apply elem_of_take. exists j. split; [done|lia].
Qed.

(** The cut keeps exactly what some clause keeps. On a path whose times only
    fall, and with at least one envelope to keep, [choose_cut] never indexes out
    of the path; it cuts nowhere only where a clause holds all the way down, and
    where it cuts, the entries up to the cut are exactly those that are among the
    newest to keep, or stored since the cutoff, or above a pinned digest still to
    come — one not on the path at all keeping everything — and it counts the
    rest. *)
Theorem choose_cut_exact (path : list (EnvelopeDigest * StoredAt)) (keep : nat) (cutoff : option StoredAt)
    (pinned : gset EnvelopeDigest) :
  1 ≤ keep → falling path →
  ∃ o, choose_cut path keep cutoff pinned = Ret o ∧
  match o with
  | None => ∀ i d t, path !! i = Some (d, t) → held_by path keep cutoff pinned i t
  | Some (cut, n) => ∃ k at_, 0 < k ∧ k + N.to_nat n = length path ∧ path !! (k - 1) = Some (cut, at_) ∧
      ∀ i d t, path !! i = Some (d, t) → held_by path keep cutoff pinned i t ↔ i < k
  end.
Proof.
  intros Hkeep Hfall. destruct cutoff as [cutoff|].
  - apply choose_cut_loop_spec; [done|done|done| |intros; lia]. set_solver.
  - exists None. split; [done|]. intros i d t _. right. by left.
Qed.

(** The forked chain's path, arrived one millisecond after another. *)
Definition arrival_path : list (EnvelopeDigest * StoredAt) :=
  [(leaf_d, MkStoredAt 3); (heavy_d, MkStoredAt 2); (genesis_d, MkStoredAt 1)].

Lemma arrival_falling : falling arrival_path.
Proof.
  intros i j x y Hij Hi Hj. unfold arrival_path in *.
  destruct i as [|[|[|i]]], j as [|[|[|j]]]; simpl in *; simplify_eq/=; lia.
Qed.

Lemma choose_cut_exact_witness :
  ∃ o, choose_cut arrival_path 1 (Some (MkStoredAt 3)) {[heavy_d]} = Ret o ∧ option_map snd o = Some 1%N.
Proof.
  destruct (choose_cut_exact arrival_path 1 (Some (MkStoredAt 3)) {[heavy_d]} ltac:(lia) arrival_falling)
    as (o & Ho & _).
  exists o. split; [exact Ho|].
  assert ((match choose_cut arrival_path 1 (Some (MkStoredAt 3)) {[heavy_d]} with
           | Ret o => option_map snd o | _ => None end) = Some 1%N) as Hn by (vm_compute; reflexivity).
  by rewrite Ho in Hn.
Defined.

(** Whatever the times, a cut is an entry of the path. *)
Lemma choose_cut_entry path keep cutoff pinned :
  1 ≤ keep → ∃ o, choose_cut path keep cutoff pinned = Ret o ∧
    ∀ cut n, o = Some (cut, n) → ∃ i at_, path !! i = Some (cut, at_).
Proof.
  intros Hkeep. destruct cutoff as [cutoff|]; [|by exists None]. unfold choose_cut.
  assert (∀ entries index unseen, drop index path = entries →
    ∃ o, choose_cut_loop path keep cutoff entries index unseen = Ret o ∧
      ∀ cut n, o = Some (cut, n) → ∃ i at_, path !! i = Some (cut, at_)) as Hgen; [|by apply Hgen].
  intros entries. induction entries as [|[digest stored_at] entries IH]; intros index unseen Hdrop; [by exists None|].
  assert (path !! index = Some (digest, stored_at)) as Hix.
  { rewrite <-(Nat.add_0_r index), <-lookup_drop, Hdrop. done. }
  cbn [choose_cut_loop]. destruct (_ || _ || _ || _) eqn:Hc; [apply IH; by rewrite <-drop_drop, Hdrop|].
  apply orb_false_iff in Hc as [Hc _]. apply orb_false_iff in Hc as [_ Hge]. apply Nat.ltb_ge in Hge.
  destruct index as [|before]; [lia|].
  destruct (lookup_lt_is_Some_2 path before) as [[cut at_] Hcut]; [apply lookup_lt_Some in Hix; lia|].
  rewrite Hcut. eexists. split; [done|]. intros cut' n [= <- _]. by exists before, at_.
Qed.

(** ** The pass *)

Section pass.
Context `{Externals} {S E IoError : Type} `{StorageSpec S E}.
Variable rank : EnvelopeDigest → nat.
Implicit Types (self : Core S) (dir : StateDir IoError).

Abbreviation lg self := (log (view (core_storage self))) (only parsing).

(** What a node can come back from: the file names an envelope of the log, from
    which the walk ends at the head, over versions that are held. *)
Record durable self dir : Prop := {
  du_storage : storage_ok (core_storage self);
  du_ranked : ranked rank (lg self);
  du_logged : is_Some (lg self !! oldest_file dir);
  du_tip : tip (lg self) (oldest_file dir) (head self);
  du_held x : rtc (winner (lg self)) (oldest_file dir) x → rtc (winner (lg self)) x (head self) →
    is_Some (versions (view (core_storage self)) !! x);
  du_oldest : core_oldest self = oldest_file dir;
}.

Lemma durable_reopens self dir (fuel : nat) :
  durable self dir → size (lg self) < fuel →
  wp (reopen fuel dir) (core_storage self)
    (λ c s', c = MkChain (oldest_file dir) (MkLedger (head self)) ∧ s' = core_storage self)
    (λ e s', s' = core_storage self ∧ ∃ x, e = Error_Storage x).
Proof using.
  intros [Hs Hr [e He] Htip Hheld _] Hfuel. unfold reopen, chain_open.
  assert (∀ x : E, core_storage self = core_storage self ∧ ∃ y, Error_Storage x = Error_Storage y) as Hx
    by (intros x; split; [done|by exists x]).
  apply wp_bind. eapply read_wp; [by apply envelope_spec| |done]. intros logged ->.
  apply wp_bind, wp_ask. rewrite He. simpl.
  apply wp_bind, wp_ask. eapply cwp_mono.
  { apply ledger_open_cwp; [done|]. apply Hheld; [apply rtc_refl|apply Htip]. }
  2: { done. }
  intros l0 _. apply wp_bind. unfold canonicalize. apply wp_bind, wp_ask.
  eapply cwp_mono.
  { apply ledger_open_cwp; [done|]. apply Hheld; [apply rtc_refl|apply Htip]. }
  2: { done. }
  intros l ->. pose proof (higher_le rank (lg self) (oldest_file dir)).
  eapply wp_mono; [apply (canonicalize_path_wp rank fuel (core_storage self) (oldest_file dir) (head self)); try done; lia| |done].
  intros l s' [-> ->]. by apply wp_ret.
Qed.

(** The path as the pass reads it. *)
Lemma arrivals_cwp (fuel : nat) (s : S) d :
  storage_ok s → ranked rank (log (view s)) → not_higher rank (log (view s)) d < fuel →
  cwp (arrivals fuel s (Some d))
    (λ path, (∀ i x, path !! i = Some x → is_Some (log (view s) !! x.1) ∧ ancestor (log (view s)) x.1 d) ∧
      ∀ i j x y, i ≤ j → path !! i = Some x → path !! j = Some y → ancestor (log (view s)) y.1 x.1) (λ _, True).
Proof using.
  intros Hs Hr. revert d. induction fuel as [|fuel IH]; intros d Hfuel; [lia|]. cbn [arrivals]. apply cwp_bind.
  eapply cwp_mono; [by apply logged_envelope_spec| |done]. intros [entry|] Hd; simpl in Hd; symmetry in Hd.
  2: { split; intros; simplify_eq/=. }
  apply cwp_bind.
  assert (∀ path, (∀ i x, path !! i = Some x → is_Some (log (view s) !! x.1) ∧ ancestor (log (view s)) x.1 d) →
    (∀ i j x y, i ≤ j → path !! i = Some x → path !! j = Some y → ancestor (log (view s)) y.1 x.1) →
    cwp (E:=E) (c_ok ((d, le_stored_at entry) :: path))
      (λ path, (∀ i x, path !! i = Some x → is_Some (log (view s) !! x.1) ∧ ancestor (log (view s)) x.1 d) ∧
        ∀ i j x y, i ≤ j → path !! i = Some x → path !! j = Some y → ancestor (log (view s)) y.1 x.1) (λ _, True)) as Hcons.
  { intros path Hall Hord. split.
    - intros [|i] x Hx; [injection Hx as <-; split; [by eexists|apply rtc_refl]|by apply (Hall i)].
    - intros [|i] [|j] x y Hij Hx Hy; simpl in Hx, Hy; [simplify_eq; apply rtc_refl| |lia|].
      + injection Hx as <-. by apply (Hall j).
      + apply (Hord i j); [lia|done|done]. }
  destruct (prev_of (le_envelope entry)) as [p|] eqn:Hp.
  - assert (logged_child (log (view s)) p d) as Hc by (by exists (le_envelope entry)).
    eapply cwp_mono; [apply IH| |done].
    { pose proof (not_higher_parent rank (log (view s)) p d ltac:(by eexists) (Hr _ _ Hc)). lia. }
    intros path [Hall Hord]. apply Hcons; [|done]. intros i x Hx. destruct (Hall i x Hx) as [? ?].
    split; [done|]. by eapply rtc_r.
  - destruct fuel as [|fuel]; [|apply (Hcons []); intros; simplify_eq/=].
    exfalso. assert (d ∈ filter (λ x, rank x ≤ rank d) (dom (log (view s)))) as Hin.
    { apply elem_of_filter. split; [lia|]. by apply elem_of_dom_2 in Hd. }
    unfold not_higher in Hfuel. assert (size (filter (λ x, rank x ≤ rank d) (dom (log (view s)))) = 0) as Hz by lia.
    apply size_empty_inv in Hz. set_solver.
Qed.
End pass.

Section compaction.
Context `{Externals} {S E IoError : Type} `{StorageSpec S E}.
Variables (pins : EnvelopeDigest → option Msg) (rank : EnvelopeDigest → nat).
Hypothesis Hhash : HashOk pins rank.
Implicit Types (self : Core S) (dir : StateDir IoError).

Abbreviation lg self := (log (view (core_storage self))) (only parsing).

(** A node between passes: in order, durable, and with nothing left below its
    root. *)
Record settled_node self dir : Prop := {
  se_sound : core_sound pins self;
  se_durable : durable rank self dir;
  se_root : chain_root (core_chain self) = oldest_file dir;
  se_below x : is_Some (lg self !! x) → ancestor (lg self) x (head self) →
    ancestor (lg self) (oldest_file dir) x;
}.

(** A log some of whose doomed entries are gone: the walk from the cut is what it
    was. *)
Lemma durable_cut self self' dir cut (script : list (option IoError)) :
  settled_node self dir → is_Some (lg self !! cut) → ancestor (lg self) cut (head self) →
  storage_ok (core_storage self') → head self' = head self → core_oldest self' = cut →
  (∀ x, is_Some (versions (view (core_storage self)) !! x) → ancestor (lg self) cut x →
    ancestor (lg self) x (head self) → is_Some (versions (view (core_storage self')) !! x)) →
  lg self' ⊆ lg self → (∀ x, ¬ doomed (lg self) cut x → lg self' !! x = lg self !! x) →
  durable rank self' (MkStateDir cut script).
Proof using Hhash.
  intros [Hsound Hdur Hroot Hbelow] Hlog Hanc Hs' Hhead Hold Hver Hsub Hkept.
  pose proof Hsound as [[Hs Hinv Hrheld] Hheld Hrooted]. rewrite Hroot in *.
  assert (∀ x, ancestor (lg self) cut x → lg self' !! x = lg self !! x) as Hsame.
  { intros x Hx. apply Hkept. by intros [_ Hn]. }
  assert (pruned (lg self) (λ x, lg self' !! x ≠ lg self !! x) (lg self')) as Hpr.
  { split.
    - intros x Hne. destruct (lg self' !! x) as [e|] eqn:He; [|done]. destruct Hne.
      symmetry. by eapply lookup_weaken.
    - intros x Hne. destruct (decide (lg self' !! x = lg self !! x)); [done|by destruct Hne]. }
  assert (tip (lg self) cut (head self)) as Htip.
  { split; [|apply Hdur]. apply (on_winner_path rank (lg self) (oldest_file dir)); [apply Hdur|apply Hdur| |done].
    by apply Hbelow. }
  assert (tip (lg self') cut (head self)) as Htip'.
  { eapply tip_kept; [exact Hpr| |done]. intros x Hx Hne. by apply Hne, Hsame. }
  split; simpl; [done|by eapply pruned_ranked; [apply Hdur|]|by rewrite Hsame by apply rtc_refl|by rewrite Hhead| |done].
  rewrite Hhead. intros x Hcx Hxh.
  assert (ancestor (lg self) cut x) as Hcx' by (eapply pruned_ancestor; [done|by apply winner_ancestor]).
  assert (ancestor (lg self) x (head self)) as Hxh' by (eapply pruned_ancestor; [done|by apply winner_ancestor]).
  apply Hver; [|done|done].
  apply (ancestor_held pins rank Hhash (view (core_storage self)) (oldest_file dir) x (head self)); try done.
  etrans; [by apply Hbelow|done].
Qed.

(** What a prune leaves on the way to the head lies under the cut. *)
Lemma pruned_under_cut lg lg' cut x h :
  ranked rank lg → ancestor lg cut h → pruned lg (doomed lg cut) lg' → is_Some (lg' !! x) → ancestor lg' x h →
  ancestor lg' cut x.
Proof using.
  intros Hr Hch Hpr [e Hx] Hxh. assert (ancestor lg cut x) as Hcx.
  { destruct (ancestor_linear lg cut x h) as [?|Hxc]; [done|by eapply pruned_ancestor|done|].
    destruct (decide (x = cut)) as [->|Hne]; [apply rtc_refl|]. exfalso.
    assert (doomed lg cut x) as Hd.
    { split; [by exists x; split; [|apply rtc_refl]|]. intros Hcx. apply Hne.
      by eapply (ancestor_antisym rank). }
    by rewrite (pr_gone _ _ _ Hpr _ Hd) in Hx. }
  eapply pruned_ancestor_kept; [done|done|]. intros p y Hcp Hpy _ [_ Hn]. apply Hn. by eapply rtc_r.
Qed.

(** Reopening from the state directory finds the head, and writes nothing. *)
Definition comes_back self (cd : Core S * StateDir IoError) : Prop :=
  ∀ fuel, size (lg cd.1) < fuel →
  wp (reopen fuel cd.2) (core_storage cd.1)
    (λ c s', c = MkChain (oldest_file cd.2) (MkLedger (head self)) ∧ s' = core_storage cd.1)
    (λ e s', s' = core_storage cd.1 ∧ ∃ x, e = Error_Storage x).

Definition pass_reports self (r : Compacted) (cd : Core S * StateDir IoError) : Prop :=
  compacted_from r = core_oldest self ∧ compacted_to r = oldest_file cd.2 ∧
  N.to_nat (compacted_pruned r) + size (lg cd.1) = size (lg self) ∧
  ∀ x, ¬ doomed (lg self) (compacted_to r) x → lg cd.1 !! x = lg self !! x.

(** How a pass fails. *)
Definition pass_fails self dir (e : CompactError E IoError) (cd : Core S * StateDir IoError) : Prop :=
  match e with
  | CompactError_IO _ => cd.1 = self ∧ oldest_file cd.2 = oldest_file dir
  | CompactError_Chain e => ∃ x, e = Error_Storage x
  | CompactError_ServerGone => False
  end.

Lemma durable_back self cd : durable rank cd.1 cd.2 → head cd.1 = head self → comes_back self cd.
Proof using. intros Hd Hh fuel Hf. rewrite <-Hh. by apply (durable_reopens rank). Qed.

(** The pruning half, once the file names the cut. *)
Lemma prune_chain_wp (fuel : nat) self dir cut script :
  settled_node self dir → is_Some (lg self !! cut) → ancestor (lg self) cut (head self) →
  2 * size (lg self) + 2 ≤ fuel →
  wp (prune_chain fuel cut) (with_oldest self cut, MkStateDir cut script)
    (λ n cd, comes_back self cd ∧ head cd.1 = head self ∧ settled_node cd.1 cd.2 ∧
      pass_reports self (MkCompacted (core_oldest self) cut n) cd)
    (λ e cd, comes_back self cd ∧ head cd.1 = head self ∧ pass_fails self dir e cd).
Proof using Hhash.
  intros Hset Hlogged Hanc Hfuel. pose proof Hset as [Hsound Hdur Hroot Hbelow].
  pose proof Hsound as [Hok Hheld Hrooted].
  assert (tip (lg self) (chain_root (core_chain self)) (head self)) as Htip by (rewrite Hroot; apply Hdur).
  assert (ancestor (lg self) cut (head self) → ancestor (lg self) (chain_root (core_chain self)) cut) as Hb
    by (intros _; rewrite Hroot; by apply Hbelow).
  pose proof (compact_wp pins rank Hhash fuel cut (core_chain self) (core_storage self) Hok Hheld Htip Hb Hfuel) as Hwp.
  unfold wp, prune_chain, on_chain in *. cbn [fst snd with_oldest core_chain core_storage].
  destruct (compact fuel cut (core_chain self, core_storage self)) as [[[n|e] [c s]]| |]; [..|done|done];
    cbn [fst snd] in Hwp.
  - destruct Hwp as (Hok' & Hcr & Hch & Htip' & Hn & Hpr & Hv).
    set (self' := with_chain (with_oldest self cut) (c, s)).
    assert (durable rank self' (MkStateDir cut script)) as Hdur'.
    { apply (durable_cut self self' dir cut script Hset); try done; [apply Hok'| |by eapply pruned_sub|apply Hpr].
      intros x [v Hx] Hcx Hxh. exists v. by apply Hv. }
    assert (head self' = head self) as Hh by done.
    split; [by apply durable_back|]. split; [done|]. split; [|split_and!; [done|done|done|apply Hpr]].
    split; [|done|done|].
    + split; [done| |change (ancestor (log (view s)) (chain_root c) (chain_head c)); rewrite Hcr, Hch; apply winner_ancestor, Htip'].
      change (is_Some (versions (view s) !! chain_head c)). rewrite Hch. destruct Hheld as [v Hx]. exists v. apply Hv. split; [done|]. split; [done|apply rtc_refl].
    + simpl. intros x Hx Hxh. rewrite Hh in Hxh. apply (pruned_under_cut (lg self) _ cut x (head self)); [apply Hdur|done..].
  - destruct Hwp as (-> & [(_ & Hnot & _)|(Hx & Hsub & Hkept & Hv)]); [done|].
    split; [|by split]. apply durable_back; [|done].
    apply (durable_cut self _ dir cut script Hset); try done; [by destruct Hv as [[[] _]|[[] _]]|].
    simpl. destruct Hv as [[_ ->]|[_ Hv]]; [done|]. intros x [v Hxv] Hcx Hxh. exists v. by apply Hv.
Qed.

(** C14: whatever happens during a pass, the node comes back at its head. From a
    settled node — and on any outcome of the write of the file and of the
    backend's calls — a pass ends, its head where it was; the state directory
    names an envelope from which reopening finds that same head and writes
    nothing, unless the backend fails the reads. A pass that ends well leaves a
    settled node again, rooted at the envelope it reports, and the log has lost
    only what lies off the way from there; a pass that cannot record the new root
    has pruned nothing. *)
Theorem compaction_durable (fuel : nat) (cutoff : option StoredAt) (keep : nat) (min_prune : N)
    (pinned : gset EnvelopeDigest) (self : Core S) (dir : StateDir IoError) :
  settled_node self dir → 1 ≤ keep → 2 * size (lg self) + 2 ≤ fuel →
  wp (core_compact_before fuel cutoff keep min_prune pinned) (self, dir)
    (λ r cd, comes_back self cd ∧ head cd.1 = head self ∧ settled_node cd.1 cd.2 ∧ pass_reports self r cd)
    (λ e cd, comes_back self cd ∧ head cd.1 = head self ∧ pass_fails self dir e cd).
Proof using Hhash.
  intros Hset Hkeep Hfuel. pose proof Hset as [Hsound Hdur Hroot Hbelow].
  unfold core_compact_before. apply wp_bind, wp_ask, cwp_map_err.
  eapply cwp_mono; [apply (arrivals_cwp rank); [apply Hdur|apply Hdur|]|..].
  { pose proof (not_higher_le rank (lg self) (head self)). cbn [fst]. lia. }
  2: { intros x _. split; [by apply durable_back|]. split; [done|by eexists]. }
  intros path [Hpath _].
  destruct (choose_cut_entry path keep cutoff pinned Hkeep) as (o & Ho & Hentry).
  assert (pass_reports self (MkCompacted (core_oldest self) (core_oldest self) 0) (self, dir)) as Hsame
    by (split_and!; [done|apply Hdur|done|done]).
  pose proof (durable_back self (self, dir) Hdur eq_refl) as Hback.
  apply wp_bind, wp_ask. rewrite Ho. unfold cwp, c_ok. destruct o as [[cut n]|]; [|by apply wp_ret].
  destruct (n <? min_prune)%N; [by apply wp_ret|].
  destruct (Hentry cut n eq_refl) as (i & at_ & Hi). destruct (Hpath i _ Hi) as [Hlogged Hanc]. simpl in Hlogged, Hanc.
  apply wp_bind. unfold wp at 1, record_oldest, write_oldest. cbn [fst snd].
  assert (∀ script, wp (let! pruned := prune_chain fuel cut in m_ret (MkCompacted (core_oldest self) cut pruned))
    (with_oldest self cut, MkStateDir cut script)
    (λ r cd, comes_back self cd ∧ head cd.1 = head self ∧ settled_node cd.1 cd.2 ∧ pass_reports self r cd)
    (λ e cd, comes_back self cd ∧ head cd.1 = head self ∧ pass_fails self dir e cd)) as Hprune.
  { intros script. apply wp_bind. eapply wp_mono; [by apply (prune_chain_wp fuel self dir)| |done].
    intros n' cd Hcd. by apply wp_ret. }
  destruct (io_script dir) as [|[x|] script]; [apply Hprune| |apply Hprune].
  split; [apply durable_back; [destruct Hdur; by split|done]|]. done.
Qed.
End compaction.

(** The forked node, whose file names the genesis. *)
Definition forked_dir : StateDir Empty_set := MkStateDir genesis_d [].

Lemma forked_settled : settled_node (IoError := Empty_set) sample_pins sample_rank forked_core forked_dir.
Proof.
  destruct forked_ok as (Hok & Hroot & Hheld & Htip & _).
  pose proof Hok as [Hs Hinv _]. pose proof Hinv as Hinv'. rewrite Hroot in Hinv'.
  split; [exact (proj1 forked_sound)| |exact Hroot|].
  - split; [exact Hs|exact (inv_ranked _ _ sample_hash_ok _ _ Hinv)|by_computing|exact Htip| |exact eq_refl].
    intros x Hx Hxh. exact (ancestor_held _ _ sample_hash_ok _ _ x _ Hinv' (winner_ancestor _ _ _ Hx)
      (winner_ancestor _ _ _ Hxh) Hheld).
  - intros x Hx _. revert x Hx. apply (climbs_rooted 5). vm_compute. reflexivity.
Qed.

(** A pass that keeps one envelope cuts at the leaf and drops the other three. *)
Definition forked_pass : M (Core MemNode * StateDir Empty_set) (CompactError Empty_set Empty_set) Compacted :=
  core_compact_before 20 (Some (MkStoredAt 100)) 1 0 ∅.

Lemma compaction_durable_witness :
  ∃ r cd, forked_pass (forked_core, forked_dir) = Ret (Ok r, cd) ∧ compacted_pruned r = 3%N ∧
    comes_back forked_core cd ∧ settled_node sample_pins sample_rank cd.1 cd.2.
Proof.
  destruct (runs forked_pass (forked_core, forked_dir)) as (r & cd & Hrun); [by_computing|].
  pose proof (proj2 forked_sound) as Hsize.
  pose proof (wp_Ret _ _ _ _ _ _ (compaction_durable sample_pins sample_rank sample_hash_ok 20
    (Some (MkStoredAt 100)) 1 0 ∅ forked_core forked_dir forked_settled ltac:(lia) ltac:(change (2 * size (log (view forked.2)) + 2 ≤ 20); lia)) Hrun)
    as (Hback & _ & Hset & _).
  exists r, cd. split; [exact Hrun|]. split; [|exact (conj Hback Hset)].
  assert (option_map compacted_pruned (value_of forked_pass (forked_core, forked_dir)) = Some 3%N) as Hn
    by (vm_compute; reflexivity).
  unfold value_of in Hn. rewrite Hrun in Hn. by injection Hn.
Defined.
