(* ===== verification/Advertise.v ===== *)
(** * Admission and advertising: [crates/lotusd/src/core.rs]

    The two writes a node makes to the cluster's own namespaces: admitting
    another node, and keeping the transports listed for itself in line with the
    address it is reachable at. Equality of [iroh]'s addresses is that crate's. *)

From S2P Require Import Prelude BTree Text Codec Externals Keys Subkey Msg Envelope Value.
From S2P Require Import Storage Addr StateError Ledger Chain Change Subscribe Core.

(** [iroh]'s [PartialEq]s. *)
Class IrohEq `{Externals} := {
  endpoint_addr_eqb : EndpointAddr → EndpointAddr → bool;
  endpoint_id_eqb : EndpointId → EndpointId → bool;
}.

(** One envelope's worth of change to the transports listed for this node; an
    index is a [u32]. *)
Inductive Update : Type :=
  | Update_Transports (entries : list Value)
  | Update_Replace (index : N) (entry : Value)
  | Update_Drop (index : N)
  | Update_Append (entry : Value).

(** What [advertise] did. *)
Inductive Advertised `{Externals} : Type :=
  | Advertised_Unchanged
  | Advertised_Written (digest : EnvelopeDigest)
  | Advertised_NotListed
  | Advertised_OtherEndpoint (id : EndpointId)
  | Advertised_CannotSign (reason : CannotSignAlone).

(** Why [advertise] could not run. *)
Inductive AdvertiseError `{Externals} (E : Type) : Type :=
  | AdvertiseError_Addr (e : AddrError)
  | AdvertiseError_Chain (e : Error E)
  | AdvertiseError_ServerGone.
Arguments AdvertiseError_Addr {_ _} e.
Arguments AdvertiseError_Chain {_ _} e.
Arguments AdvertiseError_ServerGone {_ _}.

(** Why a node could not be admitted. *)
Inductive AdmitError `{Externals} (E : Type) : Type :=
  | AdmitError_Addr (e : AddrError)
  | AdmitError_Chain (e : Error E)
  | AdmitError_ServerGone.
Arguments AdmitError_Addr {_ _} e.
Arguments AdmitError_Chain {_ _} e.
Arguments AdmitError_ServerGone {_ _}.

(** ** The edits *)

(** The indices of the entries a listing does not keep: an entry is kept where it
    is wanted and no earlier one was kept for it. *)
Fixpoint spare_from (wanted : list Value) (index : nat) (kept : list Value) (listed : list Value) : list nat :=
  match listed with
  | [] => []
  | entry :: rest =>
      if bool_decide (entry ∈ wanted) && bool_decide (entry ∉ kept)
      then spare_from wanted (index + 1) (entry :: kept) rest
      else index :: spare_from wanted (index + 1) kept rest
  end.

Definition IROH : rstring := str "iroh".

(** The edits that take a listing to [wanted]; [None] where an index to spend is
    past what a [u32] addresses. *)
Definition edits (listed wanted : list Value) : option (list Update) :=
  let spare := spare_from wanted 0 [] listed in
  if forallb (λ index, N.of_nat index <=? u32_max)%N spare then
    let missing := base.filter (λ entry, entry ∉ listed) wanted in
    let paired := length spare `min` length missing in
    let appended := map Update_Append (drop paired missing) in
    let replaced := zip_with (λ index entry, Update_Replace (N.of_nat index) entry)
      (take paired spare) (take paired missing) in
    let dropped := map (λ index, Update_Drop (N.of_nat index)) (reverse (drop paired spare)) in
    Some (appended ++ replaced ++ dropped)
  else None.

(** ** The writes *)

Section core.
Context `{Externals} {S E : Type} `{Storage S E}.
Implicit Types (self : Core S).

(** The id the ledger's trusted key set refers to this node's key by. *)
Definition Core_key_id {E'} self : Comp E' KeyId :=
  c_expect (PublicKey_id (NodeKeys_public_key (core_keys self))).

(** How to reach each node the cluster lists. *)
Definition core_peer_addresses self : Comp (Error E) (BTreeMap KeyId EndpointAddr) :=
  c_map_err Error_Apply (peer_addresses (chain_ledger (core_chain self)) (core_storage self)).

(** The path to the [iroh] field of this node's own entry, with [below] beneath
    it. *)
Definition listing_path {E'} self (below : list Subkey) : Comp E' SubkeyPath :=
  let? id := Core_key_id self in
  c_expect (SubkeyPath_try_new ([Subkey_Key (KeyId_to_hex id); Subkey_Key IROH] ++ below)).

(** The message an update becomes, chained onto [prev]. *)
Definition advertise_msg {E'} self (prev : EnvelopeDigest) (update : Update) : Comp E' Msg :=
  let set (below : list Subkey) (value : option Value) :=
    let? key := reserved_key CLUSTER_NODES_KEY in
    let? path := listing_path self below in
    c_ok (Msg_SetNamespaceKey (MkSetNamespaceKey prev key path value)) in
  let addrs := Subkey_Key ADDRS in
  match update with
  | Update_Transports entries => set [addrs] (Some (Value_Array entries))
  | Update_Replace index entry => set [addrs; Subkey_Index index] (Some entry)
  | Update_Drop index => set [addrs; Subkey_Index index] None
  | Update_Append entry =>
      let? key := reserved_key CLUSTER_NODES_KEY in
      let? path := listing_path self [addrs] in
      c_ok (Msg_AmendNamespaceKey (MkAmendNamespaceKey prev key (Some path) (AmendOp_AppendEntry entry)))
  end.

(** Signs updates into a parent-first run from [prev] on. *)
Fixpoint sign_updates_from self (prev : EnvelopeDigest) (updates : list Update)
    : Comp (AdvertiseError E) (list Envelope) :=
  match updates with
  | [] => c_ok []
  | update :: updates =>
      let? msg := advertise_msg self prev update in
      let? envelope := c_map_err AdvertiseError_Chain (NodeKeys_sign (core_keys self) (Envelope_new msg)) in
      let? next := match Envelope_digest envelope with
                   | Ok digest => c_ok digest
                   | Err e => c_err (AdvertiseError_Chain (Error_Wire e))
                   end in
      let? batch := sign_updates_from self next updates in
      c_ok (envelope :: batch)
  end.

Definition sign_updates self (updates : list Update) : Comp (AdvertiseError E) (list Envelope) :=
  sign_updates_from self (head self) updates.

(** The edits that take the transports listed for this node to [wanted]; [None]
    where the listing holds no array to edit. *)
Definition transport_edits self (wanted : list Value) : Comp (AdvertiseError E) (option (list Update)) :=
  let? key := reserved_key CLUSTER_NODES_KEY in
  let? path := listing_path self [Subkey_Key ADDRS] in
  let? listed := c_map_err (λ e, AdvertiseError_Chain (Error_Storage e))
    (value_at (core_storage self) (head self) key (SubkeyPath_as_ref path)) in
  match listed with
  | Some (Value_Array listed) => c_ok (edits listed wanted)
  | _ => c_ok None
  end.

(** What a run of envelopes costs. *)
Fixpoint batch_bytes (batch : list Envelope) : Comp (AdvertiseError E) nat :=
  match batch with
  | [] => c_ok 0
  | envelope :: batch =>
      match encode (ser_envelope envelope) with
      | Err e => c_err (AdvertiseError_Chain (Error_Wire e))
      | Ok bytes => let? total := batch_bytes batch in c_ok (length bytes + total)
      end
  end.

(** Whichever is smaller of writing the array whole and editing the entries that
    moved. *)
Definition advertise_batch self (addr : EndpointAddr) : Comp (AdvertiseError E) (list Envelope) :=
  let? wanted := match collect (map Value_try_from_transport (endpoint_addr_addrs addr)) with
                 | Ok wanted => c_ok wanted
                 | Err e => c_err (AdvertiseError_Addr e)
                 end in
  let? whole := sign_updates self [Update_Transports wanted] in
  let? edits := transport_edits self wanted in
  match edits with
  | Some ((_ :: _) as edits) =>
      let? edited := sign_updates self edits in
      let? edited_bytes := batch_bytes edited in
      let? whole_bytes := batch_bytes whole in
      c_ok (if decide (edited_bytes < whole_bytes) then edited else whole)
  | _ => c_ok whole
  end.

(** The digest of a run's last envelope, that of a run being non-empty. *)
Definition last_digest (batch : list Envelope) : Comp (AdvertiseError E) EnvelopeDigest :=
  match last batch with
  | None => Panic
  | Some envelope =>
      match Envelope_digest envelope with
      | Ok digest => c_ok digest
      | Err e => c_err (AdvertiseError_Chain (Error_Wire e))
      end
  end.

Context `{!IrohEq}.

(** What [advertise] finds to write: nothing, and why, or a run. *)
Definition advertise_plan self (addr : EndpointAddr) : Comp (AdvertiseError E) (Advertised + list Envelope) :=
  let? listed := c_map_err AdvertiseError_Chain (core_peer_addresses self) in
  let? id := Core_key_id self in
  match bt_get listed id with
  | None => c_ok (inl Advertised_NotListed)
  | Some current =>
      if endpoint_addr_eqb current addr then c_ok (inl Advertised_Unchanged)
      else if negb (endpoint_id_eqb (endpoint_addr_id current) (endpoint_addr_id addr))
      then c_ok (inl (Advertised_OtherEndpoint (endpoint_addr_id current)))
      else
        let? alone := c_map_err AdvertiseError_Chain (signs_alone self) in
        match alone with
        | Err reason => c_ok (inl (Advertised_CannotSign reason))
        | Ok _ => let? batch := advertise_batch self addr in c_ok (inr batch)
        end
  end.

(** Brings this node's own listing in line with [addr]. *)
Definition advertise (fuel : nat) (addr : EndpointAddr) : M (Core S) (AdvertiseError E) Advertised :=
  let! plan := m_ask (λ self, advertise_plan self addr) in
  match plan with
  | inl outcome => m_ret outcome
  | inr batch =>
      let! digest := m_ask (λ _, last_digest batch) in
      let! _ := m_map_err AdvertiseError_Chain (core_insert fuel batch) in
      m_ret (Advertised_Written digest)
  end.

(** The message that sets [id]'s entry of a reserved namespace. *)
Definition admit_entry (name : rstring) (id : KeyId) (value : Value) : option (EnvelopeDigest → Msg) :=
  key ← NamespaceKey_try_new name;
  path ← SubkeyPath_try_new [Subkey_Key (KeyId_to_hex id)];
  Some (λ prev, Msg_SetNamespaceKey (MkSetNamespaceKey prev key path (Some value))).

(** One signed write of an entry. *)
Definition write_entry (fuel : nat) (name : rstring) (id : KeyId) (value : Value)
    : M (Core S) (AdmitError E) (EnvelopeDigest * Insert) :=
  let! build := m_ask (λ _, c_expect (admit_entry name id value)) in
  m_map_err AdmitError_Chain (sign_write fuel build).

(** [Core::admit]: trusts the key, then lists the address. *)
Definition core_admits (fuel : nat) (key : Key) (addr : EndpointAddr)
    : M (Core S) (AdmitError E) EnvelopeDigest :=
  let! id := m_ask (λ _, c_expect (Key_id key)) in
  let! listing := m_ask (λ _, match Value_try_from_endpoint addr with
                              | Ok value => c_ok (Value_Map (bt_from_iter [(IROH, value)]))
                              | Err e => c_err (AdmitError_Addr e)
                              end) in
  let! _ := write_entry fuel TRUSTED_KEYS_KEY id (Value_Key key) in
  let! written := write_entry fuel CLUSTER_NODES_KEY id listing in
  m_ret written.1.
End core.
