(* ===== verification/StateDirectory.v ===== *)
(** * The state directory: [crates/lotusd/src/core.rs], creating, joining, opening

    What a node keeps on disk beside its database: two key files and the digest its
    chain reopens from. Every call of the file system takes the next outcome of a
    script; a file is its bytes, or missing. The keys' own mathematics is the
    crates': [KeyCrates]. *)

From S2P Require Import Prelude BTree Text Codec Externals Keys Msg Envelope Value.
From S2P Require Import Storage Addr StateError Ledger Chain Change Subscribe Core Compaction Advertise.

(** The weight given to the key a new cluster is founded on. *)
Definition ROOT_KEY_WEIGHT : N := 2.

(** [ed25519-zebra]'s signing key from its bytes, and [iroh]'s secret's public half. *)
Class KeyCrates `{Externals} := {
  signing_key_from : array 32 → NodeKeys;
  iroh_public_of : array 32 → EndpointId;
}.

(** [io::Error], as far as its kind matters. *)
Class IoErrors (IoError : Type) := {
  unexpected_eof : IoError;
  is_unexpected_eof : IoError → bool;
  not_found : IoError;
}.

Inductive IfInitialized : Type :=
  | IfInitialized_Fail
  | IfInitialized_Overwrite.

(** What becomes of a call: a write that fails leaves so many bytes written. *)
Inductive Call (IoError : Type) : Type :=
  | Call_Done
  | Call_Fails (e : IoError) (kept : nat).
Arguments Call_Done {_}.
Arguments Call_Fails {_} e kept.

(** The directory, its path one of the errors'. *)
Record Dir (S E IoError SysError : Type) := MkDir {
  dir_signing : option (list u8);
  dir_iroh : option (list u8);
  dir_oldest : option (list u8);
  dir_db : S;
  dir_calls : list (Call IoError);
  dir_opens : list (Result E ());
  dir_entropy : nat → Result SysError (array 32);
}.
Arguments MkDir {_ _ _ _} dir_signing dir_iroh dir_oldest dir_db dir_calls dir_opens dir_entropy.
Arguments dir_signing {_ _ _ _} _.
Arguments dir_iroh {_ _ _ _} _.
Arguments dir_oldest {_ _ _ _} _.
Arguments dir_db {_ _ _ _} _.
Arguments dir_calls {_ _ _ _} _.
Arguments dir_opens {_ _ _ _} _.
Arguments dir_entropy {_ _ _ _} _.

Section dir.
Context `{KeyCrates} {S E IoError SysError : Type} `{IoErrors IoError} `{Storage S E}.
Abbreviation D := (Dir S E IoError SysError) (only parsing).

(** Why a state directory could not be laid down or opened; a path is the file's
    name. *)
Inductive InitError : Type :=
  | InitError_IO (e : IoError) (what : rstring)
  | InitError_AlreadyInitialized
  | InitError_Entropy (e : SysError)
  | InitError_Wire (e : WireError)
  | InitError_SigningKeyLength (len : nat)
  | InitError_IrohSecretLength (len : nat)
  | InitError_OldestDigestLength (len : nat)
  | InitError_Storage (e : E)
  | InitError_Chain (e : Error E).

Abbreviation DM := (M D InitError) (only parsing).

(** ** The file system *)

(** Two secrets live in a file each. *)
Inductive Secret : Type :=
  | Secret_Signing
  | Secret_Iroh.

Definition secret_file (which : Secret) (d : D) : option (list u8) :=
  match which with Secret_Signing => dir_signing d | Secret_Iroh => dir_iroh d end.

Definition with_secret (which : Secret) (bytes : list u8) (d : D) : D :=
  match which with
  | Secret_Signing => MkDir (Some bytes) (dir_iroh d) (dir_oldest d) (dir_db d) (dir_calls d) (dir_opens d) (dir_entropy d)
  | Secret_Iroh => MkDir (dir_signing d) (Some bytes) (dir_oldest d) (dir_db d) (dir_calls d) (dir_opens d) (dir_entropy d)
  end.

Definition with_db (db : S) (d : D) : D :=
  MkDir (dir_signing d) (dir_iroh d) (dir_oldest d) db (dir_calls d) (dir_opens d) (dir_entropy d).

Definition with_calls (calls : list (Call IoError)) (d : D) : D :=
  MkDir (dir_signing d) (dir_iroh d) (dir_oldest d) (dir_db d) calls (dir_opens d) (dir_entropy d).

(** One call; past the script it succeeds. *)
Definition call : M D (IoError * nat) () := λ d,
  match dir_calls d with
  | [] => Ret (Ok (), d)
  | Call_Done :: calls => Ret (Ok (), with_calls calls d)
  | Call_Fails e kept :: calls => Ret (Err (e, kept), with_calls calls d)
  end.

Definition io_call (what : rstring) : DM () := m_map_err (λ e, InitError_IO e.1 what) call.

Definition change (f : D → D) : DM () := λ d, Ret (Ok (), f d).

(** [fs::read]. *)
Definition read_file (file : D → option (list u8)) (what : rstring) : DM (list u8) :=
  do! io_call what in
  m_ask (λ d, c_ok_or (InitError_IO not_found what) (file d)).

(** Creates or truncates the file, writes the secret and syncs it. *)
Definition write_secret (which : Secret) (secret : array 32) (creating saving : rstring) : DM () :=
  do! io_call creating in
  do! change (with_secret which []) in
  do! (λ d, match call d with
            | Ret (Ok _, d) => Ret (Ok (), with_secret which (as_slice secret) d)
            | Ret (Err (e, kept), d) => Ret (Err (InitError_IO e saving), with_secret which (take kept (as_slice secret)) d)
            | Panic => Panic
            | Diverge => Diverge
            end) in
  io_call saving.

(** The 32 bytes at a path. *)
Definition load_secret (which : Secret) (reading : rstring) (wrong_length : nat → InitError) : DM (array 32) :=
  let! bytes := read_file (secret_file which) reading in
  m_ask (λ _, c_ok_or (wrong_length (length bytes)) (array_try_from 32 bytes)).

(** The next draw. *)
Definition draw_secret : DM (array 32) := λ d,
  Ret (match dir_entropy d 0 with Ok secret => Ok secret | Err e => Err (InitError_Entropy e) end,
       MkDir (dir_signing d) (dir_iroh d) (dir_oldest d) (dir_db d) (dir_calls d) (dir_opens d) (λ n, dir_entropy d (n + 1))).

Definition create_state_dir : DM () :=
  do! io_call (str "creating state-dir") in
  io_call (str "setting state-dir permissions").

(** [SqliteStorage::open]. *)
Definition open_db : DM () := λ d,
  match dir_opens d with
  | [] | Ok _ :: _ =>
      Ret (Ok (), MkDir (dir_signing d) (dir_iroh d) (dir_oldest d) (dir_db d) (dir_calls d) (tail (dir_opens d)) (dir_entropy d))
  | Err e :: rest =>
      Ret (Err (InitError_Storage e),
           MkDir (dir_signing d) (dir_iroh d) (dir_oldest d) (dir_db d) (dir_calls d) rest (dir_entropy d))
  end.

(** A call on the opened database. *)
Definition on_db {A} (m : M S (Error E) A) : DM A := λ d,
  match m (dir_db d) with
  | Ret (Ok a, db) => Ret (Ok a, with_db db d)
  | Ret (Err e, db) => Ret (Err (InitError_Chain e), with_db db d)
  | Panic => Panic
  | Diverge => Diverge
  end.

(** [write_oldest]: staged, then renamed over the reading; one outcome for its
    calls. *)
Definition lay_oldest (oldest : EnvelopeDigest) : DM () := λ d,
  match call d with
  | Ret (Ok _, d) =>
      Ret (Ok (), MkDir (dir_signing d) (dir_iroh d) (Some (as_slice (digest_bytes oldest))) (dir_db d) (dir_calls d)
                    (dir_opens d) (dir_entropy d))
  | Ret (Err e, d) => Ret (Err (InitError_IO e.1 (str "writing oldest-envelope")), d)
  | Panic => Panic
  | Diverge => Diverge
  end.

(** ** Keys *)

(** A node's two keys: [NodeKeys], its iroh secret as the endpoint it makes. *)
Definition load_keys : DM (NodeKeys * EndpointId) :=
  let! signing := load_secret Secret_Signing (str "reading signing-key") InitError_SigningKeyLength in
  let! iroh := load_secret Secret_Iroh (str "reading iroh-secret") InitError_IrohSecretLength in
  m_ret (signing_key_from signing, iroh_public_of iroh).

Definition generate_keys : DM (NodeKeys * EndpointId) :=
  let! secret := draw_secret in
  do! write_secret Secret_Signing secret (str "creating signing-key") (str "saving signing-key") in
  let! secret := draw_secret in
  do! write_secret Secret_Iroh secret (str "creating iroh-secret") (str "saving iroh-secret") in
  load_keys.

(** ** Creating, joining, opening *)

Definition refuse_initialized (if_initialized : IfInitialized) : DM () :=
  match if_initialized with
  | IfInitialized_Overwrite => m_ret ()
  | IfInitialized_Fail =>
      do! io_call (str "reading oldest-envelope") in
      λ d, Ret (match dir_oldest d with Some _ => Err InitError_AlreadyInitialized | None => Ok () end, d)
  end.

(** The first envelope: the founder's key trusted, its endpoint listed, and one
    signature asked of every envelope. *)
Definition genesis_of (trusted : Key) (id : KeyId) (endpoint : Value) : option Msg :=
  keys ← NamespaceKey_try_new TRUSTED_KEYS_KEY;
  nodes ← NamespaceKey_try_new CLUSTER_NODES_KEY;
  signatures ← NamespaceKey_try_new MIN_ENVELOPE_SIGNATURES_KEY;
  let id := KeyId_to_hex id in
  Some (Msg_Init (MkInitMsg (MkFullCheckpoint (bt_from_iter [
    (keys, MkNamespace (Value_Map (bt_from_iter [(id, Value_Key trusted)])));
    (nodes, MkNamespace (Value_Map (bt_from_iter [(id, Value_Map (bt_from_iter [(IROH, endpoint)]))])));
    (signatures, MkNamespace (Value_Int 1))])))).

(** The wire error signing fails with. *)
Definition wire_error_of (e : Error E) : InitError :=
  match e with Error_Wire e => InitError_Wire e | e => InitError_Chain e end.

Definition create_in_state_dir (if_initialized : IfInitialized) : DM (Core S) :=
  do! create_state_dir in
  do! refuse_initialized if_initialized in
  let! ke := generate_keys in
  let trusted := Key_new (NodeKeys_public_key ke.1) ROOT_KEY_WEIGHT in
  let! id := m_ask (λ _, c_expect (Key_id trusted)) in
  let! endpoint := m_ask (λ _, c_expect (match Value_try_from_endpoint (endpoint_addr_from_parts ke.2 []) with
                                          | Ok value => Some value
                                          | Err _ => None
                                          end)) in
  let! genesis := m_ask (λ _, c_expect (genesis_of trusted id endpoint)) in
  let! envelope := m_ask (λ _, c_map_err wire_error_of (NodeKeys_sign ke.1 (Envelope_new genesis))) in
  do! open_db in
  let! chain := on_db (chain_init envelope) in
  do! lay_oldest (chain_root chain) in
  λ d, Ret (Ok (MkCore (dir_db d) chain (chain_root chain) ke.1 Subscriptions_default), d).

(** Lays down a node's keys without a chain. *)
Definition prepare_join (if_initialized : IfInitialized) : DM (NodeKeys * EndpointId) :=
  do! create_state_dir in
  do! refuse_initialized if_initialized in
  generate_keys.

Definition join_in_state_dir (root : Envelope) (state : option FullCheckpoint) : DM (Core S) :=
  let! ke := load_keys in
  do! open_db in
  let! chain := on_db match state with
                      | None => chain_init root
                      | Some state => chain_adopt root state
                      end in
  do! lay_oldest (chain_root chain) in
  λ d, Ret (Ok (MkCore (dir_db d) chain (chain_root chain) ke.1 Subscriptions_default), d).

(** Opens what a directory holds. *)
Definition init_with_state_dir (fuel : nat) : DM (Core S) :=
  do! open_db in
  let! bytes := read_file dir_oldest (str "reading oldest-envelope") in
  let! oldest := m_ask (λ _, c_ok_or (InitError_OldestDigestLength (length bytes))
                               (MkEnvelopeDigest <$> array_try_from 32 bytes)) in
  let! chain := on_db (chain_open fuel oldest) in
  let! ke := load_keys in
  λ d, Ret (Ok (MkCore (dir_db d) chain oldest ke.1 Subscriptions_default), d).
End dir.
