(* ===== verification/Listing.v ===== *)
(** * The edits of a listing

    The edits [transport_edits] computes, run on the array they edit: they end at
    the wanted entries, and no listing on the way has lost one it had. *)

From S2P Require Import Prelude BTree Text Codec Externals Keys Subkey Msg Envelope Value.
From S2P Require Import Storage Addr StateError Ledger Chain Change Subscribe Core Advertise.

(** ** Entries by index *)

(** The entries at the indices a test holds of. *)
Definition pick {A} (P : nat → bool) (l : list A) : list A :=
  omap (λ ix : nat * A, if P ix.1 then Some ix.2 else None) (imap pair l).

Lemma pick_nil {A} P : pick (A := A) P [] = [].
Proof. done. Qed.

Lemma pick_cons {A} P (x : A) l : pick P (x :: l) = (if P 0 then [x] else []) ++ pick (λ i, P (S i)) l.
Proof.
  unfold pick. rewrite imap_cons. cbn [omap list_omap fst snd].
  assert (∀ k : nat → nat, omap (λ ix : nat * A, if P ix.1 then Some ix.2 else None) (imap (λ i y, (S (k i), y)) l) =
    omap (λ ix, if P (S ix.1) then Some ix.2 else None) (imap (λ i y, (k i, y)) l)) as Hk.
  { induction l as [|y l IH]; intros k; [done|]. rewrite !imap_cons. cbn [omap list_omap fst snd].
    destruct (P (S (k 0))); [f_equal|]; apply (IH (λ i, k (S i))). }
  destruct (P 0); simpl; [f_equal|]; apply (Hk (λ i, i)).
Qed.

Lemma pick_app {A} P (l k : list A) : pick P (l ++ k) = pick P l ++ pick (λ i, P (length l + i)) k.
Proof.
  revert P. induction l as [|x l IH]; intros P; [done|]. cbn [app length]. rewrite !pick_cons, IH, <-app_assoc. done.
Qed.

Lemma pick_ext {A} P Q (l : list A) : (∀ i, i < length l → P i = Q i) → pick P l = pick Q l.
Proof.
  revert P Q. induction l as [|x l IH]; intros P Q HPQ; [done|]. rewrite !pick_cons.
  rewrite (HPQ 0) by (simpl; lia). f_equal. apply IH. intros i Hi. apply HPQ. simpl. lia.
Qed.

Lemma pick_all {A} P (l : list A) : (∀ i, i < length l → P i = true) → pick P l = l.
Proof.
  intros HP. rewrite (pick_ext P (λ _, true)) by done. clear HP.
  induction l as [|x l IH]; [done|]. by rewrite pick_cons, IH.
Qed.

Lemma elem_of_pick {A} P (l : list A) x : x ∈ pick P l ↔ ∃ i, l !! i = Some x ∧ P i = true.
Proof.
  revert P. induction l as [|y l IH]; intros P; [split; [by intros ?%not_elem_of_nil|by intros (i & ? & _)]|].
  rewrite pick_cons, elem_of_app, IH. split.
  - intros [Hx|(i & Hi & HP)]; [|by exists (S i)]. destruct (P 0) eqn:HP; [|by apply not_elem_of_nil in Hx].
    apply list_elem_of_singleton in Hx as ->. by exists 0.
  - intros ([|i] & Hi & HP); simpl in Hi; [|right; by exists i]. injection Hi as ->. left. rewrite HP.
    by apply list_elem_of_singleton.
Qed.

(** The indices not yet spent. *)
Definition unspent (spare : list nat) (i : nat) : bool := bool_decide (i ∉ spare).

Lemma pick_write {A} spare i (x y : A) l :
  i ∉ spare → l !! i = Some y → pick (unspent spare) (<[i:=x]> l) ≡ₚ x :: pick (unspent (i :: spare)) l.
Proof.
  intros Hni Hi. apply list_elem_of_split_length in Hi as (l1 & l2 & -> & ->).
  rewrite insert_app_r_alt, Nat.sub_diag by done. change (<[0:=x]> (y :: l2)) with (x :: l2).
  rewrite !pick_app, !pick_cons, !Nat.add_0_r.
  assert (unspent spare (length l1) = true) as -> by (by apply bool_decide_eq_true_2).
  assert (unspent (length l1 :: spare) (length l1) = false) as -> by (apply bool_decide_eq_false_2; set_solver).
  cbn [app]. rewrite <-Permutation_middle. apply perm_skip.
  apply Permutation_refl', f_equal2; apply pick_ext; intros j Hj; apply bool_decide_ext; rewrite not_elem_of_cons; intuition lia.
Qed.

Lemma pick_drop {A} spare i (l : list A) :
  Forall (λ j, j < i) spare → i < length l →
  pick (unspent spare) (delete i l) = pick (unspent (spare ++ [i])) l.
Proof.
  intros Hlt [y Hi]%lookup_lt_is_Some. rewrite Forall_forall in Hlt.
  apply list_elem_of_split_length in Hi as (l1 & l2 & -> & ->).
  rewrite delete_middle, !pick_app, pick_cons, Nat.add_0_r.
  assert (unspent (spare ++ [length l1]) (length l1) = false) as -> by (apply bool_decide_eq_false_2; set_solver).
  cbn [app]. apply f_equal2; apply pick_ext; intros j Hj; apply bool_decide_ext.
  - rewrite elem_of_app, list_elem_of_singleton. naive_solver lia.
  - rewrite elem_of_app, list_elem_of_singleton. split.
    + intros _ [Hin|?]; [apply Hlt in Hin|]; lia.
    + intros _ Hin. apply Hlt in Hin. lia.
Qed.

(** ** The edits of a listing *)

Lemma spare_from_spec wanted index kept listed :
  let spare := spare_from wanted index kept listed in
  let K := pick (λ i, unspent spare (index + i)) listed in
  NoDup K ∧ (∀ v, v ∈ K ↔ v ∈ listed ∧ v ∈ wanted ∧ v ∉ kept) ∧ StronglySorted lt spare ∧
  Forall (λ i, index ≤ i < index + length listed) spare.
Proof.
  revert index kept. induction listed as [|entry rest IH]; intros index kept; cbn [spare_from length].
  { split_and!; [apply NoDup_nil_2|set_solver|constructor..]. }
  cbv zeta.
  destruct (bool_decide (entry ∈ wanted) && bool_decide (entry ∉ kept)) eqn:Hkeep.
  - specialize (IH (index + 1) (entry :: kept)). cbv zeta in IH.
    set (spare := spare_from wanted (index + 1) (entry :: kept) rest) in *.
    destruct IH as (Hnd & Hel & Hs & Hb). apply andb_true_iff in Hkeep as [Hw%bool_decide_eq_true Hk%bool_decide_eq_true].
    assert (unspent spare (index + 0) = true) as Hfree.
    { apply bool_decide_eq_true_2. rewrite Forall_forall in Hb. intros Hin. apply Hb in Hin. lia. }
    rewrite pick_cons, Hfree.
    rewrite (pick_ext _ (λ i, unspent spare (index + 1 + i))) by (intros i _; f_equal; lia). cbn [app].
    split_and!; [|intros v|done|eapply Forall_impl; [done|simpl; lia]].
    + apply NoDup_cons. split; [|done]. rewrite Hel. set_solver.
    + rewrite elem_of_cons, Hel. destruct (decide (v = entry)); set_solver.
  - specialize (IH (index + 1) kept). cbv zeta in IH.
    set (spare := spare_from wanted (index + 1) kept rest) in *.
    destruct IH as (Hnd & Hel & Hs & Hb).
    assert (unspent (index :: spare) (index + 0) = false) as Htaken
      by (apply bool_decide_eq_false_2; rewrite Nat.add_0_r; set_solver).
    rewrite pick_cons, Htaken.
    rewrite (pick_ext _ (λ i, unspent spare (index + 1 + i))).
    2: { intros i _. apply bool_decide_ext. rewrite not_elem_of_cons.
         replace (index + S i) with (index + 1 + i) by lia. intuition lia. }
    cbn [app]. split_and!; [done|intros v| |].
    + rewrite Hel. apply andb_false_iff in Hkeep as [Hk%bool_decide_eq_false|Hk%bool_decide_eq_false];
        destruct (decide (v = entry)); set_solver.
    + constructor; [done|]. eapply Forall_impl; [done|simpl; lia].
    + constructor; [lia|]. eapply Forall_impl; [done|simpl; lia].
Qed.

(** What an update makes of the array it edits. *)
Definition apply_update (listed : list Value) (update : Update) : option (list Value) :=
  match update with
  | Update_Transports entries => Some entries
  | Update_Replace index entry =>
      if decide (N.to_nat index < length listed) then Some (<[N.to_nat index := entry]> listed) else None
  | Update_Drop index => vec_remove (N.to_nat index) listed
  | Update_Append entry => Some (listed ++ [entry])
  end.

(** A listing that has lost nothing wanted of the one before, and names something
    wanted where anything is. *)
Definition gains (wanted l l' : list Value) : Prop :=
  (∀ v, v ∈ wanted → v ∈ l → v ∈ l') ∧ (wanted ≠ [] → ∃ v, v ∈ wanted ∧ v ∈ l').

(** The listings a run of updates passes through, each gaining on the last. *)
Inductive edited (wanted : list Value) : list Value → list Update → list (list Value) → list Value → Prop :=
  | edited_nil l : edited wanted l [] [] l
  | edited_cons l update l' updates ls final :
      apply_update l update = Some l' → gains wanted l l' →
      edited wanted l' updates ls final → edited wanted l (update :: updates) (l' :: ls) final.

Lemma edited_app wanted l us1 ls1 l1 us2 ls2 l2 :
  edited wanted l us1 ls1 l1 → edited wanted l1 us2 ls2 l2 → edited wanted l (us1 ++ us2) (ls1 ++ ls2) l2.
Proof. intros He. revert us2 ls2 l2. induction He; [done|]. intros us2 ls2 l2 H2. by econstructor; [| |apply IHHe]. Qed.

Section editing.
Variables (listed wanted : list Value).

(** A listing whose entries at [spare] are still to be spent. *)
Record editing (spare : list nat) (l G : list Value) : Prop := {
  ed_below : Forall (λ i, i < length l) spare;
  ed_old i x : i ∈ spare → l !! i = Some x → x ∈ listed;
  ed_good : pick (unspent spare) l ≡ₚ G;
  ed_gained v : v ∈ wanted → v ∈ listed → v ∈ G;
  ed_wanted v : v ∈ G → v ∈ wanted;
}.

Lemma editing_perm spare l G G' : G ≡ₚ G' → editing spare l G → editing spare l G'.
Proof.
  intros HG [Hb Ho Hg Hgain Hw]. split; [done|done|by rewrite Hg|..]; setoid_rewrite <-HG; done.
Qed.

Lemma editing_holds spare l G v : editing spare l G → v ∈ G → v ∈ l.
Proof. intros He Hv. rewrite <-(ed_good _ _ _ He) in Hv. apply elem_of_pick in Hv as (i & Hi & _). by eapply list_elem_of_lookup_2. Qed.

Lemma editing_wanted spare l G v : editing spare l G → v ∈ wanted → v ∈ l → v ∈ G.
Proof.
  intros He Hw [i Hi]%list_elem_of_lookup_1. destruct (decide (i ∈ spare)) as [Hs|Hn].
  - eapply ed_gained; [done|done|]. by eapply ed_old.
  - rewrite <-(ed_good _ _ _ He). apply elem_of_pick. exists i. split; [done|by apply bool_decide_eq_true_2].
Qed.

(** Nothing wanted is lost where what is good only grows. *)
Lemma editing_gains spare spare' l l' G G' :
  editing spare l G → editing spare' l' G' → G ⊆ G' → (wanted ≠ [] → G' ≠ []) → gains wanted l l'.
Proof.
  intros He He' Hsub Hne. split.
  - intros v Hw Hv. eapply editing_holds; [done|]. apply Hsub. by eapply editing_wanted.
  - intros Hw. destruct G' as [|v G']; [by destruct Hne|]. exists v.
    assert (v ∈ v :: G') as Hv by apply list_elem_of_here.
    split; [by eapply ed_wanted|by eapply editing_holds].
Qed.

Lemma editing_append spare l G v : v ∈ wanted → editing spare l G → editing spare (l ++ [v]) (v :: G).
Proof.
  intros Hv [Hb Ho Hg Hgain Hgw]. rewrite Forall_forall in Hb. split.
  - apply Forall_forall. intros i Hi. rewrite length_app. apply Hb in Hi. lia.
  - intros i x Hi Hx. apply (Ho i); [done|]. rewrite lookup_app_l in Hx by (by apply Hb). done.
  - rewrite pick_app, pick_cons, Nat.add_0_r. assert (unspent spare (length l) = true) as ->.
    { apply bool_decide_eq_true_2. intros Hi%Hb. lia. }
    rewrite pick_nil, Hg. cbn [app]. symmetry. apply Permutation_cons_append.
  - intros w Hw Hl. apply elem_of_cons. right. by apply Hgain.
  - intros w [->|Hw]%elem_of_cons; [done|by apply Hgw].
Qed.

Lemma editing_replace i spare l G v :
  v ∈ wanted → i ∉ spare → editing (i :: spare) l G →
  apply_update l (Update_Replace (N.of_nat i) v) = Some (<[i:=v]> l) ∧ editing spare (<[i:=v]> l) (v :: G).
Proof.
  intros Hv Hni [Hb Ho Hg Hgain Hgw]. apply Forall_cons in Hb as [Hi Hb]. unfold apply_update. rewrite Nat2N.id.
  rewrite decide_True by done. split; [done|]. split.
  - by rewrite length_insert.
  - intros j x Hj Hx. apply (Ho j); [set_solver|]. rewrite list_lookup_insert_ne in Hx by set_solver. done.
  - destruct (lookup_lt_is_Some_2 l i Hi) as [y Hy]. rewrite (pick_write _ _ _ y) by done. by apply perm_skip.
  - intros w Hw Hl. apply elem_of_cons. right. by apply Hgain.
  - intros w [->|Hw]%elem_of_cons; [done|by apply Hgw].
Qed.

Lemma editing_drop i spare l G :
  Forall (λ j, j < i) spare → editing (spare ++ [i]) l G →
  apply_update l (Update_Drop (N.of_nat i)) = Some (delete i l) ∧ editing spare (delete i l) G.
Proof.
  intros Hlt [Hb Ho Hg Hgain Hgw]. apply Forall_app in Hb as [_ Hi]. apply Forall_cons in Hi as [Hi _]. unfold apply_update, vec_remove.
  rewrite Nat2N.id, decide_True by done. split; [done|]. rewrite Forall_forall in Hlt.
  assert (S (length (delete i l)) = length l) as Hlen.
  { rewrite length_delete by (by apply lookup_lt_is_Some_2). lia. }
  split.
  - apply Forall_forall. intros j Hj. apply Hlt in Hj. lia.
  - intros j x Hj Hx. apply (Ho j); [set_solver|]. rewrite list_lookup_delete_lt in Hx by (by apply Hlt). done.
  - rewrite pick_drop by (done || by apply Forall_forall). done.
  - done.
  - done.
Qed.

(** The three stretches of a run. *)

Lemma run_append spare l G vs :
  Forall (.∈ wanted) vs → editing spare l G →
  ∃ ls l', edited wanted l (map Update_Append vs) ls l' ∧ editing spare l' (vs ++ G).
Proof.
  intros Hvs. revert l G. induction Hvs as [|v vs Hv _ IH]; intros l G He; [by exists [], l; split; [constructor|]|].
  pose proof (editing_append _ _ _ v Hv He) as He'. destruct (IH _ _ He') as (ls & l' & Hed & He'').
  exists ((l ++ [v]) :: ls), l'. split.
  - econstructor; [done| |done]. apply (editing_gains _ _ _ _ _ _ He He'); [set_solver|done].
  - eapply editing_perm; [|done]. symmetry. apply Permutation_middle.
Qed.

Lemma run_replace is_ rest l G vs :
  Forall (.∈ wanted) vs → length is_ = length vs → NoDup (is_ ++ rest) → editing (is_ ++ rest) l G →
  ∃ ls l', edited wanted l (zip_with (λ i v, Update_Replace (N.of_nat i) v) is_ vs) ls l' ∧
    editing rest l' (vs ++ G).
Proof.
  intros Hvs. revert is_ l G. induction Hvs as [|v vs Hv _ IH]; intros [|i is_] l G Hlen Hnd He; try done.
  { by exists [], l; split; [constructor|]. }
  cbn [app] in Hnd, He. apply NoDup_cons in Hnd as [Hni Hnd].
  destruct (editing_replace _ _ _ _ _ Hv Hni He) as [Happ He'].
  destruct (IH is_ _ _ ltac:(simpl in Hlen; lia) Hnd He') as (ls & l' & Hed & He'').
  exists (<[i:=v]> l :: ls), l'. split.
  - cbn [zip_with]. econstructor; [done| |done]. apply (editing_gains _ _ _ _ _ _ He He'); [set_solver|done].
  - eapply editing_perm; [|done]. symmetry. apply Permutation_middle.
Qed.

Lemma run_drop spare l G :
  (wanted ≠ [] → G ≠ []) → StronglySorted lt spare → editing spare l G →
  ∃ ls l', edited wanted l (map (λ i, Update_Drop (N.of_nat i)) (reverse spare)) ls l' ∧ editing [] l' G.
Proof.
  intros Hne. revert l. induction spare as [|i spare IH] using rev_ind; intros l Hs He.
  { by exists [], l; split; [constructor|]. }
  apply StronglySorted_app in Hs as (Hlt & Hs & _).
  assert (Forall (λ j, j < i) spare) as Hbelow.
  { apply Forall_forall. intros j Hj. apply Hlt; [done|]. by apply list_elem_of_singleton. }
  destruct (editing_drop _ _ _ _ Hbelow He) as [Happ He'].
  destruct (IH _ Hs He') as (ls & l' & Hed & He''). rewrite reverse_snoc. cbn [map].
  exists (delete i l :: ls), l'. split; [|done].
  econstructor; [done| |done]. by apply (editing_gains _ _ _ _ _ _ He He').
Qed.
End editing.

Lemma lt_sorted_NoDup (l : list nat) : StronglySorted lt l → NoDup l.
Proof.
  induction 1 as [|x l _ IH Hx]; constructor; [|done]. rewrite Forall_forall in Hx. intros Hin. apply Hx in Hin. lia.
Qed.

(** The edits of a listing, run. *)
Lemma edits_run listed wanted updates :
  NoDup wanted → edits listed wanted = Some updates →
  ∃ ls final, edited wanted listed updates ls final ∧ final ≡ₚ wanted.
Proof.
  intros Hnd. unfold edits. destruct (spare_from_spec wanted 0 [] listed) as (HK & HelK & Hs & Hb).
  set (spare := spare_from wanted 0 [] listed) in *.
  set (K := pick (λ i, unspent spare (0 + i)) listed) in *.
  set (missing := base.filter (λ entry, entry ∉ listed) wanted).
  set (paired := length spare `min` length missing).
  destruct (forallb _ spare); [|done]. intros [= <-].
  assert (Forall (.∈ wanted) missing) as Hmiss.
  { apply Forall_forall. intros v Hv. by apply list_elem_of_filter in Hv as [_ Hv]. }
  assert (editing listed wanted spare listed K) as He.
  { split.
    - eapply Forall_impl; [done|simpl; lia].
    - intros i x _ Hx. by eapply list_elem_of_lookup_2.
    - done.
    - intros v Hw Hl. apply HelK. set_solver.
    - intros v Hv. apply HelK in Hv. naive_solver. }
  assert (K ++ missing ≡ₚ wanted) as Hperm.
  { apply NoDup_Permutation; [|done|].
    - apply NoDup_app. split_and!; [done| |by apply NoDup_filter].
      intros v Hv Hm. apply HelK in Hv. apply list_elem_of_filter in Hm. naive_solver.
    - intros v. rewrite elem_of_app, HelK. unfold missing. rewrite list_elem_of_filter.
      destruct (decide (v ∈ listed)); set_solver. }
  destruct (run_append listed wanted spare listed K (drop paired missing)) as (ls1 & l1 & Hed1 & He1);
    [by apply Forall_drop|done|].
  rewrite <-(take_drop paired spare) in He1.
  destruct (run_replace listed wanted (take paired spare) (drop paired spare) l1 (drop paired missing ++ K) (take paired missing))
    as (ls2 & l2 & Hed2 & He2); [by apply Forall_take| | |done|].
  { rewrite !length_take. lia. }
  { rewrite take_drop. by apply lt_sorted_NoDup. }
  assert (take paired missing ++ drop paired missing ++ K ≡ₚ wanted) as Hall.
  { rewrite app_assoc, take_drop, <-Hperm. apply Permutation_app_comm. }
  apply (editing_perm _ _ _ _ _ _ Hall) in He2.
  destruct (run_drop listed wanted (drop paired spare) l2 wanted) as (ls3 & l3 & Hed3 & He3); [done| |done|].
  { rewrite <-(take_drop paired spare) in Hs. by apply StronglySorted_app in Hs as (_ & _ & ?). }
  exists (ls1 ++ ls2 ++ ls3), l3. split; [by repeat (eapply edited_app; [done|])|].
  rewrite <-(ed_good _ _ _ _ _ He3). apply Permutation_refl'. symmetry. apply pick_all.
  intros i _. apply bool_decide_eq_true_2. apply not_elem_of_nil.
Qed.
