(* ===== verification/AddrPublish.v ===== *)
(** * The address publisher: [crates/lotusd/src/addr_publish.rs]

    The actor that keeps this node's own listing in step with its address: the
    settle timer, the coalescing of trips to the mainloop, and one turn of its
    [select!], as functions; and the actor beside what wakes it — the endpoint's
    address, the ledger, the clock, the task carrying a trip — as a step
    relation. Time is a count of nanoseconds. *)

From S2P Require Import Prelude BTree Text Codec Externals Keys Subkey Msg Envelope Value.
From S2P Require Import Storage Addr StateError Ledger Chain Change Subscribe Core Advertise.

(** [DEFAULT_SETTLE], sixty seconds. *)
Definition DEFAULT_SETTLE : N := (60 * 1000000000)%N.

(** [mpsc::channel(8)]. *)
Definition CHANNEL : nat := 8.

Section actor.
Context `{Externals} {E : Type}.

(** Where the listing stands, as far as the actor knows; a failure keeps the error
    whose text the source keeps. *)
Inductive PublishState : Type :=
  | PublishState_Unchecked
  | PublishState_Published
  | PublishState_Pending
  | PublishState_NotListed
  | PublishState_OtherEndpoint (id : EndpointId)
  | PublishState_CannotSign (reason : CannotSignAlone)
  | PublishState_Failed (e : AdvertiseError E).

Abbreviation Landing := (Result (AdvertiseError E) Advertised) (only parsing).

Inductive PublishMsg : Type :=
  | PublishMsg_Shutdown
  | PublishMsg_State
  | PublishMsg_Landed (outcome : Landing).

(** ** The settle timer *)

(** Unarmed, or when it fires. *)
Abbreviation Settle := (option N) (only parsing).

(** Left alone by wakes that find it armed. *)
Definition arm (now after : N) (self : Settle) : Settle :=
  match self with None => Some (now + after)%N | Some _ => self end.

Definition fires (now : N) (self : Settle) : bool :=
  match self with Some at_ => (at_ <=? now)%N | None => false end.

(** ** Coalescing trips *)

Record Publish := MkPublish { pub_in_flight : bool; pub_again : bool }.

(** A trip started, or another noted for once the current one lands. *)
Definition publish_request (self : Publish) : bool * Publish :=
  if pub_in_flight self then (false, MkPublish true true) else (true, MkPublish true (pub_again self)).

(** The trip landed; whether another was waiting on it. *)
Definition publish_landed (self : Publish) : bool * Publish := (pub_again self, MkPublish false false).

(** What an outcome leaves the state at. *)
Definition settle_outcome (outcome : Landing) : PublishState :=
  match outcome with
  | Ok Advertised_Unchanged => PublishState_Published
  | Ok (Advertised_Written _) => PublishState_Published
  | Ok Advertised_NotListed => PublishState_NotListed
  | Ok (Advertised_OtherEndpoint id) => PublishState_OtherEndpoint id
  | Ok (Advertised_CannotSign reason) => PublishState_CannotSign reason
  | Err e => PublishState_Failed e
  end.

(** ** The actor *)

(** The changes that wake it: this node's own listing, and the trusted keys. *)
Definition publish_filter {E'} (node : KeyId) : Comp E' ChangeFilter :=
  let? nodes := reserved_key CLUSTER_NODES_KEY in
  let? keys := reserved_key TRUSTED_KEYS_KEY in
  let? own := c_expect (SubkeyPath_try_new [Subkey_Key (KeyId_to_hex node)]) in
  c_ok (ChangeFilter.and_namespace (ChangeFilter.path nodes own) keys).

Record Actor := MkActor {
  ac_state : PublishState;
  ac_publish : Publish;
  ac_timer : Settle;
}.

(** As [run] starts it: the first check runs at once. *)
Definition actor_start (now : N) : Actor :=
  MkActor PublishState_Unchecked (MkPublish false false) (arm now 0 None).

(** The branch of the [select!] that a turn takes. *)
Inductive Wake : Type :=
  | Wake_Cmd (msg : PublishMsg)
  | Wake_Fired
  | Wake_Moved (gone : bool)
  | Wake_Changed (gone : bool).

(** What a turn does beside the actor's own state: returns from [run], sends an
    address to the mainloop, or answers a status query. *)
Inductive Deed : Type :=
  | Deed_Return
  | Deed_Advertise (addr : EndpointAddr)
  | Deed_State (state : PublishState).

(** One turn of the loop, with the clock and the address as they are then. *)
Definition publisher_turn (settle now : N) (addr : EndpointAddr) (branch : Wake) (self : Actor)
    : Actor * option Deed :=
  match branch with
  | Wake_Cmd PublishMsg_Shutdown => (self, Some Deed_Return)
  | Wake_Cmd PublishMsg_State => (self, Some (Deed_State (ac_state self)))
  | Wake_Cmd (PublishMsg_Landed outcome) =>
      let (again, publish) := publish_landed (ac_publish self) in
      (MkActor (settle_outcome outcome) publish
         (if again then arm now settle (ac_timer self) else ac_timer self), None)
  | Wake_Fired =>
      let (started, publish) := publish_request (ac_publish self) in
      (MkActor (if started then PublishState_Pending else ac_state self) publish None,
       if started then Some (Deed_Advertise addr) else None)
  | Wake_Moved false =>
      (MkActor PublishState_Pending (ac_publish self) (arm now settle (ac_timer self)), None)
  | Wake_Moved true => (self, Some Deed_Return)
  | Wake_Changed false => (MkActor (ac_state self) (ac_publish self) (arm now settle (ac_timer self)), None)
  | Wake_Changed true => (self, Some Deed_Return)
  end.

(** ** The actor beside what wakes it *)

(** The last three are for the proofs: the address the last trip started with,
    whether the listing moved since, and what the last trip to land brought. *)
Record World := MkWorld {
  w_actor : option Actor;
  w_inbox : list PublishMsg;
  w_trip : option EndpointAddr;
  w_now : N;
  w_addr : EndpointAddr;
  w_moved : bool;
  w_changed : bool;
  w_endpoint_gone : bool;
  w_core_gone : bool;
  w_taken : option EndpointAddr;
  w_stale : bool;
  w_last : option Landing;
}.

Definition world_start (now : N) (addr : EndpointAddr) : World :=
  MkWorld (Some (actor_start now)) [] None now addr false false false false None true None.

(** The branch ready first: commands, the timer, the address, the listing. *)
Definition ready (w : World) (a : Actor) : option Wake :=
  match w_inbox w with
  | msg :: _ => Some (Wake_Cmd msg)
  | [] =>
      if fires (w_now w) (ac_timer a) then Some Wake_Fired
      else if w_moved w then Some (Wake_Moved false)
      else if w_endpoint_gone w then Some (Wake_Moved true)
      else if w_changed w then Some (Wake_Changed false)
      else if w_core_gone w then Some (Wake_Changed true)
      else None
  end.

(** What a branch takes: its message, its wake. *)
Definition taken_by (w : World) (branch : Wake) : World :=
  match branch with
  | Wake_Cmd _ =>
      MkWorld (w_actor w) (tail (w_inbox w)) (w_trip w) (w_now w) (w_addr w) (w_moved w) (w_changed w)
        (w_endpoint_gone w) (w_core_gone w) (w_taken w) (w_stale w) (w_last w)
  | Wake_Moved _ =>
      MkWorld (w_actor w) (w_inbox w) (w_trip w) (w_now w) (w_addr w) false (w_changed w)
        (w_endpoint_gone w) (w_core_gone w) (w_taken w) (w_stale w) (w_last w)
  | Wake_Changed _ =>
      MkWorld (w_actor w) (w_inbox w) (w_trip w) (w_now w) (w_addr w) (w_moved w) false
        (w_endpoint_gone w) (w_core_gone w) (w_taken w) (w_stale w) (w_last w)
  | Wake_Fired => w
  end.

(** The world a turn leaves. *)
Definition world_turn (settle : N) (w : World) (a : Actor) (branch : Wake) : World :=
  let w := taken_by w branch in
  let (a, deed) := publisher_turn settle (w_now w) (w_addr w) branch a in
  let at_ trip taken stale actor :=
    MkWorld actor (w_inbox w) trip (w_now w) (w_addr w) (w_moved w) (w_changed w)
      (w_endpoint_gone w) (w_core_gone w) taken stale (w_last w) in
  match deed with
  | Some Deed_Return => at_ (w_trip w) (w_taken w) (w_stale w) None
  | Some (Deed_Advertise addr) => at_ (Some addr) (Some addr) false (Some a)
  | _ => at_ (w_trip w) (w_taken w) (w_stale w) (Some a)
  end.

(** A message joins the channel, which has room. *)
Definition with_inbox (w : World) (msg : PublishMsg) : World :=
  MkWorld (w_actor w) (w_inbox w ++ [msg]) (w_trip w) (w_now w) (w_addr w) (w_moved w) (w_changed w)
    (w_endpoint_gone w) (w_core_gone w) (w_taken w) (w_stale w) (w_last w).

(** The trip's task posts its outcome and ends. *)
Definition with_landed (w : World) (outcome : Landing) : World :=
  MkWorld (w_actor w) (w_inbox w ++ [PublishMsg_Landed outcome]) None (w_now w) (w_addr w) (w_moved w)
    (w_changed w) (w_endpoint_gone w) (w_core_gone w) (w_taken w) (w_stale w) (Some outcome).

Definition with_now (w : World) (now : N) : World :=
  MkWorld (w_actor w) (w_inbox w) (w_trip w) now (w_addr w) (w_moved w) (w_changed w)
    (w_endpoint_gone w) (w_core_gone w) (w_taken w) (w_stale w) (w_last w).

(** The endpoint reports an address; reading the watcher may have the actor miss
    no more than the reading shows it. *)
Definition with_addr (w : World) (addr : EndpointAddr) (moved : bool) : World :=
  MkWorld (w_actor w) (w_inbox w) (w_trip w) (w_now w) addr moved (w_changed w)
    (w_endpoint_gone w) (w_core_gone w) (w_taken w) (w_stale w) (w_last w).

Definition with_listing_moved (w : World) : World :=
  MkWorld (w_actor w) (w_inbox w) (w_trip w) (w_now w) (w_addr w) (w_moved w) true
    (w_endpoint_gone w) (w_core_gone w) (w_taken w) true (w_last w).

Definition with_gone (w : World) (endpoint core : bool) : World :=
  MkWorld (w_actor w) (w_inbox w) (w_trip w) (w_now w) (w_addr w) (w_moved w) (w_changed w)
    (w_endpoint_gone w || endpoint) (w_core_gone w || core) (w_taken w) (w_stale w) (w_last w).

(** Every step: a turn; a command from the handle; a trip landing with whatever
    the mainloop answered; the clock; the world outside. Whether the reading a
    trip starts with also answers the watcher's next [updated] is [iroh]'s. *)
Inductive world_step (settle : N) : World → World → Prop :=
  | step_turn w a branch :
      w_actor w = Some a → ready w a = Some branch → world_step settle w (world_turn settle w a branch)
  | step_turn_seen w a :
      w_actor w = Some a → ready w a = Some Wake_Fired →
      world_step settle w
        (let w := world_turn settle w a Wake_Fired in with_addr w (w_addr w) false)
  | step_command w msg :
      length (w_inbox w) < CHANNEL → (msg = PublishMsg_Shutdown ∨ msg = PublishMsg_State) →
      world_step settle w (with_inbox w msg)
  | step_lands w addr outcome :
      w_trip w = Some addr → length (w_inbox w) < CHANNEL →
      world_step settle w (with_landed w outcome)
  | step_clock w now : (w_now w ≤ now)%N → world_step settle w (with_now w now)
  | step_address w addr : w_endpoint_gone w = false → world_step settle w (with_addr w addr true)
  | step_listing w : w_core_gone w = false → world_step settle w (with_listing_moved w)
  | step_gone w endpoint core : world_step settle w (with_gone w endpoint core).

(** ** The invariant *)

Definition is_landed (msg : PublishMsg) : Prop := match msg with PublishMsg_Landed _ => True | _ => False end.

#[local] Instance is_landed_dec msg : Decision (is_landed msg).
Proof. destruct msg; simpl; apply _. Defined.

(** The trips under way: on their task, or landed and not yet read. *)
Definition trips (w : World) : nat :=
  (if w_trip w is Some _ then 1 else 0) + length (base.filter is_landed (w_inbox w)).

(** Another publish is owed. *)
Definition owed (a : Actor) : Prop :=
  is_Some (ac_timer a) ∨ pub_again (ac_publish a) = true.

Record world_ok (w : World) (a : Actor) : Prop := {
  wo_trips : trips w = if pub_in_flight (ac_publish a) then 1 else 0;
  wo_again : pub_again (ac_publish a) = true → pub_in_flight (ac_publish a) = true;
  wo_last outcome : PublishMsg_Landed outcome ∈ w_inbox w → w_last w = Some outcome;
  wo_addr : w_taken w = Some (w_addr w) ∨ w_moved w = true ∨ owed a;
  wo_listing : w_stale w = false ∨ w_changed w = true ∨ owed a;
  wo_state : is_Some (ac_timer a) ∨ pub_in_flight (ac_publish a) = true ∨
    ∃ outcome, w_last w = Some outcome ∧ ac_state a = settle_outcome outcome;
}.

(** Nothing left to do: no branch ready, no trip, no timer. *)
Definition at_rest (w : World) (a : Actor) : Prop :=
  ready w a = None ∧ w_trip w = None ∧ ac_timer a = None.

#[local] Instance at_rest_dec w a : Decision (at_rest w a).
Proof.
  refine (cast_if_and3 (decide (¬ is_Some (ready w a))) (decide (¬ is_Some (w_trip w))) (decide (¬ is_Some (ac_timer a))));
    unfold at_rest; rewrite <-?eq_None_not_Some in *; naive_solver.
Defined.

(** What the world does when nothing outside moves: the actor takes the branch
    ready; failing that a trip lands, with what the mainloop answers; failing that
    the clock reaches the timer. *)
Definition quiet (settle : N) (answer : EndpointAddr → Landing) (w : World) : World :=
  match w_actor w with
  | None => w
  | Some a =>
      match ready w a, w_trip w, ac_timer a with
      | Some branch, _, _ => world_turn settle w a branch
      | None, Some addr, _ => with_landed w (answer addr)
      | None, None, Some at_ => with_now w at_
      | None, None, None => w
      end
  end.

(** What is left to do falls at every such step. *)
Definition potential (w : World) (a : Actor) : nat :=
  (if w_trip w is Some _ then 4 else 0) + 3 * length (w_inbox w) + (if pub_again (ac_publish a) then 4 else 0) +
  (if ac_timer a is Some _ then if fires (w_now w) (ac_timer a) then 5 else 6 else 0) +
  (if w_moved w then 7 else 0) + (if w_changed w then 7 else 0).

(** *** Every step keeps it *)

Lemma world_start_ok now addr : world_ok (world_start now addr) (actor_start now).
Proof using.
  split; simpl; [done|done|set_solver|..]; [right; right; left; by eexists|right; right; left; by eexists|left; by eexists].
Qed.

Lemma arm_armed now after t : is_Some (arm now after t).
Proof using. by destruct t; eexists. Qed.

Lemma trips_cons w msg inbox :
  w_inbox w = msg :: inbox → trips w = (if decide (is_landed msg) then 1 else 0) + trips (taken_by w (Wake_Cmd msg)).
Proof using.
  intros Hi. unfold trips. simpl. rewrite Hi. simpl. rewrite filter_cons.
  case_decide; simpl; destruct (w_trip w); simpl; lia.
Qed.

(** A message read. *)
Lemma turn_cmd_ok settle w a msg inbox a' :
  world_ok w a → w_inbox w = msg :: inbox →
  w_actor (world_turn settle w a (Wake_Cmd msg)) = Some a' → world_ok (world_turn settle w a (Wake_Cmd msg)) a'.
Proof using.
  intros [Ht Hag Hlast Haddr Hl Hs] Hi. pose proof (trips_cons w msg inbox Hi) as Htrips.
  assert (∀ o, PublishMsg_Landed o ∈ inbox → w_last w = Some o) as Htail
    by (intros o Ho; apply Hlast; rewrite Hi; by right).
  assert (∀ o, PublishMsg_Landed o ∈ tail (w_inbox w) → w_last w = Some o) as Htail' by (by rewrite Hi).
  destruct msg as [| |outcome]; [done|intros [= <-]|].
  - rewrite decide_False in Htrips by (by intros []). split; try done. transitivity (trips w); [symmetry; exact Htrips|exact Ht].
  - rewrite decide_True in Htrips by done. cbn [world_turn publisher_turn publish_landed].
    destruct (pub_in_flight (ac_publish a)) eqn:Hf; [|lia]. intros [= <-].
    split; simpl; try done.
    + change (trips (taken_by w (Wake_Cmd (PublishMsg_Landed outcome))) = 0). lia.
    + destruct Haddr as [?|[?|[Hti|Hagain]]]; [by left|by right; left|right; right; left; simpl..].
      * destruct (pub_again _); [apply arm_armed|done].
      * rewrite Hagain. apply arm_armed.
    + destruct Hl as [?|[?|[Hti|Hagain]]]; [by left|by right; left|right; right; left; simpl..].
      * destruct (pub_again _); [apply arm_armed|done].
      * rewrite Hagain. apply arm_armed.
    + right. right. exists outcome. split; [|done]. apply Hlast. rewrite Hi. by left.
Qed.

(** A wake read, or the timer fired. *)
Lemma turn_wake_ok settle w a branch a' :
  world_ok w a → w_inbox w = [] → (∀ msg, branch ≠ Wake_Cmd msg) →
  w_actor (world_turn settle w a branch) = Some a' → world_ok (world_turn settle w a branch) a'.
Proof using.
  intros [Ht Hag Hlast Haddr Hl Hs] Hi Hb. destruct branch as [msg| |[]|[]]; [by destruct (Hb msg)|..|done| |done|].
  - unfold world_turn, publisher_turn, publish_request. cbn [taken_by].
    destruct (pub_in_flight (ac_publish a)) eqn:Hf; simpl; intros [= <-].
    + split; simpl; try done; [by right; right; right|by right; right; right|by right; left].
    + unfold trips in Ht. destruct (w_trip w); [done|]. split; simpl; try done; [|by left|by left|by right; left].
      unfold trips. simpl. by rewrite Hi.
  - simpl. intros [= <-]. pose proof (arm_armed (w_now w) settle (ac_timer a)).
    split; simpl; try done; [by right; right; left|by right; right; left|by left].
  - simpl. intros [= <-]. pose proof (arm_armed (w_now w) settle (ac_timer a)).
    split; simpl; try done; [by right; right; left|by right; right; left|by left].
Qed.

Lemma turn_ok settle w a branch a' :
  world_ok w a → ready w a = Some branch →
  w_actor (world_turn settle w a branch) = Some a' → world_ok (world_turn settle w a branch) a'.
Proof using.
  intros Hw. unfold ready. destruct (w_inbox w) as [|msg inbox] eqn:Hi; intros Hr.
  - apply turn_wake_ok; [done|done|]. by repeat case_match; simplify_eq.
  - injection Hr as <-. by eapply turn_cmd_ok.
Qed.

Lemma step_ok settle w w' :
  world_step settle w w' → (∀ a, w_actor w = Some a → world_ok w a) → ∀ a, w_actor w' = Some a → world_ok w' a.
Proof using.
  intros Hstep Hw a' Ha'. destruct Hstep as [w a branch Ha Hr|w a Ha Hr|w msg _ Hmsg|w addr outcome Htrip _|w now Hnow|w addr|w|w ep co].
  - eapply turn_ok; [by apply Hw|done|done].
  - assert (w_inbox w = []) as Hi by (unfold ready in Hr; by repeat case_match; simplify_eq).
    pose proof (turn_ok settle w a Wake_Fired a' (Hw a Ha) Hr) as Hok. revert Ha' Hok.
    unfold world_turn, publisher_turn, publish_request. cbn [taken_by]. destruct (pub_in_flight (ac_publish a)) eqn:Hf; simpl; intros Ha' Hok; specialize (Hok Ha').
    + destruct Hok as [Ht Hag Hlast Haddr Hl Hs]. injection Ha' as <-. split; simpl in *; try done. right. right. by right.
    + destruct Hok as [Ht Hag Hlast Haddr Hl Hs]. split; simpl in *; try done. by left.
  - destruct (Hw a' Ha') as [Ht Hag Hlast Haddr Hl Hs]. split; simpl in *; try done.
    + rewrite <-Ht. unfold trips. simpl. rewrite filter_app, length_app.
      destruct Hmsg as [-> | ->]; simpl; lia.
    + intros o [Ho|Ho%list_elem_of_singleton]%elem_of_app; [by apply Hlast|]. by destruct Hmsg; simplify_eq.
  - destruct (Hw a' Ha') as [Ht Hag Hlast Haddr Hl Hs]. unfold trips in Ht. rewrite Htrip in Ht.
    destruct (pub_in_flight (ac_publish a')) eqn:Hf; [|lia].
    assert (base.filter is_landed (w_inbox w) = []) as Hnone by (apply nil_length_inv; lia).
    split; simpl in *; try done.
    + unfold trips. simpl. rewrite filter_app, length_app, Hnone. by rewrite Hf.
    + intros o [Ho|Ho%list_elem_of_singleton]%elem_of_app; [|by simplify_eq].
      assert (PublishMsg_Landed o ∈ base.filter is_landed (w_inbox w)) as Hin by (by apply list_elem_of_filter).
      rewrite Hnone in Hin. by apply not_elem_of_nil in Hin.
    + right. by left.
  - destruct (Hw a' Ha'). by split.
  - destruct (Hw a' Ha'). split; simpl; try done. right. by left.
  - destruct (Hw a' Ha'). split; simpl; try done. right. by left.
  - destruct (Hw a' Ha'). by split.
Qed.

Lemma reachable_ok settle now addr w :
  rtc (world_step settle) (world_start now addr) w → ∀ a, w_actor w = Some a → world_ok w a.
Proof using.
  revert w. apply (rtc_ind_r (λ w, ∀ a, w_actor w = Some a → world_ok w a)).
  - intros a [= <-]. apply world_start_ok.
  - intros w w' _ Hstep IH. by eapply step_ok.
Qed.

(** *** Left alone, it comes to rest *)

(** What stops the actor. *)
Definition told_to_stop (w : World) : Prop :=
  PublishMsg_Shutdown ∈ w_inbox w ∨ w_endpoint_gone w = true ∨ w_core_gone w = true.

Lemma ready_None_inbox w a : ready w a = None → w_inbox w = [].
Proof using. unfold ready. by destruct (w_inbox w). Qed.

Lemma quiet_step settle answer w a :
  w_actor w = Some a → ¬ at_rest w a → world_step settle w (quiet settle answer w).
Proof using.
  intros Ha Hrest. unfold quiet. rewrite Ha. destruct (ready w a) as [branch|] eqn:Hr; [by apply step_turn|].
  destruct (w_trip w) as [addr|] eqn:Ht.
  - eapply step_lands; [done|]. rewrite (ready_None_inbox w a Hr). unfold CHANNEL. simpl. lia.
  - destruct (ac_timer a) as [at_|] eqn:Hti; [|by destruct Hrest].
    apply step_clock. unfold ready in Hr. rewrite Hti in Hr. destruct (w_inbox w); [|done]. unfold fires in Hr.
    destruct (N.leb_spec at_ (w_now w)); [done|lia].
Qed.

Lemma arm_cost now after t :
  (if arm now after t is Some _ then if fires now (arm now after t) then 5 else 6 else 0) ≤ 6.
Proof using. destruct (arm _ _ _); [destruct (fires _ _)|]; lia. Qed.

Lemma turn_falls settle w a branch :
  world_ok w a → ready w a = Some branch →
  match w_actor (world_turn settle w a branch) with
  | None => told_to_stop w
  | Some a' => potential (world_turn settle w a branch) a' < potential w a
  end.
Proof using.
  intros Hw Hr. pose proof (wo_trips _ _ Hw) as Ht. pose proof (wo_again _ _ Hw) as Hag.
  pose proof (arm_cost (w_now w) settle (ac_timer a)) as Hcost.
  unfold ready in Hr. destruct (w_inbox w) as [|msg inbox] eqn:Hi.
  2: { injection Hr as <-. destruct msg as [| |outcome].
    - left. rewrite Hi. by left.
    - unfold potential. simpl. rewrite Hi. simpl. lia.
    - unfold potential. simpl. rewrite Hi. simpl. destruct (pub_again (ac_publish a)); lia. }
  destruct (fires (w_now w) (ac_timer a)) eqn:Hf.
  { injection Hr as <-. destruct (ac_timer a) as [at_|] eqn:Hti; [|done].
    unfold world_turn, publisher_turn, publish_request. cbn [taken_by].
    destruct (pub_in_flight (ac_publish a)) eqn:Hfl; unfold potential; simpl; rewrite ?Hti, ?Hf.
    - destruct (pub_again (ac_publish a)); lia.
    - unfold trips in Ht. destruct (w_trip w); [done|]. destruct (pub_again (ac_publish a)); [by discriminate Hag|lia]. }
  destruct (w_moved w) eqn:Hm.
  { injection Hr as <-. unfold potential. simpl. rewrite Hm. lia. }
  destruct (w_endpoint_gone w) eqn:Hg; [injection Hr as <-; by right; left|].
  destruct (w_changed w) eqn:Hc.
  { injection Hr as <-. unfold potential. simpl. rewrite Hc. lia. }
  destruct (w_core_gone w) eqn:Hcg; [injection Hr as <-; by right; right|done].
Qed.

Lemma quiet_falls settle answer w a :
  world_ok w a → w_actor w = Some a → ¬ at_rest w a →
  match w_actor (quiet settle answer w) with
  | None => told_to_stop w
  | Some a' => potential (quiet settle answer w) a' < potential w a
  end.
Proof using.
  intros Hw Ha Hrest. unfold quiet. rewrite Ha. destruct (ready w a) as [branch|] eqn:Hr; [by apply turn_falls|].
  pose proof (ready_None_inbox w a Hr) as Hi. destruct (w_trip w) as [addr|] eqn:Ht.
  - simpl. rewrite Ha. unfold potential. simpl. rewrite Hi, Ht. simpl. lia.
  - destruct (ac_timer a) as [at_|] eqn:Hti; [|by destruct Hrest]. simpl. rewrite Ha. unfold potential. simpl.
    rewrite Hti, Ht. unfold ready in Hr. rewrite Hi, Hti in Hr. destruct (fires (w_now w) (Some at_)) eqn:Hf; [done|].
    simpl. rewrite N.leb_refl. lia.
Qed.

(** A quiet step moves nothing outside, and posts no command. *)
Lemma quiet_outside settle answer w :
  w_addr (quiet settle answer w) = w_addr w ∧ (told_to_stop (quiet settle answer w) → told_to_stop w).
Proof using.
  unfold quiet. destruct (w_actor w) as [a|]; [|done]. destruct (ready w a) as [branch|] eqn:Hr.
  - assert (PublishMsg_Shutdown ∈ tail (w_inbox w) → PublishMsg_Shutdown ∈ w_inbox w) as Htail
      by (destruct (w_inbox w); [done|by right]).
    unfold world_turn. destruct (publisher_turn _ _ _ _ _) as [a' deed]. unfold told_to_stop.
    destruct branch, deed as [[]|]; simpl; naive_solver.
  - destruct (w_trip w) as [addr|].
    + split; [done|]. intros [Hin|?]; [|by right]. left. simpl in Hin.
      by apply elem_of_app in Hin as [?|Hin%list_elem_of_singleton].
    + by destruct (ac_timer a).
Qed.

(** Iterated until it rests or stops. *)
Lemma quiet_rests settle answer (n : nat) w a :
  world_ok w a → w_actor w = Some a → potential w a ≤ n →
  ∃ k w', k ≤ n + 1 ∧ Nat.iter k (quiet settle answer) w = w' ∧ rtc (world_step settle) w w' ∧ w_addr w' = w_addr w ∧
    match w_actor w' with
    | None => told_to_stop w
    | Some a' => at_rest w' a'
    end.
Proof using.
  revert w a. induction n as [|n IH]; intros w a Hw Ha Hn;
    (destruct (decide (at_rest w a)) as [Hrest|Hrest]; [exists 0, w; split_and!; [lia|done..|by rewrite Ha]|]);
    pose proof (quiet_falls settle answer w a Hw Ha Hrest) as Hf; pose proof (quiet_step settle answer w a Ha Hrest) as Hs;
    pose proof (quiet_outside settle answer w) as [Haddr Htold];
    (destruct (w_actor (quiet settle answer w)) as [a'|] eqn:Ha';
      [|exists 1, (quiet settle answer w); split_and!; [lia|done|by apply rtc_once|done|by rewrite Ha']]); [lia|].
  destruct (IH (quiet settle answer w) a') as (k & w' & Hk & Hit & Hrtc & Hat & Hend);
    [by eapply step_ok; [done|intros a1 Ha1; simplify_eq|]|done|lia|].
  exists (S k), w'. split_and!; [lia|by rewrite Nat.iter_succ_r|by eapply rtc_l|by rewrite Hat|].
  destruct (w_actor w'); [done|by apply Htold].
Qed.

(** ** What it keeps *)

(** C24: the publisher never forgets a wake, and left alone it comes to rest on
    the address the endpoint reports. However the address, the listing, the
    clock, the trips and the commands interleave, while the actor runs at most
    one trip is under way and exactly when the actor says so; an address the last
    trip did not start with, or a listing that moved since, is an unread wake, an
    armed timer or another trip owed. And from wherever it stands, if nothing
    outside moves any more, a bounded number of steps — whatever the mainloop
    answers — either stops the actor, which was told to, or leaves it with
    nothing to do: its last trip carried the current address and started after
    the listing last moved, and the state it reports is what that trip came
    back with. *)
Theorem publisher_settles (settle now : N) (addr : EndpointAddr) (answer : EndpointAddr → Landing) (w : World) (a : Actor) :
  rtc (world_step settle) (world_start now addr) w → w_actor w = Some a →
  trips w = (if pub_in_flight (ac_publish a) then 1 else 0) ∧
  (w_taken w = Some (w_addr w) ∨ w_moved w = true ∨ owed a) ∧
  (w_stale w = false ∨ w_changed w = true ∨ owed a) ∧
  ∃ k w', k ≤ potential w a + 1 ∧ Nat.iter k (quiet settle answer) w = w' ∧ w_addr w' = w_addr w ∧
    match w_actor w' with
    | None => told_to_stop w
    | Some a' => at_rest w' a' ∧ w_taken w' = Some (w_addr w) ∧ w_stale w' = false ∧
        ∃ outcome, w_last w' = Some outcome ∧ ac_state a' = settle_outcome outcome
    end.
Proof using.
  intros Hreach Ha. pose proof (reachable_ok settle now addr w Hreach a Ha) as Hw. split_and!; [apply Hw..|].
  destruct (quiet_rests settle answer (potential w a) w a Hw Ha (le_n _)) as (k & w' & Hk & Hit & Hrtc & Haddr & Hend).
  exists k, w'. split_and!; [lia|done|done|]. destruct (w_actor w') as [a'|] eqn:Ha'; [|done].
  pose proof (reachable_ok settle now addr w' ltac:(by etrans) a' Ha') as [Ht Hag _ Ha1 Hl1 Hs1].
  destruct Hend as (Hr & Htrip & Htimer).
  assert (w_inbox w' = []) as Hi by (by eapply ready_None_inbox).
  assert (pub_in_flight (ac_publish a') = false) as Hfl.
  { unfold trips in Ht. rewrite Htrip, Hi in Ht. by destruct (pub_in_flight _). }
  assert (¬ owed a') as Ho by (intros [[t Hti]|Hx]; [by rewrite Htimer in Hti|by rewrite Hag in Hfl]).
  assert (w_moved w' = false ∧ w_changed w' = false) as [Hm Hc].
  { unfold ready in Hr. rewrite Hi, Htimer in Hr. by repeat case_match; simplify_eq. }
  split_and!; [split_and!; done|rewrite <-Haddr; naive_solver congruence|naive_solver congruence|].
  destruct Hs1 as [[t Hti]|[Hx|?]]; [by rewrite Htimer in Hti|by rewrite Hx in Hfl|done].
Qed.
End actor.

(** ** A node whose address moves while its first trip is out *)

Section sample.
#[local] Existing Instance Toy.

Definition first_addr : EndpointAddr := MkToyEndpointAddr (str "n") [].
Definition next_addr : EndpointAddr := MkToyEndpointAddr (str "n") [TransportAddr_Ip (str "10.0.0.1:1")].

Abbreviation SampleWorld := (World (E := Empty_set)) (only parsing).

(** A turn of whichever branch is ready. *)
Definition turned (w : SampleWorld) : SampleWorld :=
  match w_actor w with
  | Some a => match ready w a with Some branch => world_turn 5 w a branch | None => w end
  | None => w
  end.

Lemma turned_step (w : SampleWorld) a branch :
  w_actor w = Some a → ready w a = Some branch → world_step 5 w (turned w).
Proof. intros Ha Hr. unfold turned. rewrite Ha, Hr. by apply step_turn. Qed.

(** The timer fires, the address moves and is seen to, and the trip comes back. *)
Definition moving : SampleWorld :=
  turned (with_landed (turned (with_addr (turned (world_start 0 first_addr)) next_addr true)) (Ok Advertised_Unchanged)).

Lemma moving_reached : rtc (world_step 5) (world_start 0 first_addr) moving.
Proof.
  eapply rtc_l; [by eapply turned_step|]. eapply rtc_l; [by apply (step_address _ _ next_addr)|].
  eapply rtc_l; [by eapply turned_step|]. eapply rtc_l; [eapply (step_lands _ _ first_addr); [done|vm_compute; lia]|].
  apply rtc_once. by eapply turned_step.
Qed.

(** What the last trip found is reported though the address has moved since and a
    publish is due. *)
Example published_while_moving : ∃ a, w_actor moving = Some a ∧ ac_state a = PublishState_Published ∧
  w_taken moving = Some first_addr ∧ w_addr moving = next_addr ∧ owed a.
Proof. eexists. split; [reflexivity|]. split_and!; [reflexivity..|left; by eexists]. Qed.

Lemma publisher_settles_witness : ∃ k w' a',
  k ≤ 7 ∧ Nat.iter k (quiet 5 (λ _, Ok Advertised_NotListed)) moving = w' ∧ w_actor w' = Some a' ∧
  at_rest w' a' ∧ w_taken w' = Some next_addr.
Proof.
  destruct (publisher_settles 5 0 first_addr (λ _, Ok Advertised_NotListed) moving _ moving_reached eq_refl)
    as (_ & _ & _ & k & w' & Hk & Hit & _ & Hend).
  destruct (w_actor w') as [a'|] eqn:Ha'.
  - exists k, w', a'. exact (conj Hk (conj Hit (conj Ha' (conj (proj1 Hend) (proj1 (proj2 Hend)))))).
  - destruct Hend as [Hin|[Hx|Hx]]; [by apply not_elem_of_nil in Hin|discriminate Hx|discriminate Hx].
Defined.
End sample.
