(* ===== verification/AdvertiseSpec.v ===== *)
(** * Advertising from a core

    What [advertise] reads always answers, and what it then does is one insert. *)

From S2P Require Import Prelude BTree Text Codec Externals Keys Subkey Msg Envelope Value.
From S2P Require Import Storage Addr StateError Ledger LedgerSpec LedgerProps Chain ChainSpec ChainStore ChainInsert.
From S2P Require Import Change ChangeSpec ChangeWalk Subscribe Core CoreSpec Advertise.

(** A computation that ends with a value or an error. *)
Abbreviation answers c := (cwp c (λ _, True) (λ _, True)).

Lemma answers_bind {E A B} (c : Comp E A) (k : A → Comp E B) :
  answers c → (∀ a, c = Ret (Ok a) → answers (k a)) → answers (c_bind c k).
Proof. unfold cwp, c_bind. destruct c as [[a|e]| |]; [|done..]. intros _ Hk. by apply Hk. Qed.

Lemma answers_map_err {E E' A} (f : E → E') (c : Comp E A) : answers c → answers (c_map_err f c).
Proof. unfold cwp, c_map_err. by destruct c as [[a|e]| |]. Qed.

Lemma cwp_answers {E A} (c : Comp E A) Q X : cwp c Q X → answers c.
Proof. intros Hc. by eapply cwp_mono. Qed.

Lemma agrees_answers `{Externals} {E A} (c : Comp (ApplyError E) A) p : agrees c p → answers p → answers c.
Proof. intros Ha Hp. by eapply cwp_answers, agrees_cwp. Qed.

Section core.
Context `{Externals} {S E : Type} `{StorageSpec S E}.
Hypothesis Hid : ∀ k, is_Some (Key_id k).
Implicit Types (self : Core S).

(** A core that stands on a version it can read. *)
Definition standing self : Prop :=
  storage_ok (core_storage self) ∧ is_Some (versions (view (core_storage self)) !! head self).

Lemma key_id_answers {E'} self : ∃ id, Core_key_id (E' := E') self = c_ok id ∧
  PublicKey_id (NodeKeys_public_key (core_keys self)) = Some id.
Proof using Hid.
  destruct (Hid (Key_new (NodeKeys_public_key (core_keys self)) 0)) as [id Hk]. exists id.
  unfold Core_key_id. unfold Key_id in Hk. cbn [public_key Key_new Key_with_metadata] in Hk. by rewrite Hk.
Qed.

Lemma reserved_key_answers {E'} name : name ≠ [] → answers (reserved_key (E' := E') name).
Proof using. intros (key & Hk & _)%NamespaceKey_try_new_Some. unfold reserved_key. by rewrite Hk. Qed.

Lemma listing_path_answers {E'} self below : answers (listing_path (E' := E') self below).
Proof using Hid.
  unfold listing_path. destruct (key_id_answers (E' := E') self) as (id & -> & _). cbn [c_bind c_ok].
  unfold SubkeyPath_try_new. by case_decide.
Qed.

Lemma advertise_msg_answers {E'} self prev update : answers (advertise_msg (E' := E') self prev update).
Proof using Hid.
  destruct update; (apply answers_bind; [by apply reserved_key_answers|]); intros key _;
    (apply answers_bind; [apply listing_path_answers|done]).
Qed.

Lemma sign_answers self envelope : answers (NodeKeys_sign (E := E) (core_keys self) envelope).
Proof using Hid.
  unfold NodeKeys_sign. destruct (Envelope_signature_digest envelope); [|done].
  destruct (key_id_answers (E' := E) self) as (id & _ & ->). done.
Qed.

Lemma sign_updates_answers self prev updates :
  cwp (sign_updates_from (E := E) self prev updates) (λ batch, length batch = length updates) (λ _, True).
Proof using Hid.
  revert prev. induction updates as [|update updates IH]; intros prev; [done|]. cbn [sign_updates_from].
  apply cwp_bind. eapply cwp_mono; [apply advertise_msg_answers| |done]. intros msg _.
  apply cwp_bind. eapply cwp_mono; [apply answers_map_err, sign_answers| |done]. intros e _.
  destruct (Envelope_digest e) as [next|]; [|done]. cbn [c_bind c_ok].
  apply cwp_bind. eapply cwp_mono; [apply IH| |done]. intros batch Hlen. unfold cwp, c_ok. simpl. by rewrite Hlen.
Qed.

Lemma batch_bytes_answers (batch : list Envelope) : answers (batch_bytes (E := E) batch).
Proof using.
  induction batch as [|e batch IH]; [done|]. cbn [batch_bytes]. destruct (encode _); [|done].
  apply answers_bind; done.
Qed.

Lemma advertise_batch_answers self addr :
  standing self → cwp (advertise_batch (E := E) self addr) (λ batch, batch ≠ []) (λ _, True).
Proof using Hid.
  intros (Hs & ver & Hver). unfold advertise_batch.
  destruct (collect _) as [wanted|]; [|done]. cbn [c_bind c_ok].
  assert (∀ (batch : list Envelope) (updates : list Update), length batch = length updates → updates ≠ [] → batch ≠ []) as Hne
    by (by intros [] []).
  apply cwp_bind. eapply cwp_mono; [apply sign_updates_answers| |done]. intros whole Hwhole.
  apply cwp_bind. eapply (cwp_mono _ (λ _, True) _ (λ _, True)); [| |done].
  { unfold transport_edits. apply answers_bind; [by apply reserved_key_answers|]. intros key _.
    apply answers_bind; [apply listing_path_answers|]. intros path _.
    apply answers_bind; [apply answers_map_err; by eapply cwp_answers, value_at_spec|].
    intros [[]|] _; done. }
  intros [[|u us]|] _; [by apply (Hne _ _ Hwhole)| |by apply (Hne _ _ Hwhole)].
  apply cwp_bind. eapply cwp_mono; [apply sign_updates_answers| |done]. intros edited Hedited.
  apply cwp_bind. eapply cwp_mono; [apply batch_bytes_answers| |done]. intros eb _.
  apply cwp_bind. eapply cwp_mono; [apply batch_bytes_answers| |done]. intros wb _.
  unfold cwp, c_ok. case_decide; [by apply (Hne _ _ Hedited)|by apply (Hne _ _ Hwhole)].
Qed.

Lemma core_peer_addresses_answers self : standing self → answers (core_peer_addresses (E := E) self).
Proof using.
  intros (Hs & ver & Hver). apply answers_map_err. unfold peer_addresses.
  apply answers_bind; [by apply reserved_key_answers|]. intros key _.
  apply answers_bind; [by apply answers_map_err; eapply cwp_answers, namespace_spec|]. intros [n|] _; [|done].
  apply answers_map_err. by destruct (parse_cluster_nodes _).
Qed.

Lemma signs_alone_answers self : standing self → answers (signs_alone (E := E) self).
Proof using Hid.
  intros (Hs & ver & Hver). unfold signs_alone.
  apply answers_bind.
  { apply answers_map_err. eapply agrees_answers; [by apply trusted_keys_agrees|].
    unfold trusted_keys. apply answers_bind; [by apply reserved_key_answers|]. intros key _. simpl.
    destruct (bt_get ver key); [|done]. apply answers_map_err. by apply parse_trusted_keys_total. }
  intros keys _. destruct (key_id_answers (E' := Error E) self) as (id & _ & ->). cbn [c_expect c_bind c_ok].
  apply answers_bind.
  { apply answers_map_err. eapply agrees_answers; [by apply threshold_agrees|].
    by eapply cwp_answers, threshold_cwp. }
  intros min_w _. apply answers_bind.
  { apply answers_map_err. eapply agrees_answers; [by apply threshold_agrees|].
    by eapply cwp_answers, threshold_cwp. }
  intros min_s _. done.
Qed.
End core.
