(* ===== verification/AdvertiseProps.v ===== *)
(** * What advertising writes

    The run a node signs for its own listing, applied version by version. *)

From S2P Require Import Prelude BTree Text Codec Externals Keys Subkey Msg Envelope Value.
From S2P Require Import Storage Mem Addr StateError Ledger LedgerSpec Fixtures LedgerProps Chain.
From S2P Require Import ChainSpec ChainStore ChainInsert Change ChainFixtures Subscribe Sync Core.
From S2P Require Import CoreSpec CoreFixtures CoreProps Advertise Listing AdvertiseSpec.

(** ** A listed node for the witnesses *)

(** A cluster of one node, listed under two transports in its genesis, one of
    which has moved since. *)
#[export] Instance TransportAddr_eq_dec {R I C} `{EqDecision R, EqDecision I, EqDecision C} :
  EqDecision (TransportAddr_ R I C).
Proof. solve_decision. Defined.

#[export] Instance Toy_iroh : IrohEq := {|
  endpoint_addr_eqb a b := bool_decide (toy_id a = toy_id b ∧ toy_addrs a = toy_addrs b);
  endpoint_id_eqb a b := bool_decide (a = b :> rstring);
|}.

Definition transport_value (addr : TransportAddr) : Value :=
  match Value_try_from_transport addr with Ok v => v | Err _ => Value_Int 0 end.

Definition old_ip : TransportAddr := TransportAddr_Ip (str "10.0.0.1:1").
Definition new_ip : TransportAddr := TransportAddr_Ip (str "10.0.0.2:1").
Definition its_relay : TransportAddr := TransportAddr_Relay (str "relay").

Definition key_nodes : NamespaceKey := mk_key "_lotus_nodes".

Definition listed_genesis : Envelope :=
  Envelope_new (Msg_Init (MkInitMsg (MkFullCheckpoint (bt_from_iter
    [(key_trusted, MkNamespace (Value_Map [(KeyId_to_hex signer_id, Value_Key signer)]));
     (key_nodes, MkNamespace (Value_Map (bt_from_iter [(KeyId_to_hex signer_id,
       Value_Map (bt_from_iter [(IROH, Value_Map (bt_from_iter
         [(ENDPOINT_ID, Value_String (str "n"));
          (ADDRS, Value_Array [transport_value old_ip; transport_value its_relay])]))]))])))])))).

#[global] Opaque listed_genesis.

Definition listed_d : EnvelopeDigest := digest_of listed_genesis.
Definition listed_node : MemNode := state_of (chain_init listed_genesis) empty_node.
Definition listed_chain : Chain := MkChain listed_d (MkLedger listed_d).
Definition listed_core : Core MemNode :=
  MkCore listed_node listed_chain listed_d sample_keys Subscriptions_default.

Definition moved_addr : EndpointAddr := MkToyEndpointAddr (str "n") [its_relay; new_ip].

(** What it signs for the move. *)
Definition move_batch : list Envelope := default [] (c_value (advertise_batch listed_core moved_addr)).

Definition move : Envelope := default listed_genesis (move_batch !! 0).

#[global] Opaque move.

Definition listed_table : list (EnvelopeDigest * (Msg * nat)) :=
  [(listed_d, (payload listed_genesis, 0)); (digest_of move, (payload move, 1))].

Definition listed_pins : EnvelopeDigest → option Msg := pins_of listed_table.

Definition listed_rank : EnvelopeDigest → nat := rank_of listed_table.

Lemma listed_hash_ok : HashOk listed_pins listed_rank.
Proof. apply table_hash_ok. vm_compute. reflexivity. Qed.

Lemma move_batch_eq : move_batch = [move].
Proof. by_computing. Qed.

Lemma listed_pinned d : Envelope_digest listed_genesis = Ok d → listed_pins d = Some (payload listed_genesis).
Proof. intros <-%digest_of_ok. unfold listed_pins, pins_of, listed_table. by rewrite pin_lookup_head. Qed.

Lemma move_pinned : batch_pinned listed_pins move_batch.
Proof.
  rewrite move_batch_eq. intros e d ->%list_elem_of_singleton <-%digest_of_ok.
  unfold listed_pins, pins_of, listed_table.
  rewrite pin_lookup_skip by by_computing. by rewrite pin_lookup_head.
Qed.

Lemma listed_sound : core_sound listed_pins listed_core ∧ size (log (view listed_node)) = 1.
Proof.
  assert (is_Some (value_of (chain_init listed_genesis) empty_node)) as Hval by by_computing.
  destruct (run_ok (chain_init listed_genesis) empty_node Hval) as (c & _ & Hrun).
  destruct (wp_Ret _ _ _ _ _ _ (chain_init_wp listed_pins toy_key_id_total listed_genesis empty_node
    mem_ok_empty_node eq_refl eq_refl listed_pinned) Hrun)
    as (Hok & Hhead & Htip & init & status & _ & Hv & Hl).
  assert (is_Some (versions (view listed_node) !! listed_d)) as Hheld by by_computing.
  assert (c = listed_chain) as ->.
  { destruct c as [root [head_]]. cbn [chain_root chain_head chain_ledger ledger_head] in *. subst head_.
    destruct Hheld as [x Hx]. unfold listed_node in Hx. rewrite Hv in Hx.
    apply lookup_singleton_Some in Hx as [-> _]. reflexivity. }
  split; [split; [exact Hok|exact Hheld|exact (winner_ancestor _ _ _ (proj1 Htip))]|].
  unfold listed_node. rewrite Hl. apply map_size_singleton.
Qed.

Lemma c_ok_inv {E A} (a b : A) : Ret (@Ok E A a) = Ret (Ok b) → a = b.
Proof. by intros [= ->]. Qed.

Lemma value_of_Ret {S E A} (m : M S E A) s a s' : m s = Ret (Ok a, s') → value_of m s = Some a.
Proof. unfold value_of. by intros ->. Qed.

Definition has_written (out : Advertised) : bool :=
  match out with Advertised_Written _ => true | _ => false end.

Lemma has_written_inv out : has_written out = true → ∃ digest, out = Advertised_Written digest.
Proof. destruct out; try done. by eexists. Qed.

(** ** What a run of updates does *)

(** The transports a version lists for a node. *)
Definition listing_of `{Externals} (id : KeyId) (ver : Version) : option (list Value) :=
  key ← NamespaceKey_try_new CLUSTER_NODES_KEY;
  n ← bt_get ver key;
  match walk (ns_value n) [Subkey_Key (KeyId_to_hex id); Subkey_Key IROH; Subkey_Key ADDRS] with
  | Some (Value_Array l) => Some l
  | _ => None
  end.

(** The versions a run of messages passes through. *)
Fixpoint versions_after (ver : Version) (msgs : list Msg) : option (list Version) :=
  match msgs with
  | [] => Some []
  | msg :: msgs =>
      op ← msg_op msg;
      ver' ← op_apply op ver;
      vers ← versions_after ver' msgs;
      Some (ver' :: vers)
  end.

(** ** One message *)

Lemma walk_parent root parents key v :
  walk root (parents ++ [Subkey_Key key]) = Some v →
  ∃ map, walk root parents = Some (Value_Map map) ∧ bt_get map key = Some v.
Proof.
  rewrite walk_app. intros (parent & Hp & Hv)%bind_Some. rewrite walk_cons in Hv.
  apply bind_Some in Hv as (x & Hx & Hw). unfold walk in Hw. simpl in Hw. injection Hw as ->.
  destruct parent; try done. by exists entries.
Qed.

(** A change under [parents] leaves the listing what the changed parent holds. *)
Lemma walk_mut_under root parents f key parent parent' v :
  walk root parents = Some parent → f parent = Some parent' →
  walk parent' [Subkey_Key key] = Some v →
  ∃ root', walk_mut root parents f = Some root' ∧ walk root' (parents ++ [Subkey_Key key]) = Some v.
Proof.
  intros Hw Hf Hv. destruct (walk_mut_total root parents f parent Hw ltac:(by eexists)) as [root' Hr].
  destruct (walk_mut_Some _ _ _ _ Hr) as (p & p' & Hp & Hfp & Hw'). simplify_eq.
  exists root'. split; [done|]. by rewrite walk_app, Hw'.
Qed.

Section message.
Context `{Externals} {S E : Type} `{Storage S E}.
Implicit Types (self : Core S) (ver : Version).

Lemma listing_path_Ok {E'} self id below path :
  PublicKey_id (NodeKeys_public_key (core_keys self)) = Some id →
  listing_path (E' := E') self below = Ret (Ok path) →
  SubkeyPath_as_ref path = [Subkey_Key (KeyId_to_hex id); Subkey_Key IROH] ++ below.
Proof using.
  intros Hid. unfold listing_path, Core_key_id. rewrite Hid. cbn [c_expect c_bind c_ok].
  unfold SubkeyPath_try_new. case_decide as Hne; [|done]. intros [= <-]. done.
Qed.

Lemma reserved_key_Ok {E'} name key :
  reserved_key (E' := E') name = Ret (Ok key) → NamespaceKey_try_new name = Some key.
Proof using. unfold reserved_key, c_expect. destruct (NamespaceKey_try_new name); [by intros [= <-]|done]. Qed.

(** A message that writes one value of a namespace. *)
Lemma message_applied {id ver l'} key n msg prev :
  NamespaceKey_try_new CLUSTER_NODES_KEY = Some key → bt_get ver key = Some n →
  (Msg_prev_digest msg = Some prev ∧ ∃ op root', msg_op msg = Some op ∧
    match op with
    | NamespaceOp_SetAt k path v => k = key ∧ set_at (ns_value n) path v = Some root'
    | NamespaceOp_AmendAt k path o => k = key ∧ amend_at (ns_value n) path o = Some root'
    | _ => False
    end ∧
    walk root' [Subkey_Key (KeyId_to_hex id); Subkey_Key IROH; Subkey_Key ADDRS] = Some (Value_Array l')) →
  Msg_prev_digest msg = Some prev ∧
  ∃ op ver', msg_op msg = Some op ∧ op_apply op ver = Some ver' ∧ listing_of id ver' = Some l'.
Proof using.
  intros Hkey Hn (Hprev & op & root' & Hop & Hr & Hw). split; [done|].
  exists op, (bt_insert key (MkNamespace root') ver). split; [done|]. split.
  - destruct op; try done; destruct Hr as [-> Hr]; cbn [op_apply]; rewrite Hn; cbn [mbind option_bind]; by rewrite Hr.
  - unfold listing_of. rewrite Hkey. cbn [mbind option_bind]. rewrite bt_get_insert_eq.
    cbn [mbind option_bind ns_value]. by rewrite Hw.
Qed.

(** An update's message does to the version what the update does to the array. *)
Lemma advertise_msg_applies {E'} self id ver prev update msg l l' :
  PublicKey_id (NodeKeys_public_key (core_keys self)) = Some id →
  listing_of id ver = Some l → apply_update l update = Some l' →
  advertise_msg (E' := E') self prev update = Ret (Ok msg) →
  Msg_prev_digest msg = Some prev ∧
  ∃ op ver', msg_op msg = Some op ∧ op_apply op ver = Some ver' ∧ listing_of id ver' = Some l'.
Proof using.
  intros Hid Hl Happ Hmsg. unfold listing_of in Hl. apply bind_Some in Hl as (key & Hkey & Hl).
  apply bind_Some in Hl as (n & Hn & Hl).
  set (parents := [Subkey_Key (KeyId_to_hex id); Subkey_Key IROH]).
  assert (walk (ns_value n) (parents ++ [Subkey_Key ADDRS]) = Some (Value_Array l)) as Hw.
  { cbn [parents app]. destruct (walk _ _) as [[]|]; naive_solver. }
  clear Hl. destruct (walk_parent _ _ _ _ Hw) as (map & Hmap & Hget).
  apply (message_applied key n); [done|done|]. fold parents.
  unfold advertise_msg in Hmsg. destruct update as [entries|index entry|index|entry];
    apply c_bind_Ok in Hmsg as (key' & Hkey' & Hmsg); apply reserved_key_Ok in Hkey'; simplify_eq;
    apply c_bind_Ok in Hmsg as (path & Hpath & Hmsg); injection Hmsg as <-;
    pose proof (listing_path_Ok _ _ _ _ Hid Hpath) as Hp; simpl in Happ; (split; [done|]).
  - injection Happ as ->. eexists (NamespaceOp_SetAt key path _).
    destruct (walk_mut_under (ns_value n) parents (set_last (Subkey_Key ADDRS) (Some (Value_Array l'))) ADDRS
      _ _ (Value_Array l') Hmap eq_refl) as (root' & Hr & Hw').
    { rewrite walk_cons. cbn [value_step]. by rewrite bt_get_insert_eq. }
    exists root'. split; [done|]. split; [|done]. split; [done|]. by rewrite (set_at_snoc _ _ _ parents (Subkey_Key ADDRS)).
  - case_decide as Hi; [|done]. injection Happ as <-. eexists (NamespaceOp_SetAt key path _).
    destruct (walk_mut_total (ns_value n) (parents ++ [Subkey_Key ADDRS]) (set_last (Subkey_Index index) (Some entry))
      _ Hw ltac:(simpl; rewrite decide_True by done; by eexists)) as [root' Hr].
    destruct (walk_mut_Some _ _ _ _ Hr) as (v & v' & Hv & Hf & Hw'). simplify_eq. simpl in Hf.
    rewrite decide_True in Hf by done. injection Hf as <-.
    exists root'. split; [done|]. split; [|done]. split; [done|].
    by rewrite (set_at_snoc _ _ _ (parents ++ [Subkey_Key ADDRS]) (Subkey_Index index)).
  - eexists (NamespaceOp_SetAt key path _).
    destruct (walk_mut_total (ns_value n) (parents ++ [Subkey_Key ADDRS]) (set_last (Subkey_Index index) None)
      _ Hw ltac:(simpl; rewrite Happ; by eexists)) as [root' Hr].
    destruct (walk_mut_Some _ _ _ _ Hr) as (v & v' & Hv & Hf & Hw'). simplify_eq. simpl in Hf.
    rewrite Happ in Hf. injection Hf as <-.
    exists root'. split; [done|]. split; [|done]. split; [done|].
    by rewrite (set_at_snoc _ _ _ (parents ++ [Subkey_Key ADDRS]) (Subkey_Index index)).
  - injection Happ as <-. eexists (NamespaceOp_AmendAt key (Some path) _).
    destruct (walk_mut_under (ns_value n) parents (append_last (Subkey_Key ADDRS) entry) ADDRS
      (Value_Map map) (Value_Map (bt_insert ADDRS (Value_Array (l ++ [entry])) map)) (Value_Array (l ++ [entry])) Hmap)
      as (root' & Hr & Hw').
    { cbn [append_last]. rewrite Hget. done. }
    { rewrite walk_cons. cbn [value_step]. by rewrite bt_get_insert_eq. }
    exists root'. split; [done|]. split; [|done]. split; [done|]. cbn [ank_op amend_at path_segments].
    rewrite Hp. change ([Subkey_Key (KeyId_to_hex id); Subkey_Key IROH] ++ [Subkey_Key ADDRS]) with (parents ++ [Subkey_Key ADDRS]).
    by rewrite split_last_snoc.
Qed.

(** A signed run takes the version where its updates take the array, and chains
    from where it starts. *)
Lemma signed_run self id ver prev wanted l updates ls final batch :
  PublicKey_id (NodeKeys_public_key (core_keys self)) = Some id → listing_of id ver = Some l →
  edited wanted l updates ls final → sign_updates_from (E := E) self prev updates = Ret (Ok batch) →
  length batch = length updates ∧ (∃ tip, linked prev batch tip) ∧
  ∃ vers, versions_after ver (payload <$> batch) = Some vers ∧ listing_of id <$> vers = Some <$> ls.
Proof using.
  intros Hid Hl Hed. revert ver prev batch Hl.
  induction Hed as [l|l update l' updates ls final Happ _ _ IH]; intros ver prev batch Hl Hb.
  { injection Hb as <-. split; [done|]. split; [by exists prev|]. by exists []. }
  cbn [sign_updates_from] in Hb. apply c_bind_Ok in Hb as (msg & Hmsg & Hb). apply c_bind_Ok in Hb as (e & He & Hb).
  destruct (Envelope_digest e) as [next|] eqn:Hd; [|done]. cbn [c_bind c_ok] in Hb.
  apply c_bind_Ok in Hb as (rest & Hrest & Hb). injection Hb as <-.
  destruct (advertise_msg_applies _ _ _ _ _ _ _ _ Hid Hl Happ Hmsg) as (Hprev & op & ver' & Hop & Hver & Hl').
  assert (payload e = msg) as Hpay.
  { unfold c_map_err in He. destruct (NodeKeys_sign _ _) as [[e'|]| |] eqn:Hs; simplify_eq/=.
    apply NodeKeys_sign_Ok in Hs as (k & digest & _ & _ & ->). done. }
  destruct (IH ver' next rest Hl' Hrest) as (Hlen & [tip Hlink] & vers & Hvers & Hls).
  split; [simpl; by rewrite Hlen|]. split.
  - exists tip. simpl. unfold prev_of. rewrite Hpay. split; [done|]. by exists next.
  - exists (ver' :: vers). cbn [fmap list_fmap versions_after]. rewrite Hpay, Hop. cbn [mbind option_bind].
    rewrite Hver. cbn [mbind option_bind]. fold (fmap (M := list) payload rest).
    rewrite Hvers. split; [done|]. cbn [fmap list_fmap]. f_equal; [done|exact Hls].
Qed.
End message.

(** ** The property *)

(** C18: advertising ends at the address, and is reachable all the way there.
    Whichever run [advertise_batch] picks — the array whole, or edits to it — it
    is not empty and chains from the head, and its messages, applied one after
    the other to the version at the head, take the transports listed for this
    node to exactly those of the address, in some order, each listed once. On the
    way no version has lost a wanted transport the one before it listed, and each
    lists at least one where the address has any. *)
Theorem advertise_reaches_wanted `{Externals} {S E : Type} `{StorageSpec S E}
    (self : Core S) (id : KeyId) (ver : Version) (listed wanted : list Value) (addr : EndpointAddr)
    (batch : list Envelope) :
  storage_ok (core_storage self) → versions (view (core_storage self)) !! head self = Some ver →
  PublicKey_id (NodeKeys_public_key (core_keys self)) = Some id → listing_of id ver = Some listed →
  collect (map Value_try_from_transport (endpoint_addr_addrs addr)) = Ok wanted → NoDup wanted →
  advertise_batch self addr = Ret (Ok batch) →
  batch ≠ [] ∧ (∃ tip, linked (head self) batch tip) ∧
  ∃ updates vers lists final,
    versions_after ver (payload <$> batch) = Some vers ∧ listing_of id <$> vers = Some <$> lists ∧
    edited wanted listed updates lists final ∧ final ≡ₚ wanted.
Proof.
  intros Hs Hver Hid Hl Hw Hnd Hb. unfold advertise_batch in Hb. rewrite Hw in Hb. cbn [c_bind c_ok] in Hb.
  apply c_bind_Ok in Hb as (whole & Hwhole & Hb). apply c_bind_Ok in Hb as (ups & Hups & Hb).
  assert (∀ updates lists final run, updates ≠ [] → edited wanted listed updates lists final → final ≡ₚ wanted →
    sign_updates (E := E) self updates = Ret (Ok run) →
    run ≠ [] ∧ (∃ tip, linked (head self) run tip) ∧
    ∃ updates vers lists final,
      versions_after ver (payload <$> run) = Some vers ∧ listing_of id <$> vers = Some <$> lists ∧
      edited wanted listed updates lists final ∧ final ≡ₚ wanted) as Hrun.
  { intros updates lists final run Hne Hed Hfin Hsign.
    destruct (signed_run _ _ _ _ _ _ _ _ _ _ Hid Hl Hed Hsign) as (Hlen & Hlink & vers & Hvers & Hls).
    split; [intros ->; by destruct updates|]. split; [done|]. by exists updates, vers, lists, final. }
  assert (whole ≠ [] ∧ (∃ tip, linked (head self) whole tip) ∧
    ∃ updates vers lists final,
      versions_after ver (payload <$> whole) = Some vers ∧ listing_of id <$> vers = Some <$> lists ∧
      edited wanted listed updates lists final ∧ final ≡ₚ wanted) as Hall.
  { apply (Hrun [Update_Transports wanted] [wanted] wanted); [done| |done|done].
    econstructor; [done| |constructor]. split; [done|]. intros Hne. destruct wanted as [|v wanted]; [done|].
    exists v. split; apply list_elem_of_here. }
  destruct ups as [[|u us]|]; [by injection Hb as <-| |by injection Hb as <-].
  apply c_bind_Ok in Hb as (edited_run & Hedited & Hb). apply c_bind_Ok in Hb as (eb & _ & Hb).
  apply c_bind_Ok in Hb as (wb & _ & Hb). injection Hb as <-. case_decide; [|done].
  assert (edits listed wanted = Some (u :: us)) as Hedits.
  { unfold transport_edits in Hups. apply c_bind_Ok in Hups as (key & Hkey & Hups). apply reserved_key_Ok in Hkey.
    apply c_bind_Ok in Hups as (path & Hpath & Hups). apply c_bind_Ok in Hups as (v & Hv & Hups).
    pose proof (listing_path_Ok _ _ _ _ Hid Hpath) as Hp.
    pose proof (value_at_spec _ _ key (SubkeyPath_as_ref path) _ Hs Hver) as Hread.
    unfold c_map_err in Hv. destruct (value_at _ _ _ _) as [[v'|]| |]; simplify_eq/=.
    unfold listing_of in Hl. rewrite Hkey in Hl. cbn [mbind option_bind] in Hl.
    rewrite Hp in Hups. cbn [app] in Hups. destruct (bt_get ver key) as [n|]; [|done]. cbn [mbind option_bind] in Hl, Hups.
    destruct (walk _ _) as [[]|]; try done. injection Hl as ->. by injection Hups. }
  destruct (edits_run listed wanted (u :: us) Hnd Hedits) as (lists & final & Hed & Hfin).
  by apply (Hrun (u :: us) lists final).
Qed.

(** The version the listed node stands at. *)
Definition listed_version : Version := default [] (versions (view listed_node) !! listed_d).

Lemma advertise_reaches_wanted_witness : ∃ batch vers lists final,
  advertise_batch listed_core moved_addr = Ret (Ok batch) ∧ length batch = 1 ∧
  versions_after listed_version (payload <$> batch) = Some vers ∧
  listing_of signer_id <$> vers = Some <$> lists ∧
  final ≡ₚ [transport_value its_relay; transport_value new_ip].
Proof.
  pose proof (co_storage _ _ _ (cs_chain _ _ (proj1 listed_sound))) as Hs.
  assert (is_Some (versions (view listed_node) !! listed_d)) as [v Hv] by by_computing.
  assert (versions (view listed_node) !! listed_d = Some listed_version) as Hver
    by (unfold listed_version; rewrite Hv; exact eq_refl).
  assert (PublicKey_id (NodeKeys_public_key (core_keys listed_core)) = Some signer_id) as Hid by by_computing.
  assert (is_Some (listing_of signer_id listed_version)) as [listed Hl] by by_computing.
  assert (is_Some (c_value (advertise_batch listed_core moved_addr))) as [batch Hb] by by_computing.
  assert (length <$> c_value (advertise_batch listed_core moved_addr) = Some 1) as Hlen by by_computing.
  assert (NoDup [transport_value its_relay; transport_value new_ip]) as Hnd
    by (refine (bool_decide_unpack _ _); vm_compute; exact I).
  rewrite Hb in Hlen. apply c_value_eq in Hb.
  destruct (advertise_reaches_wanted listed_core signer_id listed_version listed _ moved_addr batch Hs Hver Hid Hl
    eq_refl Hnd Hb) as (_ & _ & updates & vers & lists & final & Hvers & Hls & _ & Hfin).
  exists batch, vers, lists, final. injection Hlen as Hlen.
  exact (conj Hb (conj Hlen (conj Hvers (conj Hls Hfin)))).
Defined.

(** Where two transports have moved, the listing half way names neither address
    whole: the second is still to come when the first is written over. *)
Example two_moves_half_way :
  edits [Value_Int 1; Value_Int 2] [Value_Int 3; Value_Int 4] =
    Some [Update_Replace 0 (Value_Int 3); Update_Replace 1 (Value_Int 4)] ∧
  apply_update [Value_Int 1; Value_Int 2] (Update_Replace 0 (Value_Int 3)) = Some [Value_Int 3; Value_Int 2].
Proof. split; reflexivity. Qed.

(** ** The pass *)

(** What a node was told before it wrote: it is listed under its own endpoint, at
    another address, and its signature counts. *)
Definition may_advertise `{Externals} `{!IrohEq} {S E : Type} `{Storage S E} (self : Core S) (addr : EndpointAddr) : Prop :=
  ∃ listed id current,
    core_peer_addresses (E := E) self = Ret (Ok listed) ∧
    PublicKey_id (NodeKeys_public_key (core_keys self)) = Some id ∧ bt_get listed id = Some current ∧
    endpoint_addr_eqb current addr = false ∧
    endpoint_id_eqb (endpoint_addr_id current) (endpoint_addr_id addr) = true ∧
    signs_alone (E := E) self = Ret (Ok (Ok ())).

Lemma advertise_plan_cwp `{Externals} `{!IrohEq} {S E : Type} `{StorageSpec S E}
    (Hid : ∀ k, is_Some (Key_id k)) (self : Core S) (addr : EndpointAddr) :
  standing self →
  cwp (advertise_plan (E := E) self addr)
    (λ plan, match plan with
             | inl (Advertised_Written _) => False
             | inl _ => True
             | inr batch => batch ≠ [] ∧ may_advertise (E := E) self addr ∧
                 advertise_batch (E := E) self addr = Ret (Ok batch)
             end)
    (λ _, True).
Proof.
  intros Hst. unfold advertise_plan. apply cwp_bind, cwp_map_err.
  pose proof (core_peer_addresses_answers self Hst) as Hl.
  destruct (core_peer_addresses self) as [[listed|e]| |] eqn:Hlisted; try done. clear Hl.
  destruct (key_id_answers Hid (E' := AdvertiseError E) self) as (id & Hk & Hkey).
  apply cwp_bind. rewrite Hk. unfold cwp at 1, c_ok. destruct (bt_get listed id) as [current|] eqn:Hcur; [|done].
  destruct (endpoint_addr_eqb current addr) eqn:Heq; [done|].
  destruct (endpoint_id_eqb _ _) eqn:Hsame; [|done]. cbn [negb].
  apply cwp_bind, cwp_map_err. pose proof (signs_alone_answers Hid self Hst) as Ha.
  destruct (signs_alone self) as [[[[]|reason]|e]| |] eqn:Halone; try done. clear Ha. unfold cwp at 1.
  apply cwp_bind. pose proof (advertise_batch_answers Hid self addr Hst) as Hb.
  destruct (advertise_batch self addr) as [[batch|e]| |] eqn:Hbatch; [|done..].
  split; [done|]. split; [|done]. by exists listed, id, current.
Qed.

(** C19: a node advertises only where its envelope counts, and only for itself.
    Whatever it finds, [advertise] never panics and ends. It writes only when the
    ledger lists this node, at another address of the endpoint it serves on, and
    its signature alone carries an envelope; what it then says it wrote is the
    last envelope of a stored run, published to the subscribers, with the head at
    the tip of the log. Otherwise nothing has changed, and a failure has changed
    nothing or is a failed insert of that run. *)
Theorem advertise_contract `{Externals} `{!IrohEq} {S E : Type} `{StorageSpec S E}
    (pins : EnvelopeDigest → option Msg) (rank : EnvelopeDigest → nat)
    (Hid : ∀ k, is_Some (Key_id k)) (Hhash : HashOk pins rank)
    (fuel : nat) (addr : EndpointAddr) (self : Core S) :
  let lg self := log (view (core_storage self)) in
  core_sound pins self →
  (∀ batch, advertise_batch (E := E) self addr = Ret (Ok batch) →
    batch_pinned pins batch ∧ 2 * (size (lg self) + length batch) + 1 < fuel) →
  wp (advertise fuel addr) self
    (λ out self', core_sound pins self' ∧ same_node self self' ∧
      match out with
      | Advertised_Written digest =>
          may_advertise (E := E) self addr ∧
          ∃ batch e, advertise_batch (E := E) self addr = Ret (Ok batch) ∧
            last batch = Some e ∧ Envelope_digest e = Ok digest ∧
            stored_from (view (core_storage self)) batch (view (core_storage self')) ∧
            tip (lg self') (chain_root (core_chain self)) (head self') ∧ announced self self'
      | _ => self' = self
      end)
    (λ e self', core_sound pins self' ∧ same_node self self' ∧
      (self' = self ∨ may_advertise (E := E) self addr ∧
        ∃ batch e', e = AdvertiseError_Chain e' ∧ advertise_batch (E := E) self addr = Ret (Ok batch) ∧
          core_fails self batch e' self')).
Proof.
  intros lg Hsound Hpins. assert (same_node self self) as Hsame by done.
  assert (standing self) as Hst by (split; [apply Hsound|apply Hsound]).
  unfold advertise. apply wp_bind, wp_ask. eapply cwp_mono; [by apply advertise_plan_cwp| |].
  2: { intros e _. split; [done|]. split; [done|by left]. }
  intros [out|batch] Hplan; [apply wp_ret; by destruct out|]. destruct Hplan as (Hne & Hmay & Hbatch).
  destruct (Hpins batch Hbatch) as [Hp Hfuel].
  apply wp_bind, wp_ask. unfold last_digest. destruct (last batch) as [e|] eqn:Hlast; [|by apply last_None in Hlast].
  destruct (Envelope_digest e) as [digest|err] eqn:Hd; [|by split; [|split; [|left]]]. unfold cwp, c_ok.
  apply wp_bind, wp_map_err.
  eapply wp_mono; [by apply (core_insert_wp pins rank Hid Hhash fuel batch self)|..].
  - intros ins self' (Hs' & Hn' & Hfrom & Htip & _ & Hann). apply wp_ret.
    split; [done|]. split; [done|]. split; [done|]. by exists batch, e.
  - intros e' self' (Hs' & Hn' & _ & Hfails). split; [done|]. split; [done|]. right.
    split; [done|]. by exists batch, e'.
Qed.

(** The node writes its move, and says so. *)
Lemma advertise_contract_witness : ∃ digest self',
  advertise 10 moved_addr listed_core = Ret (Ok (Advertised_Written digest), self') ∧
  may_advertise (E := Empty_set) listed_core moved_addr ∧ announced listed_core self'.
Proof.
  destruct listed_sound as [Hsound Hsize].
  destruct (runs (advertise (E := Empty_set) 10 moved_addr) listed_core) as (out & self' & Hrun); [by_computing|].
  assert (advertise_batch (E := Empty_set) listed_core moved_addr = Ret (Ok move_batch)) as Hb
    by (apply (c_value_Ok (advertise_batch listed_core moved_addr)); by_computing).
  assert (∀ batch, advertise_batch (E := Empty_set) listed_core moved_addr = Ret (Ok batch) →
    batch_pinned listed_pins batch ∧ 2 * (size (log (view listed_node)) + length batch) + 1 < 10) as Hbatch.
  { intros batch Hbatch. rewrite Hb in Hbatch. apply c_ok_inv in Hbatch as <-. split; [exact move_pinned|].
    rewrite Hsize, move_batch_eq. cbn [length]. lia. }
  pose proof (wp_Ret _ _ _ _ _ _ (advertise_contract listed_pins listed_rank toy_key_id_total listed_hash_ok 10
    moved_addr listed_core Hsound Hbatch) Hrun) as (_ & _ & Hout).
  assert (has_written <$> value_of (advertise (E := Empty_set) 10 moved_addr) listed_core = Some true) as Hw
    by (vm_compute; reflexivity).
  rewrite (value_of_Ret _ _ _ _ Hrun) in Hw. apply Some_inj in Hw.
  destruct (has_written_inv out Hw) as [digest ->].
  destruct Hout as (Hmay & _ & _ & _ & _ & _ & _ & _ & Hann).
  exists digest, self'. exact (conj Hrun (conj Hmay Hann)).
Defined.
