(* ===== verification/PeerLink.v ===== *)
(** * Connections to peers: [crates/lotusd/src/peer_link.rs], and the protocols,
    close reasons and sync loop of [crates/lotusd/src/peer_ingress.rs]

    What a connection carries and what each stream sets going. The sessions'
    tasks are a [JoinSet]: a list, any of which may end next, with the outcome of
    its session or lost to a panic or a cancellation. *)

From S2P Require Import Prelude BTree Text Codec Externals Keys Subkey Msg Envelope Fixtures Locator Sync.
From S2P Require Import Frame Puller Server Chain SyncDriver Contract DriverSpec FrameSpec.

(** ** Protocols *)

(** A byte string literal, its characters ASCII. *)
Definition bytes_of (s : rstring) : list u8 := map (λ c, u8_of_N c) s.

(** [sync::ALPN] and [bootstrap::ALPN]. *)
Definition SYNC_ALPN : list u8 := bytes_of (str "iroh-lotus/sync/1").
Definition BOOTSTRAP_ALPN : list u8 := bytes_of (str "iroh-lotus/bootstrap/1").

(** The protocols a peer may open a connection for. *)
Inductive Protocol : Type :=
  | Protocol_Sync
  | Protocol_Bootstrap.

Definition Protocol_ALL : list Protocol := [Protocol_Sync; Protocol_Bootstrap].

Definition Protocol_alpn (self : Protocol) : list u8 :=
  match self with Protocol_Sync => SYNC_ALPN | Protocol_Bootstrap => BOOTSTRAP_ALPN end.

Definition Protocol_alpns : list (list u8) := map Protocol_alpn Protocol_ALL.

Definition Protocol_from_alpn (alpn : list u8) : option Protocol :=
  List.find (λ p, bool_decide (Protocol_alpn p = alpn)) Protocol_ALL.

(** ** Close reasons *)

(** Why this side closed a connection. *)
Inductive CloseReason : Type :=
  | CloseReason_ShuttingDown
  | CloseReason_Breach
  | CloseReason_Local
  | CloseReason_UnknownProtocol
  | CloseReason_Removed
  | CloseReason_Unlisted.

Definition CloseReason_code (self : CloseReason) : N :=
  match self with
  | CloseReason_ShuttingDown => 1
  | CloseReason_Breach => 2
  | CloseReason_Local => 3
  | CloseReason_UnknownProtocol => 4
  | CloseReason_Removed => 5
  | CloseReason_Unlisted => 6
  end.

Definition CloseReason_message (self : CloseReason) : list u8 :=
  bytes_of match self with
  | CloseReason_ShuttingDown => str "shutting down"
  | CloseReason_Breach => str "protocol breach"
  | CloseReason_Local => str "internal error"
  | CloseReason_UnknownProtocol => str "unknown protocol"
  | CloseReason_Removed => str "removed from cluster"
  | CloseReason_Unlisted => str "not a listed node"
  end.

(** [ControlFlow<CloseReason>]. *)
Inductive Flow : Type :=
  | Flow_Continue
  | Flow_Break (reason : CloseReason).

(** ** Announces *)

(** The most bytes an announce stream may carry. *)
Definition ANNOUNCE_MAX_LEN : nat := 256.

Section link.
Context `{MessageDecode} {IoError ChainError : Type}.
Abbreviation SErr := (SyncError IoError ChainError) (only parsing).

(** What the source says of an announce stream it cannot use, as text. *)
Inductive AnnounceFault : Type :=
  | AnnounceFault_Codec (e : FrameError IoError)
  | AnnounceFault_Ended
  | AnnounceFault_More
  | AnnounceFault_Unexpected (kind : MessageKind).

(** The one frame an announce stream carries. *)
Definition decode_announce (bytes : list u8) : Comp AnnounceFault Announce :=
  match decode bytes with
  | Panic => Panic
  | Diverge => Diverge
  | Ret (Err e, _) => c_err (AnnounceFault_Codec e)
  | Ret (Ok None, _) => c_err AnnounceFault_Ended
  | Ret (Ok (Some message), buf) =>
      if decide (buf = []) then
        match message with
        | Message_Announce announce => c_ok announce
        | other => c_err (AnnounceFault_Unexpected (kind other))
        end
      else c_err AnnounceFault_More
  end.

(** What reading the announce stream to its end yields within the time given: the
    bytes, [ANNOUNCE_MAX_LEN] of them at most; or a failure or silence. *)
Inductive AnnounceRead : Type :=
  | AnnounceRead_Bytes (bytes : list u8)
  | AnnounceRead_Fails
  | AnnounceRead_Quiet.

(** ** Sessions *)

(** How one session on the connection ended. *)
Inductive SessionEnd : Type :=
  | SessionEnd_Served (r : Result SErr ServeOutcome)
  | SessionEnd_Pulled (r : Result SErr PullOutcome)
  | SessionEnd_PullNotOpened.

(** Whether a pull is running, and whether another is owed once it ends. *)
Inductive Pull : Type :=
  | Pull_Idle
  | Pull_Running
  | Pull_RunningAgain.

(** A session's task. *)
Inductive Task : Type :=
  | Task_Serve
  | Task_Pull.

#[local] Instance Task_eq_dec : EqDecision Task.
Proof. solve_decision. Defined.

Record Link := MkLink { sessions : list Task; link_pull_state : Pull }.

Definition link_new : Link := MkLink [] Pull_Idle.

(** Serves the pull the peer opened. *)
Definition link_serve (self : Link) : Link := MkLink (sessions self ++ [Task_Serve]) (link_pull_state self).

Definition spawn_pull (sessions : list Task) : list Task := sessions ++ [Task_Pull].

(** Opens a pull now, or owes one if a pull is already running. *)
Definition link_pull (self : Link) : Link :=
  match link_pull_state self with
  | Pull_Idle => MkLink (spawn_pull (sessions self)) Pull_Running
  | Pull_Running | Pull_RunningAgain => MkLink (sessions self) Pull_RunningAgain
  end.

(** What an announce sets going, beside the head this node stands at, none where
    the server is gone. *)
Definition on_announce (read : AnnounceRead) (ours : option EnvelopeDigest) (self : Link) : Outcome (Link * Flow) :=
  match read with
  | AnnounceRead_Fails | AnnounceRead_Quiet => Ret (self, Flow_Break CloseReason_Breach)
  | AnnounceRead_Bytes bytes =>
      match decode_announce bytes with
      | Panic => Panic
      | Diverge => Diverge
      | Ret (Err _) => Ret (self, Flow_Break CloseReason_Breach)
      | Ret (Ok announced) =>
          match ours with
          | None => Ret (self, Flow_Break CloseReason_ShuttingDown)
          | Some ours =>
              Ret (if decide (announce_head announced = ours) then self else link_pull self, Flow_Continue)
          end
      end
  end.

(** Who a session error blames. *)
Definition close_reason (e : SErr) : CloseReason :=
  match e with
  | SyncError_ServerGone => CloseReason_ShuttingDown
  | SyncError_Answer _ => CloseReason_Local
  | _ => CloseReason_Breach
  end.

(** Whether the connection closes over how a session ended. *)
Definition settle_flow (session : SessionEnd) : Flow :=
  match session with
  | SessionEnd_Served (Ok _) => Flow_Continue
  | SessionEnd_Served (Err SyncError_PeerClosed) => Flow_Continue
  | SessionEnd_Served (Err e) => Flow_Break (close_reason e)
  | SessionEnd_Pulled (Ok _) => Flow_Continue
  | SessionEnd_Pulled (Err e) => Flow_Break (close_reason e)
  | SessionEnd_PullNotOpened => Flow_Continue
  end.

(** Records how a session ended. *)
Definition link_settle (session : SessionEnd) (self : Link) : Link * Flow :=
  let flow := settle_flow session in
  match session with
  | SessionEnd_Served _ => (self, flow)
  | _ =>
      (match link_pull_state self, flow with
       | Pull_RunningAgain, Flow_Continue => MkLink (spawn_pull (sessions self)) Pull_Running
       | _, _ => MkLink (sessions self) Pull_Idle
       end, flow)
  end.

(** A task of the set joined. *)
Definition link_joined (i : nat) (self : Link) : Link := MkLink (delete i (sessions self)) (link_pull_state self).

(** ** The loop of [serve_sync] *)

(** What the [select!] of the loop comes to: a stream pair, an announce, a session
    that ended, a task lost, or the connection gone. *)
Inductive LinkEvent : Type :=
  | LinkEvent_Bi
  | LinkEvent_Uni (read : AnnounceRead) (ours : option EnvelopeDigest)
  | LinkEvent_Session (i : nat) (session : SessionEnd)
  | LinkEvent_Lost (i : nat)
  | LinkEvent_Gone.

(** Which task a session's end is of. *)
Definition task_of (session : SessionEnd) : Task :=
  match session with SessionEnd_Served _ => Task_Serve | _ => Task_Pull end.

(** An event the loop can see. *)
Definition possible (self : Link) (e : LinkEvent) : bool :=
  match e with
  | LinkEvent_Session i session => bool_decide (sessions self !! i = Some (task_of session))
  | LinkEvent_Lost i => bool_decide (is_Some (sessions self !! i))
  | _ => true
  end.

(** How a connection's loop ended: closed by this side, or gone. *)
Inductive Closed : Type :=
  | Closed_By (reason : CloseReason)
  | Closed_Gone.

(** One turn of the loop; a task lost is logged and the loop goes on. *)
Definition serve_sync_turn (e : LinkEvent) (self : Link) : Outcome (Link * option Closed) :=
  let after (r : Link * Flow) :=
    (r.1, match r.2 with Flow_Continue => None | Flow_Break reason => Some (Closed_By reason) end) in
  match e with
  | LinkEvent_Bi => Ret (after (link_serve self, Flow_Continue))
  | LinkEvent_Uni read ours =>
      match on_announce read ours self with
      | Ret r => Ret (after r)
      | Panic => Panic
      | Diverge => Diverge
      end
  | LinkEvent_Session i session => Ret (after (link_settle session (link_joined i self)))
  | LinkEvent_Lost i => Ret (link_joined i self, None)
  | LinkEvent_Gone => Ret (self, Some Closed_Gone)
  end.

(** ** Telling a peer *)

(** Why an announce did not reach the peer; what the connection said is [iroh]'s. *)
Inductive AnnounceError (ConnectionError : Type) : Type :=
  | AnnounceError_Open (e : ConnectionError)
  | AnnounceError_Encode (e : FrameError IoError)
  | AnnounceError_Write (e : IoError)
  | AnnounceError_TimedOut.

(** Tells the peer this node's head: what is written on the stream opened for it,
    none of it where it timed out. *)
Definition link_announce {ConnectionError} (opens : Result ConnectionError ()) (writes : option (Result IoError ()))
    (head : EnvelopeDigest) : Comp (AnnounceError ConnectionError) (list u8) :=
  match opens with
  | Err e => c_err (AnnounceError_Open _ e)
  | Ok _ =>
      match encode_message (Message_Announce (MkAnnounce head)) [] with
      | Panic => Panic
      | Diverge => Diverge
      | Ret (Err e, _) => c_err (AnnounceError_Encode _ e)
      | Ret (Ok _, frame) =>
          match writes with
          | Some (Ok _) => c_ok frame
          | Some (Err e) => c_err (AnnounceError_Write _ e)
          | None => c_err (AnnounceError_TimedOut _)
          end
      end
  end.

(** ** What the loop keeps *)

Definition pulls_running (self : Link) : nat := length (base.filter (eq Task_Pull) (sessions self)).

(** A head this node does not stand at, announced. *)
Definition foreign (e : LinkEvent) : bool :=
  match e with
  | LinkEvent_Uni (AnnounceRead_Bytes bytes) (Some ours) =>
      match decode_announce bytes with
      | Ret (Ok announced) => bool_decide (announce_head announced ≠ ours)
      | _ => false
      end
  | _ => false
  end.

(** The link a turn starts from, the task that ended taken out. *)
Definition joined (e : LinkEvent) (self : Link) : Link :=
  match e with LinkEvent_Session i _ | LinkEvent_Lost i => link_joined i self | _ => self end.

(** A turn that starts a pull. *)
Definition starts (e : LinkEvent) (self self' : Link) : Prop := pulls_running (joined e self) < pulls_running self'.

#[local] Instance starts_dec e self self' : Decision (starts e self self').
Proof. unfold starts. apply _. Defined.

(** A pull lost to a panic. *)
Definition loses_pull (e : LinkEvent) (self : Link) : Prop :=
  match e with LinkEvent_Lost i => sessions self !! i = Some Task_Pull | _ => False end.

(** The links a connection's loop can stand at with no pull lost, and whether a
    head announced since the last pull started is still to be pulled. *)
Inductive link_reach : Link → bool → Prop :=
  | reach_new : link_reach link_new false
  | reach_turn self unmet e self' :
      link_reach self unmet → possible self e = true → ¬ loses_pull e self →
      serve_sync_turn e self = Ret (self', None) →
      link_reach self' (if decide (starts e self self') then false else unmet || foreign e).

Definition pulling (p : Pull) : nat := match p with Pull_Idle => 0 | _ => 1 end.

Lemma pulls_spawn l p : pulls_running (MkLink (spawn_pull l) p) = S (length (base.filter (eq Task_Pull) l)).
Proof using. unfold pulls_running, spawn_pull. simpl. rewrite filter_app, length_app. simpl. lia. Qed.

Lemma pulls_joined i self task :
  sessions self !! i = Some task →
  pulls_running self = (if decide (task = Task_Pull) then 1 else 0) + pulls_running (link_joined i self).
Proof using.
  intros Hi. unfold pulls_running, link_joined. simpl. apply take_drop_middle in Hi as Hs. rewrite delete_take_drop.
  rewrite <-Hs at 1. rewrite !filter_app, !length_app, filter_cons. destruct task; simpl; lia.
Qed.

Lemma decode_announce_total bytes : ∃ r, decode_announce bytes = Ret r.
Proof using.
  unfold decode_announce, decode. destruct (get_prefix bytes) as [prefix|]; [|by eexists].
  destruct (MAX_FRAME_LEN <? _)%N; [by eexists|]. case_decide; [by eexists|].
  destruct (wire_decode _) as [m|]; [|by eexists]. case_decide; [|by eexists]. destruct m; by eexists.
Qed.

(** A turn that leaves the pulls as they were. *)
Lemma reach_same e self self' (unmet : bool) :
  pulls_running self' = pulls_running (joined e self) → pulls_running (joined e self) = pulls_running self →
  link_pull_state self' = link_pull_state self → foreign e = false →
  pulls_running self = pulling (link_pull_state self) → (unmet = true → link_pull_state self = Pull_RunningAgain) →
  pulls_running self' = pulling (link_pull_state self') ∧
  ((if decide (starts e self self') then false else unmet || foreign e) = true → link_pull_state self' = Pull_RunningAgain).
Proof using.
  intros Hs Hj Hst Hf Hn Hu. rewrite Hs, Hj, Hst. split; [done|].
  rewrite decide_False by (unfold starts; lia). by rewrite Hf, orb_false_r.
Qed.

(** A turn that starts one. *)
Lemma reach_spawn e self l (unmet : bool) :
  l = sessions (joined e self) → pulls_running (joined e self) = 0 →
  let self' := MkLink (spawn_pull l) Pull_Running in
  pulls_running self' = pulling (link_pull_state self') ∧
  ((if decide (starts e self self') then false else unmet || foreign e) = true → link_pull_state self' = Pull_RunningAgain).
Proof using.
  intros -> Hj self'. assert (pulls_running self' = 1) as H1.
  { unfold self'. rewrite pulls_spawn. unfold pulls_running in Hj. by rewrite Hj. }
  split; [done|]. rewrite decide_True by (unfold starts; lia). done.
Qed.

Lemma link_reach_ok self unmet :
  link_reach self unmet →
  pulls_running self = pulling (link_pull_state self) ∧ (unmet = true → link_pull_state self = Pull_RunningAgain).
Proof using.
  induction 1 as [|self unmet e self' _ [Hn Hu] Hp Hl Ht]; [done|].
  destruct e as [|read ours|i session|i|]; cbn [serve_sync_turn] in Ht; [| | | |done].
  - injection Ht as <-. apply reach_same; try done. unfold pulls_running, link_serve. simpl.
    rewrite filter_app, length_app. simpl. lia.
  - destruct read as [bytes| |]; cbn [on_announce] in Ht; [|done|done].
    destruct (decode_announce_total bytes) as [r Hr]. rewrite Hr in Ht. destruct r as [a|]; [|done].
    destruct ours as [ours|]; [|done]. case_decide as Heq; injection Ht as <-.
    + apply reach_same; try done. simpl. rewrite Hr. apply bool_decide_eq_false. by intros [].
    + unfold link_pull. destruct (link_pull_state self) eqn:Hst; [by apply reach_spawn|..];
        (split; [exact Hn|done]).
  - simpl in Hp. apply bool_decide_eq_true in Hp. apply pulls_joined in Hp as Hj.
    destruct session as [r|r|]; cbn [task_of] in Hj; cbn [link_settle] in Ht.
    1: { destruct (settle_flow _); [|done]. injection Ht as <-. rewrite decide_False in Hj by done. by apply reach_same. }
    all: rewrite decide_True in Hj by done; destruct (settle_flow _); [|done];
      destruct (link_pull_state self) eqn:Hst; simpl in Hn; [lia|..]; injection Ht as <-; cbn [link_joined link_pull_state] in *;
      rewrite ?Hst; [|by apply reach_spawn; [|simpl; lia]];
      (split; [change (pulls_running (link_joined i self) = 0); lia|]);
      rewrite decide_False by (unfold starts, pulls_running; simpl; lia); rewrite orb_false_r;
      by intros ?%Hu.
  - simpl in Hp, Hl. apply bool_decide_eq_true in Hp as [[] Hi]; [|by destruct Hl]. apply pulls_joined in Hi as Hj.
    injection Ht as <-. rewrite decide_False in Hj by done. by apply reach_same.
Qed.

(** Why this side closes a connection. *)
Definition blames (e : LinkEvent) (reason : CloseReason) : Prop :=
  match e with
  | LinkEvent_Uni (AnnounceRead_Bytes bytes) ours =>
      (∃ fault, decode_announce bytes = c_err fault) ∧ reason = CloseReason_Breach ∨
      ours = None ∧ reason = CloseReason_ShuttingDown
  | LinkEvent_Uni _ _ => reason = CloseReason_Breach
  | LinkEvent_Session _ (SessionEnd_Served r) =>
      ∃ err, r = Err err ∧ err ≠ SyncError_PeerClosed ∧ reason = close_reason err
  | LinkEvent_Session _ (SessionEnd_Pulled r) => ∃ err, r = Err err ∧ reason = close_reason err
  | _ => False
  end.

Lemma serve_sync_turn_total e self : ∃ r, serve_sync_turn e self = Ret r.
Proof using.
  destruct e as [|[bytes| |] ours|i session|i|]; simpl; try by eexists.
  destruct (decode_announce_total bytes) as [[a|f] ->]; [|by eexists]. destruct ours; [by case_decide; eexists|by eexists].
Qed.

Lemma serve_sync_closes e self self' reason :
  serve_sync_turn e self = Ret (self', Some (Closed_By reason)) → blames e reason.
Proof using.
  destruct e as [|[bytes| |] ours|i session|i|]; simpl; try done; [|by intros [= _ <-]..|].
  - destruct (decode_announce_total bytes) as [[a|f] Hd]; rewrite Hd.
    + destruct ours; [by case_decide|]. intros [= _ <-]. by right.
    + intros [= _ <-]. left. split; [by exists f|done].
  - assert (settle_flow session = Flow_Break reason →
      match session with
      | SessionEnd_Served r => ∃ err, r = Err err ∧ err ≠ SyncError_PeerClosed ∧ reason = close_reason err
      | SessionEnd_Pulled r => ∃ err, r = Err err ∧ reason = close_reason err
      | SessionEnd_PullNotOpened => False
      end) as Hflow.
    { destruct session as [[r|err]|[r|err]|]; simpl; try done; [destruct err|]; intros; simplify_eq; by eexists. }
    assert ((link_settle session (link_joined i self)).2 = settle_flow session) as Hs2 by (by destruct session).
    rewrite Hs2. destruct (settle_flow session) as [|reason']; [done|]. intros [= _ ->].
    specialize (Hflow eq_refl). by destruct session.
Qed.

(** A link that says a pull runs where none does. *)
Definition wedged (self : Link) : Prop := link_pull_state self ≠ Pull_Idle ∧ pulls_running self = 0.

Lemma wedged_forever e self self' closed :
  wedged self → possible self e = true → serve_sync_turn e self = Ret (self', closed) → wedged self'.
Proof using.
  intros [Hst Hn] Hp Ht. destruct e as [|read ours|i session|i|]; cbn [serve_sync_turn] in Ht.
  - injection Ht as <- _. split; [done|]. unfold pulls_running in *. simpl. rewrite filter_app, length_app. simpl. lia.
  - destruct read as [bytes| |]; cbn [on_announce] in Ht; [|by injection Ht as <- _..].
    destruct (decode_announce bytes) as [[a|]| |]; [|by injection Ht as <- _|done..].
    destruct ours as [ours|]; [|by injection Ht as <- _]. injection Ht as <- _. case_decide; [done|].
    unfold link_pull. by destruct (link_pull_state self) eqn:Hs.
  - simpl in Hp. apply bool_decide_eq_true in Hp. apply pulls_joined in Hp as Hj.
    destruct session; cbn [task_of] in Hj; rewrite ?decide_True in Hj by done; [|lia..].
    injection Ht as <- _. split; [done|]. simpl. lia.
  - simpl in Hp. apply bool_decide_eq_true in Hp as [task Hi]. apply pulls_joined in Hi as Hj.
    injection Ht as <- _. split; [done|]. lia.
  - by injection Ht as <- _.
Qed.

(** C25: a connection pulls every head it hears of, one pull at a time, until a
    pull is lost. An announce written by one side sets the other pulling exactly
    where the head is not its own. On every link a loop reaches with no pull's task
    lost, a pull runs exactly where the link says so and never two; while a head
    announced since the last pull started is still to be pulled, another pull is
    owed, so an idle link has pulled whatever it heard. Every event is handled, and
    this side closes the connection only over what blames the peer, a failed
    answer, or its own server going away. But a pull whose task panics leaves a
    link that takes it to be running still, and from there no event ever starts a
    pull again. *)
Theorem link_pulls_what_it_hears (self : Link) (unmet : bool) (head ours : EnvelopeDigest) (bytes : list u8) :
  link_reach self unmet → speaks (Message_Announce (MkAnnounce head)) →
  link_announce (ConnectionError := ()) (Ok ()) (Some (Ok ())) head = c_ok bytes →
  on_announce (AnnounceRead_Bytes bytes) (Some ours) self =
    Ret (if decide (head = ours) then self else link_pull self, Flow_Continue) ∧
  pulls_running self = pulling (link_pull_state self) ∧
  (unmet = true → link_pull_state self = Pull_RunningAgain) ∧
  (∀ e, ∃ self' closed, serve_sync_turn e self = Ret (self', closed) ∧
    ∀ reason, closed = Some (Closed_By reason) → blames e reason) ∧
  ∀ e, possible self e = true → loses_pull e self →
    ∃ lost, serve_sync_turn e self = Ret (lost, None) ∧ wedged lost ∧
      ∀ e' lost' closed, possible lost e' = true → serve_sync_turn e' lost = Ret (lost', closed) → wedged lost'.
Proof using.
  intros Hreach [Hfr Hdec] Hann. destruct (link_reach_ok self unmet Hreach) as [Hn Hu]. split_and!; [|done|done| |].
  - unfold link_announce in Hann. destruct (encode_message _ _) as [[[[]|e] frame]| |] eqn:Henc; try done.
    injection Hann as <-. unfold encode_message in Henc. destruct Hfr as (body & len & Hbody & Hlen).
    rewrite Hbody, Hlen in Henc.
    assert (frame = u32_to_be_bytes len ++ body) as -> by (by injection Henc).
    assert (decode_announce (u32_to_be_bytes len ++ body) = c_ok (MkAnnounce head)) as Hd.
    { assert (u32_to_be_bytes len ++ body = frame_bytes (Message_Announce (MkAnnounce head)) ++ []) as ->.
      { unfold frame_bytes. rewrite Hbody, app_nil_r. by apply frame_len_spec in Hlen as [-> _]. }
      unfold decode_announce. rewrite (decode_frame (IoError := IoError) (Message_Announce (MkAnnounce head)) []);
        [|by eexists _, _|done].
      by rewrite decide_True. }
    cbn [on_announce]. rewrite Hd. reflexivity.
  - intros e. destruct (serve_sync_turn_total e self) as [[self' closed] He]. exists self', closed. split; [done|].
    intros reason ->. by eapply serve_sync_closes.
  - intros e Hp Hl. destruct e; try done. eexists. split; [done|]. apply pulls_joined in Hl as Hj.
    rewrite decide_True in Hj by done.
    assert (wedged (link_joined i self)) as Hw.
    { split; [|simpl in *; destruct (link_pull_state self); simpl in Hn; lia].
      intros Hidle. simpl in Hidle. rewrite Hidle in Hn. simpl in Hn. lia. }
    split; [exact Hw|]. intros. by eapply wedged_forever.
Qed.
End link.

(** A peer that announces a genesis this node does not have, and then the same
    again while the pull runs. *)

Definition heard_table : list Message := [Message_Announce (MkAnnounce genesis_d)].

#[local] Instance heard_decode : MessageDecode := decode_in heard_table.

Definition heard_bytes : list u8 := frame_bytes (Message_Announce (MkAnnounce genesis_d)).

Definition our_head : EnvelopeDigest := MkEnvelopeDigest (array_repeat 32 x09).

Abbreviation sample_turn := (serve_sync_turn (IoError := Empty_set) (ChainError := Empty_set)) (only parsing).

Definition heard : LinkEvent (IoError := Empty_set) (ChainError := Empty_set) :=
  LinkEvent_Uni (AnnounceRead_Bytes heard_bytes) (Some our_head).

Lemma heard_foreign : decode_announce (IoError := Empty_set) heard_bytes = c_ok (MkAnnounce genesis_d).
Proof. vm_compute. reflexivity. Qed.

Lemma heard_speaks : speaks (Message_Announce (MkAnnounce genesis_d)).
Proof.
  apply (Forall_inv (l := [])). change (Forall speaks heard_table). apply table_speaks. vm_compute. reflexivity.
Qed.

Lemma heard_not_ours : genesis_d ≠ our_head.
Proof. by_computing. Qed.

Lemma heard_turn (self : Link) : sample_turn heard self = Ret (link_pull self, None).
Proof. unfold heard. cbn [serve_sync_turn on_announce]. rewrite heard_foreign. cbn [c_ok announce_head]. by rewrite decide_False by exact heard_not_ours. Qed.

Lemma link_pulls_what_it_hears_witness :
  on_announce (IoError := Empty_set) (AnnounceRead_Bytes heard_bytes) (Some our_head) (MkLink [Task_Pull] Pull_Running) =
    Ret (MkLink [Task_Pull] Pull_RunningAgain, Flow_Continue) ∧
  ∃ lost, sample_turn (LinkEvent_Lost 0) (MkLink [Task_Pull] Pull_Running) = Ret (lost, None) ∧ wedged lost.
Proof.
  assert (∃ unmet, link_reach (IoError := Empty_set) (ChainError := Empty_set) (MkLink [Task_Pull] Pull_Running) unmet)
    as [unmet Hreach].
  { eexists. eapply (reach_turn link_new false heard); [constructor|done|by intros []|exact (heard_turn link_new)]. }
  assert (link_announce (IoError := Empty_set) (ConnectionError := ()) (Ok ()) (Some (Ok ())) genesis_d = c_ok heard_bytes) as Hann
    by (vm_compute; reflexivity).
  destruct (link_pulls_what_it_hears _ unmet genesis_d our_head heard_bytes Hreach heard_speaks Hann)
    as (Hon & _ & _ & _ & Hlost). split.
  - rewrite (decide_False (P := genesis_d = our_head)) in Hon by exact heard_not_ours. exact Hon.
  - destruct (Hlost (LinkEvent_Lost 0) eq_refl eq_refl) as (lost & Ht & Hw & _). exists lost. exact (conj Ht Hw).
Defined.
