(* ===== verification/PeerEgress.v ===== *)
(** * The peer egress: [crates/lotusd/src/peer_egress.rs]

    The table of peers and the tasks that keep their connections, what a reading
    of the cluster's nodes makes of them, and the loop one task runs. A task's
    cancellation token is a flag beside the task; a task that has ended and been
    joined is out of the set. Durations are nanoseconds. *)

From S2P Require Import Prelude BTree Text Codec Externals Keys Subkey Msg Envelope Value.
From S2P Require Import Storage Addr StateError Ledger Chain Fixtures Change Locator Sync Frame SyncDriver Subscribe Core.
From S2P Require Import Advertise AdvertiseProps PeerLink.

(** ** Backing off *)

Definition SECOND : N := 1000000000.

(** [Duration::MAX], in nanoseconds. *)
Definition duration_max : N := ((2 ^ 64 - 1) * SECOND + 999999999)%N.

Definition BACKOFF_BASE : N := SECOND.
Definition BACKOFF_MAX : N := (60 * SECOND)%N.

(** [u32::saturating_add] and [Duration::saturating_mul]. *)
Definition saturating_add_u32 (a b : N) : N := N.min (a + b) u32_max.
Definition duration_saturating_mul (d n : N) : N := N.min (d * n) duration_max.

(** How long to wait before dial number [attempt + 1]; the shift is a [u32]'s. *)
Definition backoff (attempt : N) : N :=
  let doublings := N.min (attempt - 1) 16 in
  N.min (duration_saturating_mul BACKOFF_BASE (N.shiftl 1 doublings mod 2 ^ 32)) BACKOFF_MAX.

(** Where a peer's connection stands. *)
Inductive PeerState : Type :=
  | PeerState_Dialing (attempt : N)
  | PeerState_Connected
  | PeerState_Backoff (attempt : N).

(** ** One peer's task *)

(** Where [maintain] stands: what it awaits. *)
Inductive Maintain : Type :=
  | Maintain_Dialing (attempt : N)
  | Maintain_Held
  | Maintain_Waiting (attempt : N)
  | Maintain_Returned.

(** What the [await] comes to. *)
Inductive MaintainEvent : Type :=
  | MaintainEvent_Dialled (server_gone : bool)
  | MaintainEvent_DialFailed
  | MaintainEvent_HoldEnded (break : bool)
  | MaintainEvent_Slept
  | MaintainEvent_AddrChanged (gone : bool)
  | MaintainEvent_Cancelled.

(** The state the task publishes as it gets there; connected is said before the
    server is looked for. *)
Definition maintain_state (e : MaintainEvent) (self : Maintain) : option PeerState :=
  match e, self with
  | MaintainEvent_Dialled _, _ => Some PeerState_Connected
  | _, Maintain_Dialing attempt => Some (PeerState_Dialing attempt)
  | _, Maintain_Held => Some PeerState_Connected
  | _, Maintain_Waiting attempt => Some (PeerState_Backoff attempt)
  | _, Maintain_Returned => None
  end.

(** A failed dial and a lost connection wait alike. *)
Definition maintain_wait (attempt : N) : Maintain := Maintain_Waiting (saturating_add_u32 attempt 1).

(** One step of [maintain]; [None] where the event is not one it awaits. *)
Definition maintain_turn (e : MaintainEvent) (self : Maintain) : option Maintain :=
  match self, e with
  | Maintain_Dialing _, MaintainEvent_Dialled true => Some Maintain_Returned
  | Maintain_Dialing _, MaintainEvent_Dialled false => Some Maintain_Held
  | Maintain_Dialing attempt, MaintainEvent_DialFailed => Some (maintain_wait attempt)
  | Maintain_Dialing _, MaintainEvent_Cancelled => Some Maintain_Returned
  | Maintain_Held, MaintainEvent_HoldEnded true => Some Maintain_Returned
  | Maintain_Held, MaintainEvent_HoldEnded false => Some (maintain_wait 0)
  | Maintain_Waiting attempt, MaintainEvent_Slept => Some (Maintain_Dialing attempt)
  | Maintain_Waiting attempt, MaintainEvent_AddrChanged false => Some (Maintain_Dialing attempt)
  | Maintain_Waiting _, MaintainEvent_AddrChanged true => Some Maintain_Returned
  | Maintain_Waiting _, MaintainEvent_Cancelled => Some Maintain_Returned
  | _, _ => None
  end.

Section hold.
Context `{MessageDecode} {IoError ChainError : Type}.

(** What [hold]'s [select!] comes to. The announces it makes are told of, and
    change nothing, whether they reach the peer or not. *)
Inductive HoldEvent : Type :=
  | HoldEvent_Bi (lost : bool)
  | HoldEvent_HeadMoved (gone : bool)
  | HoldEvent_Session (i : nat) (session : SessionEnd (IoError := IoError) (ChainError := ChainError))
  | HoldEvent_Closed
  | HoldEvent_Cancelled.

(** How [hold] ends: the connection gone, or closed by this side. *)
Inductive HoldEnd : Type :=
  | HoldEnd_Lost
  | HoldEnd_Closed (reason : CloseReason).

(** Closed over a session gone wrong: dial again. *)
Definition hold_breaks (self : HoldEnd) : bool :=
  match self with
  | HoldEnd_Lost => false
  | HoldEnd_Closed CloseReason_Breach | HoldEnd_Closed CloseReason_Local => false
  | HoldEnd_Closed _ => true
  end.

Definition hold_turn (e : HoldEvent) (self : Link) : Link * option HoldEnd :=
  let closes (flow : Flow) := match flow with Flow_Continue => None | Flow_Break reason => Some (HoldEnd_Closed reason) end in
  match e with
  | HoldEvent_Bi false => (link_serve self, None)
  | HoldEvent_Bi true => (self, Some HoldEnd_Lost)
  | HoldEvent_HeadMoved false => (self, None)
  | HoldEvent_HeadMoved true => (self, Some (HoldEnd_Closed CloseReason_ShuttingDown))
  | HoldEvent_Session i session =>
      let (self, flow) := link_settle session (link_joined i self) in (self, closes flow)
  | HoldEvent_Closed => (self, Some HoldEnd_Lost)
  | HoldEvent_Cancelled => (self, Some (HoldEnd_Closed CloseReason_Removed))
  end.
End hold.

(** ** The table *)

Section egress.
Context `{Externals} `{!IrohEq} {E : Type}.

(** A peer in the table: the address to dial, and which task is its. *)
Record Peer := MkPeer { peer_addr : EndpointAddr; peer_task : nat }.

Record PeerTask := MkPeerTask { task_node : KeyId; task_cancelled : bool; task_at : Maintain }.

(** The last is the channels the tasks publish their states on, which outlive
    them. *)
Record Egress := MkEgress {
  peer_table : BTreeMap KeyId Peer;
  peer_conn_tasks : gmap nat PeerTask;
  next_task : nat;
  peer_states : gmap nat PeerState;
}.

Definition egress_new : Egress := MkEgress [] ∅ 0 ∅.

(** [CancellationToken::cancel], seen by the task if it still runs. *)
Definition cancel (id : nat) (self : Egress) : Egress :=
  MkEgress (peer_table self)
    (alter (λ t, MkPeerTask (task_node t) true (task_at t)) id (peer_conn_tasks self)) (next_task self) (peer_states self).

(** Starts the task that keeps a node connected, in the table under it. *)
Definition spawn_peer (node : KeyId) (addr : EndpointAddr) (self : Egress) : Egress :=
  MkEgress (bt_insert node (MkPeer addr (next_task self)) (peer_table self))
    (<[next_task self := MkPeerTask node false (Maintain_Dialing 0)]> (peer_conn_tasks self))
    (next_task self + 1) (<[next_task self := PeerState_Dialing 0]> (peer_states self)).

Definition same_endpoint (a b : EndpointAddr) : bool := endpoint_id_eqb (endpoint_addr_id a) (endpoint_addr_id b).

(** One node that is to be in the table. *)
Definition reconcile_one (self : Egress) (na : KeyId * EndpointAddr) : Egress :=
  let (node, addr) := na in
  match bt_get (peer_table self) node with
  | Some peer =>
      if same_endpoint (peer_addr peer) addr then
        if endpoint_addr_eqb (peer_addr peer) addr then self
        else MkEgress (bt_insert node (MkPeer addr (peer_task peer)) (peer_table self))
               (peer_conn_tasks self) (next_task self) (peer_states self)
      else spawn_peer node addr (cancel (peer_task peer) self)
  | None => spawn_peer node addr self
  end.

(** The nodes to dial: the others, at other endpoints than this one. *)
Definition to_dial (own : KeyId) (own_endpoint : EndpointId) (desired : BTreeMap KeyId EndpointAddr)
    : BTreeMap KeyId EndpointAddr :=
  bt_retain (λ node addr, negb (bool_decide (node = own)) && negb (endpoint_id_eqb (endpoint_addr_id addr) own_endpoint))
    desired.

(** A node no longer wanted: its task is told, and leaves the table when it ends. *)
Definition drop_one (self : Egress) (node : KeyId) : Egress :=
  match bt_get (peer_table self) node with
  | Some peer => cancel (peer_task peer) self
  | None => self
  end.

(** Brings the table in line with the ledger's list. *)
Definition reconcile (own : KeyId) (own_endpoint : EndpointId) (desired : BTreeMap KeyId EndpointAddr) (self : Egress)
    : Egress :=
  let desired := to_dial own own_endpoint desired in
  let gone := List.filter (λ node, negb (bt_contains_key desired node)) (bt_keys (peer_table self)) in
  foldl reconcile_one (foldl drop_one self gone) desired.

(** A task joined: its entry goes, unless another took its place. *)
Definition reap (id : nat) (self : Egress) : Egress :=
  match peer_conn_tasks self !! id with
  | None => self
  | Some t =>
      let table := match bt_get (peer_table self) (task_node t) with
                   | Some peer => if decide (peer_task peer = id) then bt_remove (task_node t) (peer_table self)
                                  else peer_table self
                   | None => peer_table self
                   end in
      MkEgress table (delete id (peer_conn_tasks self)) (next_task self) (peer_states self)
  end.

(** A task that panicked, or was aborted: logged, no more. *)
Definition lose (id : nat) (self : Egress) : Egress :=
  MkEgress (peer_table self) (delete id (peer_conn_tasks self)) (next_task self) (peer_states self).

(** A step of one task: only a cancelled one sees its cancellation, and only one
    whose entry is gone sees its address do so. *)
Definition task_turn (id : nat) (e : MaintainEvent) (self : Egress) : option Egress :=
  t ← peer_conn_tasks self !! id;
  at_ ← maintain_turn e (task_at t);
  let sees := match e with
              | MaintainEvent_Cancelled => task_cancelled t
              | MaintainEvent_AddrChanged true =>
                  negb (match bt_get (peer_table self) (task_node t) with
                        | Some peer => bool_decide (peer_task peer = id)
                        | None => false
                        end)
              | _ => true
              end in
  if sees : bool then
    Some (MkEgress (peer_table self) (<[id := MkPeerTask (task_node t) (task_cancelled t) at_]> (peer_conn_tasks self))
            (next_task self)
            (match maintain_state e at_ with Some state => <[id := state]> (peer_states self) | None => peer_states self end))
  else None.

(** One peer as [statuses] reports it. *)
Record PeerStatus := MkPeerStatus { status_node : KeyId; status_addr : EndpointAddr; status_state : PeerState }.

Definition statuses (self : Egress) : list PeerStatus :=
  map (λ np, MkPeerStatus np.1 (peer_addr np.2)
    (default (PeerState_Dialing 0) (peer_states self !! peer_task np.2))) (peer_table self).

(** ** Coalescing reads *)

Record Refresh := MkRefresh { ref_in_flight : bool; ref_again : bool }.

(** A read started, or another noted for once the current one lands. *)
Definition refresh_request (self : Refresh) : bool * Refresh :=
  if ref_in_flight self then (false, MkRefresh true true) else (true, MkRefresh true (ref_again self)).

(** The read landed; the one that was waiting on it is started, if any. *)
Definition refresh_landed (self : Refresh) : bool * Refresh :=
  if ref_again self then refresh_request (MkRefresh false false) else (false, MkRefresh false (ref_again self)).

(** ** The actor *)

Inductive EgressMsg : Type :=
  | EgressMsg_Shutdown
  | EgressMsg_Peers
  | EgressMsg_Desired (desired : BTreeMap KeyId EndpointAddr)
  | EgressMsg_ServerGone
  | EgressMsg_ReadFailed (e : Error E).

(** The branch a turn of the loop takes. *)
Inductive EgressWake : Type :=
  | EgressWake_Cmd (msg : EgressMsg)
  | EgressWake_Nodes (gone : bool)
  | EgressWake_Heads (moved : option EnvelopeDigest)
  | EgressWake_Joined (id : nat)
  | EgressWake_Lost (id : nat).

Record EgressActor := MkEgressActor { ea_egress : Egress; ea_refresh : Refresh; ea_head : EnvelopeDigest }.

(** What a turn does beside: reads the ledger, answers, or stops every task and
    returns. *)
Inductive EgressDeed : Type :=
  | EgressDeed_Read
  | EgressDeed_Statuses (peers : list PeerStatus)
  | EgressDeed_Stop.

(** As [run] starts: the first read is asked for at once. *)
Definition egress_start (head : EnvelopeDigest) : EgressActor * EgressDeed :=
  (MkEgressActor egress_new (refresh_request (MkRefresh false false)).2 head, EgressDeed_Read).

Definition egress_turn (own : KeyId) (own_endpoint : EndpointId) (wake : EgressWake) (self : EgressActor)
    : EgressActor * option EgressDeed :=
  let with_refresh eg (r : bool * Refresh) :=
    (MkEgressActor eg r.2 (ea_head self), if r.1 then Some EgressDeed_Read else None) in
  let with_egress eg := (MkEgressActor eg (ea_refresh self) (ea_head self), None) in
  match wake with
  | EgressWake_Cmd EgressMsg_Shutdown => (self, Some EgressDeed_Stop)
  | EgressWake_Cmd EgressMsg_Peers => (self, Some (EgressDeed_Statuses (statuses (ea_egress self))))
  | EgressWake_Cmd (EgressMsg_Desired desired) =>
      with_refresh (reconcile own own_endpoint desired (ea_egress self)) (refresh_landed (ea_refresh self))
  | EgressWake_Cmd EgressMsg_ServerGone => (self, Some EgressDeed_Stop)
  | EgressWake_Cmd (EgressMsg_ReadFailed _) => with_refresh (ea_egress self) (refresh_landed (ea_refresh self))
  | EgressWake_Nodes false => with_refresh (ea_egress self) (refresh_request (ea_refresh self))
  | EgressWake_Nodes true => (self, Some EgressDeed_Stop)
  | EgressWake_Heads (Some moved) => (MkEgressActor (ea_egress self) (ea_refresh self) moved, None)
  | EgressWake_Heads None => (self, Some EgressDeed_Stop)
  | EgressWake_Joined id => with_egress (reap id (ea_egress self))
  | EgressWake_Lost id => with_egress (lose id (ea_egress self))
  end.

(** ** What the table keeps *)

(** A task that has not been told to stop. *)
Definition runs (self : Egress) (id : nat) (node : KeyId) : Prop :=
  ∃ at_, peer_conn_tasks self !! id = Some (MkPeerTask node false at_).

(** Ids are never used twice, an entry's task is its node's, and every task not
    told to stop is an entry's. *)
Record egress_ok (self : Egress) : Prop := {
  eo_sorted : bt_sorted (peer_table self);
  eo_entry node peer : bt_get (peer_table self) node = Some peer → peer_task peer < next_task self;
  eo_task id t : peer_conn_tasks self !! id = Some t → id < next_task self;
  eo_inj node node' peer peer' :
    bt_get (peer_table self) node = Some peer → bt_get (peer_table self) node' = Some peer' →
    peer_task peer = peer_task peer' → node = node';
  eo_own node peer t :
    bt_get (peer_table self) node = Some peer → peer_conn_tasks self !! peer_task peer = Some t → task_node t = node;
  eo_kept id node : runs self id node → ∃ peer, bt_get (peer_table self) node = Some peer ∧ peer_task peer = id;
}.

Lemma egress_new_ok : egress_ok egress_new.
Proof using. split; simpl; [constructor|done|intros ? ? Hl; by rewrite lookup_empty in Hl|done|done|]. intros id node [at_ Hl]. simpl in Hl. by rewrite lookup_empty in Hl. Qed.

Lemma lookup_cancel id self id' :
  peer_conn_tasks (cancel id self) !! id' =
  if decide (id = id') then (λ t, MkPeerTask (task_node t) true (task_at t)) <$> peer_conn_tasks self !! id
  else peer_conn_tasks self !! id'.
Proof using. unfold cancel. simpl. case_decide as Heq; [subst; apply lookup_alter_eq|by apply lookup_alter_ne]. Qed.

Lemma cancel_ok id self : egress_ok self → egress_ok (cancel id self).
Proof using.
  intros [Hs He Ht Hi Ho Hk]. split; [done|done| |done|..].
  - intros id' t. rewrite lookup_cancel. case_decide as Heq; [subst|by eauto].
    intros Hl. apply fmap_Some in Hl as (t' & Hl & _). by eapply Ht.
  - intros node peer t Hn. rewrite lookup_cancel. case_decide as Heq; [|by eauto].
    intros Hl. apply fmap_Some in Hl as (t' & Hl & ->). subst. simpl. by eapply (Ho node peer).
  - intros id' node [at_ Hl]. rewrite lookup_cancel in Hl. case_decide as Heq; [|apply Hk; by exists at_].
    by apply fmap_Some in Hl as (t' & _ & [=]).
Qed.

Lemma spawn_ok node addr self :
  egress_ok self → (∀ id, ¬ runs self id node) → egress_ok (spawn_peer node addr self).
Proof using.
  intros [Hs He Ht Hi Ho Hk] Hn. split; simpl.
  - by apply sorted_insert.
  - intros node' peer. destruct (decide (node = node')) as [<-|Hne].
    + rewrite bt_get_insert_eq. intros [= <-]. simpl. lia.
    + rewrite bt_get_insert_ne by done. intros ?%He. lia.
  - intros id t [[<- _]|[_ Hl]]%lookup_insert_Some; [lia|]. apply Ht in Hl. lia.
  - intros n1 n2 p1 p2. destruct (decide (node = n1)) as [<-|H1], (decide (node = n2)) as [<-|H2];
      rewrite ?bt_get_insert_eq, ?bt_get_insert_ne by done; [done|..].
    + intros [= <-] Hp2 Heq. simpl in Heq. apply He in Hp2. lia.
    + intros Hp1 [= <-] Heq. simpl in Heq. apply He in Hp1. lia.
    + apply Hi.
  - intros n p t. destruct (decide (node = n)) as [<-|Hne].
    + rewrite bt_get_insert_eq. intros [= <-]. simpl. rewrite lookup_insert_eq. by intros [= <-].
    + rewrite bt_get_insert_ne by done. intros Hp. apply He in Hp as Hlt. rewrite lookup_insert_ne by lia. by apply Ho.
  - intros id n [at_ Hl]. simpl in Hl. apply lookup_insert_Some in Hl as [[<- [= <- _]]|[Hne Hl]].
    + rewrite bt_get_insert_eq. by eexists.
    + destruct (decide (node = n)) as [<-|Hnn]; [by destruct (Hn id); exists at_|].
      rewrite bt_get_insert_ne by done. apply Hk. by exists at_.
Qed.

(** What a step leaves of a node it is not about. *)
Definition untouched (node : KeyId) (self self' : Egress) : Prop :=
  bt_get (peer_table self') node = bt_get (peer_table self) node ∧
  ∀ peer, bt_get (peer_table self) node = Some peer →
    peer_conn_tasks self' !! peer_task peer = peer_conn_tasks self !! peer_task peer.

Lemma untouched_refl node self : untouched node self self.
Proof using. done. Qed.

Lemma untouched_trans node self1 self2 self3 : untouched node self1 self2 → untouched node self2 self3 → untouched node self1 self3.
Proof using.
  intros [Ht1 Hk1] [Ht2 Hk2]. split; [congruence|]. intros peer Hp. rewrite Hk2 by congruence. by apply Hk1.
Qed.

Lemma cancel_untouched node node' peer self :
  egress_ok self → bt_get (peer_table self) node = Some peer → node' ≠ node → untouched node' self (cancel (peer_task peer) self).
Proof using.
  intros Hok Hp Hne. split; [done|]. intros peer' Hp'. rewrite lookup_cancel, decide_False; [done|].
  intros Heq. by apply Hne, (eo_inj _ Hok node' node peer' peer).
Qed.

Lemma spawn_untouched node node' addr self :
  egress_ok self → node' ≠ node → untouched node' self (spawn_peer node addr self).
Proof using.
  intros Hok Hne. split; simpl; [by rewrite bt_get_insert_ne|]. intros peer Hp. apply (eo_entry _ Hok) in Hp.
  by rewrite lookup_insert_ne by lia.
Qed.

Lemma cancelled_stops id node self : ¬ runs (cancel id self) id node.
Proof using. intros [at_ Hl]. rewrite lookup_cancel, decide_True in Hl by done. by apply fmap_Some in Hl as (t & _ & [=]). Qed.

(** Dropping nodes. *)
Lemma drops_spec (gone : list KeyId) self :
  egress_ok self →
  let self' := foldl drop_one self gone in
  egress_ok self' ∧ peer_table self' = peer_table self ∧
  (∀ node, node ∉ gone → untouched node self self') ∧
  ∀ node peer n, node ∈ gone → bt_get (peer_table self) node = Some peer → ¬ runs self' (peer_task peer) n.
Proof using.
  revert self. induction gone as [|node gone IH]; intros self Hok; [split_and!; [done..|by intros ? ? ? ?%not_elem_of_nil]|].
  cbn [foldl]. destruct (bt_get (peer_table self) node) as [peer|] eqn:Hp.
  - assert (drop_one self node = cancel (peer_task peer) self) as -> by (unfold drop_one; by rewrite Hp).
    destruct (IH _ (cancel_ok (peer_task peer) self Hok)) as (Hok' & Htab & Hun & Hst). split_and!; [done|done|..].
    + intros node' [Hne Hni]%not_elem_of_cons. eapply untouched_trans; [by eapply cancel_untouched|by apply Hun].
    + intros node' peer' n Hin Hp'. destruct (decide (node' ∈ gone)) as [Hg|Hg]; [by apply (Hst node' peer')|].
      apply elem_of_cons in Hin as [->|?]; [|done]. assert (peer' = peer) as -> by congruence.
      intros [at_ Hr]. destruct (Hun node Hg) as [_ Hk]. rewrite (Hk peer Hp) in Hr.
      by apply (cancelled_stops (peer_task peer) n self); exists at_.
  - assert (drop_one self node = self) as -> by (unfold drop_one; by rewrite Hp).
    destruct (IH self Hok) as (Hok' & Htab & Hun & Hst). split_and!; [done|done|..].
    + intros node' [_ Hni]%not_elem_of_cons. by apply Hun.
    + intros node' peer' n [->|Hin]%elem_of_cons Hp'; [by rewrite Hp in Hp'|by apply (Hst node' peer')].
Qed.

(** What becomes of a node that is to be in the table. *)
Definition brought (node : KeyId) (addr : EndpointAddr) (self self' : Egress) : Prop :=
  ∃ peer', bt_get (peer_table self') node = Some peer' ∧ peer_addr peer' = addr ∧
  ((∃ peer, bt_get (peer_table self) node = Some peer ∧ same_endpoint (peer_addr peer) addr = true ∧
      peer_task peer' = peer_task peer ∧ peer_conn_tasks self' !! peer_task peer = peer_conn_tasks self !! peer_task peer) ∨
   ((∀ peer, bt_get (peer_table self) node = Some peer → same_endpoint (peer_addr peer) addr = false) ∧
      runs self' (peer_task peer') node)).

Hypothesis Haddr : ∀ a b, endpoint_addr_eqb a b = true → a = b.

Lemma reconcile_one_spec node addr self :
  egress_ok self →
  let self' := reconcile_one self (node, addr) in
  egress_ok self' ∧ brought node addr self self' ∧ ∀ node', node' ≠ node → untouched node' self self'.
Proof using Haddr.
  intros Hok. unfold reconcile_one.
  assert (∀ s, egress_ok s → (∀ id, ¬ runs s id node) →
    (∀ peer, bt_get (peer_table self) node = Some peer → same_endpoint (peer_addr peer) addr = false) →
    egress_ok (spawn_peer node addr s) ∧ brought node addr self (spawn_peer node addr s)) as Hspawn.
  { intros s Hs Hn Hother. split; [by apply spawn_ok|]. eexists. simpl. rewrite bt_get_insert_eq.
    split; [done|]. split; [done|]. right. split; [done|]. exists (Maintain_Dialing 0). simpl. apply lookup_insert_eq. }
  destruct (bt_get (peer_table self) node) as [peer|] eqn:Hp.
  - destruct (same_endpoint (peer_addr peer) addr) eqn:Hsame.
    + destruct (endpoint_addr_eqb (peer_addr peer) addr) eqn:Heq.
      * split; [done|]. split; [|done]. exists peer. split; [done|]. split; [by apply Haddr|]. left. by exists peer.
      * split; [|split].
        -- destruct Hok as [Hs He Ht Hi Ho Hk]. split; simpl; [by apply sorted_insert| |done| | |].
           ++ intros n p. destruct (decide (node = n)) as [<-|Hne]; [|rewrite bt_get_insert_ne by done; apply He].
              rewrite bt_get_insert_eq. intros [= <-]. simpl. by eapply He.
           ++ assert (∀ n p, bt_get (bt_insert node (MkPeer addr (peer_task peer)) (peer_table self)) n = Some p →
                ∃ p', bt_get (peer_table self) n = Some p' ∧ peer_task p' = peer_task p) as Hback.
              { intros n p. destruct (decide (node = n)) as [<-|Hne]; [rewrite bt_get_insert_eq; intros [= <-]; by exists peer|].
                rewrite bt_get_insert_ne by done. by exists p. }
              intros n1 n2 p1 p2 (p1' & H1 & <-)%Hback (p2' & H2 & <-)%Hback. by apply Hi.
           ++ intros n p t. destruct (decide (node = n)) as [<-|Hne]; [|rewrite bt_get_insert_ne by done; apply Ho].
              rewrite bt_get_insert_eq. intros [= <-]. simpl. by apply Ho.
           ++ intros id n Hr. destruct (Hk id n Hr) as (p & Hn & <-). destruct (decide (node = n)) as [<-|Hne].
              ** rewrite bt_get_insert_eq. simplify_eq. by eexists.
              ** rewrite bt_get_insert_ne by done. by exists p.
        -- eexists. simpl. rewrite bt_get_insert_eq. split; [done|]. split; [done|]. left. by exists peer.
        -- intros node' Hne. split; simpl; [by rewrite bt_get_insert_ne|done].
    + destruct (Hspawn (cancel (peer_task peer) self)) as [Hok' Hbr]; [by apply cancel_ok| |by intros ? [= <-]|].
      { intros id Hr. assert (runs (cancel (peer_task peer) self) id node) as Hr' by done.
        destruct (eo_kept _ (cancel_ok (peer_task peer) self Hok) id node Hr) as (p & Hn & <-). simpl in Hn. simplify_eq.
        by apply cancelled_stops in Hr'. }
      split; [done|]. split; [done|]. intros node' Hne.
      eapply untouched_trans; [by eapply cancel_untouched|apply spawn_untouched; [by apply cancel_ok|done]].
  - destruct (Hspawn self) as [Hok' Hbr]; [done| |done|].
    { intros id Hr. destruct (eo_kept _ Hok id node Hr) as (p & Hn & _). by rewrite Hp in Hn. }
    split; [done|]. split; [done|]. intros node' Hne. by apply spawn_untouched.
Qed.

Lemma brought_untouched node addr self s1 s2 : brought node addr self s1 → untouched node s1 s2 → brought node addr self s2.
Proof using.
  intros (p & Hp & Ha & Hc) [Ht Hk]. exists p. split; [by rewrite Ht|]. split; [done|]. specialize (Hk p Hp).
  destruct Hc as [(q & Hq & Hs & Heq & Hl)|[Hno [at_ Hr]]].
  - left. exists q. split_and!; [done..|]. by rewrite <-Heq, Hk, Heq.
  - right. split; [done|]. exists at_. by rewrite Hk.
Qed.

Lemma untouched_brought node addr self s1 s2 : untouched node self s1 → brought node addr s1 s2 → brought node addr self s2.
Proof using.
  intros [Ht Hk] (p & Hp & Ha & Hc). exists p. split; [done|]. split; [done|].
  destruct Hc as [(q & Hq & Hs & Heq & Hl)|[Hno Hr]].
  - left. rewrite Ht in Hq. exists q. split_and!; [done..|]. by rewrite Hl, (Hk q Hq).
  - right. split; [|done]. intros q Hq. apply Hno. by rewrite Ht.
Qed.

Lemma brings_spec (desired : list (KeyId * EndpointAddr)) self :
  NoDup desired.*1 → egress_ok self →
  let self' := foldl reconcile_one self desired in
  egress_ok self' ∧ (∀ node addr, (node, addr) ∈ desired → brought node addr self self') ∧
  ∀ node, node ∉ desired.*1 → untouched node self self'.
Proof using Haddr.
  revert self. induction desired as [|[node addr] desired IH]; intros self Hnd Hok;
    [split_and!; [done|by intros ? ? ?%not_elem_of_nil|done]|].
  apply NoDup_cons in Hnd as [Hni Hnd]. destruct (reconcile_one_spec node addr self Hok) as (Hok1 & Hbr & Hun1).
  destruct (IH _ Hnd Hok1) as (Hok2 & Hall & Hun2). cbn [foldl]. split_and!; [done|..].
  - intros node' addr' [[= -> ->]|Hin]%elem_of_cons; [eapply brought_untouched; [done|by apply Hun2]|].
    eapply untouched_brought; [apply Hun1|by apply Hall]. intros ->. apply Hni. apply list_elem_of_fmap. by exists (node, addr').
  - intros node' [Hne Hni']%not_elem_of_cons. eapply untouched_trans; [by apply Hun1|by apply Hun2].
Qed.

Lemma reconcile_spec own oe desired self :
  egress_ok self → bt_sorted desired →
  let self' := reconcile own oe desired self in
  egress_ok self' ∧ (∀ node addr, bt_get (to_dial own oe desired) node = Some addr → brought node addr self self') ∧
  ∀ node, bt_get (to_dial own oe desired) node = None →
    bt_get (peer_table self') node = bt_get (peer_table self) node ∧
    ∀ peer n, bt_get (peer_table self) node = Some peer → ¬ runs self' (peer_task peer) n.
Proof using Haddr.
  intros Hok Hs. unfold reconcile. set (wanted := to_dial own oe desired).
  assert (bt_sorted wanted) as Hw by (by apply sorted_retain).
  set (gone := List.filter _ _). destruct (drops_spec gone self Hok) as (Hok1 & Htab & Hun1 & Hst).
  destruct (brings_spec wanted (foldl drop_one self gone) (bt_sorted_NoDup _ Hw) Hok1) as (Hok2 & Hall & Hun2).
  assert (∀ node, node ∈ gone ↔ node ∈ bt_keys (peer_table self) ∧ bt_get wanted node = None) as Hgone.
  { intros node. unfold gone. rewrite list_elem_of_In, filter_In, <-list_elem_of_In. apply and_iff_compat_l.
    unfold bt_contains_key. by destruct (bt_get wanted node). }
  split_and!; [done|..].
  - intros node addr Hg. eapply untouched_brought; [apply Hun1; rewrite Hgone, Hg; naive_solver|].
    by apply Hall, bt_get_elem.
  - intros node Hg. assert (untouched node (foldl drop_one self gone) (foldl reconcile_one (foldl drop_one self gone) wanted)) as [Ht Hk].
    { apply Hun2. intros ([node' addr] & -> & He)%list_elem_of_fmap. simpl in *.
      apply (bt_sorted_elem_get _ _ _ Hw) in He. by rewrite He in Hg. }
    rewrite Htab in Ht, Hk. split; [done|]. intros peer n Hp [at_ Hr]. rewrite (Hk peer Hp) in Hr.
    assert (node ∈ gone) as Hin.
    { apply Hgone. split; [|done]. apply list_elem_of_fmap. exists (node, peer). split; [done|by apply bt_get_elem]. }
    apply (Hst node peer n Hin Hp). by exists at_.
Qed.

(** ** What the actor can reach *)

(** What the actor can be woken by: a reading lists each node once, and a task
    joined has returned. *)
Definition wakes (self : EgressActor) (wake : EgressWake) : Prop :=
  match wake with
  | EgressWake_Cmd (EgressMsg_Desired desired) => bt_sorted desired
  | EgressWake_Joined id => task_at <$> peer_conn_tasks (ea_egress self) !! id = Some Maintain_Returned
  | EgressWake_Lost id => is_Some (peer_conn_tasks (ea_egress self) !! id)
  | _ => True
  end.

(** The actor's turns and its tasks' steps, in any order. *)
Inductive egress_reach (own : KeyId) (oe : EndpointId) : EgressActor → Prop :=
  | er_start head : egress_reach own oe (egress_start head).1
  | er_turn wake self : egress_reach own oe self → wakes self wake → egress_reach own oe (egress_turn own oe wake self).1
  | er_task id e self eg :
      egress_reach own oe self → task_turn id e (ea_egress self) = Some eg →
      egress_reach own oe (MkEgressActor eg (ea_refresh self) (ea_head self)).

Lemma task_turn_ok id e self self' : egress_ok self → task_turn id e self = Some self' → egress_ok self'.
Proof using.
  intros [Hs He Ht Hi Ho Hk] Htt. unfold task_turn in Htt.
  apply bind_Some in Htt as (t & Hl & Htt). apply bind_Some in Htt as (at_ & _ & Htt). cbv zeta in Htt.
  destruct (match e with MaintainEvent_Cancelled => _ | _ => _ end); [|done]. injection Htt as <-.
  split; simpl; [done|done| |done|..].
  - intros id' t' [[<- _]|[_ Hl']]%lookup_insert_Some; by eapply Ht.
  - intros node peer t' Hp [[Heq <-]|[_ Hl']]%lookup_insert_Some; simpl; [subst id|]; by eapply (Ho node peer).
  - intros id' node [at' Hl']. simpl in Hl'. apply lookup_insert_Some in Hl' as [[<- [= <- Hc _]]|[_ Hl']]; apply Hk; [|by exists at'].
    exists (task_at t). rewrite Hl. destruct t; simpl in *; by subst.
Qed.

Lemma lose_ok id self : egress_ok self → egress_ok (lose id self).
Proof using.
  intros [Hs He Ht Hi Ho Hk]. split; simpl; [done|done| |done|..].
  - intros id' t' [_ Hl']%lookup_delete_Some. by eapply Ht.
  - intros node peer t' Hp [_ Hl']%lookup_delete_Some. by eapply (Ho node peer).
  - intros id' node [at' Hl']. simpl in Hl'. apply lookup_delete_Some in Hl' as [_ Hl']. apply Hk. by exists at'.
Qed.

Lemma reap_ok id self : egress_ok self → egress_ok (reap id self).
Proof using.
  intros Hok. unfold reap. destruct (peer_conn_tasks self !! id) as [t|] eqn:Hl; [|done].
  pose proof (lose_ok id self Hok) as Hlose. destruct (bt_get (peer_table self) (task_node t)) as [peer|] eqn:Hp; [|exact Hlose].
  case_decide as Heq; [|exact Hlose]. clear Hlose. destruct Hok as [Hs He Ht Hi Ho Hk].
  assert (∀ n p, bt_get (bt_remove (task_node t) (peer_table self)) n = Some p → n ≠ task_node t ∧ bt_get (peer_table self) n = Some p) as Hback.
  { intros n p. destruct (decide (task_node t = n)) as [<-|Hne]; [by rewrite bt_get_remove_eq|]. by rewrite bt_get_remove_ne. }
  split; simpl.
  - by apply sorted_remove.
  - intros n p [_ Hn]%Hback. by eapply He.
  - intros id' t' [_ Hl']%lookup_delete_Some. by eapply Ht.
  - intros n1 n2 p1 p2 [_ H1]%Hback [_ H2]%Hback. by apply Hi.
  - intros n p t' [_ Hn]%Hback [_ Hl']%lookup_delete_Some. by eapply (Ho n p).
  - intros id' n [at' Hl']. simpl in Hl'. apply lookup_delete_Some in Hl' as [Hne Hl'].
    destruct (Hk id' n) as (p & Hn & Hid); [by exists at'|]. exists p. split; [|done].
    rewrite bt_get_remove_ne; [done|]. intros <-. simplify_eq.
Qed.

(** Another read is wanted only while one is in flight. *)
Lemma egress_reach_ok own oe self :
  egress_reach own oe self → egress_ok (ea_egress self) ∧ (ref_again (ea_refresh self) = true → ref_in_flight (ea_refresh self) = true).
Proof using Haddr.
  induction 1 as [head|wake self _ [IH Hag] Hw|id e self eg _ [IH Hag] Ht].
  - split; [apply egress_new_ok|done].
  - destruct self as [eg [fl ag] head]. destruct wake as [[| |d| |e]|[]|[]|id|id]; simpl in *.
    all: unfold refresh_request, refresh_landed; simpl in *.
    all: try (split; [done|]; by destruct fl, ag).
    + split; [by apply reconcile_spec|]. by destruct ag.
    + split; [by apply reap_ok|done].
    + split; [by apply lose_ok|done].
  - split; [by eapply task_turn_ok|done].
Qed.

(** ** What a reading of the list makes of the connections *)

(** A task not told to stop keeps a connection to the node, at the address. *)
Definition keeps_connection (self : Egress) (node : KeyId) (addr : EndpointAddr) : Prop :=
  ∃ peer, bt_get (peer_table self) node = Some peer ∧ peer_addr peer = addr ∧ runs self (peer_task peer) node.

(** An entry for the node at that endpoint whose task was told to stop, or is
    lost, and has not left the table. *)
Definition stale_entry (self : Egress) (node : KeyId) (addr : EndpointAddr) : Prop :=
  ∃ peer, bt_get (peer_table self) node = Some peer ∧ same_endpoint (peer_addr peer) addr = true ∧
    ¬ runs self (peer_task peer) node.

(** C26: a reading of the cluster's list brings the connections in line with it,
    but for entries that outlive their tasks. From any state the actor reaches,
    however its wakes, its tasks' steps and their ends interleave, a reading
    leaves a connection kept to exactly the other nodes listed at other endpoints,
    each at the address listed, but not to one that has a stale entry at that
    endpoint; every task not told to stop is one of these, and a node still listed
    at its endpoint keeps the task it had. A movement of the list always comes to
    a reading started after it: at once, or by the turn that the reading in flight
    lands in. But a stale entry is no reading's to dial: it stays stale, a node
    listed and unreached, until its task is joined, and joining no task takes an
    entry whose own panicked out of the table. *)
Theorem egress_reconciles (own : KeyId) (oe : EndpointId) (desired : BTreeMap KeyId EndpointAddr) (actor : EgressActor) :
  (∀ a, same_endpoint a a = true) → egress_reach own oe actor → bt_sorted desired →
  let self := ea_egress actor in
  let wanted := to_dial own oe desired in
  let reads wake := ((egress_turn own oe wake actor).2 = Some EgressDeed_Read) in
  let after wake := (egress_turn own oe wake actor).1 in
  let self' := ea_egress (after (EgressWake_Cmd (EgressMsg_Desired desired))) in
  (∀ node addr, keeps_connection self' node addr ↔ bt_get wanted node = Some addr ∧ ¬ stale_entry self node addr) ∧
  (∀ id node, runs self' id node → ∃ addr peer, bt_get wanted node = Some addr ∧
     bt_get (peer_table self') node = Some peer ∧ peer_task peer = id) ∧
  (∀ node addr peer, bt_get wanted node = Some addr → bt_get (peer_table self) node = Some peer →
     same_endpoint (peer_addr peer) addr = true →
     ∃ peer', bt_get (peer_table self') node = Some peer' ∧ peer_task peer' = peer_task peer) ∧
  (reads (EgressWake_Nodes false) ∨
   ref_in_flight (ea_refresh actor) = true ∧ ref_again (ea_refresh (after (EgressWake_Nodes false))) = true) ∧
  (ref_again (ea_refresh actor) = true → ref_in_flight (ea_refresh actor) = true ∧
     reads (EgressWake_Cmd (EgressMsg_Desired desired)) ∧ ∀ e, reads (EgressWake_Cmd (EgressMsg_ReadFailed e))) ∧
  (∀ node addr, bt_get wanted node = Some addr → stale_entry self node addr → stale_entry self' node addr) ∧
  ∀ node peer, bt_get (peer_table self) node = Some peer →
    let lost := ea_egress (after (EgressWake_Lost (peer_task peer))) in
    ¬ runs lost (peer_task peer) node ∧ ∀ id, bt_get (peer_table (reap id lost)) node = Some peer.
Proof using Haddr.
  intros Hrefl Hreach Hs self wanted reads after self'. destruct (egress_reach_ok own oe actor Hreach) as [Hok Hag]. fold self in Hok.
  clear Hreach.
  destruct (reconcile_spec own oe desired self Hok Hs) as (Hok' & Hall & Hnone). fold wanted in Hall, Hnone. change (reconcile own oe desired self) with self' in Hok', Hall, Hnone.
  assert (∀ node peer, bt_get (peer_table self') node = Some peer → runs self' (peer_task peer) node → is_Some (bt_get wanted node)) as Hw.
  { intros node peer Hp Hr. destruct (bt_get wanted node) as [a|] eqn:Hw; [done|]. destruct (Hnone node Hw) as [Ht Hnr].
    rewrite Ht in Hp. by destruct (Hnr peer node Hp). }
  split_and!.
  - intros node addr. split.
    + intros (peer & Hp & Ha & Hr). destruct (Hw node peer Hp Hr) as [addr' Hw'].
      destruct (Hall node addr' Hw') as (p' & Hp' & Ha' & Hc). assert (p' = peer) as -> by congruence.
      split; [congruence|]. intros (q & Hq & Hse & Hnr). destruct Hc as [(q' & Hq' & _ & Heq & Hl)|[Hno _]].
      * assert (q' = q) as -> by congruence. apply Hnr. destruct Hr as [at_ Hr]. exists at_. by rewrite <-Hl, <-Heq.
      * rewrite <-Ha, Ha', (Hno q Hq) in Hse. done.
    + intros [Hw' Hns]. destruct (Hall node addr Hw') as (p' & Hp' & Ha' & Hc). exists p'. split; [done|]. split; [done|].
      destruct Hc as [(q & Hq & Hse & Heq & Hl)|[_ Hr]]; [|done].
      destruct (peer_conn_tasks self !! peer_task q) as [[n c at_]|] eqn:Ht.
      * pose proof (eo_own _ Hok node q _ Hq Ht) as Hn. simpl in Hn. subst n. destruct c.
        -- destruct Hns. exists q. split_and!; [done..|]. intros [at' Hr]. by rewrite Ht in Hr.
        -- exists at_. by rewrite Heq, Hl.
      * destruct Hns. exists q. split_and!; [done..|]. intros [at' Hr]. by rewrite Ht in Hr.
  - intros id node Hr. destruct (eo_kept _ Hok' id node Hr) as (peer & Hp & <-).
    destruct (Hw node peer Hp Hr) as [addr Hw']. by exists addr, peer.
  - intros node addr peer Hw' Hp Hse. destruct (Hall node addr Hw') as (p' & Hp' & _ & [(q & Hq & _ & Heq & _)|[Hno _]]).
    + exists p'. split; [done|]. congruence.
    + by rewrite (Hno peer Hp) in Hse.
  - subst reads after. destruct actor as [eg [fl ag] head]. simpl. unfold refresh_request. simpl. destruct fl; [by right|by left].
  - intros Ha. split; [by apply Hag|]. subst reads. destruct actor as [eg [fl ag] head]. simpl in Ha |- *. unfold refresh_landed. simpl.
    by rewrite Ha.
  - intros node addr Hw' (q & Hq & Hse & Hnr). destruct (Hall node addr Hw') as (p' & Hp' & Ha & [(q' & Hq' & _ & Heq & Hl)|[Hno _]]).
    + exists p'. split; [done|]. split; [by rewrite Ha|]. assert (q' = q) as -> by congruence. intros [at_ Hr]. apply Hnr. exists at_. by rewrite <-Hl, <-Heq.
    + by rewrite (Hno q Hq) in Hse.
  - intros node peer Hp lost. change lost with (lose (peer_task peer) self). clear lost.
    split; [intros [at_ Hr]; simpl in Hr; by rewrite lookup_delete_eq in Hr|].
    intros id. unfold reap. destruct (peer_conn_tasks (lose (peer_task peer) self) !! id) as [t|] eqn:Ht; [|done]. cbn [peer_conn_tasks peer_table lose] in Ht |- *.
    apply lookup_delete_Some in Ht as [Hne _]. destruct (decide (task_node t = node)) as [->|Hn].
    + rewrite Hp. by rewrite decide_False.
    + destruct (bt_get (peer_table self) (task_node t)); [|done]. case_decide; [|done]. by rewrite bt_get_remove_ne.
Qed.
End egress.

(** ** How one task waits *)

(** A task over what it awaited, from its start. *)
Definition maintain_run (h : list MaintainEvent) : option Maintain :=
  foldl (λ self e, self ≫= maintain_turn e) (Some (Maintain_Dialing 0)) h.

(** Failures since the connection was last up; losing it is one. *)
Definition failures (h : list MaintainEvent) : N :=
  foldl (λ n e, match e with
                | MaintainEvent_DialFailed => n + 1
                | MaintainEvent_HoldEnded _ => 1
                | _ => n
                end)%N 0%N h.

(** What a task returns over: told to stop, or the node going away. *)
Definition ends_task (e : MaintainEvent) : bool :=
  match e with
  | MaintainEvent_Cancelled | MaintainEvent_Dialled true | MaintainEvent_HoldEnded true
  | MaintainEvent_AddrChanged true => true
  | _ => false
  end.

Lemma backoff_doubling n : backoff (n + 1) = N.min (BACKOFF_BASE * 2 ^ n) BACKOFF_MAX.
Proof.
  unfold backoff. rewrite N.add_sub. cbv zeta. destruct (decide (n < 16)%N) as [Hn|Hn].
  - assert (Forall (λ i, N.min (duration_saturating_mul BACKOFF_BASE (N.shiftl 1 (N.min i 16) mod 2 ^ 32)) BACKOFF_MAX =
      N.min (BACKOFF_BASE * 2 ^ i) BACKOFF_MAX) (N.of_nat <$> seq 0 16)) as Hall.
    { refine (bool_decide_unpack _ _). vm_compute. exact I. }
    rewrite Forall_forall in Hall. apply Hall. apply list_elem_of_fmap. exists (N.to_nat n). split; [lia|].
    apply elem_of_seq. lia.
  - rewrite (N.min_r n 16) by lia.
    transitivity BACKOFF_MAX; [vm_compute; reflexivity|]. symmetry. apply N.min_r.
    transitivity (BACKOFF_BASE * 2 ^ 16)%N; [vm_compute; discriminate|]. apply N.mul_le_mono_l, N.pow_le_mono_r; lia.
Qed.

(** C27: a task backs off by doubling, from one second to one minute, and ends only
    where it is told or the node goes away. Over every history a task can live,
    the attempt it dials or waits at is the number of failures since its
    connection was last up, losing the connection being one, held at the [u32]'s
    bound; the wait is the base doubled for each failure after the first and
    capped, which the shift and the product, whatever the attempt, never get
    wrong by overflowing. *)
Theorem maintain_backs_off (h : list MaintainEvent) (self : Maintain) :
  maintain_run h = Some self →
  match self with
  | Maintain_Dialing attempt => attempt = N.min (failures h) u32_max
  | Maintain_Waiting attempt => (0 < attempt)%N ∧ attempt = N.min (failures h) u32_max ∧
      backoff attempt = N.min (BACKOFF_BASE * 2 ^ (attempt - 1)) BACKOFF_MAX ∧
      (BACKOFF_BASE ≤ backoff attempt ≤ BACKOFF_MAX)%N
  | Maintain_Held => last h = Some (MaintainEvent_Dialled false)
  | Maintain_Returned => ∃ e, last h = Some e ∧ ends_task e = true
  end.
Proof.
  assert (0 < u32_max)%N as Hmax by done.
  assert (∀ n, (0 < n)%N → backoff n = N.min (BACKOFF_BASE * 2 ^ (n - 1)) BACKOFF_MAX ∧ (BACKOFF_BASE ≤ backoff n ≤ BACKOFF_MAX)%N) as Hback.
  { intros n Hn. pose proof (backoff_doubling (n - 1)) as Hb. rewrite N.sub_add in Hb by lia. split; [done|]. rewrite Hb.
    assert (2 ^ (n - 1) ≠ 0)%N as Hpow by (by apply N.pow_nonzero). revert Hpow. generalize (2 ^ (n - 1))%N. intros p Hpow.
    unfold BACKOFF_BASE, BACKOFF_MAX, SECOND. lia. }
  assert (∀ h n, maintain_run h = Some (Maintain_Dialing n) ∨ maintain_run h = Some (Maintain_Waiting n) →
    n = N.min (failures h) u32_max) as Hcount.
  { clear h self. intros h. unfold maintain_run, failures. induction h as [|e h IH] using rev_ind; intros n.
    { intros [[= <-]|[=]]. done. }
    rewrite !foldl_app. cbn [foldl]. destruct (foldl _ (Some _) h) as [[m| |m|]|]; simpl; [..|naive_solver].
    - specialize (IH m (or_introl eq_refl)). destruct e as [[]| |[]| |[]|]; simpl; intros [[=]|[=]].
      unfold saturating_add_u32 in *. lia.
    - destruct e as [[]| |[]| |[]|]; simpl; intros [[=]|[=]]. unfold saturating_add_u32 in *. lia.
    - specialize (IH m (or_intror eq_refl)). destruct e as [[]| |[]| |[]|]; simpl; intros [[= <-]|[=]]; done.
    - by destruct e as [[]| |[]| |[]|]; intros [[=]|[=]]. }
  assert (∀ n, self = Maintain_Waiting n → maintain_run h = Some self → (0 < n)%N) as Hpos.
  { intros n ->. unfold maintain_run. destruct h as [|e h _] using rev_ind; [done|]. rewrite foldl_app. cbn [foldl].
    destruct (foldl _ _ h) as [[m| |m|]|]; simpl; [..|done]; destruct e as [[]| |[]| |[]|]; simpl; try done;
      unfold maintain_wait, saturating_add_u32; intros [= <-]; lia. }
  intros Hr. destruct self as [n| |n|]; [apply Hcount; by left| | |].
  - revert Hr. unfold maintain_run. destruct h as [|e h _] using rev_ind; [done|]. rewrite foldl_app, last_snoc. cbn [foldl].
    destruct (foldl _ _ h) as [[m| |m|]|]; simpl; [..|done]; by destruct e as [[]| |[]| |[]|].
  - specialize (Hpos n eq_refl Hr). split; [done|]. split; [apply Hcount; by right|]. by apply Hback.
  - revert Hr. unfold maintain_run. destruct h as [|e h _] using rev_ind; [done|]. rewrite foldl_app, last_snoc. cbn [foldl].
    intros Hr. exists e. split; [done|]. revert Hr.
    destruct (foldl _ _ h) as [[m| |m|]|]; simpl; [..|done]; by destruct e as [[]| |[]| |[]|].
Qed.

(** Two failures, a connection lost, and another failure. *)
Definition sample_life : list MaintainEvent :=
  [MaintainEvent_DialFailed; MaintainEvent_Slept; MaintainEvent_Dialled false; MaintainEvent_HoldEnded false;
   MaintainEvent_Slept; MaintainEvent_DialFailed].

Lemma maintain_backs_off_witness : maintain_run sample_life = Some (Maintain_Waiting 2) ∧ backoff 2 = (2 * SECOND)%N.
Proof.
  assert (maintain_run sample_life = Some (Maintain_Waiting 2)) as Hr by reflexivity.
  split; [exact Hr|]. exact (proj1 (proj2 (proj2 (maintain_backs_off sample_life _ Hr)))).
Defined.

(** ** A node unlisted and listed again *)

Definition other_node : KeyId := MkKeyId (array_repeat 32 x07).
Definition own_node : KeyId := MkKeyId (array_repeat 32 x08).
Definition other_addr : EndpointAddr := MkToyEndpointAddr (str "m") [].

Definition listing_other : BTreeMap KeyId EndpointAddr := [(other_node, other_addr)].

Definition own_name : EndpointId := str "n".

(** A reading of the list landing. *)
Definition landed_with (desired : BTreeMap KeyId EndpointAddr) (self : EgressActor) : EgressActor :=
  (egress_turn own_node own_name (EgressWake_Cmd (EgressMsg_Desired (E := Empty_set) desired)) self).1.

Definition started : EgressActor := (egress_start (MkEnvelopeDigest (array_repeat 32 x09))).1.

(** Listed, unlisted, and listed again before the task is joined. *)
Definition relisted : EgressActor := landed_with listing_other (landed_with [] (landed_with listing_other started)).

Lemma listing_sorted : bt_sorted listing_other.
Proof. repeat constructor. Qed.

Lemma relisted_reach : egress_reach (E := Empty_set) own_node own_name relisted.
Proof.
  assert (bt_sorted ([] : BTreeMap KeyId EndpointAddr)) by constructor. pose proof listing_sorted.
  unfold relisted, landed_with. repeat (apply er_turn; [|done]). constructor.
Qed.

Lemma toy_addr_law (a b : EndpointAddr) : endpoint_addr_eqb a b = true → a = b.
Proof. destruct a, b. simpl. intros [? ?]%bool_decide_eq_true. simpl in *. by subst. Qed.

Lemma toy_same_endpoint (a : EndpointAddr) : same_endpoint a a = true.
Proof. unfold same_endpoint. simpl. by apply bool_decide_eq_true. Qed.

(** Once its task is joined the node is in no table, though it is listed. *)
Example relisted_dropped :
  bt_get (peer_table (ea_egress relisted)) other_node = Some (MkPeer other_addr 0) ∧
  bt_get (peer_table (reap 0 (ea_egress relisted))) other_node = None.
Proof. split; vm_compute; reflexivity. Qed.

Lemma egress_reconciles_witness :
  keeps_connection (ea_egress (landed_with listing_other started)) other_node other_addr ∧
  ¬ keeps_connection (ea_egress (landed_with listing_other relisted)) other_node other_addr.
Proof.
  assert (bt_get (to_dial own_node own_name listing_other) other_node = Some other_addr) as Hw by (vm_compute; reflexivity).
  split.
  - apply (proj1 (egress_reconciles (E := Empty_set) toy_addr_law own_node own_name listing_other started toy_same_endpoint
      (er_start _ _ _) listing_sorted) other_node other_addr).
    split; [exact Hw|]. intros (peer & Hp & _). discriminate Hp.
  - intros Hk. apply (proj1 (egress_reconciles (E := Empty_set) toy_addr_law own_node own_name listing_other relisted toy_same_endpoint
      relisted_reach listing_sorted) other_node other_addr) in Hk as [_ Hk]. apply Hk.
    exists (MkPeer other_addr 0). split; [exact (proj1 relisted_dropped)|]. split; [exact (toy_same_endpoint other_addr)|].
    intros [at_ Hl].
    assert (task_cancelled <$> peer_conn_tasks (ea_egress relisted) !! 0 = Some true) as Hc by (vm_compute; reflexivity).
    simpl peer_task in Hl. rewrite Hl in Hc. discriminate Hc.
Defined.
