(* ===== verification/Invite.v ===== *)
(** * Invites: [crates/lotusd/src/invite.rs], and the sponsor's book of them in
    [crates/lotusd/src/bootstrap.rs]

    The bearer token and its comparison, the invite and what its expiry is read
    as, and the book a sponsor keeps. An [Instant] is its count of nanoseconds,
    with the bound its [checked_add] has where seconds are an [i64]; a
    [SystemTime] is its milliseconds since the epoch, [None] before it. *)

From S2P Require Import Prelude BTree Text Codec Externals Keys.

Definition VERSION : N := 1.

(** Thirty-two random bytes. *)
Record Token := MkToken { token_bytes : array 32 }.

#[export] Instance Token_eq_dec : EqDecision Token.
Proof. solve_decision. Defined.

(** Whether [other] is this token, comparing every byte. *)
Definition token_matches (self other : Token) : bool :=
  (foldl (λ acc ab, N.lor acc (N.lxor (Byte.to_N ab.1) (Byte.to_N ab.2))) 0
     (zip (as_slice (token_bytes self)) (as_slice (token_bytes other))) =? 0)%N.

Record Invite `{Externals} := MkInvite {
  invite_version : N;
  sponsor : KeyId;
  endpoint : EndpointAddr;
  invite_root : EnvelopeDigest;
  token : Token;
  expires_at_millis : Z;
}.
Arguments MkInvite {_} invite_version sponsor endpoint invite_root token expires_at_millis.

(** A subtraction of [i64]s: a debug build panics on an overflow and a release
    build wraps. *)
Definition sub_i64 (debug : bool) (a b : Z) : Outcome Z :=
  if decide (is_i64 (a - b)) then Ret (a - b)%Z
  else if debug then Panic else Ret ((a - b + 2 ^ 63) mod 2 ^ 64 - 2 ^ 63)%Z.

(** How long until the invite expires, in milliseconds. *)
Definition expires_in `{Externals} (debug : bool) (self : Invite) (now : option N) : Outcome N :=
  let now := match now with
             | Some millis => if decide (is_i64 (Z.of_N millis)) then Z.of_N millis else i64_max
             | None => 0%Z
             end in
  match sub_i64 debug (expires_at_millis self) now with
  | Ret millis => Ret (if decide (0 ≤ millis)%Z then Z.to_N millis else 0%N)
  | Panic => Panic
  | Diverge => Diverge
  end.

(** ** The book *)

(** Nanoseconds; [checked_add] fails past what [i64] seconds hold. *)
Abbreviation Instant := N (only parsing).

Definition instant_max : N := ((2 ^ 63 - 1) * 1000000000 + 999999999)%N.

Definition checked_add_instant (now ttl : N) : option N :=
  if decide (now + ttl ≤ instant_max)%N then Some (now + ttl)%N else None.

Record Pending := MkPending {
  pending_token : Token;
  pending_weight : N;
  expires : N;
  pending_root : EnvelopeDigest;
}.

(** The invites handed out and not yet redeemed. *)
Abbreviation Invites := (list Pending) (only parsing).

Inductive RedeemError : Type :=
  | RedeemError_Unknown
  | RedeemError_Expired.

(** What redeeming a token entitles the joiner to. *)
Record Redeemed := MkRedeemed { redeemed_weight : N }.

Definition prune (now : N) (self : Invites) : Invites :=
  base.filter (λ pending, now < expires pending)%N self.

(** Records a fresh invite. *)
Definition issue (token : Token) (weight ttl now : N) (root : EnvelopeDigest) (self : Invites) : Invites :=
  prune now self ++ [MkPending token weight (default now (checked_add_instant now ttl)) root].

(** The last entry whose token matches: every one is compared. *)
Fixpoint find_token (token : Token) (index : nat) (found : option nat) (pending : Invites) : option nat :=
  match pending with
  | [] => found
  | entry :: pending =>
      find_token token (index + 1) (if token_matches (pending_token entry) token then Some index else found) pending
  end.

(** Consumes the invite a token names; [Vec::remove] panics out of range. *)
Definition redeem (token : Token) (now : N) (self : Invites) : Outcome (Result RedeemError Redeemed * Invites) :=
  match find_token token 0 None self with
  | None => Ret (Err RedeemError_Unknown, prune now self)
  | Some i =>
      match self !! i with
      | None => Panic
      | Some pending =>
          Ret (if decide (expires pending ≤ now)%N then Err RedeemError_Expired
               else Ok (MkRedeemed (pending_weight pending)),
               prune now (delete i self))
      end
  end.

(** The roots outstanding invites promise a joiner. *)
Definition pinned_roots (now : N) (self : Invites) : gset EnvelopeDigest :=
  list_to_set (pending_root <$> base.filter (λ pending, now < expires pending)%N self).
