(* ===== verification/Mainloop.v ===== *)
(** * The mainloop: [crates/lotusd/src/server.rs]

    The task that owns the core, as one function per message it serves, with the
    parts of the control protocol ([crates/lotusd-rpc/src/proto.rs]) its answers
    are spelt in. What a turn reads of the world beside its state is its
    [Surroundings]: both clocks, the draw of a token, and what the actors the
    mainloop owns answer. Durations and [Instant]s are nanoseconds, a
    [SystemTime] the nanoseconds since the epoch, before it or after. *)

From S2P Require Import Prelude BTree Text Codec Externals Keys Subkey Msg Envelope Value.
From S2P Require Import Storage Addr StateError Ledger Chain Change Locator Sync SyncDriver Subscribe.
From S2P Require Import Core CoreSync Compaction Advertise AddrPublish PeerLink PeerEgress Invite.

(** [MAX_INVITE_TTL], a day; [COMPACT_MIN_PRUNE]. *)
Definition MAX_INVITE_TTL : N := (24 * 60 * 60 * SECOND)%N.
Definition COMPACT_MIN_PRUNE : N := 40.

(** ** What the control protocol carries *)

Record RpcRead := MkRpcRead { read_key : NamespaceKey; read_path : option SubkeyPath }.
Record ValueAt := MkValueAt { va_head : EnvelopeDigest; va_value : option Value }.

Inductive QueryKind : Type :=
  | QueryKind_Len
  | QueryKind_Keys.

Record RpcQuery := MkRpcQuery { query_key : NamespaceKey; query_path : option SubkeyPath; query_kind : QueryKind }.

Inductive RpcValueMeta : Type :=
  | RpcValueMeta_Leaf
  | RpcValueMeta_Array (len : N)
  | RpcValueMeta_Map (len : N) (keys : option (list rstring)).

Record Queried := MkQueried { queried_head : EnvelopeDigest; queried_meta : option RpcValueMeta }.

Inductive Shape : Type :=
  | Shape_Leaf
  | Shape_Array
  | Shape_Map.

Record NamespaceEntry := MkNamespaceEntry { ne_key : NamespaceKey; ne_shape : Shape }.
Record NamespaceList := MkNamespaceList { nl_head : EnvelopeDigest; nl_namespaces : list NamespaceEntry }.
Record ChainRange := MkChainRange { cr_root : EnvelopeDigest; cr_head : EnvelopeDigest }.

Inductive WriteOutcome : Type :=
  | WriteOutcome_Extended
  | WriteOutcome_Reorged (from : EnvelopeDigest)
  | WriteOutcome_Unchanged
  | WriteOutcome_Duplicate.

Record Written := MkWritten { written_digest : EnvelopeDigest; written_head : EnvelopeDigest; written_outcome : WriteOutcome }.

(** A [u32] and a [u64]. *)
Record ChainWalk := MkChainWalk { walk_limit : option N; walk_since_millis : option N }.

Inductive EnvelopeSelector : Type :=
  | EnvelopeSelector_Chain (walk : ChainWalk)
  | EnvelopeSelector_Digests (digests : list EnvelopeDigest).

(** A window, as a duration. *)
Definition walk_since (self : ChainWalk) : option N := (λ millis, millis * 1000000)%N <$> walk_since_millis self.

(** ** Writes asked for by a local client *)

Inductive WeakWrite : Type :=
  | WeakWrite_Set (key : NamespaceKey) (path : option SubkeyPath) (value : Value)
  | WeakWrite_Push (key : NamespaceKey) (path : option SubkeyPath) (value : Value)
  | WeakWrite_Delete (key : NamespaceKey) (path : option SubkeyPath)
  | WeakWrite_Increment (key : NamespaceKey) (path : option SubkeyPath) (delta : Z) (min max : option Z)
  | WeakWrite_DeleteMatching (key : NamespaceKey) (path : option SubkeyPath) (predicate : Predicate).

(** The ledger message a write is, chained onto [prev]. *)
Definition weak_message (self : WeakWrite) (prev : EnvelopeDigest) : Msg :=
  let amend key path op := Msg_AmendNamespaceKey (MkAmendNamespaceKey prev key path op) in
  match self with
  | WeakWrite_Set key (Some path) value => Msg_SetNamespaceKey (MkSetNamespaceKey prev key path (Some value))
  | WeakWrite_Set key None value => Msg_SetNamespace (MkSetNamespace prev key (MkNamespace value))
  | WeakWrite_Push key path value => amend key path (AmendOp_AppendEntry value)
  | WeakWrite_Delete key (Some path) => Msg_SetNamespaceKey (MkSetNamespaceKey prev key path None)
  | WeakWrite_Delete key None => Msg_DeleteNamespace (MkDeleteNamespace prev key)
  | WeakWrite_Increment key path delta min max =>
      amend key path (AmendOp_IncrementDecrement (MkIncrementDecrement delta min max))
  | WeakWrite_DeleteMatching key path predicate => amend key path (AmendOp_DeleteMatching predicate)
  end.

(** What an insert did, as the control protocol spells it. *)
Definition insert_outcome (insert : Insert) : WriteOutcome :=
  match insert with
  | Insert_Extended => WriteOutcome_Extended
  | Insert_Reorged from => WriteOutcome_Reorged from
  | Insert_Unchanged => WriteOutcome_Unchanged
  | Insert_Duplicate => WriteOutcome_Duplicate
  end.

Definition shape (kind : NodeKind) : Shape :=
  match kind with
  | NodeKind_Leaf => Shape_Leaf
  | NodeKind_Array => Shape_Array
  | NodeKind_Map => Shape_Map
  end.

(** A map's keys are sent only when asked for; a length always fits a [u64]. *)
Definition value_meta (meta : ValueMeta) (kind : QueryKind) : RpcValueMeta :=
  match meta with
  | ValueMeta_Leaf => RpcValueMeta_Leaf
  | ValueMeta_Array len => RpcValueMeta_Array len
  | ValueMeta_Map keys =>
      RpcValueMeta_Map (N.of_nat (length keys)) (match kind with QueryKind_Keys => Some keys | QueryKind_Len => None end)
  end.

Section mainloop.
Context `{Externals} `{!IrohEq} {S E IoError SysError : Type} `{Storage S E}.

Abbreviation CErr := (CompactError E IoError) (only parsing).
Abbreviation AErr := (AdvertiseError E) (only parsing).
Abbreviation Publishing := (PublishState (E := E)) (only parsing).

(** Why a node could not issue or honour an invite. *)
Inductive InviteError : Type :=
  | InviteError_NoEndpoint
  | InviteError_CannotSignAlone (reason : CannotSignAlone)
  | InviteError_Redeem (e : RedeemError)
  | InviteError_Chain (e : Error E)
  | InviteError_Entropy (e : SysError)
  | InviteError_ServerGone.

(** What a redeemed invite hands the joiner. *)
Record Welcomed := MkWelcomed {
  welcomed_root : Envelope;
  welcomed_state : option FullCheckpoint;
  welcomed_weight : N;
}.

Record Issued := MkIssued { issued_invite : Invite; issued_ttl : N }.

Record Identity := MkIdentity { identity_node : KeyId; identity_endpoint : option EndpointAddr }.

(** The actors the mainloop owns, each by what it answers now, and the address of
    the endpoint they share. *)
Record Peers := MkPeers {
  ingress : option (Result () nat);
  egress : option (Result () (list PeerStatus));
  publisher_ : option (Result () Publishing);
  peers_endpoint : option EndpointAddr;
}.

Definition peers_connections (self : Peers) : Result () nat := default (Ok 0) (ingress self).
Definition peers_statuses (self : Peers) : Result () (list PeerStatus) := default (Ok []) (egress self).
Definition peers_published (self : Peers) : Result () (option Publishing) :=
  match publisher_ self with
  | Some (Ok state) => Ok (Some state)
  | Some (Err e) => Err e
  | None => Ok None
  end.

Record Surroundings := MkSurroundings {
  instant_now : N;
  system_now : Z;
  entropy : Result SysError Token;
  peers : Peers;
}.

Inductive ServerMsg : Type :=
  | ServerMsg_Shutdown
  | ServerMsg_ChainRange
  | ServerMsg_Envelopes (select : EnvelopeSelector)
  | ServerMsg_Insert (envelopes : list Envelope)
  | ServerMsg_SyncAnswer (query : Query)
  | ServerMsg_Subscribe (filter : ChangeFilter)
  | ServerMsg_Contains (digest : EnvelopeDigest)
  | ServerMsg_Watchers
  | ServerMsg_WatchOrphaned (digest : EnvelopeDigest)
  | ServerMsg_PeerConnections
  | ServerMsg_PeerAddresses
  | ServerMsg_Peers
  | ServerMsg_Identity
  | ServerMsg_Read (read : RpcRead)
  | ServerMsg_Query (query : RpcQuery)
  | ServerMsg_Namespaces
  | ServerMsg_WeakWrite (write : WeakWrite)
  | ServerMsg_Compact
  | ServerMsg_CreateInvite (weight ttl : N)
  | ServerMsg_RedeemInvite (token : Token)
  | ServerMsg_Admit (key : Key) (addr : EndpointAddr)
  | ServerMsg_Advertise (addr : EndpointAddr)
  | ServerMsg_Published.

(** What goes down the responder. *)
Inductive Reply : Type :=
  | Reply_ChainRange (range : ChainRange)
  | Reply_Envelopes (r : Result (Error E) (list (EnvelopeDigest * LogEntry)))
  | Reply_Insert (r : Result (Error E) Insert)
  | Reply_SyncAnswer (r : Result (Error E) Answer)
  | Reply_Subscribe (r : Result (Error E) SubscriptionHandle)
  | Reply_Contains (r : Result (Error E) bool)
  | Reply_Watchers (count : nat)
  | Reply_WatchOrphaned (r : Result (Error E) (option SubscriptionHandle))
  | Reply_PeerConnections (r : Result () nat)
  | Reply_PeerAddresses (r : Result (Error E) (BTreeMap KeyId EndpointAddr))
  | Reply_Peers (r : Result () (list PeerStatus))
  | Reply_Identity (r : Result (Error E) Identity)
  | Reply_Read (r : Result (Error E) ValueAt)
  | Reply_Query (r : Result (Error E) Queried)
  | Reply_Namespaces (r : Result (Error E) NamespaceList)
  | Reply_WeakWrite (r : Result (Error E) Written)
  | Reply_Compact (r : Result CErr Compacted)
  | Reply_CreateInvite (r : Result InviteError Issued)
  | Reply_RedeemInvite (r : Result InviteError Welcomed)
  | Reply_Admit (r : Result (AdmitError E) EnvelopeDigest)
  | Reply_Advertise (r : Result AErr Advertised)
  | Reply_Published (r : Result () (option Publishing)).

(** The mainloop's state, and the state directory it writes. *)
Record Mainloop := MkMainloop { ml_core : Core S; ml_dir : StateDir IoError; ml_invites : list Pending }.

Definition with_core (self : Mainloop) (core : Core S) : Mainloop := MkMainloop core (ml_dir self) (ml_invites self).
Definition with_invites (self : Mainloop) (invites : list Pending) : Mainloop :=
  MkMainloop (ml_core self) (ml_dir self) invites.

(** The three ways a message is answered: off the core as it stands, by a call
    that moves it, and by a compaction. *)
Definition responds {X A} (reply : Result X A → Reply) (c : Comp X A) (self : Mainloop) : Outcome (Reply * Mainloop) :=
  match c with
  | Ret r => Ret (reply r, self)
  | Panic => Panic
  | Diverge => Diverge
  end.

Definition moves {X A} (reply : Result X A → Reply) (m : M (Core S) X A) (self : Mainloop) : Outcome (Reply * Mainloop) :=
  match m (ml_core self) with
  | Ret (r, core) => Ret (reply r, with_core self core)
  | Panic => Panic
  | Diverge => Diverge
  end.

Definition compacts {A} (reply : Result CErr Compacted → A) (m : M (Core S * StateDir IoError) CErr Compacted)
    (self : Mainloop) : Outcome (A * Mainloop) :=
  match m (ml_core self, ml_dir self) with
  | Ret (r, (core, dir)) => Ret (reply r, MkMainloop core dir (ml_invites self))
  | Panic => Panic
  | Diverge => Diverge
  end.

(** [StoredAt::ago], over [chrono]'s clock. *)
Variable ago : N → option StoredAt.

(** How many of the newest envelopes are kept; a [NonZeroU32]. *)
Variable keep_envelopes : nat.

(** The bound of the core's loops. *)
Variable fuel : nat.

(** Whatever a selector picks out of the log. *)
Definition read_envelopes (core : Core S) (select : EnvelopeSelector) : Comp (Error E) (list (EnvelopeDigest * LogEntry)) :=
  c_map_err Error_Storage
    (match select with
     | EnvelopeSelector_Chain walk => canonical_chain fuel core (walk_limit walk) (walk_since walk ≫= ago)
     | EnvelopeSelector_Digests digests => core_envelopes core digests
     end).

(** When an invite expires on the wall clock, in milliseconds: [i64::MAX] where
    the clock cannot say. *)
Definition expires_at (system : Z) (ttl : N) : Z :=
  let at_ := (system + Z.of_N ttl)%Z in
  if decide (at_ ≤ Z.of_N instant_max ∧ 0 ≤ at_ ∧ at_ / 1000000 ≤ i64_max)%Z then (at_ / 1000000)%Z else i64_max.

(** Issues an invite, where this node serves peers and signs alone. *)
Definition create_invite (world : Surroundings) (weight ttl : N) (self : Mainloop)
    : Outcome (Result InviteError Issued * Mainloop) :=
  match peers_endpoint (peers world) with
  | None => Ret (Err InviteError_NoEndpoint, self)
  | Some endpoint =>
      match signs_alone (ml_core self) with
      | Panic => Panic
      | Diverge => Diverge
      | Ret (Err e) => Ret (Err (InviteError_Chain e), self)
      | Ret (Ok (Err reason)) => Ret (Err (InviteError_CannotSignAlone reason), self)
      | Ret (Ok (Ok _)) =>
          let ttl := N.min ttl MAX_INVITE_TTL in
          match entropy world with
          | Err e => Ret (Err (InviteError_Entropy e), self)
          | Ok token =>
              let root := core_oldest (ml_core self) in
              let invites := issue token weight ttl (instant_now world) root (ml_invites self) in
              match Core_key_id (E' := Error E) (ml_core self) with
              | Ret (Ok id) =>
                  Ret (Ok (MkIssued (MkInvite VERSION id endpoint root token (expires_at (system_now world) ttl)) ttl),
                       with_invites self invites)
              | Ret (Err e) => Ret (Err (InviteError_Chain e), with_invites self invites)
              | Panic => Panic
              | Diverge => Diverge
              end
          end
      end
  end.

(** Consumes an invite, and reads what its joiner is owed. *)
Definition redeem_invite (world : Surroundings) (token : Token) (self : Mainloop)
    : Outcome (Result InviteError Welcomed * Mainloop) :=
  match redeem token (instant_now world) (ml_invites self) with
  | Panic => Panic
  | Diverge => Diverge
  | Ret (Err e, invites) => Ret (Err (InviteError_Redeem e), with_invites self invites)
  | Ret (Ok redeemed, invites) =>
      let self := with_invites self invites in
      match welcome_root (ml_core self) with
      | Ret (Ok (root, state)) => Ret (Ok (MkWelcomed root state (redeemed_weight redeemed)), self)
      | Ret (Err e) => Ret (Err (InviteError_Chain e), self)
      | Panic => Panic
      | Diverge => Diverge
      end
  end.

(** A pass, over whatever outstanding invites promise. *)
Definition compaction (min_prune now : N) (invites : list Pending) : M (Core S * StateDir IoError) CErr Compacted :=
  core_compact (λ secs, ago (secs * SECOND)%N) fuel keep_envelopes min_prune (pinned_roots now invites).

(** Routes one message to the handler for it; [None] is a shutdown. *)
Definition handle_message (world : Surroundings) (msg : ServerMsg) (self : Mainloop)
    : Outcome (option Reply * Mainloop) :=
  let core := ml_core self in
  let answered (o : Outcome (Reply * Mainloop)) :=
    match o with Ret (reply, self) => Ret (Some reply, self) | Panic => Panic | Diverge => Diverge end in
  match msg with
  | ServerMsg_Shutdown => Ret (None, self)
  | ServerMsg_ChainRange => Ret (Some (Reply_ChainRange (MkChainRange (core_oldest core) (head core))), self)
  | ServerMsg_Envelopes select => answered (responds Reply_Envelopes (read_envelopes core select) self)
  | ServerMsg_Insert envelopes => answered (moves Reply_Insert (core_insert fuel envelopes) self)
  | ServerMsg_SyncAnswer query =>
      answered (responds Reply_SyncAnswer (c_map_err Error_Storage (sync_answer fuel core query)) self)
  | ServerMsg_Subscribe filter => answered (moves Reply_Subscribe (subscribe filter) self)
  | ServerMsg_Contains digest => answered (responds Reply_Contains (core_contains fuel core digest) self)
  | ServerMsg_Watchers => Ret (Some (Reply_Watchers (count (core_subscriptions core))), self)
  | ServerMsg_WatchOrphaned digest => answered (moves Reply_WatchOrphaned (watch_orphaned fuel digest) self)
  | ServerMsg_PeerConnections => Ret (Some (Reply_PeerConnections (peers_connections (peers world))), self)
  | ServerMsg_PeerAddresses => answered (responds Reply_PeerAddresses (core_peer_addresses core) self)
  | ServerMsg_Peers => Ret (Some (Reply_Peers (peers_statuses (peers world))), self)
  | ServerMsg_Identity =>
      answered (responds Reply_Identity
        (let? node := Core_key_id core in c_ok (MkIdentity node (peers_endpoint (peers world)))) self)
  | ServerMsg_Read read =>
      answered (responds Reply_Read
        (c_map_err Error_Storage
          (let? hv := core_read core (read_key read) (read_path read) in c_ok (MkValueAt hv.1 hv.2))) self)
  | ServerMsg_Query query =>
      answered (responds Reply_Query
        (c_map_err Error_Storage
          (let? hm := core_meta core (query_key query) (query_path query) in
           c_ok (MkQueried hm.1 ((λ meta, value_meta meta (query_kind query)) <$> hm.2)))) self)
  | ServerMsg_Namespaces =>
      answered (responds Reply_Namespaces
        (c_map_err Error_Storage
          (let? hl := core_namespaces core in
           c_ok (MkNamespaceList hl.1 (map (λ kk, MkNamespaceEntry kk.1 (shape kk.2)) hl.2)))) self)
  | ServerMsg_WeakWrite write =>
      answered (moves Reply_WeakWrite
        (let! di := sign_write fuel (weak_message write) in
         λ core, Ret (Ok (MkWritten di.1 (head core) (insert_outcome di.2)), core)) self)
  | ServerMsg_Compact => answered (compacts Reply_Compact (compaction 1 (instant_now world) (ml_invites self)) self)
  | ServerMsg_CreateInvite weight ttl =>
      match create_invite world weight ttl self with
      | Ret (r, self) => Ret (Some (Reply_CreateInvite r), self)
      | Panic => Panic
      | Diverge => Diverge
      end
  | ServerMsg_RedeemInvite token =>
      match redeem_invite world token self with
      | Ret (r, self) => Ret (Some (Reply_RedeemInvite r), self)
      | Panic => Panic
      | Diverge => Diverge
      end
  | ServerMsg_Admit key addr => answered (moves Reply_Admit (core_admits fuel key addr) self)
  | ServerMsg_Advertise addr => answered (moves Reply_Advertise (advertise fuel addr) self)
  | ServerMsg_Published => Ret (Some (Reply_Published (peers_published (peers world))), self)
  end.

(** What wakes the loop: a message, the last handle dropped, a client to be served
    on a task of its own, or the compaction's timer. *)
Inductive MainEvent : Type :=
  | MainEvent_Message (msg : ServerMsg)
  | MainEvent_Dropped
  | MainEvent_Accepted
  | MainEvent_Tick.

(** One turn; [None] where the loop returns. *)
Definition mainloop_turn (world : Surroundings) (event : MainEvent) (self : Mainloop)
    : Outcome (option (option Reply) * Mainloop) :=
  match event with
  | MainEvent_Message msg =>
      match handle_message world msg self with
      | Ret (Some reply, self) => Ret (Some (Some reply), self)
      | Ret (None, self) => Ret (None, self)
      | Panic => Panic
      | Diverge => Diverge
      end
  | MainEvent_Dropped => Ret (None, self)
  | MainEvent_Accepted => Ret (Some None, self)
  | MainEvent_Tick =>
      compacts (λ _, Some None) (compaction COMPACT_MIN_PRUNE (instant_now world) (ml_invites self)) self
  end.
End mainloop.
