(* ===== verification/InviteProps.v ===== *)
(** * Invites' properties

    The book honours exactly the invites outstanding, each once, and a token is
    told from another by all its bytes. *)

From S2P Require Import Prelude BTree Text Codec Externals Keys Fixtures Invite.

(** ** Tokens *)

Lemma lor_fold (l : list (u8 * u8)) acc :
  foldl (λ acc ab, N.lor acc (N.lxor (Byte.to_N ab.1) (Byte.to_N ab.2))) acc l = 0%N ↔
  acc = 0%N ∧ Forall (λ ab : u8 * u8, ab.1 = ab.2) l.
Proof.
  revert acc. induction l as [|[a b] l IH]; intros acc; cbn [foldl]; [by split; [|intros []]|].
  rewrite IH, N.lor_eq_0_iff, N.lxor_eq_0_iff, Forall_cons. cbn [fst snd].
  assert (Byte.to_N a = Byte.to_N b ↔ a = b) as ->; [|naive_solver].
  split; [|by intros ->]. intros Hab. by rewrite <-(u8_of_to_N a), Hab, u8_of_to_N.
Qed.

Lemma zip_same {A} (l k : list A) : length l = length k → Forall (λ ab : A * A, ab.1 = ab.2) (zip l k) ↔ l = k.
Proof.
  revert k. induction l as [|a l IH]; intros [|b k] Hlen; try done.
  cbn [zip_with]. rewrite Forall_cons, IH by (simpl in Hlen; lia). simpl. naive_solver.
Qed.

Lemma token_matches_eq (a b : Token) : token_matches a b = true ↔ a = b.
Proof.
  unfold token_matches. rewrite N.eqb_eq, lor_fold, zip_same by (by rewrite !array_length).
  destruct a as [a], b as [b]. cbn [token_bytes]. split; [|by intros [= ->]].
  intros [_ Hab]. f_equal. by apply dsig_eq.
Qed.

(** ** The book *)

Lemma filter_all {A} (P : A → Prop) `{∀ x, Decision (P x)} (l : list A) :
  (∀ x, x ∈ l → P x) → base.filter P l = l.
Proof.
  induction l as [|x l IH]; intros Hall; [done|]. rewrite filter_cons, decide_True by (apply Hall; left).
  f_equal. apply IH. intros y Hy. apply Hall. by right.
Qed.

Lemma filter_comm {A} (P Q : A → Prop) `{∀ x, Decision (P x), ∀ x, Decision (Q x)} (l : list A) :
  base.filter P (base.filter Q l) = base.filter Q (base.filter P l).
Proof. rewrite !list_filter_filter. apply list_filter_iff. naive_solver. Qed.

Lemma find_token_spec t index found book :
  NoDup (pending_token <$> book) →
  match find_token t index found book with
  | None => found = None ∧ t ∉ pending_token <$> book
  | Some i => (found = Some i ∧ t ∉ pending_token <$> book) ∨
      ∃ j p, i = index + j ∧ book !! j = Some p ∧ pending_token p = t
  end.
Proof.
  revert index found. induction book as [|p book IH]; intros index found Hnd; cbn [find_token fmap list_fmap].
  { destruct found; [by left; split; [|apply not_elem_of_nil]|by split; [|apply not_elem_of_nil]]. }
  apply NoDup_cons in Hnd as [Hp Hnd].
  destruct (token_matches (pending_token p) t) eqn:Hm.
  - apply token_matches_eq in Hm as Ht. specialize (IH (index + 1) (Some index) Hnd).
    destruct (find_token _ _ _ _) as [i|]; [|by destruct IH]. right.
    destruct IH as [[[= <-] _]|(j & q & -> & Hj & Hq)]; [by exists 0, p; split_and!; [lia|..]|].
    exfalso. apply Hp. rewrite Ht, <-Hq. apply list_elem_of_fmap. exists q. split; [done|]. by eapply list_elem_of_lookup_2.
  - assert (t ≠ pending_token p) as Hne by (intros ->; by rewrite (proj2 (token_matches_eq _ _) eq_refl) in Hm).
    specialize (IH (index + 1) found Hnd). destruct (find_token _ _ _ _) as [i|].
    + destruct IH as [[-> Hn]|(j & q & -> & Hj & Hq)]; [left; split; [done|by apply not_elem_of_cons]|right].
      exists (S j), q. split_and!; [lia|done|done].
    + destruct IH as [-> Hn]. split; [done|by apply not_elem_of_cons].
Qed.

Lemma delete_token i p (book : Invites) :
  NoDup (pending_token <$> book) → book !! i = Some p →
  delete i book = base.filter (λ q, pending_token q ≠ pending_token p) book.
Proof.
  revert i. induction book as [|q book IH]; intros [|i] Hnd Hi; try done;
    cbn [fmap list_fmap] in Hnd; apply NoDup_cons in Hnd as [Hq Hnd].
  - injection Hi as ->. cbn [delete list_delete]. rewrite filter_cons, decide_False by (intros Hn; by apply Hn).
    clear IH. induction book as [|q book IH]; [done|]. cbn [fmap list_fmap] in Hq, Hnd.
    apply not_elem_of_cons in Hq as [Hne Hq]. apply NoDup_cons in Hnd as [_ Hnd].
    rewrite filter_cons, decide_True by done. f_equal. by apply IH.
  - cbn [delete list_delete]. rewrite filter_cons, decide_True.
    + f_equal. by apply IH.
    + intros Heq. apply Hq. rewrite Heq. apply list_elem_of_fmap. exists p. split; [done|]. by eapply list_elem_of_lookup_2.
Qed.

(** What a redeem does to a book, and says. *)
Lemma redeem_spec t now book :
  NoDup (pending_token <$> book) →
  ∃ r, redeem t now book = Ret (r, prune now (base.filter (λ q, pending_token q ≠ t) book)) ∧
    ∀ w, r = Ok (MkRedeemed w) ↔
      ∃ p, p ∈ book ∧ pending_token p = t ∧ (now < expires p)%N ∧ pending_weight p = w.
Proof.
  intros Hnd. unfold redeem. pose proof (find_token_spec t 0 None book Hnd) as Hfind.
  destruct (find_token _ _ _ _) as [i|].
  - destruct Hfind as [[? _]|(j & p & -> & Hj & <-)]; [done|]. rewrite Nat.add_0_l, Hj.
    rewrite (delete_token j p) by done. eexists. split; [done|]. intros w.
    assert (∀ q, q ∈ book → pending_token q = pending_token p → q = p) as Huniq.
    { intros q [k Hk]%list_elem_of_lookup_1 Heq.
      assert (k = j) as ->; [|by simplify_eq]. eapply (NoDup_lookup _ _ _ _ Hnd); [|by rewrite list_lookup_fmap, Hj].
      by rewrite list_lookup_fmap, Hk, <-Heq. }
    case_decide as He.
    + split; [done|]. intros (q & Hq & Ht & Hlt & _). apply Huniq in Hq as ->; [lia|done].
    + split; [intros [= <-]; exists p; split_and!; [by eapply list_elem_of_lookup_2|done|lia|done]|].
      intros (q & Hq & Ht & _ & <-). by apply Huniq in Hq as ->.
  - destruct Hfind as [_ Hn]. exists (Err RedeemError_Unknown). split.
    + do 3 f_equal. symmetry. apply filter_all. intros q Hq Heq. apply Hn. rewrite <-Heq.
      apply list_elem_of_fmap. by exists q.
    + intros w. split; [done|]. intros (p & Hp & <- & _). exfalso. apply Hn. apply list_elem_of_fmap. by exists p.
Qed.

(** What happens to a book, each at the reading of its clock. *)
Inductive BookEvent : Type :=
  | Ev_Issue (token : Token) (weight ttl now : N) (root : EnvelopeDigest)
  | Ev_Redeem (token : Token) (now : N).

Definition event_time (e : BookEvent) : N :=
  match e with Ev_Issue _ _ _ now _ => now | Ev_Redeem _ now => now end.

Definition book_event (book : Outcome Invites) (e : BookEvent) : Outcome Invites :=
  match book with
  | Ret book =>
      match e with
      | Ev_Issue token weight ttl now root => Ret (issue token weight ttl now root book)
      | Ev_Redeem token now =>
          match redeem token now book with
          | Ret (_, book) => Ret book
          | Panic => Panic
          | Diverge => Diverge
          end
      end
  | other => other
  end.

(** The book a history leaves. *)
Definition run_book (h : list BookEvent) : Outcome Invites := foldl book_event (Ret []) h.

(** The invites issued and not redeemed since, expired or not. *)
Definition live_event (live : list Pending) (e : BookEvent) : list Pending :=
  match e with
  | Ev_Issue token weight ttl now root =>
      live ++ [MkPending token weight (default now (checked_add_instant now ttl)) root]
  | Ev_Redeem token _ => base.filter (λ p, pending_token p ≠ token) live
  end.

Definition live (h : list BookEvent) : list Pending := foldl live_event [] h.

Definition issued (h : list BookEvent) : list Token :=
  omap (λ e, match e with Ev_Issue token _ _ _ _ => Some token | Ev_Redeem _ _ => None end) h.

(** No two invites share a token, and the clock does not run backwards. *)
Definition history_ok (h : list BookEvent) : Prop :=
  NoDup (issued h) ∧ StronglySorted N.le (event_time <$> h).

(** The book is what is live, but for what has expired. *)
Record book_ok (h : list BookEvent) (book : list Pending) : Prop := {
  bk_honours now : Forall (λ e, event_time e ≤ now)%N h → prune now book = prune now (live h);
  bk_tokens : NoDup (pending_token <$> book);
  bk_issued p : p ∈ live h → pending_token p ∈ issued h;
  bk_live p : p ∈ book → p ∈ live h;
}.

Lemma elem_of_prune now p l : p ∈ prune now l ↔ p ∈ l ∧ (now < expires p)%N.
Proof. unfold prune. rewrite list_elem_of_filter. naive_solver. Qed.

Lemma prune_prune now later l : (now ≤ later)%N → prune later (prune now l) = prune later l.
Proof. intros Hle. unfold prune. rewrite list_filter_filter. apply list_filter_iff. intros p. split; [naive_solver|]. intros Hp. split; [done|lia]. Qed.

Lemma NoDup_tokens (P : Pending → Prop) `{∀ p, Decision (P p)} (l : list Pending) :
  NoDup (pending_token <$> l) → NoDup (pending_token <$> base.filter P l).
Proof.
  intros Hnd. eapply sublist_NoDup; [exact Hnd|]. apply fmap_sublist, sublist_filter.
Qed.

Lemma run_book_ok h : history_ok h → ∃ book, run_book h = Ret book ∧ book_ok h book.
Proof.
  unfold run_book, live, history_ok. induction h as [|e h IH] using rev_ind; intros [Hnd Hs].
  { exists []. split; [done|]. split; [done|constructor|set_solver|set_solver]. }
  unfold issued in Hnd. rewrite omap_app in Hnd. rewrite fmap_app in Hs.
  apply NoDup_app in Hnd as (Hnd & Hfresh & _). apply StronglySorted_app in Hs as (Hle & Hs & _).
  destruct (IH (conj Hnd Hs)) as (book & Hrun & Hok). destruct Hok as [Hh Ht Hi Hl].
  assert (∀ now, Forall (λ e', event_time e' ≤ now)%N (h ++ [e]) → Forall (λ e', event_time e' ≤ now)%N h ∧ (event_time e ≤ now)%N) as Hnow.
  { intros now [Hf He]%Forall_app. by apply Forall_cons in He as [He _]. }
  rewrite foldl_app, Hrun. cbn [foldl book_event].
  destruct e as [t w ttl now root|t now].
  - set (p := MkPending t w (default now (checked_add_instant now ttl)) root).
    assert (t ∉ issued h) as Hnew.
    { intros Hin. apply (Hfresh _ Hin). cbn. left. }
    eexists. split; [done|]. unfold issue. split.
    + intros later [Hf He]%Hnow. unfold live. rewrite foldl_app. cbn [foldl live_event].
      unfold prune in *. rewrite !filter_app. f_equal. fold (prune now book). fold (live h). fold (prune later (prune now book)).
      fold (prune later (live h)). rewrite prune_prune by done. by apply Hh.
    + rewrite fmap_app. apply NoDup_app. split_and!; [by apply NoDup_tokens| |apply NoDup_singleton].
      intros x (q & -> & Hq)%list_elem_of_fmap Heq%list_elem_of_singleton. apply Hnew.
      simpl in Heq. rewrite <-Heq.
      apply elem_of_prune in Hq as [Hq _]. apply (Hi q). by apply Hl.
    + intros q. unfold live, issued. rewrite foldl_app, omap_app. cbn [foldl live_event].
      intros [Hq|Hq]%elem_of_app; apply elem_of_app; [left; by apply Hi|right].
      apply list_elem_of_singleton in Hq as ->. cbn. left.
    + intros q [[Hq _]%elem_of_prune|Hq]%elem_of_app; unfold live; rewrite foldl_app; cbn [foldl live_event];
        apply elem_of_app; [left; by apply Hl|by right].
  - destruct (redeem_spec t now book Ht) as (r & -> & _). eexists. split; [done|]. split.
    + intros later [Hf He]%Hnow. rewrite prune_prune by done. unfold live. rewrite foldl_app. cbn [foldl live_event].
      unfold prune. rewrite !(filter_comm _ (λ p, pending_token p ≠ t)). f_equal. by apply Hh.
    + by apply NoDup_tokens, NoDup_tokens.
    + intros q. unfold live, issued. rewrite foldl_app, omap_app, app_nil_r. cbn [foldl live_event].
      intros [_ Hq]%list_elem_of_filter. by apply Hi.
    + intros q [Hq _]%elem_of_prune. apply list_elem_of_filter in Hq as [Hne Hq].
      unfold live. rewrite foldl_app. cbn [foldl live_event]. apply list_elem_of_filter. split; [done|by apply Hl].
Qed.

(** C39: the book honours exactly the invites outstanding, each once. Whatever has
    been issued and redeemed, with no token issued twice and a clock that does
    not run backwards, the book never panics; at any later reading of the clock
    the roots it pins are those of the invites issued, not redeemed since and not
    expired, a token redeems exactly where it names one of these and at its
    weight, and once presented never again. That the book forgets expired entries
    along the way shows nowhere. *)
Theorem invite_book_honours (h : list BookEvent) :
  history_ok h → ∃ book, run_book h = Ret book ∧
  ∀ now t, Forall (λ e, event_time e ≤ now)%N h →
    (∀ root, root ∈ pinned_roots now book ↔
      ∃ p, p ∈ live h ∧ (now < expires p)%N ∧ pending_root p = root) ∧
    ∃ r book', redeem t now book = Ret (r, book') ∧
      (∀ w, r = Ok (MkRedeemed w) ↔
        ∃ p, p ∈ live h ∧ pending_token p = t ∧ (now < expires p)%N ∧ pending_weight p = w) ∧
      ∀ later, ∃ r' book'', redeem t later book' = Ret (r', book'') ∧ ∀ w, r' ≠ Ok (MkRedeemed w).
Proof.
  intros Hh. destruct (run_book_ok h Hh) as (book & Hrun & [Hhon Htok _ _]). exists book. split; [done|].
  intros now t Hnow. pose proof (Hhon now Hnow) as Hsame.
  assert (∀ p, p ∈ book ∧ (now < expires p)%N ↔ p ∈ live h ∧ (now < expires p)%N) as Hel
    by (intros p; by rewrite <-!elem_of_prune, Hsame).
  split.
  - intros root. unfold pinned_roots. fold (prune now book). rewrite Hsame, elem_of_list_to_set, list_elem_of_fmap.
    split; [intros (p & -> & Hp%elem_of_prune)|intros (p & Hp & Hlt & <-)]; exists p; [naive_solver|].
    split; [done|by apply elem_of_prune].
  - destruct (redeem_spec t now book Htok) as (r & Hr & Hok). do 2 eexists. split; [done|]. split.
    + intros w. rewrite Hok. apply exist_proper. intros p. specialize (Hel p). naive_solver.
    + intros later. destruct (redeem_spec t later (prune now (base.filter (λ q, pending_token q ≠ t) book))) as (r' & Hr' & Hok').
      { by apply NoDup_tokens, NoDup_tokens. }
      exists r'. eexists. split; [done|]. intros w Hw. apply Hok' in Hw as (p & [Hp _]%elem_of_prune & Ht & _).
      apply list_elem_of_filter in Hp as [Hne _]. done.
Qed.

(** Two invites, one of them redeemed. *)
Definition token_of (b : u8) : Token := MkToken (array_repeat 32 b).

Definition sample_history : list BookEvent :=
  [Ev_Issue (token_of x01) 3 60 0 genesis_d; Ev_Issue (token_of x02) 1 10 5 genesis_d;
   Ev_Redeem (token_of x02) 7].

Lemma invite_book_honours_witness : ∃ book r book',
  run_book sample_history = Ret book ∧ redeem (token_of x01) 20 book = Ret (r, book') ∧ r = Ok (MkRedeemed 3).
Proof.
  assert (history_ok sample_history) as Hh.
  { split; [refine (bool_decide_unpack _ _); vm_compute; exact I|].
    repeat constructor; refine (bool_decide_unpack _ _); vm_compute; exact I. }
  destruct (invite_book_honours sample_history Hh) as (book & Hrun & Hall).
  destruct (Hall 20%N (token_of x01)) as (_ & r & book' & Hr & Hok & _).
  { repeat constructor; refine (bool_decide_unpack _ _); vm_compute; exact I. }
  exists book, r, book'. split; [exact Hrun|]. split; [exact Hr|]. apply Hok.
  exists (MkPending (token_of x01) 3 60 genesis_d). split; [|split_and!; reflexivity].
  unfold live, sample_history. cbn [foldl live_event app].
  apply list_elem_of_filter. split; [|left].
  refine (bool_decide_unpack _ _). vm_compute. exact I.
Defined.

(** ** Expiry *)

(** How long an invite has left is exact where its expiry is a time since the
    epoch: the milliseconds to go, none once it has passed, whatever the clock.
    The subtraction is not checked: an expiry so far before the epoch that it
    overflows, which a decoded text may carry, is a panic in a debug build and
    in a release build reads as hundreds of millions of years to go. *)
Theorem expires_in_exact `{Externals} (debug : bool) (self : Invite) (now : N) :
  is_i64 (expires_at_millis self) → is_i64 (Z.of_N now) →
  let left := (expires_at_millis self - Z.of_N now)%Z in
  ((0 ≤ expires_at_millis self)%Z → expires_in debug self (Some now) = Ret (Z.to_N (Z.max 0 left))) ∧
  ((left < i64_min)%Z → expires_in debug self (Some now) = (if debug then Panic else Ret (Z.to_N (left + 2 ^ 64))) ∧
    (0 < left + 2 ^ 64)%Z).
Proof.
  intros He Hn left. unfold expires_in. rewrite (decide_True _ _ Hn). unfold sub_i64. fold left.
  unfold is_i64, i64_min, i64_max in *. split.
  - intros Hpos. rewrite decide_True by lia. case_decide; f_equal; lia.
  - intros Hover. rewrite decide_False by lia. split; [|lia]. destruct debug; [done|].
    assert ((left + 2 ^ 63) mod 2 ^ 64 = left + 2 ^ 63 + 2 ^ 64)%Z as ->.
    { symmetry. apply (Z.mod_unique_pos _ _ (-1)); lia. }
    rewrite decide_True by lia. f_equal. lia.
Qed.

Definition sample_invite (expires : Z) : Invite :=
  MkInvite 1 (MkKeyId (array_repeat 32 x07)) (MkToyEndpointAddr (str "n") []) genesis_d (token_of x01) expires.

Lemma expires_in_exact_witness :
  expires_in true (sample_invite 2500) (Some 1000%N) = Ret 1500%N ∧
  expires_in false (sample_invite i64_min) (Some 1000%N) = Ret (Z.to_N (i64_min - 1000 + 2 ^ 64)).
Proof.
  assert (∀ z, (i64_min <=? z)%Z && (z <=? i64_max)%Z = true → is_i64 z) as Hi.
  { intros z [Hl%Z.leb_le Hu%Z.leb_le]%andb_true_iff. exact (conj Hl Hu). }
  split.
  - exact (proj1 (expires_in_exact true (sample_invite 2500) 1000 (Hi 2500%Z eq_refl) (Hi 1000%Z eq_refl))
      ltac:(vm_compute; discriminate)).
  - exact (proj1 (proj2 (expires_in_exact false (sample_invite i64_min) 1000 (Hi i64_min eq_refl) (Hi 1000%Z eq_refl))
      ltac:(vm_compute; reflexivity))).
Defined.
