(* ===== verification/MainloopProps.v ===== *)
(** * The mainloop's properties

    A node with an invite outstanding stays rooted where the invite says, whatever
    the mainloop serves: nothing below the root is ever logged, and a compaction
    cuts nowhere past a pinned root. *)

From S2P Require Import Prelude BTree Text Codec Externals Keys Subkey Msg Envelope Value.
From S2P Require Import Storage Mem Addr StateError Ledger LedgerSpec LedgerProps Chain ChainSpec ChainStore.
From S2P Require Import ChainInsert ChainCompact Change ChangeSpec ChangeWalk Fixtures ChainFixtures.
From S2P Require Import Locator Sync SyncDriver Subscribe Core CoreSync CorePath CoreSpec CoreSession CoreFixtures.
From S2P Require Import Compaction CompactionProps Advertise AdvertiseSpec AdvertiseProps.
From S2P Require Import AddrPublish PeerLink PeerEgress Invite InviteProps Mainloop.

(** ** What lies below a root *)

(** The messages' own order: each after the one it is chained onto. *)
Definition precedes (pins : EnvelopeDigest → option Msg) : EnvelopeDigest → EnvelopeDigest → Prop :=
  rtc (λ p d, ∃ m, pins d = Some m ∧ Msg_prev_digest m = Some p).

Section below.
Context `{Externals} (pins : EnvelopeDigest → option Msg) (rank : EnvelopeDigest → nat).
Hypothesis Hhash : HashOk pins rank.

Lemma precedes_rank a b : precedes pins a b → a = b ∨ rank a < rank b.
Proof using Hhash.
  induction 1 as [x|x y z (m & Hm & Hp) _ IH]; [by left|]. right.
  pose proof (rank_prev _ _ Hhash y m x Hm Hp). destruct IH as [->|?]; lia.
Qed.

Lemma ancestor_precedes root st a b : chain_inv pins root st → ancestor (log st) a b → precedes pins a b.
Proof using.
  intros Hinv. apply rtc_subrel. intros p d (e & He & Hp).
  destruct (inv_pinned _ _ _ Hinv d e He) as [_ Hd]. by exists (payload e).
Qed.

(** Every held version descends from the root. *)
Lemma held_above root st d : chain_inv pins root st → is_Some (versions st !! d) → precedes pins root d.
Proof using Hhash.
  intros Hinv. remember (rank d) as n eqn:Hn. revert d Hn.
  induction (lt_wf n) as [n _ IH]; intros d -> Hheld. destruct (decide (d = root)) as [->|Hne]; [apply rtc_refl|].
  destruct (inv_born _ _ _ Hinv d Hne Hheld) as (m & p & Hm & Hp). destruct Hheld as [v Hv].
  destruct (inv_derived _ _ _ Hinv d m p v Hne Hm Hp Hv) as (vp & _ & Hvp & _).
  eapply rtc_r; [apply (IH (rank p)); [by eapply rank_prev|done|by eexists]|]. by exists m.
Qed.

(** Nothing logged comes strictly before the root. *)
Definition bottom (root : EnvelopeDigest) (st : Store) : Prop :=
  ∀ x, is_Some (log st !! x) → precedes pins x root → x = root.

Lemma bottom_stored root st run st1 st' :
  bottom root st → chain_inv pins root st' → batch_pinned pins run → stored_from st run st1 → extends st1 st' →
  bottom root st1.
Proof using Hhash.
  intros Hb Hinv Hpins Hfrom Hext x [e Hx] Hpre. destruct (log st !! x) as [e0|] eqn:Hx0; [apply Hb; by eauto|].
  destruct (sf_new _ _ _ Hfrom x e Hx Hx0) as (e1 & status & p & ver & He1 & Hd & -> & Hp & Hver & _).
  assert (is_Some (versions st' !! p)) as Hheld by (eapply extends_held; [done|by eexists]).
  apply (held_above root st' p Hinv) in Hheld. apply precedes_rank in Hheld. apply precedes_rank in Hpre.
  pose proof (rank_prev _ _ Hhash x _ p (Hpins e1 x He1 Hd) Hp) as Hlt.
  destruct Hpre as [?|?]; [done|]. destruct Hheld as [<-|?]; lia.
Qed.

Lemma bottom_sub root st st' : bottom root st → log st' ⊆ log st → bottom root st'.
Proof using. intros Hb Hsub x [e He]. apply Hb. exists e. by eapply lookup_weaken. Qed.
End below.

Lemma bt_key_held {K V} `{OrdLaws K} (m : BTreeMap K V) k : k ∈ bt_keys m → is_Some (bt_get m k).
Proof.
  induction m as [|[k' v] m IH]; [by intros ?%not_elem_of_nil|]. intros [->|Hin]%elem_of_cons; simpl.
  - rewrite (proj2 (cmp_eq_iff k' k') eq_refl). by eexists.
  - destruct (cmp k k'); [by eexists|by apply IH..].
Qed.

(** A cut is made only once every pinned entry has been passed. *)
Lemma choose_cut_passes path keep cutoff entries index unseen pinned cut n :
  drop index path = entries → unseen = pinned ∖ list_to_set (take index path).*1 →
  choose_cut_loop path keep cutoff entries index unseen = Ret (Some (cut, n)) →
  ∃ k y, path !! k = Some y ∧ pinned ⊆ list_to_set (take k path).*1.
Proof.
  revert index unseen. induction entries as [|[digest stored_at] entries IH]; intros index unseen Hdrop Hun; [done|].
  assert (path !! index = Some (digest, stored_at)) as Hix by (by rewrite <-(Nat.add_0_r index), <-lookup_drop, Hdrop).
  cbn [choose_cut_loop]. destruct (_ || _ || _ || _) eqn:Hc.
  - apply IH; [by rewrite <-drop_drop, Hdrop|]. rewrite Nat.add_1_r, (take_S_r _ _ _ Hix), fmap_app, list_to_set_app_L, Hun.
    cbn [fmap list_fmap fst list_to_set foldr]. apply set_eq. intros x. set_unfold. naive_solver.
  - intros _. exists index, (digest, stored_at). split; [done|].
    apply orb_false_iff in Hc as [Hc _]. apply orb_false_iff in Hc as [Hc _]. apply orb_false_iff in Hc as [Hp He].
    apply bool_decide_eq_false in Hp. apply negb_false_iff, bool_decide_eq_true in He. rewrite Hun in Hp, He.
    intros q Hq. destruct (decide (q ∈ (list_to_set (take index path).*1 : gset EnvelopeDigest))) as [?|Hn]; [done|exfalso].
    destruct (decide (q = digest)) as [->|Hne]; [apply Hp; by apply elem_of_difference|].
    apply (not_elem_of_empty (C := gset EnvelopeDigest) q). rewrite <-He. rewrite !elem_of_difference, elem_of_singleton. done.
Qed.

(** ** A node standing at a root *)

Section node.
Context `{Externals} `{!IrohEq} {S E : Type} `{StorageSpec S E}.
Variables (pins : EnvelopeDigest → option Msg) (rank : EnvelopeDigest → nat).
Hypothesis Hid : ∀ k, is_Some (Key_id k).
Hypothesis Hhash : HashOk pins rank.
Implicit Types (self : Core S).

Abbreviation lg self := (log (view (core_storage self))) (only parsing).

(** In order, rooted where its oldest envelope is, with that envelope in the log,
    its version held, and nothing before it. *)
Record rooted (root : EnvelopeDigest) (ver : Version) self : Prop := {
  ro_sound : core_sound pins self;
  ro_root : chain_root (core_chain self) = root;
  ro_oldest : core_oldest self = root;
  ro_logged : is_Some (lg self !! root);
  ro_version : versions (view (core_storage self)) !! root = Some ver;
  ro_bottom : bottom pins root (view (core_storage self));
}.

Lemma rooted_same root ver self self' :
  rooted root ver self → core_chain self' = core_chain self → core_storage self' = core_storage self →
  core_oldest self' = core_oldest self → rooted root ver self'.
Proof using.
  intros [Hs Hr Ho Hl Hv Hb] Hc Hst Hold. split; rewrite ?Hc, ?Hst, ?Hold; try done. by eapply sound_same.
Qed.

(** What a run the chain refuses leaves of the log. *)
Lemma failed_rooted root ver self run e cs :
  rooted root ver self → batch_pinned pins run → chain_ok pins cs.1 cs.2 → chain_root cs.1 = chain_root (core_chain self) →
  insert_fails (core_chain self) (core_storage self) run e cs.1 cs.2 → rooted root ver (with_chain self cs).
Proof using Hhash.
  intros [Hs Hr Ho Hl Hver Hb] Hpins Hok Hroot Hfails.
  destruct (sound_failed pins rank Hhash self run e cs Hs Hok Hroot Hfails) as (Hs' & _ & _).
  destruct Hfails as (Hext & prefix & rest & s1 & -> & He & Hcases).
  assert (batch_pinned pins prefix) as Hpre by (intros x d Hx; apply Hpins; apply elem_of_app; by left).
  assert (chain_inv pins root (view cs.2)) as Hinv by (rewrite <-Hr, <-Hroot; apply Hok).
  assert (∀ s1, stored_from (view (core_storage self)) prefix (view s1) →
    extends (view s1) (view cs.2) → bottom pins root (view s1) ∧ is_Some (log (view s1) !! root)) as Hs1.
  { intros s2 Hfrom He2. split; [by eapply bottom_stored|]. destruct Hl as [e0 He0]. exists e0.
    eapply lookup_weaken; [done|apply Hfrom]. }
  assert (bottom pins root (view cs.2) ∧ is_Some (log (view cs.2) !! root)) as [Hb' Hl'].
  { destruct Hcases as [(Huntil & Hlog & _)|(_ & Hw & Hstored)].
    { apply (Hs1 cs.2); [by eapply (fails_stored (core_chain self))|apply extends_refl]. }
    assert (stored_from (view (core_storage self)) prefix (view s1)) as Hfrom
      by (by destruct Hstored as [[? _]|(e0 & ? & _)]).
    destruct (Hs1 s1 Hfrom He) as [Hb1 Hl1].
    destruct Hw as [[Hlog _]|(at_ & d & err & _ & _ & Hnone & Hlog & _)].
    - unfold bottom. by rewrite Hlog.
    - split; [eapply bottom_sub; [done|]; rewrite Hlog; apply delete_subseteq|]. rewrite Hlog, lookup_delete_ne; [done|].
      intros ->. destruct (co_root _ _ _ Hok) as [v Hv]. rewrite Hroot, Hr in Hv. congruence. }
  split; [done|by rewrite <-Hr, <-Hroot|done|done|by eapply lookup_weaken|done].
Qed.

Lemma core_insert_rooted root ver (fuel : nat) (run : list Envelope) self :
  rooted root ver self → batch_pinned pins run → 2 * (size (lg self) + length run) + 1 < fuel →
  wp (core_insert fuel run) self
    (λ _ self', rooted root ver self' ∧ core_keys self' = core_keys self ∧ size (lg self') ≤ size (lg self) + length run)
    (λ _ self', rooted root ver self' ∧ core_keys self' = core_keys self).
Proof using Hid Hhash.
  intros Hro Hpins Hfuel. pose proof Hro as [Hsound Hr Ho Hl Hver Hb]. pose proof Hsound as [Hok Hheld Hanc]. unfold core_insert.
  apply wp_bind, wp_catch, wp_on_chain.
  eapply wp_mono; [apply (insert_batch_wp pins rank Hid Hhash fuel run _ _ Hok Hpins); lia|..].
  - intros ins cs (Hok' & Hroot & Hfrom & Hheld' & Htip & Hreads). pose proof (stored_from_size _ _ _ Hfrom).
    assert (rooted root ver (with_chain self cs)) as Hro'.
    { split; [|by rewrite <-Hr, <-Hroot|done|destruct Hl as [e0 He0]; exists e0; eapply lookup_weaken; [done|apply Hfrom]|eapply lookup_weaken; [done|apply Hfrom]|].
      - split; [done|done|]. simpl. rewrite Hroot. apply winner_ancestor, Htip.
      - eapply (bottom_stored pins rank Hhash root _ run _ (view cs.2)); [done| |done|done|apply extends_refl].
        rewrite <-Hr, <-Hroot. apply Hok'. }
    apply (publish_wp pins rank Hhash fuel self (with_chain self cs) (Ok ins)); [apply Hro'|simpl; lia|done| | |].
    + simpl. rewrite Hroot. eapply ancestor_grows; [apply Hfrom|done].
    + intros self' Hc Hst Hold Hk _. rewrite Hst, Hk. split_and!; [by eapply rooted_same|done|done].
    + intros x Hne. by split.
  - intros e cs (Hok' & Hroot & Hfails).
    destruct (sound_failed pins rank Hhash self run e cs Hsound Hok' Hroot Hfails) as (Hsound' & Hsize & Hold).
    pose proof (failed_rooted root ver self run e cs Hro Hpins Hok' Hroot Hfails) as Hro'.
    apply (publish_wp pins rank Hhash fuel self (with_chain self cs) (Err e)); [done|simpl; lia|done| | |].
    + simpl. by rewrite Hroot.
    + intros self' Hc Hst Ho' Hk _. rewrite Hk. split; [by eapply rooted_same|done].
    + intros x Hne. by split.
Qed.
(** ** The core's writes *)

(** The digest the envelope signed over [build] gets is pinned. *)
Definition signs_pinned self (build : EnvelopeDigest → Msg) : Prop :=
  ∀ e, NodeKeys_sign (E := E) (core_keys self) (Envelope_new (build (head self))) = Ret (Ok e) → batch_pinned pins [e].

Abbreviation still root ver self := (λ _ self', rooted root ver self' ∧ core_keys self' = core_keys self) (only parsing).

Lemma sign_write_rooted root ver (fuel : nat) build self :
  rooted root ver self → signs_pinned self build → 2 * (size (lg self) + 1) + 1 < fuel →
  wp (sign_write fuel build) self
    (λ _ self', rooted root ver self' ∧ core_keys self' = core_keys self ∧ size (lg self') ≤ size (lg self) + 1)
    (still root ver self).
Proof using Hid Hhash.
  intros Hro Hpin Hfuel. unfold sign_write. apply wp_bind, wp_ask.
  pose proof (sign_answers (E := E) Hid self (Envelope_new (build (head self)))) as Hs.
  destruct (NodeKeys_sign _ _) as [[e|e]| |] eqn:Hsign; cbn [cwp] in Hs |- *; [|by split|done..].
  apply wp_bind, wp_ask. destruct (Envelope_digest e) as [d|]; cbn [cwp c_ok c_err]; [|by split].
  apply wp_bind. eapply wp_mono; [apply (core_insert_rooted root ver fuel [e] self Hro); [by apply Hpin|simpl; lia]|..].
  - intros ins self' Hk. by apply wp_ret.
  - done.
Qed.

Lemma write_entry_rooted root ver (fuel : nat) name id value self :
  name ≠ [] → rooted root ver self → (∀ build, admit_entry name id value = Some build → signs_pinned self build) →
  2 * (size (lg self) + 1) + 1 < fuel →
  wp (write_entry fuel name id value) self
    (λ _ self', rooted root ver self' ∧ core_keys self' = core_keys self ∧ size (lg self') ≤ size (lg self) + 1)
    (still root ver self).
Proof using Hid Hhash.
  intros Hname Hro Hpin Hfuel. unfold write_entry. apply wp_bind, wp_ask.
  destruct (NamespaceKey_try_new_Some name Hname) as (key & Hk & _).
  assert (∃ build, admit_entry name id value = Some build) as [build Hb].
  { unfold admit_entry. rewrite Hk. by eexists. }
  rewrite Hb. cbn [c_expect c_ok cwp]. apply wp_map_err. by apply sign_write_rooted; [|apply Hpin|].
Qed.

(** The two writes of an admission, each over the core it is signed at. *)
Definition admits_pinned self (key : Key) (addr : EndpointAddr) : Prop :=
  ∀ id v, Key_id key = Some id → Value_try_from_endpoint addr = Ok v →
  (∀ build, admit_entry TRUSTED_KEYS_KEY id (Value_Key key) = Some build → signs_pinned self build) ∧
  ∀ fuel r self', write_entry fuel TRUSTED_KEYS_KEY id (Value_Key key) self = Ret (Ok r, self') →
    ∀ build, admit_entry CLUSTER_NODES_KEY id (Value_Map (bt_from_iter [(IROH, v)])) = Some build → signs_pinned self' build.

Lemma admits_rooted root ver (fuel : nat) key addr self :
  rooted root ver self → admits_pinned self key addr → 2 * (size (lg self) + 2) + 1 < fuel →
  wp (core_admits fuel key addr) self (still root ver self) (still root ver self).
Proof using Hid Hhash.
  intros Hro Hpin Hfuel. unfold core_admits. apply wp_bind, wp_ask. destruct (Hid key) as [id Hkey].
  rewrite Hkey. cbn [c_expect c_ok cwp]. apply wp_bind, wp_ask.
  destruct (Value_try_from_endpoint addr) as [v|] eqn:Hv; cbn [c_ok c_err cwp]; [|by split].
  destruct (Hpin id v Hkey Hv) as [Hp1 Hp2]. apply wp_bind.
  pose proof (write_entry_rooted root ver fuel TRUSTED_KEYS_KEY id (Value_Key key) self ltac:(done) Hro Hp1 ltac:(lia)) as Hw.
  unfold wp in Hw. unfold wp at 1.
  destruct (write_entry _ _ _ _ self) as [[[r|e] self']| |] eqn:Hrun; [|done..].
  destruct Hw as (Hro' & Hk & Hsize). apply wp_bind.
  eapply wp_mono; [apply (write_entry_rooted root ver fuel); [done|done|by eapply Hp2|lia]|..].
  - intros w self'' (Hro'' & Hk' & _). apply wp_ret. by rewrite Hk', Hk.
  - intros e self'' [Hro'' Hk']. by rewrite Hk', Hk.
Qed.

Lemma rooted_standing root ver self : rooted root ver self → standing self.
Proof using. intros [[[Hs _ _] Hheld _] _ _ _ _ _]. by split. Qed.

Lemma advertise_rooted root ver (fuel : nat) addr self :
  rooted root ver self →
  (∀ batch, advertise_batch (E := E) self addr = Ret (Ok batch) →
    batch_pinned pins batch ∧ 2 * (size (lg self) + length batch) + 1 < fuel) →
  wp (advertise fuel addr) self (still root ver self) (still root ver self).
Proof using Hid Hhash.
  intros Hro Hpin. unfold advertise. apply wp_bind, wp_ask.
  eapply cwp_mono; [apply (advertise_plan_cwp Hid); by eapply rooted_standing| |by split].
  intros [out|batch] Hplan; [by apply wp_ret|]. destruct Hplan as (Hne & _ & Hbatch).
  apply wp_bind, wp_ask. unfold last_digest. destruct (last batch) as [e|] eqn:Hl; [|by apply last_None in Hl].
  destruct (Envelope_digest e) as [d|]; cbn [c_ok c_err cwp]; [|by split].
  destruct (Hpin batch Hbatch) as [Hp Hf]. apply wp_bind, wp_map_err.
  eapply wp_mono; [by apply core_insert_rooted|..]; [|done]. intros ins self' (Hro' & Hk & _). by apply wp_ret.
Qed.

(** ** What a joiner is owed *)

(** The checkpoint that goes with a root, unless it carries its own. *)
Definition owed (ver : Version) (root : Envelope) : option FullCheckpoint :=
  match payload root with
  | Msg_Init _ => None
  | _ => Some (MkFullCheckpoint (bt_from_iter ver))
  end.

Lemma welcome_rooted root ver self :
  rooted root ver self →
  cwp (welcome_root self) (λ rs, Envelope_digest rs.1 = Ok root ∧ rs.2 = owed ver rs.1) (λ e, ∃ x, e = Error_Storage x).
Proof using.
  intros [[[Hs Hinv _] _ _] Hr Ho [e He] Hver _]. unfold welcome_root, root_envelope. rewrite Ho.
  apply cwp_bind, cwp_map_err, cwp_bind. eapply cwp_mono; [by apply envelope_spec| |by intros x _; exists x].
  intros r ->. rewrite He. cbn [c_expect c_ok cwp].
  rewrite Hr in Hinv. destruct (inv_pinned _ _ _ Hinv root e He) as [Hd _].
  assert (cwp (let? ledger := ledger_open (core_storage self) root in
               let? state := c_map_err Error_Storage (ledger_checkpoint ledger (core_storage self)) in
               c_ok (e, Some state))
    (λ rs, rs = (e, Some (MkFullCheckpoint (bt_from_iter ver)))) (λ e, ∃ x, e = Error_Storage x)) as Hcp.
  { apply cwp_bind. eapply cwp_mono; [apply ledger_open_cwp; [done|by eexists]| |done]. intros l ->.
    apply cwp_bind, cwp_map_err, cwp_bind. eapply cwp_mono; [by apply namespaces_vec_spec| |by intros x _; exists x].
    by intros l ->. }
  destruct (payload e) eqn:Hp; try (eapply cwp_mono; [exact Hcp| |done]; intros rs ->; unfold owed; simpl; by rewrite Hp).
  unfold cwp, c_ok, owed. simpl. by rewrite Hp.
Qed.
(** ** What a pass leaves alone *)

(** The path falls in rank, so no digest is on it twice. *)
Lemma arrivals_fall (fuel : nat) (s : S) d :
  storage_ok s → ranked rank (log (view s)) → not_higher rank (log (view s)) d < fuel →
  cwp (arrivals fuel s (Some d))
    (λ path, StronglySorted (λ x y, rank y.1 < rank x.1) path ∧ Forall (λ x, rank x.1 ≤ rank d) path) (λ _, True).
Proof using.
  intros Hs Hr. revert d. induction fuel as [|fuel IH]; intros d Hfuel; [lia|]. cbn [arrivals]. apply cwp_bind.
  eapply cwp_mono; [by apply logged_envelope_spec| |done]. intros [entry|] Hd; simpl in Hd; symmetry in Hd.
  2: { split; constructor. }
  apply cwp_bind.
  destruct (prev_of (le_envelope entry)) as [p|] eqn:Hp.
  - assert (logged_child (log (view s)) p d) as Hc by (by exists (le_envelope entry)). pose proof (Hr _ _ Hc) as Hlt.
    eapply cwp_mono; [apply IH| |done].
    { pose proof (not_higher_parent rank (log (view s)) p d ltac:(by eexists) Hlt). lia. }
    intros path [Hsort Hall]. split; [constructor; [done|]|constructor; [simpl; lia|]];
      (eapply Forall_impl; [exact Hall|]); simpl; intros; lia.
  - assert (0 < not_higher rank (log (view s)) d) as Hpos.
    { apply Nat.neq_0_lt_0, size_non_empty_iff. intros Hemp.
      assert (d ∈ filter (λ x, rank x ≤ rank d) (dom (log (view s)))) as Hin; [|by rewrite Hemp in Hin; apply not_elem_of_empty in Hin].
      apply elem_of_filter. split; [lia|]. by apply elem_of_dom_2 in Hd. }
    destruct fuel as [|fuel]; [lia|]. cbn. split; repeat constructor.
Qed.

Lemma compact_before_pinned {IoError} root ver (fuel : nat) cutoff keep min_prune pinned self (dir : StateDir IoError) :
  rooted root ver self → root ∈ pinned → 1 ≤ keep → size (lg self) < fuel →
  wp (core_compact_before fuel cutoff keep min_prune pinned) (self, dir)
    (λ r cd, cd = (self, dir) ∧ r = MkCompacted root root 0)
    (λ e cd, cd = (self, dir) ∧ ∃ x, e = CompactError_Chain (Error_Storage x)).
Proof using Hhash.
  clear Hid. intros [Hsound Hr Ho Hl Hv Hb] Hpin Hkeep Hfuel. pose proof Hsound as [[Hs Hinv _] _ _].
  assert (ranked rank (lg self)) as Hrk by (intros x y; by eapply child_rank).
  assert (not_higher rank (lg self) (head self) < fuel) as Hf.
  { unfold not_higher. assert (size (filter (λ x, rank x ≤ rank (head self)) (dom (lg self))) ≤ size (dom (lg self))) as Hle
      by (apply subseteq_size; set_solver). rewrite size_dom in Hle. lia. }
  unfold core_compact_before. apply wp_bind, wp_ask. cbn [fst].
  pose proof (arrivals_cwp rank fuel (core_storage self) (head self) Hs Hrk Hf) as Ha.
  pose proof (arrivals_fall fuel (core_storage self) (head self) Hs Hrk Hf) as Hfall.
  apply cwp_map_err. destruct (arrivals _ _ _) as [[path|x]| |]; cbn [cwp] in *; [|by split; [|exists x]|done..].
  destruct Ha as [Hall Hord], Hfall as [Hsort _].
  apply wp_bind, wp_ask. destruct (choose_cut_entry path keep cutoff pinned Hkeep) as (o & Hcut & _). rewrite Hcut. cbn [cwp c_ok].
  destruct o as [[cut n]|]; [|by apply wp_ret; rewrite Ho]. exfalso. unfold choose_cut in Hcut. destruct cutoff as [cutoff|]; [|done].
  apply (choose_cut_passes path keep cutoff path 0 pinned pinned) in Hcut as (k & y & Hy & Hsub); [|done|by rewrite take_0; simpl; set_solver].
  apply Hsub in Hpin. apply elem_of_list_to_set, list_elem_of_fmap in Hpin as ([r at_] & -> & Hin). cbn [fst] in *.
  apply list_elem_of_lookup in Hin as [i Hi]. apply lookup_take_Some in Hi as [Hi Hik].
  destruct (Hall k y Hy) as [Hlog _]. pose proof (Hord i k _ y ltac:(lia) Hi Hy) as Hanc. cbn [fst] in Hanc.
  apply (ancestor_precedes pins _ _ _ _ Hinv) in Hanc. pose proof (Hb y.1 Hlog Hanc) as Heq.
  assert (∀ i j x z, i < j → path !! i = Some x → path !! j = Some z → rank z.1 < rank x.1) as Hlt.
  { clear -Hsort. induction Hsort as [|a l _ IH Hall]; intros [|i] [|j] x z Hij Hx Hz; simpl in *; try done; try lia.
    - injection Hx as <-. rewrite Forall_lookup in Hall. by apply (Hall j).
    - apply (IH i j); [lia|done..]. }
  specialize (Hlt i k _ y Hik Hi Hy). rewrite Heq in Hlt. simpl in Hlt. lia.
Qed.
Lemma min_keep_answers self : standing self → answers (chain_min_keep_minutes (E := E) (core_chain self) (core_storage self)).
Proof using.
  intros (Hs & ver & Hver). unfold chain_min_keep_minutes, ledger_min_keep_minutes.
  apply answers_bind; [by apply reserved_key_answers|]. intros key _.
  apply answers_bind; [by eapply cwp_answers, namespace_spec|done].
Qed.

(** ** Every read answers *)

Lemma canonical_chain_answers root ver (fuel : nat) limit since self :
  rooted root ver self → size (lg self) < fuel → answers (canonical_chain fuel self limit since).
Proof using Hhash.
  intros [[[Hs Hinv _] _ _] _ _ _ _ _] Hfuel. unfold canonical_chain. apply answers_bind; [|done].
  assert (∀ fuel chain d, not_higher rank (lg self) d < fuel →
    answers (chain_walk fuel (core_storage self) (from_option id usize_max limit) since chain (Some d))) as Hwalk.
  2: { apply Hwalk. pose proof (not_higher_le rank (lg self) (head self)). lia. }
  clear fuel Hfuel. induction fuel as [|fuel IH]; intros chain d Hf; [lia|]. cbn [chain_walk].
  destruct (_ <? _)%N; [|done]. apply cwp_bind. eapply cwp_mono; [by apply logged_envelope_spec| |done].
  intros [entry|] Hd; [|done]. simpl in Hd. symmetry in Hd.
  destruct (match since with Some _ => _ | None => _ end); [done|].
  destruct (prev_of (le_envelope entry)) as [p|] eqn:Hp.
  - apply IH. assert (logged_child (lg self) p d) as Hc by (by exists (le_envelope entry)).
    pose proof (child_rank pins rank Hhash _ _ p d Hinv Hc). pose proof (not_higher_parent rank (lg self) p d ltac:(by eexists)). lia.
  - destruct fuel; [|cbn [chain_walk]; by destruct (_ <? _)%N].
    exfalso. assert (not_higher rank (lg self) d = 0) as Hz by lia. apply size_empty_inv in Hz.
    assert (d ∈ filter (λ x, rank x ≤ rank d) (dom (lg self))) as Hin; [|by rewrite Hz in Hin; apply not_elem_of_empty in Hin].
    apply elem_of_filter. split; [lia|]. by apply elem_of_dom_2 in Hd.
Qed.

Lemma core_envelopes_answers self digests : storage_ok (core_storage self) → answers (core_envelopes (E := E) self digests).
Proof using.
  intros Hs. induction digests as [|d digests IH]; [done|]. cbn [core_envelopes].
  apply answers_bind; [by eapply cwp_answers, logged_envelope_spec|]. intros found _.
  apply answers_bind; [done|]. by intros rest _.
Qed.

Lemma core_namespaces_answers self : standing self → answers (core_namespaces (E := E) self).
Proof using.
  intros (Hs & ver & Hver). unfold core_namespaces. destruct (namespace_keys_spec _ _ ver Hs Hver) as (l & -> & Hin).
  apply answers_bind; [|done]. induction l as [|key l IH]; [done|]. cbn [c_traverse].
  apply answers_bind.
  - unfold namespace_kind. destruct key as [key|]; [|done]. apply cwp_bind.
    eapply cwp_mono; [by apply resolve_spec| |done]. intros r ->.
    destruct (bt_key_held ver key (Hin key ltac:(by left))) as [n Hn]. by rewrite Hn.
  - intros k _. apply answers_bind; [|done]. apply IH. intros k' Hk'. apply Hin. by right.
Qed.
End node.

(** ** Turns *)

Section turns.
Context `{Externals} `{!IrohEq} {S E IoError SysError : Type} `{StorageSpec S E}.
Variables (pins : EnvelopeDigest → option Msg) (rank : EnvelopeDigest → nat).
Hypothesis Hid : ∀ k, is_Some (Key_id k).
Hypothesis Hhash : HashOk pins rank.
Variables (ago : N → option StoredAt) (keep : nat).
Hypothesis Hkeep : 1 ≤ keep.
Implicit Types (self : Mainloop (S := S) (IoError := IoError)) (world : Surroundings (E := E) (SysError := SysError)).

Abbreviation lg self := (log (view (core_storage (ml_core self)))) (only parsing).
Abbreviation Rep := (Reply (E := E) (IoError := IoError) (SysError := SysError)) (only parsing).
Abbreviation turn fuel world event self := (mainloop_turn (IoError := IoError) ago keep fuel world event self) (only parsing).

(** What the envelopes a message has inserted stand for. *)
Definition msg_pinned (self : Core S) (msg : ServerMsg) : Prop :=
  match msg with
  | ServerMsg_Insert run => batch_pinned pins run
  | ServerMsg_WeakWrite write => signs_pinned (E := E) pins self (weak_message write)
  | ServerMsg_Admit key addr => admits_pinned (E := E) pins self key addr
  | ServerMsg_Advertise addr => ∀ batch, advertise_batch (E := E) self addr = Ret (Ok batch) → batch_pinned pins batch
  | _ => True
  end.

(** How many envelopes it has inserted. *)
Definition msg_cost (self : Core S) (msg : ServerMsg) : nat :=
  match msg with
  | ServerMsg_Insert run => length run
  | ServerMsg_WeakWrite _ => 1
  | ServerMsg_Admit _ _ => 2
  | ServerMsg_Advertise addr =>
      match advertise_batch (E := E) self addr with Ret (Ok batch) => length batch | _ => 0 end
  | _ => 0
  end.

(** A turn before the invite expires: neither a shutdown nor the invite's own
    redemption, some handle still held; a token drawn is none outstanding. *)
Definition before_redeemed (token : Token) (expiry : N) world (event : MainEvent) self : Prop :=
  (instant_now world < expiry)%N ∧
  match event with
  | MainEvent_Message msg =>
      msg_pinned (ml_core self) msg ∧
      match msg with
      | ServerMsg_Shutdown => False
      | ServerMsg_CreateInvite _ _ => ∀ t, entropy world = Ok t → t ∉ pending_token <$> ml_invites self
      | ServerMsg_RedeemInvite t => t ≠ token
      | _ => True
      end
  | MainEvent_Dropped => False
  | _ => True
  end.

Definition enough (fuel : nat) (event : MainEvent) self : Prop :=
  2 * (size (lg self) + match event with MainEvent_Message msg => msg_cost (ml_core self) msg | _ => 0 end) + 2 < fuel.

(** The node keeps what an outstanding invite promises. *)
Record promises (p : Pending) (ver : Version) self : Prop := {
  pr_rooted : rooted pins (pending_root p) ver (ml_core self);
  pr_pending : p ∈ ml_invites self;
  pr_tokens : NoDup (pending_token <$> ml_invites self);
}.

Lemma responds_ret {X A} (reply : Result X A → Rep) (c : Comp X A) self :
  answers c → ∃ r, responds reply c self = Ret (r, self).
Proof using. unfold cwp, responds. destruct c as [[a|e]| |]; try done; by eexists. Qed.

Lemma moves_ret {X A} (reply : Result X A → Rep) (m : M (Core S) X A) p ver self :
  promises p ver self →
  wp m (ml_core self) (λ _ core, rooted pins (pending_root p) ver core) (λ _ core, rooted pins (pending_root p) ver core) →
  ∃ r self', moves reply m self = Ret (r, self') ∧ promises p ver self'.
Proof using.
  intros [Hr Hp Ht] Hm. unfold wp, moves in *. destruct (m (ml_core self)) as [[[a|e] core]| |]; try done;
    eexists _, _; (split; [done|]); by split.
Qed.

Lemma compacts_ret {A} (reply : _ → A) (fuel : nat) min_prune now p ver self :
  promises p ver self → (now < expires p)%N → size (lg self) < fuel →
  ∃ r, compacts reply (compaction ago keep fuel min_prune now (ml_invites self)) self = Ret (r, self).
Proof using Hhash Hkeep.
  intros [Hr Hp Ht] Hnow Hfuel. unfold compacts, compaction, core_compact.
  assert (pending_root p ∈ pinned_roots now (ml_invites self)) as Hpin.
  { unfold pinned_roots. apply elem_of_list_to_set, list_elem_of_fmap. exists p. split; [done|]. by apply list_elem_of_filter. }
  pose proof (min_keep_answers (E := E) (ml_core self) (rooted_standing pins _ ver _ Hr)) as Hmin.
  unfold m_bind, m_ask. cbn [fst]. unfold cwp, c_map_err in *.
  destruct (chain_min_keep_minutes _ _) as [[minutes|x]| |]; try done; [|by destruct self; eexists].
  pose proof (compact_before_pinned pins rank Hhash (pending_root p) ver fuel (ago (minutes * 60 * SECOND)%N) keep min_prune
    _ (ml_core self) (ml_dir self) Hr Hpin Hkeep Hfuel) as Hc. unfold wp in Hc.
  destruct (core_compact_before _ _ _ _ _ _) as [[[r|e] cd]| |]; try done; destruct Hc as [-> _]; destruct self; by eexists.
Qed.
(** The book, after another invite is issued or another token presented. *)
Lemma promises_issue p ver self t weight ttl now root :
  promises p ver self → (now < expires p)%N → t ∉ pending_token <$> ml_invites self →
  promises p ver (with_invites self (issue t weight ttl now root (ml_invites self))).
Proof using.
  intros [Hr Hp Ht] Hnow Hfresh. unfold issue. split; [done| |].
  - apply elem_of_app. left. by apply elem_of_prune.
  - simpl. rewrite fmap_app. apply NoDup_app. split_and!; [by apply NoDup_tokens| |apply NoDup_singleton].
    intros x (q & -> & Hq)%list_elem_of_fmap Heq%list_elem_of_singleton. simpl in Heq. apply Hfresh. rewrite <-Heq.
    apply elem_of_prune in Hq as [Hq _]. apply list_elem_of_fmap. by exists q.
Qed.

Lemma promises_redeem p ver self t now :
  promises p ver self → (now < expires p)%N → t ≠ pending_token p →
  promises p ver (with_invites self (prune now (base.filter (λ q, pending_token q ≠ t) (ml_invites self)))).
Proof using.
  intros [Hr Hp Ht] Hnow Hne. split; [done| |by apply NoDup_tokens, NoDup_tokens].
  apply elem_of_prune. split; [|done]. by apply list_elem_of_filter.
Qed.

Lemma create_ret world weight ttl p ver self :
  promises p ver self → (instant_now world < expires p)%N →
  (∀ t, entropy world = Ok t → t ∉ pending_token <$> ml_invites self) →
  ∃ r self', create_invite world weight ttl self = Ret (r, self') ∧ promises p ver self'.
Proof using Hid.
  intros Hpr Hnow Hfresh. unfold create_invite. destruct (peers_endpoint _) as [endpoint|]; [|by eexists _, _].
  pose proof (signs_alone_answers (E := E) Hid (ml_core self) (rooted_standing pins _ ver _ (pr_rooted _ _ _ Hpr))) as Ha.
  destruct (signs_alone _) as [[[[]|reason]|e]| |]; try done; [|by eexists _, _..].
  destruct (entropy world) as [t|e]; [|by eexists _, _]. destruct (key_id_answers (E' := Error E) Hid (ml_core self)) as (id & -> & _).
  eexists _, _. split; [done|]. by apply promises_issue; [..|apply Hfresh].
Qed.

Lemma redeem_ret world t p ver self :
  promises p ver self → (instant_now world < expires p)%N → t ≠ pending_token p →
  ∃ r self', redeem_invite (E := E) (SysError := SysError) world t self = Ret (r, self') ∧ promises p ver self'.
Proof using.
  intros Hpr Hnow Hne. unfold redeem_invite.
  destruct (redeem_spec t (instant_now world) (ml_invites self) (pr_tokens _ _ _ Hpr)) as (r & -> & _).
  pose proof (promises_redeem p ver self t (instant_now world) Hpr Hnow Hne) as Hpr'.
  destruct r as [[w]|e]; [|by eexists _, _]. cbn [ml_core with_invites].
  pose proof (welcome_rooted pins _ ver (ml_core self) (pr_rooted _ _ _ Hpr)) as Hw.
  destruct (welcome_root _) as [[[root st]|e]| |]; try done; by eexists _, _.
Qed.

(** Every turn before the invite is redeemed is answered, and keeps the promise. *)
Lemma message_ret (fuel : nat) world msg p ver self :
  promises p ver self → before_redeemed (pending_token p) (expires p) world (MainEvent_Message msg) self →
  enough fuel (MainEvent_Message msg) self →
  ∃ r self', handle_message (IoError := IoError) ago keep fuel world msg self = Ret (Some r, self') ∧ promises p ver self'.
Proof using Hid Hhash Hkeep.
  intros Hpr (Hnow & Hpin & Hmsg) Hf. pose proof Hpr as [Hro Hp Ht]. pose proof (rooted_standing pins _ ver _ Hro) as Hst.
  pose proof Hro as [[Hok Hheld _] Hr _ _ _ _]. pose proof (co_storage _ _ _ Hok) as Hs.
  assert (∀ X A (reply : Result X A → Rep) (c : Comp X A), answers c →
    ∃ r self', match responds reply c self with Ret (reply, self) => Ret (Some reply, self) | Panic => Panic | Diverge => Diverge end
      = Ret (Some r, self') ∧ promises p ver self') as Hread.
  { intros X A reply c Ha. destruct (responds_ret reply c self Ha) as [r ->]. by eexists _, _. }
  assert (∀ X A (reply : Result X A → Rep) (m : M (Core S) X A),
    wp m (ml_core self) (λ _ core, rooted pins (pending_root p) ver core) (λ _ core, rooted pins (pending_root p) ver core) →
    ∃ r self', match moves reply m self with Ret (reply, self) => Ret (Some reply, self) | Panic => Panic | Diverge => Diverge end
      = Ret (Some r, self') ∧ promises p ver self') as Hmove.
  { intros X A reply m Hm. destruct (moves_ret reply m p ver self Hpr Hm) as (r & self' & -> & ?). by eexists _, _. }
  unfold enough in Hf. destruct msg; cbn [handle_message msg_cost] in *; try done; try (by eexists _, _).
  - apply Hread, answers_map_err. match goal with s : EnvelopeSelector |- _ => destruct s end; [by eapply canonical_chain_answers; [..|lia]|by apply core_envelopes_answers].
  - apply Hmove. eapply wp_mono; [by apply (core_insert_rooted pins rank Hid Hhash (pending_root p) ver); [..|lia]|..]; naive_solver.
  - apply Hread, answers_map_err. eapply cwp_answers, (sync_answer_cwp pins rank Hhash); [by apply Hro|lia].
  - apply Hmove. unfold subscribe, wp. simpl. by eapply rooted_same.
  - apply Hread. eapply cwp_answers, (descends_cwp pins rank Hhash); [done|apply Hok|lia].
  - apply Hmove. unfold watch_orphaned. apply wp_bind, wp_ask. eapply cwp_mono.
    { eapply (descends_cwp pins rank Hhash); [done|apply Hok|lia]. }
    + intros [] _; [|by apply wp_ret]. apply wp_bind. unfold subscribe, wp. simpl. by eapply rooted_same.
    + done.
  - by apply Hread, core_peer_addresses_answers.
  - apply Hread. destruct (key_id_answers (E' := Error E) Hid (ml_core self)) as (id & -> & _). done.
  - apply Hread, answers_map_err, answers_bind; [|done]. destruct Hst as [_ [v Hv]]. apply answers_bind; [|done].
    by eapply cwp_answers, value_at_spec.
  - apply Hread, answers_map_err, answers_bind; [|done]. destruct Hst as [_ [v Hv]]. apply answers_bind; [|done].
    by eapply cwp_answers, meta_at_spec.
  - by apply Hread, answers_map_err, answers_bind; [apply core_namespaces_answers|].
  - apply Hmove. apply wp_bind.
    eapply wp_mono; [by apply (sign_write_rooted pins rank Hid Hhash (pending_root p) ver); [..|lia]|..]; [|naive_solver].
    intros di core (? & _). done.
  - destruct (compacts_ret (Reply_Compact (E := E) (IoError := IoError) (SysError := SysError)) fuel 1 (instant_now world) p ver self
      Hpr Hnow ltac:(lia)) as [r ->]. by eexists _, _.
  - destruct (create_ret world weight ttl p ver self Hpr Hnow Hmsg) as (r & self' & -> & ?). by eexists _, _.
  - destruct (redeem_ret world token p ver self Hpr Hnow Hmsg) as (r & self' & -> & ?). by eexists _, _.
  - apply Hmove. eapply wp_mono; [by apply (admits_rooted pins rank Hid Hhash (pending_root p) ver); [..|lia]|..]; naive_solver.
  - apply Hmove. eapply wp_mono; [apply (advertise_rooted pins rank Hid Hhash (pending_root p) ver); [done|]|..]; [|naive_solver..].
    intros batch Hb. split; [by apply Hpin|]. rewrite Hb in Hf. lia.
Qed.

Lemma turn_ret (fuel : nat) world event p ver self :
  promises p ver self → before_redeemed (pending_token p) (expires p) world event self → enough fuel event self →
  ∃ r self', turn fuel world event self = Ret (Some r, self') ∧ promises p ver self'.
Proof using Hid Hhash Hkeep.
  intros Hpr Hb Hf. destruct event as [msg| | |]; cbn [mainloop_turn].
  - destruct (message_ret fuel world msg p ver self Hpr Hb Hf) as (r & self' & -> & ?). by eexists _, _.
  - by destruct Hb.
  - by eexists _, _.
  - destruct (compacts_ret (λ _, Some None : option (option Rep)) fuel COMPACT_MIN_PRUNE (instant_now world) p ver self Hpr (proj1 Hb))
      as [r Hr]; [unfold enough in Hf; lia|]. rewrite Hr. unfold compacts in Hr. destruct (compaction _ _ _ _ _ _ _) as [[? []]| |]; try done.
    injection Hr as <-. by eexists _, _.
Qed.
(** ** An invite while it lasts *)

(** What the mainloop serves, at whatever clock, before the invite is redeemed or
    expires; each turn is given bound enough for the log it finds. *)
Inductive serves (token : Token) (expiry : N) : Mainloop (S := S) (IoError := IoError) → Mainloop (S := S) (IoError := IoError) → Prop :=
  | serves_none self : serves token expiry self self
  | serves_turn fuel world event r self self1 self2 :
      serves token expiry self self1 → before_redeemed token expiry world event self1 → enough fuel event self1 →
      turn fuel world event self1 = Ret (Some r, self2) → serves token expiry self self2.

Lemma serves_promises p ver self self' :
  promises p ver self → serves (pending_token p) (expires p) self self' → promises p ver self'.
Proof using Hid Hhash Hkeep.
  intros Hpr Hserves. induction Hserves as [self|fuel world event r self self1 self2 _ IH Hb Hf Ht]; [done|].
  destruct (turn_ret fuel world event p ver self1 (IH Hpr) Hb Hf) as (r' & self' & Ht' & ?). by rewrite Ht in Ht'; simplify_eq.
Qed.

(** C21: an invite issued is honoured for as long as it lasts. On a node in order
    with nothing logged before its root, an invite pins that root; and whatever
    the mainloop then serves before the invite expires — runs of any peer, writes
    of any client, other invites, passes that would prune — every turn is
    answered, none panics, and the root stays. The token then redeems, once: it
    hands over the very envelope the invite pinned, the checkpoint of the version
    that stood there when it was issued where the envelope carries none, and the
    weight asked for; or the backend fails, and the token is spent all the same. *)
Theorem issued_invite_honoured (world0 : Surroundings (E := E) (SysError := SysError)) weight ttl root ver self issued self1 self2 :
  rooted pins root ver (ml_core self) → NoDup (pending_token <$> ml_invites self) →
  (∀ t, entropy world0 = Ok t → t ∉ pending_token <$> ml_invites self) →
  create_invite world0 weight ttl self = Ret (Ok issued, self1) →
  let invite := issued_invite issued in
  let expiry := default (instant_now world0) (checked_add_instant (instant_now world0) (issued_ttl issued)) in
  serves (token invite) expiry self1 self2 →
  invite_root invite = root ∧ issued_ttl issued = N.min ttl MAX_INVITE_TTL ∧ core_oldest (ml_core self2) = root ∧
  (∀ fuel world event, before_redeemed (token invite) expiry world event self2 → enough fuel event self2 →
    ∃ r self3, turn fuel world event self2 = Ret (Some r, self3)) ∧
  ∀ world : Surroundings (E := E) (SysError := SysError), (instant_now world < expiry)%N →
    ∃ r self3, redeem_invite world (token invite) self2 = Ret (r, self3) ∧
      match r with
      | Ok w => Envelope_digest (welcomed_root w) = Ok root ∧ welcomed_state w = owed ver (welcomed_root w) ∧
          welcomed_weight w = weight
      | Err e => ∃ x, e = InviteError_Chain (Error_Storage x)
      end ∧
      ∀ world' : Surroundings (E := E) (SysError := SysError), ∃ e self4,
        redeem_invite world' (token invite) self3 = Ret (Err (InviteError_Redeem e), self4).
Proof using Hid Hhash Hkeep.
  intros Hro Htok Hfresh Hcreate invite expiry Hserves. unfold create_invite in Hcreate.
  destruct (peers_endpoint _) as [endpoint|]; [|done].
  destruct (signs_alone _) as [[[[]|reason]|e]| |]; try done. destruct (entropy world0) as [t|e] eqn:Ht; [|done].
  destruct (key_id_answers (E' := Error E) Hid (ml_core self)) as (id & Hkey & _). rewrite Hkey in Hcreate.
  cbn [c_ok] in Hcreate. injection Hcreate as <- <-. subst invite expiry. cbn [issued_invite issued_ttl token invite_root] in *.
  rewrite (ro_oldest _ _ _ _ Hro) in *. set (expiry := default _ _) in *.
  set (p := MkPending t weight expiry root).
  assert (promises p ver (with_invites self (issue t weight (N.min ttl MAX_INVITE_TTL) (instant_now world0) root (ml_invites self)))) as Hpr.
  { unfold issue. fold expiry. fold p. split; [done|apply elem_of_app; right; by apply list_elem_of_singleton|].
    simpl. rewrite fmap_app. apply NoDup_app. split_and!; [by apply NoDup_tokens| |apply NoDup_singleton].
    intros x (q & -> & Hq)%list_elem_of_fmap Heq%list_elem_of_singleton. simpl in Heq. apply (Hfresh t eq_refl). rewrite <-Heq.
    apply elem_of_prune in Hq as [Hq _]. apply list_elem_of_fmap. by exists q. }
  apply (serves_promises p ver _ self2) in Hpr; [|done]. pose proof Hpr as [Hro2 Hin2 Htok2].
  split_and!; [done|done|apply Hro2|..].
  - intros fuel world event Hb Hf. destruct (turn_ret fuel world event p ver self2 Hpr Hb Hf) as (r & self' & ? & _). by eexists _, _.
  - intros world Hnow. unfold redeem_invite.
    destruct (redeem_spec t (instant_now world) (ml_invites self2) Htok2) as (r & -> & Hr).
    rewrite (proj2 (Hr weight)) by (exists p; split_and!; done). cbn [ml_core with_invites].
    assert (∀ (self3 : Mainloop (S := S) (IoError := IoError)) (world' : Surroundings (E := E) (SysError := SysError)),
      ml_invites self3 = prune (instant_now world) (base.filter (λ q, pending_token q ≠ t) (ml_invites self2)) →
      ∃ e self4, redeem_invite world' t self3 = Ret (Err (InviteError_Redeem e), self4)) as Hspent.
    { intros self3 world' Hbook. unfold redeem_invite. rewrite Hbook.
      destruct (redeem_spec t (instant_now world') (prune (instant_now world) (base.filter (λ q, pending_token q ≠ t) (ml_invites self2))))
        as ([[w]|e] & -> & Hr'); [by apply NoDup_tokens, NoDup_tokens| |by eexists _, _].
      destruct (proj1 (Hr' w) eq_refl) as (q & [Hq _]%elem_of_prune & Hqt & _). by apply list_elem_of_filter in Hq as [? _]. }
    pose proof (welcome_rooted pins root ver (ml_core self2) Hro2) as Hw.
    destruct (welcome_root _) as [[[e st]|e]| |]; cbn [cwp fst snd] in Hw; try done.
    + eexists _, _. split; [done|]. split; [by destruct Hw|]. intros world'. by apply Hspent.
    + eexists _, _. split; [done|]. split; [destruct Hw as [x ->]; by exists x|]. intros world'. by apply Hspent.
Qed.
End turns.

(** A node that invites, then publishes the address it moved to, and is due a
    compaction. *)

Definition sample_world (now : N) (b : u8) : Surroundings (E := Empty_set) (SysError := Empty_set) :=
  MkSurroundings now 0 (Ok (token_of b)) (MkPeers None None None (Some moved_addr)).

Definition sample_loop : Mainloop (S := MemNode) (IoError := Empty_set) := MkMainloop listed_core (MkStateDir listed_d []) [].

Definition sample_ago : N → option StoredAt := λ _, Some (MkStoredAt 100).

Definition sample_create := create_invite (sample_world 0 x01) 3 (1000 * SECOND) sample_loop.

Definition sample_turn (now : N) (event : MainEvent) (self : Mainloop (S := MemNode) (IoError := Empty_set)) :=
  mainloop_turn (E := Empty_set) (IoError := Empty_set) sample_ago 1 20 (sample_world now x02) event self.

(** A value or a reply, and the state it leaves. *)
Definition ended {A B T} (got : A → option B) (o : Outcome (A * T)) : option (B * T) :=
  match o with Ret (a, t) => (λ b, (b, t)) <$> got a | _ => None end.

Lemma ended_Some {A B T} (got : A → option B) (o : Outcome (A * T)) :
  is_Some (ended got o) → ∃ a b t, o = Ret (a, t) ∧ got a = Some b.
Proof.
  destruct o as [[a t]| |]; simpl; [|by intros []..]. destruct (got a) as [b|] eqn:Hb; [|by intros []].
  intros _. by exists a, b, t.
Qed.

Definition got_ok {X A} (r : Result X A) : option A := match r with Ok a => Some a | Err _ => None end.

Lemma create_core `{Externals} {S E IoError SysError : Type} `{Storage S E} (world : Surroundings (E := E) (SysError := SysError)) weight ttl
    (self self' : Mainloop (S := S) (IoError := IoError)) r :
  create_invite world weight ttl self = Ret (r, self') → ml_core self' = ml_core self.
Proof.
  unfold create_invite. destruct (peers_endpoint _); [|by intros [= _ <-]].
  destruct (signs_alone _) as [[[[]|reason]|err]| |]; try done; [|by intros [= _ <-]..].
  destruct (entropy world); [|by intros [= _ <-]]. by destruct (Core_key_id _) as [[]| |]; intros [= _ <-].
Qed.

Lemma listed_rooted : rooted listed_pins listed_d listed_version listed_core.
Proof.
  destruct listed_sound as [Hsound Hsize].
  assert (is_Some (versions (view listed_node) !! listed_d)) as [v Hv] by by_computing.
  assert (is_Some (log (view listed_node) !! listed_d)) as [e He] by by_computing.
  split; [exact Hsound|reflexivity|reflexivity|by exists e|unfold listed_version; change (core_storage listed_core) with listed_node; by rewrite Hv|].
  intros x [ex Hx] _. change (core_storage listed_core) with listed_node in Hx.
  rewrite <-size_dom in Hsize. apply size_1_elem_of in Hsize as [k Hk].
  apply elem_of_dom_2 in He, Hx. rewrite Hk in He, Hx. by apply elem_of_singleton in He as ->, Hx as ->.
Qed.

(** The state a step leaves. *)
Definition left_by {A T} (o : Outcome (A * T)) (d : T) : T := match o with Ret (_, t) => t | _ => d end.

Lemma left_by_eq {A T} (o : Outcome (A * T)) a t d : o = Ret (a, t) → left_by o d = t.
Proof. by intros ->. Qed.

Definition publish_move : MainEvent := MainEvent_Message (ServerMsg_Advertise moved_addr).

Definition sample_1 : Mainloop := left_by sample_create sample_loop.
Definition sample_2 : Mainloop := left_by (sample_turn 5 publish_move sample_1) sample_1.
Definition sample_3 : Mainloop := left_by (sample_turn 6 MainEvent_Tick sample_2) sample_2.

Definition sample_redeem := redeem_invite (E := Empty_set) (SysError := Empty_set) (sample_world 7 x02) (token_of x01) sample_3.

Lemma issued_invite_honoured_witness : ∃ issued w self4,
  sample_create = Ret (Ok issued, sample_1) ∧ bool_decide (head (ml_core sample_3) = listed_d) = false ∧
  sample_redeem = Ret (Ok w, self4) ∧ Envelope_digest (welcomed_root w) = Ok listed_d ∧ welcomed_weight w = 3%N.
Proof.
  destruct (ended_Some got_ok sample_create) as (r & issued & self1 & Hc & Hr); [by_computing|].
  destruct r as [i|e]; [|discriminate Hr]. injection Hr as ->. pose proof (left_by_eq _ _ _ sample_loop Hc) as H1.
  fold sample_1 in H1. rewrite <-H1 in Hc. clear H1 self1.
  destruct (ended_Some id (sample_turn 5 publish_move sample_1)) as (r2 & r2' & self2 & Ht2 & Hr2); [by_computing|].
  change (r2 = Some r2') in Hr2. subst r2.
  pose proof (left_by_eq _ _ _ sample_1 Ht2) as H2. fold sample_2 in H2. rewrite <-H2 in Ht2. clear H2 self2.
  destruct (ended_Some id (sample_turn 6 MainEvent_Tick sample_2)) as (r3 & r3' & self3 & Ht3 & Hr3); [by_computing|].
  change (r3 = Some r3') in Hr3. subst r3.
  pose proof (left_by_eq _ _ _ sample_2 Ht3) as H3. fold sample_3 in H3. rewrite <-H3 in Ht3. clear H3 self3.
  destruct (ended_Some got_ok sample_redeem) as (r4 & w & self4 & Hr4 & Hw); [by_computing|].
  destruct r4 as [w'|e]; [|discriminate Hw]. injection Hw as ->.
  assert (issued_ttl issued = 1000 * SECOND)%N as Httl.
  { assert ((λ a, issued_ttl a.1) <$> ended got_ok sample_create = Some (1000 * SECOND)%N) as Hi by (vm_compute; reflexivity).
    rewrite Hc in Hi. by injection Hi. }
  assert (token (issued_invite issued) = token_of x01) as Htoken.
  { assert ((λ a, token (issued_invite a.1)) <$> ended got_ok sample_create = Some (token_of x01)) as Hi by by_computing.
    rewrite Hc in Hi. by injection Hi. }
  assert (ml_core sample_1 = listed_core) as Hcore by exact (create_core _ _ _ _ _ _ Hc).
  assert (default 0%N (checked_add_instant 0 (issued_ttl issued)) = 1000 * SECOND)%N as Hexp by (rewrite Httl; vm_compute; reflexivity).
  exists issued, w, self4. split; [exact Hc|]. split; [vm_compute; reflexivity|]. split; [exact Hr4|].
  destruct (issued_invite_honoured listed_pins listed_rank toy_key_id_total listed_hash_ok sample_ago 1 (le_n 1)
    (sample_world 0 x01) 3 (1000 * SECOND) listed_d listed_version sample_loop issued sample_1 sample_3 listed_rooted)
    as (_ & _ & _ & _ & Hall).
  - constructor.
  - intros t _. apply not_elem_of_nil.
  - exact Hc.
  - cbn [instant_now sample_world]. rewrite Hexp, Htoken. eapply serves_turn; [eapply serves_turn; [apply serves_none| | |exact Ht2]| | |exact Ht3].
    + split; [vm_compute; reflexivity|]. split; [|exact I]. cbn [msg_pinned]. rewrite Hcore. intros batch Hb.
      assert (move_batch = batch) as <-; [unfold move_batch; by rewrite Hb|]. exact move_pinned.
    + unfold enough, publish_move. cbv iota. rewrite Hcore. change (core_storage listed_core) with listed_node. rewrite (proj2 listed_sound).
      assert (msg_cost (E := Empty_set) listed_core (ServerMsg_Advertise moved_addr) = 1) as -> by (vm_compute; reflexivity). lia.
    + split; [vm_compute; reflexivity|exact I].
    + assert (size (log (view (core_storage (ml_core sample_2)))) = 2) as Hs by (vm_compute; reflexivity).
      unfold enough. rewrite Hs. lia.
  - destruct (Hall (sample_world 7 x02)) as (r & self5 & Hr & Hok & _).
    { cbn [instant_now sample_world]. rewrite Hexp. vm_compute. reflexivity. }
    rewrite Htoken in Hr. unfold sample_redeem in Hr4. rewrite Hr4 in Hr. injection Hr as <- _.
    destruct Hok as (Hd & _ & Hwt). exact (conj Hd Hwt).
Defined.
