(* ===== verification/Bootstrap.v ===== *)
(** * Joining a cluster: [crates/lotusd/src/bootstrap.rs]

    The protocol a blank node speaks to the node that invited it. The sponsor's
    side runs against the mainloop's mailbox and beside other connections, so it is
    a program of operations ([Prog]) that the world answers one at a time; the
    joiner's side owns its core and is a computation over its disk and its
    connection. [cbor2]'s bytes of a frame are a parameter, [BootCodec]. *)

From S2P Require Import Prelude BTree Text Codec Externals Keys Subkey Msg Envelope Value.
From S2P Require Import Storage Addr StateError Ledger Chain Change Locator Sync Frame Puller Server.
From S2P Require Import SyncDriver Contract DriverSpec SessionSpec Subscribe Core CoreSync.
From S2P Require Import Compaction Advertise StateDirectory PeerLink Invite Mainloop.

(** ** Frames of the control stream *)

(** [bootstrap::PROTOCOL_VERSION]. *)
Definition JOIN_PROTOCOL_VERSION : N := 2.

(** The version is a [u32]. *)
Record Join := MkJoin { join_version : N; join_token : Token; join_key : PublicKey }.
Record Welcome `{Externals} := MkWelcome { welcome_root_envelope : Envelope; welcome_state : option FullCheckpoint }.
Record Refused := MkRefused { refused_reason : rstring }.
Record AdmittedFrame := MkAdmitted { admitted_digest : EnvelopeDigest }.
Arguments MkWelcome {_} welcome_root_envelope welcome_state.

Inductive BootMessage `{Externals} : Type :=
  | BootMessage_Join (m : Join)
  | BootMessage_Welcome (m : Welcome)
  | BootMessage_Refused (m : Refused)
  | BootMessage_Admitted (m : AdmittedFrame).

Definition boot_kind `{Externals} (self : BootMessage) : rstring :=
  match self with
  | BootMessage_Join _ => str "Join"
  | BootMessage_Welcome _ => str "Welcome"
  | BootMessage_Refused _ => str "Refused"
  | BootMessage_Admitted _ => str "Admitted"
  end.

(** [wire::encode] and [wire::decode] of a frame's body. *)
Class BootCodec `{Externals} := {
  boot_encode : BootMessage → Result WireError (list u8);
  boot_decode : list u8 → Result WireError BootMessage;
}.

(** Why a control-stream frame could not be moved; the length is a [u64]. *)
Inductive BootFrameError `{Externals} (IoError : Type) : Type :=
  | BootFrameError_Io (e : IoError)
  | BootFrameError_TooLarge (len : N)
  | BootFrameError_Wire (e : WireError)
  | BootFrameError_Closed.
Arguments BootFrameError_Io {_ _} e.
Arguments BootFrameError_TooLarge {_ _} len.
Arguments BootFrameError_Wire {_ _} e.
Arguments BootFrameError_Closed {_ _}.

(** One step of the control stream not completing, [STEP_TIMEOUT] its bound. *)
Inductive StepError (E : Type) : Type :=
  | StepError_Failed (e : E)
  | StepError_TimedOut.
Arguments StepError_Failed {_} e.
Arguments StepError_TimedOut {_}.

Definition step_map {E E'} (f : E → E') (e : StepError E) : StepError E' :=
  match e with StepError_Failed e => StepError_Failed (f e) | StepError_TimedOut => StepError_TimedOut end.

Section frames.
Context `{BootCodec} {IoError : Type} `{IoErrors IoError}.
Abbreviation FErr := (BootFrameError IoError) (only parsing).

(** The bytes of one frame. *)
Definition frame_of (message : BootMessage) : Result FErr (list u8) :=
  match boot_encode message with
  | Err e => Err (BootFrameError_Wire e)
  | Ok body =>
      match frame_len body with
      | None => Err (BootFrameError_TooLarge (N.of_nat (length body)))
      | Some len => Ok (u32_to_be_bytes len ++ body)
      end
  end.

(** What a stream still yields: the bytes that arrive, and then its end, a failure,
    or nothing within [STEP_TIMEOUT]. Whatever times out ends the join, so nothing
    arrives after that. *)
Inductive Ending : Type :=
  | Ending_Finished
  | Ending_Fails (e : IoError)
  | Ending_Quiet.

Record Inbound := MkInbound { arriving : list u8; ending : Ending }.

(** [read_exact], within the [step] around it. *)
Definition read_exact (n : nat) : M Inbound (StepError IoError) (list u8) := λ s,
  if decide (n ≤ length (arriving s)) then Ret (Ok (take n (arriving s)), MkInbound (drop n (arriving s)) (ending s))
  else
    let rest := MkInbound [] (ending s) in
    match ending s with
    | Ending_Finished => Ret (Err (StepError_Failed unexpected_eof), rest)
    | Ending_Fails e => Ret (Err (StepError_Failed e), rest)
    | Ending_Quiet => Ret (Err StepError_TimedOut, rest)
    end.

(** [step(read_frame(..))]. *)
Definition read_frame : M Inbound (StepError FErr) BootMessage :=
  let! prefix := m_map_err (step_map (λ e, if is_unexpected_eof e then BootFrameError_Closed else BootFrameError_Io e))
                   (read_exact 4) in
  let len := u32_from_be_bytes prefix in
  if (MAX_FRAME_LEN <? len)%N then m_err (StepError_Failed (BootFrameError_TooLarge len))
  else
    let! body := m_map_err (step_map BootFrameError_Io) (read_exact (N.to_nat len)) in
    match boot_decode body with
    | Ok message => m_ret message
    | Err e => m_err (StepError_Failed (BootFrameError_Wire e))
    end.

(** A stream being written: what became of each write, and what was written. A
    write past the script succeeds. *)
Record Outbound := MkOutbound { outcomes : list (Result (StepError IoError) ()); sent_bytes : list u8 }.

(** [step(write_frame(..))]. *)
Definition write_frame (message : BootMessage) : M Outbound (StepError FErr) () := λ s,
  match frame_of message with
  | Err e => Ret (Err (StepError_Failed e), s)
  | Ok bytes =>
      match outcomes s with
      | [] | Ok _ :: _ => Ret (Ok (), MkOutbound (tail (outcomes s)) (sent_bytes s ++ bytes))
      | Err e :: rest => Ret (Err (step_map BootFrameError_Io e), MkOutbound rest (sent_bytes s))
      end
  end.
End frames.
Arguments Ending : clear implicits.
Arguments Inbound : clear implicits.
Arguments Outbound : clear implicits.

(** ** Programs

    A task that waits on the world at every operation, and ends or panics; [Op B]
    is an operation answered by a [B]. *)

Inductive Prog (Op : Type → Type) (A : Type) : Type :=
  | Finish (a : A)
  | Panics
  | Await {B : Type} (op : Op B) (k : B → Prog Op A).
Arguments Finish {_ _} a.
Arguments Panics {_ _}.
Arguments Await {_ _ _} op k.

Section prog.
Context {Op : Type → Type} {X : Type}.

Fixpoint p_bind {A B} (p : Prog Op (Result X A)) (k : A → Prog Op (Result X B)) : Prog Op (Result X B) :=
  match p with
  | Finish (Ok a) => k a
  | Finish (Err e) => Finish (Err e)
  | Panics => Panics
  | Await op f => Await op (λ b, p_bind (f b) k)
  end.

Definition p_err {A} (e : X) : Prog Op (Result X A) := Finish (Err e).

Definition p_expect {A} (o : option A) : Prog Op (Result X A) :=
  match o with Some a => Finish (Ok a) | None => Panics end.

(** An operation whose failure ends the task. *)
Definition p_try {E A} (f : E → X) (op : Op (Result E A)) : Prog Op (Result X A) :=
  Await op (λ r, Finish match r with Ok a => Ok a | Err e => Err (f e) end).
End prog.

#[local] Notation "'let%' x ':=' c 'in' k" := (p_bind c (λ x, k)) (at level 10, x pattern, c at level 100, k at level 200).
#[local] Notation "'do%' c 'in' k" := (p_bind c (λ _, k)) (at level 10, c at level 100, k at level 200).

(** ** The sponsor's side *)

Section sponsor.
Context `{BootCodec} {S E IoError SysError ConnectionError : Type} `{Storage S E}.
Abbreviation FErr := (BootFrameError IoError) (only parsing).
Abbreviation SErr := (SyncError IoError (Error E)) (only parsing).
Abbreviation IErr := (InviteError (E := E) (SysError := SysError)) (only parsing).

(** Why serving a join ended without admitting anyone. *)
Inductive ServeError : Type :=
  | ServeError_Accept (e : StepError ConnectionError)
  | ServeError_Frame (e : StepError FErr)
  | ServeError_Unexpected (expected got : rstring)
  | ServeError_Version (theirs : N)
  | ServeError_Invite (e : IErr)
  | ServeError_Sync (e : SErr)
  | ServeError_Admit (e : AdmitError E).

(** Whose fault, as the close code says it. *)
Definition close_reason_of (self : ServeError) : CloseReason :=
  match self with
  | ServeError_Invite InviteError_ServerGone | ServeError_Admit AdmitError_ServerGone => CloseReason_ShuttingDown
  | ServeError_Invite _ | ServeError_Admit _ | ServeError_Sync (SyncError_Answer _) => CloseReason_Local
  | _ => CloseReason_Breach
  end.

(** [to_string] of the two errors the joiner is told. *)
Definition redeem_error_text (e : RedeemError) : rstring :=
  match e with
  | RedeemError_Unknown => str "the invite is not one this node issued, or was used already"
  | RedeemError_Expired => str "the invite has expired"
  end.

Definition invite_error_text (e : IErr) : rstring :=
  match e with
  | InviteError_NoEndpoint => str "this node serves no peers, so nothing could dial it"
  | InviteError_CannotSignAlone _ => str "this node cannot admit a peer alone"
  | InviteError_Redeem e => redeem_error_text e
  | InviteError_Chain _ => str "reading the ledger"
  | InviteError_Entropy _ => str "the OS could not supply entropy for a token"
  | InviteError_ServerGone => str "the server is shutting down"
  end.

Definition admit_error_text (e : AdmitError E) : rstring :=
  match e with
  | AdmitError_Addr _ => str "the endpoint address has no ledger encoding"
  | AdmitError_Chain _ => str "writing the admission"
  | AdmitError_ServerGone => str "the server is shutting down"
  end.

(** What the task waits on: the connection, the frames of its control stream, a
    session served over a stream of its own, and the mainloop. *)
Inductive SponsorOp : Type → Type :=
  | AcceptBi : SponsorOp (Result (StepError ConnectionError) ())
  | ReadFrame : SponsorOp (Result (StepError FErr) BootMessage)
  | WriteFrame (message : BootMessage) : SponsorOp (Result (StepError FErr) ())
  | Deliver (message : BootMessage) : SponsorOp (Result (StepError FErr) ())
  | ServeSession : SponsorOp (Result SErr ServeOutcome)
  | RedeemInvite (token : Token) : SponsorOp (Result IErr Welcomed)
  | Admit (key : Key) (addr : EndpointAddr) : SponsorOp (Result (AdmitError E) EnvelopeDigest)
  | CloseConn (code : N) (message : list u8) : SponsorOp ().

Abbreviation Serves A := (Prog SponsorOp (Result ServeError A)) (only parsing).

(** Serves the pull the joiner opens on its next bi-stream. *)
Definition serve_pull : Serves () :=
  do% p_try ServeError_Accept AcceptBi in
  Await ServeSession (λ r,
    match r with
    | Ok _ | Err SyncError_PeerClosed => Finish (Ok ())
    | Err e => p_err (ServeError_Sync e)
    end).

(** Tells the joiner why it is not getting further; best effort. *)
Definition refuse (reason : rstring) : Serves () :=
  Await (Deliver (BootMessage_Refused (MkRefused reason))) (λ _, Finish (Ok ())).

(** [EndpointAddr::new(conn.remote_id())]. *)
Definition bare_addr (remote : EndpointId) : EndpointAddr := endpoint_addr_from_parts remote [].

Definition serve_join (remote : EndpointId) : Serves KeyId :=
  do% p_try ServeError_Accept AcceptBi in
  let% message := p_try ServeError_Frame ReadFrame in
  match message with
  | BootMessage_Join join =>
      if decide (join_version join ≠ JOIN_PROTOCOL_VERSION) then
        do% refuse (str "protocol version mismatch") in
        p_err (ServeError_Version (join_version join))
      else
        Await (RedeemInvite (join_token join)) (λ r,
          match r with
          | Err e =>
              do% refuse (invite_error_text e) in
              p_err (ServeError_Invite e)
          | Ok welcome =>
              do% p_try ServeError_Frame
                (WriteFrame (BootMessage_Welcome (MkWelcome (welcomed_root welcome) (welcomed_state welcome)))) in
              do% serve_pull in
              let key := Key_new (join_key join) (welcomed_weight welcome) in
              let% node := p_expect (Key_id key) in
              Await (Admit key (bare_addr remote)) (λ r,
                match r with
                | Err e =>
                    do% refuse (str "admission refused: " ++ admit_error_text e) in
                    p_err (ServeError_Admit e)
                | Ok digest =>
                    do% p_try ServeError_Frame (WriteFrame (BootMessage_Admitted (MkAdmitted digest))) in
                    do% serve_pull in
                    Await ReadFrame (λ r,
                      match r with
                      | Err (StepError_Failed (BootFrameError_Closed | BootFrameError_Io _)) =>
                          Finish (Ok node)
                      | Err e => p_err (ServeError_Frame e)
                      | Ok other => p_err (ServeError_Unexpected (str "the end of the control stream") (boot_kind other))
                      end)
                end)
          end)
  | other => p_err (ServeError_Unexpected (str "Join") (boot_kind other))
  end.

(** The task's end: the connection is closed, whichever way. *)
Definition close_after (r : Result ServeError KeyId) : Prog SponsorOp (Result ServeError KeyId) :=
  match r with
  | Ok node => Await (CloseConn 0 (bytes_of (str "joined"))) (λ _, Finish (Ok node))
  | Err e =>
      let reason := close_reason_of e in
      Await (CloseConn (CloseReason_code reason) (CloseReason_message reason)) (λ _, Finish (Err e))
  end.

Fixpoint p_then {A B} (p : Prog SponsorOp A) (k : A → Prog SponsorOp B) : Prog SponsorOp B :=
  match p with
  | Finish a => k a
  | Panics => Panics
  | Await op f => Await op (λ b, p_then (f b) k)
  end.

(** Serves one joiner's connection to completion, closing it after. *)
Definition bootstrap_serve (remote : EndpointId) : Prog SponsorOp (Result ServeError KeyId) :=
  p_then (serve_join remote) close_after.
End sponsor.

(** ** The joiner's side *)

Section joiner.
Context `{BootCodec} `{!MessageDecode} `{!KeyCrates} {S E IoError SysError ConnectError ConnectionError : Type}.
Context `{IoErrors IoError} `{Storage S E}.
Abbreviation FErr := (BootFrameError IoError) (only parsing).
Abbreviation SErr := (SyncError IoError (Error E)) (only parsing).
Abbreviation IErr := (InitError (E := E) (IoError := IoError) (SysError := SysError)) (only parsing).

(** Why a join did not end in a cluster on disk; the two roots are texts in hex. *)
Inductive JoinError : Type :=
  | JoinError_InviteVersion (theirs : N)
  | JoinError_Connect (e : ConnectError)
  | JoinError_Open (e : StepError ConnectionError)
  | JoinError_Frame (e : StepError FErr)
  | JoinError_Refused (reason : rstring)
  | JoinError_Unexpected (expected got : rstring)
  | JoinError_RootMismatch (expected got : EnvelopeDigest)
  | JoinError_Undigestable (e : WireError)
  | JoinError_Init (e : IErr)
  | JoinError_Sync (e : SErr)
  | JoinError_NoCommonHistory
  | JoinError_AdmissionMissing
  | JoinError_Chain (e : Error E)
  | JoinError_SponsorNotTrusted
  | JoinError_NotTrusted.

(** What a finished join leaves behind. *)
Record Joined := MkJoined { joined_core : Core S; joined_admitted : EnvelopeDigest }.

(** The connection: whether it comes up, its control stream both ways, each stream
    opened on it, the first being the control stream, and how this side ended it. *)
Record Conn := MkConn {
  connects : Result ConnectError ();
  opens : list (Result (StepError ConnectionError) (Transport IoError));
  control_in : Inbound IoError;
  control_out : Outbound IoError;
  conn_closed : option (N * list u8);
}.

(** The joiner's state directory and its connection. *)
Record World := MkWorld { disk : Dir S E IoError SysError; conn : Conn }.

Abbreviation J := (M World JoinError) (only parsing).

Definition with_conn (w : World) opens control_in control_out closed : World :=
  MkWorld (disk w) (MkConn (connects (conn w)) opens control_in control_out closed).

Definition connect : J () := λ w,
  Ret (match connects (conn w) with Ok _ => Ok () | Err e => Err (JoinError_Connect e) end, w).

(** Opens the next stream; a peer past its script never lets one open. *)
Definition open_bi : J (Transport IoError) := λ w,
  let c := conn w in
  match opens c with
  | [] => Ret (Err (JoinError_Open StepError_TimedOut), w)
  | r :: rest =>
      Ret (match r with Ok t => Ok t | Err e => Err (JoinError_Open e) end,
           with_conn w rest (control_in c) (control_out c) (conn_closed c))
  end.

Definition send_frame (message : BootMessage) : J () := λ w,
  let c := conn w in
  match write_frame message (control_out c) with
  | Ret (r, out) =>
      Ret (match r with Ok _ => Ok () | Err e => Err (JoinError_Frame e) end,
           with_conn w (opens c) (control_in c) out (conn_closed c))
  | Panic => Panic
  | Diverge => Diverge
  end.

Definition receive_frame : J BootMessage := λ w,
  let c := conn w in
  match read_frame (control_in c) with
  | Ret (r, inb) =>
      Ret (match r with Ok m => Ok m | Err e => Err (JoinError_Frame e) end,
           with_conn w (opens c) inb (control_out c) (conn_closed c))
  | Panic => Panic
  | Diverge => Diverge
  end.

(** Finishes the control stream and closes the connection. *)
Definition finish_control : J () := λ w,
  let c := conn w in
  Ret (Ok (), with_conn w (opens c) (control_in c) (control_out c) (Some (0%N, bytes_of (str "joined")))).

(** A call on the state directory. *)
Definition on_disk {A} (m : M (Dir S E IoError SysError) IErr A) : J A := λ w,
  match m (disk w) with
  | Ret (Ok a, d) => Ret (Ok a, MkWorld d (conn w))
  | Ret (Err e, d) => Ret (Err (JoinError_Init e), MkWorld d (conn w))
  | Panic => Panic
  | Diverge => Diverge
  end.

Definition set_db (w : World) (db : S) : World := MkWorld (with_db db (disk w)) (conn w).

(** The fuel the core's loops run on, for the log it holds and the run it takes. *)
Variable fuel : Core S → list Envelope → nat.

(** Pulls whatever the sponsor has past this core's head, over a bi-stream of its
    own; the database is the core's. *)
Definition join_pull (core : Core S) : J (Core S) :=
  let! transport := open_bi in
  λ w,
  match pull (SyncCore0 := Core_SyncCore fuel) (script_bytes transport + 2) (core, transport) with
  | Ret (Ok (PullOutcome_Synced _ _ | PullOutcome_AlreadyCurrent), (core, _)) =>
      Ret (Ok core, set_db w (core_storage core))
  | Ret (Ok PullOutcome_NoCommonHistory, (core, _)) =>
      Ret (Err JoinError_NoCommonHistory, set_db w (core_storage core))
  | Ret (Err e, (core, _)) => Ret (Err (JoinError_Sync e), set_db w (core_storage core))
  | Panic => Panic
  | Diverge => Diverge
  end.

(** [Core::trusted_keys]. *)
Definition core_trusted_keys (self : Core S) : Comp (Error E) (BTreeMap KeyId Key) :=
  c_map_err (λ e, Error_Apply e) (trusted_keys (chain_ledger (core_chain self)) (core_storage self)).

(** Joins the cluster an invite names, as far as the first pull. The check of the
    endpoint against the keys is a debug assertion on the caller. *)
Definition join_begun (keys : NodeKeys) (invite : Invite) : J (Core S) :=
  if decide (invite_version invite ≠ VERSION) then m_err (JoinError_InviteVersion (invite_version invite))
  else
    do! connect in
    do! open_bi in
    do! send_frame (BootMessage_Join (MkJoin JOIN_PROTOCOL_VERSION (token invite) (NodeKeys_public_key keys))) in
    let! answer := receive_frame in
    let! welcome := match answer with
                    | BootMessage_Welcome welcome => m_ret welcome
                    | BootMessage_Refused refused => m_err (JoinError_Refused (refused_reason refused))
                    | other => m_err (JoinError_Unexpected (str "Welcome") (boot_kind other))
                    end in
    let! got := m_lift match Envelope_digest (welcome_root_envelope welcome) with
                       | Ok d => Ok d
                       | Err e => Err (JoinError_Undigestable e)
                       end in
    if decide (got ≠ invite_root invite) then m_err (JoinError_RootMismatch (invite_root invite) got)
    else
      let! core := on_disk (join_in_state_dir (welcome_root_envelope welcome) (welcome_state welcome)) in
      join_pull core.

(** And from there: the admission, the second pull, and what the chain must say. *)
Definition join (keys : NodeKeys) (invite : Invite) : J Joined :=
  let! core := join_begun keys invite in
  let! answer := receive_frame in
  let! admitted := match answer with
                   | BootMessage_Admitted admitted => m_ret (admitted_digest admitted)
                   | BootMessage_Refused refused => m_err (JoinError_Refused (refused_reason refused))
                   | other => m_err (JoinError_Unexpected (str "Admitted") (boot_kind other))
                   end in
  let! core := join_pull core in
  let! held := m_map_err JoinError_Chain (m_ask (λ _, core_contains (fuel core []) core admitted)) in
  if negb held then m_err JoinError_AdmissionMissing
  else
    let! trusted := m_map_err JoinError_Chain (m_ask (λ _, core_trusted_keys core)) in
    if negb (bt_contains_key trusted (sponsor invite)) then m_err JoinError_SponsorNotTrusted
    else
      let! own := m_ask (λ _, c_expect (PublicKey_id (NodeKeys_public_key keys))) in
      if negb (bt_contains_key trusted own) then m_err JoinError_NotTrusted
      else
        do! finish_control in
        m_ret (MkJoined core admitted).
End joiner.
