(* ===== verification/BootstrapProps.v ===== *)
(** * Joining a cluster: properties

    The sponsor beside its mainloop and other joiners, the state directory a node
    founds or joins in, and the joiner against any sponsor. *)

From S2P Require Import Prelude BTree Text Codec Externals Keys Subkey Msg Envelope Value.
From S2P Require Import Storage Mem Addr StateError Ledger LedgerSpec LedgerProps Chain ChainSpec ChainStore.
From S2P Require Import ChainInsert ChainCompact Change ChangeSpec ChangeWalk Fixtures ChainFixtures.
From S2P Require Import Locator Sync Frame Puller Server SyncDriver Contract DriverSpec SessionSpec FrameSpec.
From S2P Require Import Subscribe Core CoreSync CorePath CoreSpec CoreSession CoreNode CoreFixtures SyncProps.
From S2P Require Import Compaction Advertise AdvertiseSpec AdvertiseProps StateDirectory PeerLink Invite InviteProps.
From S2P Require Import AddrPublish PeerEgress Mainloop MainloopProps Bootstrap.

(** ** A task at every turn *)

Section always.
Context {Op : Type → Type} {A D : Type} (note : ∀ B, Op B → B → list D).

(** [P] holds of what the task has done and of how it ended, now and at every turn
    to come, however it is answered; it never panics. *)
Fixpoint always (P : list D → option A → Prop) (p : Prog Op A) (log : list D) : Prop :=
  match p with
  | Finish a => P log (Some a)
  | Panics => False
  | Await op k => P log None ∧ ∀ b, always P (k b) (log ++ note _ op b)
  end.

Definition ended_with (p : Prog Op A) : option A := match p with Finish a => Some a | _ => None end.

Lemma always_now P p log : always P p log → P log (ended_with p) ∧ p ≠ Panics.
Proof using. destruct p; simpl; [done|done|by intros [? _]]. Qed.

(** It ends within [n] answers. *)
Fixpoint within (n : nat) (p : Prog Op A) : Prop :=
  match p with
  | Finish _ | Panics => True
  | Await op k => match n with 0 => False | S n => ∀ b, within n (k b) end
  end.
End always.

(** ** The sponsor *)

Section sponsor.
Context `{BootCodec} `{!IrohEq} {S E IoError SysError ConnectionError : Type} `{StorageSpec S E}.
Hypothesis Hid : ∀ k, is_Some (Key_id k).
Variables (ago : N → option StoredAt) (keep : nat).

Abbreviation SOp := (SponsorOp (E := E) (IoError := IoError) (SysError := SysError) (ConnectionError := ConnectionError)) (only parsing).
Abbreviation SErr := (SyncError IoError (Error E)) (only parsing).
Abbreviation Ended := (Result (ServeError (E := E) (IoError := IoError) (SysError := SysError) (ConnectionError := ConnectionError)) KeyId) (only parsing).
Abbreviation Loop := (Mainloop (S := S) (IoError := IoError)) (only parsing).
Abbreviation World := (Surroundings (E := E) (SysError := SysError)) (only parsing).

(** What a join's task has done. *)
Inductive Deed : Type :=
  | Heard (message : BootMessage)
  | Wrote (message : BootMessage)
  | Told (message : BootMessage)
  | Served (r : Result SErr ServeOutcome)
  | Redeems (token : Token) (r : Result (InviteError (E := E) (SysError := SysError)) Welcomed)
  | Admits (key : Key) (addr : EndpointAddr) (r : Result (AdmitError E) EnvelopeDigest)
  | Closes (code : N).

Definition note B (op : SOp B) : B → list Deed :=
  match op in SponsorOp B return B → list Deed with
  | AcceptBi => λ _, []
  | ReadFrame => λ r, match r with Ok m => [Heard m] | Err _ => [] end
  | WriteFrame m => λ r, match r with Ok _ => [Wrote m] | Err _ => [] end
  | Deliver m => λ _, [Told m]
  | ServeSession => λ r, [Served r]
  | RedeemInvite t => λ r, [Redeems t r]
  | Admit key addr => λ r, [Admits key addr r]
  | CloseConn code _ => λ _, [Closes code]
  end.

(** A session served to its end, or left by a joiner already at our head. *)
Definition pulled (r : Result SErr ServeOutcome) : Prop :=
  match r with Ok _ | Err SyncError_PeerClosed => True | Err _ => False end.

(** The order of a join: an admission is of the key the joiner presented with its
    token, at the weight the token was redeemed for and at the endpoint it dialled
    from, after the root was handed over and a pull served; the joiner is told of
    no other, and a join that ends well admitted it. *)
Record in_order (remote : EndpointId) (deeds : list Deed) (ended : option Ended) : Prop := {
  io_redeems token r : Redeems token r ∈ deeds →
    ∃ join rest, deeds = Heard (BootMessage_Join join) :: Redeems token r :: rest ∧ token = join_token join ∧
      join_version join = JOIN_PROTOCOL_VERSION;
  io_admits key addr r : Admits key addr r ∈ deeds →
    ∃ join w served rest,
      deeds = Heard (BootMessage_Join join) :: Redeems (join_token join) (Ok w) ::
        Wrote (BootMessage_Welcome (MkWelcome (welcomed_root w) (welcomed_state w))) :: Served served ::
        Admits key addr r :: rest ∧
      pulled served ∧ key = Key_new (join_key join) (welcomed_weight w) ∧ addr = bare_addr remote;
  io_told digest : Wrote (BootMessage_Admitted (MkAdmitted digest)) ∈ deeds →
    ∃ key addr, Admits key addr (Ok digest) ∈ deeds;
  io_ended r : ended = Some r →
    match r with
    | Ok node => ∃ key digest, Admits key (bare_addr remote) (Ok digest) ∈ deeds ∧ Key_id key = Some node ∧
        Wrote (BootMessage_Admitted (MkAdmitted digest)) ∈ deeds ∧ Closes 0 ∈ deeds
    | Err e => Closes (CloseReason_code (close_reason_of e)) ∈ deeds
    end;
}.

Local Ltac listed H := repeat (apply elem_of_cons in H as [H|H]); [.. | by apply not_elem_of_nil in H].

Local Ltac find_in := repeat (first [by left | right]).

Local Ltac ordered :=
  split;
  [ intros ?? Hin; listed Hin; simplify_eq; by do 2 eexists
  | intros ??? Hin; listed Hin; simplify_eq; by do 4 eexists
  | intros ? Hin; listed Hin; simplify_eq; do 2 eexists; find_in
  | intros r Hr; simplify_eq; simpl; first [solve [find_in] | do 2 eexists; split_and!; [find_in|done|find_in|find_in]] ].

Local Ltac every_turn :=
  cbn [p_bind p_then always note app];
  first
    [ solve [ordered]
    | match goal with |- _ ∧ _ => split; [ordered|intros ?; every_turn] end
    | match goal with
      | |- context [match ?x with _ => _ end] => is_var x; destruct x; every_turn
      | |- context [match Key_id ?k with _ => _ end] =>
          let Hk := fresh "Hnode" in destruct (Hid k) as [? Hk]; rewrite Hk; every_turn
      | |- context [decide ?P] =>
          let Hd := fresh in destruct (decide P) as [Hd|Hd]; [|apply dec_stable in Hd]; every_turn
      end ].

Lemma serve_in_order (remote : EndpointId) :
  always note (in_order remote) (bootstrap_serve remote) [].
Proof using Hid.
  unfold bootstrap_serve, serve_join, serve_pull, refuse, p_try, p_expect, p_err, close_after.
  every_turn.
Qed.

Local Ltac every_answer :=
  cbn [p_bind p_then within];
  first
    [ exact I
    | match goal with
      | |- ∀ _, _ => intros ?; every_answer
      | |- context [match ?x with _ => _ end] => is_var x; destruct x; every_answer
      | |- context [match Key_id ?k with _ => _ end] => destruct (Key_id k); every_answer
      | |- context [decide ?P] => destruct (decide P); every_answer
      end ].

Lemma serve_ends (remote : EndpointId) :
  within 12 (bootstrap_serve (E := E) (IoError := IoError) (SysError := SysError) (ConnectionError := ConnectionError) remote).
Proof using.
  unfold bootstrap_serve, serve_join, serve_pull, refuse, p_try, p_expect, p_err, close_after. every_answer.
Qed.

(** ** Beside the mainloop *)

(** One connection's task, with what it has done. *)
Record Task := MkTask { task_remote : EndpointId; task_prog : Prog SOp Ended; task_deeds : list Deed }.

(** The sponsor: its mainloop, the joiners it is serving, and every invite it ever
    issued. *)
Record Sponsor := MkSponsor { sp_loop : Loop; sp_tasks : gmap nat Task; sp_issued : list Pending }.

(** What answers an operation: the mainloop, over its handle, or the handle saying
    that it is gone; everything else is the network's to say. *)
Definition answers_op (fuel : nat) {B} (op : SOp B) : B → Loop → Loop → Prop :=
  match op in SponsorOp B return B → Loop → Loop → Prop with
  | RedeemInvite t => λ r self self',
      (∃ world : World, handle_message ago keep fuel world (ServerMsg_RedeemInvite t) self = Ret (Some (Reply_RedeemInvite r), self')) ∨
      (r = Err InviteError_ServerGone ∧ self' = self)
  | Admit key addr => λ r self self',
      (∃ world : World, handle_message ago keep fuel world (ServerMsg_Admit key addr) self = Ret (Some (Reply_Admit r), self')) ∨
      (r = Err AdmitError_ServerGone ∧ self' = self)
  | _ => λ _ self self', self' = self
  end.

(** What a turn of the mainloop grants. *)
Definition grants (world : World) (event : MainEvent)
    (r : option (option (Reply (E := E) (IoError := IoError) (SysError := SysError)))) : list Pending :=
  match event, r with
  | MainEvent_Message (ServerMsg_CreateInvite weight _), Some (Some (Reply_CreateInvite (Ok issued))) =>
      [MkPending (token (issued_invite issued)) weight
         (default (instant_now world) (checked_add_instant (instant_now world) (issued_ttl issued)))
         (invite_root (issued_invite issued))]
  | _, _ => []
  end.

(** Redeeming and admitting is asked for by the joins' tasks alone. *)
Definition others (event : MainEvent) : Prop :=
  match event with MainEvent_Message (ServerMsg_RedeemInvite _ | ServerMsg_Admit _ _) => False | _ => True end.

Inductive sponsor_step : Sponsor → Sponsor → Prop :=
  | step_turn fuel world event r loop loop' tasks issued :
      others event → (∀ t, entropy world = Ok t → t ∉ pending_token <$> issued) →
      mainloop_turn ago keep fuel world event loop = Ret (r, loop') →
      sponsor_step (MkSponsor loop tasks issued) (MkSponsor loop' tasks (issued ++ grants world event r))
  | step_dialled i remote loop tasks issued :
      tasks !! i = None →
      sponsor_step (MkSponsor loop tasks issued)
        (MkSponsor loop (<[i := MkTask remote (bootstrap_serve remote) []]> tasks) issued)
  | step_answered fuel i remote {B} (op : SOp B) k deeds answer loop loop' tasks issued :
      tasks !! i = Some (MkTask remote (Await op k) deeds) → answers_op fuel op answer loop loop' →
      sponsor_step (MkSponsor loop tasks issued)
        (MkSponsor loop' (<[i := MkTask remote (k answer) (deeds ++ note B op answer)]> tasks) issued).

(** The token a task has had redeemed, for the weight it was promised. *)
Definition spent (deeds : list Deed) (t : Token) (weight : N) : Prop :=
  ∃ w, Redeems t (Ok w) ∈ deeds ∧ welcomed_weight w = weight.

Record sponsor_inv (sp : Sponsor) : Prop := {
  si_tokens : NoDup (pending_token <$> sp_issued sp);
  si_book_tokens : NoDup (pending_token <$> ml_invites (sp_loop sp));
  si_book p : p ∈ ml_invites (sp_loop sp) → p ∈ sp_issued sp;
  si_tasks i t : sp_tasks sp !! i = Some t → always note (in_order (task_remote t)) (task_prog t) (task_deeds t);
  si_spent i t tok weight : sp_tasks sp !! i = Some t → spent (task_deeds t) tok weight →
    (∃ p, p ∈ sp_issued sp ∧ pending_token p = tok ∧ pending_weight p = weight) ∧
    tok ∉ pending_token <$> ml_invites (sp_loop sp);
  si_once i j ti tj tok wi wj : sp_tasks sp !! i = Some ti → sp_tasks sp !! j = Some tj →
    spent (task_deeds ti) tok wi → spent (task_deeds tj) tok wj → i = j;
}.

(** The book a turn leaves. *)
Lemma moves_book {X A} (reply : Result X A → Reply (E := E) (IoError := IoError) (SysError := SysError))
    (m : M (Core S) X A) (self : Loop) r self' :
  moves reply m self = Ret (r, self') → ml_invites self' = ml_invites self.
Proof using. unfold moves. destruct (m _) as [[? ?]| |]; [|done..]. by intros [= _ <-]. Qed.

Lemma responds_book {X A} (reply : Result X A → Reply (E := E) (IoError := IoError) (SysError := SysError))
    (c : Comp X A) (self : Loop) r self' :
  responds reply c self = Ret (r, self') → ml_invites self' = ml_invites self.
Proof using. unfold responds. destruct c; [|done..]. by intros [= _ <-]. Qed.

Lemma compacts_book {A} (reply : _ → A) (m : M (Core S * StateDir IoError) (CompactError E IoError) Compacted) (self : Loop) r self' :
  compacts reply m self = Ret (r, self') → ml_invites self' = ml_invites self.
Proof using. unfold compacts. destruct (m _) as [[? []]| |]; [|done..]. by intros [= _ <-]. Qed.

Abbreviation tokens l := (pending_token <$> l) (only parsing).

Lemma create_book (world : World) weight ttl (self : Loop) r self' :
  create_invite world weight ttl self = Ret (r, self') →
  ml_invites self' = ml_invites self ∨
  ∃ issued, r = Ok issued ∧ entropy world = Ok (token (issued_invite issued)) ∧
    ml_invites self' = Invite.prune (instant_now world) (ml_invites self) ++
      grants world (MainEvent_Message (ServerMsg_CreateInvite weight ttl)) (Some (Some (Reply_CreateInvite r))).
Proof using Hid.
  unfold create_invite. destruct (peers_endpoint _) as [endpoint|]; [|intros [= _ <-]; by left].
  destruct (signs_alone _) as [[[[]|reason]|e]| |]; try done; try (intros [= _ <-]; by left).
  destruct (entropy world) as [t|e]; [|intros [= _ <-]; by left].
  destruct (key_id_answers (E' := Error E) Hid (ml_core self)) as (id & -> & _).
  intros [= <- <-]. right. by eexists.
Qed.

Lemma redeem_book (world : World) t (self : Loop) r self' :
  NoDup (tokens (ml_invites self)) → redeem_invite world t self = Ret (r, self') →
  ml_invites self' = Invite.prune (instant_now world) (base.filter (λ q, pending_token q ≠ t) (ml_invites self)) ∧
  ∀ w, r = Ok w → ∃ p, p ∈ ml_invites self ∧ pending_token p = t ∧ pending_weight p = welcomed_weight w.
Proof using.
  intros Hnd. unfold redeem_invite. destruct (redeem_spec t (instant_now world) _ Hnd) as (red & -> & Hred).
  destruct red as [[weight]|e]; [|by intros [= <- <-]].
  destruct (welcome_root _) as [[[root state]|e]| |]; [..|done|done]; intros [= <- <-]; (split; [done|]); [|done].
  intros w [= <-]. destruct (proj1 (Hred weight) eq_refl) as (p & Hp & Ht & _ & Hw). by exists p.
Qed.

Lemma message_book fuel (world : World) msg (self : Loop) r self' :
  others (MainEvent_Message msg) → handle_message ago keep fuel world msg self = Ret (r, self') →
  ml_invites self' = ml_invites self ∨
  ∃ weight ttl c, msg = ServerMsg_CreateInvite weight ttl ∧ r = Some (Reply_CreateInvite c) ∧
    create_invite world weight ttl self = Ret (c, self').
Proof using.
  intros Ho. unfold handle_message.
  assert (∀ (o : Outcome (Reply (E := E) (IoError := IoError) (SysError := SysError) * Loop)) r self', match o with Ret (reply, self) => Ret (Some reply, self) | Panic => Panic | Diverge => Diverge end
    = Ret (r, self') → ∃ reply, o = Ret (reply, self') ∧ r = Some reply) as Hans.
  { intros [[reply s]| |] ? ?; [|done..]. intros [= <- <-]. by eexists. }
  destruct msg; try done;
    try (intros [= _ <-]; by left);
    try (intros (reply & Hr & _)%Hans; left; first [by apply responds_book in Hr|by apply moves_book in Hr|by apply compacts_book in Hr]).
  destruct (create_invite _ _ _ _) as [[c s]| |] eqn:Hc; [|done..]. intros [= <- <-]. right. by do 3 eexists.
Qed.

Lemma turn_book fuel (world : World) event (self : Loop) r self' :
  others event → (∀ t, entropy world = Ok t → t ∉ tokens (ml_invites self)) → NoDup (tokens (ml_invites self)) →
  mainloop_turn ago keep fuel world event self = Ret (r, self') →
  NoDup (tokens (ml_invites self')) ∧
  (∀ p, p ∈ ml_invites self' → p ∈ ml_invites self ∨ p ∈ grants world event r) ∧
  (∀ p, p ∈ grants world event r → entropy world = Ok (pending_token p)) ∧ length (grants world event r) ≤ 1.
Proof using Hid.
  intros Ho Hfresh Hnd Hturn.
  assert (ml_invites self' = ml_invites self ∧ grants world event r = [] ∨
    ∃ weight ttl c, event = MainEvent_Message (ServerMsg_CreateInvite weight ttl) ∧ r = Some (Some (Reply_CreateInvite c)) ∧
      create_invite world weight ttl self = Ret (c, self')) as Hcases.
  { destruct event as [msg| | |]; cbn [mainloop_turn] in Hturn.
    - destruct (handle_message _ _ _ _ _ _) as [[[reply|] s]| |] eqn:Hm; try done; injection Hturn as <- <-;
        destruct (message_book _ _ _ _ _ _ Ho Hm) as [Heq|(weight & ttl & c & -> & [= ->] & Hc)]; try (right; by do 3 eexists).
      + destruct msg; try (by left).
        destruct reply; try (by left).
        unfold handle_message in Hm. destruct (create_invite world weight ttl self) as [[c s']| |] eqn:Hc; [|done..].
        injection Hm as -> ->. right. by do 3 eexists.
      + left. split; [done|]. by destruct msg.
    - injection Hturn as <- <-. by left.
    - injection Hturn as <- <-. by left.
    - apply compacts_book in Hturn as Hb. by left. }
  destruct Hcases as [[Hb ->]|(weight & ttl & c & -> & -> & Hc)].
  - rewrite Hb. split_and!; [done|by left|by intros p ?%not_elem_of_nil|simpl; lia].
  - destruct (create_book _ _ _ _ _ _ Hc) as [Hb|(issued & -> & Ht & Hb)].
    + rewrite Hb. split_and!; [done|by left| |by destruct c; simpl; lia].
      destruct c as [issued|e]; [|by intros p ?%not_elem_of_nil]. intros p ->%list_elem_of_singleton. simpl.
      unfold create_invite in Hc. clear Hb. destruct (peers_endpoint _) as [endpoint|]; [|done].
      destruct (signs_alone _) as [[[[]|reason]|e]| |]; try done. destruct (entropy world) as [t|e]; [|done].
      destruct (key_id_answers (E' := Error E) Hid (ml_core self)) as (id & Hk & _). rewrite Hk in Hc. by injection Hc as <- _.
    + rewrite Hb. split_and!.
      * rewrite fmap_app. apply NoDup_app. split_and!; [by apply NoDup_tokens| |apply NoDup_singleton].
        intros x (q & -> & Hq)%list_elem_of_fmap Heq%list_elem_of_singleton. simpl in Heq.
        apply (Hfresh _ Ht). rewrite <-Heq. apply elem_of_prune in Hq as [Hq _]. apply list_elem_of_fmap. by exists q.
      * intros p [[Hp _]%elem_of_prune|Hp]%elem_of_app; [by left|by right].
      * by intros p ->%list_elem_of_singleton.
      * simpl. lia.
Qed.

Lemma token_in (l : list Pending) p : p ∈ l → pending_token p ∈ tokens l.
Proof using. intros Hp. apply list_elem_of_fmap. by exists p. Qed.

Lemma tokens_sub (l k : list Pending) t : (∀ p, p ∈ l → p ∈ k) → t ∈ tokens l → t ∈ tokens k.
Proof using. intros Hsub (p & -> & Hp)%list_elem_of_fmap. by apply token_in, Hsub. Qed.

Lemma spent_note {B} (op : SOp B) answer t weight :
  spent (note B op answer) t weight → match op with RedeemInvite _ => True | _ => False end.
Proof using.
  intros (w & Hin & _). destruct op; cbn [note] in Hin; try done; repeat case_match;
    first [by apply not_elem_of_nil in Hin | by apply list_elem_of_singleton in Hin].
Qed.

Lemma spent_app deeds more t weight : spent (deeds ++ more) t weight → spent deeds t weight ∨ spent more t weight.
Proof using. intros (w & [Hin|Hin]%elem_of_app & Hw); [left|right]; by exists w. Qed.

(** What an answer leaves of the book. *)
Lemma answer_book fuel {B} (op : SOp B) answer (self self' : Loop) :
  answers_op fuel op answer self self' → NoDup (tokens (ml_invites self)) →
  NoDup (tokens (ml_invites self')) ∧ (∀ p, p ∈ ml_invites self' → p ∈ ml_invites self) ∧
  ∀ t weight, spent (note B op answer) t weight →
    (∃ p, p ∈ ml_invites self ∧ pending_token p = t ∧ pending_weight p = weight) ∧ t ∉ tokens (ml_invites self').
Proof using.
  intros Hans Hnd.
  assert (∀ self'' : Loop, ml_invites self'' = ml_invites self → NoDup (tokens (ml_invites self'')) ∧
    (∀ p, p ∈ ml_invites self'' → p ∈ ml_invites self)) as Hsame by (by intros ? ->).
  destruct op; cbn [answers_op] in Hans; try (subst self'; split_and!; [done..|]; by intros ?? ?%spent_note).
  - destruct Hans as [[world Hm]|[-> ->]].
    2: { split_and!; [done..|]. intros t w (? & Hin & ?). apply list_elem_of_singleton in Hin. done. }
    cbn [handle_message] in Hm. destruct (redeem_invite _ _ _) as [[r s]| |] eqn:Hr; [|done..]. injection Hm as -> ->.
    destruct (redeem_book _ _ _ _ _ Hnd Hr) as [Hb Hok]. rewrite Hb. split_and!.
    + by apply NoDup_tokens, NoDup_tokens.
    + intros p [[_ Hp]%list_elem_of_filter _]%elem_of_prune. done.
    + intros t weight (w & Hin & Hw). apply list_elem_of_singleton in Hin. injection Hin as -> <-.
      destruct (Hok w eq_refl) as (p & Hp & Ht & Hpw). split; [exists p; by rewrite Hpw|].
      intros (q & -> & [[Hne _]%list_elem_of_filter _]%elem_of_prune)%list_elem_of_fmap. done.
  - destruct Hans as [[world Hm]|[-> ->]].
    2: { split_and!; [done..|]. intros t w (? & Hin & ?). by apply list_elem_of_singleton in Hin. }
    assert (ml_invites self' = ml_invites self) as Hb.
    { cbn [handle_message] in Hm. destruct (moves _ _ _) as [[r s]| |] eqn:Hmv; [|done..]. injection Hm as _ ->.
      by apply moves_book in Hmv. }
    destruct (Hsame _ Hb). split_and!; [done..|]. intros t w (? & Hin & ?). by apply list_elem_of_singleton in Hin.
Qed.

Lemma sponsor_step_inv sp sp' : sponsor_step sp sp' → sponsor_inv sp → sponsor_inv sp'.
Proof using Hid.
  intros Hstep [Htok Hbt Hbook Htasks Hspent Honce].
  destruct Hstep as [fuel world event r loop loop' tasks issued Ho Hfresh Hturn
    |i remote loop tasks issued Hi|fuel i remote B op k deeds answer loop loop' tasks issued Hi Hans]; cbn [sp_loop sp_tasks sp_issued] in *.
  - assert (∀ t, entropy world = Ok t → t ∉ tokens (ml_invites loop)) as Hfresh'.
    { intros t Ht Hin. by eapply Hfresh, tokens_sub. }
    destruct (turn_book _ _ _ _ _ _ Ho Hfresh' Hbt Hturn) as (Hbt' & Hsub & Hgr & Hlen).
    split; cbn [sp_loop sp_tasks sp_issued]; [|done| |done| |done].
    + rewrite fmap_app. apply NoDup_app. split_and!; [done|intros t Ht (p & -> & Hp%Hgr)%list_elem_of_fmap; by eapply Hfresh|].
      destruct (grants _ _ _) as [|p [|]]; simpl in *; [constructor|apply NoDup_singleton|lia].
    + intros p [Hp|Hp]%Hsub; apply elem_of_app; [left; by apply Hbook|by right].
    + intros i t tok weight Ht Hs. destruct (Hspent i t tok weight Ht Hs) as [(p & Hp & Hpt & Hpw) Hn].
      split; [exists p; split_and!; [apply elem_of_app; by left|done..]|].
      intros (q & -> & [Hq|Hq%Hgr]%Hsub)%list_elem_of_fmap; [by apply Hn, token_in|].
      eapply Hfresh; [exact Hq|]. rewrite <-Hpt. by apply token_in.
  - split; cbn [sp_loop sp_tasks sp_issued]; [done..| | |].
    + intros j t [[<- <-]|[_ Ht]]%lookup_insert_Some; [apply (serve_in_order remote)|by apply Htasks in Ht].
    + intros j t tok weight [[<- <-]|[_ Ht]]%lookup_insert_Some Hs; [|by eapply Hspent].
      destruct Hs as (w & Hin & _). by apply not_elem_of_nil in Hin.
    + intros j l tj tl tok wj wl [[<- <-]|[_ Hj]]%lookup_insert_Some [[<- <-]|[_ Hl]]%lookup_insert_Some Hsj Hsl;
        [done|destruct Hsj as (w & Hin & _)|destruct Hsl as (w & Hin & _)|by eapply Honce]; by apply not_elem_of_nil in Hin.
  - destruct (answer_book _ _ _ _ _ Hans Hbt) as (Hbt' & Hsub & Hnew).
    pose proof (Htasks i _ Hi) as Hal. cbn [task_prog task_deeds task_remote always] in Hal. destruct Hal as [_ Hal].
    assert (∀ tok weight, spent (deeds ++ note B op answer) tok weight →
      spent deeds tok weight ∨ (∃ p, p ∈ ml_invites loop ∧ pending_token p = tok ∧ pending_weight p = weight) ∧
        tok ∉ tokens (ml_invites loop')) as Hcases by (intros tok weight [?|?%Hnew]%spent_app; [by left|by right]).
    split; cbn [sp_loop sp_tasks sp_issued]; [done..|by intros p Hp%Hsub; apply Hbook| | |].
    + intros j t [[<- <-]|[_ Ht]]%lookup_insert_Some; [apply Hal|by apply Htasks in Ht].
    + assert (∀ j t tok weight, tasks !! j = Some t → spent (task_deeds t) tok weight →
        (∃ p, p ∈ issued ∧ pending_token p = tok ∧ pending_weight p = weight) ∧ tok ∉ tokens (ml_invites loop')) as Hold.
      { intros j t tok weight Ht Hs. destruct (Hspent j t tok weight Ht Hs) as [Hp Hn]. split; [done|].
        intros Hin. apply Hn. by eapply tokens_sub. }
      intros j t tok weight [[<- <-]|[_ Ht]]%lookup_insert_Some Hs; [|by eapply Hold].
      destruct (Hcases tok weight Hs) as [Hs'|[(p & Hp & Hpt & Hpw) Hn]]; [by apply (Hold i _ tok weight Hi)|].
      split; [|done]. exists p. split_and!; [by apply Hbook|done..].
    + assert (∀ j t tok w w', i ≠ j → tasks !! j = Some t → spent (deeds ++ note B op answer) tok w → spent (task_deeds t) tok w' → False) as Hne.
      { intros j t tok w w' Hij Hj [Hs'|[(p & Hp & Hpt & Hpw) _]]%Hcases Hs; [by apply Hij; eapply Honce|].
        destruct (Hspent j t tok w' Hj Hs) as [_ Hn]. apply Hn. rewrite <-Hpt. by apply token_in. }
      intros j l tj tl tok wj wl [[<- <-]|[Hij Hj]]%lookup_insert_Some [[<- <-]|[Hil Hl]]%lookup_insert_Some Hsj Hsl;
        [done|by destruct (Hne l tl tok wj wl Hil Hl Hsj Hsl)|by destruct (Hne j tj tok wl wj Hij Hj Hsl Hsj)|by eapply Honce].
Qed.

(** C22: a sponsor admits exactly whom it invited. However the joiners' tasks, the
    mainloop's other messages and the clock interleave, and however peers and
    network answer, with no token drawn twice: every admission asked of the
    mainloop is of the key the joiner presented with a token the mainloop issued,
    at that invite's weight and at the endpoint dialled from, after the root was
    handed over and the joiner's pull served; no two joins spend the same token;
    the joiner is told of an admission only where the mainloop made it, a join
    ends well only then, and closes blaming whoever its failure does. No task
    panics, and each ends within twelve answers. *)
Theorem admissions_spend_invites (loop : Loop) (sp : Sponsor) :
  ml_invites loop = [] → rtc sponsor_step (MkSponsor loop ∅ []) sp →
  NoDup (tokens (sp_issued sp)) ∧
  (∀ i t, sp_tasks sp !! i = Some t →
    in_order (task_remote t) (task_deeds t) (ended_with (task_prog t)) ∧ task_prog t ≠ Panics ∧
    ∀ key addr r, Admits key addr r ∈ task_deeds t →
      ∃ join p, p ∈ sp_issued sp ∧ Heard (BootMessage_Join join) ∈ task_deeds t ∧ pending_token p = join_token join ∧
        key = Key_new (join_key join) (pending_weight p) ∧ addr = bare_addr (task_remote t) ∧
        spent (task_deeds t) (pending_token p) (pending_weight p)) ∧
  (∀ i j ti tj tok wi wj, sp_tasks sp !! i = Some ti → sp_tasks sp !! j = Some tj →
    spent (task_deeds ti) tok wi → spent (task_deeds tj) tok wj → i = j) ∧
  ∀ remote, within 12 (bootstrap_serve (E := E) (IoError := IoError) (SysError := SysError) (ConnectionError := ConnectionError) remote).
Proof using Hid.
  intros Hempty Hreach.
  assert (sponsor_inv sp) as [Htok _ _ Htasks Hspent Honce].
  { assert (sponsor_inv (MkSponsor loop ∅ [])) as Hinit.
    { split; cbn [sp_loop sp_tasks sp_issued]; rewrite ?Hempty; [constructor|constructor|by intros p ?%not_elem_of_nil|..];
        by intros *; rewrite lookup_empty. }
    clear Hempty. induction Hreach as [|? ? ? Hstep _ IH]; [done|]. by eapply IH, sponsor_step_inv. }
  split_and!; [done| |done|apply serve_ends].
  intros i t Ht. pose proof (Htasks i t Ht) as Hal. destruct (always_now _ _ _ _ Hal) as [Hio Hnp]. split_and!; [done..|].
  intros key addr r Hin. destruct (io_admits _ _ _ Hio key addr r Hin) as (join & w & served & rest & Hd & _ & -> & ->).
  assert (spent (task_deeds t) (join_token join) (welcomed_weight w)) as Hs.
  { exists w. split; [|done]. rewrite Hd. right. by left. }
  destruct (Hspent i t _ _ Ht Hs) as [(p & Hp & Hpt & Hpw) _]. exists join, p. rewrite Hpt, Hpw.
  split_and!; [done| |done..]. rewrite Hd. by left.
Qed.
End sponsor.

(** ** A joiner let in *)

Lemma answer_one `{Externals} `{!IrohEq} {S E IoError SysError ConnectionError : Type} `{StorageSpec S E}
    (ago : N → option StoredAt) (keep fuel : nat) remote {B}
    (op : SponsorOp (E := E) (IoError := IoError) (SysError := SysError) (ConnectionError := ConnectionError) B)
    k deeds answer loop loop' issued :
  answers_op ago keep fuel op answer loop loop' →
  sponsor_step (S := S) ago keep (MkSponsor loop {[ 0 := MkTask remote (Await op k) deeds ]} issued)
    (MkSponsor loop' {[ 0 := MkTask remote (k answer) (deeds ++ note B op answer) ]} issued).
Proof.
  intros Hans. rewrite <-(insert_singleton_eq (M := gmap nat) 0 (MkTask remote (k answer) (deeds ++ note B op answer))
    (MkTask remote (Await op k) deeds)).
  eapply step_answered; [|exact Hans]. apply lookup_singleton_eq.
Qed.

(** Frames for the witnesses: a byte for each message of a table. *)
Definition table_codec (table : list (BootMessage (H := Toy))) : BootCodec (H := Toy) := {|
  boot_encode m := Ok [match m with BootMessage_Join _ => x00 | BootMessage_Welcome _ => x01 | BootMessage_Admitted _ => x02 | BootMessage_Refused _ => x03 end];
  boot_decode body := match body with
                      | [b] => match table !! N.to_nat (Byte.to_N b) with Some m => Ok m | None => Err WireError_Decode end
                      | _ => Err WireError_Decode
                      end;
|}.

Definition joiner_key : PublicKey := PublicKey_Ed25519 (MkEd25519PublicKey (array_repeat 32 x06)).
Definition joining : Join := MkJoin JOIN_PROTOCOL_VERSION (token_of x01) joiner_key.

Definition invite_event : MainEvent := MainEvent_Message (ServerMsg_CreateInvite 3 (1000 * SECOND)).
Definition invite_turn := mainloop_turn (E := Empty_set) (IoError := Empty_set) sample_ago 1 20 (sample_world 0 x01) invite_event sample_loop.
Definition inviting : Mainloop (S := MemNode) (IoError := Empty_set) := left_by invite_turn sample_loop.

Definition sponsor_msg (msg : ServerMsg) (self : Mainloop (S := MemNode) (IoError := Empty_set)) :=
  handle_message (E := Empty_set) (IoError := Empty_set) sample_ago 1 20 (sample_world 5 x02) msg self.

Definition redeem_msg := sponsor_msg (ServerMsg_RedeemInvite (token_of x01)) inviting.
Definition redeemed_loop : Mainloop (S := MemNode) (IoError := Empty_set) := left_by redeem_msg inviting.
Definition admit_msg :=
  sponsor_msg (ServerMsg_Admit (Key_new joiner_key 3) (bare_addr (H := Toy) (str "joiner"))) redeemed_loop.
Definition admitted_loop : Mainloop (S := MemNode) (IoError := Empty_set) := left_by admit_msg redeemed_loop.

Definition redeem_answer (r : option (Reply (E := Empty_set) (IoError := Empty_set) (SysError := Empty_set))) : option Welcomed :=
  match r with Some (Reply_RedeemInvite (Ok w)) => Some w | _ => None end.
Definition admit_answer (r : option (Reply (E := Empty_set) (IoError := Empty_set) (SysError := Empty_set))) : option EnvelopeDigest :=
  match r with Some (Reply_Admit (Ok d)) => Some d | _ => None end.

Abbreviation sample_steps := (sponsor_step (E := Empty_set) (IoError := Empty_set) (SysError := Empty_set)
  (ConnectionError := Empty_set) (S := MemNode) sample_ago 1) (only parsing).

Lemma admissions_spend_invites_witness : ∃ sp t key addr d,
  rtc sample_steps (MkSponsor sample_loop ∅ []) sp ∧ sp_tasks sp !! 0 = Some t ∧ Admits key addr (Ok d) ∈ task_deeds t ∧
  ∃ join p, p ∈ sp_issued sp ∧ Heard (BootMessage_Join join) ∈ task_deeds t ∧ pending_token p = join_token join ∧
    weight key = pending_weight p.
Proof.
  destruct (ended_Some (λ r, r) invite_turn) as (r1 & r1' & s1 & Ht1 & Hr1); [by_computing|]. subst r1.
  pose proof (left_by_eq _ _ _ sample_loop Ht1) as H1. fold inviting in H1. subst s1.
  destruct (ended_Some redeem_answer redeem_msg) as (r2 & w & s2 & Ht2 & Hr2); [by_computing|].
  pose proof (left_by_eq _ _ _ inviting Ht2) as H2. fold redeemed_loop in H2. subst s2.
  destruct r2 as [[]|]; try discriminate Hr2. destruct r as [w'|]; [|discriminate Hr2]. injection Hr2 as ->.
  assert (welcomed_weight w = 3%N) as Hw.
  { assert ((λ a, welcomed_weight a.1) <$> ended redeem_answer redeem_msg = Some 3%N) as Hi by (vm_compute; reflexivity).
    rewrite Ht2 in Hi. by injection Hi. }
  destruct w as [w_root w_state w_weight]. simpl in Hw. subst w_weight.
  destruct (ended_Some admit_answer admit_msg) as (r3 & d & s3 & Ht3 & Hr3); [by_computing|].
  pose proof (left_by_eq _ _ _ redeemed_loop Ht3) as H3. fold admitted_loop in H3. subst s3.
  destruct r3 as [[]|]; try discriminate Hr3. destruct r as [d'|]; [|discriminate Hr3]. injection Hr3 as ->.
  assert (∃ issued t, rtc sample_steps (MkSponsor sample_loop ∅ []) (MkSponsor admitted_loop {[ 0 := t ]} issued) ∧
    Admits (Key_new joiner_key 3) (bare_addr (H := Toy) (str "joiner")) (Ok d) ∈ task_deeds t) as (issued & t & Hreach & Hin).
  { eexists _, _. split.
  { eapply rtc_l; [eapply step_turn; [| |exact Ht1]; [exact I|intros t _; apply not_elem_of_nil]|].
    eapply rtc_l; [eapply (step_dialled _ _ 0 (str "joiner" : @EndpointId Toy)); apply lookup_empty|]. rewrite insert_empty.
    eapply rtc_l; [eapply (answer_one _ _ 20 _ AcceptBi _ _ (Ok ())); reflexivity|].
    eapply rtc_l; [eapply (answer_one _ _ 20 _ ReadFrame _ _ (Ok (BootMessage_Join joining))); reflexivity|].
    eapply rtc_l; [eapply (answer_one _ _ 20 _ (RedeemInvite (token_of x01)) _ _ (Ok (MkWelcomed w_root w_state 3))); left; exists (sample_world 5 x02); exact Ht2|].
    eapply rtc_l; [eapply (answer_one _ _ 20 _ (WriteFrame _) _ _ (Ok ())); reflexivity|].
    eapply rtc_l; [eapply (answer_one _ _ 20 _ AcceptBi _ _ (Ok ())); reflexivity|].
    eapply rtc_l; [eapply (answer_one _ _ 20 _ ServeSession _ _ (Err SyncError_PeerClosed)); reflexivity|].
    eapply rtc_l; [eapply (answer_one _ _ 20 _ (Admit (Key_new joiner_key 3) (bare_addr (H := Toy) (str "joiner"))) _ _ (Ok d));
      left; exists (sample_world 5 x02); exact Ht3|].
    apply rtc_refl. }
  cbn [task_deeds note app]. do 4 right. by left. }
  exists (MkSponsor admitted_loop {[ 0 := t ]} issued), t, (Key_new joiner_key 3), (bare_addr (H := Toy) (str "joiner")), d.
  assert (sp_tasks (MkSponsor admitted_loop {[ 0 := t ]} issued) !! 0 = Some t) as Ht by apply lookup_singleton_eq.
  split; [exact Hreach|]. split; [exact Ht|]. split; [exact Hin|].
  destruct (admissions_spend_invites toy_key_id_total sample_ago 1 sample_loop _ eq_refl Hreach) as (_ & Htasks & _).
  destruct (Htasks 0 t Ht) as (Hio & _ & Had).
  destruct (Had _ _ _ Hin) as (join & p & Hp & Hheard & Hpt & Hkey & _).
  exists join, p. split; [exact Hp|]. split; [exact Hheard|]. split; [exact Hpt|]. exact (f_equal weight Hkey).
Defined.

(** ** Laying a chain down *)

Section laying.
Context `{KeyCrates} {S E IoError SysError : Type} `{IoErrors IoError} `{StorageSpec S E}.
Variables (pins : EnvelopeDigest → option Msg).
Hypothesis Hid : ∀ k, is_Some (Key_id k).
Implicit Types (d : Dir S E IoError SysError) (s : S).

Abbreviation DErr := (InitError (E := E) (IoError := IoError) (SysError := SysError)) (only parsing).

(** Nothing is in the database yet. *)
Record blank s : Prop := {
  bl_storage : storage_ok s;
  bl_versions : versions (view s) = ∅;
  bl_log : log (view s) = ∅;
}.

(** A chain of one envelope, standing at it. *)
Record laid (env : Envelope) (c : Chain) s : Prop := {
  la_ok : chain_ok pins c s;
  la_head : chain_head c = chain_root c;
  la_digest : Envelope_digest env = Ok (chain_root c);
  la_size : size (log (view s)) = 1;
}.

Lemma chain_adopt_wp (env : Envelope) (state : FullCheckpoint) s :
  blank s → (∀ r, Envelope_digest env = Ok r → pins r = Some (payload env)) →
  wp (chain_adopt env state) s (λ c s', laid env c s') (λ _ s', storage_ok s').
Proof using Hid.
  intros [Hs Hvers Hlog] Hpin. unfold chain_adopt.
  assert (wp (let! ledger := ledger_adopt env state in
              do! write (put_envelope (ledger_head ledger) env) in
              m_ret (MkChain (ledger_head ledger) ledger)) s (λ c s', laid env c s') (λ _ s', storage_ok s')) as Hwp.
  { apply wp_bind. eapply wp_mono; [by apply (install_checkpoint_wp Hid env state)| |by intros e s' [? _]].
    intros [r] s1 (Hs1 & Hd & _ & Hview1). simpl in *.
    apply wp_bind. eapply write_wp; [apply put_envelope_spec; [done|]|..].
    - intros old Ho. rewrite Hview1 in Ho. simpl in Ho. by rewrite Hlog, lookup_empty in Ho.
    - intros _ s2 [Hs2 Hview2]. apply wp_ret.
      assert (versions (view s2) = {[ r := bt_from_iter (fc_namespaces state) ]}) as Hv2
        by (rewrite Hview2, Hview1; simpl; by rewrite Hvers, insert_empty).
      assert (log (view s2) = {[ r := env ]}) as Hl2 by (rewrite Hview2, Hview1; simpl; by rewrite Hlog, insert_empty).
      split; [|done|done|rewrite Hl2; apply map_size_singleton].
      split; [done| |rewrite Hv2; simpl; rewrite lookup_singleton_eq; by eexists].
      split; simpl.
      + intros d' e' He'. rewrite Hl2 in He'. apply lookup_singleton_Some in He' as [<- <-]. split; [done|by apply Hpin].
      + intros d' m p v Hne _ _ Hv. rewrite Hv2 in Hv. by apply lookup_singleton_Some in Hv as [? _].
      + intros d' Hne [v Hv]. rewrite Hv2 in Hv. by apply lookup_singleton_Some in Hv as [? _].
    - by intros x s2 [Hs2 _]. }
  destruct (payload env); [by apply wp_err|exact Hwp..].
Qed.

Lemma chain_laid (env : Envelope) (state : option FullCheckpoint) s :
  blank s → (∀ r, Envelope_digest env = Ok r → pins r = Some (payload env)) →
  wp (match state with None => chain_init env | Some state => chain_adopt env state end) s
    (λ c s', laid env c s') (λ _ s', storage_ok s').
Proof using Hid.
  intros Hbl Hpin. destruct state as [state|]; [by apply chain_adopt_wp|]. destruct Hbl as [Hs Hvers Hlog].
  eapply wp_mono; [by apply (chain_init_wp pins Hid env)| |by intros e s' [? _]].
  intros c s' (Hok & Hhead & _ & init & status & _ & _ & Hl). split; [done|done| |rewrite Hl; apply map_size_singleton].
  destruct (inv_pinned _ _ _ (co_inv _ _ _ Hok) (chain_root c) (set_verification_status env status)) as [Hd _].
  { rewrite Hl. apply lookup_singleton_eq. }
  by rewrite digest_set_status in Hd.
Qed.

(** ** Files *)

(** Nothing but the keys and the scripts has changed. *)
Definition kept d d' : Prop := dir_db d' = dir_db d ∧ dir_oldest d' = dir_oldest d.

Definition quiet {X A} (m : M (Dir S E IoError SysError) X A) : Prop :=
  ∀ d, wp m d (λ _ d', kept d d') (λ _ d', kept d d').

Lemma kept_trans d1 d2 d3 : kept d1 d2 → kept d2 d3 → kept d1 d3.
Proof using. intros [? ?] [? ?]. split; congruence. Qed.

Lemma quiet_bind {X A B} (m : M _ X A) (k : A → M _ X B) : quiet m → (∀ a, quiet (k a)) → quiet (m_bind m k).
Proof using.
  intros Hm Hk d. apply wp_bind. eapply wp_mono; [apply Hm| |done]. intros a d1 Hkept1.
  eapply wp_mono; [apply Hk|..]; intros ? d2 Hk2; by apply (kept_trans d d1 d2).
Qed.

Lemma quiet_ret {X A} (a : A) : quiet (X := X) (m_ret a).
Proof using. done. Qed.

Lemma quiet_ask {X A} (f : _ → Comp X A) : (∀ d, answers (f d)) → quiet (m_ask f).
Proof using. intros Hf d. apply wp_ask. specialize (Hf d). unfold cwp in *. by destruct (f d) as [[]| |]. Qed.

Lemma quiet_ask_or {X A} (e : X) (f : Dir S E IoError SysError → option A) : quiet (m_ask (λ d, c_ok_or e (f d))).
Proof using. apply quiet_ask. intros d. by destruct (f d). Qed.

Lemma quiet_map_err {X Y A} (f : X → Y) (m : M _ X A) : quiet m → quiet (m_map_err f m).
Proof using. intros Hm d. apply wp_map_err. eapply wp_mono; [apply Hm|done..]. Qed.

Lemma quiet_call : quiet (call (S := S) (E := E) (IoError := IoError) (SysError := SysError)).
Proof using. intros d. unfold call, wp. by destruct (dir_calls d) as [|[|e kept]]. Qed.

Lemma quiet_io_call what : quiet (io_call (S := S) (E := E) (IoError := IoError) (SysError := SysError) what).
Proof using. apply quiet_map_err, quiet_call. Qed.

Lemma quiet_load_secret which reading wrong :
  quiet (load_secret (S := S) (E := E) (IoError := IoError) (SysError := SysError) which reading wrong).
Proof using.
  apply quiet_bind; [apply quiet_bind; [apply quiet_io_call|intros _; apply quiet_ask_or]|].
  intros bytes. apply quiet_ask_or.
Qed.

Lemma quiet_load_keys : quiet (load_keys (S := S) (E := E) (IoError := IoError) (SysError := SysError)).
Proof using.
  apply quiet_bind; [apply quiet_load_secret|]. intros signing.
  apply quiet_bind; [apply quiet_load_secret|]. intros iroh. apply quiet_ret.
Qed.

Lemma quiet_open_db : quiet (open_db (S := S) (E := E) (IoError := IoError) (SysError := SysError)).
Proof using. intros d. unfold open_db, wp. by destruct (dir_opens d) as [|[]]. Qed.

Lemma wp_on_db {A} (m : M S (Error E) A) d (Q : A → _ → Prop) (X : DErr → _ → Prop) :
  wp m (dir_db d) (λ a db, Q a (with_db db d)) (λ e db, X (InitError_Chain e) (with_db db d)) → wp (on_db m) d Q X.
Proof using. unfold wp, on_db. by destruct (m _) as [[[a|e] s]| |]. Qed.

(** ** A directory with a root *)

(** What is on disk is a node in order, rooted where the oldest file says. *)
Record left_rooted (root : EnvelopeDigest) (core : Core S) d : Prop := {
  lr_sound : core_sound pins core;
  lr_root : chain_root (core_chain core) = root;
  lr_oldest : core_oldest core = root;
  lr_db : dir_db d = core_storage core;
  lr_file : dir_oldest d = Some (as_slice (digest_bytes root));
}.

Lemma laid_sound env c s keys root :
  laid env c s → chain_root c = root → core_sound pins (MkCore s c root keys Subscriptions_default).
Proof using.
  intros [Hok Hhead _ _] Hroot. split; cbn [core_chain core_storage head]; [done|..]; unfold head; cbn [core_chain].
  - rewrite Hhead. apply Hok.
  - rewrite Hhead. apply rtc_refl.
Qed.

(** Laying a chain and recording its root. *)
Lemma lay_wp (env : Envelope) (state : option FullCheckpoint) keys d :
  blank (dir_db d) → dir_oldest d = None → (∀ r, Envelope_digest env = Ok r → pins r = Some (payload env)) →
  wp (let! chain := on_db match state with None => chain_init env | Some state => chain_adopt env state end in
      do! lay_oldest (chain_root chain) in
      λ d, Ret (Ok (MkCore (dir_db d) chain (chain_root chain) keys Subscriptions_default), d)) d
    (λ core d', Envelope_digest env = Ok (core_oldest core) ∧ left_rooted (core_oldest core) core d' ∧
      head core = core_oldest core ∧ core_keys core = keys ∧ size (log (view (core_storage core))) = 1 ∧
      dir_signing d' = dir_signing d ∧ dir_iroh d' = dir_iroh d)
    (λ e d', dir_oldest d' = None).
Proof using Hid.
  intros Hbl Hnone Hpin. apply wp_bind, wp_on_db. eapply wp_mono; [by apply chain_laid| |done].
  intros c s Hlaid. cbn beta in Hlaid. apply wp_bind. unfold wp at 1, lay_oldest, call. cbn [dir_calls with_db].
  assert (∀ calls, wp (λ d, Ret (Ok (MkCore (dir_db d) c (chain_root c) keys Subscriptions_default), d))
    (MkDir (dir_signing d) (dir_iroh d) (Some (as_slice (digest_bytes (chain_root c)))) s calls (dir_opens d) (dir_entropy d))
    (λ core d', Envelope_digest env = Ok (core_oldest core) ∧ left_rooted (core_oldest core) core d' ∧
      head core = core_oldest core ∧ core_keys core = keys ∧ size (log (view (core_storage core))) = 1 ∧
      dir_signing d' = dir_signing d ∧ dir_iroh d' = dir_iroh d)
    (λ (e : DErr) d', dir_oldest d' = None)) as Hdone.
  { intros calls. unfold wp. cbn. split_and!; [by apply la_digest in Hlaid| |by apply la_head in Hlaid|done|by apply la_size in Hlaid|done..].
    split; [by apply (laid_sound env)|done..]. }
  destruct (dir_calls d) as [|[|e kept_] calls]; [apply Hdone|apply Hdone|done].
Qed.

Lemma join_in_state_dir_wp (env : Envelope) (state : option FullCheckpoint) d :
  blank (dir_db d) → dir_oldest d = None → (∀ r, Envelope_digest env = Ok r → pins r = Some (payload env)) →
  wp (join_in_state_dir env state) d
    (λ core d', Envelope_digest env = Ok (core_oldest core) ∧ left_rooted (core_oldest core) core d' ∧
      size (log (view (core_storage core))) = 1)
    (λ e d', dir_oldest d' = None).
Proof using Hid.
  intros Hbl Hnone Hpin. unfold join_in_state_dir. apply wp_bind.
  eapply wp_mono; [apply quiet_load_keys|..]; [|by intros e d1 [_ ->]]. intros ke d1 [Hdb1 Ho1]. apply wp_bind.
  eapply wp_mono; [apply quiet_open_db|..]; [|by intros e d2 [_ ->]; rewrite Ho1]. intros _ d2 [Hdb2 Ho2].
  eapply wp_mono; [apply lay_wp|..]; [by rewrite Hdb2, Hdb1|by rewrite Ho2, Ho1|done| |done].
  by intros core d' (? & ? & _ & _ & ? & _).
Qed.
End laying.

(** ** The joiner *)

Section joiner.
Context `{BootCodec} `{!MessageDecode} `{!KeyCrates} {S E IoError SysError ConnectError ConnectionError : Type}.
Context `{!IoErrors IoError} `{StorageSpec S E}.
Variables (pins : EnvelopeDigest → option Msg) (rank : EnvelopeDigest → nat).
Hypothesis Hid : ∀ k, is_Some (Key_id k).
Hypothesis Hhash : HashOk pins rank.
Hypothesis Hsession : honest_digests pins.

(** A sponsor that can hand over only roots the digests are true to. *)
Definition honest_roots : Prop :=
  ∀ body welcome r, boot_decode body = Ok (BootMessage_Welcome welcome) →
    Envelope_digest (welcome_root_envelope welcome) = Ok r → pins r = Some (payload (welcome_root_envelope welcome)).
Hypothesis Hroots : honest_roots.

Abbreviation W := (World (S := S) (E := E) (IoError := IoError) (SysError := SysError) (ConnectError := ConnectError)
  (ConnectionError := ConnectionError)) (only parsing).
Abbreviation JErr := (JoinError (E := E) (IoError := IoError) (SysError := SysError) (ConnectError := ConnectError)
  (ConnectionError := ConnectionError)) (only parsing).
Abbreviation D := (Dir S E IoError SysError) (only parsing).
Implicit Types (w : W) (d : D).

Definition rooted_on (root : EnvelopeDigest) d : Prop := ∃ core, left_rooted pins root core d.

(** What a failed join leaves of a directory, by how it failed. *)
Definition join_left (root : EnvelopeDigest) (before : D) (e : JErr) (after : D) : Prop :=
  match e with
  | JoinError_InviteVersion _ | JoinError_Connect _ | JoinError_RootMismatch _ _ | JoinError_Undigestable _ => after = before
  | JoinError_Init _ => dir_oldest after = None
  | JoinError_Open _ | JoinError_Frame _ | JoinError_Refused _ | JoinError_Unexpected _ _ =>
      after = before ∨ rooted_on root after
  | JoinError_Sync _ | JoinError_NoCommonHistory | JoinError_AdmissionMissing | JoinError_Chain _
  | JoinError_SponsorNotTrusted | JoinError_NotTrusted => rooted_on root after
  end.

Lemma open_bi_wp w :
  wp open_bi w (λ _ w', disk w' = disk w) (λ (e : JErr) w', disk w' = disk w ∧ ∃ x, e = JoinError_Open x).
Proof using. unfold wp, open_bi. destruct (opens _) as [|[]]; [by split; [|eexists]|done|by split; [|eexists]]. Qed.

Lemma send_frame_wp m w :
  wp (send_frame m) w (λ _ w', disk w' = disk w) (λ (e : JErr) w', disk w' = disk w ∧ ∃ x, e = JoinError_Frame x).
Proof using.
  unfold wp, send_frame, write_frame. destruct (frame_of m) as [bytes|e]; [|by split; [|eexists]].
  destruct (outcomes _) as [|[|]]; [done|done|by split; [|eexists]].
Qed.

(** A frame is some body decoded. *)
Lemma read_frame_wp (s : Inbound IoError) :
  wp read_frame s (λ m _, ∃ body, boot_decode body = Ok m) (λ _ _, True).
Proof using.
  assert (∀ n (s : Inbound IoError), wp (read_exact n) s (λ _ _, True) (λ _ _, True)) as Hexact.
  { intros n s'. unfold wp, read_exact. case_decide; [done|]. by destruct (ending s'). }
  unfold read_frame. apply wp_bind, wp_map_err. eapply wp_mono; [apply Hexact| |done]. intros prefix s1 _. cbv zeta.
  destruct (_ <? _)%N; [done|]. apply wp_bind, wp_map_err. eapply wp_mono; [apply Hexact| |done]. intros body s2 _.
  destruct (boot_decode body) as [m|e] eqn:Hd; [by exists body|done].
Qed.

Lemma receive_frame_wp w :
  wp receive_frame w (λ m w', disk w' = disk w ∧ ∃ body, boot_decode body = Ok m)
    (λ (e : JErr) w', disk w' = disk w ∧ ∃ x, e = JoinError_Frame x).
Proof using.
  pose proof (read_frame_wp (control_in (conn w))) as Hr. unfold wp in *. unfold receive_frame.
  destruct (read_frame _) as [[[m|e] s]| |]; [done|by split; [|eexists]|done..].
Qed.

Lemma wp_on_disk {A} (m : M D (InitError (E := E) (IoError := IoError) (SysError := SysError)) A) w (Q : A → W → Prop) (X : JErr → W → Prop) :
  wp m (disk w) (λ a d, Q a (MkWorld d (conn w))) (λ e d, X (JoinError_Init e) (MkWorld d (conn w))) →
  wp (on_disk m) w Q X.
Proof using. unfold wp, on_disk. by destruct (m _) as [[[a|e] d]| |]. Qed.

Lemma left_rooted_moved root (core core' : Core S) d :
  left_rooted pins root core d → same_node core core' → core_sound pins core' →
  left_rooted pins root core' (with_db (core_storage core') d).
Proof using. intros [_ Hr Ho _ Hf] (Hr' & Ho' & _) Hs. split; [done|congruence|congruence|done|done]. Qed.

Lemma join_pull_wp root (core : Core S) w :
  left_rooted pins root core (disk w) → (N.of_nat (size (log (view (core_storage core)))) < 2 ^ 62)%N →
  wp (join_pull core_fuel core) w (λ core' w', left_rooted pins root core' (disk w'))
    (λ (e : JErr) w', rooted_on root (disk w') ∧
      ((∃ x, e = JoinError_Open x) ∨ (∃ x, e = JoinError_Sync x) ∨ e = JoinError_NoCommonHistory)).
Proof using Hid Hhash Hsession.
  intros Hl Hsize. unfold join_pull. apply wp_bind.
  eapply wp_mono; [apply open_bi_wp|..]; [|intros e w' [-> He]; split; [by exists core|by left]].
  intros t w1 Hw1.
  pose proof (pull_wp (SyncCoreSpec0 := Core_session_spec IoError pins rank Hid Hhash core_fuel core_fuel_ok)
    Hsession (script_bytes t + 2) core t (lr_sound _ _ _ _ Hl) Hsize ltac:(lia)) as Hpull.
  unfold wp at 1 in Hpull. unfold wp at 1.
  destruct (pull _ _) as [[[o|e] [core' t']]| |]; try done.
  - destruct Hpull as (Hs & h & Htook & _). cbn [fst] in Hs, Htook. destruct Htook as [Hnode _ _ _ _ _].
    pose proof (left_rooted_moved root core core' (disk w) Hl Hnode Hs) as Hl'. rewrite <-Hw1 in Hl'.
    destruct o; [done|done|]. split; [by exists core'|by do 2 right].
  - destruct Hpull as (Hs & [Hnode _] & _). cbn [fst] in Hs, Hnode.
    pose proof (left_rooted_moved root core core' (disk w) Hl Hnode Hs) as Hl'. rewrite <-Hw1 in Hl'.
    split; [by exists core'|]. right. left. by eexists.
Qed.

(** A directory a join may start from: prepared, and nothing in it but keys. *)
Definition prepared w : Prop := blank (dir_db (disk w)) ∧ dir_oldest (disk w) = None.

Lemma join_begun_wp keys (invite : Invite) w :
  prepared w →
  wp (join_begun core_fuel keys invite) w
    (λ core w', left_rooted pins (invite_root invite) core (disk w'))
    (λ e w', join_left (invite_root invite) (disk w) e (disk w')).
Proof using Hid Hhash Hsession Hroots.
  intros [Hbl Hnone]. unfold join_begun. destruct (decide (_ ≠ _)); [done|]. apply wp_bind.
  unfold connect. unfold wp at 1. destruct (connects _); [|done]. apply wp_bind.
  eapply wp_mono; [apply open_bi_wp|..]; [|intros e w1 [Hw1 [x ->]]; by left]. intros t0 w1 Hw1. apply wp_bind.
  eapply wp_mono; [apply send_frame_wp|..]; [|intros e w2 [Hw2 [x ->]]; left; congruence]. intros u2 w2 Hw2. apply wp_bind.
  eapply wp_mono; [apply receive_frame_wp|..]; [|intros e w3 [Hw3 [x ->]]; left; congruence].
  intros answer w3 [Hw3 [body Hbody]]. assert (disk w3 = disk w) as Hw by congruence.
  apply wp_bind. destruct answer as [?|welcome|?|?]; [by left| |by left..]. apply wp_ret.
  apply wp_bind, wp_lift. destruct (Envelope_digest _) as [got|] eqn:Hgot; [|done].
  destruct (decide (got ≠ _)) as [|Heq%dec_stable]; [done|]. subst got. apply wp_bind, wp_on_disk. rewrite Hw.
  eapply wp_mono; [apply (join_in_state_dir_wp pins Hid); [done|done|by intros r; apply (Hroots body)]| |done].
  intros core d' (Hd & Hl & Hsize). rewrite Hgot in Hd. injection Hd as Hd. rewrite <-Hd in Hl.
  eapply wp_mono; [apply (join_pull_wp _ core (MkWorld d' (conn w3)) Hl); by rewrite Hsize|done|].
  intros e w' (Hr & [[x ->]|[[x ->]| ->]]); [by right|done..].
Qed.

Lemma trusted_keys_answer (core : Core S) : core_sound pins core → answers (core_trusted_keys core).
Proof using Hid.
  intros [[Hs _ _] [ver Hver] _]. apply answers_map_err. eapply agrees_answers; [by apply trusted_keys_agrees|].
  unfold trusted_keys. apply answers_bind; [by apply reserved_key_answers|]. intros key _. simpl.
  destruct (bt_get ver key); [|done]. apply answers_map_err. by apply parse_trusted_keys_total.
Qed.

(** C23: a join ends in a cluster that is what the invite says, or says what is left.
    Into a directory with nothing but keys, against any sponsor, network, file
    system and backend, a join never panics and ends. If it ends well the node
    is in order and rooted at the very envelope the invite pins, in its database
    and in the file it reopens from, the admission it was told of is on its
    chain, and that chain trusts the sponsor's key and its own. If it fails
    before the root was checked the directory is as it was; but where it fails
    after the root was laid down — the pull cut, the admission refused or missing,
    a key not trusted — the directory holds a node in order at that root, and is
    no longer one a join may start from. *)
Theorem join_contract keys (invite : Invite) w :
  prepared w →
  (∀ core w', join_begun core_fuel keys invite w = Ret (Ok core, w') → (N.of_nat (size (log (view (core_storage core)))) < 2 ^ 62)%N) →
  wp (join core_fuel keys invite) w
    (λ joined w', let core := joined_core joined in
      left_rooted pins (invite_root invite) core (disk w') ∧
      ancestor (log (view (core_storage core))) (joined_admitted joined) (head core) ∧
      (∃ trusted own, core_trusted_keys core = Ret (Ok trusted) ∧ PublicKey_id (NodeKeys_public_key keys) = Some own ∧
        bt_contains_key trusted (sponsor invite) = true ∧ bt_contains_key trusted own = true) ∧
      conn_closed (conn w') = Some (0%N, bytes_of (str "joined")))
    (λ e w', join_left (invite_root invite) (disk w) e (disk w') ∧
      (rooted_on (invite_root invite) (disk w') → ¬ prepared w')).
Proof using Hid Hhash Hsession Hroots.
  intros Hprep Hsize.
  assert (∀ w', rooted_on (invite_root invite) (disk w') → ¬ prepared w') as Hno.
  { intros w' [core [_ _ _ _ Hf]] [_ Hn]. congruence. }
  eapply wp_mono with (X := λ e w', join_left (invite_root invite) (disk w) e (disk w'));
    [|intros j w' Hq; exact Hq|intros e w' He; split; [done|apply Hno]].
  unfold join. apply wp_bind. pose proof (join_begun_wp keys invite w Hprep) as Hbegun.
  unfold wp at 1 in Hbegun. unfold wp at 1. destruct (join_begun _ _ _ _) as [[[core|e] w1]| |] eqn:Hrun; try done.
  specialize (Hsize core w1 eq_refl). apply wp_bind.
  eapply wp_mono; [apply receive_frame_wp|..]; [|intros e w2 [Hw2 [x ->]]; right; rewrite Hw2; by exists core].
  intros answer w2 [Hw2 _]. rewrite <-Hw2 in Hbegun. apply wp_bind.
  assert (rooted_on (invite_root invite) (disk w2)) as Hr2 by (by exists core).
  destruct answer as [?|?|?|admitted]; [by right..|]. apply wp_ret, wp_bind.
  eapply wp_mono; [by apply (join_pull_wp _ core w2 Hbegun)|..].
  2: { intros e w3 (Hr & [[x ->]|[[x ->]| ->]]); [by right|done..]. }
  intros core3 w3 Hl. pose proof Hl as [Hsound Hroot _ _ _].
  assert (rooted_on (invite_root invite) (disk w3)) as Hr3 by (by exists core3).
  apply wp_bind, wp_map_err, wp_ask.
  eapply cwp_mono; [eapply (descends_cwp pins rank Hhash); [apply Hsound|apply Hsound|unfold core_fuel; lia]| |done].
  intros held Hheld. destruct held; [|done]. cbn [negb].
  pose proof (proj1 Hheld eq_refl) as Hanc. apply wp_bind, wp_map_err, wp_ask.
  pose proof (trusted_keys_answer core3 Hsound) as Htr.
  destruct (core_trusted_keys core3) as [[trusted|e]| |] eqn:Htrusted; [|done..]. cbn [cwp].
  destruct (bt_contains_key trusted (sponsor invite)) eqn:Hsp; [|done]. cbn [negb]. apply wp_bind, wp_ask.
  destruct (Hid (Key_new (NodeKeys_public_key keys) 0)) as [own Hown]. unfold Key_id in Hown.
  cbn [public_key Key_new Key_with_metadata] in Hown. rewrite Hown. cbn [c_expect c_ok cwp].
  destruct (bt_contains_key trusted own) eqn:Hself; [|done]. cbn [negb]. apply wp_bind.
  unfold finish_control. unfold wp at 1. apply wp_ret. cbn [joined_core joined_admitted disk with_conn conn conn_closed].
  split_and!; [done|exact Hanc|by exists trusted, own|done].
Qed.
End joiner.

(** ** A join that ends well *)

#[local] Instance toy_io : IoErrors unit := {| unexpected_eof := (); is_unexpected_eof _ := true; not_found := () |}.

#[local] Instance toy_key_crates : KeyCrates (H := Toy) :=
  {| signing_key_from := toy_keys; iroh_public_of _ := str "joiner" |}.

Definition current_hello : Message := Message_Hello (MkHello PROTOCOL_VERSION listed_d).

#[local] Instance hello_decode : MessageDecode (H := Toy) := decode_in [current_hello].

Definition sent_welcome : BootMessage := BootMessage_Welcome (MkWelcome listed_genesis None).
Definition sent_admitted : BootMessage := BootMessage_Admitted (MkAdmitted listed_d).

#[local] Instance sponsor_codec : BootCodec (H := Toy) := table_codec [sent_admitted; sent_welcome; sent_admitted].

Definition control_bytes (m : BootMessage) : list u8 := match frame_of (IoError := unit) m with Ok b => b | Err _ => [] end.

Definition hello_stream : Transport unit := MkTransport [Read_Bytes (frame_bytes current_hello)] [] [].

(** The keys are trusted by the root already. *)
Definition joiner_invite : Invite := MkInvite VERSION signer_id moved_addr listed_d (token_of x01) 0.

Definition joiner_world : World (S := MemNode) (E := Empty_set) (IoError := unit) (SysError := Empty_set)
    (ConnectError := Empty_set) (ConnectionError := Empty_set) :=
  MkWorld (MkDir (Some (replicate 32 x05)) (Some (replicate 32 x07)) None empty_node [] [] (λ _, Ok (array_repeat 32 x00)))
    (MkConn (Ok ()) [Ok hello_stream; Ok hello_stream; Ok hello_stream]
       (MkInbound (control_bytes sent_welcome ++ control_bytes sent_admitted) Ending_Finished) (MkOutbound [] []) None).

Definition joiner_run := join core_fuel sample_keys joiner_invite joiner_world.
Definition joiner_begun := join_begun core_fuel sample_keys joiner_invite joiner_world.

Lemma joiner_session : honest_digests listed_pins.
Proof. intros body m (m' & ->%list_elem_of_singleton & Hm)%decode_in_Ok. discriminate Hm. Qed.

Lemma joiner_roots : honest_roots listed_pins.
Proof.
  intros body welcome r Hd Hr. assert (welcome = MkWelcome listed_genesis None) as ->; [|by apply listed_pinned].
  destruct body as [|b []]; try discriminate Hd. cbn [boot_decode sponsor_codec table_codec] in Hd.
  destruct (N.to_nat (Byte.to_N b)) as [|[|[|n]]]; cbn in Hd; by inversion Hd.
Qed.

Lemma join_contract_witness : ∃ joined w',
  joiner_run = Ret (Ok joined, w') ∧ left_rooted listed_pins listed_d (joined_core joined) (disk w') ∧
  ancestor (log (view (core_storage (joined_core joined)))) (joined_admitted joined) (head (joined_core joined)).
Proof.
  destruct (ended_Some got_ok joiner_run) as (r & joined & w' & Hrun & Hr); [by_computing|].
  destruct r as [j|e]; [|discriminate Hr]. injection Hr as ->. exists joined, w'. split; [exact Hrun|].
  assert (prepared joiner_world) as Hprep.
  { split; [|reflexivity]. split; [exact mem_ok_empty_node|reflexivity|reflexivity]. }
  assert (∀ core w1, join_begun core_fuel sample_keys joiner_invite joiner_world = Ret (Ok core, w1) → (N.of_nat (size (log (view (core_storage core)))) < 2 ^ 62)%N) as Hsize.
  { intros core w1 Hb. fold joiner_begun in Hb.
    assert ((λ a, size (log (view (core_storage a.1)))) <$> ended got_ok joiner_begun = Some 1) as Hs by (vm_compute; reflexivity).
    rewrite Hb in Hs. change (Some (size (log (view (core_storage core)))) = Some 1) in Hs. apply (inj Some) in Hs.
    rewrite Hs. reflexivity. }
  pose proof (join_contract listed_pins listed_rank toy_key_id_total listed_hash_ok joiner_session joiner_roots
    sample_keys joiner_invite joiner_world Hprep Hsize) as Hjoin.
  unfold wp in Hjoin. unfold joiner_run in Hrun. rewrite Hrun in Hjoin.
  destruct Hjoin as (Hl & Hanc & _). exact (conj Hl Hanc).
Defined.
