(* ===== verification/Sql.v ===== *)
(** * The tables of the SQLite backend and what its statements do to them

    The schema of [crates/storage/src/sqlite.rs] as records of finite maps keyed
    by each table's primary key, blobs as bytes, texts as strings and integers as
    [Z]. The engine is third-party: [Rusqlite] holds what the program relies on
    of it. A statement is a function on the tables; any call may fail instead, so
    a connection carries the outcome of each call it will make, and a transaction
    whose body or commit fails leaves the tables as they were. *)

From S2P Require Import Prelude BTree Text Codec Externals Keys Subkey Msg Envelope Value Storage.

(** A row of [envelopes], beside its digest. *)
Record EnvelopeRow := MkEnvelopeRow {
  row_bytes : list u8;
  row_prev : option (list u8);
  row_status : Z;
  row_weight : option Z;
  row_bad_keys : option (list u8);
  row_stored_at : Z;
}.

(** A row of [nodes], beside its id. *)
Record NodeRow := MkNodeRow { node_code : Z; node_leaf : option (list u8) }.

(** What the file says of itself beside its rows: two integers of the header, the
    vacuum mode, and the names of the tables and indices created so far. *)
Record Header := MkHeader {
  user_version : Z;
  application_id : Z;
  auto_vacuum : Z;
  schema : gset rstring;
}.

Record Db := MkDb {
  t_header : Header;
  t_envelopes : gmap (list u8) EnvelopeRow;
  t_nodes : gmap Z NodeRow;
  t_map_edges : gmap (Z * rstring) Z;
  t_array_edges : gmap (Z * Z) Z;
  t_versions : gset (list u8);
  t_version_namespaces : gmap (list u8 * rstring) Z;
}.

(** A fresh file. *)
Definition Db_empty : Db := MkDb (MkHeader 0 0 0 ∅) ∅ ∅ ∅ ∅ ∅ ∅.

Definition on_header f (d : Db) : Db :=
  MkDb (f (t_header d)) (t_envelopes d) (t_nodes d) (t_map_edges d) (t_array_edges d) (t_versions d)
    (t_version_namespaces d).

Definition on_envelopes f (d : Db) : Db :=
  MkDb (t_header d) (f (t_envelopes d)) (t_nodes d) (t_map_edges d) (t_array_edges d) (t_versions d)
    (t_version_namespaces d).

Definition on_nodes f (d : Db) : Db :=
  MkDb (t_header d) (t_envelopes d) (f (t_nodes d)) (t_map_edges d) (t_array_edges d) (t_versions d)
    (t_version_namespaces d).

Definition on_map_edges f (d : Db) : Db :=
  MkDb (t_header d) (t_envelopes d) (t_nodes d) (f (t_map_edges d)) (t_array_edges d) (t_versions d)
    (t_version_namespaces d).

Definition on_array_edges f (d : Db) : Db :=
  MkDb (t_header d) (t_envelopes d) (t_nodes d) (t_map_edges d) (f (t_array_edges d)) (t_versions d)
    (t_version_namespaces d).

Definition on_versions f (d : Db) : Db :=
  MkDb (t_header d) (t_envelopes d) (t_nodes d) (t_map_edges d) (t_array_edges d) (f (t_versions d))
    (t_version_namespaces d).

Definition on_version_namespaces f (d : Db) : Db :=
  MkDb (t_header d) (t_envelopes d) (t_nodes d) (t_map_edges d) (t_array_edges d) (t_versions d)
    (f (t_version_namespaces d)).

(** What the program relies on of [rusqlite] and [chrono]. [new_rowid] is the id
    an insert into [nodes] picks, [None] where the table is full. *)
Class Rusqlite := {
  RusqliteError : Type;
  ConstraintViolation : RusqliteError;
  DatabaseFull : RusqliteError;
  new_rowid : gmap Z NodeRow → option Z;
  from_timestamp_millis : Z → option StoredAt;
}.

(** An id not in use, as the engine documents. *)
Class RusqliteLaws `{Rusqlite} := new_rowid_unused t id : new_rowid t = Some id → t !! id = None.

(** What the process reads besides its tables: how each call of the connection
    ends, the wall clock and the dice, as streams; and the pages a vacuum frees.
    The calls of [&self] methods have a stream of their own. *)
Record World `{Rusqlite} := MkWorld {
  outcome : nat → option RusqliteError;
  read_outcome : nat → option RusqliteError;
  wall_clock : nat → StoredAt;
  dice : nat → bool;
  free_pages : nat → nat;
}.

(** The connection: its tables, and how many calls it has made. *)
Record Conn `{Rusqlite} := MkConn { db : Db; world : World; calls : nat }.

#[global] Arguments MkWorld {_}.
#[global] Arguments MkConn {_}.

Section calls.
Context `{Rusqlite} {E : Type} (sqlite : RusqliteError → E).

(** One call of the connection. *)
Definition sql {A} (stmt : Db → Result RusqliteError (A * Db)) : M Conn E A := λ c,
  match outcome (world c) (calls c) with
  | Some e => Ret (Err (sqlite e), MkConn (db c) (world c) (S (calls c)))
  | None =>
      match stmt (db c) with
      | Ok (a, d) => Ret (Ok a, MkConn d (world c) (S (calls c)))
      | Err e => Ret (Err (sqlite e), MkConn (db c) (world c) (S (calls c)))
      end
  end.

Definition select {A} (q : Db → A) : M Conn E A := sql (λ d, Ok (q d, d)).

Definition update (f : Db → Db) : M Conn E () := sql (λ d, Ok ((), f d)).

(** A call that leaves the modelled tables alone. *)
Definition call : M Conn E () := select (λ _, ()).

(** [conn.transaction()] .. [tx.commit()]: a transaction dropped before it
    committed is rolled back. *)
Definition transaction {A} (body : M Conn E A) : M Conn E A := λ c,
  match
    (do! call in
     let! a := body in
     do! call in
     m_ret a) c
  with
  | Ret (Ok a, c') => Ret (Ok a, c')
  | Ret (Err e, c') => Ret (Err e, MkConn (db c) (world c') (calls c'))
  | Panic => Panic
  | Diverge => Diverge
  end.

(** [Iterator::try_for_each], with and without [enumerate]. *)
Definition m_for_each {A} (f : A → M Conn E ()) : list A → M Conn E () :=
  fix go l := match l with [] => m_ret () | a :: l' => do! f a in go l' end.

Definition m_for_each_i {A} (f : nat → A → M Conn E ()) : nat → list A → M Conn E () :=
  fix go i l := match l with [] => m_ret () | a :: l' => do! f i a in go (S i) l' end.

(** [.map(f).collect::<Result<_, _>>()]. *)
Definition m_collect {A B} (f : A → M Conn E B) : list A → M Conn E (list B) :=
  fix go l :=
    match l with
    | [] => m_ret []
    | a :: l' => let! b := f a in let! r := go l' in m_ret (b :: r)
    end.

(** An iterator of fallible reads, driven to its end. *)
Definition m_results {A B} (f : A → M Conn E B) : list A → M Conn E (list (Result E B)) :=
  fix go l :=
    match l with
    | [] => m_ret []
    | a :: l' => let! b := m_catch (f a) in let! r := go l' in m_ret (b :: r)
    end.

Definition reading (w : World) : World :=
  MkWorld (read_outcome w) (read_outcome w) (wall_clock w) (dice w) (free_pages w).

(** A [&self] method: what it does to the count of calls is not kept. *)
Definition reads {A} (m : M Conn E A) (c : Conn) : Comp E A :=
  match m (MkConn (db c) (reading (world c)) (calls c)) with
  | Ret (r, _) => Ret r
  | Panic => Panic
  | Diverge => Diverge
  end.

(** Drains a cursor of [n] rows, each step a call. *)
Fixpoint drain (n : nat) : M Conn E () :=
  match n with
  | 0 => m_ret ()
  | S n => do! call in drain n
  end.
End calls.

(** ** The statements *)

(** Rows inserted at once: a key given twice or in use violates the primary key,
    and then nothing is inserted. *)
Definition insert_rows {R K V} `{Countable K} (violation : R) (rows : list (K * V)) (t : gmap K V)
    : Result R (gmap K V) :=
  if decide (NoDup rows.*1 ∧ Forall (λ k, t !! k = None) rows.*1)
  then Ok (list_to_map rows ∪ t) else Err violation.

(** [SELECT b, v FROM t WHERE a = ?1], over a table keyed by [(a, b)], in no
    order the statement fixes. *)
Definition scan {A B V} `{Countable A, Countable B} (a : A) (t : gmap (A * B) V) : list (B * V) :=
  omap (λ row : A * B * V, if decide (row.1.1 = a) then Some (row.1.2, row.2) else None)
    (map_to_list t).

(** .. [ORDER BY b]. *)
Definition scan_by {A B V} `{Countable A, Countable B, Ord B} (a : A) (t : gmap (A * B) V)
    : list (B * V) := bt_from_iter (scan a t).

(** The children of some nodes. *)
Definition edges_from {K} `{Countable K} (from : gset Z) (t : gmap (Z * K) Z) : gset Z :=
  list_to_set (omap (λ row : Z * K * Z, if decide (row.1.1 ∈ from) then Some row.2 else None)
    (map_to_list t)).

Definition walk_step (d : Db) (ids : gset Z) : gset Z :=
  ids ∪ edges_from ids (t_map_edges d) ∪ edges_from ids (t_array_edges d).

Definition roots_of (d : Db) : gset Z := list_to_set (map_to_list (t_version_namespaces d)).*2.

(** [WITH RECURSIVE walk]: the least set with the roots that is closed under the
    edges. A round that adds nothing is the last, and one that adds something
    adds the child of an edge. *)
Definition reachable (d : Db) : gset Z :=
  Nat.iter (size (t_map_edges d) + size (t_array_edges d)) (walk_step d) (roots_of d).
