(* ===== verification/Sqlite.v ===== *)
(** * The SQLite backend: [crates/storage/src/sqlite.rs]

    The functions of the file over the tables of [Sql], one call of the
    connection per statement. [None] of an [expect] and a failed [assert] are
    panics. The only recursion that is not on a value or a path is [value_of]'s,
    down the edges: it runs on fuel, and more rounds than there are nodes have met
    a cycle, on which the source does not end. *)

From S2P Require Import Prelude BTree Text Codec Externals Keys Subkey Msg Envelope Value Storage Sql.

Inductive SqliteError `{Externals, Rusqlite} : Type :=
  | SqliteError_Sqlite (e : RusqliteError)
  | SqliteError_Codec (e : WireError)
  | SqliteError_Corrupt (what : rstring)
  | SqliteError_SchemaVersion (version : Z)
  | SqliteError_ApplicationId (id : Z).

(** [wire::decode] of a stored leaf and of a stored envelope. *)
Class StoredDecode `{Externals} := {
  decode_value : list u8 → Result WireError Value;
  decode_envelope : list u8 → Result WireError Envelope;
}.

Definition SCHEMA_VERSION : Z := 1.

(** The bytes of LOTS, big-endian. *)
Definition APPLICATION_ID : Z := 0x4c4f5453.

Definition JOURNAL_SIZE_LIMIT : Z := 32 * 1024 * 1024.

(** What [SCHEMA] creates, in order. *)
Definition SCHEMA : list rstring :=
  [str "envelopes"; str "envelopes_by_prev"; str "nodes"; str "map_edges"; str "array_edges";
   str "versions"; str "version_namespaces"].

(** Stored discriminants for [nodes.kind] and [envelopes.status]. *)
Definition LEAF : Z := 0.
Definition MAP : Z := 1.
Definition ARRAY : Z := 2.

Definition UNCHECKED : Z := 0.
Definition FAILED : Z := 1.
Definition ALL_MATCHED : Z := 2.

Definition digest_slice (d : EnvelopeDigest) : list u8 := as_slice (digest_bytes d).

Section sqlite.
Context `{Externals, Rusqlite, !StoredDecode}.

Abbreviation Error := SqliteError (only parsing).
Abbreviation Corrupt s := (SqliteError_Corrupt (str s)) (only parsing).
Abbreviation SQ A := (M Conn Error A) (only parsing).

Definition kind_from (code : Z) : Result Error NodeKind :=
  if decide (code = LEAF) then Ok NodeKind_Leaf
  else if decide (code = MAP) then Ok NodeKind_Map
  else if decide (code = ARRAY) then Ok NodeKind_Array
  else Err (Corrupt "unknown node kind").

(** A [BTreeSet]'s elements, ascending. *)
Definition set_iter (ids : gset KeyId) : list KeyId :=
  bt_keys (bt_from_iter (map (λ id, (id, ())) (elements ids))).

Definition status_columns (status : VerificationStatus) : Z * option Z * option (list u8) :=
  match status with
  | Unchecked => (UNCHECKED, None, None)
  | Failed failing_key_ids =>
      (FAILED, None, Some (set_iter failing_key_ids ≫= λ id, as_slice (key_id_bytes id)))
  | AllMatched total_weight => (ALL_MATCHED, Some (Z.of_N total_weight), None)
  end.

(** [blob.as_chunks::<n>()]: whole arrays from the front, and the rest. *)
Fixpoint as_chunks_from (fuel n : nat) (blob : list u8) : list (array n) * list u8 :=
  match fuel, array_try_from n (take n blob) with
  | S fuel, Some chunk => let (ids, rest) := as_chunks_from fuel n (drop n blob) in (chunk :: ids, rest)
  | _, _ => ([], blob)
  end.

Definition as_chunks (n : nat) (blob : list u8) : list (array n) * list u8 :=
  as_chunks_from (length blob) n blob.

Definition key_ids_from (blob : list u8) : Result Error (gset KeyId) :=
  let (ids, rest) := as_chunks 32 blob in
  if decide (rest = []) then Ok (list_to_set (map MkKeyId ids))
  else Err (Corrupt "failing key ids are not whole ids").

Definition status_from (code : Z) (weight : option Z) (bad_keys : option (list u8))
    : Result Error VerificationStatus :=
  if decide (code = UNCHECKED) then Ok Unchecked
  else if decide (code = FAILED) then
    match bad_keys with
    | None => Err (Corrupt "failed status without its keys")
    | Some blob =>
        match key_ids_from blob with Ok ids => Ok (Failed ids) | Err e => Err e end
    end
  else if decide (code = ALL_MATCHED) then
    match weight with
    | None => Err (Corrupt "all-matched status without a weight")
    | Some weight =>
        match u32_try_from_i64 weight with
        | Some total_weight => Ok (AllMatched total_weight)
        | None => Err (Corrupt "verification weight out of range")
        end
    end
  else Err (Corrupt "unknown verification status").

Definition digest_from (blob : list u8) : Result Error EnvelopeDigest :=
  match array_try_from 32 blob with
  | Some bytes => Ok (MkEnvelopeDigest bytes)
  | None => Err (Corrupt "stored digest is not 32 bytes")
  end.

Definition key_from (key : rstring) : Result Error NamespaceKey :=
  match NamespaceKey_try_new key with
  | Some key => Ok key
  | None => Err (Corrupt "stored namespace key is empty")
  end.

(** [?] on a call of the connection, and on the codec. *)
Abbreviation SELECT q := (select SqliteError_Sqlite q) (only parsing).
Abbreviation UPDATE f := (update SqliteError_Sqlite f) (only parsing).
Abbreviation CALL := (call SqliteError_Sqlite) (only parsing).

Definition coded {A} (r : Result WireError A) : SQ A :=
  m_map_err SqliteError_Codec (m_lift r).

Definition m_assert (b : bool) : SQ () := if b then m_ret () else m_panic.

Definition m_expect {A} (o : option A) : SQ A :=
  match o with Some a => m_ret a | None => m_panic end.

Definition version_exists (head : EnvelopeDigest) : SQ bool :=
  SELECT (λ d, bool_decide (digest_slice head ∈ t_versions d)).

Definition namespace_root (head : EnvelopeDigest) (key : NamespaceKey) : SQ (option Z) :=
  let! root := SELECT (λ d, t_version_namespaces d !! (digest_slice head, NamespaceKey_as_ref key)) in
  match root with
  | None => let! exists_ := version_exists head in do! m_assert exists_ in m_ret root
  | Some _ => m_ret root
  end.

Definition replace_version (head : EnvelopeDigest) : SQ () :=
  do! UPDATE (on_versions (union {[digest_slice head]})) in
  UPDATE (on_version_namespaces (base.filter (λ row, row.1.1 ≠ digest_slice head))).

Definition set_root (head : EnvelopeDigest) (key : NamespaceKey) (root : Z) : SQ () :=
  UPDATE (on_version_namespaces (insert (digest_slice head, NamespaceKey_as_ref key) root)).

Definition insert_node (kind : Z) (leaf : option (list u8)) : SQ Z :=
  sql SqliteError_Sqlite (λ d,
    match new_rowid (t_nodes d) with
    | None => Err DatabaseFull
    | Some id => Ok (id, on_nodes (insert id (MkNodeRow kind leaf)) d)
    end).

Definition node (id : Z) : SQ (NodeKind * option (list u8)) :=
  let! row := SELECT (λ d, t_nodes d !! id) in
  let! row := m_lift (match row with
                      | Some row => Ok row
                      | None => Err (Corrupt "edge references a missing node")
                      end) in
  let! kind := m_lift (kind_from (node_code row)) in
  m_ret (kind, node_leaf row).

Definition node_kind (id : Z) : SQ NodeKind :=
  let! n := node id in m_ret n.1.

Definition map_child (parent : Z) (key : rstring) : SQ (option Z) :=
  SELECT (λ d, t_map_edges d !! (parent, key)).

Definition array_child (parent : Z) (idx : N) : SQ (option Z) :=
  SELECT (λ d, t_array_edges d !! (parent, Z.of_N idx)).

(** An insert of rows into one of the edge tables. *)
Definition insert_map_edges (rows : Db → list (Z * rstring * Z)) : SQ () :=
  sql SqliteError_Sqlite (λ d,
    match insert_rows ConstraintViolation (rows d) (t_map_edges d) with
    | Ok t => Ok ((), on_map_edges (λ _, t) d)
    | Err e => Err e
    end).

Definition insert_array_edges (rows : Db → list (Z * Z * Z)) : SQ () :=
  sql SqliteError_Sqlite (λ d,
    match insert_rows ConstraintViolation (rows d) (t_array_edges d) with
    | Ok t => Ok ((), on_array_edges (λ _, t) d)
    | Err e => Err e
    end).

Definition insert_map_edge (parent : Z) (key : rstring) (child : Z) : SQ () :=
  insert_map_edges (λ _, [(parent, key, child)]).

Definition insert_array_edge (parent idx child : Z) : SQ () :=
  insert_array_edges (λ _, [(parent, idx, child)]).

(** Stores [value] as a fresh node tree, yielding its root id. *)
Fixpoint insert_value (value : Value) : SQ Z :=
  match value with
  | Value_Map map =>
      let! id := insert_node MAP None in
      do! m_for_each (λ kv : rstring * Value,
            let! child := insert_value kv.2 in insert_map_edge id kv.1 child) map in
      m_ret id
  | Value_Array items =>
      let! id := insert_node ARRAY None in
      do! m_for_each_i (λ idx item,
            let! child := insert_value item in
            insert_array_edge id (Z.of_nat idx) child) 0 items in
      m_ret id
  | leaf =>
      let! bytes := coded (encode (ser_value leaf)) in
      insert_node LEAF (Some bytes)
  end.

Definition payload_of (leaf : option (list u8)) : Result Error (list u8) :=
  match leaf with
  | Some bytes => Ok bytes
  | None => Err (Corrupt "leaf node without a payload")
  end.

(** Materializes the subtree rooted at [id]. *)
Fixpoint value_of (fuel : nat) (id : Z) : SQ Value :=
  match fuel with
  | 0 => λ _, Diverge
  | S fuel =>
      let! n := node id in
      match n.1 with
      | NodeKind_Leaf =>
          let! bytes := m_lift (payload_of n.2) in
          coded (decode_value bytes)
      | NodeKind_Map =>
          let! edges := SELECT (λ d, scan id (t_map_edges d)) in
          let! entries := m_collect (λ kc : rstring * Z,
            let! child := value_of fuel kc.2 in m_ret (kc.1, child)) edges in
          m_ret (Value_Map (bt_from_iter entries))
      | NodeKind_Array =>
          let! children := SELECT (λ d, (scan_by id (t_array_edges d)).*2) in
          let! items := m_collect (value_of fuel) children in
          m_ret (Value_Array items)
      end
  end.

(** Deep enough for any tree of the nodes there are. *)
Definition value_at_node (id : Z) : SQ Value := λ c, value_of (S (size (t_nodes (db c)))) id c.

(** A new map node with [old]'s edges, minus the one at [except]. *)
Definition new_map_without (old : Z) (except : rstring) : SQ Z :=
  let! id := insert_node MAP None in
  do! insert_map_edges (λ d,
        omap (λ kc : rstring * Z, if decide (kc.1 ≠ except) then Some (id, kc.1, kc.2) else None)
          (scan old (t_map_edges d))) in
  m_ret id.

(** .. with the edge at [idx] replaced by [child]. *)
Definition new_array_replacing (old : Z) (idx : N) (child : Z) : SQ Z :=
  let! id := insert_node ARRAY None in
  do! insert_array_edges (λ d,
        omap (λ ic : Z * Z, if decide (ic.1 ≠ Z.of_N idx) then Some (id, ic.1, ic.2) else None)
          (scan old (t_array_edges d))) in
  do! insert_array_edge id (Z.of_N idx) child in
  m_ret id.

(** .. without the edge at [idx], later indices shifted down. *)
Definition new_array_removing (old : Z) (idx : N) : SQ Z :=
  let! id := insert_node ARRAY None in
  do! insert_array_edges (λ d,
        omap (λ ic : Z * Z,
          if decide (ic.1 ≠ Z.of_N idx)
          then Some (id, if (ic.1 >? Z.of_N idx)%Z then (ic.1 - 1)%Z else ic.1, ic.2) else None)
          (scan old (t_array_edges d))) in
  m_ret id.

(** .. plus [child] appended. *)
Definition new_array_appending (old child : Z) : SQ Z :=
  let! kind := node_kind old in
  do! match kind with NodeKind_Array => m_ret () | _ => m_panic end in
  let! len := SELECT (λ d, Z.of_nat (length (scan old (t_array_edges d)))) in
  let! id := insert_node ARRAY None in
  do! insert_array_edges (λ d, map (λ ic : Z * Z, (id, ic.1, ic.2)) (scan old (t_array_edges d))) in
  do! insert_array_edge id len child in
  m_ret id.

(** A new leaf holding [old]'s integer with [inc] applied. *)
Definition increment_leaf (old : Z) (inc : IncrementDecrement) : SQ Z :=
  let! n := node old in
  let! leaf := match n.1 with
               | NodeKind_Leaf => m_lift (payload_of n.2)
               | _ => m_panic
               end in
  let! value := coded (decode_value leaf) in
  let! n := match value with Value_Int n => m_ret n | _ => m_panic end in
  let! sum := m_expect (IncrementDecrement_apply inc n) in
  let! bytes := coded (encode (ser_value (Value_Int sum))) in
  insert_node LEAF (Some bytes).

(** [keep] of the container: [None] for a child to drop. *)
Definition keep_child (predicate : Predicate) (child : Z) : SQ (option Z) :=
  let! value := value_at_node child in
  m_ret (if negb (Predicate_matches predicate value) then Some child else None).

Definition new_container_retaining (old : Z) (predicate : Predicate) : SQ Z :=
  let! kind := node_kind old in
  match kind with
  | NodeKind_Map =>
      let! edges := SELECT (λ d, scan old (t_map_edges d)) in
      let! id := insert_node MAP None in
      do! m_for_each (λ kc : rstring * Z,
            let! kept := keep_child predicate kc.2 in
            match kept with
            | None => m_ret ()
            | Some child => insert_map_edge id kc.1 child
            end) edges in
      m_ret id
  | NodeKind_Array =>
      let! children := SELECT (λ d, (scan_by old (t_array_edges d)).*2) in
      let! kept := m_collect (keep_child predicate) children in
      let! id := insert_node ARRAY None in
      do! m_for_each_i (λ idx child, insert_array_edge id (Z.of_nat idx) child) 0 (omap (λ o, o) kept) in
      m_ret id
  | NodeKind_Leaf => m_panic
  end.

(** Path-copies [node] along [path]; [terminal] decides what the last segment
    addresses. *)
Fixpoint replace_child (node : Z) (path : list Subkey) (terminal : option Z → SQ (option Z)) : SQ Z :=
  match path with
  | [] => m_panic
  | segment :: rest =>
      let! kind := node_kind node in
      match kind, segment with
      | NodeKind_Map, Subkey_Key key =>
          let! child := map_child node key in
          let! replacement :=
            match rest, child with
            | [], child => terminal child
            | _ :: _, Some child => let! child := replace_child child rest terminal in m_ret (Some child)
            | _ :: _, None => m_panic
            end in
          let! id := new_map_without node key in
          do! match replacement with
              | Some child => insert_map_edge id key child
              | None => m_ret ()
              end in
          m_ret id
      | NodeKind_Array, Subkey_Index idx =>
          let! child := array_child node idx in
          let! child := m_expect child in
          match rest with
          | [] =>
              let! replacement := terminal (Some child) in
              match replacement with
              | Some child => new_array_replacing node idx child
              | None => new_array_removing node idx
              end
          | _ :: _ =>
              let! child := replace_child child rest terminal in
              new_array_replacing node idx child
          end
      | _, _ => m_panic
      end
  end.

(** Applies [op] to the value rooted at [node], yielding the new root id. *)
Definition amend_node (node : Z) (op : AmendOp) : SQ Z :=
  match op with
  | AmendOp_AppendEntry entry =>
      let! entry := insert_value entry in
      new_array_appending node entry
  | AmendOp_IncrementDecrement inc => increment_leaf node inc
  | AmendOp_DeleteMatching predicate => new_container_retaining node predicate
  end.

(** ** The trait's methods *)

(** The walk of a path from a root; [walk]'s [try_fold]. *)
Fixpoint walk_nodes (node : option Z) (path : list Subkey) : SQ (option Z) :=
  match path with
  | [] => m_ret node
  | segment :: path =>
      let! next :=
        match node with
        | None => m_ret None
        | Some node =>
            let! kind := node_kind node in
            match kind, segment with
            | NodeKind_Map, Subkey_Key key => map_child node key
            | NodeKind_Array, Subkey_Index idx => array_child node idx
            | _, _ => m_ret None
            end
        end in
      walk_nodes next path
  end.

Definition walk_tree (head : EnvelopeDigest) (key : NamespaceKey) (path : list Subkey) : SQ (option Z) :=
  let! root := namespace_root head key in
  match root with
  | None => m_ret None
  | Some root => walk_nodes (Some root) path
  end.

Fixpoint resolve_nodes (depth : nat) (current : Z) (path : list Subkey) : SQ Resolution :=
  match path with
  | [] => let! kind := node_kind current in m_ret (Resolution_Node kind)
  | segment :: path =>
      let! kind := node_kind current in
      let descend child :=
        match child with
        | Some child => resolve_nodes (S depth) child path
        | None => m_ret (Resolution_Missing depth kind)
        end in
      match kind, segment with
      | NodeKind_Map, Subkey_Key key => let! child := map_child current key in descend child
      | NodeKind_Array, Subkey_Index idx => let! child := array_child current idx in descend child
      | _, _ => m_ret (Resolution_Mismatch depth)
      end
  end.

Definition sqlite_resolve (head : EnvelopeDigest) (key : NamespaceKey) (path : list Subkey)
    : SQ (option Resolution) :=
  let! root := namespace_root head key in
  match root with
  | None => m_ret None
  | Some root => let! r := resolve_nodes 0 root path in m_ret (Some r)
  end.

(** [.map(f).transpose()] of an optional node. *)
Definition at_node {A} (f : Z → SQ A) (node : option Z) : SQ (option A) :=
  match node with
  | None => m_ret None
  | Some id => let! a := f id in m_ret (Some a)
  end.

Definition sqlite_value_at (head : EnvelopeDigest) (key : NamespaceKey) (path : list Subkey)
    : SQ (option Value) :=
  let! node := walk_tree head key path in
  at_node value_at_node node.

Definition sqlite_meta_at (head : EnvelopeDigest) (key : NamespaceKey) (path : list Subkey)
    : SQ (option ValueMeta) :=
  let! node := walk_tree head key path in
  at_node (λ node,
    let! kind := node_kind node in
    match kind with
    | NodeKind_Leaf => m_ret ValueMeta_Leaf
    | NodeKind_Array =>
        let! len := SELECT (λ d, Z.of_nat (length (scan node (t_array_edges d)))) in
        m_ret (ValueMeta_Array (Z.to_N len))
    | NodeKind_Map =>
        let! keys := SELECT (λ d, bt_keys (scan_by node (t_map_edges d))) in
        m_ret (ValueMeta_Map keys)
    end) node.

Definition sqlite_namespace (head : EnvelopeDigest) (key : NamespaceKey) : SQ (option Namespace) :=
  let! root := namespace_root head key in
  at_node (λ root, let! value := value_at_node root in m_ret (MkNamespace value)) root.

(** Every [(key, root)] of the version at [head], in key order. *)
Definition namespace_roots (head : EnvelopeDigest) : SQ (list (NamespaceKey * Z)) :=
  let! roots := SELECT (λ d, scan_by (digest_slice head) (t_version_namespaces d)) in
  do! match roots with
      | [] => let! exists_ := version_exists head in m_assert exists_
      | _ :: _ => m_ret ()
      end in
  m_collect (λ kr : rstring * Z, let! key := m_lift (key_from kr.1) in m_ret (key, kr.2)) roots.

(** [err.into_iter().chain(..)]: the error alone, or what the roots yield. *)
Definition over_roots {A} (f : NamespaceKey * Z → SQ A) (head : EnvelopeDigest)
    : SQ (list (Result Error A)) :=
  let! roots := m_catch (namespace_roots head) in
  match roots with
  | Err err => m_ret [Err err]
  | Ok roots => m_results f roots
  end.

Definition sqlite_namespaces : EnvelopeDigest → SQ (list (Result Error (NamespaceKey * Namespace))) :=
  over_roots (λ kr, let! value := value_at_node kr.2 in m_ret (kr.1, MkNamespace value)).

Definition sqlite_namespace_keys : EnvelopeDigest → SQ (list (Result Error NamespaceKey)) :=
  over_roots (λ kr, m_ret kr.1).

(** What the last segment of an amendment's path becomes. *)
Definition amend_terminal (op : AmendOp) (old : option Z) : SQ (option Z) :=
  match op with
  | AmendOp_AppendEntry entry =>
      let! entry := insert_value entry in
      match old with
      | Some target => let! id := new_array_appending target entry in m_ret (Some id)
      | None =>
          let! array := insert_node ARRAY None in
          do! insert_array_edge array 0 entry in
          m_ret (Some array)
      end
  | op =>
      let! target := m_expect old in
      let! id := amend_node target op in
      m_ret (Some id)
  end.

Definition set_terminal (value : option Value) (old : option Z) : SQ (option Z) :=
  match value with
  | Some value => let! id := insert_value value in m_ret (Some id)
  | None => do! m_assert (bool_decide (is_Some old)) in m_ret None
  end.

Definition sqlite_commit (parent head : EnvelopeDigest) (op : NamespaceOp) : SQ () :=
  transaction SqliteError_Sqlite (
    let! exists_ := version_exists parent in
    do! m_assert exists_ in
    do! replace_version head in
    do! sql SqliteError_Sqlite (λ d,
          match insert_rows ConstraintViolation
                  (map (λ kr : rstring * Z, (digest_slice head, kr.1, kr.2))
                    (scan (digest_slice parent) (t_version_namespaces d))) (t_version_namespaces d) with
          | Ok t => Ok ((), on_version_namespaces (λ _, t) d)
          | Err e => Err e
          end) in
    match op with
    | NamespaceOp_Put key namespace =>
        let! root := insert_value (ns_value namespace) in
        set_root head key root
    | NamespaceOp_Delete key =>
        let! deleted := sql SqliteError_Sqlite (λ d,
          let row := (digest_slice head, NamespaceKey_as_ref key) in
          Ok (bool_decide (is_Some (t_version_namespaces d !! row)), on_version_namespaces (delete row) d)) in
        m_assert deleted
    | NamespaceOp_SetAt key path value =>
        let! root := namespace_root head key in
        let! root := m_expect root in
        let! root := replace_child root (SubkeyPath_as_ref path) (set_terminal value) in
        set_root head key root
    | NamespaceOp_AmendAt key path op =>
        let! root := namespace_root head key in
        let! root := m_expect root in
        let! root :=
          match path with
          | None => amend_node root op
          | Some path => replace_child root (SubkeyPath_as_ref path) (amend_terminal op)
          end in
        set_root head key root
    end).

Definition sqlite_install (head : EnvelopeDigest) (namespaces : list (NamespaceKey * Namespace)) : SQ () :=
  transaction SqliteError_Sqlite (
    do! replace_version head in
    m_for_each (λ kn : NamespaceKey * Namespace,
      let! root := insert_value (ns_value kn.2) in set_root head kn.1 root) namespaces).

(** The tables of a retention after its deletes. [keep] and [reachable] are
    temporary tables, emptied before they are filled: each is the set it holds
    here. *)
Definition sweep : SQ () :=
  do! CALL in
  do! CALL in
  let! live := SELECT reachable in
  do! UPDATE (on_map_edges (base.filter (λ row, row.1.1 ∈ live))) in
  do! UPDATE (on_array_edges (base.filter (λ row, row.1.1 ∈ live))) in
  UPDATE (on_nodes (base.filter (λ row, row.1 ∈ live))).

Definition sqlite_retain (keep : list EnvelopeDigest) : SQ () :=
  do! transaction SqliteError_Sqlite (
        do! CALL in
        do! CALL in
        do! m_for_each (λ _, CALL) keep in
        let kept : gset (list u8) := list_to_set (map digest_slice keep) in
        do! UPDATE (on_versions (base.filter (λ head, head ∈ kept))) in
        do! UPDATE (on_version_namespaces (base.filter (λ row, row.1.1 ∈ kept))) in
        sweep) in
  do! CALL in
  do! CALL in
  do! (λ c, drain SqliteError_Sqlite (S (free_pages (world c) (calls c))) c) in
  λ c, if dice (world c) (calls c) then CALL c else m_ret () c.

Definition sqlite_put_envelope (digest : EnvelopeDigest) (envelope : Envelope) : SQ () :=
  let! bytes := coded (encode (ser_envelope envelope)) in
  let prev := digest_slice <$> prev_of envelope in
  let '(status, weight, bad_keys) := status_columns (verification_status envelope) in
  λ c,
    let now := timestamp_millis (wall_clock (world c) (calls c)) in
    UPDATE (on_envelopes (λ t,
      let stored_at :=
        match t !! digest_slice digest with Some row => row_stored_at row | None => now end in
      <[digest_slice digest := MkEnvelopeRow bytes prev status weight bad_keys stored_at]> t)) c.

(** A row read back. *)
Definition entry_of (row : EnvelopeRow) : SQ LogEntry :=
  let! envelope := coded (decode_envelope (row_bytes row)) in
  let! status := m_lift (status_from (row_status row) (row_weight row) (row_bad_keys row)) in
  let! stored_at := m_lift (match from_timestamp_millis (row_stored_at row) with
                            | Some at_ => Ok at_
                            | None => Err (Corrupt "stored-at is not a time")
                            end) in
  m_ret (MkLogEntry (set_verification_status envelope status) stored_at).

Definition sqlite_logged_envelope (digest : EnvelopeDigest) : SQ (option LogEntry) :=
  let! row := SELECT (λ d, t_envelopes d !! digest_slice digest) in
  match row with
  | None => m_ret None
  | Some row => let! entry := entry_of row in m_ret (Some entry)
  end.

Definition sqlite_remove_envelope (digest : EnvelopeDigest) : SQ () :=
  UPDATE (on_envelopes (delete (digest_slice digest))).

(** The digests of the rows under [prev], ascending. *)
Definition rows_under (prev : list u8) (t : gmap (list u8) EnvelopeRow) : list (list u8) :=
  bt_keys (bt_from_iter (omap (λ row : list u8 * EnvelopeRow,
    if decide (row_prev row.2 = Some prev) then Some (row.1, ()) else None) (map_to_list t))).

Definition sqlite_children (parent : EnvelopeDigest) : SQ (list (Result Error EnvelopeDigest)) :=
  let! digests := m_catch (
    let! blobs := SELECT (λ d, rows_under (digest_slice parent) (t_envelopes d)) in
    m_lift (collect (map digest_from blobs))) in
  match digests with
  | Err err => m_ret [Err err]
  | Ok digests => m_ret (map Ok digests)
  end.

Definition sqlite_parent (digest : EnvelopeDigest) : SQ (option EnvelopeDigest) :=
  let! prev := SELECT (λ d, t_envelopes d !! digest_slice digest ≫= row_prev) in
  match prev with
  | None => m_ret None
  | Some blob => let! d := m_lift (digest_from blob) in m_ret (Some d)
  end.

(** ** Opening *)

Definition set_user_version v (h : Header) : Header := MkHeader v (application_id h) (auto_vacuum h) (schema h).

Definition set_application_id id (h : Header) : Header := MkHeader (user_version h) id (auto_vacuum h) (schema h).

(** The mode takes only before the first table. *)
Definition set_auto_vacuum mode (h : Header) : Header :=
  MkHeader (user_version h) (application_id h)
    (if decide (schema h = ∅) then mode else auto_vacuum h) (schema h).

Definition create (name : rstring) (h : Header) : Header :=
  MkHeader (user_version h) (application_id h) (auto_vacuum h) ({[name]} ∪ schema h).

Definition INCREMENTAL : Z := 2.

Definition setup : SQ () :=
  let! version := SELECT (λ d, user_version (t_header d)) in
  do! (if decide (version = 0 ∨ version = SCHEMA_VERSION)%Z then m_ret ()
       else m_err (SqliteError_SchemaVersion version)) in
  let! id := SELECT (λ d, application_id (t_header d)) in
  do! (if decide (id = 0%Z) then
         do! (if decide (version = 0%Z) then UPDATE (on_header (set_auto_vacuum INCREMENTAL)) else m_ret ()) in
         UPDATE (on_header (set_application_id APPLICATION_ID))
       else if decide (id = APPLICATION_ID) then m_ret ()
       else m_err (SqliteError_ApplicationId id)) in
  do! CALL in
  do! CALL in
  do! CALL in
  do! CALL in
  do! CALL in
  if decide (version = 0%Z) then
    do! m_for_each (λ name, UPDATE (on_header (create name))) SCHEMA in
    UPDATE (on_header (set_user_version SCHEMA_VERSION))
  else m_ret ().
End sqlite.
