(* ===== verification/SqlLogic.v ===== *)
(** * Reasoning about the connection

    [qwp m d Q X]: over a connection whose tables are [d], [m] neither panics nor
    runs out of fuel; it ends in [Q] with its value and tables, or fails with an
    error that is the engine's or the encoder's — never one that calls the store
    corrupt — over tables in [X]. The world beside the tables is the same after
    either. *)

From S2P Require Import Prelude BTree Text Codec Externals Keys Subkey Msg Envelope Value Storage Sql Sqlite.

Definition backend_error `{Externals, Rusqlite} (e : SqliteError) : Prop :=
  match e with
  | SqliteError_Sqlite _ | SqliteError_Codec (WireError_Encode _) => True
  | _ => False
  end.

Definition qwp `{Externals, Rusqlite} {A} (m : M Conn SqliteError A) (d : Db) (Q : A → Db → Prop)
    (X : Db → Prop) : Prop :=
  ∀ c, db c = d →
  wp m c (λ a c', world c' = world c ∧ Q a (db c'))
    (λ e c', world c' = world c ∧ X (db c') ∧ backend_error e).

(** [m] writes nothing. *)
Definition qreads `{Externals, Rusqlite} {A} (m : M Conn SqliteError A) (d : Db) (Q : A → Prop) : Prop :=
  qwp m d (λ a d', d' = d ∧ Q a) (λ d', d' = d).

Section rules.
Context `{Externals, Rusqlite}.
Implicit Types (d : Db) (X : Db → Prop).

Lemma qwp_ret {A} (a : A) d (Q : A → Db → Prop) X : Q a d → qwp (m_ret a) d Q X.
Proof. intros HQ c <-. by split. Qed.

Lemma qwp_bind {A B} (m : M Conn SqliteError A) (k : A → M Conn SqliteError B) d (Q : B → Db → Prop) X :
  qwp m d (λ a d', qwp (k a) d' Q X) X → qwp (m_bind m k) d Q X.
Proof.
  intros Hm c Hc. apply wp_bind. eapply wp_mono; [by apply Hm|..|done].
  intros a c' [Hw Hk]. rewrite <-Hw. by apply Hk.
Qed.

Lemma qwp_mono {A} (m : M Conn SqliteError A) d (Q Q' : A → Db → Prop) X X' :
  qwp m d Q X → (∀ a d', Q a d' → Q' a d') → (∀ d', X d' → X' d') → qwp m d Q' X'.
Proof. intros Hm HQ HX c Hc. eapply wp_mono; [by apply Hm|naive_solver..]. Qed.

Lemma qwp_sql {A} (stmt : Db → Result RusqliteError (A * Db)) d (Q : A → Db → Prop) X :
  X d → (∀ a d', stmt d = Ok (a, d') → Q a d') → qwp (sql SqliteError_Sqlite stmt) d Q X.
Proof.
  intros HX HQ c <-. unfold wp, sql. destruct (outcome _ _); [done|].
  destruct (stmt (db c)) as [[a d']|e] eqn:Hs; [|done]. split; [done|]. by apply HQ.
Qed.

Lemma qwp_select {A} (q : Db → A) d (Q : A → Db → Prop) X :
  X d → Q (q d) d → qwp (select SqliteError_Sqlite q) d Q X.
Proof. intros HX HQ. apply qwp_sql; [done|]. by intros a d' [= <- <-]. Qed.

Lemma qwp_update (f : Db → Db) d (Q : () → Db → Prop) X :
  X d → Q () (f d) → qwp (update SqliteError_Sqlite f) d Q X.
Proof. intros HX HQ. apply qwp_sql; [done|]. by intros a d' [= <- <-]. Qed.

Lemma qwp_call d (Q : () → Db → Prop) X :
  X d → Q () d → qwp (call SqliteError_Sqlite) d Q X.
Proof. intros HX HQ. by apply qwp_select. Qed.

Lemma qwp_lift_Ok {A} (a : A) d (Q : A → Db → Prop) X : Q a d → qwp (m_lift (Ok a)) d Q X.
Proof. apply qwp_ret. Qed.

Lemma qwp_reads {A} (m : M Conn SqliteError A) d (P : A → Prop) (Q : A → Db → Prop) X :
  qreads m d P → X d → (∀ a, P a → Q a d) → qwp m d Q X.
Proof. intros Hm HX HQ. eapply qwp_mono; [exact Hm|by intros a d' [-> ?%HQ]|by intros d' ->]. Qed.

Lemma qwp_coded_encode (i : Item) d (Q : list u8 → Db → Prop) X :
  X d → (∀ b, encode i = Ok b → Q b d) → qwp (coded (encode i)) d Q X.
Proof.
  intros HX HQ c <-. unfold wp, coded, m_map_err, m_lift.
  destruct (encode i) as [b|e] eqn:He; [by split; [|apply HQ]|].
  unfold encode in He. destruct (to_canonical_vec i); by simplify_eq.
Qed.

Lemma qwp_coded_Ok {A} (r : Result WireError A) a d (Q : A → Db → Prop) X :
  r = Ok a → Q a d → qwp (coded r) d Q X.
Proof. intros -> HQ c <-. by split. Qed.

Lemma qreads_bind {A B} (m : M Conn SqliteError A) (k : A → M Conn SqliteError B) d P (Q : B → Prop) :
  qreads m d P → (∀ a, P a → qreads (k a) d Q) → qreads (m_bind m k) d Q.
Proof.
  intros Hm Hk. apply qwp_bind. eapply qwp_reads; [exact Hm|done|]. intros a Ha. by apply Hk.
Qed.

Lemma qreads_mono {A} (m : M Conn SqliteError A) d (P Q : A → Prop) :
  qreads m d P → (∀ a, P a → Q a) → qreads m d Q.
Proof. intros Hm HQ. eapply qwp_mono; [exact Hm|naive_solver|done]. Qed.

Lemma qreads_select {A} (q : Db → A) d (Q : A → Prop) :
  Q (q d) → qreads (select SqliteError_Sqlite q) d Q.
Proof. intros HQ. by apply qwp_select. Qed.

Lemma qreads_select_bind {A B} (q : Db → A) (k : A → M Conn SqliteError B) d (Q : B → Prop) :
  qreads (k (q d)) d Q → qreads (m_bind (select SqliteError_Sqlite q) k) d Q.
Proof. intros Hk. by apply qwp_bind, qwp_select. Qed.

Lemma qreads_ret {A} (a : A) d (Q : A → Prop) : Q a → qreads (m_ret a) d Q.
Proof. intros HQ. by apply qwp_ret. Qed.

(** A read by its value, as [&self] methods are. *)
Lemma qreads_cwp {A} (m : M Conn SqliteError A) (c : Conn) (Q : A → Prop) :
  qreads m (db c) Q → cwp (reads m c) Q (λ _, True).
Proof.
  intros Hm. specialize (Hm (MkConn (db c) (reading (world c)) (calls c)) eq_refl). unfold cwp, wp, reads in *.
  destruct (m _) as [[[a|e] c']| |]; naive_solver.
Qed.

(** A list of reads that each give [f]'s value. *)
Lemma qreads_collect {A B} (m : A → M Conn SqliteError B) (R : A → B → Prop) d (l : list A) :
  (∀ a, a ∈ l → qreads (m a) d (R a)) → qreads (m_collect m l) d (λ r, Forall2 R l r).
Proof.
  induction l as [|a l IH]; intros Hl; simpl; [by apply qreads_ret|].
  eapply qreads_bind; [apply Hl; by left|]. intros b Hb.
  eapply qreads_bind; [apply IH; intros x Hx; apply Hl; by right|]. intros r Hr.
  apply qreads_ret. by constructor.
Qed.

(** .. and one whose failures are kept. *)
Lemma qreads_results {A B} (m : A → M Conn SqliteError B) (R : A → B → Prop) d (l : list A) :
  (∀ a, a ∈ l → qreads (m a) d (R a)) →
  qreads (m_results m l) d (λ r, match collect r with Ok bs => Forall2 R l bs | Err _ => True end ∧
    ∀ b, Ok b ∈ r → ∃ a, a ∈ l ∧ R a b).
Proof.
  induction l as [|a l IH]; intros Hl; simpl; [apply qreads_ret; split; [constructor|by intros ? ?%not_elem_of_nil]|].
  eapply (qreads_bind _ _ _ (λ b, match b with Ok b => R a b | Err _ => True end)).
  { intros c Hc. apply wp_catch. eapply wp_mono; [apply (Hl a ltac:(by left) c Hc)|..]; naive_solver. }
  intros b Hb. eapply qreads_bind; [apply IH; intros x Hx; apply Hl; by right|]. intros r [Hr Hin].
  apply qreads_ret. cbn beta in Hr. split.
  - simpl. destruct b as [b|e]; [|done]. destruct (collect r); [by constructor|done].
  - intros b' [<-|Hb']%elem_of_cons; [by exists a; split; [left|]|].
    destruct (Hin b' Hb') as (x & ? & ?). exists x. by split; [right|].
Qed.

(** Loops over a list, by an invariant on the part done. *)
Lemma qwp_for_each {A} (m : A → M Conn SqliteError ()) (I : list A → Db → Prop) (r p : list A) d :
  (∀ q a s d, p ++ r = q ++ a :: s → I q d → qwp (m a) d (λ _, I (q ++ [a])) (λ _, True)) →
  I p d → qwp (m_for_each m r) d (λ _, I (p ++ r)) (λ _, True).
Proof.
  revert p d. induction r as [|a r IH]; intros p d Hm Hp; simpl; [by apply qwp_ret; rewrite app_nil_r|].
  apply qwp_bind. eapply qwp_mono; [by apply (Hm p a r)| |done]. intros u d' Hd'.
  rewrite cons_middle, app_assoc in Hm |- *. by apply IH.
Qed.

Lemma qwp_for_each_i {A} (m : nat → A → M Conn SqliteError ()) (I : list A → Db → Prop) (r p : list A) d :
  (∀ q a s d, p ++ r = q ++ a :: s → I q d → qwp (m (length q) a) d (λ _, I (q ++ [a])) (λ _, True)) →
  I p d → qwp (m_for_each_i m (length p) r) d (λ _, I (p ++ r)) (λ _, True).
Proof.
  revert p d. induction r as [|a r IH]; intros p d Hm Hp; simpl; [by apply qwp_ret; rewrite app_nil_r|].
  apply qwp_bind. eapply qwp_mono; [by apply (Hm p a r)| |done]. intros u d' Hd'.
  rewrite cons_middle, app_assoc in Hm |- *.
  replace (S (length p)) with (length (p ++ [a])) by (rewrite length_app; simpl; lia). by apply IH.
Qed.

Lemma qwp_transaction {A} (body : M Conn SqliteError A) d (Q : A → Db → Prop) :
  qwp body d Q (λ _, True) → qwp (transaction SqliteError_Sqlite body) d Q (λ d', d' = d).
Proof.
  intros Hbody c Hc.
  assert (qwp (do! call SqliteError_Sqlite in let! a := body in do! call SqliteError_Sqlite in m_ret a)
    d Q (λ _, True)) as Hw.
  { apply qwp_bind, qwp_call; [done|]. apply qwp_bind. eapply qwp_mono; [exact Hbody| |done].
    intros a d' Ha. by apply qwp_bind, qwp_call; [|apply qwp_ret]. }
  specialize (Hw c Hc). unfold wp, transaction in *.
  destruct ((do! _ in _) c) as [[[a|e] c']| |]; naive_solver.
Qed.
End rules.

(** ** What the statements select *)

Section scans.
Context {A B V : Type} `{Countable A, Countable B}.
Implicit Types (t : gmap (A * B) V) (a : A) (b : B) (v : V).

Lemma elem_of_scan a t b v : (b, v) ∈ scan a t ↔ t !! (a, b) = Some v.
Proof.
  unfold scan. rewrite list_elem_of_omap. split.
  - intros ([[a' b'] v'] & Hin & Ho). simpl in Ho. case_decide; simplify_eq.
    by apply elem_of_map_to_list in Hin.
  - intros Ht. exists (a, b, v). simpl. rewrite decide_True by done. split; [|done].
    by apply elem_of_map_to_list.
Qed.

Lemma NoDup_scan a t : NoDup (scan a t).*1.
Proof.
  unfold scan. pose proof (NoDup_fst_map_to_list t) as Hnd.
  induction (map_to_list t) as [|[[a' b'] v'] l IH]; simpl; [constructor|].
  simpl in Hnd. apply NoDup_cons in Hnd as [Hnin Hnd]. case_decide as Ha; [|by apply IH].
  simpl. apply NoDup_cons. split; [|by apply IH].
  intros ([b'' v''] & -> & Hin)%list_elem_of_fmap. simpl in *.
  apply list_elem_of_omap in Hin as ([[a1 b1] v1] & Hin & Ho). simpl in Ho. case_decide; simplify_eq.
  apply Hnin, list_elem_of_fmap. by eexists (_, _, _).
Qed.

Lemma elem_of_scan_by `{Ord B, !OrdLaws B} a t b v : (b, v) ∈ scan_by a t ↔ t !! (a, b) = Some v.
Proof. unfold scan_by. by rewrite bt_from_iter_Permutation, elem_of_scan by apply NoDup_scan. Qed.

Lemma scan_by_length `{Ord B, !OrdLaws B} a t : length (scan a t) = length (scan_by a t).
Proof. unfold scan_by. by rewrite bt_from_iter_Permutation by apply NoDup_scan. Qed.
End scans.

Lemma elem_of_edges_from {K} `{Countable K} (from : gset Z) (t : gmap (Z * K) Z) c :
  c ∈ edges_from from t ↔ ∃ p k, t !! (p, k) = Some c ∧ p ∈ from.
Proof.
  unfold edges_from. rewrite elem_of_list_to_set, list_elem_of_omap. split.
  - intros ([[p k] c'] & Hin & Ho). simpl in Ho. case_decide; simplify_eq.
    exists p, k. by apply elem_of_map_to_list in Hin.
  - intros (p & k & Ht & Hp). exists (p, k, c). simpl. rewrite decide_True by done. split; [|done].
    by apply elem_of_map_to_list.
Qed.

(** Rows with fresh keys go in as they are. *)
Lemma insert_rows_Ok {R K V} `{Countable K} (violation : R) (rows : list (K * V)) (t : gmap K V) :
  NoDup rows.*1 → (∀ k v, (k, v) ∈ rows → t !! k = None) →
  ∃ t', insert_rows violation rows t = Ok t' ∧
    ∀ k v, t' !! k = Some v ↔ (k, v) ∈ rows ∨ t !! k = Some v.
Proof.
  intros Hnd Hfresh. unfold insert_rows. rewrite decide_True.
  2: { split; [done|]. apply Forall_forall. intros k ([k' v] & -> & Hin)%list_elem_of_fmap. by eapply Hfresh. }
  eexists. split; [done|]. intros k v. rewrite lookup_union_Some.
  - by rewrite elem_of_list_to_map.
  - apply map_disjoint_spec. intros i x y Hx Hy. apply elem_of_list_to_map in Hx; [|done].
    apply Hfresh in Hx. congruence.
Qed.
