(* ===== verification/SqliteTree.v ===== *)
(** * Value trees as rows

    [repr X d id v]: the rows of [d] under the node [id], all of them among [X],
    spell the value [v]. What inserting does to other trees ([agree], [grows]),
    how deep a tree of so many nodes can be, and what each function of [Sqlite]
    that reads or builds a tree does, as [qwp] triples. *)

From S2P Require Import Prelude BTree Text Codec Externals Keys Subkey Msg Envelope Value Storage Sql.
From S2P Require Import Sqlite SqlLogic.

(** ** The values of the Rust type *)

Fixpoint ascending {K} `{Ord K} (l : list K) : bool :=
  match l with
  | a :: (b :: _) as l' => match cmp a b with Lt => ascending l' | _ => false end
  | _ => true
  end.

Definition rust_leaf (v : Value) : bool :=
  match v with
  | Value_String s => forallb char_ok s
  | Value_Int n => bool_decide (is_i64 n)
  | Value_Key k =>
      (weight k <=? u32_max)%N && ascending (bt_keys (metadata k)) &&
      forallb (λ kv, forallb char_ok kv.1 && forallb char_ok kv.2) (metadata k)
  | _ => true
  end.

(** A [BTreeMap] is in order, an [i64] in range, a [char] a scalar value. *)
Fixpoint rust_value (v : Value) : bool :=
  match v with
  | Value_Array items => forallb rust_value items
  | Value_Map entries => ascending (bt_keys entries) && forallb (λ kv, rust_value kv.2) entries
  | leaf => rust_leaf leaf
  end.

(** What the store relies on of the codec: what was encoded decodes to what it
    was. [rust_envelope] tells the envelopes of the Rust type. *)
Class StoredLaws `{StoredDecode} := {
  rust_envelope : Envelope → bool;
  decode_value_law v b :
    kind v = NodeKind_Leaf → rust_leaf v → encode (ser_value v) = Ok b → decode_value b = Ok v;
  decode_envelope_law e b :
    rust_envelope e → encode (ser_envelope e) = Ok b →
    decode_envelope b = Ok (set_verification_status e Unchecked);
}.

Lemma ascending_sorted {K V} `{OrdLaws K} (m : list (K * V)) : ascending (bt_keys m) → bt_sorted m.
Proof.
  unfold bt_sorted. induction m as [|[k v] m IH]; [constructor|]. intros Ha.
  assert (ascending (bt_keys m) ∧ match m with [] => True | x :: _ => cmp k x.1 = Lt end) as [Ha' Hk].
  { destruct m as [|[k' v'] m]; [done|]. simpl in *. by destruct (cmp k k'). }
  specialize (IH Ha'). constructor; [done|]. destruct m as [|x m]; constructor; [done|].
  apply StronglySorted_inv in IH as [_ Hall]. eapply Forall_impl; [exact Hall|]. intros y Hy.
  by eapply cmp_lt_trans.
Qed.

Lemma sorted_ascending {K V} `{Ord K} (m : list (K * V)) : bt_sorted m → ascending (bt_keys m).
Proof.
  induction 1 as [|[k v] m Hs IH Hall]; [done|]. destruct m as [|[k' v'] m]; [done|]. simpl in IH |- *.
  apply Forall_cons in Hall as [Hk _]. simpl in Hk. by rewrite Hk.
Qed.

Lemma Value_nested_ind (P : Value → Prop) :
  (∀ v, kind v = NodeKind_Leaf → P v) →
  (∀ items, Forall P items → P (Value_Array items)) →
  (∀ entries, Forall (λ kv, P kv.2) entries → P (Value_Map entries)) →
  ∀ v, P v.
Proof.
  intros Hleaf Harr Hmap. fix IH 1. intros [s|n|b|items|entries|k].
  4: { apply Harr. induction items as [|x items IHi]; constructor; [apply IH|exact IHi]. }
  4: { apply Hmap. induction entries as [|x entries IHe]; constructor; [apply IH|exact IHe]. }
  all: by apply Hleaf.
Qed.

(** ** Trees in the tables *)

Section tree.
Context `{Externals, Rusqlite, !StoredDecode}.
Implicit Types (X Y : Z → Prop) (d : Db) (v w : Value).

Definition repr_leaf d (id : Z) v : Prop :=
  rust_leaf v ∧ ∃ b, t_nodes d !! id = Some (MkNodeRow LEAF (Some b)) ∧ decode_value b = Ok v.

Fixpoint repr X d (id : Z) v : Prop :=
  X id ∧
  match v with
  | Value_Map entries =>
      (∃ l, t_nodes d !! id = Some (MkNodeRow MAP l)) ∧ bt_sorted entries ∧
      (∀ k, is_Some (t_map_edges d !! (id, k)) → is_Some (bt_get entries k)) ∧
      (fix all l := match l with
                    | [] => True
                    | kv :: l' => (∃ c, t_map_edges d !! (id, kv.1) = Some c ∧ repr X d c kv.2) ∧ all l'
                    end) entries
  | Value_Array items =>
      (∃ l, t_nodes d !! id = Some (MkNodeRow ARRAY l)) ∧
      (∀ i, is_Some (t_array_edges d !! (id, i)) → (0 ≤ i < Z.of_nat (length items))%Z) ∧
      (fix all (i : nat) l := match l with
                    | [] => True
                    | w :: l' => (∃ c, t_array_edges d !! (id, Z.of_nat i) = Some c ∧ repr X d c w) ∧ all (S i) l'
                    end) 0 items
  | leaf => repr_leaf d id leaf
  end.

Lemma repr_Leaf X d id v : kind v = NodeKind_Leaf → repr X d id v ↔ X id ∧ repr_leaf d id v.
Proof. by destruct v. Qed.

Lemma repr_Map X d id entries :
  repr X d id (Value_Map entries) ↔
  X id ∧ (∃ l, t_nodes d !! id = Some (MkNodeRow MAP l)) ∧ bt_sorted entries ∧
  (∀ k, is_Some (t_map_edges d !! (id, k)) → is_Some (bt_get entries k)) ∧
  ∀ k w, bt_get entries k = Some w → ∃ c, t_map_edges d !! (id, k) = Some c ∧ repr X d c w.
Proof.
  simpl. apply and_iff_compat_l, and_iff_compat_l. split.
  - intros (Hs & Hk & Hall). split_and!; [done|done|]. intros k w Hw%bt_get_elem. clear Hs Hk.
    induction entries as [|x l IH]; [by apply not_elem_of_nil in Hw|].
    apply elem_of_cons in Hw as [<-|Hw]; [apply Hall|]. apply IH; [apply Hall|done].
  - intros (Hs & Hk & Hall). split_and!; [done|done|].
    assert (∀ kv, kv ∈ entries → ∃ c, t_map_edges d !! (id, kv.1) = Some c ∧ repr X d c kv.2) as Hin.
    { intros [k w] Hkw. apply Hall. by apply bt_sorted_elem_get. }
    clear Hs Hk Hall. induction entries as [|x l IH]; [done|].
    split; [apply Hin; by left|]. apply IH. intros kv Hkv. apply Hin. by right.
Qed.

Lemma repr_Array X d id items :
  repr X d id (Value_Array items) ↔
  X id ∧ (∃ l, t_nodes d !! id = Some (MkNodeRow ARRAY l)) ∧
  (∀ i, is_Some (t_array_edges d !! (id, i)) → (0 ≤ i < Z.of_nat (length items))%Z) ∧
  ∀ i w, items !! i = Some w → ∃ c, t_array_edges d !! (id, Z.of_nat i) = Some c ∧ repr X d c w.
Proof.
  simpl. apply and_iff_compat_l, and_iff_compat_l, and_iff_compat_l.
  assert (∀ n, (fix all (i : nat) l := match l with
                    | [] => True
                    | w :: l' => (∃ c, t_array_edges d !! (id, Z.of_nat i) = Some c ∧ repr X d c w) ∧ all (S i) l'
                    end) n items ↔
    ∀ i w, items !! i = Some w → ∃ c, t_array_edges d !! (id, Z.of_nat (n + i)) = Some c ∧ repr X d c w) as Hgen.
  2: { by rewrite Hgen. }
  induction items as [|x l IH]; intros n; [by split|]. rewrite IH. split.
  - intros [Hx Hl] [|i] w Hw; simpl in Hw; [simplify_eq; by rewrite Nat.add_0_r|].
    rewrite Nat.add_succ_r. by apply (Hl i w).
  - intros Hl. split; [rewrite <-(Nat.add_0_r n); by apply (Hl 0)|].
    intros i w Hw. specialize (Hl (S i) w Hw). by rewrite Nat.add_succ_r in Hl.
Qed.

#[local] Arguments repr : simpl never.

Lemma repr_in X d id v : repr X d id v → X id.
Proof. by destruct v; intros [? _]. Qed.

(** The kind a node's row states. *)
Definition code_of (k : NodeKind) : Z :=
  match k with NodeKind_Leaf => LEAF | NodeKind_Map => MAP | NodeKind_Array => ARRAY end.

Lemma repr_row X d id v : repr X d id v → ∃ l, t_nodes d !! id = Some (MkNodeRow (code_of (kind v)) l).
Proof.
  destruct v.
  4: { intros (_ & Hr & _)%repr_Array. exact Hr. }
  4: { intros (_ & Hr & _)%repr_Map. exact Hr. }
  all: intros [_ (_ & bytes & Hb & _)]%repr_Leaf; [|done]; by exists (Some bytes).
Qed.

(** Two stores hold the same at a node. *)
Definition agree d d' (id : Z) : Prop :=
  t_nodes d' !! id = t_nodes d !! id ∧
  (∀ k, t_map_edges d' !! (id, k) = t_map_edges d !! (id, k)) ∧
  (∀ i, t_array_edges d' !! (id, i) = t_array_edges d !! (id, i)).

(** A tree is what its nodes hold. *)
Lemma repr_agree X Y d d' id v :
  repr X d id v → (∀ i, X i → is_Some (t_nodes d !! i) → agree d d' i ∧ Y i) → repr Y d' id v.
Proof.
  intros Hr Hag. revert id Hr. induction v as [v Hk|items IH|entries IH] using Value_nested_ind; intros id Hr.
  - pose proof (repr_row X d id v Hr) as [l Hl].
    apply repr_Leaf in Hr as [HX (Hv & b & Hb & Hd)]; [|done].
    destruct (Hag id HX ltac:(by eexists)) as [(Hn & _) HY].
    apply repr_Leaf; [done|]. split; [done|]. split; [done|]. exists b. by rewrite Hn.
  - pose proof (repr_row X d id _ Hr) as [l Hl].
    apply repr_Array in Hr as (HX & Hn & Hb & Hi).
    destruct (Hag id HX ltac:(by eexists)) as [(Hn' & _ & Ha) HY].
    apply repr_Array. rewrite Hn'. split_and!; [done|done|intros i; rewrite Ha; apply Hb|].
    intros i w Hw. destruct (Hi i w Hw) as (c & Hc & Hr). exists c. rewrite Ha. split; [done|].
    rewrite Forall_lookup in IH. by apply (IH i w Hw).
  - pose proof (repr_row X d id _ Hr) as [l Hl].
    apply repr_Map in Hr as (HX & Hn & Hs & Hb & Hi).
    destruct (Hag id HX ltac:(by eexists)) as [(Hn' & Hm & _) HY].
    apply repr_Map. rewrite Hn'. split_and!; [done|done|done|intros i; rewrite Hm; apply Hb|].
    intros k w Hw. destruct (Hi k w Hw) as (c & Hc & Hr). exists c. rewrite Hm. split; [done|].
    rewrite Forall_forall in IH. apply (IH (k, w)); [by apply bt_get_elem|done].
Qed.

Lemma repr_weaken X Y d id v : repr X d id v → (∀ i, X i → Y i) → repr Y d id v.
Proof. intros Hr HXY. apply (repr_agree X Y d d id v Hr). intros i Hi _. split; [done|by apply HXY]. Qed.

(** A tree spells a value of the Rust type. *)
Lemma repr_rust X d id v : repr X d id v → rust_value v.
Proof.
  revert id. induction v as [v Hk|items IH|entries IH] using Value_nested_ind; intros id Hr.
  - apply repr_Leaf in Hr as [_ [Hv _]]; [|done]. by destruct v.
  - apply repr_Array in Hr as (_ & _ & _ & Hch). simpl. apply forallb_True, Forall_lookup. intros i w Hw.
    destruct (Hch i w Hw) as (c & _ & Hr). rewrite Forall_lookup in IH. by eapply (IH i).
  - apply repr_Map in Hr as (_ & _ & Hs & _ & Hch). simpl. apply andb_True. split; [by apply sorted_ascending|].
    apply forallb_True, Forall_forall. intros [k w] Hin. destruct (Hch k w) as (c & _ & Hr); [by apply bt_sorted_elem_get|].
    rewrite Forall_forall in IH. by eapply (IH (k, w)).
Qed.

(** A node spells one value. *)
Lemma repr_functional X Y d id v w : repr X d id v → repr Y d id w → v = w.
Proof.
  revert id w. induction v as [v Hk|items IH|entries IH] using Value_nested_ind; intros id w Hr Hr'.
  - apply repr_Leaf in Hr as [_ (_ & b & Hb & Hd)]; [|done].
    pose proof (repr_row _ _ _ _ Hr') as [l Hl]. rewrite Hb in Hl.
    assert (kind w = NodeKind_Leaf) as Hkw by (destruct (kind w); simplify_eq/=; done).
    apply repr_Leaf in Hr' as [_ (_ & b' & Hb' & Hd')]; [|done]. congruence.
  - pose proof (repr_row _ _ _ _ Hr) as [l Hl]. pose proof (repr_row _ _ _ _ Hr') as [l' Hl']. rewrite Hl in Hl'.
    destruct w as [| | |items'| |]; simplify_eq/=. apply repr_Array in Hr as (_ & _ & Hb & Hi).
    apply repr_Array in Hr' as (_ & _ & Hb' & Hi'). f_equal.
    rewrite Forall_lookup in IH.
    assert (∀ i, is_Some (items !! i) ↔ is_Some (items' !! i)) as Hdom.
    { intros i. split; intros [x Hx].
      - destruct (Hi i x Hx) as (c & Hc & _). apply lookup_lt_is_Some. specialize (Hb' _ ltac:(by eexists)). lia.
      - destruct (Hi' i x Hx) as (c & Hc & _). apply lookup_lt_is_Some. specialize (Hb _ ltac:(by eexists)). lia. }
    apply list_eq. intros i. destruct (items !! i) as [x|] eqn:Hx.
    + destruct (proj1 (Hdom i) ltac:(by eexists)) as [y Hy]. rewrite Hy. f_equal.
      destruct (Hi i x Hx) as (c & Hc & Hr). destruct (Hi' i y Hy) as (c' & Hc' & Hr'). simplify_eq.
      by apply (IH i x Hx c).
    + destruct (items' !! i) eqn:Hy; [|done]. destruct (proj2 (Hdom i) ltac:(by eexists)) as [? ?]. congruence.
  - pose proof (repr_row _ _ _ _ Hr) as [l Hl]. pose proof (repr_row _ _ _ _ Hr') as [l' Hl']. rewrite Hl in Hl'.
    destruct w as [| | | |entries'|]; simplify_eq/=. apply repr_Map in Hr as (_ & _ & Hs & Hb & Hi).
    apply repr_Map in Hr' as (_ & _ & Hs' & Hb' & Hi'). f_equal.
    rewrite Forall_forall in IH. apply bt_ext; [done|done|]. intros k.
    destruct (bt_get entries k) as [x|] eqn:Hx.
    + destruct (Hi k x Hx) as (c & Hc & Hr). destruct (Hb' k ltac:(by eexists)) as [y Hy]. rewrite Hy. f_equal.
      destruct (Hi' k y Hy) as (c' & Hc' & Hr'). simplify_eq.
      apply (IH (k, x)) with c; [by apply bt_get_elem|done|done].
    + destruct (bt_get entries' k) as [y|] eqn:Hy; [|done].
      destruct (Hi' k y Hy) as (c & Hc & _). destruct (Hb k ltac:(by eexists)) as [? ?]. congruence.
Qed.
End tree.

#[global] Arguments repr {_ _} X d id v : simpl never.

(** ** How deep a tree can be *)

Fixpoint height (v : Value) : nat :=
  match v with
  | Value_Array items => S (max_list (map height items))
  | Value_Map entries => S (max_list (map (λ kv, height kv.2) entries))
  | _ => 1
  end.

Lemma max_list_elem (l : list nat) : l ≠ [] → max_list l ∈ l.
Proof.
  induction l as [|a l IH]; [done|]. intros _. simpl. destruct l as [|b l].
  - simpl. rewrite Nat.max_0_r. by left.
  - destruct (Nat.max_dec a (max_list (b :: l))) as [-> | ->]; [by left|right; by apply IH].
Qed.

Lemma max_list_le (l : list nat) a : a ∈ l → a ≤ max_list l.
Proof.
  induction l as [|b l IH]; [by intros ?%not_elem_of_nil|].
  intros [->|Hin]%elem_of_cons; simpl; [lia|]. specialize (IH Hin). lia.
Qed.

Section height.
Context `{Externals, Rusqlite, !StoredDecode}.
Implicit Types (X : Z → Prop) (d : Db) (v w : Value).

(** A way down from a node as long as its tree is high, no node twice: each
    spells a lower value than the one above it. *)
Lemma repr_spine X d id v :
  repr X d id v →
  ∃ l : list Z, NoDup l ∧ length l = height v ∧
    ∀ i, i ∈ l → is_Some (t_nodes d !! i) ∧ ∃ w, repr X d i w ∧ height w ≤ height v.
Proof.
  assert (∀ id v, repr X d id v → height v = 1 → ∃ l : list Z, NoDup l ∧ length l = height v ∧
    ∀ i, i ∈ l → is_Some (t_nodes d !! i) ∧ ∃ w, repr X d i w ∧ height w ≤ height v) as Hone.
  { clear. intros id v Hr Hh. exists [id]. split_and!; [apply NoDup_singleton|by rewrite Hh|].
    intros i ->%list_elem_of_singleton. destruct (repr_row _ _ _ _ Hr) as [l Hl].
    split; [by eexists|]. by exists v. }
  assert (∀ id v c w, repr X d id v → repr X d c w → height v = S (height w) →
    (∃ l : list Z, NoDup l ∧ length l = height w ∧
      ∀ i, i ∈ l → is_Some (t_nodes d !! i) ∧ ∃ w', repr X d i w' ∧ height w' ≤ height w) →
    ∃ l : list Z, NoDup l ∧ length l = height v ∧
      ∀ i, i ∈ l → is_Some (t_nodes d !! i) ∧ ∃ w', repr X d i w' ∧ height w' ≤ height v) as Hdown.
  { clear. intros id v c w Hr Hc Hh (l & Hnd & Hlen & Hl). exists (id :: l). split_and!.
    - apply NoDup_cons. split; [|done]. intros Hin. destruct (Hl id Hin) as [_ (w' & Hw' & Hle)].
      pose proof (repr_functional _ _ _ _ _ _ Hr Hw') as ->. lia.
    - simpl. lia.
    - intros i [->|Hin]%elem_of_cons.
      + destruct (repr_row _ _ _ _ Hr) as [r Hrow]. split; [by eexists|]. by exists v.
      + destruct (Hl i Hin) as [? (w' & ? & ?)]. split; [done|]. exists w'. split; [done|lia]. }
  revert id. induction v as [v Hk|items IH|entries IH] using Value_nested_ind; intros id Hr.
  - apply (Hone id); [done|]. by destruct v.
  - destruct (decide (items = [])) as [->|Hne]; [by apply (Hone id)|].
    assert (max_list (map height items) ∈ map height items) as Hin.
    { apply max_list_elem. by destruct items. }
    apply list_elem_of_fmap in Hin as (w & Hw & Hin). apply list_elem_of_lookup in Hin as [i Hi].
    apply repr_Array in Hr as Hr'. destruct Hr' as (_ & _ & _ & Hch). destruct (Hch i w Hi) as (c & _ & Hc).
    apply (Hdown id (Value_Array items) c w); [done|done|simpl; by rewrite Hw|].
    rewrite Forall_lookup in IH. by eapply (IH i).
  - destruct (decide (entries = [])) as [->|Hne]; [by apply (Hone id)|].
    assert (max_list (map (λ kv, height kv.2) entries) ∈ map (λ kv, height kv.2) entries) as Hin.
    { apply max_list_elem. by destruct entries. }
    apply list_elem_of_fmap in Hin as ([k w] & Hw & Hin). simpl in Hw.
    apply repr_Map in Hr as Hr'. destruct Hr' as (_ & _ & Hs & _ & Hch).
    destruct (Hch k w (bt_sorted_elem_get _ _ _ Hs Hin)) as (c & _ & Hc).
    apply (Hdown id (Value_Map entries) c w); [done|done|simpl; by rewrite Hw|].
    rewrite Forall_forall in IH. by eapply (IH (k, w)).
Qed.

(** So no tree is higher than there are nodes. *)
Lemma repr_height X d id v : repr X d id v → height v ≤ size (t_nodes d).
Proof.
  intros (l & Hnd & <- & Hl)%repr_spine. rewrite <-size_dom.
  rewrite <-(size_list_to_set (C := gset Z) l) by done. apply subseteq_size.
  intros i Hi%elem_of_list_to_set. by apply elem_of_dom, Hl.
Qed.

(** ** Reading *)

Lemma node_kind_reads X d id v : repr X d id v → qreads (node_kind id) d (λ k, k = kind v).
Proof.
  intros [l Hl]%repr_row. unfold node_kind, node. apply qwp_bind, qwp_bind, qwp_select; [done|].
  rewrite Hl. apply qwp_bind, qwp_lift_Ok, qwp_bind. simpl.
  replace (kind_from (code_of (kind v))) with (Ok (E := SqliteError) (kind v)) by (by destruct v).
  by apply qwp_lift_Ok, qwp_ret, qwp_ret.
Qed.

Lemma node_reads X d id v :
  repr X d id v → qreads (node id) d (λ n, n.1 = kind v ∧
    (kind v = NodeKind_Leaf → ∃ b, n.2 = Some b ∧ decode_value b = Ok v ∧ rust_leaf v)).
Proof.
  intros Hr. pose proof Hr as [l Hl]%repr_row. unfold node. apply qwp_bind, qwp_select; [done|].
  rewrite Hl. apply qwp_bind, qwp_lift_Ok, qwp_bind. simpl.
  replace (kind_from (code_of (kind v))) with (Ok (E := SqliteError) (kind v)) by (by destruct v).
  apply qwp_lift_Ok, qwp_ret. split; [done|]. split; [done|]. intros Hk.
  apply repr_Leaf in Hr as [_ (Hv & b & Hb & Hd)]; [|done]. exists b. split_and!; [|done|done]. simpl. congruence.
Qed.

(** The children of an array, in order. *)
Lemma repr_children X d id items :
  repr X d id (Value_Array items) →
  Forall2 (repr X d) (scan_by id (t_array_edges d)).*2 items ∧
  (scan_by id (t_array_edges d)).*1 = map Z.of_nat (seq 0 (length items)).
Proof.
  intros (_ & _ & Hb & Hch)%repr_Array.
  set (L := imap (λ i (_ : Value), (Z.of_nat i, default 0%Z (t_array_edges d !! (id, Z.of_nat i)))) items).
  assert (∀ i x, L !! i = Some x ↔ ∃ w, items !! i = Some w ∧
    x = (Z.of_nat i, default 0%Z (t_array_edges d !! (id, Z.of_nat i)))) as HL.
  { intros i x. unfold L. rewrite list_lookup_imap. destruct (items !! i) as [w|]; simpl; split.
    - intros [= <-]. by exists w.
    - by intros (w' & _ & ->).
    - done.
    - by intros (? & ? & _). }
  assert (scan_by id (t_array_edges d) = L) as ->.
  { apply bt_elem_ext; [apply sorted_from_iter| |].
    - assert (∀ n (l : list Value), bt_sorted (imap (λ i (_ : Value),
        (Z.of_nat (n + i), default 0%Z (t_array_edges d !! (id, Z.of_nat (n + i))))) l)) as Hs; [|by apply (Hs 0)].
      intros n l. revert n. induction l as [|w l IH]; intros n; simpl; constructor.
      + specialize (IH (S n)). erewrite imap_ext; [exact IH|]. intros i x _. simpl. by rewrite Nat.add_succ_r.
      + apply Forall_forall. intros x (i & y & -> & Hy)%elem_of_lookup_imap. simpl.
        apply Z.compare_lt_iff. lia.
    - intros [i c]. rewrite elem_of_scan_by, list_elem_of_lookup. split.
      + intros Hc. specialize (Hb i ltac:(by eexists)). exists (Z.to_nat i). apply HL.
        destruct (lookup_lt_is_Some_2 items (Z.to_nat i)) as [w Hw]; [lia|]. exists w. split; [done|].
        by rewrite Z2Nat.id, Hc by lia.
      + intros (j & (w & Hw & Hx)%HL). destruct (Hch j w Hw) as (c' & Hc' & _). rewrite Hc' in Hx. by simplify_eq/=. }
  split.
  - apply Forall2_same_length_lookup. split; [by rewrite length_fmap; unfold L; rewrite length_imap|].
    intros i c w Hc Hw. rewrite list_lookup_fmap in Hc. destruct (L !! i) as [x|] eqn:Hx; [|done].
    apply HL in Hx as (w' & Hw' & ->). destruct (Hch i w Hw) as (c' & Hc' & Hr). rewrite Hc' in Hc. by simplify_eq/=.
  - apply list_eq. intros i. rewrite list_lookup_fmap, list_lookup_fmap. destruct (L !! i) as [x|] eqn:Hx.
    + apply HL in Hx as (w & Hw & ->). simpl. rewrite lookup_seq_lt; [done|by eapply lookup_lt_Some].
    + destruct (decide (i < length items)) as [Hlt|Hge].
      * apply lookup_lt_is_Some in Hlt as [w Hw]. assert (L !! i = Some _) as Hi by (apply HL; by exists w). congruence.
      * rewrite lookup_seq_ge by lia. done.
Qed.

(** Whatever order a map's edges are read in, they collect into its entries. *)
Lemma repr_collect X d id entries (r : list (rstring * Value)) :
  repr X d id (Value_Map entries) →
  Forall2 (λ kc kv, kv.1 = kc.1 ∧ repr X d kc.2 kv.2) (scan id (t_map_edges d)) r → bt_from_iter r = entries.
Proof.
  intros (_ & _ & Hs & Hb & Hch)%repr_Map Hr.
  assert (r.*1 = (scan id (t_map_edges d)).*1) as Hkeys.
  { clear -Hr. induction Hr as [|x y l l' [Hk _] Hr IH]; [done|]. rewrite !fmap_cons. by rewrite Hk, IH. }
  assert (NoDup r.*1) as Hnd by (rewrite Hkeys; apply NoDup_scan).
  apply bt_elem_ext; [apply sorted_from_iter|done|]. intros [k w].
  rewrite bt_from_iter_Permutation by done. split.
  - intros (i & Hi)%list_elem_of_lookup. destruct (Forall2_lookup_r _ _ _ _ _ Hr Hi) as ([k' c] & Hkc & Hk & Hw).
    simpl in *. subst k'. apply list_elem_of_lookup_2, elem_of_scan in Hkc.
    destruct (Hb k ltac:(by eexists)) as [w' Hw']. destruct (Hch k w' Hw') as (c' & Hc' & Hr'). simplify_eq.
    rewrite (repr_functional _ _ _ _ _ _ Hw Hr'). by apply bt_get_elem.
  - intros Hin. apply bt_sorted_elem_get in Hin; [|done]. destruct (Hch k w Hin) as (c & Hc & Hrc).
    apply elem_of_scan in Hc. apply list_elem_of_lookup in Hc as [i Hi].
    destruct (Forall2_lookup_l _ _ _ _ _ Hr Hi) as ([k' w'] & Hi' & Hk & Hw'). simpl in *. subst k'.
    rewrite <-(repr_functional _ _ _ _ _ _ Hw' Hrc). apply list_elem_of_lookup. by exists i.
Qed.

Lemma repr_functional_list X d (cs : list Z) items r :
  Forall2 (repr X d) cs items → Forall2 (repr X d) cs r → r = items.
Proof.
  intros Hch. revert r. induction Hch as [|c w l items Hcw Hch IH]; intros r Hr.
  - by apply Forall2_nil_inv_l in Hr.
  - apply Forall2_cons_inv_l in Hr as (w' & r' & Hw' & Hr & ->).
    rewrite (repr_functional _ _ _ _ _ _ Hw' Hcw). f_equal. by apply IH.
Qed.

(** What is under a container's node, child by child. *)
Lemma repr_edge X d id entries k c :
  repr X d id (Value_Map entries) → (k, c) ∈ scan id (t_map_edges d) →
  ∃ w, bt_get entries k = Some w ∧ repr X d c w ∧ height w < height (Value_Map entries).
Proof.
  intros (_ & _ & Hs & Hb & Hch)%repr_Map Hc%elem_of_scan.
  destruct (Hb k ltac:(by eexists)) as [w Hw]. destruct (Hch k w Hw) as (c' & Hc' & Hr). simplify_eq.
  exists w. split_and!; [done|done|]. simpl. apply Nat.lt_succ_r, max_list_le, list_elem_of_fmap.
  exists (k, w). split; [done|by apply bt_get_elem].
Qed.

Lemma repr_child X d id items c :
  repr X d id (Value_Array items) → c ∈ (scan_by id (t_array_edges d)).*2 →
  ∃ w, repr X d c w ∧ height w < height (Value_Array items).
Proof.
  intros [Hch _]%repr_children (i & Hi)%list_elem_of_lookup.
  destruct (Forall2_lookup_l _ _ _ _ _ Hch Hi) as (w & Hw & Hr). exists w. split; [done|].
  simpl. apply Nat.lt_succ_r, max_list_le, list_elem_of_fmap. exists w. split; [done|].
  by eapply list_elem_of_lookup_2.
Qed.

(** Materializing a tree gives the value it spells. *)
Lemma value_of_reads X d (fuel : nat) id v :
  repr X d id v → height v ≤ fuel → qreads (value_of fuel id) d (λ w, w = v).
Proof.
  revert id v. induction fuel as [|fuel IH]; intros id v Hr Hh; [by destruct v; simpl in Hh; lia|].
  simpl. eapply qreads_bind; [by eapply node_reads|]. intros [k leaf] [Hk Hleaf]. simpl in Hk, Hleaf |- *. subst k.
  destruct (kind v) eqn:Hkv.
  - destruct v; try done. apply qreads_select_bind. eapply qreads_bind.
    { apply (qreads_collect _ (λ kc kv, kv.1 = kc.1 ∧ repr X d kc.2 kv.2)).
      intros [k c] Hkc. destruct (repr_edge _ _ _ _ _ _ Hr Hkc) as (w & _ & Hw & Hlt). simpl.
      eapply qreads_bind; [apply (IH c w Hw); lia|]. intros w' ->. by apply qreads_ret. }
    intros r Hcol. apply qreads_ret. f_equal. by eapply repr_collect.
  - destruct v; try done. apply qreads_select_bind. eapply qreads_bind.
    { apply (qreads_collect _ (repr X d)). intros c Hc. destruct (repr_child _ _ _ _ _ Hr Hc) as (w & Hw & Hlt).
      eapply qreads_mono; [apply (IH c w Hw); lia|]. by intros w' ->. }
    intros r Hcol. apply qreads_ret. f_equal. eapply repr_functional_list; [by apply repr_children|done].
  - destruct (Hleaf eq_refl) as (b & -> & Hb & _). simpl. apply qwp_bind, qwp_lift_Ok.
    by eapply qwp_coded_Ok.
Qed.

Lemma value_at_node_reads X d id v : repr X d id v → qreads (value_at_node id) d (λ w, w = v).
Proof.
  intros Hr c Hc. unfold wp, value_at_node. rewrite Hc.
  apply (value_of_reads X d (S (size (t_nodes d))) id v); [done| |done].
  pose proof (repr_height _ _ _ _ Hr). lia.
Qed.

(** ** What the rows spell, as a function *)

Fixpoint tree_value (fuel : nat) d (id : Z) : option Value :=
  match fuel with
  | 0 => None
  | S fuel =>
      row ← t_nodes d !! id;
      if decide (node_code row = MAP) then
        entries ← mapM (λ kc : rstring * Z, v ← tree_value fuel d kc.2; Some (kc.1, v)) (scan id (t_map_edges d));
        Some (Value_Map (bt_from_iter entries))
      else if decide (node_code row = ARRAY) then
        items ← mapM (tree_value fuel d) (scan_by id (t_array_edges d)).*2;
        Some (Value_Array items)
      else
        b ← node_leaf row;
        match decode_value b with Ok v => Some v | Err _ => None end
  end.

Lemma tree_value_repr X d (fuel : nat) id v : repr X d id v → height v ≤ fuel → tree_value fuel d id = Some v.
Proof.
  revert id v. induction fuel as [|fuel IH]; intros id v Hr Hh; [by destruct v; simpl in Hh; lia|].
  pose proof Hr as [l Hl]%repr_row. simpl. rewrite Hl. simpl. destruct (kind v) eqn:Hkv; simpl.
  - destruct v; try done.
    destruct (mapM (λ kc : rstring * Z, v ← tree_value fuel d kc.2; Some (kc.1, v)) (scan id (t_map_edges d)))
      as [r|] eqn:Hm; simpl.
    + f_equal. f_equal. eapply repr_collect; [done|]. apply mapM_Some_1 in Hm.
      apply Forall2_same_length_lookup. split; [by eapply Forall2_length|]. intros i [k c] kv Hi Hi'.
      pose proof (Forall2_lookup_lr _ _ _ _ _ _ Hm Hi Hi') as Ht. apply list_elem_of_lookup_2 in Hi.
      destruct (repr_edge _ _ _ _ _ _ Hr Hi) as (w & _ & Hw & Hlt). simpl in Ht. rewrite (IH c w Hw) in Ht by lia. by simplify_eq/=.
    + exfalso. apply mapM_None_1, Exists_exists in Hm as ([k c] & Hin & Hn). simpl in Hn.
      destruct (repr_edge _ _ _ _ _ _ Hr Hin) as (w & _ & Hw & Hlt). by rewrite (IH c w Hw) in Hn by lia.
  - destruct v; try done.
    destruct (mapM (tree_value fuel d) (scan_by id (t_array_edges d)).*2) as [r|] eqn:Hm; simpl.
    + f_equal. f_equal. eapply repr_functional_list; [by apply repr_children|]. apply mapM_Some_1 in Hm.
      apply Forall2_same_length_lookup. split; [by eapply Forall2_length|]. intros i c w' Hi Hi'.
      pose proof (Forall2_lookup_lr _ _ _ _ _ _ Hm Hi Hi') as Ht. apply list_elem_of_lookup_2 in Hi.
      destruct (repr_child _ _ _ _ _ Hr Hi) as (w & Hw & Hlt). cbn beta in Ht. rewrite (IH c w Hw) in Ht by lia. by simplify_eq/=.
    + exfalso. apply mapM_None_1, Exists_exists in Hm as (c & Hin & Hn).
      destruct (repr_child _ _ _ _ _ Hr Hin) as (w & Hw & Hlt). by rewrite (IH c w Hw) in Hn by lia.
  - apply repr_Leaf in Hr as [_ (_ & b & Hb & Hd)]; [|done].
    rewrite Hl in Hb. simplify_eq/=. by rewrite Hd.
Qed.

Definition root_value d (id : Z) : option Value := tree_value (S (size (t_nodes d))) d id.

Lemma root_value_repr X d id v : repr X d id v → root_value d id = Some v.
Proof.
  intros Hr. apply (tree_value_repr X); [done|]. pose proof (repr_height _ _ _ _ Hr). lia.
Qed.
End height.
