(* ===== verification/SqliteWrite.v ===== *)
(** * Building trees

    Inserting a value gives a tree of fresh nodes that spells it; a path copy
    gives a tree of the amended value that shares the rest with the old one.
    Nothing that was there before is touched: [grows]. *)

From S2P Require Import Prelude BTree Text Codec Externals Keys Subkey Msg Envelope Value Storage Sql.
From S2P Require Import Sqlite SqlLogic SqliteTree.

(** Edges hang off nodes there are. *)
Record linked (d : Db) : Prop := {
  lk_map p k c : t_map_edges d !! (p, k) = Some c → is_Some (t_nodes d !! p);
  lk_array p i c : t_array_edges d !! (p, i) = Some c → is_Some (t_nodes d !! p);
}.

(** The tables no tree is kept in. *)
Definition same_rest (d d' : Db) : Prop :=
  t_header d' = t_header d ∧ t_envelopes d' = t_envelopes d ∧ t_versions d' = t_versions d ∧
  t_version_namespaces d' = t_version_namespaces d.

(** Rows were only added, and none under a node that was there. *)
Record grows (d d' : Db) : Prop := {
  gr_agree i : is_Some (t_nodes d !! i) → agree d d' i;
  gr_rest : same_rest d d';
}.

(** Rows were only added under [id]. *)
Record hung (d d' : Db) (id : Z) : Prop := {
  hu_nodes : t_nodes d' = t_nodes d;
  hu_agree i : i ≠ id → agree d d' i;
  hu_rest : same_rest d d';
}.

Definition fresh (d : Db) (i : Z) : Prop := t_nodes d !! i = None.

Lemma agree_refl d i : agree d d i.
Proof. done. Qed.

Lemma agree_trans d1 d2 d3 i : agree d1 d2 i → agree d2 d3 i → agree d1 d3 i.
Proof. intros (H1 & H2 & H3) (H4 & H5 & H6). split_and!; intros; congruence. Qed.

Lemma grows_refl d : grows d d.
Proof. by split. Qed.

Lemma same_rest_trans d1 d2 d3 : same_rest d1 d2 → same_rest d2 d3 → same_rest d1 d3.
Proof. unfold same_rest. intros (?&?&?&?) (?&?&?&?). split_and!; congruence. Qed.

Lemma grows_trans d1 d2 d3 : grows d1 d2 → grows d2 d3 → grows d1 d3.
Proof.
  intros [A1 R1] [A2 R2]. split; [|by eapply same_rest_trans]. intros i Hi. eapply agree_trans; [by apply A1|].
  apply A2. destruct (A1 i Hi) as [-> _]. done.
Qed.

Lemma grows_fresh d d' i : grows d d' → fresh d' i → fresh d i.
Proof.
  intros [A _] Hi. unfold fresh in *. destruct (t_nodes d !! i) eqn:Hn; [|done].
  destruct (A i ltac:(by eexists)) as [Ha _]. congruence.
Qed.

Lemma grows_hung d0 d d' id : grows d0 d → fresh d0 id → hung d d' id → grows d0 d'.
Proof.
  intros [A R] Hf [N A' R']. split; [|by eapply same_rest_trans]. intros i Hi.
  eapply agree_trans; [by apply A|]. apply A'. intros ->. unfold fresh in Hf. rewrite Hf in Hi. by destruct Hi.
Qed.

Lemma linked_no_map d id k : linked d → fresh d id → t_map_edges d !! (id, k) = None.
Proof. intros Hl Hf. destruct (_ !! _) eqn:He; [|done]. apply (lk_map d Hl) in He. rewrite Hf in He. by destruct He. Qed.

Lemma linked_no_array d id i : linked d → fresh d id → t_array_edges d !! (id, i) = None.
Proof. intros Hl Hf. destruct (_ !! _) eqn:He; [|done]. apply (lk_array d Hl) in He. rewrite Hf in He. by destruct He. Qed.

Section write.
Context `{Externals, Rusqlite, !RusqliteLaws, !StoredDecode, !StoredLaws}.
Implicit Types (X : Z → Prop) (d : Db) (v w : Value).

Lemma repr_grows X d d' id v : repr X d id v → grows d d' → repr X d' id v.
Proof. intros Hr [A _]. apply (repr_agree X X d d' id v Hr). intros i Hi Hn. split; [by apply A|done]. Qed.

Lemma repr_hung X d d' id' id v : repr X d id v → hung d d' id' → ¬ X id' → repr X d' id v.
Proof.
  intros Hr [_ A _] Hx. apply (repr_agree X X d d' id v Hr). intros i Hi Hn.
  split; [apply A; by intros ->|done].
Qed.

(** ** The inserts *)

(** A node [id] was added with its row. *)
Record added (d d' : Db) (id code : Z) (leaf : option (list u8)) : Prop := {
  ad_fresh : fresh d id;
  ad_row : t_nodes d' !! id = Some (MkNodeRow code leaf);
  ad_map k : t_map_edges d' !! (id, k) = None;
  ad_array i : t_array_edges d' !! (id, i) = None;
  ad_scan : ∀ i, i ≠ id → agree d d' i;
  ad_grows : grows d d';
  ad_linked : linked d';
}.

Lemma insert_node_qwp (code : Z) (leaf : option (list u8)) d :
  linked d → qwp (insert_node code leaf) d (λ id d', added d d' id code leaf) (λ _, True).
Proof.
  intros Hl. apply qwp_sql; [done|]. intros id d'. destruct (new_rowid (t_nodes d)) as [i|] eqn:Hi; [|done].
  intros [= <- <-]. apply new_rowid_unused in Hi.
  assert (∀ j, j ≠ i → agree d (on_nodes (insert i (MkNodeRow code leaf)) d) j) as Ha.
  { intros j Hj. split; [|done]. simpl. by rewrite lookup_insert_ne. }
  split; simpl; [done|by rewrite lookup_insert_eq|intros; by apply linked_no_map|intros; by apply linked_no_array|done|..].
  - split; [|done]. intros j Hj. apply Ha. intros ->. rewrite Hi in Hj. by destruct Hj.
  - split; simpl; intros p k c He; [apply (lk_map d Hl) in He|apply (lk_array d Hl) in He];
      (destruct (decide (p = i)) as [->|]; [by rewrite lookup_insert_eq|by rewrite lookup_insert_ne]).
Qed.

(** Edges hung under a node of no such edge yet. *)
Lemma insert_map_edges_qwp (rows : Db → list (Z * rstring * Z)) (id : Z) (R : rstring → Z → Prop) d :
  linked d → is_Some (t_nodes d !! id) → NoDup (rows d).*1 →
  (∀ p k c, (p, k, c) ∈ rows d ↔ p = id ∧ R k c) → (∀ k c, R k c → t_map_edges d !! (id, k) = None) →
  qwp (insert_map_edges rows) d
    (λ _ d', linked d' ∧ hung d d' id ∧ t_array_edges d' = t_array_edges d ∧
      ∀ k c, t_map_edges d' !! (id, k) = Some c ↔ R k c ∨ t_map_edges d !! (id, k) = Some c) (λ _, True).
Proof.
  intros Hl Hid Hnd Hrows Hfresh. apply qwp_sql; [done|]. intros [] d'.
  destruct (insert_rows_Ok ConstraintViolation (rows d) (t_map_edges d) Hnd) as (t & -> & Ht).
  { intros [p k] c [-> HR]%Hrows. by eapply Hfresh. }
  intros [= <-]. split_and!.
  - split; simpl; [|apply (lk_array d Hl)].
    intros p k c [[-> _]%Hrows|He]%Ht; [done|by eapply (lk_map d Hl)].
  - split; simpl; [done| |done]. intros i Hi. split_and!; [done| |done]. intros k. simpl.
    apply option_eq. intros c. rewrite Ht, Hrows. naive_solver.
  - done.
  - intros k c. simpl. rewrite Ht, Hrows. naive_solver.
Qed.

Lemma insert_array_edges_qwp (rows : Db → list (Z * Z * Z)) (id : Z) (R : Z → Z → Prop) d :
  linked d → is_Some (t_nodes d !! id) → NoDup (rows d).*1 →
  (∀ p k c, (p, k, c) ∈ rows d ↔ p = id ∧ R k c) → (∀ k c, R k c → t_array_edges d !! (id, k) = None) →
  qwp (insert_array_edges rows) d
    (λ _ d', linked d' ∧ hung d d' id ∧ t_map_edges d' = t_map_edges d ∧
      ∀ k c, t_array_edges d' !! (id, k) = Some c ↔ R k c ∨ t_array_edges d !! (id, k) = Some c) (λ _, True).
Proof.
  intros Hl Hid Hnd Hrows Hfresh. apply qwp_sql; [done|]. intros [] d'.
  destruct (insert_rows_Ok ConstraintViolation (rows d) (t_array_edges d) Hnd) as (t & -> & Ht).
  { intros [p k] c [-> HR]%Hrows. by eapply Hfresh. }
  intros [= <-]. split_and!.
  - split; simpl; [apply (lk_map d Hl)|].
    intros p k c [[-> _]%Hrows|He]%Ht; [done|by eapply (lk_array d Hl)].
  - split; simpl; [done| |done]. intros i Hi. split_and!; [done|done|]. intros k. simpl.
    apply option_eq. intros c. rewrite Ht, Hrows. naive_solver.
  - done.
  - intros k c. simpl. rewrite Ht, Hrows. naive_solver.
Qed.

Lemma insert_map_edge_qwp (id : Z) (key : rstring) (child : Z) d :
  linked d → is_Some (t_nodes d !! id) → t_map_edges d !! (id, key) = None →
  qwp (insert_map_edge id key child) d
    (λ _ d', linked d' ∧ hung d d' id ∧ t_array_edges d' = t_array_edges d ∧
      ∀ k c, t_map_edges d' !! (id, k) = Some c ↔ (k = key ∧ c = child) ∨ t_map_edges d !! (id, k) = Some c) (λ _, True).
Proof.
  intros Hl Hid Hk. apply (insert_map_edges_qwp _ id (λ k c, k = key ∧ c = child)); [done|done|apply NoDup_singleton| |].
  - intros p k c. rewrite list_elem_of_singleton. naive_solver.
  - by intros k c [-> _].
Qed.

Lemma insert_array_edge_qwp (id idx child : Z) d :
  linked d → is_Some (t_nodes d !! id) → t_array_edges d !! (id, idx) = None →
  qwp (insert_array_edge id idx child) d
    (λ _ d', linked d' ∧ hung d d' id ∧ t_map_edges d' = t_map_edges d ∧
      ∀ k c, t_array_edges d' !! (id, k) = Some c ↔ (k = idx ∧ c = child) ∨ t_array_edges d !! (id, k) = Some c) (λ _, True).
Proof.
  intros Hl Hid Hk. apply (insert_array_edges_qwp _ id (λ k c, k = idx ∧ c = child)); [done|done|apply NoDup_singleton| |].
  - intros p k c. rewrite list_elem_of_singleton. naive_solver.
  - by intros k c [-> _].
Qed.

(** ** Containers filled entry by entry *)

(** The node [id], new since [d0], has an edge for each entry of [p] so far, to
    trees among [X]. *)
Record map_so_far d0 X d (id : Z) (p : list (rstring * Value)) : Prop := {
  mf_linked : linked d;
  mf_grows : grows d0 d;
  mf_fresh : fresh d0 id;
  mf_row : ∃ l, t_nodes d !! id = Some (MkNodeRow MAP l);
  mf_only k : is_Some (t_map_edges d !! (id, k)) → k ∈ p.*1;
  mf_each k w : (k, w) ∈ p → ∃ c, t_map_edges d !! (id, k) = Some c ∧ repr X d c w;
}.

Record array_so_far d0 X d (id : Z) (p : list Value) : Prop := {
  af_linked : linked d;
  af_grows : grows d0 d;
  af_fresh : fresh d0 id;
  af_row : ∃ l, t_nodes d !! id = Some (MkNodeRow ARRAY l);
  af_only i : is_Some (t_array_edges d !! (id, i)) → (0 ≤ i < Z.of_nat (length p))%Z;
  af_each i w : p !! i = Some w → ∃ c, t_array_edges d !! (id, Z.of_nat i) = Some c ∧ repr X d c w;
}.

Lemma map_so_far_nil d0 X d d' id leaf : added d d' id MAP leaf → grows d0 d → map_so_far d0 X d' id [].
Proof.
  intros [Hf Hr Hm Ha Hs Hg Hl] Hg0. split; [done|by eapply grows_trans|by eapply grows_fresh|by eexists| |].
  - intros k. rewrite Hm. by intros [? ?].
  - by intros k w ?%not_elem_of_nil.
Qed.

Lemma array_so_far_nil d0 X d d' id leaf : added d d' id ARRAY leaf → grows d0 d → array_so_far d0 X d' id [].
Proof.
  intros [Hf Hr Hm Ha Hs Hg Hl] Hg0. split; [done|by eapply grows_trans|by eapply grows_fresh|by eexists| |done].
  intros i. rewrite Ha. by intros [? ?].
Qed.

(** The store may grow elsewhere meanwhile. *)
Lemma map_so_far_grows d0 X d d' id p :
  map_so_far d0 X d id p → linked d' → grows d d' → map_so_far d0 X d' id p.
Proof.
  intros [Hl Hg Hf [l Hr] Ho He] Hl' Hg'.
  destruct (gr_agree _ _ Hg' id) as (Hn & Hm & _); [by eexists|].
  split; [done|by eapply grows_trans|done|exists l; congruence|intros k; rewrite Hm; apply Ho|].
  intros k w (c & Hc & Hw)%He. exists c. rewrite Hm. split; [done|by eapply repr_grows].
Qed.

Lemma array_so_far_grows d0 X d d' id p :
  array_so_far d0 X d id p → linked d' → grows d d' → array_so_far d0 X d' id p.
Proof.
  intros [Hl Hg Hf [l Hr] Ho He] Hl' Hg'.
  destruct (gr_agree _ _ Hg' id) as (Hn & _ & Ha); [by eexists|].
  split; [done|by eapply grows_trans|done|exists l; congruence|intros k; rewrite Ha; apply Ho|].
  intros k w (c & Hc & Hw)%He. exists c. rewrite Ha. split; [done|by eapply repr_grows].
Qed.

Lemma map_so_far_edge d0 X d id p k c w :
  map_so_far d0 X d id p → ¬ X id → repr X d c w → k ∉ p.*1 →
  qwp (insert_map_edge id k c) d (λ _ d', map_so_far d0 X d' id (p ++ [(k, w)])) (λ _, True).
Proof.
  intros [Hl Hg Hf [l Hr] Ho He] Hx Hc Hk. eapply qwp_mono; [apply insert_map_edge_qwp| |done].
  - done.
  - by eexists.
  - destruct (t_map_edges d !! (id, k)) eqn:Hek; [|done]. by destruct Hk; apply Ho.
  - intros _ d' (Hl' & Hh & _ & Hm). split; [done|by eapply grows_hung|done|exists l; by rewrite (hu_nodes _ _ _ Hh)| |].
    + intros k' [c' [[-> ->]|Hc']%Hm]; rewrite fmap_app; apply elem_of_app; [right; by left|left; apply Ho; by eexists].
    + intros k' w' [Hin|[= -> ->]%list_elem_of_singleton]%elem_of_app.
      * destruct (He k' w' Hin) as (c' & Hc' & Hw'). exists c'. split; [apply Hm; by right|by eapply repr_hung].
      * exists c. split; [apply Hm; by left|by eapply repr_hung].
Qed.

Lemma array_so_far_edge d0 X d id p c w :
  array_so_far d0 X d id p → ¬ X id → repr X d c w →
  qwp (insert_array_edge id (Z.of_nat (length p)) c) d (λ _ d', array_so_far d0 X d' id (p ++ [w])) (λ _, True).
Proof.
  intros [Hl Hg Hf [l Hr] Ho He] Hx Hc. eapply qwp_mono; [apply insert_array_edge_qwp| |done].
  - done.
  - by eexists.
  - destruct (t_array_edges d !! (id, Z.of_nat (length p))) eqn:Hek; [|done].
    specialize (Ho _ ltac:(by eexists)). lia.
  - intros _ d' (Hl' & Hh & _ & Hm). split; [done|by eapply grows_hung|done|exists l; by rewrite (hu_nodes _ _ _ Hh)| |].
    + intros i [c' [[-> ->]|Hc']%Hm]; rewrite length_app; simpl; [lia|]. specialize (Ho i ltac:(by eexists)). lia.
    + intros i w' Hi. destruct (decide (i < length p)) as [Hlt|Hge].
      * rewrite lookup_app_l in Hi by done. destruct (He i w' Hi) as (c' & Hc' & Hw'). exists c'.
        split; [apply Hm; by right|by eapply repr_hung].
      * rewrite lookup_app_r in Hi by lia. apply list_lookup_singleton_Some in Hi as [Hi <-].
        exists c. split; [apply Hm; left; split; [f_equal; lia|done]|by eapply repr_hung].
Qed.

Lemma map_so_far_repr d0 X d id p entries :
  map_so_far d0 X d id p → bt_sorted entries → (∀ k w, bt_get entries k = Some w ↔ (k, w) ∈ p) →
  repr (λ i, X i ∨ i = id) d id (Value_Map entries).
Proof.
  intros [Hl Hg Hf Hr Ho He] Hs Hp. apply repr_Map. split_and!; [by right|done|done|..].
  - intros k ([k' w] & -> & Hin)%Ho%list_elem_of_fmap. exists w. by apply Hp.
  - intros k w (c & Hc & Hw)%Hp%He. exists c. split; [done|]. eapply repr_weaken; [done|by left].
Qed.

Lemma array_so_far_repr d0 X d id items :
  array_so_far d0 X d id items → repr (λ i, X i ∨ i = id) d id (Value_Array items).
Proof.
  intros [Hl Hg Hf Hr Ho He]. apply repr_Array. split_and!; [by right|done|done|].
  intros i w (c & Hc & Hw)%He. exists c. split; [done|]. eapply repr_weaken; [done|by left].
Qed.

(** ** Inserting a value *)

Lemma insert_leaf_qwp v d :
  linked d → kind v = NodeKind_Leaf → rust_leaf v →
  qwp (let! bytes := coded (encode (ser_value v)) in insert_node LEAF (Some bytes)) d
    (λ id d', linked d' ∧ grows d d' ∧ fresh d id ∧ repr (fresh d) d' id v) (λ _, True).
Proof.
  intros Hl Hk Hv. apply qwp_bind, qwp_coded_encode; [done|]. intros b Hb.
  eapply qwp_mono; [by apply insert_node_qwp| |done]. intros id d' [Hf Hr _ _ _ Hg Hl'].
  split_and!; [done..|]. apply repr_Leaf; [done|]. split; [done|]. split; [done|]. exists b. split; [done|].
  by apply decode_value_law.
Qed.

(** An inserted value's tree is fresh rows that spell it. *)
Lemma insert_value_qwp v d :
  linked d → rust_value v →
  qwp (insert_value v) d (λ id d', linked d' ∧ grows d d' ∧ fresh d id ∧ repr (fresh d) d' id v) (λ _, True).
Proof.
  revert d. induction v as [v Hk|items IH|entries IH] using Value_nested_ind; intros d Hl Hv.
  - destruct v; try done; by apply insert_leaf_qwp.
  - simpl. apply qwp_bind. eapply qwp_mono; [by apply insert_node_qwp| |done]. intros id d1 Had.
    apply qwp_bind. set (X := λ i, fresh d i ∧ i ≠ id).
    assert (array_so_far d X d1 id []) as Hini by (eapply array_so_far_nil; [exact Had|apply grows_refl]).
    eapply qwp_mono; [apply (qwp_for_each_i _ (λ p d', array_so_far d X d' id p) items [])|..|done]; [|done|].
    + intros q w r d2 Hq Hsf. apply qwp_bind.
      assert (w ∈ items) as Hin by (simpl in Hq; rewrite Hq; apply elem_of_app; right; by left).
      rewrite Forall_forall in IH. simpl in Hv. apply forallb_True in Hv. rewrite Forall_forall in Hv.
      eapply qwp_mono; [by apply (IH w Hin); [apply Hsf|apply Hv]| |done].
      intros c d3 (Hl3 & Hg3 & _ & Hr3).
      apply array_so_far_edge; [by eapply array_so_far_grows|by intros [_ ?]|].
      eapply repr_weaken; [exact Hr3|]. intros i Hi. split; [by eapply grows_fresh; [apply Hsf|]|].
      intros ->. destruct (af_row _ _ _ _ _ Hsf) as [l Hrow]. unfold fresh in Hi. congruence.
    + intros u d2 Hsf. simpl in Hsf. apply qwp_ret. split_and!; [apply Hsf|apply Hsf|apply Hsf|].
      eapply repr_weaken; [by eapply array_so_far_repr|]. intros i [[? _]| ->]; [done|apply Hsf].
  - simpl. apply qwp_bind. eapply qwp_mono; [by apply insert_node_qwp| |done]. intros id d1 Had.
    apply qwp_bind. set (X := λ i, fresh d i ∧ i ≠ id).
    simpl in Hv. apply andb_True in Hv as [Hs%ascending_sorted Hv].
    assert (map_so_far d X d1 id []) as Hini by (eapply map_so_far_nil; [exact Had|apply grows_refl]).
    eapply qwp_mono; [apply (qwp_for_each _ (λ p d', map_so_far d X d' id p) entries [])|..|done]; [|done|].
    + intros q [k w] r d2 Hq Hsf. apply qwp_bind. simpl in Hq.
      assert ((k, w) ∈ entries) as Hin by (rewrite Hq; apply elem_of_app; right; by left).
      rewrite Forall_forall in IH. apply forallb_True in Hv. rewrite Forall_forall in Hv.
      eapply qwp_mono; [by apply (IH (k, w) Hin); [apply Hsf|apply (Hv (k, w))]| |done].
      intros c d3 (Hl3 & Hg3 & _ & Hr3).
      apply map_so_far_edge; [by eapply map_so_far_grows|by intros [_ ?]| |].
      * eapply repr_weaken; [exact Hr3|]. intros i Hi. split; [by eapply grows_fresh; [apply Hsf|]|].
        intros ->. destruct (mf_row _ _ _ _ _ Hsf) as [l Hrow]. unfold fresh in Hi. congruence.
      * apply bt_sorted_NoDup in Hs. rewrite Hq, fmap_app in Hs. apply NoDup_app in Hs as (_ & Hn & _).
        intros Hk. apply (Hn k Hk). by left.
    + intros u d2 Hsf. simpl in Hsf. apply qwp_ret. split_and!; [apply Hsf|apply Hsf|apply Hsf|].
      eapply repr_weaken; [eapply map_so_far_repr; [done|done|]|].
      * intros k w. split; [by apply bt_get_elem|by apply bt_sorted_elem_get].
      * intros i [[? _]| ->]; [done|apply Hsf].
Qed.
End write.
