(* ===== verification/SqliteCopy.v ===== *)
(** * Amending trees

    Every function of [Sqlite] that copies a container with a change, against
    the amendments of [Value]; [replace_child] refines [set_at] and [amend_at]. *)

From S2P Require Import Prelude BTree Text Codec Externals Keys Subkey Msg Envelope Value Storage Sql.
From S2P Require Import Sqlite SqlLogic SqliteTree SqliteWrite.

(** ** The walk of [replace_child], on values *)

Fixpoint replace_value (root : Value) (path : list Subkey) (f : option Value → option (option Value))
    : option Value :=
  match path with
  | [] => None
  | segment :: rest =>
      match root, segment with
      | Value_Map map, Subkey_Key key =>
          match rest with
          | [] =>
              r ← f (bt_get map key);
              Some (Value_Map match r with Some v => bt_insert key v map | None => bt_remove key map end)
          | _ :: _ =>
              child ← bt_get map key;
              child' ← replace_value child rest f;
              Some (Value_Map (bt_insert key child' map))
          end
      | Value_Array array, Subkey_Index idx =>
          child ← array !! N.to_nat idx;
          match rest with
          | [] =>
              r ← f (Some child);
              Some (Value_Array match r with
                                | Some v => <[N.to_nat idx := v]> array
                                | None => delete (N.to_nat idx) array
                                end)
          | _ :: _ =>
              child' ← replace_value child rest f;
              Some (Value_Array (<[N.to_nat idx := child']> array))
          end
      | _, _ => None
      end
  end.

(** What [set_terminal] and [amend_terminal] do, on values. *)
Definition set_target (value old : option Value) : option (option Value) :=
  match value with
  | Some value => Some (Some value)
  | None => match old with Some _ => Some None | None => None end
  end.

Definition amend_target (op : AmendOp) (old : option Value) : option (option Value) :=
  match op with
  | AmendOp_AppendEntry entry =>
      match old with
      | Some target => target' ← append_to entry target; Some (Some target')
      | None => Some (Some (Value_Array [entry]))
      end
  | op => target ← old; target' ← amend_at target None op; Some (Some target')
  end.

Lemma walk_mut_replace root path f :
  path ≠ [] → walk_mut root path f = replace_value root path (λ old, target ← old; target' ← f target; Some (Some target')).
Proof.
  revert root. induction path as [|s path IH]; intros root Hne; [done|].
  destruct root as [s0|n0|b0|items|entries|k0], s as [key|idx]; try done; simpl.
  - destruct (items !! N.to_nat idx) as [child|]; simpl; [|done]. destruct path as [|s' path].
    + simpl. by destruct (f child).
    + specialize (IH child ltac:(done)). simpl in IH |- *. by rewrite IH.
  - destruct path as [|s' path].
    + destruct (bt_get entries key) as [child|]; simpl; [|done]. by destruct (f child).
    + destruct (bt_get entries key) as [child|]; simpl; [|done].
      specialize (IH child ltac:(done)). simpl in IH |- *. by rewrite IH.
Qed.

(** The parent's amendment by its last segment, as the walk's last step. *)
Lemma walk_mut_last root parents last g f :
  (∀ parent, g parent = replace_value parent [last] f) →
  walk_mut root parents g = replace_value root (parents ++ [last]) f.
Proof.
  intros Hg. revert root. induction parents as [|s parents IH]; intros root; [apply Hg|].
  assert (∃ s' rest, parents ++ [last] = s' :: rest) as (s' & rest & Hrest)
    by (destruct parents; simpl; by eexists _, _).
  destruct root as [s0|n0|b0|items|entries|k0], s as [key|idx]; try done; simpl; rewrite Hrest.
  - destruct (items !! N.to_nat idx) as [child|]; simpl; [|done]. by rewrite IH, Hrest.
  - destruct (bt_get entries key) as [child|]; simpl; [|done]. by rewrite IH, Hrest.
Qed.

Lemma set_at_replace root path value :
  set_at root path value = replace_value root (SubkeyPath_as_ref path) (set_target value).
Proof.
  destruct (SubkeyPath_split_last path) as (parents & last & Hp). rewrite (set_at_snoc _ _ _ _ _ Hp), Hp.
  apply walk_mut_last. intros parent. destruct parent as [s0|n0|b0|items|entries|k0], last as [key|idx]; try done; simpl.
  - unfold vec_remove. destruct value as [v|]; case_decide as Hlt.
    + by apply lookup_lt_is_Some in Hlt as [x ->].
    + by rewrite lookup_ge_None_2 by lia.
    + by apply lookup_lt_is_Some in Hlt as [x ->].
    + by rewrite lookup_ge_None_2 by lia.
  - unfold bt_contains_key. destruct value as [v|]; [done|]. by destruct (bt_get entries key).
Qed.

Lemma amend_at_replace root path op :
  amend_at root (Some path) op = replace_value root (SubkeyPath_as_ref path) (amend_target op).
Proof.
  destruct op as [entry|inc|predicate].
  - destruct (SubkeyPath_split_last path) as (parents & last & Hp). simpl. rewrite Hp, split_last_snoc.
    apply walk_mut_last. intros parent. destruct parent as [s0|n0|b0|items|entries|k0], last as [key|idx]; try done; simpl.
    + destruct (items !! N.to_nat idx) as [t|]; simpl; [|done]. by destruct (append_to entry t).
    + destruct (bt_get entries key) as [t|]; simpl; [|done]. by destruct (append_to entry t).
  - simpl. apply walk_mut_replace, SubkeyPath_nonempty.
  - simpl. apply walk_mut_replace, SubkeyPath_nonempty.
Qed.

(** Rows selected from one node's edges, moved under another. *)
Lemma moved_rows {K K'} (id : Z) (P : K → Prop) `{∀ k, Decision (P k)} (f : K → K') (l : list (K * Z)) :
  NoDup l.*1 → (∀ a b, P a → P b → f a = f b → a = b) →
  let rows := omap (λ kc : K * Z, if decide (P kc.1) then Some (id, f kc.1, kc.2) else None) l in
  NoDup rows.*1 ∧ ∀ p k' c, (p, k', c) ∈ rows ↔ p = id ∧ ∃ k, P k ∧ k' = f k ∧ (k, c) ∈ l.
Proof.
  intros Hnd Hf rows.
  assert (∀ p k' c, (p, k', c) ∈ rows ↔ p = id ∧ ∃ k, P k ∧ k' = f k ∧ (k, c) ∈ l) as Hin.
  { intros p k' c. unfold rows. rewrite list_elem_of_omap. split.
    - intros ([k c'] & Hin & Ho). simpl in Ho. case_decide; simplify_eq. split; [done|by exists k].
    - intros (-> & k & Hk & -> & Hin). exists (k, c). simpl. by rewrite decide_True. }
  split; [|done]. clear Hin. unfold rows. clear rows. induction l as [|[k c] l IH]; simpl; [constructor|].
  simpl in Hnd. apply NoDup_cons in Hnd as [Hnin Hnd]. case_decide as Hk; [|by apply IH].
  simpl. apply NoDup_cons. split; [|by apply IH].
  intros ([[p k'] c'] & Heq & Hin)%list_elem_of_fmap. simplify_eq/=.
  apply list_elem_of_omap in Hin as ([k2 c2] & Hin & Ho). simpl in Ho. case_decide; simplify_eq.
  apply Hnin, list_elem_of_fmap. exists (k2, c'). split; [|done]. by apply Hf.
Qed.

#[export] Instance increment_ok_dec inc : Decision (amend_op_ok (AmendOp_IncrementDecrement inc)).
Proof. unfold amend_op_ok, is_i64. destruct (inc_min inc), (inc_max inc); apply _. Defined.

(** An amendment of the Rust type. *)
Definition rust_amend (op : AmendOp) : bool :=
  match op with
  | AmendOp_AppendEntry entry => rust_value entry
  | AmendOp_IncrementDecrement inc => bool_decide (amend_op_ok (AmendOp_IncrementDecrement inc))
  | AmendOp_DeleteMatching _ => true
  end.

Section copy.
Context `{Externals, Rusqlite, !RusqliteLaws, !StoredDecode, !StoredLaws}.
Implicit Types (d : Db) (v w : Value).

(** The tree under [id] is [v]'s. *)
Definition spells d (id : Z) v : Prop := repr (λ _, True) d id v.

Definition held d (i : Z) : Prop := is_Some (t_nodes d !! i).

(** What a function that builds the tree of [v] leaves. *)
Definition builds d v (id : Z) d' : Prop := linked d' ∧ grows d d' ∧ spells d' id v.

Lemma repr_held X d id v : repr X d id v → repr (held d) d id v.
Proof. intros Hr. apply (repr_agree X _ d d id v Hr). by intros i _ Hi. Qed.

Lemma spells_held d id v : spells d id v ↔ repr (held d) d id v.
Proof. split; [apply repr_held|]. intros Hr. by eapply repr_weaken. Qed.

Lemma spells_grows d d' id v : spells d id v → grows d d' → spells d' id v.
Proof. apply repr_grows. Qed.

Lemma fresh_not_held d id : fresh d id → ¬ held d id.
Proof. unfold fresh, held. intros -> [? ?]. done. Qed.

(** What is built over a store that has grown is built over it before. *)
Lemma built_later (m : M Conn SqliteError Z) d d1 v :
  grows d d1 → qwp m d1 (builds d1 v) (λ _, True) → qwp m d1 (builds d v) (λ _, True).
Proof.
  intros Hg Hm. eapply qwp_mono; [exact Hm| |done]. intros id d2 (Hl2 & Hg2 & Hr2).
  split_and!; [done|by eapply grows_trans|done].
Qed.

Lemma insert_value_builds v d : linked d → rust_value v → qwp (insert_value v) d (builds d v) (λ _, True).
Proof.
  intros Hl Hv. eapply qwp_mono; [by apply insert_value_qwp| |done]. intros id d' (?&?&_&Hr).
  split_and!; [done|done|by eapply repr_weaken].
Qed.

(** ** Copies of a map *)

Lemma new_map_without_qwp (old : Z) (except : rstring) d entries :
  linked d → spells d old (Value_Map entries) →
  qwp (new_map_without old except) d (λ id d', map_so_far d (held d) d' id (bt_remove except entries)) (λ _, True).
Proof.
  intros Hl Hr%spells_held. apply qwp_bind. eapply qwp_mono; [by apply insert_node_qwp| |done].
  intros id d1 Had. pose proof (ad_grows _ _ _ _ _ Had) as Hg. pose proof (ad_fresh _ _ _ _ _ Had) as Hf.
  assert (old ≠ id) as Hne by (intros ->; by eapply fresh_not_held, repr_in).
  pose proof (repr_grows _ _ _ _ _ Hr Hg) as Hr1.
  destruct (moved_rows id (λ k, k ≠ except) (λ k, k) _ (NoDup_scan old (t_map_edges d1)) ltac:(done)) as [Hnd Hin].
  apply qwp_bind. eapply qwp_mono; [apply (insert_map_edges_qwp _ id
    (λ k c, k ≠ except ∧ t_map_edges d1 !! (old, k) = Some c))|..|done].
  - apply Had.
  - rewrite (ad_row _ _ _ _ _ Had). by eexists.
  - exact Hnd.
  - intros p k c. rewrite (Hin p k c). setoid_rewrite elem_of_scan. naive_solver.
  - intros k c _. apply Had.
  - intros _ d2 (Hl2 & Hh & _ & Hm). apply qwp_ret.
    apply repr_Map in Hr as (_ & _ & Hs & Hb & Hch).
    assert (∀ k, t_map_edges d1 !! (old, k) = t_map_edges d !! (old, k)) as Hold by (apply Had; done).
    split; [done|by eapply grows_hung|done|rewrite (hu_nodes _ _ _ Hh), (ad_row _ _ _ _ _ Had); by eexists|..].
    + intros k [c [[Hk Hc]|Hc]%Hm]; [|by rewrite (ad_map _ _ _ _ _ Had) in Hc].
      rewrite Hold in Hc. destruct (Hb k ltac:(by eexists)) as [w Hw]. apply list_elem_of_fmap. exists (k, w).
      split; [done|]. apply bt_get_elem. by rewrite bt_get_remove_ne.
    + intros k w Hkw. apply (bt_sorted_elem_get _ k w) in Hkw; [|by apply sorted_remove].
      destruct (decide (except = k)) as [->|Hk]; [by rewrite bt_get_remove_eq in Hkw|].
      rewrite bt_get_remove_ne in Hkw by done. destruct (Hch k w Hkw) as (c & Hc & Hw). exists c.
      split; [apply Hm; left; by rewrite Hold|]. eapply repr_hung; [by eapply repr_grows|done|by apply fresh_not_held].
Qed.

(** .. with what [replace_child] then hangs there. *)
Lemma map_replaced_qwp (old : Z) (key : rstring) (replacement : option Z) d entries r :
  linked d → spells d old (Value_Map entries) →
  match replacement, r with Some c, Some v => spells d c v | None, None => True | _, _ => False end →
  qwp (let! id := new_map_without old key in
       do! match replacement with Some child => insert_map_edge id key child | None => m_ret () end in
       m_ret id) d
    (builds d (Value_Map match r with Some v => bt_insert key v entries | None => bt_remove key entries end))
    (λ _, True).
Proof.
  intros Hl Hr Hrep. apply qwp_bind. eapply qwp_mono; [by apply new_map_without_qwp| |done]. intros id d1 Hsf.
  assert (bt_sorted entries) as Hs by (by apply repr_Map in Hr as (_ & _ & ? & _)).
  pose proof (mf_fresh _ _ _ _ _ Hsf) as Hf. pose proof (mf_grows _ _ _ _ _ Hsf) as Hg.
  destruct replacement as [c|], r as [v|]; try done.
  - apply qwp_bind. eapply qwp_mono; [eapply map_so_far_edge; [exact Hsf|by apply fresh_not_held| |]| |done].
    + eapply repr_grows; [by apply spells_held|done].
    + intros ([k w] & -> & Hin)%list_elem_of_fmap. apply (bt_sorted_elem_get _ k w) in Hin; [|by apply sorted_remove].
      simpl in Hin. by rewrite bt_get_remove_eq in Hin.
    + intros u d2 Hsf2. apply qwp_ret. split_and!; [apply Hsf2|apply Hsf2|].
      eapply repr_weaken; [eapply map_so_far_repr; [exact Hsf2|by apply sorted_insert|]|done].
      intros k w. rewrite elem_of_app, list_elem_of_singleton. destruct (decide (key = k)) as [<-|Hk].
      * rewrite bt_get_insert_eq. split; [intros [= ->]; by right|]. intros [Hin|[= ->]]; [|done].
        apply (bt_sorted_elem_get _ key w) in Hin; [|by apply sorted_remove]. by rewrite bt_get_remove_eq in Hin.
      * rewrite bt_get_insert_ne by done. split.
        -- intros Hw. left. apply bt_get_elem. by rewrite bt_get_remove_ne.
        -- intros [Hin|[= -> _]]; [|done]. apply (bt_sorted_elem_get _ k w) in Hin; [|by apply sorted_remove].
           by rewrite bt_get_remove_ne in Hin.
  - apply qwp_bind, qwp_ret, qwp_ret. split_and!; [apply Hsf|apply Hsf|].
    eapply repr_weaken; [eapply map_so_far_repr; [exact Hsf|by apply sorted_remove|]|done].
    intros k w. split; [apply bt_get_elem|]. by apply bt_sorted_elem_get, sorted_remove.
Qed.

(** ** Copies of an array *)

Lemma array_copied d d1 d2 id leaf (R : Z → Z → Prop) items :
  added d d1 id ARRAY leaf → linked d2 → hung d1 d2 id →
  (∀ i c, t_array_edges d2 !! (id, i) = Some c ↔ R i c) →
  (∀ i c, R i c → 0 ≤ i < Z.of_nat (length items))%Z →
  (∀ i w, items !! i = Some w → ∃ c, R (Z.of_nat i) c ∧ spells d c w) →
  builds d (Value_Array items) id d2.
Proof.
  intros Had Hl Hh Hm Hb Hch.
  assert (grows d d2) as Hg by (eapply grows_hung; [apply Had|apply Had|done]).
  split_and!; [done|done|]. apply repr_Array. split_and!; [done| | |].
  - exists leaf. rewrite (hu_nodes _ _ _ Hh). apply Had.
  - intros i [c Hc%Hm]. by eapply Hb.
  - intros i w (c & Hc & Hw)%Hch. exists c. split; [by apply Hm|by eapply spells_grows].
Qed.

Lemma hung_trans d1 d2 d3 id : hung d1 d2 id → hung d2 d3 id → hung d1 d3 id.
Proof.
  intros [N1 A1 R1] [N2 A2 R2]. split; [congruence| |by eapply same_rest_trans].
  intros i Hi. by eapply agree_trans; [apply A1|apply A2].
Qed.

(** A fresh array with rows moved over from [old], and what is done with it. *)
Lemma array_rows_qwp (old : Z) (rows : Z → Db → list (Z * Z * Z)) (R : Z → Z → Prop) d items
    (K : Z → M Conn SqliteError Z) (Q : Z → Db → Prop) :
  linked d → spells d old (Value_Array items) →
  (∀ id d1, (∀ i, t_array_edges d1 !! (old, i) = t_array_edges d !! (old, i)) →
    NoDup (rows id d1).*1 ∧ ∀ p k c, (p, k, c) ∈ rows id d1 ↔ p = id ∧ R k c) →
  (∀ id d1 d2, added d d1 id ARRAY None → linked d2 → hung d1 d2 id →
    (∀ i c, t_array_edges d2 !! (id, i) = Some c ↔ R i c) → qwp (K id) d2 Q (λ _, True)) →
  qwp (let! id := insert_node ARRAY None in do! insert_array_edges (rows id) in K id) d Q (λ _, True).
Proof.
  intros Hl Hr%spells_held Hrows HK. apply qwp_bind. eapply qwp_mono; [by apply insert_node_qwp| |done].
  intros id d1 Had. assert (old ≠ id) as Hne.
  { intros ->. eapply fresh_not_held; [apply Had|by eapply repr_in]. }
  destruct (Hrows id d1) as [Hnd Hin]; [by apply Had|].
  apply qwp_bind. eapply qwp_mono; [apply (insert_array_edges_qwp _ id R)|..|done]; [apply Had| |done|done|..].
  - rewrite (ad_row _ _ _ _ _ Had). by eexists.
  - intros k c _. apply Had.
  - intros u d2 (Hl2 & Hh & _ & Hm). eapply HK; [exact Had|done|exact Hh|].
    intros i c. rewrite Hm, (ad_array _ _ _ _ _ Had). naive_solver.
Qed.

(** .. and one more edge. *)
Lemma array_edge_qwp d d1 d2 id (R : Z → Z → Prop) idx child :
  added d d1 id ARRAY None → linked d2 → hung d1 d2 id → (∀ i c, t_array_edges d2 !! (id, i) = Some c ↔ R i c) →
  (∀ c, ¬ R idx c) →
  qwp (insert_array_edge id idx child) d2
    (λ _ d3, linked d3 ∧ hung d1 d3 id ∧
      ∀ i c, t_array_edges d3 !! (id, i) = Some c ↔ (i = idx ∧ c = child) ∨ R i c) (λ _, True).
Proof.
  intros Had Hl Hh Hm Hidx. eapply qwp_mono; [apply insert_array_edge_qwp; [done| |]| |done].
  - rewrite (hu_nodes _ _ _ Hh), (ad_row _ _ _ _ _ Had). by eexists.
  - destruct (t_array_edges d2 !! (id, idx)) eqn:He; [|done]. apply Hm in He. by destruct (Hidx z).
  - intros u d3 (Hl3 & Hh3 & _ & Hm3). split_and!; [done|by eapply hung_trans|].
    intros i c. by rewrite Hm3, Hm.
Qed.

Lemma spells_items d id items i w :
  spells d id (Value_Array items) → items !! i = Some w →
  ∃ c, t_array_edges d !! (id, Z.of_nat i) = Some c ∧ spells d c w.
Proof. intros (_ & _ & _ & Hch)%repr_Array. apply Hch. Qed.

Lemma spells_bound d id items i c :
  spells d id (Value_Array items) → t_array_edges d !! (id, i) = Some c → (0 ≤ i < Z.of_nat (length items))%Z.
Proof. intros (_ & _ & Hb & _)%repr_Array Hc. apply Hb. by eexists. Qed.

Lemma new_array_replacing_qwp (old : Z) (idx : N) (child : Z) d items w :
  linked d → spells d old (Value_Array items) → N.to_nat idx < length items → spells d child w →
  qwp (new_array_replacing old idx child) d (builds d (Value_Array (<[N.to_nat idx := w]> items))) (λ _, True).
Proof.
  intros Hl Hr Hidx Hw. set (R := λ i c, i ≠ Z.of_N idx ∧ t_array_edges d !! (old, i) = Some c).
  unfold new_array_replacing. eapply (array_rows_qwp old _ R _ items); [done|done|..].
  { intros id d1 Hold.
    destruct (moved_rows id (λ k, k ≠ Z.of_N idx) (λ k, k) _ (NoDup_scan old (t_array_edges d1)) ltac:(done)) as [Hnd Hin].
    split; [exact Hnd|]. intros p k c. rewrite (Hin p k c). setoid_rewrite elem_of_scan. unfold R. rewrite <-Hold. naive_solver. }
  intros id d1 d2 Had Hl2 Hh Hm. apply qwp_bind.
  eapply qwp_mono; [by apply (array_edge_qwp d d1 d2 id R); [..|intros c [? _]]| |done].
  intros u d3 (Hl3 & Hh3 & Hm3). apply qwp_ret. eapply array_copied; [done|done|done|exact Hm3|..].
  - intros i c [[-> _]|[_ Hc]]; rewrite length_insert; [lia|by eapply spells_bound].
  - intros i w' Hi. destruct (decide (i = N.to_nat idx)) as [->|Hne].
    + rewrite list_lookup_insert_eq in Hi by done. simplify_eq. exists child. split; [left; split; [lia|done]|done].
    + rewrite list_lookup_insert_ne in Hi by done. destruct (spells_items _ _ _ _ _ Hr Hi) as (c & Hc & Hw').
      exists c. split; [right; split; [lia|done]|done].
Qed.

Lemma new_array_removing_qwp (old : Z) (idx : N) d items :
  linked d → spells d old (Value_Array items) → N.to_nat idx < length items →
  qwp (new_array_removing old idx) d (builds d (Value_Array (delete (N.to_nat idx) items))) (λ _, True).
Proof.
  intros Hl Hr Hidx. set (f := λ i, if (i >? Z.of_N idx)%Z then (i - 1)%Z else i).
  set (R := λ i c, ∃ k, k ≠ Z.of_N idx ∧ i = f k ∧ t_array_edges d !! (old, k) = Some c).
  unfold new_array_removing. eapply (array_rows_qwp old _ R _ items); [done|done|..].
  { intros id d1 Hold.
    destruct (moved_rows id (λ k, k ≠ Z.of_N idx) f _ (NoDup_scan old (t_array_edges d1))) as [Hnd Hin].
    { unfold f. intros a b Ha Hb. destruct (a >? _)%Z eqn:E1, (b >? _)%Z eqn:E2; lia. }
    split; [exact Hnd|]. intros p k c. etransitivity; [apply Hin|]. setoid_rewrite elem_of_scan.
    unfold R. setoid_rewrite Hold. naive_solver. }
  intros id d1 d2 Had Hl2 Hh Hm. apply qwp_ret. eapply array_copied; [done|done|done|exact Hm|..].
  - intros i c (k & Hk & -> & Hc). pose proof (spells_bound _ _ _ _ _ Hr Hc). rewrite length_delete by (by apply lookup_lt_is_Some).
    unfold f. destruct (k >? _)%Z eqn:E; lia.
  - intros i w Hi. destruct (decide (i < N.to_nat idx)) as [Hlt|Hge].
    + rewrite list_lookup_delete_lt in Hi by done. destruct (spells_items _ _ _ _ _ Hr Hi) as (c & Hc & Hw).
      exists c. split; [|done]. exists (Z.of_nat i). split_and!; [lia| |done]. unfold f. destruct (_ >? _)%Z eqn:E; lia.
    + rewrite list_lookup_delete_ge in Hi by lia. destruct (spells_items _ _ _ _ _ Hr Hi) as (c & Hc & Hw).
      exists c. split; [|done]. exists (Z.of_nat (S i)). split_and!; [lia| |done]. unfold f. destruct (_ >? _)%Z eqn:E; lia.
Qed.

Lemma spells_length d id items :
  spells d id (Value_Array items) → length (scan id (t_array_edges d)) = length items.
Proof.
  intros [_ Hk]%repr_children. rewrite scan_by_length, <-(length_fmap fst), Hk. by rewrite length_map, length_seq.
Qed.

Lemma new_array_appending_qwp (old child : Z) d target entry v' :
  linked d → spells d old target → spells d child entry → append_to entry target = Some v' →
  qwp (new_array_appending old child) d (builds d v') (λ _, True).
Proof.
  intros Hl Hr Hw Ha. destruct target as [| | |items| |]; simplify_eq/=. unfold new_array_appending.
  apply qwp_bind. eapply qwp_reads; [by eapply node_kind_reads|done|]. intros k ->. simpl.
  apply qwp_bind, qwp_ret, qwp_bind, qwp_select; [done|]. rewrite (spells_length _ _ _ Hr).
  set (R := λ i c, t_array_edges d !! (old, i) = Some c).
  eapply (array_rows_qwp old _ R _ items); [done|done|..].
  { intros id d1 Hold. split.
    - assert (∀ l : list (Z * Z), (map (λ ic : Z * Z, (id, ic.1, ic.2)) l).*1 = pair id <$> l.*1) as ->.
      { intros l. induction l as [|x l IH]; [done|]. exact (f_equal (cons (id, x.1)) IH). }
      apply NoDup_fmap_2; [by intros ?? [= ?]|apply NoDup_scan].
    - intros p i c. rewrite list_elem_of_fmap. unfold R. rewrite <-Hold. split.
      + intros ([i' c'] & [= -> -> ->] & Hin). by apply elem_of_scan in Hin.
      + intros [-> Hc]. exists (i, c). split; [done|by apply elem_of_scan]. }
  intros id d1 d2 Had Hl2 Hh Hm. apply qwp_bind.
  eapply qwp_mono; [apply (array_edge_qwp d d1 d2 id R); [done..|]| |done].
  { intros c Hc. pose proof (spells_bound _ _ _ _ _ Hr Hc). lia. }
  intros u d3 (Hl3 & Hh3 & Hm3). apply qwp_ret. eapply array_copied; [done|done|done|exact Hm3|..].
  - intros i c [[-> _]|Hc]; rewrite length_app; simpl; [lia|]. pose proof (spells_bound _ _ _ _ _ Hr Hc). lia.
  - intros i w [Hi|[Hge Hi]]%lookup_app_Some.
    + destruct (spells_items _ _ _ _ _ Hr Hi) as (c & Hc & Hc'). exists c. split; [by right|done].
    + apply list_lookup_singleton_Some in Hi as [Hi <-]. exists child. split; [left; split; [lia|done]|done].
Qed.

(** ** Amending a node *)

Lemma increment_leaf_qwp (old : Z) inc d target v' :
  linked d → spells d old target → amend_op_ok (AmendOp_IncrementDecrement inc) →
  increment_target inc target = Some v' → qwp (increment_leaf old inc) d (builds d v') (λ _, True).
Proof.
  intros Hl Hr Hinc Hi. destruct target as [|n| | | |]; simplify_eq/=. unfold increment_leaf.
  destruct (IncrementDecrement_apply inc n) as [sum|] eqn:Hsum; simplify_eq/=.
  apply qwp_bind. eapply qwp_reads; [by eapply node_reads|done|]. intros [k leaf] [Hk Hleaf]. simpl in Hk, Hleaf |- *.
  subst k. destruct (Hleaf eq_refl) as (b & -> & Hb & Hn). simpl in Hn. apply bool_decide_unpack in Hn.
  apply qwp_bind, qwp_lift_Ok, qwp_bind. eapply qwp_coded_Ok; [done|]. apply qwp_bind, qwp_ret, qwp_bind.
  rewrite Hsum. apply qwp_ret.
  eapply qwp_mono; [apply (insert_leaf_qwp (Value_Int sum)); [done|done|]| |done].
  - simpl. apply bool_decide_spec. by eapply increment_range.
  - intros id d' (?&?&_&?). split_and!; [done|done|by eapply repr_weaken].
Qed.

Lemma keep_child_reads predicate d c w :
  spells d c w → qreads (keep_child predicate c) d
    (λ o, o = if negb (Predicate_matches predicate w) then Some c else None).
Proof.
  intros Hw. eapply qreads_bind; [by eapply value_at_node_reads|]. intros ? ->. by apply qreads_ret.
Qed.

(** The children a predicate lets stay. *)
Lemma kept_children predicate d (cs : list Z) items kept :
  Forall2 (spells d) cs items →
  Forall2 (λ c o, ∃ w, spells d c w ∧ o = if negb (Predicate_matches predicate w) then Some c else None) cs kept →
  Forall2 (spells d) (omap (λ o, o) kept)
    (base.filter (λ w, Is_true (negb (Predicate_matches predicate w))) items).
Proof.
  intros Hcs. revert kept. induction Hcs as [|c w cs items Hc Hcs IH]; intros kept Hk.
  - apply Forall2_nil_inv_l in Hk as ->. constructor.
  - apply Forall2_cons_inv_l in Hk as (o & kept' & (w' & Hw' & ->) & Hk & ->).
    pose proof (repr_functional _ _ _ _ _ _ Hw' Hc) as ->. specialize (IH _ Hk). rewrite filter_cons.
    destruct (negb (Predicate_matches predicate w)); simpl; [by constructor|done].
Qed.

Lemma new_container_retaining_qwp (old : Z) predicate d target v' :
  linked d → spells d old target → delete_target predicate target = Some v' →
  qwp (new_container_retaining old predicate) d (builds d v') (λ _, True).
Proof.
  intros Hl Hr Hd. unfold new_container_retaining. apply qwp_bind.
  eapply qwp_reads; [by eapply node_kind_reads|done|]. intros k ->.
  destruct target as [| | |items|entries|]; simplify_eq/=.
  - apply qwp_bind, qwp_select; [done|]. pose proof (proj1 (repr_children _ _ _ _ Hr)) as Hch.
    apply qwp_bind. eapply qwp_reads; [|done|].
    { apply (qreads_collect _ (λ c o, ∃ w, spells d c w ∧ o = if negb (Predicate_matches predicate w) then Some c else None)).
      intros c (i & Hi)%list_elem_of_lookup. destruct (Forall2_lookup_l _ _ _ _ _ Hch Hi) as (w & _ & Hw).
      eapply qreads_mono; [by apply keep_child_reads|]. intros o ->. by exists w. }
    intros kept Hk. pose proof (kept_children _ _ _ _ _ Hch Hk) as Hkept.
    apply qwp_bind. eapply qwp_mono; [by apply insert_node_qwp| |done]. intros id d1 Had.
    pose proof (ad_fresh _ _ _ _ _ Had) as Hf. pose proof (ad_grows _ _ _ _ _ Had) as Hg.
    set (items' := base.filter _ items) in *. clearbody items'.
    assert (array_so_far d (held d) d1 id []) as Hini by (eapply array_so_far_nil; [exact Had|apply grows_refl]).
    assert (∀ r ws p d1, Forall2 (spells d) r ws → array_so_far d (held d) d1 id p →
      qwp (m_for_each_i (λ idx child, insert_array_edge id (Z.of_nat idx) child) (length p) r) d1
        (λ _ d', array_so_far d (held d) d' id (p ++ ws)) (λ _, True)) as Hloop.
    { clear -Hf. induction r as [|c r IH]; intros ws p d1 Hrw Hsf; simpl.
      - apply Forall2_nil_inv_l in Hrw as ->. apply qwp_ret. by rewrite app_nil_r.
      - apply Forall2_cons_inv_l in Hrw as (w & ws' & Hw & Hrw & ->). apply qwp_bind.
        eapply qwp_mono; [apply array_so_far_edge; [done|by apply fresh_not_held|]| |done].
        + eapply repr_grows; [by apply spells_held|apply Hsf].
        + intros u d2 Hsf2. rewrite cons_middle, app_assoc.
          replace (S (length p)) with (length (p ++ [w])) by (rewrite length_app; simpl; lia). by apply IH. }
    apply qwp_bind. eapply qwp_mono; [exact (Hloop _ items' [] d1 Hkept Hini)| |done]. intros u d2 Hsf. simpl in Hsf. apply qwp_ret.
    split_and!; [apply Hsf|apply Hsf|]. by eapply repr_weaken; [eapply array_so_far_repr|].
  - apply qwp_bind, qwp_select; [done|]. apply qwp_bind. eapply qwp_mono; [by apply insert_node_qwp| |done].
    intros id d1 Had. pose proof (ad_fresh _ _ _ _ _ Had) as Hf.
    pose proof (λ k c, repr_edge _ _ _ _ k c Hr) as Hedge.
    apply repr_Map in Hr as (_ & _ & Hs & Hb & Hchm).
    assert (map_so_far d (held d) d1 id []) as Hini by (eapply map_so_far_nil; [exact Had|apply grows_refl]).
    set (I (p : list (rstring * Z)) d' := ∃ ws, map_so_far d (held d) d' id ws ∧
      ∀ k w, (k, w) ∈ ws ↔ negb (Predicate_matches predicate w) ∧ bt_get entries k = Some w ∧ k ∈ p.*1).
    apply qwp_bind. eapply qwp_mono; [apply (qwp_for_each _ I (scan old (t_map_edges d)) [])|..|done].
    + intros q [k c] r d2 Hq (ws & Hsf & Hws). simpl in Hq.
      assert ((k, c) ∈ scan old (t_map_edges d)) as Hin by (rewrite Hq; apply elem_of_app; right; by left).
      destruct (Hedge k c Hin) as (w & Hw & Hrw & _).
      assert (k ∉ q.*1) as Hnew.
      { pose proof (NoDup_scan old (t_map_edges d)) as Hnd. rewrite Hq, fmap_app in Hnd.
        apply NoDup_app in Hnd as (_ & Hn & _). intros Hk. apply (Hn k Hk). by left. }
      apply qwp_bind. eapply qwp_reads; [apply keep_child_reads; by eapply spells_grows; [|apply Hsf]|done|].
      intros o ->. destruct (negb (Predicate_matches predicate w)) eqn:Hp.
      * eapply qwp_mono; [apply map_so_far_edge; [done|by apply fresh_not_held| |]| |done].
        -- eapply repr_grows; [by apply spells_held|apply Hsf].
        -- simpl. intros ([k' w'] & -> & Hk')%list_elem_of_fmap. by apply Hws in Hk' as (_ & _ & ?).
        -- intros u d3 Hsf3. simpl in Hsf3. eexists. split; [exact Hsf3|]. intros k' w'. rewrite elem_of_app, Hws, list_elem_of_singleton, fmap_app, elem_of_app.
           simpl. rewrite list_elem_of_singleton. split.
           ++ intros [?|[= -> ->]]; [naive_solver|]. rewrite Hp. split_and!; [done|done|by right].
           ++ intros (Hm & Hg & [?| ->]); [by left|right]. congruence.
      * apply qwp_ret. exists ws. split; [done|]. intros k' w'. rewrite Hws, fmap_app, elem_of_app. simpl.
        rewrite list_elem_of_singleton. split; [naive_solver|]. intros (Hm & Hg & [?| ->]); [done|].
        simplify_eq. by rewrite Hp in Hm.
    + exists []. split; [done|]. intros k w. simpl. split; [by intros ?%not_elem_of_nil|]. by intros (_ & _ & ?%not_elem_of_nil).
    + intros u d2 (ws & Hsf & Hws). apply qwp_ret. split_and!; [apply Hsf|apply Hsf|].
      eapply repr_weaken; [eapply map_so_far_repr; [exact Hsf|by apply sorted_retain|]|done].
      intros k w. rewrite Hws. simpl. split.
      * intros [Hg Hp]%bt_get_retain_Some; [|done]. split_and!; [done|done|].
        destruct (Hchm k w Hg) as (c & Hc & _). apply list_elem_of_fmap. exists (k, c). split; [done|by apply elem_of_scan].
      * intros (Hp & Hg & _). rewrite (bt_get_retain_eq _ _ k w) by done. by apply Is_true_true in Hp as ->.
Qed.

Lemma amend_node_qwp (node : Z) op d target v' :
  linked d → spells d node target → rust_amend op →
  amend_at target None op = Some v' → qwp (amend_node node op) d (builds d v') (λ _, True).
Proof.
  intros Hl Hr Hv Ha. destruct op as [entry|inc|predicate]; simpl in Ha |- *.
  - apply qwp_bind. eapply qwp_mono; [by apply insert_value_builds| |done]. intros e d1 (Hl1 & Hg1 & He).
    eapply built_later; [done|]. by eapply new_array_appending_qwp; [|eapply spells_grows|..].
  - eapply increment_leaf_qwp; [done|done|by apply bool_decide_unpack in Hv|done].
  - by eapply new_container_retaining_qwp.
Qed.

(** ** The path copy *)

(** A terminal does what [f] says of what was there. *)
Definition terminal_does (terminal : option Z → M Conn SqliteError (option Z))
    (f : option Value → option (option Value)) : Prop :=
  ∀ d old oldv r,
  linked d →
  match old, oldv with Some o, Some v => spells d o v | None, None => True | _, _ => False end →
  f oldv = Some r →
  qwp (terminal old) d
    (λ o d', linked d' ∧ grows d d' ∧
      match o, r with Some id, Some v => spells d' id v | None, None => True | _, _ => False end) (λ _, True).

Lemma spells_edge d id entries key :
  spells d id (Value_Map entries) →
  match t_map_edges d !! (id, key), bt_get entries key with
  | Some c, Some w => spells d c w | None, None => True | _, _ => False end.
Proof.
  intros (_ & _ & _ & Hb & Hch)%repr_Map. destruct (bt_get entries key) as [w|] eqn:Hw.
  - destruct (Hch key w Hw) as (c & -> & Hc). done.
  - destruct (t_map_edges d !! (id, key)) eqn:He; [|done]. destruct (Hb key) as [? ?]; [by eexists|]. congruence.
Qed.

Lemma replace_child_qwp (path : list Subkey) terminal f (node : Z) d root root' :
  terminal_does terminal f → linked d → spells d node root → replace_value root path f = Some root' →
  qwp (replace_child node path terminal) d (builds d root') (λ _, True).
Proof.
  intros Hterm. revert node d root root'. induction path as [|s rest IH]; intros node d root root' Hl Hr Hv; [done|].
  cbn [replace_child]. apply qwp_bind. eapply qwp_reads; [by eapply node_kind_reads|done|]. intros k ->.
  destruct root as [s0|n0|b0|items|entries|k0], s as [key|idx]; try done; simpl in Hv |- *.
  - destruct (items !! N.to_nat idx) as [w|] eqn:Hw; simplify_eq/=.
    destruct (spells_items _ _ _ _ _ Hr Hw) as (c & Hc & Hcw). apply lookup_lt_Some in Hw as Hlt.
    apply qwp_bind, qwp_select; [done|]. rewrite N_nat_Z in Hc. rewrite Hc. apply qwp_bind, qwp_ret.
    destruct rest as [|s' rest].
    + destruct (f (Some w)) as [r|] eqn:Hf; simplify_eq/=. apply qwp_bind.
      eapply qwp_mono; [by apply (Hterm d (Some c) (Some w) r)| |done]. intros o d1 (Hl1 & Hg1 & Ho).
      destruct o as [c'|], r as [w'|]; try done.
      * eapply built_later; [done|]. apply new_array_replacing_qwp; [done|by eapply spells_grows|done|done].
      * eapply built_later; [done|]. apply new_array_removing_qwp; [done|by eapply spells_grows|done].
    + destruct (replace_value w (s' :: rest) f) as [w'|] eqn:Hw'; simplify_eq/=. apply qwp_bind.
      eapply qwp_mono; [by eapply (IH c d w w')| |done]. intros c' d1 (Hl1 & Hg1 & Hr1).
      eapply built_later; [done|]. apply new_array_replacing_qwp; [done|by eapply spells_grows|done|done].
  - apply qwp_bind, qwp_select; [done|]. pose proof (spells_edge _ _ _ key Hr) as Hedge. apply qwp_bind.
    destruct rest as [|s' rest].
    + destruct (f (bt_get entries key)) as [r|] eqn:Hf; simplify_eq/=.
      eapply qwp_mono; [by apply (Hterm d _ (bt_get entries key) r)| |done]. intros o d1 (Hl1 & Hg1 & Ho).
      eapply built_later; [done|]. apply (map_replaced_qwp node key o d1 entries r); [done|by eapply spells_grows|done].
    + destruct (bt_get entries key) as [w|]; cbn [mbind option_bind] in Hv; [|done].
      destruct (replace_value w (s' :: rest) f) as [w'|] eqn:Hw'; cbn [mbind option_bind] in Hv; simplify_eq.
      destruct (t_map_edges d !! (node, key)) as [c|]; [|done]. apply qwp_bind.
      eapply qwp_mono; [by eapply (IH c d w w')| |done]. intros c' d1 (Hl1 & Hg1 & Hr1). apply qwp_ret.
      eapply built_later; [done|].
      apply (map_replaced_qwp node key (Some c') d1 entries (Some w')); [done|by eapply spells_grows|done].
Qed.

Lemma set_terminal_does value :
  from_option rust_value true value →
  terminal_does (set_terminal value) (set_target value).
Proof.
  intros Hv d old oldv r Hl Hold Hf. destruct value as [v|]; simplify_eq/=.
  - apply qwp_bind. eapply qwp_mono; [by apply insert_value_builds| |done]. intros id d' (?&?&?). by apply qwp_ret.
  - destruct oldv as [w|], old as [o|]; simplify_eq/=; try done. apply qwp_bind, qwp_ret, qwp_ret.
    split_and!; [done|apply grows_refl|done].
Qed.

Lemma amend_terminal_does op :
  rust_amend op →
  terminal_does (amend_terminal op) (amend_target op).
Proof.
  intros Hv d old oldv r Hl Hold Hf.
  assert (∀ node w v', op = AmendOp_AppendEntry v' ∨ True → old = Some node → oldv = Some w →
    ∀ u, amend_at w None op = Some u → qwp (let! id := amend_node node op in m_ret (Some id)) d
      (λ o d', linked d' ∧ grows d d' ∧ match o with Some id => spells d' id u | None => False end) (λ _, True)) as Hn.
  { intros node w _ _ -> -> u Hu. apply qwp_bind. eapply qwp_mono; [by eapply amend_node_qwp| |done].
    intros id d' (?&?&?). by apply qwp_ret. }
  destruct op as [entry|inc|predicate].
  - simpl in Hf |- *. destruct oldv as [w|], old as [o|]; try done.
    + destruct (append_to entry w) as [u|] eqn:Hu; simplify_eq/=. apply qwp_bind.
      eapply qwp_mono; [by apply insert_value_builds| |done]. intros e d1 (Hl1 & Hg1 & He). apply qwp_bind.
      eapply qwp_mono; [eapply new_array_appending_qwp; [done|by eapply spells_grows|done|done]| |done].
      intros id d2 (Hl2 & Hg2 & Hr2). apply qwp_ret. split_and!; [done|by eapply grows_trans|done].
    + simplify_eq/=. apply qwp_bind.
      eapply qwp_mono; [by apply insert_value_builds| |done]. intros e d1 (Hl1 & Hg1 & He). apply qwp_bind.
      eapply qwp_mono; [by apply insert_node_qwp| |done]. intros id d2 Had.
      pose proof (array_so_far_nil d (held d1) d1 d2 id None Had Hg1) as Hsf. apply qwp_bind.
      eapply qwp_mono; [apply (array_so_far_edge d (held d1) d2 id [] e entry Hsf); [apply fresh_not_held, Had|]| |done].
      { eapply repr_grows; [by apply spells_held|apply Had]. }
      intros u d3 Hsf3. simpl in Hsf3. apply qwp_ret. split_and!; [apply Hsf3|apply Hsf3|].
      by eapply repr_weaken; [eapply array_so_far_repr|].
  - simpl in Hf |- *. destruct oldv as [w|], old as [o|]; try done. simpl in *.
    destruct (increment_target inc w) as [u|] eqn:Hu; simplify_eq/=. apply qwp_bind, qwp_ret.
    eapply qwp_mono; [by apply (Hn o w w (or_intror I) eq_refl eq_refl u)| |done]. intros [id|] d' ?; naive_solver.
  - simpl in Hf |- *. destruct oldv as [w|], old as [o|]; try done. simpl in *.
    destruct (delete_target predicate w) as [u|] eqn:Hu; simplify_eq/=. apply qwp_bind, qwp_ret.
    eapply qwp_mono; [by apply (Hn o w w (or_intror I) eq_refl eq_refl u)| |done]. intros [id|] d' ?; naive_solver.
Qed.
End copy.
