(* ===== verification/SqliteView.v ===== *)
(** * What the tables hold, as a [Store]

    The versions and the log the rows spell, the invariant under which they do
    ([db_ok]), and the methods that only read. *)

From S2P Require Import Prelude BTree Text Codec Externals Keys Subkey Msg Envelope Value Storage Sql.
From S2P Require Import Sqlite SqlLogic SqliteTree SqliteWrite SqliteCopy.

(** ** Rows keyed by a digest *)

Definition blob_digest (blob : list u8) : option EnvelopeDigest := MkEnvelopeDigest <$> array_try_from 32 blob.

Lemma blob_digest_slice d : blob_digest (digest_slice d) = Some d.
Proof. unfold blob_digest, digest_slice. rewrite array_try_from_slice. by destruct d. Qed.

Lemma blob_digest_Some blob d : blob_digest blob = Some d ↔ blob = digest_slice d.
Proof.
  split; [|intros ->; apply blob_digest_slice]. unfold blob_digest, array_try_from. case_decide; [|done].
  simpl. by intros [= <-].
Qed.

#[export] Instance digest_slice_inj : Inj (=) (=) digest_slice.
Proof.
  intros a b Hab. assert (Some a = Some b) as Heq; [|by injection Heq].
  by rewrite <-!blob_digest_slice, Hab.
Qed.

Definition by_digest {A} (rows : list (list u8 * A)) : gmap EnvelopeDigest A :=
  list_to_map (omap (λ row : list u8 * A, (λ d, (d, row.2)) <$> blob_digest row.1) rows).

Lemma by_digest_lookup {A} (rows : list (list u8 * A)) d a :
  NoDup rows.*1 → by_digest rows !! d = Some a ↔ (digest_slice d, a) ∈ rows.
Proof.
  intros Hnd. unfold by_digest. rewrite <-elem_of_list_to_map.
  - rewrite list_elem_of_omap. split.
    + intros ([b x] & Hin & Ho). simpl in Ho. destruct (blob_digest b) as [d'|] eqn:Hd; simplify_eq/=.
      by apply blob_digest_Some in Hd as ->.
    + intros Hin. exists (digest_slice d, a). simpl. by rewrite blob_digest_slice.
  - induction rows as [|[b x] rows IH]; simpl; [constructor|]. simpl in Hnd. apply NoDup_cons in Hnd as [Hnin Hnd].
    destruct (blob_digest b) as [d'|] eqn:Hd; simpl; [|by apply IH]. apply NoDup_cons. split; [|by apply IH].
    intros ([d2 x2] & -> & Hin)%list_elem_of_fmap. simpl in Hd. apply list_elem_of_omap in Hin as ([b2 x3] & Hin & Ho).
    simpl in Ho. destruct (blob_digest b2) as [d3|] eqn:Hd2; simplify_eq/=. apply Hnin.
    apply blob_digest_Some in Hd as ->. apply blob_digest_Some in Hd2 as ->. apply list_elem_of_fmap.
    by eexists (_, _).
Qed.

Lemma by_digest_None {A} (rows : list (list u8 * A)) d :
  NoDup rows.*1 → by_digest rows !! d = None ↔ ∀ a, (digest_slice d, a) ∉ rows.
Proof.
  intros Hnd. split.
  - intros Hn a Hin. apply by_digest_lookup in Hin; [|done]. congruence.
  - intros Hn. destruct (by_digest rows !! d) as [a|] eqn:Ha; [|done]. apply by_digest_lookup in Ha; [|done].
    by destruct (Hn a).
Qed.

Lemma StronglySorted_omap {A B} (R : A → A → Prop) (S : B → B → Prop) (f : A → option B) l :
  (∀ x y a b, f x = Some a → f y = Some b → R x y → S a b) → StronglySorted R l → StronglySorted S (omap f l).
Proof.
  intros Hf. induction 1 as [|x l Hs IH Hall]; simpl; [constructor|].
  destruct (f x) as [a|] eqn:Ha; [|done]. constructor; [done|]. apply Forall_forall.
  intros b (y & Hy & Hb)%list_elem_of_omap. rewrite Forall_forall in Hall. by eapply Hf; [..|apply Hall].
Qed.

Lemma NamespaceKey_try_new_iff (k : rstring) key : NamespaceKey_try_new k = Some key ↔ k = NamespaceKey_as_ref key.
Proof.
  unfold NamespaceKey_try_new, NamespaceKey_as_ref. split.
  - case_decide; [|done]. by intros [= <-].
  - intros ->. case_decide as Hd; [f_equal; by apply dsig_eq|].
    destruct key as [k Hk]. destruct (bool_decide_unpack _ Hk Hd).
Qed.

Section view.
Context `{Externals, Rusqlite, !StoredDecode}.
Implicit Types (d : Db) (h : list u8).

(** ** Versions *)

Definition version_at d h : list (NamespaceKey * Namespace) :=
  omap (λ kr : rstring * Z,
    key ← NamespaceKey_try_new kr.1; value ← root_value d kr.2; Some (key, MkNamespace value))
    (scan_by h (t_version_namespaces d)).

Definition row_envelope (row : EnvelopeRow) : option Envelope :=
  match decode_envelope (row_bytes row), status_from (row_status row) (row_weight row) (row_bad_keys row) with
  | Ok e, Ok status => Some (set_verification_status e status)
  | _, _ => None
  end.

Definition db_view d : Store :=
  MkStore
    (by_digest (map (λ h, (h, version_at d h)) (elements (t_versions d))))
    (by_digest (omap (λ row : list u8 * EnvelopeRow, (λ e, (row.1, e)) <$> row_envelope row.2)
      (map_to_list (t_envelopes d)))).

(** ** The invariant *)

(** A row the log can be read back from. *)
Definition row_ok (row : EnvelopeRow) : Prop :=
  (∃ e, row_envelope row = Some e ∧ row_prev row = digest_slice <$> prev_of e) ∧
  ∃ at_, from_timestamp_millis (row_stored_at row) = Some at_ ∧ timestamp_millis at_ = row_stored_at row.

Record db_ok d : Prop := {
  ok_linked : linked d;
  ok_roots h k r : t_version_namespaces d !! (h, k) = Some r → k ≠ [] ∧ ∃ v, spells d r v;
  ok_rows b row : t_envelopes d !! b = Some row → is_Some (blob_digest b) ∧ row_ok row;
}.

Lemma elem_of_version_at d h key n :
  (key, n) ∈ version_at d h ↔
  ∃ r v, t_version_namespaces d !! (h, NamespaceKey_as_ref key) = Some r ∧ root_value d r = Some v ∧ n = MkNamespace v.
Proof.
  unfold version_at. rewrite list_elem_of_omap. split.
  - intros ([k r] & Hin%elem_of_scan_by & Ho). simpl in Ho.
    destruct (NamespaceKey_try_new k) as [key'|] eqn:Hk; simplify_eq/=.
    destruct (root_value d r) as [v|] eqn:Hv; simplify_eq/=.
    apply NamespaceKey_try_new_iff in Hk as ->. by exists r, v.
  - intros (r & v & Hr & Hv & ->). exists (NamespaceKey_as_ref key, r). split; [by apply elem_of_scan_by|]. simpl.
    rewrite (proj2 (NamespaceKey_try_new_iff _ key) eq_refl). simpl. by rewrite Hv.
Qed.

Lemma version_at_sorted d h : bt_sorted (version_at d h).
Proof.
  unfold version_at. eapply StronglySorted_omap; [|apply sorted_from_iter].
  intros [k r] [k' r'] [key n] [key' n'] Ha Hb Hlt. simpl in *.
  destruct (NamespaceKey_try_new k) as [?|] eqn:Hk; simplify_eq/=.
  destruct (NamespaceKey_try_new k') as [?|] eqn:Hk'; simplify_eq/=.
  destruct (root_value d r); simplify_eq/=. destruct (root_value d r'); simplify_eq/=.
  apply NamespaceKey_try_new_iff in Hk as ->. apply NamespaceKey_try_new_iff in Hk' as ->. exact Hlt.
Qed.

(** A namespace of a version, by its root. *)
Lemma version_at_get d h key :
  db_ok d →
  match t_version_namespaces d !! (h, NamespaceKey_as_ref key) with
  | Some r => ∃ v, spells d r v ∧ bt_get (version_at d h) key = Some (MkNamespace v)
  | None => bt_get (version_at d h) key = None
  end.
Proof.
  intros Hok. destruct (t_version_namespaces d !! _) as [r|] eqn:Hr.
  - destruct (ok_roots d Hok _ _ _ Hr) as [_ [v Hv]]. exists v. split; [done|].
    apply bt_sorted_elem_get; [apply version_at_sorted|]. apply elem_of_version_at. exists r, v.
    split_and!; [done| |done]. by eapply root_value_repr.
  - destruct (bt_get (version_at d h) key) as [n|] eqn:Hn; [|done].
    apply bt_get_elem, elem_of_version_at in Hn as (r & v & Hr' & _). congruence.
Qed.

(** A version is the map its roots spell. *)
Lemma version_at_ext d d' h h' :
  (∀ key r, t_version_namespaces d' !! (h', NamespaceKey_as_ref key) = Some r ↔
    t_version_namespaces d !! (h, NamespaceKey_as_ref key) = Some r) →
  (∀ key r, t_version_namespaces d !! (h, NamespaceKey_as_ref key) = Some r → root_value d' r = root_value d r) →
  version_at d' h' = version_at d h.
Proof.
  intros Hk Hr. apply bt_elem_ext; [apply version_at_sorted..|]. intros [key n].
  rewrite !elem_of_version_at. split; intros (r & v & Hl & Hv & ->).
  - exists r, v. apply Hk in Hl. split_and!; [done|by rewrite <-(Hr key)|done].
  - exists r, v. split_and!; [by apply Hk|by rewrite (Hr key)|done].
Qed.

Lemma view_versions d (h : EnvelopeDigest) :
  versions (db_view d) !! h =
    if decide (digest_slice h ∈ t_versions d) then Some (version_at d (digest_slice h)) else None.
Proof.
  assert (NoDup (map (λ h, (h, version_at d h)) (elements (t_versions d))).*1) as Hnd.
  { rewrite <-list_fmap_compose. rewrite (list_fmap_ext _ id); [|done]. rewrite list_fmap_id. apply NoDup_elements. }
  case_decide as Hin.
  - apply by_digest_lookup; [done|]. apply list_elem_of_fmap. exists (digest_slice h). split; [done|by apply elem_of_elements].
  - apply by_digest_None; [done|]. intros a (h' & [= <- _] & Hh)%list_elem_of_fmap. by apply elem_of_elements in Hh.
Qed.

Lemma view_log_Some d dg e :
  log (db_view d) !! dg = Some e ↔ ∃ row, t_envelopes d !! digest_slice dg = Some row ∧ row_envelope row = Some e.
Proof.
  simpl. rewrite by_digest_lookup.
  - rewrite list_elem_of_omap. split.
    + intros ([b row] & Hin%elem_of_map_to_list & Ho). simpl in Ho.
      destruct (row_envelope row) as [e'|] eqn:He; simplify_eq/=. by exists row.
    + intros (row & Hrow & He). exists (digest_slice dg, row). split; [by apply elem_of_map_to_list|]. simpl. by rewrite He.
  - pose proof (NoDup_fst_map_to_list (t_envelopes d)) as Hnd.
    induction (map_to_list (t_envelopes d)) as [|[b row] l IH]; simpl; [constructor|].
    simpl in Hnd. apply NoDup_cons in Hnd as [Hnin Hnd].
    destruct (row_envelope row); simpl; [|by apply IH]. apply NoDup_cons. split; [|by apply IH].
    intros ([b2 e2] & -> & Hin)%list_elem_of_fmap. apply list_elem_of_omap in Hin as ([b3 row3] & Hin & Ho).
    simpl in Ho. destruct (row_envelope row3); simplify_eq/=. apply Hnin, list_elem_of_fmap. by exists (b2, row3).
Qed.

(** On a store in order every row is an envelope of the log. *)
Lemma view_log d dg :
  db_ok d → log (db_view d) !! dg = t_envelopes d !! digest_slice dg ≫= row_envelope.
Proof.
  intros Hok. apply option_eq. intros e. rewrite view_log_Some.
  destruct (t_envelopes d !! digest_slice dg) as [row|]; simpl; naive_solver.
Qed.

(** ** Reading a version *)

Lemma version_exists_reads d (h : EnvelopeDigest) :
  qreads (version_exists h) d (λ b, b = bool_decide (is_Some (versions (db_view d) !! h))).
Proof.
  apply qwp_select; [done|]. split; [done|]. rewrite view_versions. apply bool_decide_ext. case_decide; naive_solver.
Qed.

Lemma view_version_Some d (h : EnvelopeDigest) ver :
  versions (db_view d) !! h = Some ver ↔ digest_slice h ∈ t_versions d ∧ ver = version_at d (digest_slice h).
Proof. rewrite view_versions. case_decide; naive_solver. Qed.

Lemma namespace_root_reads d (h : EnvelopeDigest) key ver :
  db_ok d → versions (db_view d) !! h = Some ver →
  qreads (namespace_root h key) d (λ o,
    match o with
    | Some r => ∃ v, spells d r v ∧ bt_get ver key = Some (MkNamespace v)
    | None => bt_get ver key = None
    end).
Proof.
  intros Hok Hver. pose proof Hver as [Hin ->]%view_version_Some. unfold namespace_root. apply qreads_select_bind.
  pose proof (version_at_get d (digest_slice h) key Hok) as Hget.
  destruct (t_version_namespaces d !! _) as [r|]; [by apply qreads_ret|].
  eapply qreads_bind; [apply version_exists_reads|]. intros b ->. rewrite Hver. simpl.
  apply (qreads_bind _ _ _ (λ _, True)); [by apply qreads_ret|]. intros u _. by apply qreads_ret.
Qed.

Lemma walk_nodes_reads d (path : list Subkey) node ov :
  match node, ov with Some id, Some v => spells d id v | None, None => True | _, _ => False end →
  qreads (walk_nodes node path) d (λ o,
    match o, ov ≫= λ v, walk v path with Some id, Some v => spells d id v | None, None => True | _, _ => False end).
Proof.
  revert node ov. induction path as [|s path IH]; intros node ov Hn; simpl.
  - apply qreads_ret. by destruct ov.
  - eapply (qreads_bind _ _ _ (λ o, match o, ov ≫= λ v, value_step v s with
      Some id, Some v => spells d id v | None, None => True | _, _ => False end)).
    + destruct node as [id|], ov as [v|]; try done.
      eapply qreads_bind; [by eapply node_kind_reads|]. intros k ->.
      destruct v as [s0|n0|b0|items|entries|k0], s as [key|idx]; simpl; try by apply qreads_ret.
      * apply qwp_select; [done|]. split; [done|]. rewrite <-N_nat_Z.
        destruct (items !! N.to_nat idx) as [w|] eqn:Hw.
        -- destruct (spells_items _ _ _ _ _ Hn Hw) as (c & -> & Hc). done.
        -- destruct (t_array_edges d !! _) eqn:He; [|done]. pose proof (spells_bound _ _ _ _ _ Hn He).
           apply lookup_ge_None in Hw. lia.
      * apply qwp_select; [done|]. split; [done|]. pose proof (spells_edge _ _ _ key Hn).
        destruct (t_map_edges d !! _), (bt_get entries key); done.
    + intros o Ho. eapply qreads_mono; [by apply (IH o (ov ≫= λ v, value_step v s))|]. intros o' Ho'.
      destruct ov as [v|]; simpl in *; [|done]. by rewrite walk_cons.
Qed.

Lemma resolve_nodes_reads d (path : list Subkey) depth id v :
  spells d id v → qreads (resolve_nodes depth id path) d (λ r, r = resolve_from depth v path).
Proof.
  revert depth id v. induction path as [|s path IH]; intros depth id v Hr; simpl;
    (eapply qreads_bind; [by eapply node_kind_reads|]; intros k ->).
  - by apply qreads_ret.
  - destruct v as [s0|n0|b0|items|entries|k0], s as [key|idx]; simpl; try by apply qreads_ret.
    + apply qreads_select_bind. rewrite <-N_nat_Z. destruct (items !! N.to_nat idx) as [w|] eqn:Hw.
      * destruct (spells_items _ _ _ _ _ Hr Hw) as (c & -> & Hc). by apply IH.
      * destruct (t_array_edges d !! _) eqn:He; [|by apply qreads_ret]. pose proof (spells_bound _ _ _ _ _ Hr He).
        apply lookup_ge_None in Hw. lia.
    + apply qreads_select_bind. pose proof (spells_edge _ _ _ key Hr).
      destruct (t_map_edges d !! _), (bt_get entries key); try done; by apply IH.
Qed.

Lemma walk_tree_reads d (h : EnvelopeDigest) key path ver :
  db_ok d → versions (db_view d) !! h = Some ver →
  qreads (walk_tree h key path) d (λ o,
    match o, bt_get ver key ≫= λ n, walk (ns_value n) path with
    | Some id, Some v => spells d id v | None, None => True | _, _ => False end).
Proof.
  intros Hok Hver. eapply qreads_bind; [by apply namespace_root_reads|]. intros [r|] Hr.
  - destruct Hr as (v & Hv & ->). simpl. by apply (walk_nodes_reads d path (Some r) (Some v)).
  - rewrite Hr. by apply qreads_ret.
Qed.

Lemma at_node_reads {A} d (f : Z → M Conn SqliteError A) (g : Value → A) node ov :
  (∀ id v, spells d id v → qreads (f id) d (λ a, a = g v)) →
  match node, ov with Some id, Some v => spells d id v | None, None => True | _, _ => False end →
  qreads (at_node f node) d (λ o, o = g <$> ov).
Proof.
  intros Hf Hn. destruct node as [id|], ov as [v|]; try done.
  simpl. eapply qreads_bind; [by apply Hf|]. intros a ->. by apply qreads_ret.
Qed.

(** ** Reading the log *)

Lemma entry_of_reads d row e :
  row_ok row → row_envelope row = Some e →
  qreads (entry_of row) d (λ entry, le_envelope entry = e ∧ timestamp_millis (le_stored_at entry) = row_stored_at row).
Proof.
  intros [_ (at_ & Hat & Hms)] He. unfold row_envelope in He. unfold entry_of.
  destruct (decode_envelope (row_bytes row)) as [e0|] eqn:He0; [|done].
  destruct (status_from _ _ _) as [st|] eqn:Hst; [|done]. simplify_eq.
  apply qwp_bind. eapply qwp_coded_Ok; [done|]. apply qwp_bind, qwp_lift_Ok, qwp_bind. rewrite Hat.
  by apply qwp_lift_Ok, qwp_ret.
Qed.
End view.

(** * The reads *)

Section reads.
Context `{Externals, Rusqlite, !StoredDecode}.
Implicit Types (d : Db) (h p : EnvelopeDigest).

(** ** Namespaces *)

Lemma sqlite_resolve_reads d h key (path : list Subkey) ver :
  db_ok d → versions (db_view d) !! h = Some ver →
  qreads (sqlite_resolve h key path) d (λ r, r = (λ n, value_resolve (ns_value n) path) <$> bt_get ver key).
Proof.
  intros Hok Hver. eapply qreads_bind; [by apply namespace_root_reads|]. intros [r|] Hr; [|rewrite Hr; by apply qreads_ret].
  destruct Hr as (v & Hv & ->). eapply qreads_bind; [by eapply resolve_nodes_reads|]. intros ? ->. by apply qreads_ret.
Qed.

Lemma sqlite_value_at_reads d h key (path : list Subkey) ver :
  db_ok d → versions (db_view d) !! h = Some ver →
  qreads (sqlite_value_at h key path) d (λ r, r = bt_get ver key ≫= λ n, walk (ns_value n) path).
Proof.
  intros Hok Hver. eapply qreads_bind; [by apply walk_tree_reads|]. intros o Ho.
  eapply qreads_mono; [apply (at_node_reads d _ id o _ (λ id v, value_at_node_reads _ d id v) Ho)|].
  intros r ->. by destruct (_ ≫= _).
Qed.

Lemma scan_map_keys d id entries :
  spells d id (Value_Map entries) → bt_keys (scan_by id (t_map_edges d)) = bt_keys entries.
Proof.
  intros Hr. pose proof Hr as (_ & _ & Hs & _)%repr_Map.
  apply bt_keys_ext; [apply sorted_from_iter|done|]. intros k. pose proof (spells_edge _ _ _ k Hr) as Hk.
  unfold bt_keys. rewrite !list_elem_of_fmap. split.
  - intros ([k' c] & -> & Hc%elem_of_scan_by). simpl in *. rewrite Hc in Hk.
    destruct (bt_get entries k') as [w|] eqn:Hw; [|done]. exists (k', w). split; [done|by apply bt_get_elem].
  - intros ([k' w] & -> & Hw%bt_sorted_elem_get); [|done]. simpl in *. rewrite Hw in Hk.
    destruct (t_map_edges d !! (id, k')) as [c|] eqn:Hc; [|done]. exists (k', c). split; [done|by apply elem_of_scan_by].
Qed.

Lemma scan_array_length d id items :
  spells d id (Value_Array items) → length (scan id (t_array_edges d)) = length items.
Proof.
  intros [Hch _]%repr_children. apply Forall2_length in Hch. rewrite length_fmap in Hch. by rewrite scan_by_length.
Qed.

Lemma sqlite_meta_at_reads d h key (path : list Subkey) ver :
  db_ok d → versions (db_view d) !! h = Some ver →
  qreads (sqlite_meta_at h key path) d (λ r, r = bt_get ver key ≫= λ n, meta <$> walk (ns_value n) path).
Proof.
  intros Hok Hver. eapply qreads_bind; [by apply walk_tree_reads|]. intros o Ho.
  eapply qreads_mono; [apply (at_node_reads d _ meta o (bt_get ver key ≫= λ n, walk (ns_value n) path)); [|exact Ho]|].
  - intros id v Hv. eapply qreads_bind; [by eapply node_kind_reads|]. intros k ->.
    destruct v; simpl; try by apply qreads_ret.
    + apply qreads_select_bind, qreads_ret. f_equal. rewrite (scan_array_length _ _ _ Hv). lia.
    + apply qreads_select_bind, qreads_ret. f_equal. by apply scan_map_keys.
  - intros r ->. by destruct (bt_get ver key).
Qed.

Lemma sqlite_namespace_reads d h key ver :
  db_ok d → versions (db_view d) !! h = Some ver → qreads (sqlite_namespace h key) d (λ r, r = bt_get ver key).
Proof.
  intros Hok Hver. eapply qreads_bind; [by apply namespace_root_reads|]. intros o Ho.
  eapply qreads_mono; [apply (at_node_reads d _ MkNamespace o (ns_value <$> bt_get ver key))|].
  - intros id v Hv. eapply qreads_bind; [by eapply value_at_node_reads|]. intros ? ->. by apply qreads_ret.
  - destruct o as [r|]; [destruct Ho as (v & Hv & ->)|rewrite Ho]; done.
  - intros r ->. by destruct (bt_get ver key) as [[v]|].
Qed.

(** Every root of a version, by its key. *)
Lemma namespace_roots_reads d h ver :
  db_ok d → versions (db_view d) !! h = Some ver →
  qreads (namespace_roots h) d (λ l,
    Forall2 (λ kr kn, kr.1 = kn.1 ∧ spells d kr.2 (ns_value kn.2)) l ver).
Proof.
  intros Hok Hver. unfold namespace_roots. apply qreads_select_bind.
  apply (qreads_bind _ _ _ (λ _, True)).
  { destruct (scan_by _ _); [|by apply qreads_ret]. eapply qreads_bind; [apply version_exists_reads|].
    intros b ->. rewrite Hver. simpl. by apply qreads_ret. }
  intros u _.
  eapply qreads_mono; [apply (qreads_collect _ (λ kr r : _ * Z, kr.1 = NamespaceKey_as_ref r.1 ∧ kr.2 = r.2))|].
  - intros [k r] Hin%elem_of_scan_by. simpl. destruct (ok_roots d Hok _ _ _ Hin) as [Hk _].
    eapply (qreads_bind _ _ _ (λ key, k = NamespaceKey_as_ref key)).
    + unfold key_from. destruct (NamespaceKey_try_new k) as [key|] eqn:Hkey.
      * apply NamespaceKey_try_new_iff in Hkey. by apply qwp_lift_Ok.
      * unfold NamespaceKey_try_new in Hkey. by case_decide.
    + intros key Hkey. by apply qreads_ret.
  - intros l Hl. apply view_version_Some in Hver as [_ ->]. unfold version_at.
    assert (∀ kr, kr ∈ scan_by (digest_slice h) (t_version_namespaces d) → ∃ v, spells d kr.2 v) as Hsp.
    { intros [k r] Hin%elem_of_scan_by. by destruct (ok_roots d Hok _ _ _ Hin) as [_ ?]. }
    induction Hl as [|[k r] [key r'] ? ? [Hk Hr] Hl IH]; simpl; [constructor|]. simpl in Hk, Hr. subst k r'.
    rewrite (proj2 (NamespaceKey_try_new_iff _ key) eq_refl). simpl.
    destruct (Hsp _ ltac:(by left)) as [v Hv]. simpl in Hv. rewrite (root_value_repr _ _ _ _ Hv). simpl.
    constructor; [done|]. apply IH. intros kr Hin. apply Hsp. by right.
Qed.

(** What is read over the roots, failures kept, collects into a value each. *)
Lemma over_roots_reads {A} (f : NamespaceKey * Z → M Conn SqliteError A) (g : NamespaceKey * Namespace → A) d h ver :
  (∀ key r n, spells d r (ns_value n) → qreads (f (key, r)) d (λ a, a = g (key, n))) →
  db_ok d → versions (db_view d) !! h = Some ver →
  qreads (over_roots f h) d (λ l, (collect l = Ok (map g ver) ∨ ∃ e, collect l = Err e) ∧ ∀ a, Ok a ∈ l → a ∈ map g ver).
Proof.
  intros Hf Hok Hver. unfold over_roots.
  eapply (qreads_bind _ _ _ (λ r, match r with
    Ok l => Forall2 (λ kr kn, kr.1 = kn.1 ∧ spells d kr.2 (ns_value kn.2)) l ver | Err _ => True end)).
  { intros c Hc. apply wp_catch. eapply wp_mono; [apply (namespace_roots_reads d h ver Hok Hver c Hc)|..]; naive_solver. }
  intros [l|e] Hl; [|apply qreads_ret; split; [right; by eexists|by intros a Ha%list_elem_of_singleton]].
  eapply qreads_mono; [apply (qreads_results f (λ kr a, ∀ n, spells d kr.2 (ns_value n) → a = g (kr.1, n)))|].
  - intros [k r] Hin. apply list_elem_of_lookup in Hin as [i Hi].
    destruct (Forall2_lookup_l _ _ _ _ _ Hl Hi) as ([k' n] & _ & Hk & Hn). simpl in *. subst k'.
    eapply qreads_mono; [by apply Hf|]. intros a -> n' Hn'. do 2 f_equal.
    destruct n as [v], n' as [v']. f_equal. by eapply repr_functional.
  - intros r [Hr Hin]. cbn beta in Hr, Hin. split.
    2: { intros a Ha. destruct (Hin a Ha) as ([k r'] & Hkr & Hg). apply list_elem_of_lookup in Hkr as [i Hi].
      destruct (Forall2_lookup_l _ _ _ _ _ Hl Hi) as ([k' n] & Hi' & Hk & Hn). simpl in *. subst k'.
      apply list_elem_of_fmap. exists (k, n). split; [by apply Hg|by eapply list_elem_of_lookup_2]. }
    destruct (collect r) as [bs|e]; [left|right; by eexists]. f_equal. clear Hin.
    clear Hf Hok Hver. revert bs Hr. induction Hl as [|[k r'] [k' n] ? ? [Hk Hn] Hl IH]; intros bs Hr.
    + by apply Forall2_nil_inv_l in Hr.
    + apply Forall2_cons_inv_l in Hr as (a & bs' & Ha & Hr & ->). simpl in *. subst k'.
      by rewrite (Ha n Hn), (IH bs' Hr).
Qed.

Lemma sqlite_namespaces_reads d h ver :
  db_ok d → versions (db_view d) !! h = Some ver →
  qreads (sqlite_namespaces h) d (λ l, collect l = Ok ver ∨ ∃ e, collect l = Err e).
Proof.
  intros Hok Hver. eapply qreads_mono; [apply (over_roots_reads _ id); [|done|done]|].
  - intros key r [v] Hr. eapply qreads_bind; [by eapply value_at_node_reads|]. intros ? ->. by apply qreads_ret.
  - intros l [Hl _]. by rewrite list_fmap_id in Hl.
Qed.

Lemma sqlite_namespace_keys_reads d h ver :
  db_ok d → versions (db_view d) !! h = Some ver →
  qreads (sqlite_namespace_keys h) d (λ l, ∀ key, Ok key ∈ l → key ∈ bt_keys ver).
Proof.
  intros Hok Hver. eapply qreads_mono; [apply (over_roots_reads _ fst); [|done|exact Hver]|by intros l [_ Hin]].
  intros key r n _. by apply qreads_ret.
Qed.

(** ** The log *)

Lemma ok_row d (dg : EnvelopeDigest) row :
  db_ok d → t_envelopes d !! digest_slice dg = Some row →
  ∃ e, row_envelope row = Some e ∧ log (db_view d) !! dg = Some e ∧ row_prev row = digest_slice <$> prev_of e.
Proof.
  intros Hok Hrow. destruct (ok_rows d Hok _ _ Hrow) as [_ [(e & He & Hp) _]]. exists e.
  by rewrite view_log, Hrow.
Qed.

Lemma sqlite_logged_envelope_reads d (dg : EnvelopeDigest) :
  db_ok d →
  qreads (sqlite_logged_envelope dg) d (λ r, le_envelope <$> r = log (db_view d) !! dg ∧
    (λ entry, timestamp_millis (le_stored_at entry)) <$> r = row_stored_at <$> t_envelopes d !! digest_slice dg).
Proof.
  intros Hok. unfold sqlite_logged_envelope. apply qreads_select_bind. rewrite view_log by done.
  destruct (t_envelopes d !! digest_slice dg) as [row|] eqn:Hrow; [|by apply qreads_ret].
  destruct (ok_row d dg row Hok Hrow) as (e & He & _). destruct (ok_rows d Hok _ _ Hrow) as [_ Hr].
  eapply qreads_bind; [by eapply entry_of_reads|]. intros entry [Ha Hb]. apply qreads_ret. simpl. by rewrite He, Ha, Hb.
Qed.

Lemma sqlite_parent_reads d (dg : EnvelopeDigest) :
  db_ok d → qreads (sqlite_parent dg) d (λ r, r = log (db_view d) !! dg ≫= prev_of).
Proof.
  intros Hok. unfold sqlite_parent. apply qreads_select_bind. rewrite view_log by done.
  destruct (t_envelopes d !! digest_slice dg) as [row|] eqn:Hrow; [|by apply qreads_ret].
  destruct (ok_row d dg row Hok Hrow) as (e & He & _ & Hp). simpl. rewrite He, Hp. simpl.
  destruct (prev_of e) as [p|]; simpl; [|by apply qreads_ret].
  apply qwp_bind. unfold digest_from, digest_slice. rewrite array_try_from_slice.
  apply qwp_lift_Ok, qwp_ret. split; [done|]. by destruct p.
Qed.

Lemma elem_of_rows_under (prev b : list u8) (t : gmap (list u8) EnvelopeRow) :
  b ∈ rows_under prev t ↔ ∃ row, t !! b = Some row ∧ row_prev row = Some prev.
Proof.
  unfold rows_under, bt_keys.
  set (l := omap _ _).
  assert (∀ b u, (b, u) ∈ l ↔ ∃ row, t !! b = Some row ∧ row_prev row = Some prev) as Hl.
  { intros b' []. unfold l. rewrite list_elem_of_omap. split.
    - intros ([b2 row] & Hin%elem_of_map_to_list & Ho). simpl in Ho. case_decide; simplify_eq. by exists row.
    - intros (row & Hrow & Hp). exists (b', row). simpl. rewrite decide_True by done. split; [|done].
      by apply elem_of_map_to_list. }
  assert (NoDup l.*1) as Hnd.
  { unfold l. clear. pose proof (NoDup_fst_map_to_list t) as Hnd.
    induction (map_to_list t) as [|[b row] r IH]; simpl; [constructor|].
    simpl in Hnd. apply NoDup_cons in Hnd as [Hnin Hnd]. case_decide; simpl; [|by apply IH].
    apply NoDup_cons. split; [|by apply IH]. intros ([b2 []] & -> & Hin)%list_elem_of_fmap.
    apply list_elem_of_omap in Hin as ([b3 row3] & Hin & Ho). simpl in Ho. case_decide; simplify_eq.
    apply Hnin, list_elem_of_fmap. by eexists (_, row3). }
  rewrite list_elem_of_fmap. split.
  - intros ([b' u] & -> & Hin). rewrite bt_from_iter_Permutation in Hin by done. by apply Hl in Hin.
  - intros Hrow. exists (b, ()). split; [done|]. rewrite bt_from_iter_Permutation by done. by apply Hl.
Qed.

Lemma collect_digests (l : list (list u8)) :
  Forall (λ b, is_Some (blob_digest b)) l →
  ∃ ds : list EnvelopeDigest, collect (map digest_from l) = Ok ds ∧ l = map digest_slice ds.
Proof.
  induction 1 as [|b l [dg Hdg] _ (ds & Hc & ->)]; [by exists []|]. exists (dg :: ds).
  apply blob_digest_Some in Hdg as ->. simpl. unfold digest_from at 1, digest_slice at 1.
  rewrite array_try_from_slice, Hc. by destruct dg.
Qed.

Lemma sqlite_children_reads d p :
  db_ok d →
  qreads (sqlite_children p) d (λ l,
    (∃ ds, collect l = Ok ds ∧ StronglySorted (λ a b, cmp a b = Lt) ds ∧ ∀ dg, dg ∈ ds ↔ child_of (db_view d) p dg) ∨
    ∃ e, collect l = Err e).
Proof.
  intros Hok. unfold sqlite_children.
  set (rows := rows_under (digest_slice p) (t_envelopes d)).
  assert (Forall (λ b, is_Some (blob_digest b)) rows) as Hd.
  { apply Forall_forall. intros b (row & Hrow & _)%elem_of_rows_under. by apply (ok_rows d Hok) in Hrow as [? _]. }
  apply collect_digests in Hd as (ds & Hc & Hds).
  assert (StronglySorted (λ a b, cmp a b = Lt) rows) as Hs.
  { unfold rows, rows_under, bt_keys. pose proof (sorted_from_iter (omap (λ row : list u8 * EnvelopeRow,
      if decide (row_prev row.2 = Some (digest_slice p)) then Some (row.1, ()) else None) (map_to_list (t_envelopes d)))) as Hs.
    induction Hs as [|x l Hs IH Hall]; simpl; constructor; [done|]. apply Forall_map. exact Hall. }
  apply (qreads_bind _ _ _ (λ r, match r with Ok ds' => ds' = ds | Err _ => True end)).
  { intros c Hc'. apply wp_catch. eapply wp_mono.
    - apply (qreads_select_bind (λ d, rows_under (digest_slice p) (t_envelopes d)) _ d (λ r, r = ds)); [|done].
      fold rows. rewrite Hc. by apply qwp_lift_Ok.
    - naive_solver.
    - naive_solver. }
  intros [ds'|e] Hr; [subst ds'|apply qreads_ret; right; by eexists]. apply qreads_ret. left. exists ds.
  rewrite collect_Ok. split_and!; [done| |].
  - rewrite Hds in Hs. clear -Hs. induction ds as [|a ds IH]; [constructor|]. simpl in Hs.
    apply StronglySorted_inv in Hs as [Hs Hall]. constructor; [by apply IH|]. by apply Forall_map in Hall.
  - intros dg. rewrite <-(list_elem_of_fmap_inj digest_slice).
    change (digest_slice <$> ds) with (map digest_slice ds). rewrite <-Hds. unfold rows. rewrite elem_of_rows_under.
    unfold child_of. setoid_rewrite view_log; [|done]. split.
    + intros (row & Hrow & Hp). rewrite Hrow. simpl. destruct (ok_row d dg row Hok Hrow) as (e & He & _ & Hpe).
      exists e. split; [done|]. rewrite Hp in Hpe. destruct (prev_of e); by simplify_eq/=.
    + intros (e & He & Hp). destruct (t_envelopes d !! digest_slice dg) as [row|] eqn:Hrow; [|done].
      destruct (ok_row d dg row Hok Hrow) as (e' & He' & _ & Hpe). simpl in He. simplify_eq. exists row.
      split; [done|]. by rewrite Hpe, Hp.
Qed.
End reads.
