(* ===== verification/SqliteStore.v ===== *)
(** * The writes of the SQLite backend

    Every [&mut self] method of [Sqlite] against the [Store] the tables spell:
    what it leaves where it succeeds, and that it leaves the tables as they were
    where it fails. *)

From S2P Require Import Prelude BTree Text Codec Externals Keys Subkey Msg Envelope Value Storage Sql.
From S2P Require Import Sqlite SqlLogic SqliteTree SqliteWrite SqliteCopy SqliteView.

(** ** Changes of the tables, and the store they spell *)

Section tables.
Context `{Externals, Rusqlite, !StoredDecode}.
Implicit Types (d : Db) (h : EnvelopeDigest).

(** The tables trees are kept in, and the log's. *)
Definition same_trees d d' : Prop :=
  t_nodes d' = t_nodes d ∧ t_map_edges d' = t_map_edges d ∧ t_array_edges d' = t_array_edges d.

Lemma same_trees_agree d d' i : same_trees d d' → agree d d' i.
Proof. intros (Hn & Hm & Ha). unfold agree. by rewrite Hn, Hm, Ha. Qed.

Lemma same_trees_spells d d' id v : same_trees d d' → spells d id v → spells d' id v.
Proof. intros Hs Hr. apply (repr_agree _ _ d d' id v Hr). intros i _ _. split; [by apply same_trees_agree|done]. Qed.

Lemma same_trees_linked d d' : same_trees d d' → linked d → linked d'.
Proof. intros (Hn & Hm & Ha) [Lm La]. split; rewrite Hn; [rewrite Hm|rewrite Ha]; done. Qed.

Lemma db_view_eq d d' (vs : gmap EnvelopeDigest (list (NamespaceKey * Namespace))) :
  t_envelopes d' = t_envelopes d → (∀ h, versions (db_view d') !! h = vs !! h) →
  db_view d' = MkStore vs (log (db_view d)).
Proof.
  intros He Hv. unfold db_view at 1. rewrite He. f_equal. apply map_eq. intros h. by rewrite <-Hv.
Qed.

(** The version table is changed at one head. *)
Lemma reversion d d' h :
  db_ok d → same_trees d d' → t_envelopes d' = t_envelopes d →
  t_versions d' = {[digest_slice h]} ∪ t_versions d →
  (∀ b k, b ≠ digest_slice h → t_version_namespaces d' !! (b, k) = t_version_namespaces d !! (b, k)) →
  (∀ k r, t_version_namespaces d' !! (digest_slice h, k) = Some r → k ≠ [] ∧ ∃ v, spells d r v) →
  db_ok d' ∧ db_view d' = store_set_version h (version_at d' (digest_slice h)) (db_view d).
Proof.
  intros Hok Hs He Hv Hother Hthis. split.
  - split; [by eapply same_trees_linked; [|apply Hok]| |rewrite He; apply Hok].
    intros b k r Hr. destruct (decide (b = digest_slice h)) as [->|Hb].
    + destruct (Hthis k r Hr) as (Hk & v & Hsp). split; [done|]. exists v. by apply (same_trees_spells d).
    + rewrite Hother in Hr by done. destruct (ok_roots d Hok _ _ _ Hr) as (Hk & v & Hsp).
      split; [done|]. exists v. by apply (same_trees_spells d).
  - apply db_view_eq; [done|]. intros h'. rewrite view_versions, Hv. destruct (decide (h = h')) as [<-|Hh].
    + rewrite lookup_insert_eq, decide_True; [done|]. apply elem_of_union. left. by apply elem_of_singleton.
    + rewrite lookup_insert_ne, view_versions by done.
      assert (digest_slice h' ≠ digest_slice h) as Hne by (by intros ?%digest_slice_inj).
      assert (version_at d' (digest_slice h') = version_at d (digest_slice h')) as Heq.
      { apply version_at_ext; [intros key r; by rewrite Hother|].
        intros key r Hr. destruct (ok_roots d Hok _ _ _ Hr) as (_ & v & Hsp).
        rewrite (root_value_repr _ _ _ _ Hsp). eapply root_value_repr. by apply (same_trees_spells d). }
      rewrite <-Heq. assert (digest_slice h' ∈ {[digest_slice h]} ∪ t_versions d ↔ digest_slice h' ∈ t_versions d) as Hin.
      { rewrite elem_of_union, elem_of_singleton. naive_solver. }
      clear -Hin. case_decide as Ha; case_decide as Hb; tauto.
Qed.

(** A version by what its roots spell. *)
Lemma version_at_is d h (ver : list (NamespaceKey * Namespace)) :
  bt_sorted ver →
  (∀ key, match t_version_namespaces d !! (digest_slice h, NamespaceKey_as_ref key) with
          | Some r => ∃ v, spells d r v ∧ bt_get ver key = Some (MkNamespace v)
          | None => bt_get ver key = None
          end) →
  version_at d (digest_slice h) = ver.
Proof.
  intros Hs Hget. apply bt_elem_ext; [apply version_at_sorted|done|]. intros [key n]. rewrite elem_of_version_at.
  specialize (Hget key). split.
  - intros (r & v & Hr & Hv & ->). rewrite Hr in Hget. destruct Hget as (v' & Hsp & Hg).
    rewrite (root_value_repr _ _ _ _ Hsp) in Hv. simplify_eq. by apply bt_get_elem.
  - intros Hin. apply bt_sorted_elem_get in Hin; [|done]. destruct (t_version_namespaces d !! _) as [r|]; [|congruence].
    destruct Hget as (v & Hsp & Hg). exists r, v. split_and!; [done|by eapply root_value_repr|congruence].
Qed.
End tables.

Section writes.
Context `{Externals, Rusqlite, !RusqliteLaws, !StoredDecode, !StoredLaws}.
Implicit Types (d : Db) (h p : EnvelopeDigest).

(** New trees change no version. *)
Lemma grows_view d d' : grows d d' → linked d' → db_ok d → db_ok d' ∧ db_view d' = db_view d.
Proof.
  intros Hg Hl Hok. destruct (gr_rest _ _ Hg) as (_ & He & Hv & Hvn). split.
  - split; [done| |rewrite He; apply Hok]. intros b k r Hr. rewrite Hvn in Hr.
    destruct (ok_roots d Hok _ _ _ Hr) as (Hk & v & Hsp). split; [done|]. exists v. by eapply spells_grows.
  - rewrite (db_view_eq d d' (versions (db_view d))); [by destruct (db_view d)|done|]. intros h.
    rewrite !view_versions, Hv. case_decide; [|done]. f_equal. apply version_at_ext; [by rewrite Hvn|].
    intros key r Hr. destruct (ok_roots d Hok _ _ _ Hr) as (_ & v & Hsp).
    rewrite (root_value_repr _ _ _ _ Hsp). eapply root_value_repr. by eapply spells_grows.
Qed.

(** ** Versions *)

Lemma replace_version_qwp h d :
  db_ok d →
  qwp (replace_version h) d (λ _ d', db_ok d' ∧ same_trees d d' ∧ db_view d' = store_set_version h [] (db_view d) ∧
    ∀ b k, t_version_namespaces d' !! (b, k) = if decide (b = digest_slice h) then None else t_version_namespaces d !! (b, k))
    (λ _, True).
Proof.
  intros Hok. apply qwp_bind, qwp_update; [done|]. apply qwp_update; [done|].
  set (d' := on_version_namespaces _ _).
  assert (∀ b k, t_version_namespaces d' !! (b, k) =
    if decide (b = digest_slice h) then None else t_version_namespaces d !! (b, k)) as Hrows.
  { intros b k. apply option_eq. intros r. simpl. rewrite map_lookup_filter_Some. simpl. case_decide; naive_solver. }
  destruct (reversion d d' h) as [Hok' Hview]; [done|done|done|done| | |].
  - intros b k Hb. rewrite Hrows. by rewrite decide_False.
  - intros k r. rewrite Hrows. by rewrite decide_True.
  - split_and!; [done|done| |done]. rewrite Hview. f_equal. apply version_at_is; [constructor|].
    intros key. rewrite Hrows. by rewrite decide_True.
Qed.

Lemma set_root_qwp h key (root : Z) v ver d :
  db_ok d → spells d root v → versions (db_view d) !! h = Some ver →
  qwp (set_root h key root) d
    (λ _ d', db_ok d' ∧ db_view d' = store_set_version h (bt_insert key (MkNamespace v) ver) (db_view d)) (λ _, True).
Proof.
  intros Hok Hsp Hver. apply qwp_update; [done|]. set (d' := on_version_namespaces _ _).
  apply view_version_Some in Hver as [Hin ->].
  destruct (reversion d d' h) as [Hok' Hview]; [done|done|done| | | |].
  - simpl. symmetry. by apply subseteq_union_L, singleton_subseteq_l.
  - intros b k Hb. simpl. rewrite lookup_insert_ne; [done|]. by intros [= ? _].
  - intros k r. simpl. destruct (decide (k = NamespaceKey_as_ref key)) as [->|Hk].
    + rewrite lookup_insert_eq. intros [= <-]. split; [|by exists v]. exact (proj2_dsig key).
    + rewrite lookup_insert_ne by congruence. apply (ok_roots d Hok).
  - split; [done|]. rewrite Hview. f_equal. apply version_at_is; [apply sorted_insert, version_at_sorted|].
    intros key'. simpl. destruct (decide (key = key')) as [<-|Hk].
    + rewrite lookup_insert_eq, bt_get_insert_eq. exists v. split; [by apply (same_trees_spells d)|done].
    + assert (NamespaceKey_as_ref key ≠ NamespaceKey_as_ref key') by (intros Heq; by apply Hk, dsig_eq).
      rewrite lookup_insert_ne, bt_get_insert_ne by congruence.
      pose proof (version_at_get d (digest_slice h) key' Hok) as Hg. destruct (t_version_namespaces d !! _) as [r|]; [|done].
      destruct Hg as (w & Hw & Hg). exists w. split; [by apply (same_trees_spells d)|done].
Qed.

Lemma set_version_twice h ver ver' (st : Store) :
  store_set_version h ver (store_set_version h ver' st) = store_set_version h ver st.
Proof. unfold store_set_version. simpl. by rewrite insert_insert_eq. Qed.

Lemma set_version_get h ver (st : Store) : versions (store_set_version h ver st) !! h = Some ver.
Proof. unfold store_set_version. simpl. by rewrite lookup_insert_eq. Qed.

(** A root built, then set. *)
Lemma built_root h key ver d (m : M Conn SqliteError Z) v :
  db_ok d → versions (db_view d) !! h = Some ver → qwp m d (builds d v) (λ _, True) →
  qwp (let! root := m in set_root h key root) d
    (λ _ d', db_ok d' ∧ db_view d' = store_set_version h (bt_insert key (MkNamespace v) ver) (db_view d)) (λ _, True).
Proof.
  intros Hok Hver Hm. apply qwp_bind. eapply qwp_mono; [exact Hm| |done]. intros root d1 (Hl1 & Hg1 & Hr1).
  destruct (grows_view d d1 Hg1 Hl1 Hok) as [Hok1 Hv1]. rewrite <-Hv1 in Hver |- *. by apply set_root_qwp.
Qed.

(** ** Install *)

Lemma sqlite_install_qwp h (l : list (NamespaceKey * Namespace)) d :
  db_ok d → forallb (λ kn, rust_value (ns_value kn.2)) l →
  qwp (sqlite_install h l) d
    (λ _ d', db_ok d' ∧ db_view d' = store_set_version h (bt_from_iter l) (db_view d)) (λ d', d' = d).
Proof.
  intros Hok Hl. apply forallb_True in Hl. rewrite Forall_forall in Hl. apply qwp_transaction, qwp_bind.
  eapply qwp_mono; [by apply replace_version_qwp| |done]. intros u d1 (Hok1 & _ & Hv1 & _).
  eapply qwp_mono; [apply (qwp_for_each _ (λ q d', db_ok d' ∧ db_view d' = store_set_version h (bt_from_iter q) (db_view d)) l [])|..|done].
  - intros q [key [v]] r d2 Hq [Hok2 Hv2]. simpl in Hq.
    eapply qwp_mono; [apply (built_root h key (bt_from_iter q) d2 _ v Hok2)|..|done].
    + rewrite Hv2. apply set_version_get.
    + apply insert_value_builds; [apply Hok2|]. apply (Hl (key, MkNamespace v)). rewrite Hq. apply elem_of_app. right. by left.
    + intros u' d3 [Hok3 Hv3]. split; [done|]. rewrite Hv3, Hv2, set_version_twice. do 2 f_equal.
      unfold bt_from_iter. by rewrite foldl_app.
  - done.
  - intros u' d2 Hd2. exact Hd2.
Qed.

(** ** Commit *)

(** The operation holds values of the Rust types. *)
Definition rust_op (op : NamespaceOp) : bool :=
  match op with
  | NamespaceOp_Put _ namespace => rust_value (ns_value namespace)
  | NamespaceOp_Delete _ => true
  | NamespaceOp_SetAt _ _ value => from_option rust_value true value
  | NamespaceOp_AmendAt _ _ op => rust_amend op
  end.

(** The roots copied from one head to another it is not. *)
Lemma copy_roots_qwp p h ver d :
  db_ok d → p ≠ h → versions (db_view d) !! p = Some ver → versions (db_view d) !! h = Some [] →
  (∀ k, t_version_namespaces d !! (digest_slice h, k) = None) →
  qwp (sql SqliteError_Sqlite (λ d,
          match insert_rows ConstraintViolation
                  (map (λ kr : rstring * Z, (digest_slice h, kr.1, kr.2))
                    (scan (digest_slice p) (t_version_namespaces d))) (t_version_namespaces d) with
          | Ok t => Ok ((), on_version_namespaces (λ _, t) d)
          | Err e => Err e
          end)) d
    (λ _ d', db_ok d' ∧ db_view d' = store_set_version h ver (db_view d)) (λ _, True).
Proof.
  intros Hok Hne Hver Hh Hnone. apply qwp_sql; [done|]. intros [] d'.
  apply view_version_Some in Hver as [_ ->]. apply view_version_Some in Hh as [Hh _].
  set (rows := map _ _).
  assert (∀ b k r, (b, k, r) ∈ rows ↔ b = digest_slice h ∧ t_version_namespaces d !! (digest_slice p, k) = Some r) as Hrows.
  { intros b k r. unfold rows. rewrite list_elem_of_fmap. split.
    - by intros ([k' r'] & [= -> -> ->] & Hin%elem_of_scan).
    - intros [-> Hr]. exists (k, r). by rewrite elem_of_scan. }
  destruct (insert_rows_Ok ConstraintViolation rows (t_version_namespaces d)) as (t & -> & Ht).
  - unfold rows. rewrite <-list_fmap_compose.
    pose proof (NoDup_scan (digest_slice p) (t_version_namespaces d)) as Hnd.
    apply (NoDup_fmap_2 (λ k, (digest_slice h, k))) in Hnd. by rewrite <-list_fmap_compose in Hnd.
  - intros [b k] r [-> _]%Hrows. apply Hnone.
  - intros [= <-]. destruct (reversion d (on_version_namespaces (λ _, t) d) h) as [Hok' Hview];
      [done|done|done| | | |].
    + simpl. symmetry. by apply subseteq_union_L, singleton_subseteq_l.
    + intros b k Hb. simpl. apply option_eq. intros r. rewrite Ht, Hrows. naive_solver.
    + intros k r. simpl. rewrite Ht, Hrows, Hnone. intros [[_ Hr]|Hr]; [|done]. by eapply (ok_roots d Hok).
    + split; [done|]. rewrite Hview. f_equal. apply version_at_is; [apply version_at_sorted|]. intros key. simpl.
      assert (t !! (digest_slice h, NamespaceKey_as_ref key) = t_version_namespaces d !! (digest_slice p, NamespaceKey_as_ref key)) as ->.
      { apply option_eq. intros r. rewrite Ht, Hrows, Hnone. naive_solver. }
      pose proof (version_at_get d (digest_slice p) key Hok) as Hg. destruct (t_version_namespaces d !! _) as [r|]; [|done].
      destruct Hg as (w & Hw & Hg). exists w. split; [by apply (same_trees_spells d)|done].
Qed.

Lemma delete_root_qwp h key ver d :
  db_ok d → versions (db_view d) !! h = Some ver → bt_contains_key ver key →
  qwp (let! deleted := sql SqliteError_Sqlite (λ d,
          let row := (digest_slice h, NamespaceKey_as_ref key) in
          Ok (bool_decide (is_Some (t_version_namespaces d !! row)), on_version_namespaces (delete row) d)) in
       m_assert deleted) d
    (λ _ d', db_ok d' ∧ db_view d' = store_set_version h (bt_remove key ver) (db_view d)) (λ _, True).
Proof.
  intros Hok [Hin ->]%view_version_Some Hk. apply qwp_bind, qwp_sql; [done|]. intros b d' [= <- <-].
  pose proof (version_at_get d (digest_slice h) key Hok) as Hg. unfold bt_contains_key in Hk.
  destruct (t_version_namespaces d !! _) as [r|]; [|by rewrite Hg in Hk]. simpl. apply qwp_ret.
  destruct (reversion d (on_version_namespaces (delete (digest_slice h, NamespaceKey_as_ref key)) d) h) as [Hok' Hview];
    [done|done|done| | | |].
  - simpl. symmetry. by apply subseteq_union_L, singleton_subseteq_l.
  - intros b k Hb. simpl. rewrite lookup_delete_ne; [done|]. by intros [= ? _].
  - intros k r'. simpl. rewrite lookup_delete_Some. intros [_ Hr]. by eapply (ok_roots d Hok).
  - split; [done|]. rewrite Hview. f_equal. apply version_at_is; [apply sorted_remove, version_at_sorted|].
    intros key'. simpl. destruct (decide (key = key')) as [<-|Hne].
    + rewrite lookup_delete_eq. by rewrite bt_get_remove_eq.
    + assert (NamespaceKey_as_ref key ≠ NamespaceKey_as_ref key') by (intros Heq; by apply Hne, dsig_eq).
      rewrite lookup_delete_ne, bt_get_remove_ne by congruence.
      pose proof (version_at_get d (digest_slice h) key' Hok) as Hg'. destruct (t_version_namespaces d !! _) as [r'|]; [|done].
      destruct Hg' as (w & Hw & Hg'). exists w. split; [by apply (same_trees_spells d)|done].
Qed.

Lemma version_exists_qwp h ver d :
  versions (db_view d) !! h = Some ver →
  qwp (let! exists_ := version_exists h in m_assert exists_) d (λ _ d', d' = d) (λ _, True).
Proof.
  intros Hver. apply qwp_bind. eapply qwp_reads; [apply version_exists_reads|done|].
  intros b ->. rewrite Hver. simpl. by apply qwp_ret.
Qed.

(** A namespace there is, for its root. *)
Lemma root_of_qwp {A} h key ver n d (k : Z → M Conn SqliteError A) (Q : A → Db → Prop) :
  db_ok d → versions (db_view d) !! h = Some ver → bt_get ver key = Some n →
  (∀ root, spells d root (ns_value n) → qwp (k root) d Q (λ _, True)) →
  qwp (let! root := namespace_root h key in let! root := m_expect root in k root) d Q (λ _, True).
Proof.
  intros Hok Hver Hn Hk. apply qwp_bind. eapply qwp_reads; [by apply namespace_root_reads|done|].
  intros [r|] Hr; [|congruence]. destruct Hr as (v & Hsp & Hg). simplify_eq. apply qwp_bind, qwp_ret. by apply Hk.
Qed.

Lemma sqlite_commit_qwp p h op ver ver' d :
  db_ok d → p ≠ h → versions (db_view d) !! p = Some ver → rust_op op → op_apply op ver = Some ver' →
  qwp (sqlite_commit p h op) d
    (λ _ d', db_ok d' ∧ db_view d' = store_set_version h ver' (db_view d)) (λ d', d' = d).
Proof.
  intros Hok Hne Hver Hrust Hop. apply qwp_transaction. unfold sqlite_commit.
  apply qwp_bind. eapply qwp_reads; [apply version_exists_reads|done|]. intros b ->. rewrite Hver. simpl.
  apply qwp_bind, qwp_ret, qwp_bind. eapply qwp_mono; [by apply replace_version_qwp| |done].
  intros u d1 (Hok1 & Hs1 & Hv1 & Hr1). apply qwp_bind.
  eapply qwp_mono; [apply (copy_roots_qwp p h ver d1 Hok1 Hne)|..|done].
  { rewrite Hv1. simpl. by rewrite lookup_insert_ne. }
  { rewrite Hv1. apply set_version_get. }
  { intros k. rewrite Hr1. by rewrite decide_True. }
  intros u' d2 [Hok2 Hv2]. assert (versions (db_view d2) !! h = Some ver) as Hver2 by (rewrite Hv2; apply set_version_get).
  assert (∀ ver', store_set_version h ver' (db_view d2) = store_set_version h ver' (db_view d)) as Hvv.
  { intros w. by rewrite Hv2, Hv1, !set_version_twice. }
  destruct op as [key [v]|key|key path value|key path op]; simpl in Hop, Hrust.
  - simplify_eq. rewrite <-Hvv. apply built_root; [done|done|]. apply insert_value_builds; [apply Hok2|done].
  - destruct (bt_contains_key ver key) eqn:Hk; simplify_eq. rewrite <-Hvv. apply delete_root_qwp; [done|done|by rewrite Hk].
  - destruct (bt_get ver key) as [n|] eqn:Hn; [|done]. cbn [mbind option_bind] in Hop.
    destruct (set_at (ns_value n) path value) as [v'|] eqn:Hset; simplify_eq/=.
    rewrite set_at_replace in Hset. rewrite <-Hvv. eapply root_of_qwp; [done..|]. intros root Hroot.
    apply built_root; [done|done|]. eapply replace_child_qwp; [by apply set_terminal_does|apply Hok2|done|done].
  - destruct (bt_get ver key) as [n|] eqn:Hn; [|done]. cbn [mbind option_bind] in Hop.
    destruct (amend_at (ns_value n) path op) as [v'|] eqn:Ham; simplify_eq/=.
    rewrite <-Hvv. eapply root_of_qwp; [done..|]. intros root Hroot. apply built_root; [done|done|].
    destruct path as [path|].
    + rewrite amend_at_replace in Ham. eapply replace_child_qwp; [by apply amend_terminal_does|apply Hok2|done|done].
    + by eapply amend_node_qwp; [apply Hok2|..].
Qed.
End writes.

(** * The log *)

(** A total weight is a [u32]. *)
Definition rust_status (status : VerificationStatus) : bool :=
  match status with AllMatched w => (w <=? u32_max)%N | _ => true end.

Section log.
Context `{Externals, Rusqlite, !StoredDecode}.
Implicit Types (d : Db) (dg : EnvelopeDigest).

(** ** The status columns *)

Lemma as_chunks_concat (fuel : nat) (ids : list KeyId) :
  length ids ≤ fuel →
  as_chunks_from fuel 32 (ids ≫= λ id, as_slice (key_id_bytes id)) = (map key_id_bytes ids, []).
Proof.
  revert fuel. induction ids as [|id ids IH]; intros fuel Hf; [by destruct fuel|].
  destruct fuel as [|fuel]; simpl in Hf; [lia|]. rewrite bind_cons.
  pose proof (array_length (key_id_bytes id)) as Hlen. cbn [as_chunks_from].
  rewrite take_app_length', drop_app_length' by congruence.
  rewrite array_try_from_slice, (IH fuel) by lia. done.
Qed.

Lemma key_ids_roundtrip (ids : gset KeyId) :
  key_ids_from (set_iter ids ≫= λ id, as_slice (key_id_bytes id)) = Ok ids.
Proof.
  unfold key_ids_from, as_chunks. rewrite as_chunks_concat.
  - rewrite decide_True by done. f_equal. rewrite <-list_fmap_compose, (list_fmap_ext _ id), list_fmap_id.
    2: { intros _ [b] _. done. }
    apply set_eq. intros i. rewrite elem_of_list_to_set. unfold set_iter, bt_keys.
    assert (NoDup (map (λ id : KeyId, (id, ())) (elements ids)).*1) as Hnd.
    { rewrite <-list_fmap_compose, (list_fmap_ext _ id), list_fmap_id by done. apply NoDup_elements. }
    rewrite (list_elem_of_fmap fst). split.
    + intros ([i' u] & -> & Hin). rewrite bt_from_iter_Permutation in Hin by done.
      apply list_elem_of_fmap in Hin as (i2 & [= -> _] & Hi). by apply elem_of_elements.
    + intros Hi. exists (i, ()). split; [done|]. rewrite bt_from_iter_Permutation by done.
      apply list_elem_of_fmap. exists i. split; [done|by apply elem_of_elements].
  - generalize (set_iter ids). intros l. induction l as [|id l IH]; [done|].
    rewrite bind_cons, length_app, array_length. cbn [length]. lia.
Qed.

Lemma status_roundtrip status :
  rust_status status →
  let '(code, weight, bad_keys) := status_columns status in status_from code weight bad_keys = Ok status.
Proof.
  destruct status as [|ids|w]; intros Hw; simpl.
  - done.
  - unfold status_from. simpl. by rewrite key_ids_roundtrip.
  - unfold status_from. simpl. unfold u32_try_from_i64.
    apply Is_true_true, N.leb_le in Hw. unfold u32_max in *.
    case_decide as Hd; [|destruct Hd; lia]. by rewrite N2Z.id.
Qed.
End log.

Section put.
Context `{Externals, Rusqlite, !StoredDecode, !StoredLaws}.
Implicit Types (d : Db) (dg : EnvelopeDigest).

(** The log's rows are changed and nothing else. *)
Lemma relogged d (f : gmap (list u8) EnvelopeRow → gmap (list u8) EnvelopeRow) (lg : gmap EnvelopeDigest Envelope) :
  db_ok d →
  (∀ b row, f (t_envelopes d) !! b = Some row → is_Some (blob_digest b) ∧ row_ok row) →
  (∀ dg, f (t_envelopes d) !! digest_slice dg ≫= row_envelope = lg !! dg) →
  db_ok (on_envelopes f d) ∧ db_view (on_envelopes f d) = MkStore (versions (db_view d)) lg.
Proof.
  intros Hok Hrows Hlog. assert (same_trees d (on_envelopes f d)) as Hs by done.
  assert (db_ok (on_envelopes f d)) as Hok'.
  { split; [by apply (same_trees_linked d); [|apply Hok]| |done]. intros b k r Hr.
    destruct (ok_roots d Hok b k r Hr) as (Hk & v & Hsp). split; [done|]. exists v. by apply (same_trees_spells d). }
  split; [done|].
  assert (versions (db_view (on_envelopes f d)) = versions (db_view d)) as Hvs.
  { apply map_eq. intros h. rewrite !view_versions. simpl. case_decide; [|done]. f_equal.
    apply version_at_ext; [done|]. intros key r Hr.
    destruct (ok_roots d Hok _ _ _ Hr) as (_ & v & Hsp). rewrite (root_value_repr _ _ _ _ Hsp).
    eapply root_value_repr. by apply (same_trees_spells d). }
  rewrite <-Hvs. assert (log (db_view (on_envelopes f d)) = lg) as <-; [|by destruct (db_view _)].
  apply map_eq. intros dg. rewrite view_log by done. apply Hlog.
Qed.

Definition clock_ok (w : World) : Prop :=
  ∀ n, from_timestamp_millis (timestamp_millis (wall_clock w n)) = Some (wall_clock w n).

Lemma sqlite_put_wp dg e (c : Conn) :
  db_ok (db c) → clock_ok (world c) → rust_envelope e → rust_status (verification_status e) →
  wp (sqlite_put_envelope dg e) c
    (λ _ c', world c' = world c ∧ db_ok (db c') ∧ db_view (db c') = store_put dg e (db_view (db c)) ∧
      ∃ row, t_envelopes (db c') !! digest_slice dg = Some row ∧
        row_stored_at row =
          match t_envelopes (db c) !! digest_slice dg with
          | Some old => row_stored_at old
          | None => timestamp_millis (wall_clock (world c) (calls c))
          end)
    (λ err c', world c' = world c ∧ db c' = db c ∧ backend_error err).
Proof.
  intros Hok Hclock He Hst. unfold wp, sqlite_put_envelope, m_bind, coded, m_map_err, m_lift.
  destruct (encode (ser_envelope e)) as [bytes|err] eqn:Henc.
  2: { unfold encode in Henc. destruct (to_canonical_vec _); by simplify_eq. }
  pose proof (status_roundtrip _ Hst) as Hround. destruct (status_columns (verification_status e)) as [[code weight] bad].
  unfold update, sql. destruct (outcome (world c) (calls c)) as [err|]; [done|]. simpl.
  set (stored := match t_envelopes (db c) !! digest_slice dg with Some row => row_stored_at row | None => _ end).
  set (row := MkEnvelopeRow bytes (digest_slice <$> prev_of e) code weight bad stored).
  assert (row_envelope row = Some e) as Hrow.
  { unfold row_envelope. simpl. rewrite (decode_envelope_law e bytes He Henc), Hround. by destruct e. }
  edestruct (relogged (db c)) as [Hok' Hview]; [done| | |split_and!; [done|exact Hok'|exact Hview|]]; cycle 2.
  - exists row. split; [by apply lookup_insert_eq|done].
  - intros b r. cbn beta. fold stored row. destruct (decide (digest_slice dg = b)) as [<-|Hne].
    + rewrite lookup_insert_eq. intros [= <-]. split; [rewrite blob_digest_slice; by eexists|].
      split; [by exists e|]. simpl. unfold stored. destruct (t_envelopes (db c) !! _) as [old|] eqn:Hold.
      * by destruct (ok_rows _ Hok _ _ Hold) as [_ [_ ?]].
      * exists (wall_clock (world c) (calls c)). split; [apply Hclock|done].
    + rewrite lookup_insert_ne by done. apply Hok.
  - intros dg'. cbn beta. fold stored row. destruct (decide (dg = dg')) as [<-|Hne].
    + by rewrite !lookup_insert_eq.
    + assert (digest_slice dg ≠ digest_slice dg') by (intros Heq; by apply Hne, digest_slice_inj).
      rewrite !lookup_insert_ne by done. by rewrite view_log.
Qed.

Lemma sqlite_remove_qwp dg d :
  db_ok d → qwp (sqlite_remove_envelope dg) d (λ _ d', db_ok d' ∧ db_view d' = store_remove dg (db_view d)) (λ d', d' = d).
Proof.
  intros Hok. apply qwp_update; [done|]. apply relogged; [done| |].
  - intros b r. rewrite lookup_delete_Some. intros [_ Hr]. by apply Hok.
  - intros dg'. destruct (decide (dg = dg')) as [<-|Hne].
    + by rewrite !lookup_delete_eq.
    + assert (digest_slice dg ≠ digest_slice dg') by (intros Heq; by apply Hne, digest_slice_inj).
      rewrite !lookup_delete_ne by done. by rewrite view_log.
Qed.
End put.
