(* ===== verification/SqliteSpec.v ===== *)
(** * Retention, and the promise kept

    [reachable] is the recursive walk's answer, [live] what it is to compute; the
    deletes leave the live nodes and the edges under them, so every tree of a
    version kept stands. *)

From S2P Require Import Prelude BTree Text Codec Externals Keys Subkey Msg Envelope Value Storage Sql.
From S2P Require Import Sqlite SqlLogic SqliteTree SqliteWrite SqliteCopy SqliteView SqliteStore.

(** A root of some version, or a child of a live node. *)
Inductive live (d : Db) : Z → Prop :=
  | live_root b k r : t_version_namespaces d !! (b, k) = Some r → live d r
  | live_map p k c : live d p → t_map_edges d !! (p, k) = Some c → live d c
  | live_array p i c : live d p → t_array_edges d !! (p, i) = Some c → live d c.

(** ** The walk ends *)

Section walk.
Variable d : Db.

Definition child_set : gset Z :=
  list_to_set (map_to_list (t_map_edges d)).*2 ∪ list_to_set (map_to_list (t_array_edges d)).*2.

Lemma size_values {K} `{Countable K} (t : gmap K Z) : size (list_to_set (C := gset Z) (map_to_list t).*2) ≤ size t.
Proof.
  rewrite <-length_map_to_list, <-(length_fmap snd (map_to_list t)).
  induction (map_to_list t).*2 as [|x l IH]; [done|]. rewrite list_to_set_cons, size_union_alt, size_singleton.
  simpl. apply le_n_S. etrans; [apply subseteq_size, subseteq_difference_l; reflexivity|done].
Qed.

Lemma size_child_set : size child_set ≤ size (t_map_edges d) + size (t_array_edges d).
Proof.
  unfold child_set. rewrite size_union_alt. apply Nat.add_le_mono; [apply size_values|].
  etrans; [apply subseteq_size, subseteq_difference_l; reflexivity|apply size_values].
Qed.

Lemma elem_of_walk_step ids c :
  c ∈ walk_step d ids ↔ c ∈ ids ∨ (∃ p k, t_map_edges d !! (p, k) = Some c ∧ p ∈ ids) ∨
    ∃ p i, t_array_edges d !! (p, i) = Some c ∧ p ∈ ids.
Proof. unfold walk_step. rewrite !elem_of_union, !elem_of_edges_from. tauto. Qed.

Lemma walk_step_grows ids : ids ⊆ walk_step d ids.
Proof. intros c Hc. apply elem_of_walk_step. by left. Qed.

Lemma walk_step_children ids : walk_step d ids ⊆ ids ∪ child_set.
Proof.
  intros c [Hc|[(p & k & Hc & _)|(p & i & Hc & _)]]%elem_of_walk_step; apply elem_of_union; [by left|right..];
    apply elem_of_union; [left|right]; apply elem_of_list_to_set, list_elem_of_fmap.
  - exists (p, k, c). split; [done|by apply elem_of_map_to_list].
  - exists (p, i, c). split; [done|by apply elem_of_map_to_list].
Qed.

Lemma walk_children n ids : Nat.iter n (walk_step d) ids ⊆ ids ∪ child_set.
Proof.
  induction n as [|n IH]; simpl; [apply union_subseteq_l|]. etrans; [apply walk_step_children|].
  apply union_least; [done|apply union_subseteq_r].
Qed.

Lemma walk_from n ids : ids ⊆ Nat.iter n (walk_step d) ids.
Proof. induction n as [|n IH]; simpl; [done|]. etrans; [exact IH|apply walk_step_grows]. Qed.

(** Until it is closed, each round adds a child. *)
Lemma walk_progress n ids :
  walk_step d (Nat.iter n (walk_step d) ids) = Nat.iter n (walk_step d) ids ∨
  S n ≤ size (Nat.iter (S n) (walk_step d) ids ∖ ids).
Proof.
  assert (∀ X : gset Z, ids ⊆ X → walk_step d X = X ∨ S (size (X ∖ ids)) ≤ size (walk_step d X ∖ ids)) as Hstep.
  { intros X HX. destruct (decide (walk_step d X = X)) as [Heq|Hne]; [by left|right]. apply subset_size. split.
    - pose proof (walk_step_grows X). set_solver.
    - intros Hsub. apply Hne. apply set_eq. intros c. split; [|apply walk_step_grows].
      intros Hc. destruct (decide (c ∈ ids)) as [?|Hn]; [by apply HX|].
      assert (c ∈ X ∖ ids) as Hin by (apply Hsub; by apply elem_of_difference). by apply elem_of_difference in Hin as [? _]. }
  induction n as [|n [IH|IH]].
  - destruct (Hstep ids (reflexivity _)) as [?|Hle]; [by left|right]. simpl. lia.
  - left. simpl. by rewrite !IH.
  - destruct (Hstep (Nat.iter (S n) (walk_step d) ids) (walk_from (S n) ids)) as [?|Hle]; [by left|right].
    simpl in *. lia.
Qed.

(** As many rounds as there are edges are enough. *)
Lemma reachable_closed : walk_step d (reachable d) = reachable d.
Proof.
  unfold reachable. set (n := _ + _). destruct (walk_progress n (roots_of d)) as [?|Hle]; [done|]. exfalso.
  assert (size (Nat.iter (S n) (walk_step d) (roots_of d) ∖ roots_of d) ≤ size child_set) as Hs.
  { apply subseteq_size. intros c [Hc Hn]%elem_of_difference. apply walk_children in Hc.
    apply elem_of_union in Hc as [?|?]; done. }
  pose proof size_child_set. lia.
Qed.

Lemma elem_of_roots r : r ∈ roots_of d ↔ ∃ b k, t_version_namespaces d !! (b, k) = Some r.
Proof.
  unfold roots_of. rewrite elem_of_list_to_set, list_elem_of_fmap. split.
  - intros ([[b k] r'] & -> & Hin%elem_of_map_to_list). by exists b, k.
  - intros (b & k & Hr). exists (b, k, r). split; [done|by apply elem_of_map_to_list].
Qed.

(** What the walk marks is what is live. *)
Lemma reachable_live i : i ∈ reachable d ↔ live d i.
Proof.
  split.
  - unfold reachable. set (n := _ + _). clearbody n. revert i. induction n as [|n IH]; intros i.
    + intros (b & k & Hr)%elem_of_roots. by eapply live_root.
    + intros [Hi|[(p & k & Hc & Hp)|(p & k & Hc & Hp)]]%elem_of_walk_step; [by apply IH| |].
      * eapply live_map; [by apply IH|done].
      * eapply live_array; [by apply IH|done].
  - induction 1 as [b k r Hr|p k c _ IH Hc|p k c _ IH Hc].
    + apply walk_from, elem_of_roots. by exists b, k.
    + rewrite <-reachable_closed. apply elem_of_walk_step. right. left. by exists p, k.
    + rewrite <-reachable_closed. apply elem_of_walk_step. right. right. by exists p, k.
Qed.
End walk.

(** ** The deletes *)

Section sweep.
Context `{Externals, Rusqlite, !StoredDecode}.
Implicit Types (d : Db) (h : EnvelopeDigest).

Definition swept d : Db :=
  on_nodes (base.filter (λ row, row.1 ∈ reachable d))
    (on_array_edges (base.filter (λ row, row.1.1 ∈ reachable d))
      (on_map_edges (base.filter (λ row, row.1.1 ∈ reachable d)) d)).

Lemma sweep_qwp d : qwp sweep d (λ _ d', d' = swept d) (λ _, True).
Proof.
  unfold sweep. repeat (apply qwp_bind; (apply qwp_call || apply qwp_select || apply qwp_update); [done|]).
  by apply qwp_update.
Qed.

Lemma swept_node d i row : t_nodes (swept d) !! i = Some row ↔ t_nodes d !! i = Some row ∧ live d i.
Proof. simpl. rewrite map_lookup_filter_Some. simpl. by rewrite reachable_live. Qed.

Lemma swept_map d p k c : t_map_edges (swept d) !! (p, k) = Some c ↔ t_map_edges d !! (p, k) = Some c ∧ live d p.
Proof. simpl. rewrite map_lookup_filter_Some. simpl. by rewrite reachable_live. Qed.

Lemma swept_array d p i c : t_array_edges (swept d) !! (p, i) = Some c ↔ t_array_edges d !! (p, i) = Some c ∧ live d p.
Proof. simpl. rewrite map_lookup_filter_Some. simpl. by rewrite reachable_live. Qed.

Lemma swept_agree d i : live d i → agree d (swept d) i.
Proof.
  intros Hi. split_and!; intros; apply option_eq; intros c.
  - rewrite swept_node. naive_solver.
  - rewrite swept_map. naive_solver.
  - rewrite swept_array. naive_solver.
Qed.

(** A sweep leaves nothing more to sweep. *)
Lemma swept_live d i : live (swept d) i ↔ live d i.
Proof.
  split.
  - induction 1 as [b k r Hr|p k c _ IH Hc|p k c _ IH Hc]; [by eapply live_root| |].
    + apply swept_map in Hc as [Hc _]. by eapply live_map.
    + apply swept_array in Hc as [Hc _]. by eapply live_array.
  - induction 1 as [b k r Hr|p k c Hp IH Hc|p k c Hp IH Hc]; [by eapply (live_root (swept d))| |].
    + eapply live_map; [exact IH|]. by apply swept_map.
    + eapply live_array; [exact IH|]. by apply swept_array.
Qed.

Lemma swept_linked d : linked d → linked (swept d).
Proof.
  intros [Lm La]. split; intros p k c.
  - intros [[row Hrow]%Lm Hp]%swept_map. exists row. by apply swept_node.
  - intros [[row Hrow]%La Hp]%swept_array. exists row. by apply swept_node.
Qed.

(** A live node's tree is all live. *)
Lemma spells_live d id v : live d id → spells d id v → repr (live d) d id v.
Proof.
  revert id. induction v as [v Hk|items IH|entries IH] using Value_nested_ind; intros id Hid Hr.
  - apply repr_Leaf; [done|]. split; [done|]. by apply repr_Leaf in Hr as [_ Hr].
  - apply repr_Array in Hr as (_ & Hn & Hb & Hch). apply repr_Array. split_and!; [done..|].
    intros i w Hw. destruct (Hch i w Hw) as (c & Hc & Hr). exists c. split; [done|].
    rewrite Forall_lookup in IH. eapply (IH i); [done| |done]. by eapply live_array.
  - apply repr_Map in Hr as (_ & Hn & Hs & Hb & Hch). apply repr_Map. split_and!; [done..|].
    intros k w Hw. destruct (Hch k w Hw) as (c & Hc & Hr). exists c. split; [done|].
    rewrite Forall_forall in IH. apply (IH (k, w)); [by apply bt_get_elem| |done]. by eapply live_map.
Qed.

Lemma swept_spells d id v : live d id → spells d id v → spells (swept d) id v.
Proof.
  intros Hid Hr%spells_live; [|done]. apply (repr_agree _ _ d (swept d) id v Hr). intros i Hi _.
  split; [by apply swept_agree|done].
Qed.

Lemma swept_view d : db_ok d → db_ok (swept d) ∧ db_view (swept d) = db_view d.
Proof.
  intros Hok. split.
  - split; [apply swept_linked, Hok| |apply Hok]. intros b k r Hr.
    destruct (ok_roots d Hok b k r Hr) as (Hk & v & Hsp). split; [done|]. exists v. apply swept_spells; [|done].
    by eapply live_root.
  - rewrite (db_view_eq d (swept d) (versions (db_view d))); [by destruct (db_view d)|done|]. intros h.
    rewrite !view_versions. simpl. case_decide; [|done]. f_equal. apply version_at_ext; [done|].
    intros key r Hr. destruct (ok_roots d Hok _ _ _ Hr) as (_ & v & Hsp). rewrite (root_value_repr _ _ _ _ Hsp).
    eapply root_value_repr, swept_spells; [|done]. by eapply live_root.
Qed.

(** ** Retention *)

Definition kept (keep : list EnvelopeDigest) d : Db :=
  on_version_namespaces (base.filter (λ row, row.1.1 ∈ (list_to_set (map digest_slice keep) : gset (list u8))))
    (on_versions (base.filter (λ head, head ∈ (list_to_set (map digest_slice keep) : gset (list u8)))) d).

Lemma elem_of_kept (keep : list EnvelopeDigest) h :
  digest_slice h ∈ (list_to_set (map digest_slice keep) : gset (list u8)) ↔ h ∈ keep.
Proof. rewrite elem_of_list_to_set. apply list_elem_of_fmap_inj, _. Qed.

Lemma kept_view (keep : list EnvelopeDigest) d :
  db_ok d → db_ok (kept keep d) ∧ db_view (kept keep d) = store_retain keep (db_view d).
Proof.
  intros Hok. assert (same_trees d (kept keep d)) as Hs by done. split.
  - split; [by apply (same_trees_linked d); [|apply Hok]| |apply Hok]. intros b k r Hr. simpl in Hr.
    apply map_lookup_filter_Some in Hr as [Hr _]. destruct (ok_roots d Hok b k r Hr) as (Hk & v & Hsp).
    split; [done|]. exists v. by apply (same_trees_spells d).
  - apply db_view_eq; [done|]. intros h. apply option_eq. intros ver.
    rewrite map_lookup_filter_Some, !view_version_Some. simpl. rewrite elem_of_filter, elem_of_kept.
    assert (h ∈ keep → version_at (kept keep d) (digest_slice h) = version_at d (digest_slice h)) as Heq; [|naive_solver].
    intros Hh. apply version_at_ext.
    + intros key r. simpl. rewrite map_lookup_filter_Some. simpl. rewrite elem_of_kept. tauto.
    + intros key r Hr. destruct (ok_roots d Hok _ _ _ Hr) as (_ & v & Hsp). rewrite (root_value_repr _ _ _ _ Hsp).
      eapply root_value_repr. by apply (same_trees_spells d).
Qed.

Definition retained (keep : list EnvelopeDigest) d d' : Prop :=
  db_ok d' ∧ db_view d' = store_retain keep (db_view d) ∧
  (∀ i, is_Some (t_nodes d' !! i) ↔ is_Some (t_nodes d !! i) ∧ live d' i) ∧
  (∀ p k, is_Some (t_map_edges d' !! (p, k)) → live d' p) ∧ ∀ p i, is_Some (t_array_edges d' !! (p, i)) → live d' p.

Lemma swept_retained (keep : list EnvelopeDigest) d : db_ok d → retained keep d (swept (kept keep d)).
Proof.
  intros Hok. destruct (kept_view keep d Hok) as [Hok1 Hv1]. destruct (swept_view _ Hok1) as [Hok2 Hv2].
  split_and!; [done|by rewrite Hv2| | |].
  - intros i. rewrite swept_live. split.
    + intros [row [Hrow Hi]%swept_node]. split; [by exists row|done].
    + intros [[row Hrow] Hi]. exists row. by apply swept_node.
  - intros p k [c [_ Hp]%swept_map]. by apply swept_live.
  - intros p k [c [_ Hp]%swept_array]. by apply swept_live.
Qed.

Lemma drain_reads n d : qreads (drain SqliteError_Sqlite n) d (λ _, True).
Proof.
  induction n as [|n IH]; simpl; [by apply qreads_ret|]. eapply (qreads_bind _ _ _ (λ _, True)); [by apply qreads_select|done].
Qed.

Lemma calls_qwp {A} (l : list A) d : qwp (m_for_each (λ _, call SqliteError_Sqlite) l) d (λ _ d', d' = d) (λ _, True).
Proof.
  apply (qwp_for_each (λ _, call SqliteError_Sqlite) (λ _ d', d' = d) l []); [|done].
  intros q a s d' _ ->. by apply qwp_call.
Qed.

(** The transaction drops the versions and what only they held, or nothing. What
    tidies the file up after it may fail over tables that are already done. *)
Lemma sqlite_retain_qwp (keep : list EnvelopeDigest) d :
  db_ok d →
  qwp (sqlite_retain keep) d (λ _ d', retained keep d d') (λ d', d' = d ∨ retained keep d d').
Proof.
  intros Hok. unfold sqlite_retain. apply qwp_bind.
  eapply (qwp_mono _ _ (λ _ d', retained keep d d') _ (λ d', d' = d)); [|..|by left].
  - apply qwp_transaction. do 2 (apply qwp_bind, qwp_call; [done|]). apply qwp_bind.
    eapply qwp_mono; [apply calls_qwp| |done]. intros u d' ->.
    do 2 (apply qwp_bind, qwp_update; [done|]). eapply qwp_mono; [apply sweep_qwp| |done].
    intros u' d' ->. by apply swept_retained.
  - intros u d' Hd'. do 2 (apply qwp_bind, qwp_call; [by right|]). apply qwp_bind.
    apply (qwp_mono _ _ (λ _ d'', d'' = d' ∧ True) _ (λ d'', d'' = d')).
    + intros c Hc. exact (drain_reads _ d' c Hc).
    + intros u' d'' [-> _]. intros c Hc.
      assert (∀ b : bool, qwp (if b then call SqliteError_Sqlite else m_ret ()) d'
        (λ _ d', retained keep d d') (λ d', d' = d ∨ retained keep d d')) as Hb.
      { intros []; [by apply qwp_call; [right|]|by apply qwp_ret]. }
      specialize (Hb (dice (world c) (calls c)) c Hc). unfold wp in *. by destruct (dice (world c) (calls c)).
    + intros d'' ->. by right.
Qed.
End sweep.

(** ** The backend keeps the storage promise

    [Sqlite]'s functions as a [Storage], and the [StorageSpec] of it: the store
    the tables spell under [conn_ok]. The model's data hold more than Rust's types
    do — an integer that is no [i64], a map out of order — and an encoder need not
    keep those apart, so the instance turns them away where the type checker
    would ([typed]); the functions themselves are not guarded. *)

Section instance.
Context `{Externals, Rusqlite, !StoredDecode, !StoredLaws}.

Definition typed {A} (b : bool) (m : M Conn SqliteError A) : M Conn SqliteError A :=
  if b then m else m_err (SqliteError_Codec WireError_Decode).

(** An iterator over a read that yields its failures. *)
Definition stream {A} (m : M Conn SqliteError (list (Result SqliteError A))) (c : Conn)
    : Outcome (list (Result SqliteError A)) :=
  match reads m c with
  | Ret (Ok l) => Ret l
  | Ret (Err e) => Ret [Err e]
  | Panic => Panic
  | Diverge => Diverge
  end.

#[export] Instance sqlite_storage : Storage Conn SqliteError := {|
  contains_version c h := reads (version_exists h) c;
  resolve c h key path := reads (sqlite_resolve h key path) c;
  value_at c h key path := reads (sqlite_value_at h key path) c;
  meta_at c h key path := reads (sqlite_meta_at h key path) c;
  namespace c h key := reads (sqlite_namespace h key) c;
  namespaces c h := stream (sqlite_namespaces h) c;
  namespace_keys c h := stream (sqlite_namespace_keys h) c;
  commit p h op := typed (rust_op op) (sqlite_commit p h op);
  install h l := typed (forallb (λ kn, rust_value (ns_value kn.2)) l) (sqlite_install h l);
  retain := sqlite_retain;
  put_envelope d e := typed (rust_envelope e && rust_status (verification_status e)) (sqlite_put_envelope d e);
  logged_envelope c d := reads (sqlite_logged_envelope d) c;
  envelope := default_envelope (λ c d, reads (sqlite_logged_envelope d) c);
  remove_envelope := sqlite_remove_envelope;
  children c p := stream (sqlite_children p) c;
  parent c d := reads (sqlite_parent d) c;
|}.
End instance.

Section spec.
Context `{Externals, Rusqlite, !RusqliteLaws, !StoredDecode, !StoredLaws}.

Definition conn_ok (c : Conn) : Prop := db_ok (db c) ∧ clock_ok (world c).

Lemma typed_wp {A} (b : bool) (m : M Conn SqliteError A) c (Q : A → Conn → Prop) X :
  (b → wp m c Q X) → (∀ e, X e c) → wp (typed b m) c Q X.
Proof. intros Hm HX. destruct b; [by apply Hm|apply HX]. Qed.

(** A triple on the tables, as one on the connection. *)
Lemma qwp_conn {A} (m : M Conn SqliteError A) c (Q : A → Store → Prop) (X : Store → Prop) :
  conn_ok c →
  qwp m (db c) (λ a d', db_ok d' ∧ Q a (db_view d')) (λ d', db_ok d' ∧ X (db_view d')) →
  wp m c (λ a c', conn_ok c' ∧ Q a (db_view (db c'))) (λ _ c', conn_ok c' ∧ X (db_view (db c'))).
Proof.
  intros [Hok Hc] Hm. eapply wp_mono; [by apply Hm|..]; unfold conn_ok.
  - by intros a c' (-> & ? & ?).
  - by intros e c' (-> & [? ?] & _).
Qed.

(** .. where nothing was written on failure. *)
Lemma qwp_conn_atomic {A} (m : M Conn SqliteError A) c (Q : A → Store → Prop) :
  conn_ok c → qwp m (db c) (λ a d', db_ok d' ∧ Q a (db_view d')) (λ d', d' = db c) →
  wp m c (λ a c', conn_ok c' ∧ Q a (db_view (db c'))) (λ _ c', conn_ok c' ∧ db_view (db c') = db_view (db c)).
Proof.
  intros Hc Hm. apply (qwp_conn m c Q (λ st, st = db_view (db c)) Hc). eapply qwp_mono; [exact Hm|done|].
  intros d' ->. by destruct Hc.
Qed.

Lemma stream_reads {A} (m : M Conn SqliteError (list (Result SqliteError A))) c (P : list (Result SqliteError A) → Prop) :
  qreads m (db c) P → (∀ e, P [Err e]) → ∃ l, stream m c = Ret l ∧ P l.
Proof.
  intros Hm He. apply qreads_cwp in Hm. unfold stream, cwp in *.
  destruct (reads m c) as [[l|e]| |]; [by exists l|by eexists|done|done].
Qed.

#[export, program] Instance sqlite_storage_spec : StorageSpec Conn SqliteError := {|
  view c := db_view (db c);
  storage_ok := conn_ok;
|}.
Next Obligation. intros c h [Hok _]. apply qreads_cwp, version_exists_reads. Qed.
Next Obligation. intros c h key path ver [Hok _] Hv. by apply qreads_cwp, sqlite_resolve_reads. Qed.
Next Obligation. intros c h key path ver [Hok _] Hv. by apply qreads_cwp, sqlite_value_at_reads. Qed.
Next Obligation. intros c h key path ver [Hok _] Hv. by apply qreads_cwp, sqlite_meta_at_reads. Qed.
Next Obligation. intros c h key ver [Hok _] Hv. by apply qreads_cwp, sqlite_namespace_reads. Qed.
Next Obligation.
  intros c h ver [Hok _] Hv. apply (stream_reads _ c (λ l, collect l = Ok ver ∨ ∃ e, collect l = Err e)).
  - by apply sqlite_namespaces_reads.
  - intros e. right. by exists e.
Qed.
Next Obligation.
  intros c h ver [Hok _] Hv. apply (stream_reads _ c (λ l, ∀ key, Ok key ∈ l → key ∈ bt_keys ver)).
  - by apply sqlite_namespace_keys_reads.
  - by intros e key Ha%list_elem_of_singleton.
Qed.
Next Obligation.
  intros c p h op ver ver' Hc Hne Hv Hop. apply typed_wp; [|done]. intros Hr.
  apply (qwp_conn_atomic _ c (λ _ st, st = store_set_version h ver' (db_view (db c)))); [done|].
  destruct Hc. by eapply sqlite_commit_qwp.
Qed.
Next Obligation.
  intros c h l Hc. apply typed_wp; [|done]. intros Hr.
  apply (qwp_conn_atomic _ c (λ _ st, st = store_set_version h (bt_from_iter l) (db_view (db c)))); [done|].
  destruct Hc. by apply sqlite_install_qwp.
Qed.
Next Obligation.
  intros c keep Hc.
  apply (qwp_conn _ c (λ _ st, st = store_retain keep (db_view (db c)))
    (λ st, st = db_view (db c) ∨ st = store_retain keep (db_view (db c)))); [done|]. destruct Hc as [Hok _].
  eapply qwp_mono; [by apply sqlite_retain_qwp| |].
  - by intros u d' (? & ? & _).
  - intros d' [->|(? & ? & _)]; auto.
Qed.
Next Obligation.
  intros c d e [Hok Hclock] _. apply typed_wp; [|done]. intros [He Hst]%andb_True.
  eapply wp_mono; [by apply sqlite_put_wp|..]; unfold conn_ok.
  - by intros u c' (-> & ? & ? & _).
  - by intros err c' (-> & -> & _).
Qed.
Next Obligation.
  intros c d [Hok _]. apply qreads_cwp. eapply qreads_mono; [by apply sqlite_logged_envelope_reads|]. by intros r [? _].
Qed.
Next Obligation.
  intros c d [Hok _]. simpl. unfold default_envelope. eapply cwp_bind, cwp_mono.
  - by apply qreads_cwp, sqlite_logged_envelope_reads.
  - by intros r [? _].
  - done.
Qed.
Next Obligation.
  intros c d Hc. apply (qwp_conn_atomic _ c (λ _ st, st = store_remove d (db_view (db c)))); [done|].
  destruct Hc. by apply sqlite_remove_qwp.
Qed.
Next Obligation.
  intros c p [Hok _].
  apply (stream_reads (sqlite_children p) c (λ l, (∃ ds, collect l = Ok ds ∧
    StronglySorted (λ a b, cmp a b = Lt) ds ∧ ∀ d, d ∈ ds ↔ child_of (db_view (db c)) p d) ∨ ∃ e, collect l = Err e)).
  - by apply sqlite_children_reads.
  - intros e. right. by exists e.
Qed.
Next Obligation. intros c d [Hok _]. by apply qreads_cwp, sqlite_parent_reads. Qed.
End spec.
