(* ===== verification/SqliteFixtures.v ===== *)
(** * A database for the witnesses

    A concrete engine, the decoder of [Toy]'s encoding and the tables that running
    the ledger and the chain over them leaves. *)

From S2P Require Import Prelude BTree Text Codec Externals Keys Subkey Msg Envelope Value.
From S2P Require Import Storage Mem Addr StateError Ledger LedgerSpec Fixtures Chain ChainFixtures.
From S2P Require Import Sql Sqlite SqlLogic SqliteTree SqliteWrite SqliteCopy SqliteView SqliteStore SqliteSpec.

(** ** Reading the encoding of [Toy] back *)

Abbreviation Parser A := (list u8 → option (A * list u8)) (only parsing).

Fixpoint dec_pos (l : list u8) : option (positive * list u8) :=
  match l with
  | x02 :: l => Some (xH, l)
  | x01 :: l => r ← dec_pos l; Some (xI r.1, r.2)
  | x00 :: l => r ← dec_pos l; Some (xO r.1, r.2)
  | _ => None
  end.

Definition dec_N : Parser N := λ l,
  match l with
  | x03 :: l => Some (0%N, l)
  | _ => r ← dec_pos l; Some (Npos r.1, r.2)
  end.

Definition dec_seq {A} (p : Parser A) : nat → Parser (list A) :=
  fix go n l :=
    match n with
    | 0 => Some ([], l)
    | S n => r ← p l; s ← go n r.2; Some (r.1 :: s.1, s.2)
    end.

Definition dec_pair {A B} (p : Parser A) (q : Parser B) : Parser (A * B) := λ l,
  r ← p l; s ← q r.2; Some ((r.1, s.1), s.2).

Fixpoint toy_decode (fuel : nat) (l : list u8) : option (Item * list u8) :=
  match fuel, l with
  | S fuel, x00 :: l => r ← dec_N l; Some (IUint r.1, r.2)
  | S fuel, x01 :: sign :: l =>
      r ← dec_N l;
      Some (IInt (if decide (sign = x01) then - Z.of_N r.1 else Z.of_N r.1), r.2)
  | S fuel, x02 :: b :: l => Some (IBool (bool_decide (b = x01)), l)
  | S fuel, x03 :: l => Some (INull, l)
  | S fuel, x04 :: l => r ← dec_N l; Some (IBytes (take (N.to_nat r.1) r.2), drop (N.to_nat r.1) r.2)
  | S fuel, x05 :: l => r ← dec_N l; s ← dec_seq dec_N (N.to_nat r.1) r.2; Some (IText s.1, s.2)
  | S fuel, x06 :: l =>
      r ← dec_N l; s ← dec_seq (toy_decode fuel) (N.to_nat r.1) r.2; Some (IArray s.1, s.2)
  | S fuel, x07 :: l =>
      r ← dec_N l; s ← dec_seq (dec_pair (toy_decode fuel) (toy_decode fuel)) (N.to_nat r.1) r.2;
      Some (IMap s.1, s.2)
  | _, _ => None
  end.

Lemma dec_pos_ok p r : dec_pos (toy_pos p ++ r) = Some (p, r).
Proof. induction p as [p IH|p IH|]; simpl; by rewrite ?IH. Qed.

Lemma dec_N_ok n r : dec_N (toy_N n ++ r) = Some (n, r).
Proof. destruct n as [|p]; [done|]. pose proof (dec_pos_ok p r) as Hp. unfold dec_N, toy_N. destruct p; simpl in *; by rewrite ?Hp. Qed.

Lemma dec_seq_ok {A} (p : Parser A) (enc : A → list u8) (xs : list A) r :
  (∀ x r, x ∈ xs → p (enc x ++ r) = Some (x, r)) →
  dec_seq p (length xs) ((xs ≫= enc) ++ r) = Some (xs, r).
Proof.
  induction xs as [|x xs IH]; intros Hp; [done|]. rewrite bind_cons, <-app_assoc. simpl.
  rewrite Hp by (by left). simpl. rewrite IH; [done|]. intros y r' Hy. apply Hp. by right.
Qed.

Lemma length_bind_elem {A} (enc : A → list u8) (xs : list A) x : x ∈ xs → length (enc x) ≤ length (xs ≫= enc).
Proof.
  induction xs as [|y xs IH]; [by intros ?%not_elem_of_nil|]. rewrite bind_cons, length_app.
  intros [->|Hx]%elem_of_cons; [lia|]. specialize (IH Hx). lia.
Qed.

Lemma toy_decode_ok (fuel : nat) i r : length (toy_encode i) ≤ fuel → toy_decode fuel (toy_encode i ++ r) = Some (i, r).
Proof.
  revert i r. induction fuel as [|fuel IH]; intros i r Hf; [by destruct i; simpl in Hf; lia|].
  destruct i as [n|z|b| |l|s|l|l]; simpl in Hf |- *.
  - by rewrite dec_N_ok.
  - rewrite dec_N_ok. simpl. do 3 f_equal. destruct (Z.ltb_spec z 0); simpl; lia.
  - by destruct b.
  - done.
  - unfold toy_len. rewrite <-app_assoc, dec_N_ok. simpl. rewrite Nat2N.id.
    by rewrite take_app_length, drop_app_length.
  - unfold toy_len. rewrite <-app_assoc, dec_N_ok. simpl. rewrite Nat2N.id, (dec_seq_ok _ toy_N); [done|].
    intros c r' _. apply dec_N_ok.
  - unfold toy_len in *. rewrite <-app_assoc, dec_N_ok. simpl. rewrite Nat2N.id, (dec_seq_ok _ toy_encode); [done|].
    intros i r' Hi. apply IH. apply (length_bind_elem toy_encode) in Hi. rewrite length_app in Hf. lia.
  - unfold toy_len in *. rewrite <-app_assoc, dec_N_ok. simpl.
    rewrite Nat2N.id, (dec_seq_ok _ (λ kv, toy_encode kv.1 ++ toy_encode kv.2)); [done|].
    intros [a b] r' Hi. apply (length_bind_elem (λ kv, toy_encode kv.1 ++ toy_encode kv.2)) in Hi.
    simpl in Hi |- *. rewrite !length_app in *. unfold dec_pair. rewrite <-app_assoc, IH by lia. simpl. by rewrite IH by lia.
Qed.

Definition toy_item (b : list u8) : option Item := fst <$> toy_decode (length b) b.

Lemma toy_item_ok i : toy_item (toy_encode i) = Some i.
Proof. unfold toy_item. by rewrite <-(app_nil_r (toy_encode i)), toy_decode_ok by (rewrite app_nil_r; done). Qed.

(** ** The leaves, from their items *)

Definition toy_de_key (i : Item) : option Key :=
  match i with
  | IMap [(IUint 1, IMap [(IUint 1, IBytes pk)]); (IUint 2, IUint w); (IUint 3, IMap m)] =>
      pk ← array_try_from 32 pk;
      m ← mapM (λ kv, match kv with (IText k, IText v) => Some (k, v) | _ => None end) m;
      Some (MkKey (PublicKey_Ed25519 (MkEd25519PublicKey pk)) w m)
  | _ => None
  end.

Definition toy_de_leaf (i : Item) : option Value :=
  match i with
  | IMap [(IUint 1, IText s)] => Some (Value_String s)
  | IMap [(IUint 2, IInt n)] => Some (Value_Int n)
  | IMap [(IUint 3, IBool b)] => Some (Value_Bool b)
  | IMap [(IUint 6, key)] => Value_Key <$> toy_de_key key
  | _ => None
  end.

Lemma toy_de_leaf_ok v : kind v = NodeKind_Leaf → toy_de_leaf (ser_value v) = Some v.
Proof.
  destruct v as [s|n|b|items|entries|[[[pk]] w m]]; try done. intros _.
  unfold toy_de_leaf, ser_value, dual_serialize, ser_key, ser_btree, toy_de_key. simpl.
  rewrite array_try_from_slice. simpl.
  assert (mapM (λ kv : Item * Item, match kv with (IText k, IText v) => Some (k, v) | _ => None end)
    (map (λ kv : rstring * rstring, (IText kv.1, IText kv.2)) m) = Some m) as ->; [|done].
  induction m as [|[k v] m IH]; [done|]. simpl. by rewrite IH.
Qed.

(** The envelopes of a list, by their bytes. *)
Definition toy_de_envelope (l : list Envelope) (b : list u8) : option Envelope :=
  head (base.filter (λ e, toy_encode (ser_envelope e) = b) l).

(** ** The engine *)

(** One above the largest id, while there is one. *)
Definition next_rowid (t : gmap Z NodeRow) : option Z :=
  let id := Z.succ (foldr Z.max 0%Z (map_to_list t).*1) in
  if decide (is_i64 id) then Some id else None.

Definition toy_from_millis (z : Z) : option StoredAt :=
  if decide (Z.abs z <= 8210266876799999)%Z then Some (MkStoredAt z) else None.

#[export] Instance toy_rusqlite : Rusqlite := {|
  RusqliteError := rstring;
  ConstraintViolation := str "constraint failed";
  DatabaseFull := str "database or disk is full";
  new_rowid := next_rowid;
  from_timestamp_millis := toy_from_millis;
|}.

#[export] Instance toy_rusqlite_laws : RusqliteLaws.
Proof.
  intros t id. simpl. unfold next_rowid. case_decide; [|done]. intros [= <-].
  destruct (t !! _) as [row|] eqn:Hrow; [|done]. exfalso.
  assert (∀ i, i ∈ (map_to_list t).*1 → (i ≤ foldr Z.max 0 (map_to_list t).*1)%Z) as Hle.
  { generalize (map_to_list t).*1. intros l. induction l as [|a l IH]; [by intros i ?%not_elem_of_nil|].
    intros i [->|Hi]%elem_of_cons; simpl; [lia|]. specialize (IH i Hi). lia. }
  specialize (Hle (Z.succ (foldr Z.max 0 (map_to_list t).*1)%Z)).
  apply elem_of_map_to_list in Hrow. assert (Z.succ (foldr Z.max 0 (map_to_list t).*1)%Z ∈ (map_to_list t).*1) as Hin.
  { apply list_elem_of_fmap. by eexists (_, row). }
  specialize (Hle Hin). lia.
Qed.

(** ** The codec *)

Definition leaf_2 : Envelope := toy_sign signer (set_a leaf_d 12).

Definition leaf_2_d : EnvelopeDigest := digest_of leaf_2.

Definition leaf_3 : Envelope := toy_sign signer (set_a leaf_2_d 13).

Definition leaf_3_d : EnvelopeDigest := digest_of leaf_3.

(** The envelopes the fixtures log. *)
Definition toy_envelopes : list Envelope := [genesis; light; heavy; leaf; leaf_2; leaf_3].

#[export] Instance toy_stored : StoredDecode := {|
  decode_value b :=
    match toy_item b ≫= toy_de_leaf with Some v => Ok v | None => Err WireError_Decode end;
  decode_envelope b :=
    match toy_de_envelope toy_envelopes b with Some e => Ok e | None => Err WireError_Decode end;
|}.

Lemma toy_envelopes_decode :
  Forall (λ e, toy_de_envelope toy_envelopes (toy_encode (ser_envelope e)) = Some e) toy_envelopes.
Proof.
  assert (forallb (λ e, bool_decide (toy_de_envelope toy_envelopes (toy_encode (ser_envelope e)) = Some e))
    toy_envelopes = true) as Hall by (vm_compute; reflexivity).
  apply Forall_forall. intros e He. rewrite forallb_forall in Hall.
  apply list_elem_of_In, Hall in He. by apply bool_decide_eq_true in He.
Qed.

#[export, program] Instance toy_stored_laws : StoredLaws := {|
  rust_envelope e := bool_decide (set_verification_status e Unchecked ∈ toy_envelopes);
|}.
Next Obligation.
  intros v b Hk _ [= <-]. simpl. rewrite toy_item_ok. simpl. by rewrite toy_de_leaf_ok.
Qed.
Next Obligation.
  intros e b He%bool_decide_unpack [= <-]. pose proof toy_envelopes_decode as Hd. rewrite Forall_forall in Hd.
  specialize (Hd _ He). change (ser_envelope (set_verification_status e Unchecked)) with (ser_envelope e) in Hd.
  change (decode_envelope _) with (match toy_de_envelope toy_envelopes (toy_encode (ser_envelope e)) with
    Some e => Ok e | None => Err WireError_Decode end). by rewrite Hd.
Qed.

(** ** The connections *)

(** Calls that all succeed, and calls of which one fails. *)
Definition toy_clock (n : nat) : StoredAt := MkStoredAt (Z.min (Z.of_nat n) 1000000).

Definition quiet : World := MkWorld (λ _, None) (λ _, None) toy_clock (λ _, false) (λ _, 0).

Definition failing_at (n : nat) : World :=
  MkWorld (λ i, if decide (i = n) then Some (str "disk I/O error") else None) (λ _, None) toy_clock
    (λ _, false) (λ _, 0).

Lemma toy_clock_ok (w : World) : wall_clock w = toy_clock → clock_ok w.
Proof.
  intros Hw n. rewrite Hw. unfold toy_clock. simpl. unfold toy_from_millis.
  rewrite decide_True; [done|]. lia.
Qed.

Definition conn_0 : Conn := MkConn Db_empty quiet 0.

(** A genesis stored, and its children. *)
Definition conn_1 : Conn := state_of (chain_init genesis) conn_0.

Definition conn_2 : Conn :=
  (state_of (insert_batch 20 [heavy; leaf; leaf_2]) (chain_1, conn_1)).2.
