(* ===== verification/SqliteProps.v ===== *)
(** * The SQLite backend's properties *)

From S2P Require Import Prelude BTree Text Codec Externals Keys Subkey Msg Envelope Value.
From S2P Require Import Storage Mem Addr StateError Ledger LedgerSpec Fixtures LedgerProps Chain ChainSpec ChainStore ChainInsert ChainCompact ChainFixtures.
From S2P Require Import Sql Sqlite SqlLogic SqliteTree SqliteWrite SqliteCopy SqliteView SqliteStore SqliteSpec.
From S2P Require Import SqliteFixtures SqliteSpec.

(** ** The sample connections are in order *)

Lemma db_empty_ok `{Externals, Rusqlite, !StoredDecode, !StoredLaws} : db_ok Db_empty.
Proof.
  split; [split|..]; simpl.
  - intros p k c. by rewrite lookup_empty.
  - intros p i c. by rewrite lookup_empty.
  - intros h k r. by rewrite lookup_empty.
  - intros b row. by rewrite lookup_empty.
Qed.

(** Order is a matter of the rows. *)
Lemma header_ok `{Externals, Rusqlite, !StoredDecode, !StoredLaws} f d : db_ok d → db_ok (on_header f d).
Proof.
  intros Hok. assert (same_trees d (on_header f d)) as Hs by done. split; [by apply (same_trees_linked d); [|apply Hok]| |apply Hok].
  intros b k r Hr. destruct (ok_roots d Hok b k r Hr) as (Hk & v & Hsp). split; [done|]. exists v. by apply (same_trees_spells d).
Qed.

Lemma conn_0_ok : storage_ok conn_0.
Proof. split; [exact db_empty_ok|by apply toy_clock_ok]. Qed.

Lemma conn_1_chain_at pins :
  (∀ d, Envelope_digest genesis = Ok d → pins d = Some (payload genesis)) →
  chain_ok pins chain_1 conn_1 ∧ size (log (view conn_1)) = 1.
Proof.
  intros Hpins.
  assert (is_Some (Fixtures.value_of (chain_init genesis) conn_0)) as Hval by by_computing.
  assert (is_Some (versions (view conn_1) !! genesis_d)) as Hheld by by_computing.
  assert (size (log (view conn_1)) = 1) as Hsize by by_computing.
  destruct (run_ok (chain_init genesis) conn_0 Hval) as (c & _ & Hrun).
  destruct (wp_Ret _ _ _ _ _ _ (chain_init_wp pins toy_key_id_total genesis conn_0
    conn_0_ok eq_refl eq_refl Hpins) Hrun)
    as (Hok & Hhead & Htip & init & status & _ & Hv & Hl).
  assert (c = chain_1) as ->.
  { destruct c as [root [head]]. cbn [chain_root chain_head chain_ledger ledger_head] in *. subst head.
    destruct Hheld as [x Hx]. unfold conn_1 in Hx. rewrite Hv in Hx. apply lookup_singleton_Some in Hx as [-> _].
    reflexivity. }
  split; [exact Hok|exact Hsize].
Qed.

Lemma conn_1_chain : chain_ok sample_pins chain_1 conn_1 ∧ size (log (view conn_1)) = 1.
Proof. exact (conn_1_chain_at sample_pins genesis_pinned). Qed.

Lemma conn_1_ok : conn_ok conn_1.
Proof. destruct conn_1_chain as [Hok _]. exact (co_storage _ _ _ Hok). Qed.

Definition version_of (c : Conn) (h : EnvelopeDigest) : list (NamespaceKey * Namespace) :=
  default [] (versions (db_view (db c)) !! h).

Lemma conn_1_holds_genesis : versions (db_view (db conn_1)) !! genesis_d = Some (version_of conn_1 genesis_d).
Proof.
  assert (is_Some (versions (db_view (db conn_1)) !! genesis_d)) as [ver Hver] by by_computing.
  unfold version_of. by rewrite Hver.
Qed.

(** ** Commit *)

(** C7: a commit makes exactly the version the operation describes, or changes
    nothing at all. On tables in order that hold the parent's version, an
    operation the pre-validation let through leaves, under the new head, the
    parent's version with the operation applied — every other version and the log
    as they were, though the trees are shared — without a panic on any branch of
    the path copy; and whatever call of the engine fails, the transaction leaves
    every row as it was, the error being the engine's and never one that calls the
    store corrupt. *)
Theorem sqlite_commit_contract `{RusqliteLaws, !Externals, !StoredDecode, !StoredLaws}
    (p h : EnvelopeDigest) (op : NamespaceOp) ver ver' (c : Conn) :
  conn_ok c → p ≠ h → versions (db_view (db c)) !! p = Some ver → rust_op op → op_apply op ver = Some ver' →
  wp (sqlite_commit p h op) c
    (λ _ c', conn_ok c' ∧ db_view (db c') = store_set_version h ver' (db_view (db c)))
    (λ e c', db c' = db c ∧ backend_error e).
Proof.
  intros [Hok Hclock] Hne Hver Hrust Hop.
  eapply wp_mono; [by apply (sqlite_commit_qwp p h op ver ver' (db c) Hok Hne Hver Hrust Hop)|..]; unfold conn_ok.
  - by intros _ c' (-> & ? & ?).
  - by intros e c' (_ & ? & ?).
Qed.

(** A key set in the empty map of [key_m]. *)
Definition set_in_m : NamespaceOp :=
  NamespaceOp_SetAt key_m (mk_path [Subkey_Key (str "k")]) (Some (Value_Array [Value_Int 3; Value_Bool true])).

Lemma sqlite_commit_contract_witness :
  ∃ ver', op_apply set_in_m (version_of conn_1 genesis_d) = Some ver' ∧
    wp (sqlite_commit genesis_d light_d set_in_m) conn_1
      (λ _ c', db_view (db c') = store_set_version light_d ver' (db_view (db conn_1))) (λ _ c', db c' = db conn_1).
Proof.
  assert (is_Some (op_apply set_in_m (version_of conn_1 genesis_d))) as [ver' Hop] by by_computing.
  exists ver'. split; [exact Hop|]. assert (genesis_d ≠ light_d) as Hne by by_computing.
  eapply wp_mono; [apply (sqlite_commit_contract genesis_d light_d set_in_m _ ver' conn_1 conn_1_ok Hne
    conn_1_holds_genesis); [reflexivity|exact Hop]|..].
  - by intros _ c' [_ ?].
  - by intros e c' [? _].
Defined.

(** ** Retention *)

(** C8: retention is an exact garbage collection. It leaves the versions kept, each
    the value it was, and the log; of the trees it leaves the nodes that a root
    still kept reaches, no other, and edges under them only. Where a call fails it
    is as if it had not been asked, or — once the transaction has committed — as
    if it had succeeded, with only the file's tidying left undone. *)
Theorem sqlite_retain_collects `{RusqliteLaws, !Externals, !StoredDecode} (keep : list EnvelopeDigest) (c : Conn) :
  conn_ok c →
  wp (sqlite_retain keep) c
    (λ _ c', db_ok (db c') ∧ db_view (db c') = store_retain keep (db_view (db c)) ∧
      (∀ i, is_Some (t_nodes (db c') !! i) ↔ is_Some (t_nodes (db c) !! i) ∧ live (db c') i) ∧
      (∀ p k, is_Some (t_map_edges (db c') !! (p, k)) → live (db c') p) ∧
      (∀ p i, is_Some (t_array_edges (db c') !! (p, i)) → live (db c') p))
    (λ e c', (db c' = db c ∨ retained keep (db c) (db c')) ∧ backend_error e).
Proof.
  intros [Hok Hclock]. eapply wp_mono; [by apply (sqlite_retain_qwp keep (db c) Hok)|..].
  - by intros _ c' (_ & ?).
  - by intros e c' (_ & ? & ?).
Qed.

Lemma sqlite_retain_collects_witness :
  conn_ok conn_1 ∧
  wp (sqlite_retain []) conn_1 (λ _ c', versions (db_view (db c')) = ∅) (λ e _, backend_error e).
Proof.
  split; [exact conn_1_ok|]. eapply wp_mono; [apply (sqlite_retain_collects [] conn_1 conn_1_ok)|..].
  - intros _ c' (_ & -> & _). apply map_empty. intros h. simpl. apply map_lookup_filter_None. right.
    intros ver _ Hin. by apply not_elem_of_nil in Hin.
  - by intros e c' [_ ?].
Defined.

(** ** Trees *)

(** C31: a value stored is the value read. Whatever tables its edges hang together
    in, inserting a value of the Rust type and materializing its root gives the
    value back — the read ending though it follows edges, not a value — and every
    tree already there spells what it spelled. *)
Theorem tree_roundtrip `{RusqliteLaws, !Externals, !StoredDecode, !StoredLaws} (v : Value) (d : Db) :
  linked d → rust_value v →
  qwp (let! id := insert_value v in let! w := value_at_node id in m_ret (id, w)) d
    (λ r d', r.2 = v ∧ linked d' ∧ t_nodes d !! r.1 = None ∧ ∀ id w, spells d id w → spells d' id w) (λ _, True).
Proof.
  intros Hl Hv. apply qwp_bind. eapply qwp_mono; [by apply insert_value_qwp| |done].
  intros id d' (Hl' & Hg & Hf & Hr). apply qwp_bind. eapply qwp_reads; [by eapply value_at_node_reads|done|].
  intros w ->. apply qwp_ret. split_and!; [done|done|done|]. intros i w Hw. by eapply spells_grows.
Qed.

Lemma tree_roundtrip_witness :
  let v := Value_Map [(str "a", Value_Array [Value_Int 7; Value_Array []]); (str "b", Value_String (str "x"))] in
  qwp (let! id := insert_value v in let! w := value_at_node id in m_ret (id, w)) (db conn_1)
    (λ r _, r.2 = v) (λ _, True).
Proof.
  intros v. eapply qwp_mono; [apply (tree_roundtrip v (db conn_1))|..]; [apply conn_1_ok|vm_compute; exact I| |done].
  by intros r d' [? _].
Defined.

(** ** The log *)

(** C32: an envelope logged is the envelope read, its status included, with the time
    it first came. The encoding leaves the verification status out, so it goes
    through columns of its own: whatever it is — unchecked, failing on any set of
    keys, matched with any weight a [u32] holds — it comes back; and logging a
    digest again, for its status, leaves the time it was first stored at. *)
Theorem log_roundtrip `{RusqliteLaws, !Externals, !StoredDecode, !StoredLaws}
    (dg : EnvelopeDigest) (e : Envelope) (c : Conn) :
  conn_ok c → rust_envelope e → rust_status (verification_status e) →
  wp (do! sqlite_put_envelope dg e in sqlite_logged_envelope dg) c
    (λ r c', conn_ok c' ∧ ∃ entry, r = Some entry ∧ le_envelope entry = e ∧
      timestamp_millis (le_stored_at entry) =
        match t_envelopes (db c) !! digest_slice dg with
        | Some old => row_stored_at old
        | None => timestamp_millis (wall_clock (world c) (calls c))
        end)
    (λ err c', backend_error err ∧ conn_ok c' ∧
      (db_view (db c') = db_view (db c) ∨ db_view (db c') = store_put dg e (db_view (db c)))).
Proof.
  intros [Hok Hclock] He Hst. unfold conn_ok. apply wp_bind. eapply wp_mono; [by apply sqlite_put_wp|..].
  - intros _ c1 (Hw & Hok1 & Hv1 & row & Hrow & Hat).
    eapply wp_mono; [by apply (sqlite_logged_envelope_reads (db c1) dg Hok1)|..].
    + intros r c2 (Hw2 & -> & Hr & Ht). rewrite Hw2, Hw. split; [done|]. rewrite Hv1 in Hr. simpl in Hr.
      rewrite lookup_insert_eq in Hr. destruct r as [entry|]; simplify_eq/=. exists entry. split_and!; [done|done|].
      rewrite Hrow in Ht. simpl in Ht. simplify_eq. by rewrite Ht, <-Hat.
    + intros err c2 (Hw2 & -> & ?). rewrite Hw2, Hw. split_and!; [done|done|done|by right].
  - intros err c1 (Hw & -> & ?). rewrite Hw. split_and!; [done|done|done|by left].
Qed.

(** The heavy child, and it again with a status. *)
Definition failing_heavy : Envelope := set_verification_status heavy (Failed {[signer_id]}).

Lemma log_roundtrip_witness :
  wp (do! sqlite_put_envelope heavy_d failing_heavy in sqlite_logged_envelope heavy_d) conn_1
    (λ r _, le_envelope <$> r = Some failing_heavy) (λ err _, backend_error err).
Proof.
  eapply wp_mono; [apply (log_roundtrip heavy_d failing_heavy conn_1 conn_1_ok)|..];
    [vm_compute; exact I|vm_compute; exact I|..].
  - by intros r c' (_ & entry & -> & <- & _).
  - by intros err c' [? _].
Defined.

(** ** Opening *)

(** A file the backend takes for its own: nobody's, or stamped by it, of a schema
    it knows. *)
Definition acceptable (h : Header) : Prop :=
  (user_version h = 0 ∨ user_version h = SCHEMA_VERSION)%Z ∧ (application_id h = 0 ∨ application_id h = APPLICATION_ID)%Z.

(** The version is written once the tables are there. *)
Definition complete (h : Header) : Prop :=
  user_version h = SCHEMA_VERSION → (list_to_set SCHEMA : gset rstring) ⊆ schema h.

Definition same_rows (d d' : Db) : Prop := d' = on_header (λ _, t_header d') d.

Section setup.
Context `{Externals, Rusqlite}.

Definition with_header (d : Db) (h : Header) : Db := on_header (λ _, h) d.

(** The tables of a failed opening: no row touched, and still to be accepted. *)
Definition half_open (d d' : Db) : Prop := ∃ h, d' = with_header d h ∧ acceptable h ∧ complete h.

Lemma half_open_at d h : acceptable h → complete h → half_open d (with_header d h).
Proof. intros. by exists h. Qed.

Lemma header_update_qwp {B} f d h (k : () → M Conn SqliteError B) (Q : B → Db → Prop) X :
  X (with_header d h) → qwp (k ()) (with_header d (f h)) Q X →
  qwp (m_bind (update SqliteError_Sqlite (on_header f)) k) (with_header d h) Q X.
Proof. intros HX Hk. by apply qwp_bind, qwp_update. Qed.

Lemma create_all_qwp (names : list rstring) d h :
  user_version h = 0%Z → acceptable h →
  qwp (m_for_each (λ name, update SqliteError_Sqlite (on_header (create name))) names) (with_header d h)
    (λ _ d', d' = with_header d (foldl (λ h name, create name h) h names)) (half_open d).
Proof.
  revert h. induction names as [|name names IH]; intros h Hv Ha; simpl; [by apply qwp_ret|].
  apply header_update_qwp; [apply half_open_at; [done|unfold complete; by rewrite Hv]|by apply IH].
Qed.

Lemma created (names : list rstring) h :
  let h' := foldl (λ h name, create name h) h names in
  user_version h' = user_version h ∧ application_id h' = application_id h ∧ auto_vacuum h' = auto_vacuum h ∧
  schema h' = list_to_set names ∪ schema h.
Proof.
  revert h. induction names as [|name names IH]; intros h; simpl; [split_and!; [done..|set_solver]|].
  destruct (IH (create name h)) as (-> & -> & -> & ->). split_and!; [done..|]. simpl. set_solver.
Qed.

Lemma setup_acceptable_qwp d :
  acceptable (t_header d) → complete (t_header d) →
  qwp setup d
    (λ _ d', ∃ h, d' = with_header d h ∧ user_version h = SCHEMA_VERSION ∧ application_id h = APPLICATION_ID ∧
      complete h ∧ (user_version (t_header d) = 0 → application_id (t_header d) = 0 → schema (t_header d) = ∅ →
        auto_vacuum h = INCREMENTAL)%Z)
    (half_open d).
Proof.
  intros Ha Hc. destruct Ha as [Hv Hi]. set (h0 := t_header d) in *.
  assert (half_open d d) as Hd by (exists h0; split; [by destruct d|]; done).
  unfold setup. apply qwp_bind, qwp_select; [done|]. fold h0. rewrite decide_True by done.
  apply qwp_bind, qwp_ret, qwp_bind, qwp_select; [done|]. fold h0.
  (* The stamp. *)
  apply qwp_bind.
  apply (qwp_mono _ _ (λ _ d', ∃ h, d' = with_header d h ∧ user_version h = user_version h0 ∧
    application_id h = APPLICATION_ID ∧ schema h = schema h0 ∧
    (user_version h0 = 0 → application_id h0 = 0 → schema h0 = ∅ → auto_vacuum h = INCREMENTAL)%Z) _ (half_open d));
    [|..|done].
  { assert (d = with_header d h0) as Hd0 by (by destruct d). case_decide as Hid.
    - assert (∀ h, user_version h = user_version h0 → schema h = schema h0 → application_id h = 0%Z →
        (user_version h0 = 0 → application_id h0 = 0 → schema h0 = ∅ → auto_vacuum h = INCREMENTAL)%Z →
        qwp (update SqliteError_Sqlite (on_header (set_application_id APPLICATION_ID))) (with_header d h)
        (λ _ d', ∃ h, d' = with_header d h ∧ user_version h = user_version h0 ∧
          application_id h = APPLICATION_ID ∧ schema h = schema h0 ∧
          (user_version h0 = 0 → application_id h0 = 0 → schema h0 = ∅ → auto_vacuum h = INCREMENTAL)%Z) (half_open d)) as Hstamp.
      { intros h Hhv Hhs Hhi Hav. apply qwp_update.
        - apply half_open_at; [split; [by rewrite Hhv|by left]|unfold complete; by rewrite Hhv, Hhs].
        - by exists (set_application_id APPLICATION_ID h). }
      apply qwp_bind. case_decide as Hver.
      + apply qwp_update; [done|]. rewrite Hd0 at 1. apply (Hstamp (set_auto_vacuum INCREMENTAL h0)); [done|done|done|].
        intros _ _ Hs. simpl. by rewrite decide_True.
      + apply qwp_ret. rewrite Hd0 at 1. by apply Hstamp.
    - destruct Hi as [Hi|Hi]; [by destruct Hid|]. rewrite decide_True by done. apply qwp_ret.
      exists h0. split_and!; [done..|]. by intros _ ?. }
  intros u d1 (h & -> & Hhv & Hhi & Hhs & Hav).
  assert (half_open d (with_header d h)) as Hd1.
  { apply half_open_at; [split; [by rewrite Hhv|by right]|unfold complete; by rewrite Hhv, Hhs]. }
  do 5 (apply qwp_bind, qwp_call; [done|]). case_decide as Hver.
  - apply qwp_bind. eapply qwp_mono; [apply (create_all_qwp SCHEMA d h); [congruence|]| |done].
    { split; [left; congruence|by right]. }
    intros u' d2 ->. destruct (created SCHEMA h) as (Hcv & Hci & Hca & Hcs). cbv zeta in *.
    set (h2 := foldl _ h SCHEMA) in *. clearbody h2.
    apply qwp_update.
    + apply half_open_at; [split; [left; congruence|right; congruence]|]. unfold complete. rewrite Hcv, Hhv, Hver. done.
    + exists (set_user_version SCHEMA_VERSION h2). split_and!; [done|done|exact (eq_trans Hci Hhi)| |].
      * intros _. unfold set_user_version. cbn [schema]. rewrite Hcs. apply union_subseteq_l.
      * unfold set_user_version. cbn [auto_vacuum]. by rewrite Hca.
  - apply qwp_ret. exists h. destruct Hv as [Hv|Hv]; [by destruct Hver|]. split_and!; [done|congruence|done| |done].
    unfold complete. by rewrite Hhv, Hhs.
Qed.

(** What a foreign file is refused with, unless the engine fails first. *)
Definition refusal (h : Header) (e : SqliteError) : Prop :=
  match e with
  | SqliteError_SchemaVersion v => v = user_version h
  | SqliteError_ApplicationId id => id = application_id h
  | e => backend_error e
  end.
End setup.

(** C34: opening takes only a file of its own, and can always be tried again. A file
    of another schema version or stamped by another application is refused
    unwritten, by the number it carries. On one of its own — or nobody's — a successful opening leaves every
    row alone, the stamp and the version written, every table there, and the
    vacuum mode chosen where the file was fresh; and at whatever call it fails,
    no row was touched and the file is still one to accept, whose version is
    written only over a complete schema. *)
Theorem setup_contract `{Externals, Rusqlite} (c : Conn) :
  complete (t_header (db c)) →
  wp setup c
    (λ _ c', acceptable (t_header (db c)) ∧ ∃ h, db c' = with_header (db c) h ∧ user_version h = SCHEMA_VERSION ∧
      application_id h = APPLICATION_ID ∧ (list_to_set SCHEMA : gset rstring) ⊆ schema h ∧
      (user_version (t_header (db c)) = 0 → application_id (t_header (db c)) = 0 → schema (t_header (db c)) = ∅ →
        auto_vacuum h = INCREMENTAL)%Z)
    (λ e c', (acceptable (t_header (db c)) → backend_error e) ∧ (¬ acceptable (t_header (db c)) → db c' = db c ∧ refusal (t_header (db c)) e) ∧
      (acceptable (t_header (db c)) → half_open (db c) (db c'))).
Proof.
  intros Hc. assert (Decision (acceptable (t_header (db c)))) as Hdec by (unfold acceptable; apply _).
  destruct Hdec as [Ha|Ha].
  - eapply wp_mono; [by apply (setup_acceptable_qwp (db c) Ha Hc)|..].
    + intros _ c' (_ & h & Hd & Hv & Hi & Hcomp & Hav). split; [done|]. exists h. split_and!; [done|done|done|by apply Hcomp|done].
    + by intros e c' (_ & Hd & ?).
  - assert (∀ e : SqliteError, refusal (t_header (db c)) e → (acceptable (t_header (db c)) → backend_error e) ∧ (¬ acceptable (t_header (db c)) → db c = db c ∧ refusal (t_header (db c)) e) ∧
      (acceptable (t_header (db c)) → half_open (db c) (db c))) as Hrefused by naive_solver.
    unfold wp, setup, m_bind, select, sql. destruct (outcome (world c) (calls c)); [by apply Hrefused|].
    cbn [fst snd db world calls]. case_decide as Hv; [|by apply Hrefused]. cbn [m_ret db world calls].
    destruct (outcome (world c) (S (calls c))); [by apply Hrefused|]. cbn [fst snd db world calls].
    case_decide as Hi0; [by destruct Ha; split; [|left]|]. case_decide as Hi; [by destruct Ha; split; [|right]|by apply Hrefused].
Qed.

Lemma setup_contract_witness :
  wp setup conn_0 (λ _ c', auto_vacuum (t_header (db c')) = INCREMENTAL) (λ e _, backend_error e) ∧
  match setup conn_0 with Ret (Ok _, c') => user_version (t_header (db c')) = SCHEMA_VERSION | _ => False end.
Proof.
  split; [|vm_compute; reflexivity]. eapply wp_mono; [apply (setup_contract conn_0)|..].
  - intros Hv. vm_compute in Hv. discriminate.
  - intros _ c' (_ & h & -> & _ & _ & _ & Hav). by apply Hav.
  - intros e c' [He _]. apply He. split; by left.
Defined.

(** ** Every connection there can be *)

(** What leaves every row, whatever call of it fails. *)
Section rows.
Context `{Externals, Rusqlite}.

Definition rows_left (c c' : Conn) : Prop := world c' = world c ∧ same_rows (db c) (db c').

Definition keeps_rows {A} (m : M Conn SqliteError A) : Prop := ∀ c, wp m c (λ _, rows_left c) (λ _, rows_left c).

Lemma rows_left_same c c' : world c' = world c → db c' = db c → rows_left c c'.
Proof using. intros Hw Hd. split; [done|]. unfold same_rows. rewrite Hd. by destruct (db c). Qed.

Lemma rows_left_refl c : rows_left c c.
Proof using. by apply rows_left_same. Qed.

Lemma rows_left_trans c1 c2 c3 : rows_left c1 c2 → rows_left c2 c3 → rows_left c1 c3.
Proof using. intros [Hw Hd] [Hw' Hd']. split; [congruence|]. unfold same_rows in *. rewrite Hd', Hd. by destruct (db c1). Qed.

Lemma keeps_rows_ret {A} (a : A) : keeps_rows (m_ret a).
Proof using. intros c. apply rows_left_refl. Qed.

Lemma keeps_rows_err {A} e : keeps_rows (A:=A) (m_err e).
Proof using. intros c. apply rows_left_refl. Qed.

Lemma keeps_rows_bind {A B} (m : M Conn SqliteError A) (k : A → M Conn SqliteError B) :
  keeps_rows m → (∀ a, keeps_rows (k a)) → keeps_rows (m_bind m k).
Proof using.
  intros Hm Hk c. apply wp_bind. eapply wp_mono; [apply Hm| |done]. intros a c1 H1.
  eapply wp_mono; [apply Hk|..]; intros ? c2 H2; exact (rows_left_trans _ _ _ H1 H2).
Qed.

Lemma keeps_rows_select {A} (q : Db → A) : keeps_rows (select SqliteError_Sqlite q).
Proof using. intros c. unfold wp, select, sql. destruct (outcome _ _); by apply rows_left_same. Qed.

Lemma keeps_rows_update f : keeps_rows (update SqliteError_Sqlite (on_header f)).
Proof using.
  intros c. unfold wp, update, sql. destruct (outcome _ _); [by apply rows_left_same|].
  split; [done|]. unfold same_rows. simpl. by destruct (db c).
Qed.

Lemma keeps_rows_for_each {A} (m : A → M Conn SqliteError ()) l : (∀ a, keeps_rows (m a)) → keeps_rows (m_for_each m l).
Proof using. intros Hm. induction l as [|a l IH]; simpl; [apply keeps_rows_ret|by apply keeps_rows_bind]. Qed.

Lemma setup_keeps_rows : keeps_rows setup.
Proof using.
  unfold setup, call.
  repeat first [apply keeps_rows_bind; [|intros ?] | apply keeps_rows_select | apply keeps_rows_update
    | apply keeps_rows_for_each; intros ? | apply keeps_rows_ret | apply keeps_rows_err | case_decide].
Qed.
End rows.

(** What a connection may be asked to write. *)
Inductive Request : Type :=
  | Request_commit (parent head : EnvelopeDigest) (op : NamespaceOp)
  | Request_install (head : EnvelopeDigest) (namespaces : list (NamespaceKey * Namespace))
  | Request_retain (keep : list EnvelopeDigest)
  | Request_put (digest : EnvelopeDigest) (envelope : Envelope)
  | Request_remove (digest : EnvelopeDigest)
  | Request_setup.

Section requests.
Context `{Externals, Rusqlite, !StoredDecode, !StoredLaws}.

Definition serve_request (r : Request) : M Conn SqliteError () :=
  match r with
  | Request_commit parent head op => sqlite_commit parent head op
  | Request_install head namespaces => sqlite_install head namespaces
  | Request_retain keep => sqlite_retain keep
  | Request_put digest envelope => sqlite_put_envelope digest envelope
  | Request_remove digest => sqlite_remove_envelope digest
  | Request_setup => setup
  end.

(** What may be asked: values of the Rust types, and of a commit an operation that
    applies to the version held of another head. *)
Definition may_ask (c : Conn) (r : Request) : Prop :=
  match r with
  | Request_commit parent head op =>
      parent ≠ head ∧ rust_op op ∧ is_Some (versions (db_view (db c)) !! parent ≫= op_apply op)
  | Request_install _ namespaces => forallb (λ kn, rust_value (ns_value kn.2)) namespaces
  | Request_put _ envelope => rust_envelope envelope ∧ rust_status (verification_status envelope)
  | _ => True
  end.

(** A request that ended, well or not, whatever call of the engine failed; or the
    file opened again, in a world of other failures. *)
Inductive conn_step : Conn → Conn → Prop :=
  | conn_served r c res c' : may_ask c r → serve_request r c = Ret (res, c') → conn_step c c'
  | conn_reopened c w n : clock_ok w → conn_step c (MkConn (db c) w n).

Context {Hlaws : RusqliteLaws}.

(** A triple on the tables keeps a connection in order. *)
Lemma qwp_conn_ok {A} (m : M Conn SqliteError A) c (Q : A → Db → Prop) X :
  conn_ok c → qwp m (db c) Q X → (∀ a d, Q a d → db_ok d) → (∀ d, X d → db_ok d) →
  wp m c (λ _, conn_ok) (λ _, conn_ok).
Proof using.
  intros [_ Hclock] Hm HQ HX. eapply wp_mono; [by apply Hm|..]; unfold conn_ok.
  - intros a c' [-> Hq]. split; [by eapply HQ|done].
  - intros e c' (-> & Hx & _). split; [by apply HX|done].
Qed.

Lemma request_ok r c :
  conn_ok c → may_ask c r → wp (serve_request r) c (λ _, conn_ok) (λ _, conn_ok).
Proof using Hlaws.
  intros Hc Hr. pose proof Hc as [Hok Hclock]. assert (∀ d, d = db c → db_ok d) as Hsame by (by intros d ->).
  destruct r as [p h op|h l|keep|dg e|dg|]; simpl in *.
  - destruct Hr as (Hne & Hrust & ver' & (ver & Hver & Hop)%bind_Some).
    eapply qwp_conn_ok; [done|by eapply sqlite_commit_qwp|by intros a d [? _]|done].
  - eapply qwp_conn_ok; [done|by apply sqlite_install_qwp|by intros a d [? _]|done].
  - eapply qwp_conn_ok; [done|by apply sqlite_retain_qwp|by intros a d [? _]|by intros d [->|[? _]]].
  - destruct Hr. unfold conn_ok. eapply wp_mono; [by apply sqlite_put_wp|..].
    + by intros u c' (-> & ? & _).
    + by intros err c' (-> & -> & _).
  - eapply qwp_conn_ok; [done|by apply sqlite_remove_qwp|by intros a d [? _]|done].
  - eapply wp_mono; [apply setup_keeps_rows|..]; unfold conn_ok; intros _ c' [-> Hrows].
    all: split; [|done]; rewrite Hrows; by apply header_ok.
Qed.

(** In order, from an empty file on. *)
Lemma conn_reachable_ok w c : clock_ok w → rtc conn_step (MkConn Db_empty w 0) c → conn_ok c.
Proof using Hlaws.
  intros Hw Hc. assert (conn_ok (MkConn Db_empty w 0)) as Hin by (by split; [apply db_empty_ok|]).
  induction Hc as [c|c1 c2 c Hstep _ IH]; [done|]. apply IH.
  destruct Hstep as [r c1 res c' Hr Hs|c1 w' n Hw']; [|by split; [apply Hin|]].
  pose proof (request_ok r c1 Hin Hr) as Hwp. unfold wp in Hwp. rewrite Hs in Hwp. by destruct res.
Qed.
End requests.

(** C33: whatever is asked of a database, it holds values of the Rust types only.
    From an empty file, by requests of every kind that end well or fail at any call
    of the engine, and by openings in between, only connections are reached of which
    every value of every version is one the Rust types admit — integers within an
    [i64], weights within a [u32], texts of scalar values, maps in key order at
    every depth — with the namespaces in key order; and none is reached at which a
    further request would panic. *)
Theorem stored_values_typed `{Externals, Rusqlite, !StoredDecode, !StoredLaws, !RusqliteLaws} (w : World) (c : Conn) :
  clock_ok w → rtc conn_step (MkConn Db_empty w 0) c →
  (∀ h ver, versions (db_view (db c)) !! h = Some ver →
    bt_sorted ver ∧ Forall (λ kn, rust_value (ns_value kn.2)) ver) ∧
  (∀ r, may_ask c r → ∃ res c', serve_request r c = Ret (res, c')).
Proof.
  intros Hw Hc. pose proof (conn_reachable_ok w c Hw Hc) as Hcok. pose proof Hcok as [Hok _]. split.
  - intros h ver [_ ->]%view_version_Some. split; [apply version_at_sorted|]. apply Forall_forall.
    intros [key n] (r & v & Hr & Hv & ->)%elem_of_version_at. simpl.
    destruct (ok_roots _ Hok _ _ _ Hr) as (_ & x & Hx). rewrite (root_value_repr _ _ _ _ Hx) in Hv. simplify_eq.
    by eapply repr_rust.
  - intros r Hr. pose proof (request_ok r c Hcok Hr) as Hwp. unfold wp in Hwp.
    destruct (serve_request r c) as [[res c']| |]; [by exists res, c'|done..].
Qed.

(** A genesis installed, and a commit on it. *)
Definition conn_installed : Conn := state_of (serve_request (Request_install genesis_d (version_of conn_1 genesis_d))) conn_0.

Definition conn_committed : Conn := state_of (serve_request (Request_commit genesis_d light_d set_in_m)) conn_installed.

Lemma conn_committed_reached : rtc conn_step conn_0 conn_committed.
Proof.
  assert (is_Some (Fixtures.value_of (serve_request (Request_install genesis_d (version_of conn_1 genesis_d))) conn_0)) as H1
    by by_computing.
  assert (is_Some (Fixtures.value_of (serve_request (Request_commit genesis_d light_d set_in_m)) conn_installed)) as H2
    by by_computing.
  assert (may_ask conn_0 (Request_install genesis_d (version_of conn_1 genesis_d))) as M1 by (vm_compute; exact I).
  assert (genesis_d ≠ light_d ∧ rust_op set_in_m ∧
    is_Some (versions (db_view (db conn_installed)) !! genesis_d ≫= op_apply set_in_m)) as M2.
  { split; [by_computing|]. split; [vm_compute; exact I|by_computing]. }
  destruct (run_ok _ _ H1) as ([] & _ & R1). destruct (run_ok _ _ H2) as ([] & _ & R2).
  exact (rtc_l _ _ _ _ (conn_served _ _ _ _ M1 R1)
    (rtc_once _ _ (conn_served (Request_commit genesis_d light_d set_in_m) conn_installed _ _ M2 R2))).
Qed.

Lemma stored_values_typed_witness :
  Forall (λ kn, rust_value (ns_value kn.2)) (version_of conn_committed light_d) ∧ length (version_of conn_committed light_d) = 4.
Proof.
  split; [|vm_compute; reflexivity].
  assert (is_Some (versions (db_view (db conn_committed)) !! light_d)) as [ver Hver] by by_computing.
  unfold version_of. rewrite Hver.
  exact (proj2 (proj1 (stored_values_typed quiet conn_committed (toy_clock_ok quiet eq_refl) conn_committed_reached) _ _ Hver)).
Defined.

(** ** Through the chain *)

(** The sample chain at its fourth envelope, over its database. *)
Definition chain_2 : Chain := MkChain genesis_d (MkLedger leaf_2_d).

Definition over (w : World) : Chain * Conn := (chain_2, MkConn (db conn_2) w 0).

(** What an insert said, and the head an error names as unknown. *)
Definition insert_said (r : Result (Error SqliteError) Insert) : Insert + option EnvelopeDigest :=
  match r with
  | Ok i => inl i
  | Err (Error_UnknownHead d) => inr (Some d)
  | Err _ => inr None
  end.

(** Compacting to the third envelope, then inserting a fifth: how many were pruned
    and the head after; what the insert said, the head then, and whether it stored
    its envelope. *)
Definition compact_then_insert (w : World) :=
  let cs := state_of (compact 20 leaf_d) (over w) in
  (Fixtures.value_of (compact 20 leaf_d) (over w), chain_head cs.1,
    match insert 20 leaf_3 (cs.1, MkConn (db cs.2) quiet 0) with
    | Ret (r, cs') => Some (insert_said r, chain_head cs'.1, bool_decide (is_Some (log (view cs'.2) !! leaf_3_d)))
    | _ => None
    end).

#[local] Instance Insert_eq_dec : EqDecision Insert.
Proof. solve_decision. Defined.

(** C9: a compaction that fails late takes the head away from a chain still running.
    Over any backend, and at any cut above the root on the way to the head, a
    compaction that fails leaves the chain's root where it was. Where the prune had
    left no logged child of that root, the next insert — of any run that does not
    start at the root, the head's own next envelope included — stores it and reports
    a reorganization from the head to the old root, or fails with the head there, or
    by the backend. Where what fails came after the retention, the root's version is
    gone, and every insert is refused for the root being unknown, or by the backend.
    A compaction that succeeds leaves the head the tip from the cut. *)
Theorem failed_compaction_loses_head `{Externals} {S E : Type} `{StorageSpec S E}
    (pins : EnvelopeDigest → option Msg) (rank : EnvelopeDigest → nat)
    (Hid : ∀ k, is_Some (Key_id k)) (Hhash : HashOk pins rank)
    (fuel fuel' : nat) (cut : EnvelopeDigest) (run : list Envelope) (self : Chain) (s : S) :
  let root := chain_root self in
  chain_ok pins self s → is_Some (versions (view s) !! chain_head self) →
  tip (log (view s)) root (chain_head self) →
  cut ≠ root → ancestor (log (view s)) root cut → ancestor (log (view s)) cut (chain_head self) →
  Forall (λ e, prev_of e ≠ Some root) run → batch_pinned pins run →
  2 * size (log (view s)) + 2 ≤ fuel → size (log (view s)) + length run + 1 < fuel' →
  wp (compact fuel cut) (self, s)
    (λ _ cs, chain_root cs.1 = cut ∧ chain_head cs.1 = chain_head self ∧ tip (log (view cs.2)) cut (chain_head self))
    (λ e cs, cs.1 = self ∧
      if decide (is_Some (versions (view cs.2) !! root)) then
        childless (view cs.2) root →
        wp (insert_batch fuel' run) cs
          (λ ins cs', ins = Insert_Reorged (chain_head self) ∧ chain_head cs'.1 = root)
          (λ e cs', chain_head cs'.1 = root ∨ cs'.1 = self ∧ ∃ x, e = Error_Storage x)
      else
        wp (insert_batch fuel' run) cs (λ _ _, False)
          (λ e cs', cs'.1 = self ∧ (e = Error_UnknownHead root ∨ ∃ x, e = Error_Storage x))).
Proof.
  intros root Hok Hheld Htip Hne Hrc Hch Hrun Hpins Hfuel Hfuel'.
  pose proof (inv_ranked pins rank Hhash _ _ (co_inv _ _ _ Hok)) as Hr.
  assert (rank root < rank cut) as Hlt.
  { destruct Hrc as [x|x y z Hc Hyz]; [done|]. pose proof (Hr x y Hc). pose proof (ancestor_rank rank _ Hr y z Hyz). lia. }
  pose proof (ancestor_rank rank _ Hr _ _ Hch) as Hle.
  eapply wp_mono; [apply (compact_wp pins rank Hhash fuel cut self s); try done|..].
  - intros n cs (_ & Hroot & Hhead & Htip' & _). done.
  - intros e [c s'] [Hsame Hcases]. cbn [fst snd] in *. subst c. split; [done|].
    destruct Hcases as [(_ & Hn & _)|(_ & Hsub & _ & [[Hok' _]|[Hok' Hv]])]; [by destruct Hn| |].
    + rewrite decide_True by apply Hok'. intros Hnone.
      apply (insert_stranded_wp pins rank Hid Hhash); try done; [unfold root in *; lia|].
      apply subseteq_dom, subseteq_size in Hsub. rewrite !size_dom in Hsub. lia.
    + rewrite decide_False; [by apply (insert_unrooted_wp pins rank Hid Hhash fuel' run self (MkChain cut (chain_ledger self)))|].
      intros [v (_ & Hcr & _)%Hv]. pose proof (ancestor_rank rank _ Hr _ _ Hcr). lia.
Qed.

(** The table of the sample envelopes, with the two over the database alone. *)
Definition long_table : list (EnvelopeDigest * (Msg * nat)) :=
  (leaf_2_d, (payload leaf_2, 3)) :: (leaf_3_d, (payload leaf_3, 4)) :: sample_table.

Lemma long_hash_ok : HashOk (pins_of long_table) (rank_of long_table).
Proof. apply table_hash_ok. vm_compute. reflexivity. Qed.

Lemma long_pinned e m r :
  pin_lookup long_table (digest_of e) = Some (m, r) → m = payload e →
  ∀ d, Envelope_digest e = Ok d → pins_of long_table d = Some (payload e).
Proof. intros Hl -> d Hd. apply digest_of_ok in Hd as <-. unfold pins_of. by rewrite Hl. Qed.

Lemma long_cons e m r l :
  pin_lookup long_table (digest_of e) = Some (m, r) → m = payload e → batch_pinned (pins_of long_table) l →
  batch_pinned (pins_of long_table) (e :: l).
Proof. intros He Hm Hl e' d [->|Hin]%elem_of_cons Hd; [by eapply long_pinned|by eapply Hl]. Qed.

Lemma long_run_pinned : batch_pinned (pins_of long_table) [heavy; leaf; leaf_2].
Proof.
  apply (long_cons _ (payload heavy) 1); [unfold long_table, sample_table; pinned_at|done|].
  apply (long_cons _ (payload leaf) 2); [unfold long_table, sample_table; pinned_at|done|].
  apply (long_cons _ (payload leaf_2) 3); [unfold long_table, sample_table; pinned_at|done|]. apply batch_pinned_nil.
Qed.

Lemma leaf_3_pinned : batch_pinned (pins_of long_table) [leaf_3].
Proof.
  apply (long_cons _ (payload leaf_3) 4); [unfold long_table, sample_table; pinned_at|done|]. apply batch_pinned_nil.
Qed.

Lemma long_genesis d : Envelope_digest genesis = Ok d → pins_of long_table d = Some (payload genesis).
Proof. apply (long_pinned genesis (payload genesis) 0); [unfold long_table, sample_table; pinned_at|done]. Qed.

(** A state read by its root and its head. *)
Lemma chain_2_read (cs : Chain * Conn) n :
  chain_ok (pins_of long_table) cs.1 cs.2 → chain_root cs.1 = genesis_d → chain_head cs.1 = leaf_2_d →
  is_Some (versions (view cs.2) !! chain_head cs.1) → tip (log (view cs.2)) genesis_d (chain_head cs.1) →
  size (log (view cs.2)) ≤ n →
  chain_ok (pins_of long_table) chain_2 cs.2 ∧ is_Some (versions (view cs.2) !! leaf_2_d) ∧
  tip (log (view cs.2)) genesis_d leaf_2_d ∧ size (log (view cs.2)) ≤ n.
Proof. destruct cs as [[root [hd]] c]. cbn [fst snd chain_root chain_head chain_ledger ledger_head]. by intros Hok -> ->. Qed.

(** The sample database, its chain at the fourth envelope. *)
Lemma conn_2_chain :
  chain_ok (pins_of long_table) chain_2 conn_2 ∧ is_Some (versions (view conn_2) !! leaf_2_d) ∧
  tip (log (view conn_2)) genesis_d leaf_2_d ∧ size (log (view conn_2)) ≤ 4.
Proof.
  destruct (conn_1_chain_at _ long_genesis) as [Hok Hsize].
  assert (is_Some (Fixtures.value_of (insert_batch 20 [heavy; leaf; leaf_2]) (chain_1, conn_1))) as Hval by by_computing.
  destruct (run_ok (insert_batch 20 [heavy; leaf; leaf_2]) _ Hval) as (i & _ & Hrun).
  assert (chain_head (state_of (insert_batch 20 [heavy; leaf; leaf_2]) (chain_1, conn_1)).1 = leaf_2_d) as Hhead by by_computing.
  destruct (wp_Ret _ _ _ _ _ _ (insert_batch_wp (pins_of long_table) (rank_of long_table) toy_key_id_total long_hash_ok 20
    [heavy; leaf; leaf_2] chain_1 conn_1 Hok long_run_pinned ltac:(rewrite Hsize; simpl; lia)) Hrun)
    as (Hok' & Hroot & Hfrom & Hheld & Htip & _).
  apply stored_from_size in Hfrom. rewrite Hsize in Hfrom.
  exact (chain_2_read _ 4 Hok' Hroot Hhead Hheld Htip Hfrom).
Qed.

Lemma child_read (lg : gmap EnvelopeDigest Envelope) p d : lg !! d ≫= prev_of = Some p → logged_child lg p d.
Proof. by intros (e & He & Hp)%bind_Some; exists e. Qed.

Lemma conn_2_ways : ancestor (log (view conn_2)) genesis_d leaf_d ∧ ancestor (log (view conn_2)) leaf_d leaf_2_d.
Proof.
  assert ((log (view conn_2) !! heavy_d) ≫= prev_of = Some genesis_d) as H1 by by_computing.
  assert ((log (view conn_2) !! leaf_d) ≫= prev_of = Some heavy_d) as H2 by by_computing.
  assert ((log (view conn_2) !! leaf_2_d) ≫= prev_of = Some leaf_d) as H3 by by_computing.
  exact (conj (rtc_l _ _ _ _ (child_read _ _ _ H1) (rtc_once _ _ (child_read _ _ _ H2))) (rtc_once _ _ (child_read _ _ _ H3))).
Qed.

Lemma over_ok w : wall_clock w = toy_clock → chain_ok (pins_of long_table) chain_2 (over w).2.
Proof.
  intros Hw. destruct conn_2_chain as [[[Hdb _] Hinv Hroot] _]. split; [split; [exact Hdb|by apply toy_clock_ok]|exact Hinv|exact Hroot].
Qed.

(** What becomes of it: where the fifteenth call fails, the sixteenth, and none. *)
Lemma failed_compaction_loses_head_witness :
  wp (compact 20 leaf_d) (chain_2, (over (failing_at 15)).2) (λ _ _, True)
    (λ e cs, if decide (is_Some (versions (view cs.2) !! genesis_d)) then
        childless (view cs.2) genesis_d →
        wp (insert_batch 20 [leaf_3]) cs (λ ins cs', ins = Insert_Reorged leaf_2_d ∧ chain_head cs'.1 = genesis_d)
          (λ e cs', chain_head cs'.1 = genesis_d ∨ cs'.1 = chain_2 ∧ ∃ x, e = Error_Storage x)
      else True) ∧
  compact_then_insert (failing_at 15) =
    (None, leaf_2_d, Some (inl (Insert_Reorged leaf_2_d), genesis_d, true)) ∧
  compact_then_insert (failing_at 16) =
    (None, leaf_2_d, Some (inr (Some genesis_d), leaf_2_d, true)) ∧
  compact_then_insert quiet = (Some 2%N, leaf_2_d, Some (inl Insert_Extended, leaf_3_d, true)).
Proof.
  split; [|split_and!; by_computing].
  destruct conn_2_chain as (_ & Hheld & Htip & Hsize). destruct conn_2_ways as [Hrc Hch].
  pose proof (over_ok (failing_at 15) eq_refl) as Hok.
  assert (leaf_d ≠ genesis_d) as Hne by by_computing.
  assert (Forall (λ e, prev_of e ≠ Some genesis_d) [leaf_3]) as Hrun by by_computing.
  eapply wp_mono; [apply (failed_compaction_loses_head (pins_of long_table) (rank_of long_table) toy_key_id_total long_hash_ok
    20 20 leaf_d [leaf_3] chain_2 (over (failing_at 15)).2 Hok Hheld Htip Hne Hrc Hch Hrun leaf_3_pinned)|..].
  - change (2 * size (log (view conn_2)) + 2 ≤ 20). lia.
  - change (size (log (view conn_2)) + 1 + 1 < 20). lia.
  - done.
  - intros e cs [_ Hcs]. cbn [chain_root chain_2] in Hcs. destruct (decide (is_Some (versions (view cs.2) !! genesis_d))); [exact Hcs|done].
Defined.
